(* ===== verification/_CoqProject ===== *)
-Q . S2P
Prelude.v
Double.v
Rounding.v
Stats.v
Strto.v
Queue.v
RingBuffer.v
SpscConcurrent.v
StaleQueue.v
FeedEvent.v
Packet.v
Xsk.v
Umem.v
XdpSocket.v
TxPath.v
FeedHandler.v
Pipeline.v
Progress.v
Pcap.v
Sender.v
Replay.v
Rates.v
Streams.v
Tools.v
OnTime.v
Cli.v
Bench.v
Throughput.v
Table.v
Baseline.v
Measured.v
