(* ===== verification/Prelude.v ===== *)
(** * ultrafast-feed: a verification development

    ultrafast-feed receives UDP market data through AF_XDP.  The kernel
    writes frames into a shared region (UMEM); a receive thread takes batches
    of descriptors from the RX ring, parses each frame in place, copies what
    matters into a [FeedEvent], pushes it into a lock-free single-producer
    single-consumer ring, and gives the frames back through the fill ring; a
    consumer thread pops events.  Around this core there are a capture file
    writer and reader, a synthetic sender that stamps datagrams, two
    command-line tools and three benchmarks.

    ** The files

    - Prelude: this file.  C++ outcomes ([Ret] or [Undef] for undefined
      behaviour), machine integers as [Z] with their wrap, bytes and byte
      order, byte memory, array access, and the lemmas and tactics the other
      files share.
    - Double: IEEE binary64 as the Standard Library specifies it, what is
      exact, and the two ways a compiler may divide ([quotient]); Rounding:
      the error and the monotonicity of conversions, products and divisions; Stats: sorted samples and the index of a percentile computed
      in [double]; Strto: [std::stoull] and [std::stod].
    - Queue: the bounded FIFO queue as a specification and as the class
      [BoundedQueue] through which the handler uses its ring.
    - RingBuffer: include/ultrafast/spsc_ring_buffer.hpp, each operation run
      to completion, at the width of [std::size_t].  [ring_queue] is its
      [BoundedQueue] instance.
    - SpscConcurrent: the same file as two threads, one memory access per
      step.  [push_step] and [pop_step] carry the memory orders of the
      source; atomics keep their modification order with views, loads may be
      stale, and an unordered access to a slot is a data race.
      StaleQueue: its abstract specification, a bounded queue whose threads
      learn late of each other's progress.
    - FeedEvent: include/ultrafast/feed_event.hpp.
    - Packet: include/ultrafast/packet.hpp, over the bytes of the region; a
      read outside the region is [Undef].
    - Xsk: what the code uses of libxdp and of the kernel.  The producer and
      consumer rings are classes with the documented laws ([XskProd],
      [XskCons]), with list-backed instances that satisfy them; [world] is
      the ledger of mappings, UMEM handles and sockets.
    - Umem: include/ultrafast/umem.hpp and src/umem.cpp.
    - XdpSocket: include/ultrafast/xdp_socket.hpp and src/xdp_socket.cpp;
      TxPath: the transmit path as a client of a [Umem] and a socket uses it,
      with the kernel.
    - FeedHandler: include/ultrafast/feed_handler.hpp and
      src/feed_handler.cpp.  [make_event] is the per-frame code of [rx_loop],
      [rx_turn] the body of its [while] loop.
    - Pipeline: the running system.  [thread_step] is [rx_loop] as a state
      machine with one shared action per step; [sys_step] adds the consumer,
      the control thread ([start], [stop]) and the kernel.  Progress: what
      the machine gets done.
    - Pcap: include/ultrafast/pcap_writer.hpp and pcap_reader.hpp over a model
      of C streams that hold written bytes back and can run out of space.
    - Sender: include/ultrafast/synthetic_sender.hpp over the descriptor
      table and the network namespace of the process.
    - Replay: the timed replay of pcap_reader.hpp ([replay_at_rate]), with
      doubles; Rates: its due times at any rate.  Streams: the open streams
      of programs that use readers and writers.
    - Tools: tools/replay_feed.cpp ([do_generate], [do_replay] with its drift
      statistics) and tools/test_sender.cpp ([test_sender_main]);
      OnTime: the replay tool with sleeps that last as long as asked for;
      Cli: the command line of the replay tool ([main]).
    - Bench: bench/bench_spsc_ring_buffer.cpp and bench/bench_xdp_socket.cpp;
      Throughput: the two-threaded benchmark of the former, on the machine of
      SpscConcurrent.
    - Baseline: bench/bench_baseline_comparison.cpp, the latency measurement
      against any receiver ([measure]), the passes with what they construct
      and destroy ([run_af_xdp]), [main], and Table, its results
      ([print_table]).  Measured: the measurement with the running system of
      Pipeline as its receiver.

    ** What the theorems show

    - Ring: the operations refine the bounded queue of capacity N - 1
      ([ring_refines_queue]); under concurrency there is no data race, items
      come out in the order accepted ([spsc_fifo]), the ring never holds more
      than N - 1, a push is refused only when the ring is full by what the
      producer knows, and both sides are wait-free ([spsc_wait_free]).  Every execution is one of the abstract queue of
      StaleQueue, call by call ([spsc_refines_stale_queue]), whose calls are
      those of the bounded queue for a thread that knows the other's
      progress ([stale_queue_is_bounded_queue]).
      In the two-threaded benchmark every item is accepted once and in order,
      but the relaxed flag lets the consumer leave before the ring is empty
      ([throughput_accounts], [drain_may_leave_items]).
    - Packet and event: no accessor leaves the region, parsing inverts frame
      building, and the event of a built frame is exact.  The lengths a
      frame declares are trusted: [payload_span_can_leave_region],
      [event_copies_past_frame] and [udp_ignores_ether_type] state what that
      permits.
    - Resources: any program over [XdpSocket] or [SyntheticSender] objects
      releases each resource once and leaks none, on the exception paths too.
      One over [Umem] objects releases each once, and leaks exactly a region
      and a handle for every constructor that fails in its last step, the
      [reserve] of the free list ([umem_raii_balanced]); a [FeedHandler]
      inherits that and leaks nothing else ([handler_lifetime_balanced]).
    - Rings and frames: the burst operations take the oldest entries and
      publish all or nothing; the frame allocator is exact; a client that
      transmits frames never loses one or gets one twice
      ([tx_frames_conserved]).
    - Running system: no reachable state of a handler started once has
      undefined behaviour ([pipeline_safe]); every posted frame is in exactly
      one place ([frames_conserved]); the consumer gets the events of the
      delivered frames in order, and the counters say what is missing
      ([events_in_order]); every frame delivered is handled within five of
      the thread's own steps per pending frame, and four more
      ([delivered_frames_handled]); [stop] terminates ([stop_terminates]);
      the machine computes [rx_turn] ([machine_runs_the_turn]).  A second
      [start] breaks frame conservation ([restart_reposts_frames]).
    - Captures: writing then reading gives back the events when the disk has
      room for them, and otherwise the first of them or none: a buffer hides
      a full disk until [close], which ignores it ([capture_roundtrip],
      [generate_readback]).  The reader is total on arbitrary files; a replay at a
      rate that is a power of two keeps the order of the events and their
      scaled spacing to the nanosecond ([replay_at_power_of_two]), and
      at any other rate their order and the spacing up to two roundings, or
      three when the compiler multiplies with the reciprocal
      ([replay_at_any_rate]); the tool delivers nothing early
      ([replay_never_early]).  The rate typed is the rate used, exactly or to
      the nearest double ([rate_parsed], [decimal_rate_parsed]), but nothing
      refuses a rate of zero, a negative one, one that is not a number
      ([replay_at_extreme_rates]), or a capture whose timestamps go back
      ([replay_out_of_order]): these can be undefined behaviour.
      No stream is lost unless a reader is opened twice
      ([streams_accounted]); a capture is generated with as many events as
      were asked for ([generate_count_parsed]).
    - Statistics and measurement: the replay's report is the exact one, with
      percentile indices that rounding never takes out of range
      ([replay_statistics]), and so is the comparison's table
      ([print_table_sound]); the latency measurement terminates and accounts
      for every packet ([measure_accounts]); the AF_XDP pass gives back all
      it took, on every path but the one of [Umem]
      ([run_af_xdp_balanced]), and so does the program around it when it
      exits; it catches no exception, and what is left when one terminates
      it is not promised ([comparison_main]); on the running pipeline the latencies
      are those of events of delivered frames, each measured once
      ([measured_latencies]); but an event left over shifts every
      measurement ([stale_event_shifts_measurements]).

    ** Assumptions and bounds

    - The machine is little-endian with 64-bit [std::size_t].
    - Parameters, with their laws in classes: libxdp rings ([XskProdLaws],
      [XskConsLaws]), creation calls ([UmemKernel], [SocketKernel]), system
      calls of the sender ([SenderKernel]).  Each class has an instance, used
      in the witnesses.
    - Release/acquire: store buffering and stale reads are modelled for the
      ring; the stop flag and the counters of the handler, all relaxed and
      each written by one side, are single cells in Pipeline.  A push or a
      pop is one step there, and it may also answer on a stale index
      ([step_push_stale], [step_pop_stale]); StaleQueue proves that this is
      what the ring does.
    - Division: the default build is Release, with -ffast-math
      (CMakeLists.txt, cmake/CompileOptions.cmake), which lets the compiler
      replace a division by a product with the rounded reciprocal; GCC does
      so for the rate of a replay and for constant divisors.  [FloatMode] is
      a parameter, and every theorem with a division holds in both modes.
      Further liberties of that option -- reassociating sums and products,
      taking it that there are no infinities and NaNs, flushing subnormal
      numbers to zero -- are not modelled: doubles are otherwise computed as
      written, and the theorems whose rate is an infinity or a NaN are about
      a compiler that honours them.
    - Streams: how much of what was written a stream holds back after each
      [fwrite] is a parameter ([os_push]); a flush that fails discards the
      rest, as in glibc and musl.
    - Memory: the [reserve]s of src/umem.cpp, of the latency measurement and
      of the replay tool may fail, by an answer that is a parameter
      ([new_answer], [sc_room], [can_reserve]).  Other allocations (strings,
      exception objects, the state of a thread) are taken to succeed; the
      creation of a thread may be refused ([start]).
    - Rates: the theorems on any rate cover the doubles from 2^-900 to 2^900;
      a positive double is an integer in units of 2^-1074 ([fixed]), so that
      every bound is one on integers.
    - [std::stod]: the C standard leaves it to the implementation whether an
      underflow sets [ERANGE]; this is an argument of [Cli.main].
    - The kernel of Pipeline writes only into frames it took from the fill
      ring, delivers descriptors inside one frame, and never reuses a frame
      before it is posted again.
    - Time in Baseline: a schedule gives the cost of every action of the
      measuring thread, what the other threads did before it, and the answers
      of [sendto] and of the allocator; the theorems hold for all schedules
      that bring finitely many events.
    - Loops run over their own bounds (a batch of 64, a ring's reservation, a
      count).  Fuel: [replay_loop] has the number of events the header leaves
      to read, and every turn reads one or ends the loop; [poll] has 5001
      turns, since each that goes on sleeps 10 us of a 50 ms window; [drain]
      takes fuel, of which one more than the events that can arrive is
      enough ([drain_ends]).

    ** Not modelled

    The tests; the formatting of printed values and [errno] texts;
    StandardSocketReceiver, which the repository does not contain and which
    is a parameter of Baseline; the benchmark library's timing; cache-line
    placement. *)

From stdpp Require Export base numbers list gmap relations tactics strings.

#[global] Open Scope Z_scope.

(** ** C++ outcomes *)

(** The result of running a piece of C++: it returns a value or has
    undefined behaviour (an access outside an object, a release of something
    that is not held).  Code that may throw returns a sum, with the exception
    on the left and the state it leaves behind. *)
Inductive outcome (A : Type) : Type :=
| Ret (a : A)
| Undef.
Arguments Ret {A} a.
Arguments Undef {A}.

(** The exceptions that leave the library: [std::runtime_error] with a
    formatted message, by the values that appear in it; [std::length_error]
    and [std::bad_alloc] of a vector's [reserve]; [std::system_error] of the
    constructor of a [std::thread]. *)
Inductive uf_error : Type :=
| MmapFailed (bytes : Z)
| UmemCreateFailed (err : Z)
| SocketCreateFailed (iface : string) (queue err : Z)
| VectorTooLong
| BadAlloc
| ThreadRefused (err : Z).

(** [reserve n] on an empty [std::vector<uint64_t>]: the exception it
    throws, if any.  [room] says whether the allocator has so many bytes. *)
Definition vector_max : Z := 2 ^ 60 - 1.

Definition vector_reserve (room : Z → bool) (n : Z) : option uf_error :=
  if bool_decide (vector_max < n) then Some VectorTooLong
  else if bool_decide (0 < n) && negb (room (8 * n)) then Some BadAlloc
  else None.

#[export] Instance outcome_ret : MRet outcome := @Ret.
#[export] Instance outcome_bind : MBind outcome := λ A B f m,
  match m with
  | Ret a => f a
  | Undef => Undef
  end.

#[export] Instance outcome_fmap : FMap outcome := λ A B f m, a ← m; Ret (f a).

(** An access that must be in bounds: [None] is undefined behaviour. *)
Definition deref {A} (o : option A) : outcome A :=
  match o with Some a => Ret a | None => Undef end.

(** ** Machine integers *)

(** Unsigned integers of [w] bits are integers modulo [2 ^ w]; arithmetic
    on them is arithmetic on [Z] followed by the wrap. *)
Definition wrap (w z : Z) : Z := z `mod` 2 ^ w.
Definition u8 : Z → Z := wrap 8.
Definition u16 : Z → Z := wrap 16.
Definition u32 : Z → Z := wrap 32.
Definition u64 : Z → Z := wrap 64.

(** The range predicates of the same types. *)
Definition in_width (w z : Z) : Prop := 0 ≤ z < 2 ^ w.
#[export] Instance in_width_dec w z : Decision (in_width w z).
Proof. unfold in_width. apply _. Defined.

(** [static_cast<int64_t>] of a [uint64_t]; a signed result outside the
    range is undefined. *)
Definition i64 (z : Z) : Z := if bool_decide (z < 2 ^ 63) then z else z - 2 ^ 64.
Definition i64_result (z : Z) : outcome Z := if bool_decide (- 2 ^ 63 ≤ z < 2 ^ 63) then Ret z else Undef.

(** ** Bytes and byte order *)

Definition is_byte (b : Z) : Prop := 0 ≤ b < 256.
#[export] Instance is_byte_dec b : Decision (is_byte b).
Proof. unfold is_byte. apply _. Defined.

(** [n] bytes of [z], least significant first: the object representation
    of an unsigned integer on a little-endian machine. *)
Fixpoint le_bytes (n : nat) (z : Z) : list Z :=
  match n with
  | O => []
  | S n => z `mod` 256 :: le_bytes n (z `div` 256)
  end.

Fixpoint le_value (bs : list Z) : Z :=
  match bs with
  | [] => 0
  | b :: bs => b + 256 * le_value bs
  end.

(** Network byte order. *)
Definition be_bytes (n : nat) (z : Z) : list Z := rev (le_bytes n z).
Definition be_value (bs : list Z) : Z := le_value (rev bs).

(** [ntohs] / [htons]: swap the two bytes of a 16-bit value, which is what
    they do on a little-endian machine. *)
Definition bswap16 (z : Z) : Z :=
  Z.lor (Z.shiftl (Z.land z 255) 8) (Z.land (Z.shiftr z 8) 255).
Definition ntohs : Z → Z := bswap16.
Definition htons : Z → Z := bswap16.

(** ** Byte memory *)

(** [n] bytes from address [a] of a memory object; a read that is not
    wholly inside the object has no value. *)
Definition load (mem : list Z) (a n : Z) : option (list Z) :=
  if bool_decide (0 ≤ a ∧ 0 ≤ n ∧ a + n ≤ Z.of_nat (length mem))
  then Some (take (Z.to_nat n) (drop (Z.to_nat a) mem))
  else None.

(** [memcpy] into the front of an array: the first [length src] elements
    are replaced and the others stay; the copy must fit. *)
Definition memcpy (dst src : list Z) : list Z := src ++ drop (length src) dst.

(** [std::array] and raw array element access: an index outside the array
    is undefined behaviour. *)
Definition array_get {A} (a : list A) (i : Z) : outcome A :=
  if bool_decide (0 ≤ i) then deref (a !! Z.to_nat i) else Undef.

Definition array_set {A} (a : list A) (i : Z) (x : A) : outcome (list A) :=
  if bool_decide (0 ≤ i < Z.of_nat (length a))
  then Ret (<[Z.to_nat i := x]> a) else Undef.

(** ** Hints, tactics and shared lemmas *)

Create HintDb uf.

Lemma in_width_wrap w z : 0 ≤ w → in_width w (wrap w z).
Proof. intros. unfold in_width, wrap. apply Z.mod_pos_bound. lia. Qed.

Lemma wrap_small w z : in_width w z → wrap w z = z.
Proof. intros. by apply Z.mod_small. Qed.

Lemma u64_small z : 0 ≤ z < 2 ^ 64 → u64 z = z.
Proof. apply wrap_small. Qed.

Lemma u32_small z : 0 ≤ z < 2 ^ 32 → u32 z = z.
Proof. apply wrap_small. Qed.

Lemma u16_small z : 0 ≤ z < 2 ^ 16 → u16 z = z.
Proof. apply wrap_small. Qed.

(** A bitwise and with [2 ^ k - 1] is the remainder modulo [2 ^ k]. *)
Lemma land_mask x k : 0 ≤ k → Z.land x (2 ^ k - 1) = x `mod` 2 ^ k.
Proof. intros. rewrite <- Z.land_ones by done. by rewrite Z.ones_equiv, <- Z.sub_1_r. Qed.

(** The test [N & (N - 1) == 0] of the ring's [static_assert] is the power
    of two test. *)
Lemma land_pred_pow2 n : 2 ≤ n → Z.land n (n - 1) = 0 → n = 2 ^ Z.log2 n.
Proof.
  intros Hn Hland. pose proof (Z.log2_spec n ltac:(lia)) as [Hlo Hhi].
  pose proof (Z.log2_nonneg n). rewrite Z.pow_succ_r in Hhi by done.
  destruct (decide (n = 2 ^ Z.log2 n)) as [|Hne]; [done|exfalso].
  assert (Hl : Z.log2 (n - 1) = Z.log2 n).
  { apply Z.log2_unique; [done|]. rewrite Z.pow_succ_r by done. lia. }
  assert (Hb : Z.testbit (Z.land n (n - 1)) (Z.log2 n) = true).
  { rewrite Z.land_spec, Z.bit_log2 by lia. rewrite <- Hl at 1.
    by rewrite Z.bit_log2 by lia. }
  by rewrite Hland, Z.bits_0 in Hb.
Qed.

(** Two positions less than [n] apart never share a slot of a ring of [n]
    slots. *)
Lemma mod_slot_inj n i j :
  0 < n → i < j < i + n → i `mod` n ≠ j `mod` n.
Proof.
  intros Hn Hij Heq.
  assert (Hd : (j - i) `mod` n = 0) by (rewrite Zminus_mod, Heq, Z.sub_diag; by rewrite Zmod_0_l).
  rewrite Z.mod_small in Hd by lia. lia.
Qed.

Lemma length_le_bytes n z : length (le_bytes n z) = n.
Proof. revert z. induction n; intros; simpl; auto. Qed.

Lemma le_bytes_is_byte n z : Forall is_byte (le_bytes n z).
Proof.
  revert z. induction n; intros; simpl; constructor; auto.
  unfold is_byte. apply Z.mod_pos_bound. lia.
Qed.

Lemma pow256_succ n : 256 ^ Z.of_nat (S n) = 256 * 256 ^ Z.of_nat n.
Proof. rewrite Nat2Z.inj_succ, Z.pow_succ_r; lia. Qed.

Lemma le_value_bound bs :
  Forall is_byte bs → 0 ≤ le_value bs < 256 ^ Z.of_nat (length bs).
Proof.
  induction 1 as [|b bs Hb Hbs IH]; [simpl; lia|].
  cbn [le_value length]. rewrite pow256_succ. unfold is_byte in Hb. lia.
Qed.

Lemma le_value_le_bytes n z : le_value (le_bytes n z) = z `mod` 256 ^ Z.of_nat n.
Proof.
  revert z. induction n as [|n IH]; intros z; [by rewrite Z.mod_1_r|].
  cbn [le_bytes le_value]. rewrite IH, pow256_succ.
  rewrite Z.rem_mul_r by lia. lia.
Qed.

Lemma le_bytes_le_value bs :
  Forall is_byte bs → le_bytes (length bs) (le_value bs) = bs.
Proof.
  induction 1 as [|b bs Hb Hbs IH]; [done|]. unfold is_byte in Hb. simpl.
  rewrite (Z.mul_comm 256), Z.mod_add, Z.div_add by lia.
  rewrite Z.mod_small, Z.div_small, Z.add_0_l by lia. by rewrite IH.
Qed.

Lemma length_load mem a n bs :
  load mem a n = Some bs → Z.of_nat (length bs) = n.
Proof.
  unfold load. case_bool_decide as H; [|done]. intros [= <-].
  rewrite length_take, length_drop. lia.
Qed.

Lemma load_is_Some mem a n :
  is_Some (load mem a n) ↔ 0 ≤ a ∧ 0 ≤ n ∧ a + n ≤ Z.of_nat (length mem).
Proof.
  unfold load. case_bool_decide; split; intros; done.
Qed.

Lemma load_is_byte mem a n bs :
  Forall is_byte mem → load mem a n = Some bs → Forall is_byte bs.
Proof.
  intros Hm. unfold load. case_bool_decide; [|done]. intros [= <-].
  by apply Forall_take, Forall_drop.
Qed.

(** Reading past a prefix, and reading the block that comes first. *)
Lemma load_skip pre rest a n :
  Z.of_nat (length pre) ≤ a →
  load (pre ++ rest) a n = load rest (a - Z.of_nat (length pre)) n.
Proof.
  intros Ha. unfold load. rewrite length_app.
  assert (H : (0 ≤ a ∧ 0 ≤ n ∧ a + n ≤ Z.of_nat (length pre + length rest)) ↔
    (0 ≤ a - Z.of_nat (length pre) ∧ 0 ≤ n ∧ a - Z.of_nat (length pre) + n ≤ Z.of_nat (length rest)))
    by lia.
  rewrite (bool_decide_ext _ _ H). case_bool_decide; [|done]. do 2 f_equal.
  rewrite drop_app_ge by lia. f_equal. lia.
Qed.

Lemma load_here f post a n :
  a = 0 → Z.of_nat (length f) = n → load (f ++ post) a n = Some f.
Proof.
  intros -> <-. unfold load. rewrite bool_decide_true by (rewrite length_app; lia).
  by rewrite Nat2Z.id, drop_0, take_app_length.
Qed.

Lemma load_insert_before (mem : list Z) (i : nat) x a n :
  Z.of_nat i < a → load (<[i := x]> mem) a n = load mem a n.
Proof.
  intros Hi. unfold load. rewrite length_insert. case_bool_decide; [|done].
  by rewrite drop_insert_lt by lia.
Qed.

(** Byte swapping of a 16-bit value. *)
Lemma lor_shift8 x y : 0 ≤ y < 256 → Z.lor (Z.shiftl x 8) y = 256 * x + y.
Proof.
  intros Hy. assert (Hand : Z.land (Z.shiftl x 8) y = 0).
  { apply Z.bits_inj'. intros i Hi. rewrite Z.land_spec, Z.bits_0.
    destruct (decide (i < 8)) as [Hlt|Hge]; [by rewrite Z.shiftl_spec_low|].
    replace y with (y `mod` 2 ^ 8) by (apply Z.mod_small; lia).
    rewrite Z.mod_pow2_bits_high by lia. apply andb_false_r. }
  rewrite <- Z.lxor_lor, <- Z.add_nocarry_lxor by done.
  rewrite Z.shiftl_mul_pow2 by lia. lia.
Qed.

Lemma bswap16_eq z : bswap16 z = 256 * (z `mod` 256) + (z `div` 256) `mod` 256.
Proof.
  unfold bswap16. change 255 with (2 ^ 8 - 1). rewrite !land_mask by lia.
  rewrite Z.shiftr_div_pow2 by lia. change (2 ^ 8) with 256.
  apply lor_shift8. apply Z.mod_pos_bound. lia.
Qed.

Lemma bswap16_width z : in_width 16 (bswap16 z).
Proof.
  rewrite bswap16_eq. unfold in_width.
  pose proof (Z.mod_pos_bound z 256). pose proof (Z.mod_pos_bound (z `div` 256) 256). lia.
Qed.

(** A native load of a big-endian field followed by [ntohs]. *)
Lemma ntohs_be z : in_width 16 z → ntohs (le_value (be_bytes 2 z)) = z.
Proof.
  unfold in_width. intros Hz. unfold ntohs. rewrite bswap16_eq. unfold be_bytes. cbn [le_bytes rev app le_value].
  rewrite (Z.mod_small (z `div` 256)) by (split; [apply Z.div_pos|apply Z.div_lt_upper_bound]; lia).
  rewrite Z.mul_0_r, Z.add_0_r. rewrite (Z.mul_comm 256 (z `mod` 256)).
  rewrite Z.mod_add, Z.div_add by lia.
  assert (0 ≤ z `div` 256 < 256) by (split; [apply Z.div_pos|apply Z.div_lt_upper_bound]; lia).
  rewrite (Z.mod_small (z `div` 256)), (Z.div_small (z `div` 256)), Z.add_0_l, Z.mod_mod by lia.
  pose proof (Z.div_mod z 256). lia.
Qed.

Lemma length_be_bytes n z : length (be_bytes n z) = n.
Proof. unfold be_bytes. by rewrite length_rev, length_le_bytes. Qed.

Lemma length_memcpy dst src :
  (length src ≤ length dst)%nat → length (memcpy dst src) = length dst.
Proof. intros. unfold memcpy. rewrite length_app, length_drop. lia. Qed.

(** A prefix no longer than the front part is a prefix of the front part. *)
Lemma prefix_app_front {A} (l1 l2 l3 : list A) :
  (length l1 ≤ length l2)%nat → l1 `prefix_of` l2 ++ l3 → l1 `prefix_of` l2.
Proof.
  intros Hl [l4 Hp]. exists (drop (length l1) l2).
  assert (Ht : take (length l1) (l2 ++ l3) = l1) by by rewrite Hp, take_app_length.
  rewrite take_app_le in Ht by done. rewrite <- Ht at 1. by rewrite take_drop.
Qed.

Lemma array_get_lookup {A} (a : list A) i x :
  0 ≤ i → a !! Z.to_nat i = Some x → array_get a i = Ret x.
Proof. intros ? Ha. unfold array_get. rewrite bool_decide_true by done. by rewrite Ha. Qed.

Lemma array_set_in {A} (a : list A) i x :
  0 ≤ i < Z.of_nat (length a) → array_set a i x = Ret (<[Z.to_nat i := x]> a).
Proof. intros. unfold array_set. by rewrite bool_decide_true. Qed.

(** Case analysis on a [bool_decide] and reduction of the monadic code
    around it. *)
Ltac ub_step :=
  cbn [mbind mret outcome_bind outcome_ret deref] in *.
Ltac bd_true := rewrite bool_decide_true by (try done; try lia); ub_step.
Ltac bd_false := rewrite bool_decide_false by (try done; try lia); ub_step.

#[global] Arguments le_bytes : simpl never.
#[global] Arguments le_value : simpl never.
#[global] Arguments be_bytes : simpl never.
#[global] Arguments load : simpl never.

#[export] Hint Resolve le_bytes_is_byte : uf.

(** Walk along a concatenation of blocks to the one a [load] selects. *)
Ltac load_walk :=
  repeat rewrite load_skip by (rewrite ?length_be_bytes; cbn [length]; lia);
  rewrite load_here by (rewrite ?length_be_bytes; cbn [length]; lia).

(** Lengths of the byte sequences the components build. *)
Ltac simp_len :=
  repeat progress rewrite ?length_app, ?length_replicate, ?length_le_bytes,
    ?length_take, ?length_drop, ?length_insert in *; cbn [length] in *.
