(* ===== verification/Double.v ===== *)
(** * Doubles

    The [double] of the program: IEEE binary64 as the Standard Library
    specifies it ([SpecFloat]), conversions from and to integers, and what is
    exact: small integers, and division by a power of two.  Rounding is in
    Rounding. *)

From Stdlib Require Export SpecFloat.
From S2P Require Import Prelude.

(** ** Operations *)

Definition double : Type := spec_float.

(** [static_cast<double>] of an integer, and the division and product of
    doubles: rounded to nearest, ties to even. *)
Definition double_of_Z (z : Z) : double := binary_normalize 53 1024 z 0 false.
Definition double_div : double → double → double := SFdiv 53 1024.
Definition double_mul : double → double → double := SFmul 53 1024.

(** The truncated value of a double, if it has one. *)
Definition double_trunc (d : double) : option Z :=
  match d with
  | S754_zero _ => Some 0
  | S754_finite s m e =>
      let a := if bool_decide (0 ≤ e) then Z.pos m * 2 ^ e else Z.pos m `div` 2 ^ (- e) in
      Some (if s then - a else a)
  | _ => None
  end.

(** [static_cast<uint64_t>] of a double: undefined unless the truncated
    value is in range. *)
Definition u64_of_double (d : double) : outcome Z :=
  match double_trunc d with
  | Some z => if bool_decide (0 ≤ z < 2 ^ 64) then Ret z else Undef
  | None => Undef
  end.

(** [1.0], [0.50] and [0.99]. *)
Definition double_1 : double := S754_finite false 4503599627370496 (-52).
Definition double_0_50 : double := S754_finite false 4503599627370496 (-53).
Definition double_0_99 : double := S754_finite false 8917127262193582 (-53).

(** How the compiler divides.  As written, with one rounding; or, when it is
    free to do so, by multiplying with the rounded reciprocal of the divisor:
    the default build of cmake/CompileOptions.cmake is Release, with
    -ffast-math, and GCC then takes the reciprocal of a divisor that a loop
    does not change, or that is a constant, out of the loop. *)
Class FloatMode := reciprocal_math : bool.
Definition strict_math : FloatMode := false.
Definition release_math : FloatMode := true.

Definition quotient `{!FloatMode} (x y : double) : double :=
  if reciprocal_math then double_mul x (double_div double_1 y) else double_div x y.

(** ** Exactness of small integers *)

(** The mantissa of a positive integer of [d] bits as a double. *)
Lemma digits2_pos_log2 p : Zpos (digits2_pos p) = Z.log2 (Zpos p) + 1.
Proof.
  induction p as [p IH|p IH|]; [| |done]; cbn [digits2_pos]; rewrite Pos2Z.inj_succ, IH.
  - rewrite (Pos2Z.inj_xI p), Z.log2_succ_double by lia. lia.
  - rewrite (Pos2Z.inj_xO p), Z.log2_double by lia. lia.
Qed.

Lemma iter_xO p d : Z.pos (Pos.iter xO p d) = Z.pos p * 2 ^ Z.pos d.
Proof.
  induction d as [|d IH] using Pos.peano_ind.
  - cbn. rewrite Pos2Z.inj_xO. lia.
  - rewrite Pos.iter_succ, Pos2Z.inj_xO, IH, Pos2Z.inj_succ, Z.pow_succ_r by lia. lia.
Qed.

(** Rounding a 53-bit mantissa changes nothing. *)
Lemma round_53 m e :
  Z.log2 (Z.pos m) = 52 → -1074 ≤ e → e ≤ 971 →
  binary_round_aux 53 1024 false (Z.pos m) e loc_Exact = S754_finite false m e.
Proof.
  intros Hm Hlo Hhi.
  assert (Hd : Zpos (digits2_pos m) = 53) by (rewrite digits2_pos_log2; lia).
  assert (Hshr : shr_fexp 53 1024 (Z.pos m) e loc_Exact = (Build_shr_record (Z.pos m) false false, e)).
  { unfold shr_fexp. cbn [Zdigits2 shr_record_of_loc]. rewrite Hd.
    replace (fexp 53 1024 (53 + e) - e) with 0; [done|]. unfold fexp, emin. lia. }
  unfold binary_round_aux. rewrite Hshr. cbn [shr_m loc_of_shr_record round_nearest_even]. rewrite Hshr. cbn [shr_m].
  destruct (Z.leb_spec e (1024 - 53)); [done|lia].
Qed.

Lemma double_of_pos p :
  Z.pos p < 2 ^ 53 →
  ∃ m k, Z.log2 (Z.pos m) = 52 ∧ 0 ≤ k ≤ 52 ∧ Z.pos m = Z.pos p * 2 ^ k ∧
    double_of_Z (Z.pos p) = S754_finite false m (- k).
Proof.
  intros Hp. pose proof (digits2_pos_log2 p) as Hd. pose proof (Z.log2_nonneg (Z.pos p)).
  assert (Hl : Z.log2 (Z.pos p) < 53) by (apply Z.log2_lt_pow2; lia).
  unfold double_of_Z, binary_normalize, binary_round. rewrite Hd.
  assert (Hf : fexp 53 1024 (Z.log2 (Z.pos p) + 1 + 0) = Z.log2 (Z.pos p) - 52) by (unfold fexp, emin; lia).
  rewrite Hf. unfold shl_align. rewrite Z.sub_0_r. destruct (Z.log2 (Z.pos p) - 52) as [|d|d] eqn:Hk; [| lia|].
  - exists p, 0. split_and!; [lia|done|done|lia|]. apply round_53; lia.
  - pose proof (iter_xO p d) as Hi.
    assert (Hlog : Z.log2 (Z.pos (Pos.iter xO p d)) = 52) by (rewrite Hi, Z.log2_mul_pow2 by lia; lia).
    exists (Pos.iter xO p d), (Z.pos d). split_and!; [done|lia|lia|done|]. apply round_53; [done|lia..].
Qed.

(** The double [2 ^ c]. *)
Definition pow2 (c : Z) : double := S754_finite false 4503599627370496 (c - 52).

(** Dividing by a power of two changes the exponent only. *)
Lemma div_by_pow2 m e c :
  Z.log2 (Z.pos m) = 52 → -60 ≤ e ≤ 60 → -900 ≤ c ≤ 900 →
  double_div (S754_finite false m e) (pow2 c) = S754_finite false m (e - c).
Proof.
  intros Hm Hk Hc. unfold double_div, pow2, SFdiv, SFdiv_core_binary.
  assert (Hd : Zpos (digits2_pos m) = 53) by (rewrite digits2_pos_log2; lia).
  cbn [Zdigits2]. rewrite Hd. change (Zpos (digits2_pos 4503599627370496)) with 53.
  assert (He : Z.min (fexp 53 1024 (53 + e - (53 + (c - 52)))) (e - (c - 52)) = e - c - 1) by (unfold fexp, emin; lia).
  rewrite He. replace (e - (c - 52) - (e - c - 1)) with 53 by lia.
  rewrite Z.shiftl_mul_pow2 by lia.
  assert (Hq : Z.div_eucl (Z.pos m * 2 ^ 53) 4503599627370496 = (Z.pos m * 2, 0)).
  { pose proof (Z.div_unique (Z.pos m * 2 ^ 53) 4503599627370496 (Z.pos m * 2) 0) as H1.
    pose proof (Z.mod_unique (Z.pos m * 2 ^ 53) 4503599627370496 (Z.pos m * 2) 0) as H2.
    unfold Z.div, Z.modulo in H1, H2. destruct (Z.div_eucl _ _) as [q r]. f_equal; symmetry; [apply H1|apply H2]; lia. }
  rewrite Hq. change (new_location 4503599627370496 0) with loc_Exact. cbn [xorb].
  replace (Z.pos m * 2) with (Z.pos m~0) by lia.
  assert (Hd2 : Zpos (digits2_pos m~0) = 54) by (cbn [digits2_pos]; rewrite Pos2Z.inj_succ; lia).
  pose proof (round_53 m (e - c) Hm ltac:(lia) ltac:(lia)) as Hr. revert Hr. unfold binary_round_aux.
  assert (Hshr : shr_fexp 53 1024 (Z.pos m~0) (e - c - 1) loc_Exact = shr_fexp 53 1024 (Z.pos m) (e - c) loc_Exact).
  { unfold shr_fexp. cbn [Zdigits2 shr_record_of_loc]. rewrite Hd, Hd2.
    replace (fexp 53 1024 (54 + (e - c - 1)) - (e - c - 1)) with 1 by (unfold fexp, emin; lia).
    replace (fexp 53 1024 (53 + (e - c)) - (e - c)) with 0 by (unfold fexp, emin; lia).
    cbn. f_equal. lia. }
  by rewrite Hshr.
Qed.

(** The truncation of an integer scaled by a power of two. *)
Lemma trunc_scaled m k p c :
  0 ≤ k → Z.pos m = Z.pos p * 2 ^ k →
  double_trunc (S754_finite false m (- k - c)) = Some (Z.shiftr (Z.pos p) c).
Proof.
  intros Hk Hmp. unfold double_trunc. f_equal. replace (- (- k - c)) with (k + c) by lia.
  destruct (decide (0 ≤ c)) as [H0|H0].
  - rewrite Z.shiftr_div_pow2 by lia. case_bool_decide.
    + assert (k = 0 ∧ c = 0) as [-> ->] by lia. rewrite Hmp. cbn. by rewrite Z.div_1_r, !Z.mul_1_r.
    + rewrite Hmp, Z.pow_add_r, (Z.mul_comm (2 ^ k)) by lia. apply Z.div_mul_cancel_r; apply Z.pow_nonzero; lia.
  - rewrite <- (Z.opp_involutive c), Z.shiftr_opp_r, Z.shiftl_mul_pow2 by lia. case_bool_decide.
    + rewrite Hmp, <- Z.mul_assoc, <- Z.pow_add_r by lia. do 2 f_equal. lia.
    + rewrite Hmp. replace (2 ^ k) with (2 ^ (- c) * 2 ^ (k + - - c)) by (rewrite <- Z.pow_add_r by lia; f_equal; lia).
      rewrite Z.mul_assoc. apply Z.div_mul. apply Z.pow_nonzero; lia.
Qed.
