(* ===== verification/Rounding.v ===== *)
(** * Rounding

    Rounding to nearest, ties to even, of the doubles of Double: how far the
    results of conversions and divisions are from the exact ones, and that
    they are monotone.  Everything is stated on integers: a positive double is
    a multiple of [2 ^ -1074], and a quotient [N / D] is compared with it by
    multiplying out. *)

From S2P Require Import Prelude Double.

(** ** Shifting right *)

(** The record holds [N / D] rounded down, and where [N / D] lies between the
    two integers around it: whether at least half way up, and whether neither
    below nor half way. *)
Record located (mrs : shr_record) (N D : Z) : Prop := {
  lo_pos : 0 < D;
  lo_quot : D * shr_m mrs ≤ N < D * (shr_m mrs + 1);
  lo_half : shr_r mrs = true ↔ D ≤ 2 * (N - D * shr_m mrs);
  lo_rest : shr_s mrs = true ↔ N - D * shr_m mrs ≠ 0 ∧ 2 * (N - D * shr_m mrs) ≠ D;
}.

Lemma located_exact m : located (Build_shr_record m false false) m 1.
Proof. split; cbn; [lia..| |]; split; intros ?; (done || lia). Qed.

Lemma shr_1_located mrs N D :
  0 ≤ shr_m mrs → located mrs N D → located (shr_1 mrs) N (2 * D) ∧ 0 ≤ shr_m (shr_1 mrs).
Proof.
  destruct mrs as [m r s]. intros Hm [H0 Hq Hh Hr]. cbn [shr_m shr_r shr_s] in *.
  assert (Hrs : r || s = true ↔ N - D * m ≠ 0).
  { rewrite orb_true_iff, Hh, Hr. lia. }
  assert (Hcase : ∃ h b, shr_1 (Build_shr_record m r s) = Build_shr_record h b (r || s) ∧ 0 ≤ h ∧
    (m = 2 * h ∧ b = false ∨ m = 2 * h + 1 ∧ b = true)).
  { destruct m as [|[p|p|]|p]; [| | | |lia].
    - exists 0, false. split; [reflexivity|]. split; [done|]. by left.
    - exists (Z.pos p), true. split; [reflexivity|]. split; [lia|]. by right.
    - exists (Z.pos p), false. split; [reflexivity|]. split; [lia|]. by left.
    - exists 0, true. split; [reflexivity|]. split; [done|]. by right. }
  destruct Hcase as (h & b & -> & Hh0 & [[-> ->]|[-> ->]]); (split; [|done]); split; cbn [shr_m shr_r shr_s].
  - lia.
  - nia.
  - split; [done|]. intros. exfalso. nia.
  - rewrite Hrs. split; [intros; split; nia|intros [? ?]; nia].
  - lia.
  - nia.
  - split; [intros _; nia|done].
  - rewrite Hrs. split; [intros; split; nia|intros [? ?]; nia].
Qed.

Lemma iter_pos_Pos_iter {A} (f : A → A) p : ∀ x, SpecFloat.iter_pos f p x = Pos.iter f x p.
Proof.
  induction p as [p IH|p IH|]; intros x; cbn [SpecFloat.iter_pos Pos.iter]; [| |done].
  - rewrite !IH. rewrite <- !Pos.iter_swap. done.
  - by rewrite !IH.
Qed.

Lemma shr_located mrs N D e n :
  0 ≤ shr_m mrs → located mrs N D → 0 ≤ n →
  ∃ mrs', shr mrs e n = (mrs', e + n) ∧ located mrs' N (D * 2 ^ n) ∧ 0 ≤ shr_m mrs'.
Proof.
  intros Hm Hl Hn. destruct n as [|n|n]; [| |lia].
  { exists mrs. cbn [shr]. by rewrite Z.add_0_r, Z.mul_1_r. }
  cbn [shr]. rewrite iter_pos_Pos_iter. eexists. split; [done|]. clear Hn. induction n as [|n [IH1 IH2]] using Pos.peano_ind.
  - destruct (shr_1_located mrs N D Hm Hl) as [H1 H2]. rewrite Z.pow_1_r, Z.mul_comm. done.
  - rewrite Pos.iter_succ, Pos2Z.inj_succ, Z.pow_succ_r by lia.
    destruct (shr_1_located _ _ _ IH2 IH1) as [H1 H2]. split; [|done].
    by replace (D * (2 * 2 ^ Z.pos n)) with (2 * (D * 2 ^ Z.pos n)) by lia.
Qed.

(** Rounding to nearest is at most half a unit away. *)
Lemma round_located mrs N D :
  located mrs N D →
  let q := round_nearest_even (shr_m mrs) (loc_of_shr_record mrs) in
  2 * Z.abs (N - q * D) ≤ D ∧ shr_m mrs ≤ q ≤ shr_m mrs + 1.
Proof.
  destruct mrs as [m r s]. intros [H0 Hq Hh Hr]. cbn [shr_m shr_r shr_s loc_of_shr_record] in *.
  destruct r, s; cbn [round_nearest_even].
  - pose proof (proj1 Hh eq_refl). lia.
  - pose proof (proj1 Hh eq_refl). assert (Heq : 2 * (N - D * m) = D).
    { destruct (decide (2 * (N - D * m) = D)) as [|Hne]; [done|]. assert (false = true) by (apply Hr; lia). done. }
    destruct (Z.even m); lia.
  - assert (¬ D ≤ 2 * (N - D * m)) by (intros ?%Hh; done). lia.
  - assert (¬ D ≤ 2 * (N - D * m)) by (intros ?%Hh; done). lia.
Qed.

(** A mantissa of 53 bits or more, with the location of what it approximates:
    the exponent grows by the number [k] of bits too many, and the result is
    [N / (D * 2 ^ k)] rounded to nearest. *)
Lemma round_aux_located s m e l N D :
  located (shr_record_of_loc (Z.pos m) l) N D →
  let k := Z.log2 (Z.pos m) - 52 in
  0 ≤ k → -1074 ≤ e + k < 971 →
  ∃ q m' e', binary_round_aux 53 1024 s (Z.pos m) e l = S754_finite s m' e' ∧ 2 ^ 52 ≤ q ≤ 2 ^ 53 ∧
    2 * Z.abs (N - q * (D * 2 ^ k)) ≤ D * 2 ^ k ∧ D * 2 ^ k * 2 ^ 52 ≤ N < D * 2 ^ k * 2 ^ 53 ∧
    (Z.pos m' = q ∧ e' = e + k ∨ q = 2 ^ 53 ∧ Z.pos m' = 2 ^ 52 ∧ e' = e + k + 1) ∧ Z.log2 (Z.pos m') = 52.
Proof.
  intros Hloc k Hk He. assert (Hmrs : shr_m (shr_record_of_loc (Z.pos m) l) = Z.pos m) by (by destruct l as [|[]]).
  unfold binary_round_aux, shr_fexp. cbn [Zdigits2].
  rewrite digits2_pos_log2. replace (fexp 53 1024 (Z.log2 (Z.pos m) + 1 + e) - e) with k by (unfold fexp, emin; lia).
  destruct (shr_located _ N D e k ltac:(by rewrite Hmrs) Hloc Hk) as (mrs & -> & Hl & Hm0).
  pose proof (lo_pos _ _ _ Hl) as HD. pose proof (lo_quot _ _ _ Hl) as Hq0. pose proof (lo_quot _ _ _ Hloc) as Hqm. rewrite Hmrs in Hqm.
  pose proof (lo_pos _ _ _ Hloc) as HD0.
  assert (HN : D * 2 ^ k * 2 ^ 52 ≤ N < D * 2 ^ k * 2 ^ 53).
  { pose proof (Z.log2_spec (Z.pos m) ltac:(lia)) as [H1 H2]. rewrite <- !Z.mul_assoc, <- !Z.pow_add_r by lia.
    replace (k + 52) with (Z.log2 (Z.pos m)) by lia. replace (k + 53) with (Z.succ (Z.log2 (Z.pos m))) by lia. nia. }
  destruct (round_located _ _ _ Hl) as [Hnear Hqb]. set (q := round_nearest_even _ _) in *. clearbody q.
  assert (Hb : 2 ^ 52 ≤ shr_m mrs < 2 ^ 53) by nia.
  destruct q as [|p|p] eqn:Hqp; [lia| |lia]. rewrite <- Hqp in *. cbn [Zdigits2]. rewrite Hqp. cbn [Zdigits2].
  rewrite digits2_pos_log2. rewrite <- Hqp. destruct (decide (q = 2 ^ 53)) as [H53|H53].
  - rewrite H53. change (Z.log2 (2 ^ 53) + 1) with 54.
    replace (fexp 53 1024 (54 + (e + k)) - (e + k)) with 1 by (unfold fexp, emin; lia).
    exists q, (4503599627370496)%positive, (e + k + 1). rewrite H53 in *. cbn. rewrite (proj2 (Z.leb_le _ _)) by lia.
    split_and!; try done; [lia..|]. by right.
  - assert (Hlq : Z.log2 q = 52) by (apply Z.log2_unique; lia). rewrite Hlq.
    replace (fexp 53 1024 (52 + 1 + (e + k)) - (e + k)) with 0 by (unfold fexp, emin; lia). cbn [shr shr_record_of_loc shr_m].
    rewrite Hqp, (proj2 (Z.leb_le _ _)) by lia. exists q, p, (e + k). rewrite <- Hqp in *.
    split_and!; try done; [lia..|by left].
Qed.

(** The location of the remainder of a division. *)
Lemma new_location_located q r D :
  0 ≤ r < D → located (shr_record_of_loc q (new_location D r)) (D * q + r) D.
Proof.
  intros Hr. unfold new_location, new_location_even, new_location_odd.
  destruct (Z.even D) eqn:He.
  - destruct (Z.eqb_spec r 0) as [->|Hr0]; [split; cbn; [lia..| |]; split; intros; (done || lia)|].
    destruct (Z.compare_spec (2 * r) D); (split; cbn; [lia..| |]; split; intros; (done || lia)).
  - assert (Ho : D = 2 * (D `div` 2) + 1).
    { pose proof (Z.div_mod D 2 ltac:(done)). pose proof (Z.mod_pos_bound D 2 ltac:(done)).
      assert (D `mod` 2 ≠ 0); [|lia]. rewrite Zmod_even, He. done. }
    destruct (Z.eqb_spec r 0) as [->|Hr0]; [split; cbn; [lia..| |]; split; intros; (done || lia)|].
    destruct (Z.compare_spec (2 * r + 1) D); (split; cbn; [lia..| |]; split; intros; (done || lia)).
Qed.

(** ** Doubles as integers *)

(** A positive double is a multiple of [2 ^ -1074]. *)
Definition scale : Z := 2 ^ 1074.
Definition fixed (d : double) : Z := match d with S754_finite _ m e => Z.pos m * 2 ^ (e + 1074) | _ => 0 end.

(** [d] is [N / D] of these units, rounded to nearest. *)
Definition rounds (N D : Z) (d : double) : Prop :=
  ∃ q E, 0 ≤ E ∧ 2 ^ 52 ≤ q ≤ 2 ^ 53 ∧ fixed d = q * 2 ^ E ∧
    2 * Z.abs (N - q * (D * 2 ^ E)) ≤ D * 2 ^ E ∧ D * 2 ^ E * 2 ^ 52 ≤ N < D * 2 ^ E * 2 ^ 53.

Lemma scale_pos : 0 < scale.
Proof. apply Z.pow_pos_nonneg; lia. Qed.

Lemma fixed_pos s m e : -1074 ≤ e → 0 < fixed (S754_finite s m e).
Proof. intros He. cbn [fixed]. assert (0 < 2 ^ (e + 1074)) by (apply Z.pow_pos_nonneg; lia). lia. Qed.

(** The relative error of a rounding. *)
Lemma rounds_error N D d : rounds N D d → 2 ^ 53 * Z.abs (N - D * fixed d) ≤ N.
Proof.
  intros (q & E & HE & Hq & -> & Hn & Hb). replace (D * (q * 2 ^ E)) with (q * (D * 2 ^ E)) by lia. lia.
Qed.

(** A common factor does not matter. *)
Lemma rounds_cancel N D C d : 0 < C → rounds (N * C) (D * C) d → rounds N D d.
Proof.
  intros HC (q & E & HE & Hq & Hf & Hn & Hb). exists q, E. split_and!; [done|lia|lia|done| | |].
  - replace (N * C - q * (D * C * 2 ^ E)) with ((N - q * (D * 2 ^ E)) * C) in Hn by lia.
    rewrite Z.abs_mul, (Z.abs_eq C) in Hn by lia. apply (Z.mul_le_mono_pos_r _ _ C); [done|lia].
  - apply (Z.mul_le_mono_pos_r _ _ C); [done|lia].
  - apply (Z.mul_lt_mono_pos_r C); [done|lia].
Qed.

(** The exponent of a rounded quotient of numbers below [2 ^ 200]. *)
Lemma rounds_exponent n D s m e :
  0 < n < 2 ^ 200 → 0 < D < 2 ^ 200 → Z.log2 (Z.pos m) = 52 → -1074 ≤ e →
  rounds (n * scale) D (S754_finite s m e) → -952 ≤ e ≤ 848.
Proof.
  intros Hn HD Hm He Hr. apply rounds_error in Hr. pose proof scale_pos as HS.
  pose proof (Z.log2_spec (Z.pos m) ltac:(lia)) as [H1 H2]. rewrite Hm in H1, H2. change (Z.succ 52) with 53 in H2.
  cbn [fixed] in Hr. assert (HP : 0 < 2 ^ (e + 1074)) by (apply Z.pow_pos_nonneg; lia). set (P := 2 ^ (e + 1074)) in *.
  set (F := Z.pos m * P) in *. assert (HF : 2 ^ 52 * P ≤ F < 2 ^ 53 * P) by (unfold F; nia). clearbody F.
  assert (HDF : n * scale ≤ 2 * (D * F) ∧ D * F ≤ 2 * (n * scale)) by lia. split.
  - destruct (decide (-952 ≤ e)) as [|Hlt]; [done|]. exfalso.
    assert (HPs : 2 ^ 300 * P ≤ scale) by (unfold P, scale; rewrite <- Z.pow_add_r by lia; apply Z.pow_le_mono_r; lia).
    assert (D * F ≤ 2 ^ 200 * (2 ^ 53 * P)) by (apply Z.mul_le_mono_nonneg; lia). nia.
  - destruct (decide (e ≤ 848)) as [|Hgt]; [done|]. exfalso.
    assert (HPs : 2 ^ 300 * scale ≤ P) by (unfold P, scale; rewrite <- Z.pow_add_r by lia; apply Z.pow_le_mono_r; lia).
    assert (1 * F ≤ D * F) by (apply Z.mul_le_mono_nonneg_r; lia). assert (n * scale ≤ 2 ^ 200 * scale) by (apply Z.mul_le_mono_nonneg_r; lia). lia.
Qed.

Lemma rounds_mono N1 D1 d1 N2 D2 d2 :
  0 < D1 → 0 < D2 → rounds N1 D1 d1 → rounds N2 D2 d2 → N1 * D2 < N2 * D1 → fixed d1 ≤ fixed d2.
Proof.
  intros H1 H2 (q1 & E1 & HE1 & Hq1 & -> & Hn1 & Hb1) (q2 & E2 & HE2 & Hq2 & -> & Hn2 & Hb2) Hlt.
  assert (HP1 : 0 < 2 ^ E1) by (apply Z.pow_pos_nonneg; lia). assert (HP2 : 0 < 2 ^ E2) by (apply Z.pow_pos_nonneg; lia).
  destruct (Z.lt_trichotomy E1 E2) as [HE|[HE|HE]].
  - clear Hn1 Hb1 Hn2 Hb2 Hlt. pose proof (Z.pow_le_mono_r 2 (E1 + 1) E2 ltac:(lia) ltac:(lia)) as Hp.
    rewrite Z.pow_add_r, Z.pow_1_r in Hp by lia. set (P1 := 2 ^ E1) in *. set (P2 := 2 ^ E2) in *.
    assert (q1 * P1 ≤ 2 ^ 53 * P1) by (apply Z.mul_le_mono_nonneg_r; lia).
    assert (2 ^ 52 * P2 ≤ q2 * P2) by (apply Z.mul_le_mono_nonneg_r; lia). lia.
  - rewrite <- HE in *. clear HE. apply Z.mul_le_mono_nonneg_r; [lia|]. destruct (decide (q1 ≤ q2)) as [|Hgt]; [done|]. exfalso.
    set (P := 2 ^ E1) in *. assert (Hx : (2 * q1 - 1) * (D1 * P) ≤ 2 * N1) by lia. assert (Hy : 2 * N2 ≤ (2 * q2 + 1) * (D2 * P)) by lia.
    apply (Z.mul_le_mono_nonneg_r _ _ D2) in Hx; [|lia]. apply (Z.mul_le_mono_nonneg_r _ _ D1) in Hy; [|lia].
    clear Hn1 Hb1 Hn2 Hb2. assert (HC : 0 < D1 * D2 * P) by (apply Z.mul_pos_pos; [apply Z.mul_pos_pos|]; lia).
    assert ((2 * q2 + 1) * (D1 * D2 * P) ≤ (2 * q1 - 1) * (D1 * D2 * P)) by (apply Z.mul_le_mono_nonneg_r; lia). lia.
  - exfalso. pose proof (Z.pow_le_mono_r 2 (E2 + 1) E1 ltac:(lia) ltac:(lia)) as Hp.
    rewrite Z.pow_add_r, Z.pow_1_r in Hp by lia. set (P1 := 2 ^ E1) in *. set (P2 := 2 ^ E2) in *.
    destruct Hb1 as [Hb1 _]. destruct Hb2 as [_ Hb2]. clear Hn1 Hn2.
    apply (Z.mul_le_mono_nonneg_r _ _ D2) in Hb1; [|lia]. apply (Z.mul_lt_mono_pos_r D1) in Hb2; [|lia].
    assert (HC : 0 < D1 * D2) by (apply Z.mul_pos_pos; lia).
    assert (D1 * D2 * (P2 * 2) ≤ D1 * D2 * P1) by (apply Z.mul_le_mono_nonneg_l; lia). lia.
Qed.

(** Doubles with a full mantissa and the same value are the same. *)
Lemma fixed_inj s m1 e1 m2 e2 :
  Z.log2 (Z.pos m1) = 52 → Z.log2 (Z.pos m2) = 52 → -1074 ≤ e1 → -1074 ≤ e2 →
  fixed (S754_finite s m1 e1) = fixed (S754_finite s m2 e2) → S754_finite s m1 e1 = S754_finite s m2 e2.
Proof.
  cbn [fixed]. intros H1 H2 He1 He2 Hf.
  assert (He : e1 = e2).
  { apply (f_equal Z.log2) in Hf. rewrite !Z.log2_mul_pow2 in Hf by lia. lia. }
  subst e2. assert (0 < 2 ^ (e1 + 1074)) by (apply Z.pow_pos_nonneg; lia).
  assert (Z.pos m1 = Z.pos m2) by (eapply Z.mul_cancel_r; [|exact Hf]; lia). congruence.
Qed.

(** Truncation. *)
Lemma trunc_fixed s m e :
  -1074 ≤ e → double_trunc (S754_finite s m e) =
    Some (let a := fixed (S754_finite s m e) `div` scale in if s then - a else a).
Proof.
  intros He. unfold double_trunc. cbn [fixed].
  assert (Ha : (if bool_decide (0 ≤ e) then Z.pos m * 2 ^ e else Z.pos m `div` 2 ^ (- e)) = (Z.pos m * 2 ^ (e + 1074)) `div` scale).
  { unfold scale. case_bool_decide.
    - by rewrite Z.pow_add_r, Z.mul_assoc, Z.div_mul by (try apply Z.pow_nonzero; lia).
    - replace (2 ^ 1074) with (2 ^ (- e) * 2 ^ (e + 1074)) by (rewrite <- Z.pow_add_r by lia; f_equal; lia).
      by rewrite Z.div_mul_cancel_r by (apply Z.pow_nonzero; lia). }
  by rewrite Ha.
Qed.

(** ** Conversions and divisions *)

(** What [round_aux_located] rounds, in the units of [fixed]: everything is
    multiplied by [C]. *)
Lemma rounds_intro s q m' e' N D k e C D' :
  0 < C → -1074 ≤ e + k → 2 ^ 52 ≤ q ≤ 2 ^ 53 →
  2 * Z.abs (N - q * (D * 2 ^ k)) ≤ D * 2 ^ k → D * 2 ^ k * 2 ^ 52 ≤ N < D * 2 ^ k * 2 ^ 53 →
  (Z.pos m' = q ∧ e' = e + k ∨ q = 2 ^ 53 ∧ Z.pos m' = 2 ^ 52 ∧ e' = e + k + 1) →
  D * 2 ^ k * C = D' * 2 ^ (e + k + 1074) →
  rounds (N * C) D' (S754_finite s m' e') ∧ -1074 ≤ e'.
Proof.
  intros HC He Hq Hn Hb Hm HD. split; [|lia]. exists q, (e + k + 1074). rewrite <- HD.
  set (U := D * 2 ^ k) in *. split_and!; [lia..| | |nia|nia].
  - cbn [fixed]. destruct Hm as [[-> ->]|(-> & -> & ->)]; [done|].
    replace (e + k + 1 + 1074) with (Z.succ (e + k + 1074)) by lia. rewrite Z.pow_succ_r by lia. lia.
  - replace (N * C - q * (U * C)) with ((N - q * U) * C) by lia. rewrite Z.abs_mul, (Z.abs_eq C) by lia. nia.
Qed.

Lemma double_of_pos_rounds p :
  Z.pos p < 2 ^ 900 →
  ∃ m e, double_of_Z (Z.pos p) = S754_finite false m e ∧ Z.log2 (Z.pos m) = 52 ∧
    Z.log2 (Z.pos p) ≤ 52 + e ≤ Z.log2 (Z.pos p) + 1 ∧ rounds (Z.pos p * scale) 1 (S754_finite false m e).
Proof.
  intros Hp. pose proof (Z.log2_nonneg (Z.pos p)). assert (Hl : Z.log2 (Z.pos p) < 900) by (apply Z.log2_lt_pow2; lia).
  destruct (decide (Z.pos p < 2 ^ 53)) as [Hs|Hs].
  - destruct (double_of_pos p Hs) as (m & k & Hm & Hk & Hmp & ->). exists m, (- k). split_and!; try done.
    + apply (f_equal Z.log2) in Hmp. rewrite Z.log2_mul_pow2 in Hmp by lia. lia.
    + apply (f_equal Z.log2) in Hmp. rewrite Z.log2_mul_pow2 in Hmp by lia. lia.
    + assert (Hv : Z.pos p * scale = Z.pos m * 2 ^ (- k + 1074)).
      { rewrite Hmp, <- Z.mul_assoc, <- Z.pow_add_r by lia. unfold scale. do 2 f_equal. lia. }
      pose proof (Z.log2_spec (Z.pos m) ltac:(lia)) as Hb. rewrite Hm in Hb. change (2 ^ Z.succ 52) with (2 ^ 53) in Hb.
      assert (0 < 2 ^ (- k + 1074)) by (apply Z.pow_pos_nonneg; lia).
      exists (Z.pos m), (- k + 1074). rewrite Hv, !Z.mul_1_l, Z.sub_diag. cbn [fixed]. split_and!; try lia; nia.
  - unfold double_of_Z, binary_normalize, binary_round. rewrite digits2_pos_log2.
    assert (H53 : 53 ≤ Z.log2 (Z.pos p)) by (apply Z.log2_le_pow2; lia).
    assert (Hf : fexp 53 1024 (Z.log2 (Z.pos p) + 1 + 0) = Z.log2 (Z.pos p) - 52) by (unfold fexp, emin; lia).
    rewrite Hf. unfold shl_align. rewrite Z.sub_0_r. destruct (Z.log2 (Z.pos p) - 52) as [|d|d] eqn:Hk; [lia| |lia].
    destruct (round_aux_located false p 0 loc_Exact (Z.pos p) 1 (located_exact _)) as (q & m' & e' & -> & Hq & Hn & Hb & Hm & Hl'); [lia..|].
    exists m', e'. destruct (rounds_intro false q m' e' (Z.pos p) 1 (Z.log2 (Z.pos p) - 52) 0 scale 1) as [Hr He]; try done; [lia| |].
    + rewrite Z.add_0_l, Z.pow_add_r by lia. unfold scale. lia.
    + split_and!; [done|done|lia|lia|done].
Qed.

Lemma product_log2 m1 m2 :
  Z.log2 (Z.pos m1) = 52 → Z.log2 (Z.pos m2) = 52 →
  Z.log2 (Z.pos (m1 * m2)) = 104 ∨ Z.log2 (Z.pos (m1 * m2)) = 105.
Proof.
  intros H1 H2. pose proof (Z.log2_spec (Z.pos m1) ltac:(lia)) as Hb1. pose proof (Z.log2_spec (Z.pos m2) ltac:(lia)) as Hb2.
  rewrite H1 in Hb1. rewrite H2 in Hb2. change (Z.succ 52) with 53 in *. rewrite Pos2Z.inj_mul.
  destruct (decide (Z.pos m1 * Z.pos m2 < 2 ^ 105)); [left|right]; apply Z.log2_unique; try lia; nia.
Qed.

Lemma quotient_log2 A D q r :
  0 < A → A = D * q + r → 0 ≤ r < D → Z.log2 D < Z.log2 A →
  0 < q ∧ Z.log2 A - Z.log2 D - 1 ≤ Z.log2 q ≤ Z.log2 A - Z.log2 D.
Proof.
  intros HA Heq Hr Hlt. pose proof (Z.log2_nonneg D). pose proof (Z.log2_spec A HA) as [A1 A2].
  pose proof (Z.log2_spec D ltac:(lia)) as [D1 D2]. set (a := Z.log2 A) in *. set (b := Z.log2 D) in *.
  assert (H1 : 2 ^ (a - b - 1) ≤ q).
  { destruct (decide (2 ^ (a - b - 1) ≤ q)) as [|Hn]; [done|]. exfalso.
    assert (A < D * 2 ^ (a - b - 1)) by nia. replace a with (Z.succ b + (a - b - 1)) in A1 by lia.
    rewrite Z.pow_add_r in A1 by lia. assert (0 < 2 ^ (a - b - 1)) by (apply Z.pow_pos_nonneg; lia). nia. }
  assert (0 < 2 ^ (a - b - 1)) by (apply Z.pow_pos_nonneg; lia). split; [lia|]. split; [apply Z.log2_le_pow2; lia|].
  apply Z.lt_succ_r, Z.log2_lt_pow2; [lia|]. destruct (decide (q < 2 ^ Z.succ (a - b))) as [|Hn]; [done|]. exfalso.
  replace (Z.succ a) with (b + Z.succ (a - b)) in A2 by lia. rewrite Z.pow_add_r in A2 by lia. nia.
Qed.

(** Division of doubles, of any mantissas, that neither overflows nor
    underflows. *)
Lemma div_rounds s1 m1 e1 s2 m2 e2 :
  -1074 ≤ e1 → -1074 ≤ e2 → Z.log2 (Z.pos m2) ≤ 1000 →
  -1000 ≤ Z.log2 (Z.pos m1) + e1 - (Z.log2 (Z.pos m2) + e2) ≤ 1000 →
  ∃ m e, double_div (S754_finite s1 m1 e1) (S754_finite s2 m2 e2) = S754_finite (xorb s1 s2) m e ∧
    Z.log2 (Z.pos m) = 52 ∧
    (let x := Z.log2 (Z.pos m1) + e1 - (Z.log2 (Z.pos m2) + e2) in -1074 ≤ e ∧ x - 53 ≤ e ≤ x - 51) ∧
    rounds (fixed (S754_finite s1 m1 e1) * scale) (fixed (S754_finite s2 m2 e2)) (S754_finite (xorb s1 s2) m e).
Proof.
  intros He1 He2 HL Hx. unfold double_div, SFdiv, SFdiv_core_binary. cbn [Zdigits2]. rewrite !digits2_pos_log2.
  set (L1 := Z.log2 (Z.pos m1)) in *. set (L2 := Z.log2 (Z.pos m2)) in *.
  replace (L1 + 1 + e1 - (L2 + 1 + e2)) with (L1 + e1 - (L2 + e2)) by lia.
  assert (Hf : fexp 53 1024 (L1 + e1 - (L2 + e2)) = L1 + e1 - (L2 + e2) - 53) by (unfold fexp, emin; lia). rewrite Hf.
  set (e' := Z.min _ _). set (s := e1 - e2 - e'). assert (Hs : 0 ≤ s ∧ 53 - L1 + L2 ≤ s) by lia.
  assert (Hm' : (match s with Z0 => Z.pos m1 | Z.pos _ => Z.shiftl (Z.pos m1) s | Z.neg _ => 0 end) = Z.pos m1 * 2 ^ s).
  { destruct s as [|s'|s']; [lia|by rewrite Z.shiftl_mul_pow2 by lia|lia]. }
  rewrite Hm'. set (A := Z.pos m1 * 2 ^ s).
  pose proof (Z.div_mod A (Z.pos m2) ltac:(lia)) as HA. pose proof (Z.mod_pos_bound A (Z.pos m2) ltac:(lia)) as Hr.
  unfold Z.div, Z.modulo in HA, Hr. destruct (Z.div_eucl A (Z.pos m2)) as [q r].
  assert (HL1 : Z.log2 A = L1 + s) by (unfold A; rewrite Z.log2_mul_pow2 by lia; lia).
  destruct (quotient_log2 A (Z.pos m2) q r ltac:(unfold A; pose proof (Z.pow_pos_nonneg 2 s); lia) HA Hr) as [Hq0 Hlq].
  { fold L2. rewrite HL1. lia. }
  fold L2 in Hlq. rewrite HL1 in Hlq. pose proof (new_location_located q r (Z.pos m2) Hr) as Hloc. rewrite <- HA in Hloc.
  destruct q as [|p|p]; [lia| |lia].
  destruct (round_aux_located (xorb s1 s2) p e' (new_location (Z.pos m2) r) A (Z.pos m2) Hloc) as (q & m' & ex & -> & Hq & Hn & Hb & Hm & Hl'); [lia..|].
  exists m', ex. assert (He' : 0 ≤ e2 + e' + 2148) by (unfold e'; lia).
  destruct (rounds_intro (xorb s1 s2) q m' ex A (Z.pos m2) (Z.log2 (Z.pos p) - 52) e' (2 ^ (e2 + e' + 2148))
    (fixed (S754_finite s2 m2 e2))) as [Hround He]; try done; [apply Z.pow_pos_nonneg; lia|lia| |].
  - cbn [fixed]. rewrite <- !Z.mul_assoc, <- !Z.pow_add_r by lia. do 2 f_equal. lia.
  - split; [done|]. split; [done|]. split; [cbv zeta; fold L1 L2; lia|]. cbn [fixed]. unfold scale. rewrite <- Z.mul_assoc, <- Z.pow_add_r by lia.
    unfold A in Hround. rewrite <- Z.mul_assoc, <- Z.pow_add_r in Hround by lia.
    by replace (e1 + 1074 + 1074) with (s + (e2 + e' + 2148)) by lia.
Qed.

(** Multiplication of doubles of full mantissas that neither overflows nor
    underflows. *)
Lemma mul_rounds s1 m1 e1 s2 m2 e2 :
  Z.log2 (Z.pos m1) = 52 → Z.log2 (Z.pos m2) = 52 → -1074 ≤ e1 → -1074 ≤ e2 → -1126 ≤ e1 + e2 < 918 →
  ∃ m e, double_mul (S754_finite s1 m1 e1) (S754_finite s2 m2 e2) = S754_finite (xorb s1 s2) m e ∧
    Z.log2 (Z.pos m) = 52 ∧ -1074 ≤ e ∧
    rounds (fixed (S754_finite s1 m1 e1) * fixed (S754_finite s2 m2 e2)) scale (S754_finite (xorb s1 s2) m e).
Proof.
  intros Hm1 Hm2 He1 He2 He. unfold double_mul, SFmul. set (M := (m1 * m2)%positive).
  assert (Hl : Z.log2 (Z.pos M) = 104 ∨ Z.log2 (Z.pos M) = 105) by by apply product_log2.
  destruct (round_aux_located (xorb s1 s2) M (e1 + e2) loc_Exact (Z.pos M) 1 (located_exact _))
    as (q & m' & ex & -> & Hq & Hn & Hb & Hm & Hl'); [lia..|].
  exists m', ex. set (k := Z.log2 (Z.pos M) - 52) in *.
  destruct (rounds_intro (xorb s1 s2) q m' ex (Z.pos M) 1 k (e1 + e2) (2 ^ (e1 + e2 + 2148)) scale) as [Hr Hex]; try done;
    [apply Z.pow_pos_nonneg; lia|lia| |].
  - unfold scale. rewrite Z.mul_1_l, <- !Z.pow_add_r by lia. f_equal. lia.
  - split_and!; try done. cbn [fixed]. replace (Z.pos m1 * 2 ^ (e1 + 1074) * (Z.pos m2 * 2 ^ (e2 + 1074)))
      with (Z.pos M * 2 ^ (e1 + e2 + 2148)); [done|].
    replace (e1 + e2 + 2148) with ((e1 + 1074) + (e2 + 1074)) by lia. rewrite Z.pow_add_r by lia.
    change (Z.pos M) with (Z.pos m1 * Z.pos m2). ring.
Qed.

(** A power of two divides exactly, in either mode. *)
Lemma mul_by_pow2 m e c :
  Z.log2 (Z.pos m) = 52 → -60 ≤ e ≤ 60 → -900 ≤ c ≤ 900 →
  double_mul (S754_finite false m e) (pow2 c) = S754_finite false m (e + c).
Proof.
  intros Hm He Hc. unfold double_mul, pow2, SFmul. cbn [xorb]. set (M := (m * 4503599627370496)%positive).
  assert (HM : Z.pos M = Z.pos m * 2 ^ 52) by done.
  assert (Hl : Z.log2 (Z.pos M) = 104) by (rewrite HM, Z.log2_mul_pow2 by lia; lia).
  destruct (round_aux_located false M (e + (c - 52)) loc_Exact (Z.pos M) 1 (located_exact _))
    as (q & m' & e' & -> & _ & Hn & _ & Hq & _); [lia..|].
  rewrite Hl in *. change (1 * 2 ^ (104 - 52)) with (2 ^ 52) in Hn. rewrite HM in Hn.
  pose proof (Z.log2_spec (Z.pos m) ltac:(lia)) as Hb. rewrite Hm in Hb. change (2 ^ Z.succ 52) with (2 ^ 53) in Hb.
  assert (q = Z.pos m) by nia. destruct Hq as [[Hm' ->]|(? & _)]; [|lia].
  assert (m' = m) as -> by congruence. f_equal. lia.
Qed.

Lemma quotient_pow2 `{!FloatMode} m e c :
  Z.log2 (Z.pos m) = 52 → -60 ≤ e ≤ 60 → -900 ≤ c ≤ 900 →
  quotient (S754_finite false m e) (pow2 c) = S754_finite false m (e - c).
Proof.
  intros Hm He Hc. unfold quotient. destruct reciprocal_math; [|by apply div_by_pow2].
  unfold double_1. rewrite div_by_pow2 by (done || lia).
  replace (S754_finite false 4503599627370496 (-52 - c)) with (pow2 (- c)) by (unfold pow2; f_equal; lia).
  rewrite mul_by_pow2 by lia. done.
Qed.

Lemma trunc_quotient_0_pow2 `{!FloatMode} c :
  -900 ≤ c ≤ 900 → double_trunc (quotient (double_of_Z 0) (pow2 c)) = Some 0.
Proof.
  intros Hc. unfold quotient. destruct reciprocal_math; [|done]. unfold double_1. by rewrite div_by_pow2 by (done || lia).
Qed.

Lemma trunc_quotient_pow2 `{!FloatMode} p c :
  Z.pos p < 2 ^ 53 → -900 ≤ c ≤ 900 →
  double_trunc (quotient (double_of_Z (Z.pos p)) (pow2 c)) = Some (Z.shiftr (Z.pos p) c).
Proof.
  intros Hp Hc. destruct (double_of_pos p Hp) as (m & k & Hm & Hk & Hmp & ->).
  rewrite quotient_pow2 by lia. apply trunc_scaled; [lia|done].
Qed.

(** Rounding a mantissa of more than 53 bits: the exponent grows by the
    number [k] of bits lost, and the result is the mantissa's quotient, or
    one more if something was lost. *)
Lemma round_aux_spec m e k :
  0 ≤ k → Z.log2 (Z.pos m) = 52 + k → -1074 ≤ e + k < 971 →
  ∃ q m' e', binary_round_aux 53 1024 false (Z.pos m) e loc_Exact = S754_finite false m' e' ∧
    (q = Z.pos m `div` 2 ^ k ∨ q = Z.pos m `div` 2 ^ k + 1 ∧ Z.pos m `mod` 2 ^ k ≠ 0) ∧
    (m' = Z.to_pos q ∧ e' = e + k ∨ q = 2 ^ 53 ∧ Z.pos m' = 2 ^ 52 ∧ e' = e + k + 1).
Proof.
  intros Hk Hl He. destruct (round_aux_located false m e loc_Exact (Z.pos m) 1 (located_exact _))
    as (q & m' & e' & -> & _ & Hn & _ & Hm & _); [lia..|].
  replace (Z.log2 (Z.pos m) - 52) with k in * by lia. rewrite Z.mul_1_l in Hn.
  pose proof (Z.div_mod (Z.pos m) (2 ^ k)) as Hdm. pose proof (Z.mod_pos_bound (Z.pos m) (2 ^ k)) as Hb.
  assert (0 < 2 ^ k) by (apply Z.pow_pos_nonneg; lia). exists q, m', e'. split; [done|]. split.
  - set (d := Z.pos m `div` 2 ^ k) in *. set (r := Z.pos m `mod` 2 ^ k) in *. set (P := 2 ^ k) in *.
    assert (q = d ∨ q = d + 1) as [-> | ->] by nia; [by left|right]. split; [done|]. nia.
  - destruct Hm as [[<- ->]|?]; [left|by right]. done.
Qed.

(** ** A fraction of a count *)

(** The truncation of a rounded value whose exponent is not positive. *)
Lemma trunc_rounded m' e' q a :
  0 ≤ a → 0 < q → (m' = Z.to_pos q ∧ e' = - a ∨ q = 2 ^ 53 ∧ Z.pos m' = 2 ^ 52 ∧ e' = - a + 1) →
  double_trunc (S754_finite false m' e') = Some (q `div` 2 ^ a).
Proof.
  intros Ha Hq [[-> ->]|(-> & Hm & ->)]; unfold double_trunc; f_equal.
  - rewrite Z2Pos.id by lia. case_bool_decide as H0; [|by rewrite Z.opp_involutive].
    replace a with 0 by lia. by rewrite Z.mul_1_r, Z.div_1_r.
  - rewrite Hm. case_bool_decide as H0.
    + assert (a = 0 ∨ a = 1) as [-> | ->] by lia; done.
    + replace (- (- a + 1)) with (a - 1) by lia. replace (2 ^ a) with (2 * 2 ^ (a - 1)) by (rewrite <- Z.pow_succ_r by lia; f_equal; lia).
      change (2 ^ 53) with (2 * 2 ^ 52). by rewrite Z.div_mul_cancel_l by lia.
Qed.

(** A fraction below 1 of a count below [2 ^ 53], truncated: defined, at most
    the count, and the exact value rounded down, or one more. *)
Lemma fraction_of_count m e n :
  Z.log2 (Z.pos m) = 52 → -1000 ≤ e ≤ -53 → 0 ≤ n < 2 ^ 53 →
  ∃ z, u64_of_double (double_mul (S754_finite false m e) (double_of_Z n)) = Ret z ∧ 0 ≤ z ≤ n ∧
    (z = (Z.pos m * n) `div` 2 ^ (- e) ∨ z = (Z.pos m * n) `div` 2 ^ (- e) + 1).
Proof.
  intros Hm He Hn. destruct n as [|p|p]; [| |lia].
  { exists 0. split; [done|]. split; [lia|]. left. by rewrite Z.mul_0_r. }
  destruct (double_of_pos p) as (m2 & k & Hm2 & Hk & Hmp & ->); [lia|].
  unfold double_mul, SFmul. cbn [xorb]. set (M := (m * m2)%positive).
  pose proof (Z.log2_spec (Z.pos m) ltac:(lia)) as Hb1. rewrite Hm in Hb1. change (Z.succ 52) with 53 in *.
  assert (HM : Z.pos M = Z.pos m * Z.pos m2) by done.
  assert (Hl : Z.log2 (Z.pos M) = 104 ∨ Z.log2 (Z.pos M) = 105) by by apply product_log2.
  set (s := Z.log2 (Z.pos M) - 52) in *. set (a := k - e - s).
  destruct (round_aux_spec M (e + - k) s) as (q & m' & e' & -> & Hq & Hr); [lia..|].
  assert (Hq1 : 0 < Z.pos M `div` 2 ^ s).
  { apply Z.div_str_pos. pose proof (Z.log2_spec (Z.pos M) ltac:(lia)). pose proof (Z.pow_le_mono_r 2 s (Z.log2 (Z.pos M))). lia. }
  unfold u64_of_double. rewrite (trunc_rounded m' e' q a) by lia.
  assert (Hx : (Z.pos M `div` 2 ^ s) `div` 2 ^ a = (Z.pos m * Z.pos p) `div` 2 ^ (- e)).
  { rewrite Z.div_div, <- Z.pow_add_r by lia. replace (s + a) with (k + - e) by lia.
    rewrite HM, Hmp, Z.pow_add_r, Z.mul_assoc, (Z.mul_comm (2 ^ k)) by lia.
    apply Z.div_mul_cancel_r; apply Z.pow_nonzero; lia. }
  assert (Hlt : Z.pos M `div` 2 ^ s < Z.pos p * 2 ^ a).
  { apply Z.div_lt_upper_bound; [lia|]. rewrite (Z.mul_comm (2 ^ s)), <- Z.mul_assoc, <- Z.pow_add_r by lia.
    replace (a + s) with (k + - e) by lia. rewrite HM, Hmp, Z.pow_add_r by lia.
    assert (Hme : Z.pos m < 2 ^ (- e)) by (pose proof (Z.pow_le_mono_r 2 53 (- e)); lia).
    assert (0 < 2 ^ k) by (apply Z.pow_pos_nonneg; lia). nia. }
  assert (Ha : 0 < 2 ^ a) by (apply Z.pow_pos_nonneg; lia).
  assert (Hz : q `div` 2 ^ a = (Z.pos m * Z.pos p) `div` 2 ^ (- e) ∨ q `div` 2 ^ a = (Z.pos m * Z.pos p) `div` 2 ^ (- e) + 1).
  { rewrite <- Hx. destruct Hq as [-> |[-> _]]; [by left|].
    set (Q := Z.pos M `div` 2 ^ s). pose proof (Z.div_le_mono Q (Q + 1) (2 ^ a) Ha ltac:(lia)).
    assert ((Q + 1) `div` 2 ^ a ≤ Q `div` 2 ^ a + 1); [|lia].
    rewrite <- (Z.div_add Q 1) by lia. apply Z.div_le_mono; lia. }
  assert (Hzn : q `div` 2 ^ a ≤ Z.pos p).
  { apply Z.div_le_upper_bound; [done|]. lia. }
  assert (Hz0 : 0 ≤ q `div` 2 ^ a) by (apply Z.div_pos; lia).
  rewrite bool_decide_true by lia. by eexists.
Qed.
