(* ===== verification/Stats.v ===== *)
(** * Sorted samples and percentiles

    What the tools' statistics have in common: samples sorted with
    [std::sort], their ends, and the element at a fraction of the last
    index, computed in [double]. *)

From stdpp Require Import sorting.
From S2P Require Import Prelude Double Rounding.

(** ** Sorting *)

(** [std::sort] of integers: equal elements are the same, so the order is
    determined. *)
Definition sorted_samples (l : list Z) : list Z := merge_sort (≤) l.

Lemma sorted_samples_perm l : sorted_samples l ≡ₚ l.
Proof. apply merge_sort_Permutation. Qed.

Lemma sorted_samples_sorted l : StronglySorted (≤) (sorted_samples l).
Proof. apply StronglySorted_merge_sort; apply _. Qed.

Lemma length_sorted_samples l : length (sorted_samples l) = length l.
Proof. by rewrite sorted_samples_perm. Qed.

Lemma sorted_lookup_le l i j x y :
  StronglySorted (≤) l → (i ≤ j)%nat → l !! i = Some x → l !! j = Some y → x ≤ y.
Proof.
  intros Hs. revert i j. induction Hs as [|a l _ IH Ha]; intros i j Hij Hx Hy; [done|].
  destruct i as [|i], j as [|j]; cbn in Hx, Hy; simplify_eq; [done| |lia|by eapply (IH i j); [lia|..]].
  rewrite Forall_forall in Ha. apply Ha. by eapply list_elem_of_lookup_2.
Qed.

(** The first and the last of the sorted samples bound them all. *)
Lemma sorted_samples_ends l :
  l ≠ [] → ∃ lo hi, head (sorted_samples l) = Some lo ∧ last (sorted_samples l) = Some hi ∧
    lo ∈ l ∧ hi ∈ l ∧ Forall (λ d, lo ≤ d ≤ hi) l.
Proof.
  intros Hne. pose proof (sorted_samples_perm l) as Hp. pose proof (sorted_samples_sorted l) as Hs.
  destruct (head (sorted_samples l)) as [lo|] eqn:Hlo.
  2: { apply head_None in Hlo. rewrite Hlo in Hp. by apply Permutation_nil_l in Hp. }
  destruct (last (sorted_samples l)) as [hi|] eqn:Hhi.
  2: { apply last_None in Hhi. by rewrite Hhi in Hlo. }
  rewrite head_lookup in Hlo. rewrite last_lookup in Hhi. exists lo, hi. split_and!; try done.
  - rewrite <- Hp. by eapply list_elem_of_lookup_2.
  - rewrite <- Hp. by eapply list_elem_of_lookup_2.
  - rewrite <- Hp. apply Forall_forall. intros d (k & Hk)%list_elem_of_lookup.
    pose proof (lookup_lt_Some _ _ _ Hk). split.
    + by eapply (sorted_lookup_le _ 0 k); [|lia|..].
    + eapply (sorted_lookup_le _ k _); [done| |done|done]. lia.
Qed.

(** ** Ranks *)

(** [static_cast<std::size_t>(p * static_cast<double>(n - 1))]. *)
Definition rank (p : double) (n : Z) : outcome Z := u64_of_double (double_mul p (double_of_Z (u64 (n - 1)))).

(** The doubles 0.50, 0.99 and 0.999: a 53-bit mantissa over [2 ^ 53]. *)
Definition fraction (m : positive) : double := S754_finite false m (-53).

Lemma rank_spec m n :
  Z.log2 (Z.pos m) = 52 → 0 < n < 2 ^ 53 →
  ∃ z, rank (fraction m) n = Ret z ∧ 0 ≤ z < n ∧
    (z = (Z.pos m * (n - 1)) `div` 2 ^ 53 ∨ z = (Z.pos m * (n - 1)) `div` 2 ^ 53 + 1).
Proof.
  intros Hm Hn. unfold rank. rewrite u64_small by lia.
  destruct (fraction_of_count m (-53) (n - 1)) as (z & Hz & Hb & Hf); [done|lia|lia|].
  exists z. split; [exact Hz|]. split; [lia|exact Hf].
Qed.

(** Ranks grow with the fraction: by the estimate when the count is large,
    and by calculation below 300. *)
Definition rank_le (m1 m2 : positive) (n : Z) : bool :=
  match rank (fraction m1) n, rank (fraction m2) n with Ret a, Ret b => bool_decide (a ≤ b) | _, _ => false end.

Lemma rank_mono m1 m2 n a b :
  Z.log2 (Z.pos m1) = 52 → Z.log2 (Z.pos m2) = 52 → 2 ^ 53 ≤ 299 * (Z.pos m2 - Z.pos m1) →
  forallb (rank_le m1 m2) (seqZ 1 299) = true → 0 < n < 2 ^ 53 →
  rank (fraction m1) n = Ret a → rank (fraction m2) n = Ret b → a ≤ b.
Proof.
  intros H1 H2 Hgap Hsmall Hn Ha Hb. destruct (decide (n < 300)) as [Hlt|Hge].
  - rewrite forallb_forall in Hsmall. specialize (Hsmall n). unfold rank_le in Hsmall. rewrite Ha, Hb in Hsmall.
    eapply bool_decide_eq_true, Hsmall. apply list_elem_of_In, elem_of_seqZ. lia.
  - destruct (rank_spec m1 n H1 Hn) as (a' & Ha' & _ & Hfa). destruct (rank_spec m2 n H2 Hn) as (b' & Hb' & _ & Hfb).
    rewrite Ha in Ha'. rewrite Hb in Hb'. injection Ha' as <-. injection Hb' as <-.
    assert (Hx : Z.pos m1 * (n - 1) + 1 * 2 ^ 53 ≤ Z.pos m2 * (n - 1)) by nia.
    apply (Z.div_le_mono _ _ (2 ^ 53)) in Hx; [|done]. rewrite Z.div_add in Hx by done. lia.
Qed.

(** How far the computed ranks are from the exact ones. *)
Lemma half_rank n z :
  z = (4503599627370496 * n) `div` 2 ^ 53 ∨ z = (4503599627370496 * n) `div` 2 ^ 53 + 1 → Z.abs (2 * z - n) ≤ 2.
Proof.
  change (2 ^ 53) with (4503599627370496 * 2). rewrite Z.div_mul_cancel_l by done.
  pose proof (Z.div_mod n 2 ltac:(done)). pose proof (Z.mod_pos_bound n 2 ltac:(done)). lia.
Qed.

Lemma p99_rank n z :
  0 ≤ n < 2 ^ 53 → z = (8917127262193582 * n) `div` 2 ^ 53 ∨ z = (8917127262193582 * n) `div` 2 ^ 53 + 1 →
  Z.abs (100 * z - 99 * n) ≤ 107.
Proof.
  pose proof (Z.div_mod (8917127262193582 * n) (2 ^ 53) ltac:(done)).
  pose proof (Z.mod_pos_bound (8917127262193582 * n) (2 ^ 53) ltac:(done)). lia.
Qed.

Lemma p999_rank n z :
  0 ≤ n < 2 ^ 53 → z = (8998192055486252 * n) `div` 2 ^ 53 ∨ z = (8998192055486252 * n) `div` 2 ^ 53 + 1 →
  Z.abs (1000 * z - 999 * n) ≤ 1992.
Proof.
  pose proof (Z.div_mod (8998192055486252 * n) (2 ^ 53) ltac:(done)).
  pose proof (Z.mod_pos_bound (8998192055486252 * n) (2 ^ 53) ltac:(done)). lia.
Qed.
