(* ===== verification/Strto.v ===== *)
(** * Numbers from strings

    [std::stoull] and [std::stod] of the standard library, as
    [tools/replay_feed.cpp] uses them: the scanning of [strtoull] and
    [strtod] in the C locale, correct rounding to nearest, and the exceptions
    for no conversion and for [ERANGE].  Characters are 8-bit; what follows
    the number is not looked at. *)

From Stdlib Require Import Ascii.
From S2P Require Import Prelude Double Rounding.

(** ** Characters and integers *)

Definition code (c : ascii) : Z := Z.of_N (N_of_ascii c).
(** [isspace] in the C locale. *)
Definition is_space (c : ascii) : bool := bool_decide (code c = 32) || bool_decide (9 ≤ code c ≤ 13).
Definition is_digit (c : ascii) : bool := bool_decide (48 ≤ code c ≤ 57).

Inductive std_error : Type := InvalidArgument | OutOfRange.

Fixpoint skip_spaces (s : list ascii) : list ascii :=
  match s with c :: s' => if is_space c then skip_spaces s' else s | [] => [] end.

(** The digits read from the front, in base 10. *)
Fixpoint read_digits (acc : Z) (s : list ascii) : Z :=
  match s with c :: s' => if is_digit c then read_digits (10 * acc + (code c - 48)) s' else acc | [] => acc end.

(** The optional sign; whether it is a minus. *)
Definition read_sign (s : list ascii) : bool * list ascii :=
  match s with
  | c :: s' => if bool_decide (code c = 45) then (true, s') else if bool_decide (code c = 43) then (false, s') else (false, s)
  | [] => (false, [])
  end.

(** [strtoull] with base 10, and the exceptions for no digits and for
    [ERANGE]; what follows the digits is not looked at. *)
Definition stoull (s : list ascii) : std_error + Z :=
  let '(minus, s) := read_sign (skip_spaces s) in
  match s with
  | c :: _ =>
      if is_digit c then
        let v := read_digits 0 s in
        if bool_decide (2 ^ 64 ≤ v) then inl OutOfRange else inr (if minus then u64 (- v) else v)
      else inl InvalidArgument
  | [] => inl InvalidArgument
  end.

(** ** std::stod *)

(** The longest prefix of characters that satisfy [p], and the rest. *)
Fixpoint span (p : ascii → bool) (s : list ascii) : list ascii * list ascii :=
  match s with
  | c :: s' => if p c then let '(a, b) := span p s' in (c :: a, b) else ([], s)
  | [] => ([], [])
  end.

(** Letters regardless of case, as the code of the small letter. *)
Definition lower (c : ascii) : Z := if bool_decide (65 ≤ code c ≤ 90) then code c + 32 else code c.
Fixpoint starts_with (word : list ascii) (s : list ascii) : bool :=
  match word, s with
  | [], _ => true
  | w :: word, c :: s => bool_decide (lower c = code w) && starts_with word s
  | _ :: _, [] => false
  end.

Definition is_hex (c : ascii) : bool := is_digit c || bool_decide (97 ≤ lower c ≤ 102).
Definition hex_value (c : ascii) : Z := if is_digit c then code c - 48 else lower c - 87.
Definition read_hex (s : list ascii) : Z := foldl (λ acc c, 16 * acc + hex_value c) 0 s.

(** An exponent introduced by [letter]; without digits there is none. *)
Definition read_exponent (letter : Z) (s : list ascii) : Z :=
  match s with
  | c :: s =>
      if bool_decide (lower c = letter) then
        let '(minus, s) := read_sign s in
        match s with
        | d :: _ => if is_digit d then let v := read_digits 0 s in if minus then - v else v else 0
        | [] => 0
        end
      else 0
  | [] => 0
  end.

(** Digits with an optional point: before it, after it, and the rest. *)
Definition read_point (p : ascii → bool) (s : list ascii) : list ascii * list ascii * list ascii :=
  let '(int, s) := span p s in
  match s with
  | c :: s' => if bool_decide (code c = 46) then let '(frac, s) := span p s' in (int, frac, s) else (int, [], s)
  | [] => (int, [], [])
  end.

(** A scanned number: [m * 10 ^ e], [m * 2 ^ e], or a word. *)
Inductive scanned : Type :=
| Dec (m e : Z)
| Hex (m e : Z)
| Infinity
| NotANumber.

Definition scan_decimal (s : list ascii) : option scanned :=
  let '(int, frac, s) := read_point is_digit s in
  match int ++ frac with
  | [] => None
  | ds => Some (Dec (read_digits 0 ds) (read_exponent 101 s - Z.of_nat (length frac)))
  end.

Definition scan_hex (s : list ascii) : option scanned :=
  let '(int, frac, s) := read_point is_hex s in
  match int ++ frac with
  | [] => None
  | ds => Some (Hex (read_hex ds) (read_exponent 112 s - 4 * Z.of_nat (length frac)))
  end.

(** What follows the sign.  A "0x" without a digit is the number 0. *)
Definition scan_number (s : list ascii) : option scanned :=
  if starts_with (String.list_ascii_of_string "inf") s then Some Infinity
  else if starts_with (String.list_ascii_of_string "nan") s then Some NotANumber
  else match (if starts_with (String.list_ascii_of_string "0x") s then scan_hex (drop 2 s) else None) with
       | Some n => Some n
       | None => scan_decimal s
       end.

(** The double nearest to a non-negative number. *)
Definition nearest (n : scanned) : double :=
  match n with
  | Dec (Z.pos m) e =>
      if bool_decide (0 ≤ e) then double_of_Z (Z.pos m * 10 ^ e)
      else double_div (S754_finite false m 0) (S754_finite false (Z.to_pos (10 ^ (- e))) 0)
  | Hex (Z.pos m) e => binary_normalize 53 1024 (Z.pos m) e false
  | Dec _ _ | Hex _ _ => S754_zero false
  | Infinity => S754_infinity false
  | NotANumber => S754_nan
  end.

(** [m * base ^ e = m2 * 2 ^ e2]. *)
Definition same_value (m base e m2 e2 : Z) : bool :=
  bool_decide (m * base ^ Z.max 0 e * 2 ^ Z.max 0 (- e2) = m2 * 2 ^ Z.max 0 e2 * base ^ Z.max 0 (- e)).

Definition exact (n : scanned) (d : double) : bool :=
  match n, d with
  | Dec m e, S754_finite _ m2 e2 => same_value m 10 e (Z.pos m2) e2
  | Hex m e, S754_finite _ m2 e2 => same_value m 2 e (Z.pos m2) e2
  | Dec m _, S754_zero _ | Hex m _, S754_zero _ => bool_decide (m = 0)
  | _, _ => true
  end.

(** The number does not fit: it rounds to infinity. *)
Definition overflows (n : scanned) (d : double) : bool :=
  match n, d with (Dec _ _ | Hex _ _), S754_infinity _ => true | _, _ => false end.

(** It is too small: below the normal doubles, and not exact. *)
Definition underflows (n : scanned) (d : double) : bool :=
  match d with
  | S754_zero _ => negb (exact n d)
  | S754_finite _ m _ => bool_decide (Z.pos m < 2 ^ 52) && negb (exact n d)
  | _ => false
  end.

(** The C standard leaves it to the implementation whether an underflow sets
    [errno] to [ERANGE]: [erange_underflow]. *)
Definition stod (erange_underflow : bool) (s : list ascii) : std_error + double :=
  let '(minus, s) := read_sign (skip_spaces s) in
  match scan_number s with
  | None => inl InvalidArgument
  | Some n =>
      let d := nearest n in
      if overflows n d || erange_underflow && underflows n d then inl OutOfRange
      else inr (if minus then SFopp d else d)
  end.

(** ** Decimal numbers *)

Definition digit (d : Z) : ascii := ascii_of_N (Z.to_N (48 + d)).

(** The decimal digits of [n], least significant last; [fuel] is the number
    of digits at most. *)
Fixpoint decimal (fuel : nat) (n : Z) : list ascii :=
  match fuel with
  | O => []
  | S fuel => (if bool_decide (n < 10) then [] else decimal fuel (n `div` 10)) ++ [digit (n `mod` 10)]
  end.

(** As typed on the command line: twenty digits hold any 64-bit count, and
    thirty any number tried here. *)
Definition typed (n : Z) : string := String.string_of_list_ascii (decimal 30 n).

Lemma code_digit d : 0 ≤ d < 10 → code (digit d) = 48 + d.
Proof. intros Hd. unfold code, digit. rewrite N_ascii_embedding by lia. lia. Qed.

Lemma read_digits_app acc s c :
  forallb is_digit s = true → is_digit c = true → read_digits acc (s ++ [c]) = 10 * read_digits acc s + (code c - 48).
Proof.
  intros Hs Hc. revert acc. induction s as [|d s IH]; intros acc; cbn in *; [by rewrite Hc|].
  apply andb_true_iff in Hs as [Hd Hs]. rewrite Hd. by apply IH.
Qed.

Lemma decimal_spec fuel : ∀ n, 0 ≤ n < 10 ^ Z.of_nat fuel → (0 < fuel)%nat →
  forallb is_digit (decimal fuel n) = true ∧ read_digits 0 (decimal fuel n) = n ∧ decimal fuel n ≠ [].
Proof.
  induction fuel as [|fuel IH]; intros n Hn Hf; [lia|]. cbn [decimal].
  pose proof (Z.mod_pos_bound n 10 ltac:(lia)) as Hm. pose proof (Z.div_mod n 10 ltac:(lia)) as Hdm.
  assert (Hd : is_digit (digit (n `mod` 10)) = true) by (unfold is_digit; rewrite code_digit by lia; apply bool_decide_eq_true; lia).
  rewrite Nat2Z.inj_succ, Z.pow_succ_r in Hn by lia.
  assert (H : forallb is_digit (if bool_decide (n < 10) then [] else decimal fuel (n `div` 10)) = true ∧
              read_digits 0 (if bool_decide (n < 10) then [] else decimal fuel (n `div` 10)) = n `div` 10).
  { case_bool_decide; [split; [done|]; cbn; rewrite Z.div_small; lia|].
    destruct (IH (n `div` 10)) as (? & ? & _); [split; [apply Z.div_pos; lia|apply Z.div_lt_upper_bound; lia]| |done].
    destruct fuel; [|lia]. cbn in Hn. lia. }
  destruct H as [H1 H2]. split_and!.
  - by rewrite forallb_app, H1; cbn; rewrite Hd.
  - rewrite read_digits_app, H2, code_digit by done. lia.
  - by intros []%app_nil.
Qed.

Lemma digit_not_space c : is_digit c = true → is_space c = false ∧ code c ≠ 45 ∧ code c ≠ 43.
Proof.
  unfold is_digit, is_space. intros ?%bool_decide_eq_true. rewrite !bool_decide_false by lia. split_and!; [done|lia|lia].
Qed.

(** What [stoull] makes of spaces, a sign and digits. *)
Lemma stoull_number spaces sign ds rest :
  forallb is_space spaces = true → sign ∈ ([[]; ["+"%char]; ["-"%char]] : list (list ascii)) →
  forallb is_digit ds = true → ds ≠ [] → (∀ c r, rest = c :: r → is_digit c = false) →
  let v := read_digits 0 ds in
  stoull (spaces ++ sign ++ ds ++ rest) =
    if bool_decide (2 ^ 64 ≤ v) then inl OutOfRange
    else inr (if bool_decide (sign = ["-"%char]) then u64 (- v) else v).
Proof.
  intros Hsp Hsign Hds Hne Hrest v.
  assert (Hskip : ∀ s, match s with c :: _ => is_space c = false | [] => True end → skip_spaces (spaces ++ s) = s).
  { intros s Hs. clear -Hsp Hs. induction spaces as [|c sp IH]; cbn in *.
    - destruct s as [|c s]; [done|]. cbn. by rewrite Hs.
    - apply andb_true_iff in Hsp as [-> Hsp]. by apply IH. }
  assert (Hread : ∀ acc, read_digits acc (ds ++ rest) = read_digits acc ds).
  { clear -Hds Hrest. induction ds as [|c ds IH]; intros acc; cbn in *.
    - destruct rest as [|c r]; [done|]. cbn. by rewrite (Hrest c r eq_refl).
    - apply andb_true_iff in Hds as [-> Hds]. by apply IH. }
  destruct ds as [|d ds]; [done|]. assert (Hd : is_digit d = true) by (cbn in Hds; by apply andb_true_iff in Hds as [? _]).
  destruct (digit_not_space d Hd) as (Hd1 & Hd2 & Hd3). unfold stoull.
  assert (Hnum : read_digits 0 (d :: ds ++ rest) = v) by apply (Hread 0).
  rewrite !elem_of_cons in Hsign. destruct Hsign as [->|[->|[->|[]%elem_of_nil]]]; rewrite Hskip by done; cbn [read_sign app].
  - rewrite !bool_decide_false by done. cbn [app]. rewrite Hd, Hnum. done.
  - change (bool_decide (code "+"%char = 45)) with false. change (bool_decide (code "+"%char = 43)) with true.
    cbn [app]. rewrite Hd, Hnum. done.
  - change (bool_decide (code "-"%char = 45)) with true. cbn [app]. rewrite Hd, Hnum. done.
Qed.

(** The same without spaces and with nothing after the digits. *)
Lemma stoull_typed sign n :
  sign ∈ ([[]; ["-"%char]] : list (list ascii)) → 0 ≤ n < 10 ^ 30 →
  stoull (sign ++ decimal 30 n) =
    if bool_decide (2 ^ 64 ≤ n) then inl OutOfRange else inr (if bool_decide (sign = ["-"%char]) then u64 (- n) else n).
Proof.
  intros Hs Hn. destruct (decimal_spec 30 n Hn ltac:(lia)) as (Hd & Hv & Hne).
  generalize dependent (decimal 30 n). intros ds Hd <- Hne. rewrite <- (app_nil_r ds) at 1.
  apply (stoull_number [] sign ds []); [done| |done|done|done].
  apply elem_of_cons in Hs as [-> | ->%list_elem_of_singleton]; [by left|by right; right; left].
Qed.


(** What [stod] makes of digits: the double of the integer, exactly. *)
Lemma span_all p s : forallb p s = true → span p s = (s, []).
Proof. induction s as [|c s IH]; [done|]. cbn. intros [-> Hs]%andb_true_iff. by rewrite IH. Qed.

Lemma lower_digit c : is_digit c = true → lower c = code c ∧ 48 ≤ code c ≤ 57.
Proof. unfold is_digit, lower. intros ?%bool_decide_eq_true. by rewrite bool_decide_false by lia. Qed.

Lemma not_word w word c s : is_digit c = true → 57 < code w → starts_with (w :: word) (c :: s) = false.
Proof. intros Hc Hw. destruct (lower_digit c Hc) as [Hl ?]. cbn. by rewrite bool_decide_false by lia. Qed.

Lemma double_of_count n :
  0 ≤ n < 2 ^ 53 → overflows (Dec n 0) (double_of_Z n) = false ∧ underflows (Dec n 0) (double_of_Z n) = false.
Proof.
  intros Hn. destruct n as [|p|p]; [done| |lia].
  destruct (double_of_pos p) as (m & k & Hm & _ & _ & ->); [lia|]. split; [done|]. cbn.
  pose proof (Z.log2_spec (Z.pos m) ltac:(lia)) as Hs. rewrite Hm in Hs. by rewrite bool_decide_false by lia.
Qed.

Lemma stod_digits b ds :
  forallb is_digit ds = true → ds ≠ [] → read_digits 0 ds < 2 ^ 53 → 0 ≤ read_digits 0 ds →
  stod b ds = inr (double_of_Z (read_digits 0 ds)).
Proof.
  intros Hds Hne Hv H0. destruct ds as [|d ds]; [done|]. pose proof Hds as Hall.
  cbn [forallb] in Hds. apply andb_true_iff in Hds as [Hd Hds]. destruct (digit_not_space d Hd) as (Hd1 & Hd2 & Hd3).
  unfold stod. cbn [skip_spaces]. rewrite Hd1. cbn [read_sign]. rewrite !bool_decide_false by done.
  unfold scan_number. cbn [String.list_ascii_of_string]. rewrite !not_word by done.
  assert (Hx : starts_with ["0"%char; "x"%char] (d :: ds) = false).
  { destruct ds as [|e ds]; cbn [starts_with]; [by rewrite andb_false_r|].
    cbn [forallb] in Hds. apply andb_true_iff in Hds as [He _]. destruct (lower_digit e He) as [-> ?].
    rewrite (bool_decide_false (code e = code "x"%char)); [by rewrite andb_false_r|]. change (code "x"%char) with 120. lia. }
  rewrite Hx. assert (Hscan : scan_decimal (d :: ds) = Some (Dec (read_digits 0 (d :: ds)) 0)).
  { unfold scan_decimal, read_point. rewrite span_all by done. by rewrite app_nil_r. }
  rewrite Hscan. assert (Hn : nearest (Dec (read_digits 0 (d :: ds)) 0) = double_of_Z (read_digits 0 (d :: ds))).
  { destruct (read_digits 0 (d :: ds)) as [|p|p]; [done| |lia]. unfold nearest. by rewrite bool_decide_true, Z.pow_0_r, Z.mul_1_r by lia. }
  rewrite Hn. destruct (double_of_count _ (conj H0 Hv)) as [-> ->]. by rewrite andb_false_r.
Qed.

Lemma stod_typed b n : 0 ≤ n < 2 ^ 53 → stod b (decimal 30 n) = inr (double_of_Z n).
Proof.
  intros Hn. destruct (decimal_spec 30 n ltac:(lia) ltac:(lia)) as (Hd & Hv & Hne).
  rewrite stod_digits by (rewrite ?Hv; done || lia). by rewrite Hv.
Qed.

(** A word is not a number, unless it starts like an infinity or a NaN. *)
Lemma stod_word b a s :
  is_space a = false → is_digit a = false → code a ≠ 43 → code a ≠ 45 → code a ≠ 46 → lower a ≠ 105 → lower a ≠ 110 →
  stod b (a :: s) = inl InvalidArgument.
Proof.
  intros Hs Hd Hp Hm Hpt Hi Hn. unfold stod. cbn [skip_spaces]. rewrite Hs. cbn [read_sign]. rewrite !bool_decide_false by done.
  assert (H0 : lower a ≠ 48).
  { intros H0. unfold is_digit in Hd. apply bool_decide_eq_false in Hd. unfold lower in H0. case_bool_decide; lia. }
  unfold scan_number. cbn [String.list_ascii_of_string starts_with].
  rewrite (bool_decide_false (lower a = code "i"%char)), (bool_decide_false (lower a = code "n"%char)),
    (bool_decide_false (lower a = code "0"%char)) by done. cbn [andb].
  unfold scan_decimal, read_point. cbn [span]. rewrite Hd. by rewrite bool_decide_false.
Qed.

(** ** Decimal fractions *)

Definition is_point (c : ascii) : bool := bool_decide (code c = 46).

Lemma span_app p s c rest : forallb p s = true → p c = false → span p (s ++ c :: rest) = (s, c :: rest).
Proof. intros Hs Hc. induction s as [|d s IH]; cbn in *; [by rewrite Hc|]. apply andb_true_iff in Hs as [-> Hs]. by rewrite IH. Qed.

Lemma forallb_digits_app a b : forallb is_digit a = true → forallb is_digit b = true → forallb is_digit (a ++ b) = true.
Proof. intros Ha Hb. by rewrite forallb_app, Ha, Hb. Qed.

Lemma read_digits_nonneg ds : ∀ acc, 0 ≤ acc → forallb is_digit ds = true → 0 ≤ read_digits acc ds.
Proof.
  induction ds as [|d ds IH]; intros acc Ha Hd; [done|]. cbn in *. apply andb_true_iff in Hd as [Hd Hds]. rewrite Hd.
  destruct (lower_digit d Hd) as [_ ?]. apply IH; [lia|done].
Qed.

(** Digits, a point and digits are none of the words, nor hexadecimal. *)
Lemma scan_fraction int frac :
  forallb is_digit int = true → forallb is_digit frac = true → int ++ frac ≠ [] →
  scan_number (int ++ "."%char :: frac) = Some (Dec (read_digits 0 (int ++ frac)) (- Z.of_nat (length frac))).
Proof.
  intros Hi Hf Hne. set (s := int ++ "."%char :: frac).
  assert (Hw : ∀ w word, 57 < code w → starts_with (w :: word) s = false).
  { intros w word Hw. unfold s. destruct int as [|c int].
    - cbn [app starts_with]. rewrite bool_decide_false; [done|]. change (lower ".") with 46. lia.
    - cbn [forallb] in Hi. apply andb_true_iff in Hi as [Hc _]. by apply not_word. }
  assert (Hx : starts_with ["0"%char; "x"%char] s = false).
  { unfold s. destruct int as [|c [|d int]]; cbn [app starts_with]; [done|by rewrite andb_false_r|].
    cbn [forallb] in Hi. apply andb_true_iff in Hi as [_ [Hd _]%andb_true_iff]. destruct (lower_digit d Hd) as [-> ?].
    rewrite (bool_decide_false (code d = code "x"%char)); [by rewrite andb_false_r|]. change (code "x"%char) with 120. lia. }
  unfold scan_number. cbn [String.list_ascii_of_string]. rewrite !Hw by done. rewrite Hx.
  unfold scan_decimal, read_point, s. rewrite (span_app is_digit int "."%char frac Hi) by done.
  change (bool_decide (code "." = 46)) with true. cbv iota. rewrite span_all by done.
  by destruct (int ++ frac).
Qed.

(** The double nearest to [n / 10 ^ k]. *)
Lemma nearest_fraction n k :
  0 < n < 2 ^ 200 → (k ≤ 60)%nat →
  ∃ m e, nearest (Dec n (- Z.of_nat k)) = S754_finite false m e ∧ Z.log2 (Z.pos m) = 52 ∧ -952 ≤ e ≤ 848 ∧
    rounds (n * scale) (10 ^ Z.of_nat k) (S754_finite false m e).
Proof.
  intros Hn Hk. destruct n as [|p|p]; [lia| |lia].
  assert (H10 : 0 < 10 ^ Z.of_nat k < 2 ^ 200).
  { split; [apply Z.pow_pos_nonneg; lia|]. eapply Z.le_lt_trans; [apply (Z.pow_le_mono_r 10 _ 60); lia|done]. }
  assert (∃ m e, nearest (Dec (Z.pos p) (- Z.of_nat k)) = S754_finite false m e ∧ Z.log2 (Z.pos m) = 52 ∧ -1074 ≤ e ∧
    rounds (Z.pos p * scale) (10 ^ Z.of_nat k) (S754_finite false m e)) as (m & e & ? & ? & ? & ?).
  { unfold nearest. case_bool_decide as H0.
    - assert (k = 0%nat) as -> by lia. change (- Z.of_nat 0) with 0. rewrite Z.pow_0_r, Z.mul_1_r.
      destruct (double_of_pos_rounds p) as (m & e & -> & Hl & He & Hr); [lia|]. pose proof (Z.log2_nonneg (Z.pos p)).
      exists m, e. split_and!; [done|done|lia|exact Hr].
    - rewrite Z.opp_involutive. destruct (10 ^ Z.of_nat k) as [|t|t] eqn:Ht; [lia| |lia]. cbn [Z.to_pos].
      assert (0 ≤ Z.log2 (Z.pos p) < 200) by (split; [apply Z.log2_nonneg|apply Z.log2_lt_pow2; lia]).
      assert (0 ≤ Z.log2 (Z.pos t) < 200) by (split; [apply Z.log2_nonneg|apply Z.log2_lt_pow2; lia]).
      destruct (div_rounds false p 0 false t 0) as (m & e & -> & Hl & He & Hr); [lia..|].
      exists m, e. split; [done|]. split; [done|]. split; [apply He|]. cbn [fixed] in Hr. change (2 ^ (0 + 1074)) with scale in Hr.
      exact (rounds_cancel _ _ scale _ scale_pos Hr). }
  exists m, e. split_and!; try done; eapply (rounds_exponent (Z.pos p) (10 ^ Z.of_nat k) false m e); (done || lia).
Qed.

(** What [stod] makes of a decimal fraction: the nearest double, with its
    sign. *)
Lemma stod_fraction b int frac :
  forallb is_digit int = true → forallb is_digit frac = true →
  0 < read_digits 0 (int ++ frac) < 2 ^ 200 → (length frac ≤ 60)%nat →
  ∃ m e, Z.log2 (Z.pos m) = 52 ∧ -952 ≤ e ≤ 848 ∧
    rounds (read_digits 0 (int ++ frac) * scale) (10 ^ Z.of_nat (length frac)) (S754_finite false m e) ∧
    ∀ minus : bool, stod b ((if minus then ["-"%char] else []) ++ int ++ "."%char :: frac) = inr (S754_finite minus m e).
Proof.
  intros Hi Hf Hn Hk. assert (Hne : int ++ frac ≠ []) by (intros H0; rewrite H0 in Hn; cbn in Hn; lia).
  destruct (nearest_fraction _ _ Hn Hk) as (m & e & Hnear & Hm & He & Hr). exists m, e. split_and!; try done; [lia..|]. intros minus.
  assert (Hsign : read_sign (skip_spaces ((if minus then ["-"%char] else []) ++ int ++ "."%char :: frac)) =
    (minus, int ++ "."%char :: frac)).
  { destruct minus; [done|]. cbn [app]. destruct int as [|c int]; [done|].
    cbn [forallb] in Hi. apply andb_true_iff in Hi as [Hc _]. destruct (digit_not_space c Hc) as (H1 & H2 & H3).
    cbn [app skip_spaces]. rewrite H1. cbn [read_sign]. by rewrite !bool_decide_false by done. }
  unfold stod. rewrite Hsign, scan_fraction by done. rewrite Hnear. cbn [overflows underflows].
  pose proof (Z.log2_spec (Z.pos m) ltac:(lia)) as [Hs _]. rewrite Hm in Hs.
  rewrite bool_decide_false by lia. cbn [andb orb]. rewrite andb_false_r. by destruct minus.
Qed.
