(* ===== verification/Queue.v ===== *)
(** * Bounded FIFO queues: the specification and the interface

    What a single-producer single-consumer queue promises, as a list of
    items in delivery order, and the class through which the feed handler
    uses a queue without knowing how it is laid out in memory. *)

From S2P Require Import Prelude.

(** ** The abstract queue *)

Section Spec.
Context {T : Type} (cap : Z).

Definition q_full (q : list T) : bool := bool_decide (cap ≤ Z.of_nat (length q)).

Definition q_push (x : T) (q : list T) : bool * list T :=
  if q_full q then (false, q) else (true, q ++ [x]).

Definition q_pop (q : list T) : option T * list T := (head q, tail q).

End Spec.

(** ** The interface *)

(** A queue implementation [Q]: its two operations, the bound it keeps, the
    well-formedness of its states and the list it stands for, with the laws
    that tie the operations to the abstract queue.  No law allows undefined
    behaviour on a well-formed state. *)
Class BoundedQueue (Q T : Type) := {
  bq_push : T → Q → outcome (bool * Q);
  bq_pop : Q → outcome (option T * Q);
  bq_cap : Z;
  bq_wf : Q → Prop;
  bq_items : Q → list T;
  bq_push_spec x q : bq_wf q →
    ∃ q', bq_push x q = Ret (negb (q_full bq_cap (bq_items q)), q')
          ∧ bq_wf q' ∧ bq_items q' = (q_push bq_cap x (bq_items q)).2;
  bq_pop_spec q : bq_wf q →
    ∃ q', bq_pop q = Ret (head (bq_items q), q')
          ∧ bq_wf q' ∧ bq_items q' = tail (bq_items q);
  bq_bound q : bq_wf q → Z.of_nat (length (bq_items q)) ≤ bq_cap;
}.
