(* ===== verification/RingBuffer.v ===== *)
(** * SpscRingBuffer used by one thread at a time

    Model of [include/ultrafast/spsc_ring_buffer.hpp] with each operation
    run to completion: the indices, the mask arithmetic at the width of
    [std::size_t], the slots, and the refinement of the bounded FIFO queue.
    The interleaving of the two threads is in SpscConcurrent. *)

From S2P Require Import Prelude Queue.

(** ** Data and operations *)

Record SpscRingBuffer (T : Type) : Type := mkRing {
  tail_ : Z;
  head_ : Z;
  buf_ : list T;
}.
Arguments mkRing {T} _ _ _.
Arguments tail_ {T} _.
Arguments head_ {T} _.
Arguments buf_ {T} _.

(** The [static_assert] on the capacity, a [std::size_t]. *)
Definition capacity_ok (N : Z) : bool :=
  bool_decide (N < 2 ^ 64) && bool_decide (2 ≤ N) && bool_decide (Z.land N (u64 (N - 1)) = 0).

Section Ring.
Context {T : Type} (N : Z).

Definition kMask : Z := u64 (N - 1).

(** Member initialisers: both indices zero, every slot value-initialised. *)
Definition ring_init (zero : T) : SpscRingBuffer T :=
  mkRing 0 0 (replicate (Z.to_nat N) zero).

Definition push (item : T) (r : SpscRingBuffer T) : outcome (bool * SpscRingBuffer T) :=
  let t := tail_ r in
  let next_t := Z.land (u64 (t + 1)) kMask in
  if bool_decide (next_t = head_ r) then Ret (false, r)
  else
    buf' ← array_set (buf_ r) t item;
    Ret (true, mkRing next_t (head_ r) buf').

(** The rvalue overload; [T] is trivially copyable, so the move assignment
    of the slot copies the object. *)
Definition push_move (item : T) (r : SpscRingBuffer T) : outcome (bool * SpscRingBuffer T) :=
  let t := tail_ r in
  let next_t := Z.land (u64 (t + 1)) kMask in
  if bool_decide (next_t = head_ r) then Ret (false, r)
  else
    buf' ← array_set (buf_ r) t item;
    Ret (true, mkRing next_t (head_ r) buf').

Definition pop (r : SpscRingBuffer T) : outcome (option T * SpscRingBuffer T) :=
  let h := head_ r in
  if bool_decide (h = tail_ r) then Ret (None, r)
  else
    item ← array_get (buf_ r) h;
    Ret (Some item, mkRing (tail_ r) (Z.land (u64 (h + 1)) kMask) (buf_ r)).

(** [peek] returns the address of a slot (or [nullptr]); [slot_value] is
    what a read through that address finds. *)
Definition peek (r : SpscRingBuffer T) : option Z :=
  let h := head_ r in
  if bool_decide (h = tail_ r) then None else Some h.

Definition slot_value (r : SpscRingBuffer T) (p : Z) : outcome T := array_get (buf_ r) p.

Definition empty (r : SpscRingBuffer T) : bool := bool_decide (head_ r = tail_ r).

Definition full (r : SpscRingBuffer T) : bool :=
  let t := tail_ r in
  let h := head_ r in
  bool_decide (Z.land (u64 (t + 1)) kMask = h).

Definition size (r : SpscRingBuffer T) : Z :=
  let t := tail_ r in
  let h := head_ r in
  Z.land (u64 (u64 (t - h) + N)) kMask.

Definition capacity : Z := N.

(** ** The list a ring stands for *)

Definition items (r : SpscRingBuffer T) : list T :=
  take (Z.to_nat (size r))
    (drop (Z.to_nat (head_ r)) (buf_ r) ++ take (Z.to_nat (head_ r)) (buf_ r)).

(** The invariant of the data structure, and that the ring holds exactly
    the items [q], in this order from [head_]. *)
Record ring_repr (r : SpscRingBuffer T) (q : list T) : Prop := {
  repr_buf : Z.of_nat (length (buf_ r)) = N;
  repr_head : 0 ≤ head_ r < N;
  repr_tail : tail_ r = (head_ r + Z.of_nat (length q)) `mod` N;
  repr_len : Z.of_nat (length q) ≤ N - 1;
  repr_slot i x : q !! i = Some x →
    buf_ r !! Z.to_nat ((head_ r + Z.of_nat i) `mod` N) = Some x;
}.

Definition ring_wf (r : SpscRingBuffer T) : Prop := ring_repr r (items r).

(** ** Operation sequences *)

(** One call of the public interface, and what it answers. *)
Inductive op : Type :=
| OpPush (x : T) | OpPushMove (x : T) | OpPop | OpPeek | OpEmpty | OpFull | OpSize.

Inductive reply : Type :=
| RBool (b : bool) | RItem (o : option T) | RSize (n : Z).

Definition ring_op (o : op) (r : SpscRingBuffer T) : outcome (reply * SpscRingBuffer T) :=
  match o with
  | OpPush x => '(b, r') ← push x r; Ret (RBool b, r')
  | OpPushMove x => '(b, r') ← push_move x r; Ret (RBool b, r')
  | OpPop => '(o, r') ← pop r; Ret (RItem o, r')
  | OpPeek =>
      match peek r with
      | None => Ret (RItem None, r)
      | Some p => x ← slot_value r p; Ret (RItem (Some x), r)
      end
  | OpEmpty => Ret (RBool (empty r), r)
  | OpFull => Ret (RBool (full r), r)
  | OpSize => Ret (RSize (size r), r)
  end.

Definition queue_op (o : op) (q : list T) : reply * list T :=
  match o with
  | OpPush x | OpPushMove x => let '(b, q') := q_push (N - 1) x q in (RBool b, q')
  | OpPop => let '(o, q') := q_pop q in (RItem o, q')
  | OpPeek => (RItem (head q), q)
  | OpEmpty => (RBool (bool_decide (q = [])), q)
  | OpFull => (RBool (q_full (N - 1) q), q)
  | OpSize => (RSize (Z.of_nat (length q)), q)
  end.

Fixpoint ring_ops (os : list op) (r : SpscRingBuffer T) : outcome (list reply * SpscRingBuffer T) :=
  match os with
  | [] => Ret ([], r)
  | o :: os =>
      '(a, r') ← ring_op o r;
      '(l, r'') ← ring_ops os r';
      Ret (a :: l, r'')
  end.

Fixpoint queue_ops (os : list op) (q : list T) : list reply * list T :=
  match os with
  | [] => ([], q)
  | o :: os =>
      let '(a, q') := queue_op o q in
      let '(l, q'') := queue_ops os q' in (a :: l, q'')
  end.

End Ring.
Arguments op : clear implicits.
Arguments reply : clear implicits.

(** ** Mask arithmetic *)

Section Facts.
Context {T : Type} (N : Z) (HN : capacity_ok N = true).
Implicit Types (r : SpscRingBuffer T) (q : list T).

Lemma cap_bounds : 2 ≤ N < 2 ^ 64.
Proof using HN.
  unfold capacity_ok in HN. rewrite !andb_true_iff, !bool_decide_eq_true in HN. lia.
Qed.

Lemma kMask_eq : kMask N = N - 1.
Proof using HN. pose proof cap_bounds. apply u64_small. lia. Qed.

Lemma cap_pow2 : ∃ k, 1 ≤ k < 64 ∧ N = 2 ^ k.
Proof using HN.
  pose proof cap_bounds as Hb. exists (Z.log2 N). split.
  - split; [by apply (Z.log2_le_mono 2); lia|]. apply Z.log2_lt_pow2; lia.
  - apply land_pred_pow2; [lia|]. unfold capacity_ok in HN.
    rewrite !andb_true_iff, !bool_decide_eq_true in HN.
    rewrite u64_small in HN by lia. tauto.
Qed.

(** The masked 64-bit value is the remainder modulo the capacity: the wrap
    at 64 bits is invisible because the capacity divides [2 ^ 64]. *)
Lemma mask_mod x : Z.land (u64 x) (kMask N) = x `mod` N.
Proof using HN.
  rewrite kMask_eq. destruct cap_pow2 as (k & Hk & ->).
  rewrite land_mask by lia. unfold u64, wrap.
  replace (2 ^ 64) with (2 ^ k * 2 ^ (64 - k)) by (rewrite <- Z.pow_add_r by lia; f_equal; lia).
  rewrite Z.rem_mul_r by lia.
  rewrite (Z.mul_comm (2 ^ k)), Z_mod_plus_full. apply Zmod_mod.
Qed.

Lemma size_mod r : size N r = (tail_ r - head_ r) `mod` N.
Proof using HN.
  unfold size. rewrite mask_mod. rewrite Z.add_mod, Z_mod_same_full, Z.add_0_r by (pose proof cap_bounds; lia).
  rewrite Zmod_mod. rewrite <- mask_mod, <- (mask_mod (tail_ r - head_ r)).
  f_equal. unfold u64, wrap. apply Zmod_mod.
Qed.

(** The producer's next index meets [head_] exactly when the ring holds
    [N - 1] items. *)
Lemma next_meets_head h n :
  0 ≤ h < N → 0 ≤ n ≤ N - 1 → (h + n + 1) `mod` N = h ↔ N - 1 ≤ n.
Proof using HN.
  intros. pose proof cap_bounds. split.
  - intros Heq. destruct (decide (N - 1 ≤ n)) as [|Hlt]; [done|exfalso].
    apply (mod_slot_inj N h (h + n + 1)); [lia..|]. by rewrite Heq, Z.mod_small.
  - intros. replace (h + n + 1) with (h + 1 * N) by lia.
    by rewrite Z_mod_plus_full, Z.mod_small.
Qed.

Lemma head_meets_tail h n :
  0 ≤ h < N → 0 ≤ n ≤ N - 1 → h = (h + n) `mod` N ↔ n = 0.
Proof using HN.
  intros. pose proof cap_bounds. split.
  - intros Heq. destruct (decide (n = 0)) as [|Hne]; [done|exfalso].
    apply (mod_slot_inj N h (h + n)); [lia..|]. by rewrite <- Heq, Z.mod_small.
  - intros ->. by rewrite Z.add_0_r, Z.mod_small.
Qed.

Lemma next_index r q :
  ring_repr N r q → Z.land (u64 (tail_ r + 1)) (kMask N) = (head_ r + Z.of_nat (length q) + 1) `mod` N.
Proof using HN.
  intros Hr. rewrite mask_mod, (repr_tail N r q Hr). by rewrite Zplus_mod_idemp_l.
Qed.

(** ** Refinement of each operation *)

Lemma repr_size r q : ring_repr N r q → size N r = Z.of_nat (length q).
Proof using HN.
  intros Hr. rewrite size_mod, (repr_tail N r q Hr), Zminus_mod_idemp_l.
  replace (_ + _ - _) with (Z.of_nat (length q)) by lia.
  apply Z.mod_small. pose proof (repr_len N r q Hr). lia.
Qed.

Lemma lookup_rotated (l : list T) (h i : nat) :
  (h < length l)%nat → (i < length l)%nat →
  (drop h l ++ take h l) !! i =
  l !! Z.to_nat ((Z.of_nat h + Z.of_nat i) `mod` Z.of_nat (length l)).
Proof.
  intros Hh Hi. destruct (decide (h + i < length l)%nat) as [Hlt|Hge].
  - rewrite lookup_app_l by (rewrite length_drop; lia).
    rewrite lookup_drop, Z.mod_small by lia. f_equal. lia.
  - rewrite lookup_app_r by (rewrite length_drop; lia).
    rewrite length_drop, lookup_take_lt by lia. f_equal.
    replace (Z.of_nat h + Z.of_nat i) with (Z.of_nat (h + i - length l) + 1 * Z.of_nat (length l)) by lia.
    rewrite Z_mod_plus_full, Z.mod_small; lia.
Qed.

Lemma repr_items r q : ring_repr N r q → items N r = q.
Proof using HN.
  intros Hr. unfold items. rewrite (repr_size r q Hr), Nat2Z.id.
  destruct Hr as [Hbuf Hh Ht Hl Hs]. apply list_eq. intros i.
  destruct (decide (i < length q)%nat) as [Hlt|Hge].
  - destruct (lookup_lt_is_Some_2 q i Hlt) as [x Hx]. rewrite Hx, lookup_take_lt by lia.
    rewrite lookup_rotated, Z2Nat.id, Hbuf by lia. by apply Hs.
  - rewrite (lookup_ge_None_2 q i) by lia. by rewrite lookup_take_ge by lia.
Qed.

Lemma repr_init (zero : T) : ring_repr N (ring_init N zero) [].
Proof using HN.
  pose proof cap_bounds. split; cbn; [rewrite length_replicate; lia|lia| |lia|done].
  by rewrite Z.mod_small by lia.
Qed.

Lemma repr_push x r q :
  ring_repr N r q →
  ∃ r', push N x r = Ret (negb (q_full (N - 1) q), r')
        ∧ ring_repr N r' (q_push (N - 1) x q).2.
Proof using HN.
  intros Hr. pose proof cap_bounds. unfold push, q_push, q_full.
  rewrite (next_index r q Hr). pose proof Hr as [Hbuf Hh Ht Hl Hs].
  destruct (decide (N - 1 ≤ Z.of_nat (length q))) as [Hf|Hnf].
  - do 2 (rewrite bool_decide_true by (try apply next_meets_head; lia)). by exists r.
  - rewrite !bool_decide_false by (rewrite ?next_meets_head by lia; lia). cbn.
    assert (Hslot : 0 ≤ tail_ r < N) by (rewrite Ht; apply Z.mod_pos_bound; lia).
    rewrite array_set_in by lia. cbn. eexists; split; [done|]. split; cbn.
    + by rewrite length_insert.
    + done.
    + rewrite length_app. cbn. f_equal. lia.
    + rewrite length_app. cbn. lia.
    + intros i y Hi. apply lookup_app_Some in Hi as [Hi|[Hge Hi]].
      * rewrite list_lookup_insert_ne; [by apply Hs|]. rewrite Ht.
        apply lookup_lt_Some in Hi. intros Heq. apply Z2Nat.inj in Heq; [|apply Z.mod_pos_bound; lia..].
        revert Heq. apply not_eq_sym, mod_slot_inj; lia.
      * apply list_lookup_singleton_Some in Hi as [Hi ->].
        replace (head_ r + Z.of_nat i) with (head_ r + Z.of_nat (length q)) by lia.
        rewrite <- Ht. apply list_lookup_insert_eq. lia.
Qed.

Lemma repr_pop r q :
  ring_repr N r q →
  ∃ r', pop N r = Ret (head q, r') ∧ ring_repr N r' (tail q).
Proof using HN.
  intros Hr. pose proof cap_bounds. unfold pop. pose proof Hr as [Hbuf Hh Ht Hl Hs].
  destruct q as [|x q].
  - rewrite bool_decide_true by (rewrite Ht; apply head_meets_tail; cbn; lia). by exists r.
  - cbn [length] in *. rewrite bool_decide_false by (rewrite Ht, head_meets_tail by lia; lia).
    pose proof (Hs 0%nat x eq_refl) as Hx. rewrite Z.add_0_r, Z.mod_small in Hx by lia.
    rewrite (array_get_lookup _ _ x) by (done || lia). cbn. eexists; split; [done|].
    rewrite mask_mod. split; cbn; [done|apply Z.mod_pos_bound; lia| |lia|].
    + rewrite Ht, Zplus_mod_idemp_l. f_equal. lia.
    + intros i y Hi. rewrite Zplus_mod_idemp_l. rewrite <- (Hs (S i) y Hi).
      do 3 f_equal. lia.
Qed.

Lemma repr_peek r q :
  ring_repr N r q →
  match peek r with
  | None => q = []
  | Some p => ∃ x, head q = Some x ∧ slot_value r p = Ret x
  end.
Proof using HN.
  intros Hr. unfold peek. pose proof Hr as [Hbuf Hh Ht Hl Hs]. rewrite Ht. destruct q as [|x q].
  - rewrite bool_decide_true; [done|]. apply head_meets_tail; cbn; lia.
  - cbn [length] in *. rewrite bool_decide_false by (rewrite head_meets_tail by lia; lia).
    exists x. split; [done|]. apply array_get_lookup; [lia|].
    rewrite <- (Hs 0%nat x eq_refl). f_equal. rewrite Z.add_0_r, Z.mod_small; lia.
Qed.

Lemma repr_empty r q : ring_repr N r q → empty r = bool_decide (q = []).
Proof using HN.
  intros [Hbuf Hh Ht Hl Hs]. unfold empty. apply bool_decide_ext. rewrite Ht.
  rewrite head_meets_tail by lia. destruct q; cbn; split; intros; done || lia.
Qed.

Lemma repr_full r q : ring_repr N r q → full N r = q_full (N - 1) q.
Proof using HN.
  intros Hr. unfold full, q_full. rewrite (next_index r q Hr). destruct Hr as [Hbuf Hh Ht Hl Hs].
  apply bool_decide_ext, next_meets_head; lia.
Qed.

Lemma repr_op o r q :
  ring_repr N r q →
  ∃ r', ring_op N o r = Ret ((queue_op N o q).1, r') ∧ ring_repr N r' (queue_op N o q).2.
Proof using HN.
  intros Hr. destruct o as [x|x| | | | |]; cbn.
  - destruct (repr_push x r q Hr) as (r' & -> & Hr'). exists r'. cbn. revert Hr'.
    unfold q_push. by destruct (q_full _ q).
  - destruct (repr_push x r q Hr) as (r' & Hp & Hr'). exists r'.
    change (push_move N x r) with (push N x r). rewrite Hp. cbn. revert Hr'.
    unfold q_push. by destruct (q_full _ q).
  - destruct (repr_pop r q Hr) as (r' & -> & Hr'). by exists r'.
  - exists r. pose proof (repr_peek r q Hr) as Hp. destruct (peek r) as [p|].
    + destruct Hp as (x & -> & ->). done.
    + by subst q.
  - exists r. by rewrite (repr_empty r q Hr).
  - exists r. by rewrite (repr_full r q Hr).
  - exists r. by rewrite (repr_size r q Hr).
Qed.

Lemma repr_ops os : ∀ r q,
  ring_repr N r q →
  ∃ r', ring_ops N os r = Ret ((queue_ops N os q).1, r') ∧ ring_repr N r' (queue_ops N os q).2.
Proof using HN.
  induction os as [|o os IH]; intros r q Hr; cbn; [by exists r|].
  destruct (repr_op o r q Hr) as (r1 & -> & Hr1). destruct (queue_op N o q) as [a q1]. cbn in *.
  destruct (IH r1 q1 Hr1) as (r2 & -> & Hr2). destruct (queue_ops N os q1) as [l q2]. cbn in *.
  by exists r2.
Qed.
End Facts.

(** ** The queue interface *)

(** The [static_assert] as a class, so that instances carry it. *)
Class CapacityOk (N : Z) : Prop := capacity_is_ok : capacity_ok N = true.

#[export] Program Instance ring_queue (T : Type) (N : Z) `{!CapacityOk N} :
  BoundedQueue (SpscRingBuffer T) T := {|
  bq_push := push N;
  bq_pop := pop N;
  bq_cap := N - 1;
  bq_wf := ring_wf N;
  bq_items := items N;
|}.
Next Obligation.
  intros T N HN x r Hr. destruct (repr_push N HN x r _ Hr) as (r' & Hp & Hr').
  exists r'. pose proof (repr_items N HN r' _ Hr') as Hi.
  split_and!; [done| |done]. unfold ring_wf. by rewrite Hi.
Qed.
Next Obligation.
  intros T N HN r Hr. destruct (repr_pop N HN r _ Hr) as (r' & Hp & Hr').
  exists r'. pose proof (repr_items N HN r' _ Hr') as Hi.
  split_and!; [done| |done]. unfold ring_wf. by rewrite Hi.
Qed.
Next Obligation. intros T N HN r Hr. apply (repr_len N r _ Hr). Qed.

Lemma ring_init_wf {T} N (HN : capacity_ok N = true) (zero : T) : ring_wf N (ring_init N zero).
Proof.
  pose proof (repr_init N HN zero) as H. unfold ring_wf.
  by rewrite (repr_items N HN _ _ H).
Qed.

Lemma ring_init_items {T} N (HN : capacity_ok N = true) (zero : T) : items N (ring_init N zero) = [].
Proof. apply repr_items; [done|]. by apply repr_init. Qed.

(** Pushing does not disturb the slot at the head. *)
Lemma push_keeps_head {T} N (HN : capacity_ok N = true) (r r' : SpscRingBuffer T) q x b p v :
  ring_repr N r q → peek r = Some p → slot_value r p = Ret v → push N x r = Ret (b, r') →
  peek r' = Some p ∧ slot_value r' p = Ret v ∧ ring_repr N r' (q_push (N - 1) x q).2.
Proof.
  intros Hr Hp Hv Hpush. destruct (repr_push N HN x r q Hr) as (r1 & Heq & Hr1).
  rewrite Hpush in Heq. injection Heq as _ <-. pose proof (repr_peek N HN r q Hr) as Hq.
  rewrite Hp in Hq. destruct Hq as (y & Hhd & Hy).
  assert (head_ r' = head_ r) as Hh.
  { unfold push in Hpush. case_bool_decide; [by injection Hpush as <- <-|].
    destruct (array_set _ _ _); [|done]. cbn in Hpush. by injection Hpush as <- <-. }
  pose proof (repr_peek N HN r' _ Hr1) as Hq1.
  assert (Hhd1 : head (q_push (N - 1) x q).2 = Some y).
  { unfold q_push. destruct (q_full _ q); [done|]. by destruct q. }
  assert (Hp1 : peek r' = Some p).
  { revert Hq1 Hp. unfold peek. rewrite Hh. do 2 case_bool_decide; try done.
    intros Hnil. by rewrite Hnil in Hhd1. }
  rewrite Hp1 in Hq1. destruct Hq1 as (z & Hz & Hslot). split_and!; [done| |done].
  rewrite Hslot. congruence.
Qed.

(** ** Properties *)

(** C3: run by one thread at a time, any sequence of calls on a freshly
    constructed ring of [N] slots ([N] accepted by the [static_assert])
    never leaves the bounds of the slot array and answers every call --
    [push], the rvalue [push], [pop], [peek] with its read, [empty], [full]
    and [size] -- exactly as a FIFO queue bounded by [N - 1] items does; at
    the end the ring holds the queue's items. *)
Theorem ring_refines_queue {T} (N : Z) (zero : T) (os : list (op T)) :
  capacity_ok N = true →
  ∃ r', ring_ops N os (ring_init N zero) = Ret ((queue_ops N os []).1, r')
        ∧ items N r' = (queue_ops N os []).2
        ∧ Z.of_nat (length (items N r')) ≤ N - 1.
Proof.
  intros HN. destruct (repr_ops N HN os _ _ (repr_init N HN zero)) as (r' & Hrun & Hr').
  exists r'. rewrite (repr_items N HN r' _ Hr'). split_and!; [done|done|].
  apply (repr_len N r' _ Hr').
Qed.

(** The [WrapAround] scenario on four slots. *)
Definition wrap_around : list (op Z) :=
  [OpPush 1; OpPush 2; OpPush 3; OpFull; OpPush 9; OpPop; OpPop; OpPush 4; OpPushMove 5;
   OpFull; OpPeek; OpPop; OpPop; OpSize; OpPop; OpEmpty; OpPop].

Lemma ring_refines_queue_witness :
  capacity_ok 4 = true ∧
  (queue_ops 4 wrap_around []).1 =
    [RBool true; RBool true; RBool true; RBool true; RBool false; RItem (Some 1);
     RItem (Some 2); RBool true; RBool true; RBool true; RItem (Some 3); RItem (Some 3);
     RItem (Some 4); RSize 1; RItem (Some 5); RBool true; RItem None] ∧
  ∃ r', ring_ops 4 wrap_around (ring_init 4 0) = Ret ((queue_ops 4 wrap_around []).1, r')
        ∧ items 4 r' = (queue_ops 4 wrap_around []).2
        ∧ Z.of_nat (length (items 4 r')) ≤ 4 - 1.
Proof.
  split; [reflexivity|]. split; [reflexivity|].
  apply (ring_refines_queue 4 0 wrap_around). reflexivity.
Defined.

(** The [static_assert] on the capacity accepts exactly the powers of
    two from 2 that fit a [std::size_t]; for those, masking a wrapped
    64-bit sum is the remainder modulo the capacity. *)
Theorem static_assert_power_of_two (N : Z) :
  capacity_ok N = true ↔ ∃ k, 1 ≤ k < 64 ∧ N = 2 ^ k.
Proof.
  split; [apply cap_pow2|]. intros (k & Hk & ->). unfold capacity_ok.
  assert (2 ^ 1 ≤ 2 ^ k) by (apply Z.pow_le_mono_r; lia).
  assert (2 ^ k < 2 ^ 64) by (apply Z.pow_lt_mono_r; lia).
  rewrite u64_small by lia. rewrite land_mask, Z_mod_same_full by lia.
  by rewrite !bool_decide_true by lia.
Qed.

(** The pointer [peek] returns stays good while the producer works:
    after any further [push] (accepted or refused) it is still what [peek]
    returns and still reads the same item, until the consumer pops. *)
Theorem peek_pointer_stable {T} (N : Z) (r : SpscRingBuffer T) (xs : list T) (p : Z) (v : T) :
  capacity_ok N = true → ring_wf N r → peek r = Some p → slot_value r p = Ret v →
  ∃ bs r', ring_ops N (OpPush <$> xs) r = Ret (bs, r') ∧ peek r' = Some p ∧ slot_value r' p = Ret v.
Proof.
  intros HN Hr. unfold ring_wf in Hr. revert Hr. generalize (items N r). revert r.
  induction xs as [|x xs IH]; intros r q Hr Hp Hv; [by exists [], r|]. cbn.
  destruct (repr_push N HN x r q Hr) as (r1 & Hpush & _).
  destruct (push_keeps_head N HN r r1 q x _ p v Hr Hp Hv Hpush) as (Hp1 & Hv1 & Hr1).
  rewrite Hpush. cbn. destruct (IH r1 _ Hr1 Hp1 Hv1) as (bs & r' & -> & Hp' & Hv').
  by exists (RBool (negb (q_full (N - 1) q)) :: bs), r'.
Qed.

(** A ring of four slots that has wrapped: 3 at the head in slot 2. *)
Definition wrapped_ring : SpscRingBuffer Z := mkRing 0 2 [1; 2; 3; 4].

Lemma wrapped_ring_wf : ring_wf 4 wrapped_ring.
Proof.
  unfold ring_wf. replace (items 4 wrapped_ring) with [3; 4] by reflexivity.
  split; cbn; [done|done|done|done|]. 
  intros [|[|i]] x Hx; [by injection Hx as <-..|done].
Qed.

Lemma peek_pointer_stable_witness :
  ∃ bs r', ring_ops 4 (OpPush <$> [7; 8; 9]) wrapped_ring = Ret (bs, r')
           ∧ peek r' = Some 2 ∧ slot_value r' 2 = Ret 3.
Proof.
  apply (peek_pointer_stable 4 wrapped_ring [7; 8; 9] 2 3).
  - reflexivity.
  - apply wrapped_ring_wf.
  - reflexivity.
  - reflexivity.
Defined.
