(* ===== verification/SpscConcurrent.v ===== *)
(** * SpscRingBuffer under concurrency

    The two threads of [include/ultrafast/spsc_ring_buffer.hpp], one atomic
    access or slot access per step, over the release/acquire fragment of the
    C++ memory model.

    - An atomic index keeps the history of its stores (its modification
      order); each store is a message that carries a view.  A load may
      return any message that coherence still allows the thread to read, so
      both threads run on stale indices; an acquire load joins the view of a
      release store into the reader's view.
    - A slot of [buf_] is an ordinary object: it remembers when the producer
      last wrote it and when the consumer last read it, and an access that
      does not happen after the conflicting access of the other thread is a
      data race, which is undefined behaviour.
    - The orders written in the source ([relaxed], [acquire], [release]) are
      arguments of the loads and stores below. *)

From S2P Require Import Prelude RingBuffer.

(** ** Views, messages and memory *)

Inductive memory_order : Type := relaxed | acquire | release.

Inductive index : Type := Tail | Head.

(** [v_tail] and [v_head] are the oldest messages of the two indices the
    thread may still read; [v_prod] and [v_cons] count the slot accesses of
    the producer and of the consumer that happen before. *)
Record view : Type := mkView {
  v_tail : nat;
  v_head : nat;
  v_prod : nat;
  v_cons : nat;
}.

Definition view_bot : view := mkView 0 0 0 0.

Definition view_join (v w : view) : view :=
  mkView (v_tail v `max` v_tail w) (v_head v `max` v_head w)
         (v_prod v `max` v_prod w) (v_cons v `max` v_cons w).

Definition view_get (l : index) (v : view) : nat :=
  match l with Tail => v_tail v | Head => v_head v end.

Definition view_set (l : index) (i : nat) (v : view) : view :=
  match l with
  | Tail => mkView i (v_head v) (v_prod v) (v_cons v)
  | Head => mkView (v_tail v) i (v_prod v) (v_cons v)
  end.

Abbreviation message := (Z * view)%type.

(** [atomic<size_t>::load]: message [i] of the history, if coherence lets
    the thread read it. *)
Definition atomic_load (o : memory_order) (l : index) (i : nat)
    (v : view) (hist : list message) : option (Z * view) :=
  if bool_decide (view_get l v ≤ i)%nat then
    match hist !! i with
    | None => None
    | Some (x, mv) =>
        let v' := view_set l i v in
        Some (x, match o with acquire => view_join v' mv | _ => v' end)
    end
  else None.

(** [atomic<size_t>::store]: a new message at the end of the history; a
    release store publishes the thread's view with it. *)
Definition atomic_store (o : memory_order) (l : index) (x : Z)
    (v : view) (hist : list message) : list message * view :=
  let v' := view_set l (length hist) v in
  let mv := match o with release => v' | _ => view_set l (length hist) view_bot end in
  (hist ++ [(x, mv)], v').

Section Machine.
Context {T : Type} (N : Z).

Record slot : Type := mkSlot {
  s_val : T;
  s_wr : nat;   (* the producer's clock at the last write *)
  s_rd : nat;   (* the consumer's clock at the last read *)
}.

Record memory : Type := mkMem {
  m_tail : list message;
  m_head : list message;
  m_slots : list slot;
}.

(** ** The threads *)

(** Where the producer stands in [push]; the argument of the last
    constructors is what it holds in its locals. *)
Inductive ppc : Type :=
| PIdle
| PTail (item : T)
| PHead (item : T) (t : Z)
| PWrite (item : T) (t next_t : Z)
| PStore (item : T) (next_t : Z).

(** Where the consumer stands in [pop] or in [peek] followed by a read
    through the returned pointer. *)
Inductive ccall : Type := Pop | Peek.

Inductive cpc : Type :=
| CIdle
| CHead (k : ccall)
| CTail (k : ccall) (h : Z)
| CRead (k : ccall) (h : Z)
| CStore (item : T) (h : Z).

(** Completed calls with their results, oldest first. *)
Inductive creply : Type := GotPop (o : option T) | GotPeek (o : option T).

Record producer : Type := mkProd { p_view : view; p_pc : ppc; p_log : list (T * bool) }.
Record consumer : Type := mkCons { c_view : view; c_pc : cpc; c_log : list creply }.

Record conf : Type := mkConf {
  mem : memory;
  prod : producer;
  cons : consumer;
  ub : bool;   (* a race or an access outside [buf_] has happened *)
}.

Definition spsc_init (zero : T) : conf :=
  mkConf (mkMem [(0, view_bot)] [(0, view_bot)] (replicate (Z.to_nat N) (mkSlot zero 0 0)))
         (mkProd view_bot PIdle []) (mkCons view_bot CIdle []) false.

(** [buf_[t] = item]: races unless the consumer's last read of the slot
    happens before. *)
Definition slot_write (t : Z) (item : T) (v : view) (ss : list slot) : option (list slot * view) :=
  if bool_decide (0 ≤ t) then
    match ss !! Z.to_nat t with
    | None => None
    | Some s =>
        if bool_decide (s_rd s ≤ v_cons v)%nat then
          let v' := mkView (v_tail v) (v_head v) (S (v_prod v)) (v_cons v) in
          Some (<[Z.to_nat t := mkSlot item (v_prod v') (s_rd s)]> ss, v')
        else None
    end
  else None.

(** [T item = buf_[h]]: races unless the producer's last write of the slot
    happens before. *)
Definition slot_read (h : Z) (v : view) (ss : list slot) : option (T * list slot * view) :=
  if bool_decide (0 ≤ h) then
    match ss !! Z.to_nat h with
    | None => None
    | Some s =>
        if bool_decide (s_wr s ≤ v_prod v)%nat then
          let v' := mkView (v_tail v) (v_head v) (v_prod v) (S (v_cons v)) in
          Some (s_val s, <[Z.to_nat h := mkSlot (s_val s) (s_wr s) (v_cons v')]> ss, v')
        else None
    end
  else None.

(** One step of the producer inside [push]; [i] chooses the message a load
    returns.  The boolean is false when the step is undefined behaviour. *)
Definition push_step (i : nat) (m : memory) (p : producer) : option (memory * producer * bool) :=
  match p_pc p with
  | PIdle => None
  | PTail x =>
      '(t, v) ← atomic_load relaxed Tail i (p_view p) (m_tail m);
      Some (m, mkProd v (PHead x t) (p_log p), true)
  | PHead x t =>
      let next_t := Z.land (u64 (t + 1)) (kMask N) in
      '(h, v) ← atomic_load acquire Head i (p_view p) (m_head m);
      if bool_decide (next_t = h)
      then Some (m, mkProd v PIdle (p_log p ++ [(x, false)]), true)
      else Some (m, mkProd v (PWrite x t next_t) (p_log p), true)
  | PWrite x t next_t =>
      match slot_write t x (p_view p) (m_slots m) with
      | Some (ss, v) =>
          Some (mkMem (m_tail m) (m_head m) ss, mkProd v (PStore x next_t) (p_log p), true)
      | None => Some (m, p, false)
      end
  | PStore x next_t =>
      let '(hist, v) := atomic_store release Tail next_t (p_view p) (m_tail m) in
      Some (mkMem hist (m_head m) (m_slots m), mkProd v PIdle (p_log p ++ [(x, true)]), true)
  end.

(** One step of the consumer inside [pop] or [peek]. *)
Definition pop_step (i : nat) (m : memory) (c : consumer) : option (memory * consumer * bool) :=
  match c_pc c with
  | CIdle => None
  | CHead k =>
      '(h, v) ← atomic_load relaxed Head i (c_view c) (m_head m);
      Some (m, mkCons v (CTail k h) (c_log c), true)
  | CTail k h =>
      '(t, v) ← atomic_load acquire Tail i (c_view c) (m_tail m);
      if bool_decide (h = t)
      then Some (m, mkCons v CIdle
                     (c_log c ++ [match k with Pop => GotPop None | Peek => GotPeek None end]), true)
      else Some (m, mkCons v (CRead k h) (c_log c), true)
  | CRead k h =>
      match slot_read h (c_view c) (m_slots m) with
      | Some (x, ss, v) =>
          let m' := mkMem (m_tail m) (m_head m) ss in
          match k with
          | Pop => Some (m', mkCons v (CStore x h) (c_log c), true)
          | Peek => Some (m', mkCons v CIdle (c_log c ++ [GotPeek (Some x)]), true)
          end
      | None => Some (m, c, false)
      end
  | CStore x h =>
      let next_h := Z.land (u64 (h + 1)) (kMask N) in
      let '(hist, v) := atomic_store release Head next_h (c_view c) (m_head m) in
      Some (mkMem (m_tail m) hist (m_slots m), mkCons v CIdle (c_log c ++ [GotPop (Some x)]), true)
  end.

(** ** The system *)

Inductive label : Type :=
| ProducerCall (x : T)
| ProducerStep (i : nat)
| ConsumerCall (k : ccall)
| ConsumerStep (i : nat).

Definition spsc_step (l : label) (c : conf) : option conf :=
  match l with
  | ProducerCall x =>
      match p_pc (prod c) with
      | PIdle => Some (mkConf (mem c) (mkProd (p_view (prod c)) (PTail x) (p_log (prod c)))
                              (cons c) (ub c))
      | _ => None
      end
  | ProducerStep i =>
      '(m, p, ok) ← push_step i (mem c) (prod c);
      Some (mkConf m p (cons c) (ub c || negb ok))
  | ConsumerCall k =>
      match c_pc (cons c) with
      | CIdle => Some (mkConf (mem c) (prod c)
                              (mkCons (c_view (cons c)) (CHead k) (c_log (cons c))) (ub c))
      | _ => None
      end
  | ConsumerStep i =>
      '(m, k, ok) ← pop_step i (mem c) (cons c);
      Some (mkConf m (prod c) k (ub c || negb ok))
  end.

(** A run is any sequence of steps of the two threads. *)
Fixpoint spsc_run (ls : list label) (c : conf) : option conf :=
  match ls with
  | [] => Some c
  | l :: ls => c' ← spsc_step l c; spsc_run ls c'
  end.

Definition spsc_trans (c c' : conf) : Prop := ∃ l, spsc_step l c = Some c'.
Definition reachable (zero : T) (c : conf) : Prop := rtc spsc_trans (spsc_init zero) c.

(** Items accepted by [push] and items returned by [pop], in order. *)
Definition pushed (p : producer) : list T :=
  omap (λ e : T * bool, if e.2 then Some e.1 else None) (p_log p).

Definition popped_log (log : list creply) : list T :=
  omap (λ r, match r with GotPop o => o | GotPeek _ => None end) log.

Definition popped (c : consumer) : list T := popped_log (c_log c).

(** What the consumer's results must be, given the items accepted so far:
    with [n] items already consumed, a successful [pop] or [peek] delivers
    item number [n]. *)
Fixpoint clog_ok (q : list T) (n : nat) (log : list creply) : Prop :=
  match log with
  | [] => True
  | GotPop (Some x) :: log => q !! n = Some x ∧ clog_ok q (S n) log
  | GotPeek (Some x) :: log => q !! n = Some x ∧ clog_ok q n log
  | _ :: log => clog_ok q n log
  end.

End Machine.
Arguments label : clear implicits.
Arguments conf : clear implicits.

(** ** The invariant *)

Section Invariant.
Context {T : Type} (N : Z) (HN : capacity_ok N = true).
Implicit Types (m : @memory T) (pv cv v w : view) (q : list T).

(** The slot of item number [k], and how many items have been published
    and released. *)
Definition slot_of (k : nat) : nat := Z.to_nat (Z.of_nat k `mod` N).
Definition n_pub m : nat := pred (length (m_tail m)).
Definition n_rel m : nat := pred (length (m_head m)).

(** Memory against the views of the two threads and the accepted items
    [q].  The producer's view of [head_] lags behind the releases, the
    consumer's view of [tail_] behind the publications, and the two are at
    most [N - 1] apart ([i_order]).  A message of [tail_] covers the last
    write of every slot except those rewritten for later items ([i_wcov]),
    and dually for the reads and [head_] ([i_rcov]). *)
Record mem_inv m pv cv q : Prop := {
  i_slots : length (m_slots m) = Z.to_nat N;
  i_tlen : length (m_tail m) = S (n_pub m);
  i_hlen : length (m_head m) = S (n_rel m);
  i_tmsg j x v : m_tail m !! j = Some (x, v) →
    x = Z.of_nat j `mod` N ∧ v_tail v = j ∧ (v_head v ≤ n_rel m)%nat;
  i_hmsg j x v : m_head m !! j = Some (x, v) →
    x = Z.of_nat j `mod` N ∧ v_head v = j ∧ (v_tail v ≤ n_pub m)%nat;
  i_pown : v_tail pv = n_pub m;
  i_cown : v_head cv = n_rel m;
  i_order : (v_head pv ≤ n_rel m ≤ v_tail cv)%nat ∧ (v_tail cv ≤ n_pub m)%nat;
  i_room : Z.of_nat (n_pub m) ≤ Z.of_nat (v_head pv) + N - 1;
  i_psync x v : m_head m !! v_head pv = Some (x, v) → (v_cons v ≤ v_cons pv)%nat;
  i_csync x v : m_tail m !! v_tail cv = Some (x, v) → (v_prod v ≤ v_prod cv)%nat;
  i_own s sl : m_slots m !! s = Some sl → (s_wr sl ≤ v_prod pv ∧ s_rd sl ≤ v_cons cv)%nat;
  i_wcov s sl j x v : m_slots m !! s = Some sl → m_tail m !! j = Some (x, v) →
    (∀ k, (j ≤ k ≤ n_pub m)%nat → Z.of_nat k < Z.of_nat (v_head pv) + N - 1 → slot_of k ≠ s) →
    (s_wr sl ≤ v_prod v)%nat;
  i_rcov s sl j x v : m_slots m !! s = Some sl → m_head m !! j = Some (x, v) →
    (∀ k, (j ≤ k ≤ n_rel m)%nat → (k < v_tail cv)%nat → slot_of k ≠ s) →
    (s_rd sl ≤ v_cons v)%nat;
  i_val k : (n_rel m ≤ k < n_pub m)%nat →
    ∃ sl, m_slots m !! slot_of k = Some sl ∧ q !! k = Some (s_val sl);
  i_count : length q = n_pub m;
}.

(** What the producer knows at each point of [push]. *)
Definition ppc_ok m pv (pc : @ppc T) : Prop :=
  let t := Z.of_nat (n_pub m) `mod` N in
  let next_t := (Z.of_nat (n_pub m) + 1) `mod` N in
  let room := Z.of_nat (n_pub m) + 1 ≤ Z.of_nat (v_head pv) + N - 1 in
  match pc with
  | PIdle | PTail _ => True
  | PHead _ t' => t' = t
  | PWrite _ t' next_t' => t' = t ∧ next_t' = next_t ∧ room
  | PStore x next_t' => next_t' = next_t ∧ room ∧
      ∃ sl, m_slots m !! slot_of (n_pub m) = Some sl ∧ s_val sl = x
  end.

(** What the consumer knows at each point of [pop]. *)
Definition cpc_ok m cv q (pc : @cpc T) : Prop :=
  let h := Z.of_nat (n_rel m) `mod` N in
  match pc with
  | CIdle | CHead _ => True
  | CTail _ h' => h' = h
  | CRead _ h' => h' = h ∧ (n_rel m < v_tail cv)%nat
  | CStore x h' => h' = h ∧ (n_rel m < v_tail cv)%nat ∧ q !! n_rel m = Some x
  end.

Record conf_inv (c : conf T) : Prop := {
  ci_mem : mem_inv (mem c) (p_view (prod c)) (c_view (cons c)) (pushed (prod c));
  ci_ppc : ppc_ok (mem c) (p_view (prod c)) (p_pc (prod c));
  ci_cpc : cpc_ok (mem c) (c_view (cons c)) (pushed (prod c)) (c_pc (cons c));
  ci_log : clog_ok (pushed (prod c)) 0 (c_log (cons c));
  ci_rel : length (popped (cons c)) = n_rel (mem c);
  ci_ub : ub c = false;
}.

Lemma cap_pos : 2 ≤ N.
Proof using HN. pose proof (cap_bounds N HN). lia. Qed.

Lemma slot_of_lt k : (slot_of k < Z.to_nat N)%nat.
Proof using HN.
  pose proof cap_pos. unfold slot_of. pose proof (Z.mod_pos_bound (Z.of_nat k) N ltac:(lia)). lia.
Qed.

Lemma slot_of_ne i j : (i < j)%nat → Z.of_nat j < Z.of_nat i + N → slot_of i ≠ slot_of j.
Proof using HN.
  intros Hij Hn Heq. pose proof cap_pos. unfold slot_of in Heq.
  apply Z2Nat.inj in Heq; [|apply Z.mod_pos_bound; lia..].
  revert Heq. apply mod_slot_inj; lia.
Qed.

(** ** One lemma per kind of memory access *)

(** The producer learns more: its view of [head_] advances to a message it
    has acquired. *)
Lemma mem_inv_pview m pv cv q v :
  mem_inv m pv cv q →
  v_tail v = n_pub m → (v_head pv ≤ v_head v ≤ n_rel m)%nat →
  (v_prod pv ≤ v_prod v)%nat →
  (∀ x w, m_head m !! v_head v = Some (x, w) → (v_cons w ≤ v_cons v)%nat) →
  mem_inv m v cv q.
Proof.
  intros [] ? ? ? ?. split; try done; try lia.
  - intros s sl Hs. specialize (i_own0 s sl Hs). lia.
  - intros s sl j x w Hs Hj Hk. apply (i_wcov0 s sl j x w Hs Hj).
    intros k Hk1 Hk2. apply Hk; lia.
Qed.

Lemma mem_inv_cview m pv cv q v :
  mem_inv m pv cv q →
  v_head v = n_rel m → (v_tail cv ≤ v_tail v ≤ n_pub m)%nat →
  (v_cons cv ≤ v_cons v)%nat →
  (∀ x w, m_tail m !! v_tail v = Some (x, w) → (v_prod w ≤ v_prod v)%nat) →
  mem_inv m pv v q.
Proof.
  intros [] ? ? ? ?. split; try done; try lia.
  - intros s sl Hs. specialize (i_own0 s sl Hs). lia.
  - intros s sl j x w Hs Hj Hk. apply (i_rcov0 s sl j x w Hs Hj).
    intros k Hk1 Hk2. apply Hk; lia.
Qed.

(** The producer's slot does not race with any read of the consumer. *)
Lemma write_race_free m pv cv q :
  mem_inv m pv cv q → Z.of_nat (n_pub m) + 1 ≤ Z.of_nat (v_head pv) + N - 1 →
  ∃ sl, m_slots m !! slot_of (n_pub m) = Some sl ∧ (s_rd sl ≤ v_cons pv)%nat.
Proof using HN.
  intros Hi Hroom. pose proof (slot_of_lt (n_pub m)) as Hlt.
  rewrite <- (i_slots m pv cv q Hi) in Hlt. destruct (lookup_lt_is_Some_2 _ _ Hlt) as [sl Hsl].
  exists sl. split; [done|]. destruct (i_order m pv cv q Hi) as [Ho1 Ho2].
  assert (Hm : (v_head pv < length (m_head m))%nat) by (rewrite (i_hlen m pv cv q Hi); lia).
  destruct (lookup_lt_is_Some_2 _ _ Hm) as [[x w] Hw].
  etransitivity; [|exact (i_psync m pv cv q Hi x w Hw)].
  apply (i_rcov m pv cv q Hi _ sl _ x w Hsl Hw).
  intros k Hk1 Hk2. apply slot_of_ne; lia.
Qed.

(** The consumer's slot does not race with any write of the producer. *)
Lemma read_race_free m pv cv q :
  mem_inv m pv cv q → (n_rel m < v_tail cv)%nat →
  ∃ sl, m_slots m !! slot_of (n_rel m) = Some sl ∧ (s_wr sl ≤ v_prod cv)%nat
        ∧ q !! n_rel m = Some (s_val sl).
Proof using HN.
  intros Hi Hlt. destruct (i_order m pv cv q Hi) as [Ho1 Ho2].
  destruct (i_val m pv cv q Hi (n_rel m) ltac:(lia)) as (sl & Hsl & Hq).
  exists sl. split_and!; [done| |done].
  assert (Hm : (v_tail cv < length (m_tail m))%nat) by (rewrite (i_tlen m pv cv q Hi); lia).
  destruct (lookup_lt_is_Some_2 _ _ Hm) as [[x w] Hw].
  etransitivity; [|exact (i_csync m pv cv q Hi x w Hw)].
  apply (i_wcov m pv cv q Hi _ sl _ x w Hsl Hw).
  intros k Hk1 Hk2. apply not_eq_sym, slot_of_ne; lia.
Qed.

(** The producer writes the slot of the next item. *)
Lemma mem_inv_write m pv cv q item sl :
  let pv' := mkView (v_tail pv) (v_head pv) (S (v_prod pv)) (v_cons pv) in
  let m' := mkMem (m_tail m) (m_head m)
              (<[slot_of (n_pub m) := mkSlot item (S (v_prod pv)) (s_rd sl)]> (m_slots m)) in
  mem_inv m pv cv q → Z.of_nat (n_pub m) + 1 ≤ Z.of_nat (v_head pv) + N - 1 →
  m_slots m !! slot_of (n_pub m) = Some sl →
  mem_inv m' pv' cv q.
Proof using HN.
  intros pv' m' Hi Hroom Hsl. pose proof (lookup_lt_Some _ _ _ Hsl) as Hlt.
  destruct Hi. split; try done; cbn; unfold n_pub, n_rel in *; cbn in *.
  - by rewrite length_insert.
  - intros s sl' Hs. apply list_lookup_insert_Some in Hs as [(<- & <- & _)|[_ Hs]]; cbn.
    + specialize (i_own0 _ _ Hsl). lia.
    + specialize (i_own0 _ _ Hs). lia.
  - intros s sl' j x v Hs Hj Hk. apply list_lookup_insert_Some in Hs as [(<- & _ & _)|[_ Hs]]; cbn.
    + exfalso. apply lookup_lt_Some in Hj. refine (Hk (pred (length (m_tail m))) _ _ eq_refl); lia.
    + by apply (i_wcov0 s sl' j x v).
  - intros s sl' j x v Hs Hj Hk. apply list_lookup_insert_Some in Hs as [(<- & <- & _)|[_ Hs]]; cbn.
    + exact (i_rcov0 _ _ _ _ _ Hsl Hj Hk).
    + by apply (i_rcov0 s sl' j x v).
  - intros k Hk. destruct (i_val0 k Hk) as (sl' & Hs & Hq). exists sl'. split; [|done].
    rewrite list_lookup_insert_ne; [done|]. apply not_eq_sym, slot_of_ne; lia.
Qed.

(** The producer publishes it with a release store on [tail_]. *)
Lemma mem_inv_publish m pv cv q item sl next_t :
  let pv' := view_set Tail (length (m_tail m)) pv in
  let m' := mkMem (m_tail m ++ [(next_t, pv')]) (m_head m) (m_slots m) in
  mem_inv m pv cv q → next_t = (Z.of_nat (n_pub m) + 1) `mod` N →
  Z.of_nat (n_pub m) + 1 ≤ Z.of_nat (v_head pv) + N - 1 →
  m_slots m !! slot_of (n_pub m) = Some sl → s_val sl = item →
  mem_inv m' pv' cv (q ++ [item]).
Proof using HN.
  intros pv' m' Hi Hnext Hroom Hsl Hval.
  assert (Hpub : n_pub m' = S (n_pub m)).
  { unfold n_pub. cbn. rewrite length_app. cbn. rewrite (i_tlen _ _ _ _ Hi). unfold n_pub. lia. }
  destruct Hi. split; rewrite ?Hpub; change (n_rel m') with (n_rel m); cbn; try done; try lia.
  - rewrite length_app. cbn. lia.
  - intros j x v Hj. apply lookup_app_Some in Hj as [Hj|[Hge Hj]]; [by apply i_tmsg0|].
    apply list_lookup_singleton_Some in Hj as [Hj [= <- <-]]. cbn. split_and!; [|lia|lia].
    rewrite Hnext. f_equal. lia.
  - intros j x v Hj. destruct (i_hmsg0 j x v Hj) as (? & ? & ?). split_and!; [done..|lia].
  - intros x v Hj. rewrite lookup_app_l in Hj by lia. by apply (i_csync0 x).
  - intros s sl' j x v Hs Hj Hk. apply lookup_app_Some in Hj as [Hj|[Hge Hj]].
    + apply (i_wcov0 s sl' j x v Hs Hj). intros k Hk1 Hk2. apply Hk; lia.
    + apply list_lookup_singleton_Some in Hj as [_ [= <- <-]]. cbn. by apply (i_own0 s sl').
  - intros k Hk. destruct (decide (k = n_pub m)) as [->|Hne].
    + exists sl. split; [done|]. rewrite lookup_app_r, i_count0, Nat.sub_diag by lia. by subst item.
    + destruct (i_val0 k ltac:(lia)) as (sl' & Hs & Hq). exists sl'. split; [done|].
      by apply lookup_app_l_Some.
  - rewrite length_app. cbn. lia.
Qed.

(** The consumer reads the slot of the oldest item. *)
Lemma mem_inv_read m pv cv q sl :
  let cv' := mkView (v_tail cv) (v_head cv) (v_prod cv) (S (v_cons cv)) in
  let m' := mkMem (m_tail m) (m_head m)
              (<[slot_of (n_rel m) := mkSlot (s_val sl) (s_wr sl) (S (v_cons cv))]> (m_slots m)) in
  mem_inv m pv cv q → (n_rel m < v_tail cv)%nat →
  m_slots m !! slot_of (n_rel m) = Some sl →
  mem_inv m' pv cv' q.
Proof using HN.
  intros cv' m' Hi Hlt Hsl. pose proof (lookup_lt_Some _ _ _ Hsl) as Hl.
  destruct Hi. split; try done; cbn; unfold n_pub, n_rel in *; cbn in *.
  - by rewrite length_insert.
  - intros s sl' Hs. apply list_lookup_insert_Some in Hs as [(<- & <- & _)|[_ Hs]]; cbn.
    + specialize (i_own0 _ _ Hsl). lia.
    + specialize (i_own0 _ _ Hs). lia.
  - intros s sl' j x v Hs Hj Hk. apply list_lookup_insert_Some in Hs as [(<- & <- & _)|[_ Hs]]; cbn.
    + exact (i_wcov0 _ _ _ _ _ Hsl Hj Hk).
    + by apply (i_wcov0 s sl' j x v).
  - intros s sl' j x v Hs Hj Hk. apply list_lookup_insert_Some in Hs as [(<- & _ & _)|[_ Hs]]; cbn.
    + exfalso. apply lookup_lt_Some in Hj. refine (Hk (pred (length (m_head m))) _ _ eq_refl); lia.
    + by apply (i_rcov0 s sl' j x v).
  - intros k Hk. destruct (i_val0 k Hk) as (sl' & Hs & Hq).
    destruct (decide (slot_of (pred (length (m_head m))) = slot_of k)) as [Heq|Hne].
    + rewrite <- Heq in *. rewrite list_lookup_insert_eq by done. eexists; split; [done|]. cbn.
      congruence.
    + rewrite list_lookup_insert_ne by done. by exists sl'.
Qed.

(** The consumer releases it with a release store on [head_]. *)
Lemma mem_inv_release m pv cv q next_h :
  let cv' := view_set Head (length (m_head m)) cv in
  let m' := mkMem (m_tail m) (m_head m ++ [(next_h, cv')]) (m_slots m) in
  mem_inv m pv cv q → next_h = (Z.of_nat (n_rel m) + 1) `mod` N →
  (n_rel m < v_tail cv)%nat →
  mem_inv m' pv cv' q.
Proof.
  intros cv' m' Hi Hnext Hlt.
  assert (Hrel : n_rel m' = S (n_rel m)).
  { unfold n_rel. cbn. rewrite length_app. cbn. rewrite (i_hlen _ _ _ _ Hi). unfold n_rel. lia. }
  destruct Hi. split; rewrite ?Hrel; change (n_pub m') with (n_pub m); cbn; try done; try lia.
  - rewrite length_app. cbn. lia.
  - intros j x v Hj. destruct (i_tmsg0 j x v Hj) as (? & ? & ?). split_and!; [done..|lia].
  - intros j x v Hj. apply lookup_app_Some in Hj as [Hj|[Hge Hj]]; [by apply i_hmsg0|].
    apply list_lookup_singleton_Some in Hj as [Hj [= <- <-]]. cbn. split_and!; [|lia|lia].
    rewrite Hnext. f_equal. lia.
  - intros x v Hj. rewrite lookup_app_l in Hj by lia. by apply (i_psync0 x).
  - intros s sl' j x v Hs Hj Hk. apply lookup_app_Some in Hj as [Hj|[Hge Hj]].
    + apply (i_rcov0 s sl' j x v Hs Hj). intros k Hk1 Hk2. apply Hk; lia.
    + apply list_lookup_singleton_Some in Hj as [_ [= <- <-]]. cbn. by apply (i_own0 s sl').
  - intros k Hk. apply i_val0. lia.
Qed.

(** ** Loads *)

Lemma load_own_index o l v hist i r :
  view_get l v = pred (length hist) →
  atomic_load o l i v hist = Some r → o = relaxed →
  ∃ mv, hist !! view_get l v = Some (r.1, mv) ∧ r.2 = v.
Proof.
  intros Hv Hl ->. unfold atomic_load in Hl. case_bool_decide as Hle; [|done].
  destruct (hist !! i) as [[x mv]|] eqn:Hi; [|done]. injection Hl as <-.
  pose proof (lookup_lt_Some _ _ _ Hi). assert (i = view_get l v) as -> by lia.
  exists mv. split; [done|]. by destruct v, l.
Qed.

Lemma load_acquire l v hist i r :
  atomic_load acquire l i v hist = Some r →
  ∃ mv, (view_get l v ≤ i)%nat ∧ hist !! i = Some (r.1, mv) ∧ r.2 = view_join (view_set l i v) mv.
Proof.
  unfold atomic_load. case_bool_decide as Hle; [|done].
  destruct (hist !! i) as [[x mv]|] eqn:Hi; [|done]. intros [= <-]. by exists mv.
Qed.

(** ** Logs *)

Lemma clog_ok_mono q q' n log : clog_ok q n log → clog_ok (q ++ q') n log.
Proof.
  revert n. induction log as [|[[x|]|[x|]] log IH]; cbn; intros n Hl; auto.
  - destruct Hl. split; [by apply lookup_app_l_Some|auto].
  - destruct Hl. split; [by apply lookup_app_l_Some|auto].
Qed.

Lemma clog_ok_snoc q n log r :
  clog_ok q n log →
  match r with
  | GotPop (Some x) | GotPeek (Some x) =>
      q !! (n + length (popped_log log))%nat = Some x
  | _ => True
  end →
  clog_ok q n (log ++ [r]).
Proof.
  revert n. induction log as [|[[x|]|[x|]] log IH]; cbn; intros n Hl Hr; auto.
  - rewrite Nat.add_0_r in Hr. destruct r as [[y|]|[y|]]; cbn; auto.
  - destruct Hl. split; [done|]. apply IH; [done|].
    by replace (S n + _)%nat with (n + S (length (popped_log log)))%nat by lia.
  - destruct Hl. split; [done|]. by apply IH.
Qed.

Lemma pushed_snoc v (pc : @ppc T) log (x : T) b :
  pushed (mkProd v pc (log ++ [(x, b)])) =
  pushed (mkProd v pc log) ++ (if b then [x] else []).
Proof. unfold pushed. cbn. rewrite omap_app. by destruct b. Qed.

Lemma length_popped_snoc (log : list (@creply T)) r :
  length (popped_log (log ++ [r])) =
  (length (popped_log log) + match r with GotPop (Some _) => 1 | _ => 0 end)%nat.
Proof. unfold popped_log. rewrite omap_app, length_app. by destruct r as [[x|]|o]. Qed.

(** ** Every step keeps the invariant *)

Lemma push_step_inv c i m p ok :
  conf_inv c → push_step N i (mem c) (prod c) = Some (m, p, ok) →
  ok = true ∧ conf_inv (mkConf m p (cons c) (ub c)).
Proof using HN.
  destruct c as [m0 [pv pc log] k b]. intros [Hm Hp Hc Hl Hr Hu]. cbn [mem prod cons ub p_view p_pc p_log] in *.
  unfold push_step. cbn [p_pc p_view p_log]. pose proof cap_pos.
  destruct pc as [|x|x t|x t next_t|x next_t]; cbn in Hp; [done| | | |].
  - destruct (atomic_load relaxed Tail i pv (m_tail m0)) as [[t v]|] eqn:Hload; [|done].
    intros [= <- <- <-]. apply load_own_index in Hload as (mv & Ht & Hv); [|apply (i_pown _ _ _ _ Hm)|done].
    cbn in Ht, Hv. subst v. split; [done|]. split; try done. cbn.
    rewrite (i_pown _ _ _ _ Hm) in Ht. by destruct (i_tmsg _ _ _ _ Hm _ _ _ Ht) as [-> _].
  - destruct (atomic_load acquire Head i pv (m_head m0)) as [[h v]|] eqn:Hload; [|done]. cbn [mbind option_bind].
    apply load_acquire in Hload as (mv & Hge & Hh & Hv). cbn in Hge, Hh, Hv.
    destruct (i_hmsg _ _ _ _ Hm _ _ _ Hh) as (Hhv & Hhi & Hhm).
    pose proof (lookup_lt_Some _ _ _ Hh) as Hlt. rewrite (i_hlen _ _ _ _ Hm) in Hlt.
    pose proof (i_pown _ _ _ _ Hm) as Hown.
    assert (Hm' : mem_inv m0 v (c_view k) (pushed (mkProd pv (PHead x t) log))).
    { subst v. apply (mem_inv_pview _ pv); cbn; try lia; [done|].
      rewrite Hhi, Nat.max_id. intros y w Hy. rewrite Hh in Hy. injection Hy as _ <-. lia. }
    rewrite (mask_mod N HN), Hp, Zplus_mod_idemp_l. case_bool_decide as Hfull; intros [= <- <- <-].
    + split; [done|]. by split; cbn [mem prod cons ub]; rewrite ?pushed_snoc, ?app_nil_r.
    + split; [done|]. split; try done. cbn. split_and!; [done..|].
      pose proof (i_room _ _ _ _ Hm) as Hroom. subst v h. cbn in Hroom |- *. rewrite Hhi, Nat.max_id.
      destruct (decide (Z.of_nat (n_pub m0) + 1 = Z.of_nat i + N)) as [He|]; [|lia].
      exfalso. apply Hfull. rewrite He. replace (Z.of_nat i + N) with (Z.of_nat i + 1 * N) by lia.
      apply Z_mod_plus_full.
  - destruct Hp as (-> & -> & Hroom). unfold slot_write.
    rewrite bool_decide_true by (apply Z.mod_pos_bound; lia).
    fold (slot_of (n_pub m0)). destruct (write_race_free _ _ _ _ Hm Hroom) as (sl & Hsl & Hrd).
    rewrite Hsl, bool_decide_true by done. intros [= <- <- <-]. split; [done|].
    pose proof (lookup_lt_Some _ _ _ Hsl).
    split; try done; cbn.
    + by apply mem_inv_write.
    + split_and!; [done..|]. unfold n_pub. cbn. rewrite list_lookup_insert_eq by done. by eexists.
  - destruct Hp as (-> & Hroom & sl & Hsl & Hval). cbn. intros [= <- <- <-]. split; [done|].
    split; cbn [mem prod cons ub p_view p_pc p_log]; rewrite ?pushed_snoc.
    + eapply mem_inv_publish; done.
    + done.
    + destruct (c_pc k) as [| | | |]; cbn in *; try done.
      destruct Hc as (? & ? & ?). split_and!; [done..|]. by apply lookup_app_l_Some.
    + by apply clog_ok_mono.
    + done.
    + done.
Qed.

(** Projections of the configuration, without touching the logs. *)
Ltac conf_cbn := cbn [mem prod cons ub p_view p_pc p_log c_view c_pc c_log] in *.

Lemma pop_step_inv c i m k ok :
  conf_inv c → pop_step N i (mem c) (cons c) = Some (m, k, ok) →
  ok = true ∧ conf_inv (mkConf m (prod c) k (ub c)).
Proof using HN.
  destruct c as [m0 p [cv pc log] b]. intros [Hm Hp Hc Hl Hr Hu]. cbn [mem prod cons ub c_view c_pc c_log] in *.
  unfold pop_step. cbn [c_pc c_view c_log]. pose proof cap_pos.
  destruct pc as [|k0|k0 h|k0 h|x h]; cbn in Hc; [done| | | |].
  - destruct (atomic_load relaxed Head i cv (m_head m0)) as [[h v]|] eqn:Hload; [|done].
    intros [= <- <- <-]. apply load_own_index in Hload as (mv & Ht & Hv); [|apply (i_cown _ _ _ _ Hm)|done].
    cbn in Ht, Hv. subst v. split; [done|]. split; try done. cbn.
    rewrite (i_cown _ _ _ _ Hm) in Ht. by destruct (i_hmsg _ _ _ _ Hm _ _ _ Ht) as [-> _].
  - destruct (atomic_load acquire Tail i cv (m_tail m0)) as [[t v]|] eqn:Hload; [|done]. cbn [mbind option_bind].
    apply load_acquire in Hload as (mv & Hge & Ht & Hv). cbn in Hge, Ht, Hv.
    destruct (i_tmsg _ _ _ _ Hm _ _ _ Ht) as (Htv & Hti & Htm).
    pose proof (lookup_lt_Some _ _ _ Ht) as Hlt. rewrite (i_tlen _ _ _ _ Hm) in Hlt.
    pose proof (i_cown _ _ _ _ Hm) as Hown.
    assert (Hm' : mem_inv m0 (p_view p) v (pushed p)).
    { subst v. apply (mem_inv_cview _ _ cv); cbn; try lia; [done|].
      rewrite Hti, Nat.max_id. intros y w Hy. rewrite Ht in Hy. injection Hy as _ <-. lia. }
    case_bool_decide as He; intros [= <- <- <-].
    + split; [done|]. split; try done; conf_cbn.
      * apply clog_ok_snoc; [done|]. by destruct k0.
      * unfold popped. conf_cbn. rewrite length_popped_snoc. destruct k0; rewrite Nat.add_0_r; exact Hr.
    + split; [done|]. split; try done. cbn. split; [done|]. subst v t h. cbn. rewrite Hti, Nat.max_id.
      destruct (i_order _ _ _ _ Hm) as [Ho1 Ho2].
      destruct (decide (i = n_rel m0)) as [->|]; [done|lia].
  - destruct Hc as (-> & Hlt). unfold slot_read. rewrite bool_decide_true by (apply Z.mod_pos_bound; lia).
    fold (slot_of (n_rel m0)). destruct (read_race_free _ _ _ _ Hm Hlt) as (sl & Hsl & Hwr & Hq).
    rewrite Hsl, bool_decide_true by done. pose proof (lookup_lt_Some _ _ _ Hsl).
    assert (Hp' : ppc_ok (mkMem (m_tail m0) (m_head m0)
        (<[slot_of (n_rel m0) := mkSlot (s_val sl) (s_wr sl) (S (v_cons cv))]> (m_slots m0))) (p_view p) (p_pc p)).
    { destruct (p_pc p); cbn in *; try done. destruct Hp as (? & ? & sl' & Hs' & Hv').
      split_and!; [done..|]. change (n_pub (mkMem _ _ _)) with (n_pub m0).
      destruct (decide (slot_of (n_rel m0) = slot_of (n_pub m0))) as [He|Hne].
      - rewrite <- He in *. rewrite list_lookup_insert_eq by done. eexists; split; [done|]. cbn. congruence.
      - rewrite list_lookup_insert_ne by done. by exists sl'. }
    pose proof (mem_inv_read _ _ _ _ sl Hm Hlt Hsl) as Hm'. cbn in Hm'.
    destruct k0; intros [= <- <- <-]; (split; [done|]); split; try done; conf_cbn.
    + apply clog_ok_snoc; [done|]. unfold popped in Hr. conf_cbn. by rewrite Hr.
    + unfold popped. conf_cbn. rewrite length_popped_snoc, Nat.add_0_r. exact Hr.
  - destruct Hc as (-> & Hlt & Hq). cbn. intros [= <- <- <-]. split; [done|]. unfold popped in Hr. conf_cbn.
    split; try done; conf_cbn.
    + rewrite (mask_mod N HN), Zplus_mod_idemp_l. by apply mem_inv_release.
    + apply clog_ok_snoc; [done|]. by rewrite Hr.
    + unfold popped. conf_cbn. rewrite length_popped_snoc, Hr. pose proof (i_hlen _ _ _ _ Hm).
      unfold n_rel in *. cbn. rewrite length_app. cbn. lia.
Qed.

Lemma conf_inv_init (zero : T) : conf_inv (spsc_init N zero).
Proof using HN.
  pose proof cap_pos. split; try done. cbn. split; cbn; try done; try lia.
  - by rewrite length_replicate.
  - intros j x v Hj. apply list_lookup_singleton_Some in Hj as [-> [= <- <-]]. by rewrite Zmod_0_l.
  - intros j x v Hj. apply list_lookup_singleton_Some in Hj as [-> [= <- <-]]. by rewrite Zmod_0_l.
  - intros x v [= <- <-]. done.
  - intros x v [= <- <-]. done.
  - intros s sl Hs. apply lookup_replicate in Hs as [-> _]. cbn. lia.
  - intros s sl j x v Hs. apply lookup_replicate in Hs as [-> _]. cbn. lia.
  - intros s sl j x v Hs. apply lookup_replicate in Hs as [-> _]. cbn. lia.
Qed.

Lemma conf_inv_step l c c' : conf_inv c → spsc_step N l c = Some c' → conf_inv c'.
Proof using HN.
  intros Hi. pose proof (ci_ub _ Hi) as Hub. destruct l as [x|i|k|i]; cbn.
  - destruct (p_pc (prod c)); [|done..]. intros [= <-]. by destruct Hi.
  - destruct (push_step N i (mem c) (prod c)) as [[[m p] ok]|] eqn:Hs; [|done]. intros [= <-].
    apply push_step_inv in Hs as [-> Hi']; [|done]. by rewrite orb_false_r.
  - destruct (c_pc (cons c)); [|done..]. intros [= <-]. by destruct Hi.
  - destruct (pop_step N i (mem c) (cons c)) as [[[m k] ok]|] eqn:Hs; [|done]. intros [= <-].
    apply pop_step_inv in Hs as [-> Hi']; [|done]. by rewrite orb_false_r.
Qed.

Lemma reachable_inv (zero : T) c : reachable N zero c → conf_inv c.
Proof using HN.
  unfold reachable. intros Hr. pose proof (conf_inv_init zero) as Hi.
  induction Hr as [|c1 c2 c3 [l Hs] _ IH]; [done|]. apply IH. by apply (conf_inv_step l c1).
Qed.

Lemma run_reachable (zero : T) ls c : spsc_run N ls (spsc_init N zero) = Some c → reachable N zero c.
Proof.
  unfold reachable. generalize (spsc_init N zero). induction ls as [|l ls IH]; intros c0; cbn.
  - intros [= <-]. done.
  - destruct (spsc_step N l c0) as [c1|] eqn:Hs; [|done]. intros Hr. apply rtc_l with c1; [by exists l|auto].
Qed.
End Invariant.

(** ** Consequences *)

Lemma clog_ok_prefix {T} (q : list T) n log :
  clog_ok q n log → popped_log log `prefix_of` drop n q.
Proof.
  revert n. induction log as [|[[x|]|[x|]] log IH]; cbn; intros n Hl.
  - apply prefix_nil.
  - destruct Hl as [Hx Hl]. rewrite (drop_S q x n Hx). by apply prefix_cons, IH.
  - by apply IH.
  - apply IH, Hl.
  - by apply IH.
Qed.

(** How far a thread is from the end of its call. *)
Definition ppc_rank {T} (pc : @ppc T) : nat :=
  match pc with PIdle => 0 | PStore _ _ => 1 | PWrite _ _ _ => 2 | PHead _ _ => 3 | PTail _ => 4 end.

Definition cpc_rank {T} (pc : @cpc T) : nat :=
  match pc with CIdle => 0 | CStore _ _ => 1 | CRead _ _ => 2 | CTail _ _ => 3 | CHead _ => 4 end.

Lemma push_step_enabled {T} N (HN : capacity_ok N = true) (c : conf T) :
  conf_inv N c → p_pc (prod c) ≠ PIdle → ∃ i r, push_step N i (mem c) (prod c) = Some r.
Proof.
  intros Hi Hpc. pose proof (ci_mem N c Hi) as Hm. unfold push_step.
  destruct (p_pc (prod c)) as [|x|x t|x t nt|x nt]; [done| | | |].
  - exists (n_pub (mem c)). unfold atomic_load. cbn. rewrite (i_pown N _ _ _ _ Hm).
    rewrite bool_decide_true by done.
    destruct (lookup_lt_is_Some_2 (m_tail (mem c)) (n_pub (mem c))) as [[y v] ->];
      [rewrite (i_tlen N _ _ _ _ Hm); lia|]. by eexists.
  - exists (n_rel (mem c)). unfold atomic_load. cbn. destruct (i_order N _ _ _ _ Hm) as [? ?].
    rewrite bool_decide_true by lia.
    destruct (lookup_lt_is_Some_2 (m_head (mem c)) (n_rel (mem c))) as [[y v] ->];
      [rewrite (i_hlen N _ _ _ _ Hm); lia|]. cbn. case_bool_decide; by eexists.
  - exists 0%nat. destruct (slot_write _ _ _ _) as [[? ?]|]; by eexists.
  - exists 0%nat. by eexists.
Qed.

Lemma pop_step_enabled {T} N (HN : capacity_ok N = true) (c : conf T) :
  conf_inv N c → c_pc (cons c) ≠ CIdle → ∃ i r, pop_step N i (mem c) (cons c) = Some r.
Proof.
  intros Hi Hpc. pose proof (ci_mem N c Hi) as Hm. unfold pop_step.
  destruct (c_pc (cons c)) as [|k|k h|k h|x h]; [done| | | |].
  - exists (n_rel (mem c)). unfold atomic_load. cbn. rewrite (i_cown N _ _ _ _ Hm).
    rewrite bool_decide_true by done.
    destruct (lookup_lt_is_Some_2 (m_head (mem c)) (n_rel (mem c))) as [[y v] ->];
      [rewrite (i_hlen N _ _ _ _ Hm); lia|]. by eexists.
  - exists (n_pub (mem c)). unfold atomic_load. cbn. destruct (i_order N _ _ _ _ Hm) as [? ?].
    rewrite bool_decide_true by lia.
    destruct (lookup_lt_is_Some_2 (m_tail (mem c)) (n_pub (mem c))) as [[y v] ->];
      [rewrite (i_tlen N _ _ _ _ Hm); lia|]. cbn. case_bool_decide; by eexists.
  - exists 0%nat. destruct (slot_read _ _ _) as [[[? ?] ?]|]; destruct k; by eexists.
  - exists 0%nat. by eexists.
Qed.

Lemma push_step_rank {T} N i m (p : @producer T) m' p' :
  push_step N i m p = Some (m', p', true) → (ppc_rank (p_pc p') < ppc_rank (p_pc p))%nat.
Proof.
  unfold push_step. destruct (p_pc p) as [|x|x t|x t nt|x nt]; [done| | | |].
  - destruct (atomic_load _ _ _ _ _) as [[? ?]|]; [|done]. intros [= <- <-]. cbn. lia.
  - destruct (atomic_load _ _ _ _ _) as [[? ?]|]; [|done]. cbn.
    case_bool_decide; intros [= <- <-]; cbn; lia.
  - destruct (slot_write _ _ _ _) as [[? ?]|]; [|done]. intros [= <- <-]. cbn. lia.
  - cbn. intros [= <- <-]. cbn. lia.
Qed.

Lemma pop_step_rank {T} N i m (k : @consumer T) m' k' :
  pop_step N i m k = Some (m', k', true) → (cpc_rank (c_pc k') < cpc_rank (c_pc k))%nat.
Proof.
  unfold pop_step. destruct (c_pc k) as [|c|c h|c h|x h]; [done| | | |].
  - destruct (atomic_load _ _ _ _ _) as [[? ?]|]; [|done]. intros [= <- <-]. cbn. lia.
  - destruct (atomic_load _ _ _ _ _) as [[? ?]|]; [|done]. cbn.
    case_bool_decide; intros [= <- <-]; cbn; lia.
  - destruct (slot_read _ _ _) as [[[? ?] ?]|]; [|done]. destruct c; intros [= <- <-]; cbn; lia.
  - cbn. intros [= <- <-]. cbn. lia.
Qed.

(** ** Properties *)

Section Properties.
Context {T : Type} (N : Z) (zero : T).

(** C1: with any interleaving of one producer and one consumer and any
    stale index value the release/acquire memory model lets a load return,
    no slot of [buf_] is ever accessed outside its bounds or by a racing
    read and write: the producer's [buf_[t] = item] happens after every
    earlier read of the slot and the consumer's read happens after the
    write of the item. *)
Theorem spsc_race_free (c : conf T) :
  capacity_ok N = true → reachable N zero c → ub c = false.
Proof. intros HN Hr. apply (ci_ub N c), (reachable_inv N HN zero c Hr). Qed.

(** C2: under the same interleavings and stale loads, items come out in the
    order in which they were accepted, each at most once and none invented:
    the values returned by [pop] are a prefix of the accepted items, and
    every successful [pop] or [peek] delivers the oldest item not yet
    consumed. *)
Theorem spsc_fifo (c : conf T) :
  capacity_ok N = true → reachable N zero c →
  popped (cons c) `prefix_of` pushed (prod c) ∧ clog_ok (pushed (prod c)) 0 (c_log (cons c)).
Proof.
  intros HN Hr. pose proof (reachable_inv N HN zero c Hr) as Hi. pose proof (ci_log N c Hi) as Hl.
  split; [|done]. pose proof (clog_ok_prefix _ _ _ Hl) as Hp. by rewrite drop_0 in Hp.
Qed.

(** The ring never holds more than [N - 1] items between the threads:
    accepted items minus delivered items stay within the usable slots, so
    no accepted item is overwritten before it is delivered. *)
Theorem spsc_bounded (c : conf T) :
  capacity_ok N = true → reachable N zero c →
  Z.of_nat (length (popped (cons c))) ≤ Z.of_nat (length (pushed (prod c)))
    ≤ Z.of_nat (length (popped (cons c))) + (N - 1).
Proof.
  intros HN Hr. pose proof (reachable_inv N HN zero c Hr) as Hi. pose proof (ci_mem N c Hi) as Hm.
  rewrite (i_count N _ _ _ _ Hm), (ci_rel N c Hi).
  pose proof (i_order N _ _ _ _ Hm). pose proof (i_room N _ _ _ _ Hm). lia.
Qed.

(** A [push] whose acquire load sees the newest value of [head_] is
    refused exactly when [N - 1] items are waiting: it never reports a full
    ring that has room, and a stale load can only make it more careful. *)
Theorem push_refused_iff_full (c c' : conf T) (x : T) (t : Z) :
  capacity_ok N = true → reachable N zero c → p_pc (prod c) = PHead x t →
  spsc_step N (ProducerStep (pred (length (m_head (mem c))))) c = Some c' →
  (p_log (prod c') = p_log (prod c) ++ [(x, false)] ↔
   Z.of_nat (length (pushed (prod c))) = Z.of_nat (length (popped (cons c))) + (N - 1)).
Proof.
  intros HN Hr Hpc Hs. pose proof (reachable_inv N HN zero c Hr) as Hi. pose proof (ci_mem N c Hi) as Hm.
  pose proof (ci_ppc N c Hi) as Hp. rewrite Hpc in Hp. cbn in Hp.
  rewrite (i_count N _ _ _ _ Hm), (ci_rel N c Hi). cbn in Hs. unfold push_step in Hs. rewrite Hpc in Hs.
  destruct (atomic_load acquire Head _ _ _) as [[h v]|] eqn:Hload; [|done]. cbn [mbind option_bind] in Hs.
  apply load_acquire in Hload as (mv & Hge & Hh & Hv). cbn in Hh.
  destruct (i_hmsg N _ _ _ _ Hm _ _ _ Hh) as (-> & _). fold (n_rel (mem c)) in *.
  rewrite (mask_mod N HN), Hp, Zplus_mod_idemp_l in Hs.
  pose proof (i_order N _ _ _ _ Hm). pose proof (i_room N _ _ _ _ Hm). pose proof (cap_bounds N HN).
  case_bool_decide as Hf; cbn in Hs; injection Hs as <-; cbn [prod p_log].
  - split; [intros _|done]. destruct (decide (Z.of_nat (n_pub (mem c)) + 1 < Z.of_nat (n_rel (mem c)) + N)) as [Hlt|]; [|lia].
    exfalso. by apply (mod_slot_inj N (Z.of_nat (n_rel (mem c))) (Z.of_nat (n_pub (mem c)) + 1)); [lia..|].
  - split.
    + intros Heq. apply (f_equal length) in Heq. rewrite length_app in Heq. cbn in Heq. lia.
    + intros Heq. exfalso. apply Hf. rewrite Heq.
      replace (_ + (N - 1) + 1) with (Z.of_nat (n_rel (mem c)) + 1 * N) by lia. apply Z_mod_plus_full.
Qed.

(** [push], [pop] and [peek] are wait-free: a thread inside a call
    always has a step of its own to take, and every step it takes brings it
    closer to the end of the call whatever the other thread does, so a call
    finishes within four of its own steps. *)
Theorem spsc_wait_free (c : conf T) :
  capacity_ok N = true → reachable N zero c →
  (p_pc (prod c) ≠ PIdle → ∃ i c', spsc_step N (ProducerStep i) c = Some c') ∧
  (c_pc (cons c) ≠ CIdle → ∃ i c', spsc_step N (ConsumerStep i) c = Some c') ∧
  (∀ i c', spsc_step N (ProducerStep i) c = Some c' →
     (ppc_rank (p_pc (prod c')) < ppc_rank (p_pc (prod c)) ≤ 4)%nat ∧ cons c' = cons c) ∧
  (∀ i c', spsc_step N (ConsumerStep i) c = Some c' →
     (cpc_rank (c_pc (cons c')) < cpc_rank (c_pc (cons c)) ≤ 4)%nat ∧ prod c' = prod c).
Proof.
  intros HN Hr. pose proof (reachable_inv N HN zero c Hr) as Hi. split_and!.
  - intros Hpc. destruct (push_step_enabled N HN c Hi Hpc) as (i & [[m p] ok] & Hs).
    exists i. cbn. rewrite Hs. by eexists.
  - intros Hpc. destruct (pop_step_enabled N HN c Hi Hpc) as (i & [[m k] ok] & Hs).
    exists i. cbn. rewrite Hs. by eexists.
  - intros i c'. cbn. destruct (push_step N i _ _) as [[[m p] ok]|] eqn:Hs; [|done]. intros [= <-].
    destruct (push_step_inv N HN c i m p ok Hi Hs) as [-> _]. apply push_step_rank in Hs.
    split; [|done]. split; [done|]. destruct (p_pc (prod c)); cbn; lia.
  - intros i c'. cbn. destruct (pop_step N i _ _) as [[[m k] ok]|] eqn:Hs; [|done]. intros [= <-].
    destruct (pop_step_inv N HN c i m k ok Hi Hs) as [-> _]. apply pop_step_rank in Hs.
    split; [|done]. split; [done|]. destruct (c_pc (cons c)); cbn; lia.
Qed.
End Properties.

(** ** A run with stale loads *)

(** Four slots.  The consumer first misses the published item 10 because it
    reads an old [tail_]; the producer is later refused because it reads an
    old [head_], and retries with the new one; the consumer is left in the
    middle of a [pop] while the producer is about to check for room. *)
Definition demo_schedule : list (label Z) :=
  let call x t h := [ProducerCall x; ProducerStep t; ProducerStep h] in
  let write := [ProducerStep 0; ProducerStep 0] in
  call 10 0%nat 0%nat ++ write ++
  [ConsumerCall Pop; ConsumerStep 0; ConsumerStep 0] ++
  [ConsumerCall Peek; ConsumerStep 0; ConsumerStep 1; ConsumerStep 0] ++
  call 11 1%nat 0%nat ++ [ProducerStep 0; ConsumerCall Pop; ConsumerStep 0; ProducerStep 0;
  ConsumerStep 1; ConsumerStep 0; ConsumerStep 0] ++
  call 12 2%nat 0%nat ++ write ++
  call 13 3%nat 0%nat ++
  call 14 3%nat 1%nat ++ write ++
  [ConsumerCall Pop; ConsumerStep 1; ConsumerStep 4; ProducerCall 15; ProducerStep 4].

Definition demo_conf : conf Z := default (spsc_init 4 0) (spsc_run 4 demo_schedule (spsc_init 4 0)).

Lemma demo_reachable : reachable 4 0 demo_conf.
Proof. apply (run_reachable 4 0 demo_schedule). vm_compute. reflexivity. Qed.

Lemma spsc_race_free_witness :
  p_log (prod demo_conf) = [(10, true); (11, true); (12, true); (13, false); (14, true)] ∧
  ub demo_conf = false.
Proof.
  split; [reflexivity|]. apply (spsc_race_free 4 0 demo_conf); [reflexivity|apply demo_reachable].
Defined.

Lemma spsc_fifo_witness :
  popped (cons demo_conf) = [10] ∧ pushed (prod demo_conf) = [10; 11; 12; 14] ∧
  c_log (cons demo_conf) = [GotPop None; GotPeek (Some 10); GotPop (Some 10)] ∧
  popped (cons demo_conf) `prefix_of` pushed (prod demo_conf) ∧
  clog_ok (pushed (prod demo_conf)) 0 (c_log (cons demo_conf)).
Proof.
  split; [reflexivity|]. split; [reflexivity|]. split; [reflexivity|].
  apply (spsc_fifo 4 0 demo_conf); [reflexivity|apply demo_reachable].
Defined.

Lemma spsc_bounded_witness :
  Z.of_nat (length (popped (cons demo_conf))) ≤ Z.of_nat (length (pushed (prod demo_conf)))
    ≤ Z.of_nat (length (popped (cons demo_conf))) + (4 - 1).
Proof. apply (spsc_bounded 4 0 demo_conf); [reflexivity|apply demo_reachable]. Defined.

(** The producer's check for item 15 with the newest [head_]: three items
    wait in a ring of four slots, so the push is refused. *)
Definition demo_refused : conf Z := default demo_conf (spsc_step 4 (ProducerStep 1) demo_conf).

Lemma push_refused_iff_full_witness :
  p_pc (prod demo_conf) = PHead 15 0 ∧
  (p_log (prod demo_refused) = p_log (prod demo_conf) ++ [(15, false)] ↔
   Z.of_nat (length (pushed (prod demo_conf))) =
   Z.of_nat (length (popped (cons demo_conf))) + (4 - 1)).
Proof.
  split; [reflexivity|].
  apply (push_refused_iff_full 4 0 demo_conf demo_refused 15 0).
  - reflexivity.
  - apply demo_reachable.
  - reflexivity.
  - vm_compute. reflexivity.
Defined.

Lemma spsc_wait_free_witness :
  (∃ i c', spsc_step 4 (ProducerStep i) demo_conf = Some c') ∧
  (∃ i c', spsc_step 4 (ConsumerStep i) demo_conf = Some c').
Proof.
  destruct (spsc_wait_free 4 0 demo_conf eq_refl demo_reachable) as (Hp & Hc & _).
  split; [apply Hp|apply Hc]; vm_compute; discriminate.
Defined.
