(* ===== verification/StaleQueue.v ===== *)
(** * The queue two threads see

    What the concurrent ring of SpscConcurrent promises to its two threads,
    as a specification: a bounded FIFO queue whose producer and consumer know
    of each other only what they have learnt so far.  The producer decides
    from the number of deliveries it knows of, the consumer from the number
    of acceptances it knows of; what they know may lag behind but never goes
    back.  The refinement theorem shows that every execution of the ring, one
    memory access at a time with stale loads, is an execution of this queue. *)

From S2P Require Import Prelude Queue RingBuffer SpscConcurrent.

(** ** The specification *)

Section Spec.
Context {T : Type} (cap : nat).

(** Everything accepted so far, how many were delivered, and how many
    deliveries the producer and acceptances the consumer know of. *)
Record squeue : Type := mkSq { sq_all : list T; sq_out : nat; sq_prod : nat; sq_cons : nat }.

Definition sq_empty : squeue := mkSq [] 0 0 0.

(** What waits in the queue. *)
Definition sq_items (s : squeue) : list T := drop (sq_out s) (sq_all s).

(** Completed calls. *)
Inductive call : Type :=
| CallPush (x : T) (accepted : bool)
| CallPop (o : option T)
| CallPeek (o : option T).

Definition sq_push (x : T) (s : squeue) : bool * squeue :=
  if bool_decide (length (sq_all s) < sq_prod s + cap)%nat
  then (true, mkSq (sq_all s ++ [x]) (sq_out s) (sq_prod s) (sq_cons s)) else (false, s).

Definition sq_peek (s : squeue) : option T :=
  if bool_decide (sq_out s < sq_cons s)%nat then sq_all s !! sq_out s else None.

Definition sq_pop (s : squeue) : option T * squeue :=
  match sq_peek s with
  | Some x => (Some x, mkSq (sq_all s) (S (sq_out s)) (sq_prod s) (sq_cons s))
  | None => (None, s)
  end.

(** A thread learns of the other's progress, or makes a call. *)
Inductive sq_step : squeue → option call → squeue → Prop :=
| sq_learn_prod s k :
    (sq_prod s ≤ k ≤ sq_out s)%nat → sq_step s None (mkSq (sq_all s) (sq_out s) k (sq_cons s))
| sq_learn_cons s k :
    (sq_cons s ≤ k ≤ length (sq_all s))%nat → sq_step s None (mkSq (sq_all s) (sq_out s) (sq_prod s) k)
| sq_do_push s x b s' : sq_push x s = (b, s') → sq_step s (Some (CallPush x b)) s'
| sq_do_pop s o s' : sq_pop s = (o, s') → sq_step s (Some (CallPop o)) s'
| sq_do_peek s : sq_step s (Some (CallPeek (sq_peek s))) s.

(** Executions with the calls made in them. *)
Inductive sq_run : squeue → list call → squeue → Prop :=
| sq_done s : sq_run s [] s
| sq_more s1 o s2 cs s3 : sq_step s1 o s2 → sq_run s2 cs s3 → sq_run s1 (option_list o ++ cs) s3.

Lemma sq_run_app s1 cs1 s2 cs2 s3 : sq_run s1 cs1 s2 → sq_run s2 cs2 s3 → sq_run s1 (cs1 ++ cs2) s3.
Proof. induction 1 as [|? ? ? ? ? Hs _ IH]; [done|]. intros H. rewrite <- app_assoc. econstructor; eauto. Qed.

Lemma sq_run_one s1 o s2 : sq_step s1 o s2 → sq_run s1 (option_list o) s2.
Proof. intros H. rewrite <- (app_nil_r (option_list o)). econstructor; [exact H|constructor]. Qed.

(** The calls of one thread. *)
Definition pushes (cs : list call) : list (T * bool) :=
  omap (λ c, match c with CallPush x b => Some (x, b) | _ => None end) cs.
Definition replies (cs : list call) : list creply :=
  omap (λ c, match c with CallPop o => Some (GotPop o) | CallPeek o => Some (GotPeek o) | CallPush _ _ => None end) cs.

(** States in which nobody knows more than what happened. *)
Record sq_ok (s : squeue) : Prop := {
  so_prod : (sq_prod s ≤ sq_out s)%nat;
  so_out : (sq_out s ≤ sq_cons s)%nat;
  so_cons : (sq_cons s ≤ length (sq_all s))%nat;
  so_cap : (length (sq_all s) ≤ sq_prod s + cap)%nat;
}.
End Spec.
Arguments squeue : clear implicits.
Arguments call : clear implicits.

(** ** The ring as such a queue *)

Section Refinement.
Context {T : Type} (N : Z) (HN : capacity_ok N = true).
#[local] Abbreviation cap := (Z.to_nat (N - 1)).

Definition abstract (c : conf T) : squeue T :=
  mkSq (pushed (prod c)) (length (popped (cons c))) (v_head (p_view (prod c))) (v_tail (c_view (cons c))).

Lemma abstract_ok c : conf_inv N c → sq_ok cap (abstract c).
Proof using HN.
  intros Hi. pose proof (ci_mem N c Hi) as Hm. pose proof (i_order N _ _ _ _ Hm). pose proof (i_room N _ _ _ _ Hm).
  pose proof (cap_pos N HN). split; cbn; rewrite ?(i_count N _ _ _ _ Hm), ?(ci_rel N c Hi); lia.
Qed.

(** What a step of the ring is in the abstract queue. *)
Definition refines (c c' : conf T) : Prop :=
  ∃ cs, sq_run cap (abstract c) cs (abstract c') ∧
    p_log (prod c') = p_log (prod c) ++ pushes cs ∧ c_log (cons c') = c_log (cons c) ++ replies cs.

Lemma refines_silent c c' :
  abstract c' = abstract c → p_log (prod c') = p_log (prod c) → c_log (cons c') = c_log (cons c) → refines c c'.
Proof. intros Ha Hp Hc. exists []. rewrite !app_nil_r, Ha. split; [constructor|done]. Qed.

Lemma producer_refines i c c' :
  conf_inv N c → spsc_step N (ProducerStep i) c = Some c' → refines c c'.
Proof using HN.
  destruct c as [m [pv pc log] k u]. intros Hi. cbn [spsc_step].
  destruct (push_step N i _ _) as [[[m' p'] ok]|] eqn:Hs; [|done]. intros [= <-]. cbn [mem prod cons ub] in *.
  pose proof (ci_mem N _ Hi) as Hm. pose proof (ci_ppc N _ Hi) as Hp. pose proof (ci_rel N _ Hi) as Hr.
  pose proof (abstract_ok _ Hi) as [_ _ _ Hcap]. cbn [mem prod cons ub p_view p_pc p_log abstract sq_all sq_prod] in *.
  pose proof (cap_pos N HN). pose proof (i_order N _ _ _ _ Hm) as [Ho1 Ho2]. pose proof (i_count N _ _ _ _ Hm) as Hcnt.
  unfold push_step in Hs. cbn [p_pc p_view p_log] in Hs.
  destruct pc as [|x|x t|x t next_t|x next_t]; [done| | | |].
  - destruct (atomic_load relaxed Tail i pv _) as [[t v]|] eqn:Hl; [|done]. injection Hs as <- <- <-.
    apply load_own_index in Hl as (_ & _ & Hv); [|apply (i_pown N _ _ _ _ Hm)|done]. cbn in Hv. subst v. by apply refines_silent.
  - destruct (atomic_load acquire Head i pv _) as [[h v]|] eqn:Hl; [|done]. cbn [mbind option_bind] in Hs.
    apply load_acquire in Hl as (mv & Hge & Hh & Hv). cbn in Hge, Hh, Hv.
    destruct (i_hmsg N _ _ _ _ Hm _ _ _ Hh) as (-> & Hhi & _). pose proof (lookup_lt_Some _ _ _ Hh) as Hlt.
    rewrite (i_hlen N _ _ _ _ Hm) in Hlt. assert (Hvh : v_head v = i) by (subst v; cbn; rewrite Hhi; lia).
    assert (Hlearn : sq_step cap (mkSq (pushed (mkProd pv (PHead x t) log)) (length (popped k)) (v_head pv) (v_tail (c_view k))) None
      (mkSq (pushed (mkProd pv (PHead x t) log)) (length (popped k)) (v_head v) (v_tail (c_view k)))).
    { rewrite Hvh. refine (sq_learn_prod _ (mkSq _ _ _ _) i _). cbn. rewrite Hr. lia. }
    apply sq_run_one in Hlearn. rewrite (mask_mod N HN), Hp, Zplus_mod_idemp_l in Hs.
    case_bool_decide as Hf; injection Hs as <- <- <-.
    2: { exists []. rewrite !app_nil_r. split; [exact Hlearn|done]. }
    exists [CallPush x false]. split; [|by rewrite app_nil_r]. cbn [option_list] in Hlearn.
    eapply (sq_run_app _ _ [] _ [_]); [exact Hlearn|]. refine (sq_run_one _ _ (Some _) _ _). constructor.
    unfold sq_push, abstract. cbn [prod cons p_view sq_all sq_prod]. rewrite pushed_snoc, app_nil_r.
    rewrite bool_decide_false; [done|]. change (pushed (mkProd v PIdle log)) with (pushed (mkProd pv (PHead x (Z.of_nat (n_pub m) `mod` N)) log)).
    rewrite Hvh. intros Hlt'. apply (mod_slot_inj N (Z.of_nat i) (Z.of_nat (n_pub m) + 1)); [lia..|done].
  - destruct (slot_write t x pv _) as [[ss v]|] eqn:Hw; injection Hs as <- <- <-; [|by apply refines_silent].
    apply refines_silent; try done. unfold slot_write in Hw. case_bool_decide; [|done].
    destruct (m_slots m !! _); [|done]. case_bool_decide; [|done]. by injection Hw as _ <-.
  - cbn in Hs. injection Hs as <- <- <-. destruct Hp as (_ & Hroom & _).
    exists [CallPush x true]. split; [|by rewrite app_nil_r]. refine (sq_run_one _ _ (Some _) _ _). constructor.
    unfold sq_push, abstract. cbn [prod cons p_view sq_all sq_out sq_prod sq_cons]. rewrite pushed_snoc.
    rewrite bool_decide_true by lia. done.
Qed.

Lemma peek_of_next (s : squeue T) x :
  (sq_out s < sq_cons s)%nat → sq_all s !! sq_out s = Some x → sq_peek s = Some x.
Proof. intros Hlt Hx. unfold sq_peek. by rewrite bool_decide_true. Qed.

(** An answer that takes nothing out of the queue. *)
Lemma abstract_answer m m' p v pc pc' log r u u' :
  match r with GotPop (Some _) => False | _ => True end →
  abstract (mkConf m' p (mkCons v pc (log ++ [r])) u') = abstract (mkConf m p (mkCons v pc' log) u).
Proof.
  intros Hr. unfold abstract, popped, popped_log. cbn [prod cons c_view c_log]. rewrite omap_app.
  destruct r as [[?|]|?]; [done| |]; cbn; by rewrite app_nil_r.
Qed.

(** A call that finds nothing, after the consumer learnt what it knows. *)
Lemma finds_nothing k (s1 s2 : squeue T) :
  sq_step cap s1 None s2 → sq_peek s2 = None →
  sq_run cap s1 [match k with Pop => CallPop None | Peek => CallPeek None end] s2.
Proof.
  intros Hl Hn. eapply (sq_run_app _ _ [] _ [_]); [exact (sq_run_one _ _ _ _ Hl)|]. refine (sq_run_one _ _ (Some _) _ _).
  destruct k; [constructor; unfold sq_pop; by rewrite Hn|rewrite <- Hn at 1; constructor].
Qed.

Lemma consumer_refines i c c' :
  conf_inv N c → spsc_step N (ConsumerStep i) c = Some c' → refines c c'.
Proof using HN.
  destruct c as [m p [cv pc log] u]. intros Hi. cbn [spsc_step].
  destruct (pop_step N i _ _) as [[[m' k'] ok]|] eqn:Hs; [|done]. intros [= <-]. cbn [mem prod cons ub] in *.
  pose proof (ci_mem N _ Hi) as Hm. pose proof (ci_cpc N _ Hi) as Hp. pose proof (ci_rel N _ Hi) as Hr.
  cbn [mem prod cons ub c_view c_pc c_log] in *.
  pose proof (cap_pos N HN). pose proof (i_order N _ _ _ _ Hm) as [Ho1 Ho2]. pose proof (i_count N _ _ _ _ Hm) as Hcnt.
  pose proof (i_room N _ _ _ _ Hm). unfold pop_step in Hs. cbn [c_pc c_view c_log] in Hs.
  destruct pc as [|k|k h|k h|x h]; [done| | | |].
  - destruct (atomic_load relaxed Head i cv _) as [[t v]|] eqn:Hl; [|done]. injection Hs as <- <- <-.
    apply load_own_index in Hl as (_ & _ & Hv); [|apply (i_cown N _ _ _ _ Hm)|done]. cbn in Hv. subst v. by apply refines_silent.
  - destruct (atomic_load acquire Tail i cv _) as [[t v]|] eqn:Hl; [|done]. cbn [mbind option_bind] in Hs.
    apply load_acquire in Hl as (mv & Hge & Hh & Hv). cbn in Hge, Hh, Hv.
    destruct (i_tmsg N _ _ _ _ Hm _ _ _ Hh) as (-> & Hti & _). pose proof (lookup_lt_Some _ _ _ Hh) as Hlt.
    rewrite (i_tlen N _ _ _ _ Hm) in Hlt. assert (Hvt : v_tail v = i) by (subst v; cbn; rewrite Hti; lia).
    assert (Hlearn : ∀ pc', sq_step cap (abstract (mkConf m p (mkCons cv (CTail k h) log) u)) None
      (abstract (mkConf m p (mkCons v pc' log) u))).
    { intros pc'. unfold abstract. cbn [prod cons c_view c_log]. rewrite Hvt.
      refine (sq_learn_cons _ (mkSq _ _ _ _) i _). cbn. lia. }
    case_bool_decide as Hf; injection Hs as <- <- <-.
    2: { exists []. rewrite !app_nil_r. split; [exact (sq_run_one _ _ _ _ (Hlearn _))|done]. }
    assert (Hnone : sq_peek (abstract (mkConf m p (mkCons v CIdle log) u)) = None).
    { unfold sq_peek, abstract. cbn [prod cons c_view c_log sq_out sq_cons]. rewrite bool_decide_false; [done|].
      change (popped (mkCons v CIdle log)) with (popped (mkCons cv (CTail k h) log)). rewrite Hvt, Hr. intros Hlt'.
      apply (mod_slot_inj N (Z.of_nat (n_rel m)) (Z.of_nat i)); [lia..|]. cbn in Hp. congruence. }
    exists [match k with Pop => CallPop None | Peek => CallPeek None end]. split; [|split; destruct k; by rewrite ?app_nil_r].
    rewrite (abstract_answer m m p v CIdle CIdle log _ u) by (by destruct k). exact (finds_nothing k _ _ (Hlearn CIdle) Hnone).
  - destruct (slot_read h cv _) as [[[x ss] v]|] eqn:Hread; [|injection Hs as <- <- <-; by apply refines_silent].
    destruct Hp as [-> Hlt]. unfold slot_read in Hread. rewrite bool_decide_true in Hread by (apply Z.mod_pos_bound; lia).
    fold (slot_of N (n_rel m)) in Hread. destruct (read_race_free N HN _ _ _ _ Hm Hlt) as (sl & Hsl & Hwr & Hq).
    rewrite Hsl, bool_decide_true in Hread by done. injection Hread as <- <- <-.
    destruct k; injection Hs as <- <- <-; [by apply refines_silent|].
    exists [CallPeek (Some (s_val sl))]. split; [|by rewrite app_nil_r].
    rewrite (abstract_answer m _ p _ CIdle CIdle log _ u) by done. match goal with |- sq_run _ ?a _ _ => rewrite <- (peek_of_next a (s_val sl)) end.
    + refine (sq_run_one _ _ (Some _) _ _). constructor.
    + cbn [abstract sq_out sq_cons prod cons c_view]. rewrite Hr. lia.
    + cbn [abstract sq_out sq_all prod cons]. by rewrite Hr.
  - cbn in Hs. injection Hs as <- <- <-. destruct Hp as (_ & Hlt & Hq).
    exists [CallPop (Some x)]. split; [|by rewrite app_nil_r]. refine (sq_run_one _ _ (Some _) _ _). constructor.
    unfold sq_pop. rewrite (peek_of_next _ x); [|cbn [abstract sq_out sq_cons prod cons c_view]; rewrite Hr; lia|cbn [abstract sq_out sq_all prod cons]; by rewrite Hr].
    unfold abstract. cbn [prod cons c_view c_log sq_all sq_out sq_prod sq_cons]. unfold popped. cbn [c_log].
    rewrite length_popped_snoc. do 2 f_equal. lia.
Qed.

Lemma spsc_step_refines l c c' : conf_inv N c → spsc_step N l c = Some c' → refines c c'.
Proof using HN.
  intros Hi Hs. destruct l as [x|i|k|i]; [|by eapply producer_refines| |by eapply consumer_refines]; cbn in Hs.
  - destruct (p_pc (prod c)); [|done..]. injection Hs as <-. by apply refines_silent.
  - destruct (c_pc (cons c)); [|done..]. injection Hs as <-. by apply refines_silent.
Qed.

Lemma spsc_run_refines ls : ∀ c c', conf_inv N c → spsc_run N ls c = Some c' → refines c c'.
Proof using HN.
  induction ls as [|l ls IH]; intros c c' Hi; cbn.
  - intros [= <-]. by apply refines_silent.
  - destruct (spsc_step N l c) as [c1|] eqn:Hs; [|done]. intros Hr.
    destruct (spsc_step_refines l c c1 Hi Hs) as (cs1 & R1 & P1 & C1).
    destruct (IH c1 c' (conf_inv_step N HN l c c1 Hi Hs) Hr) as (cs2 & R2 & P2 & C2).
    exists (cs1 ++ cs2). split; [by eapply sq_run_app|]. unfold pushes, replies in *.
    rewrite P2, P1, C2, C1, !omap_app, !app_assoc. done.
Qed.
End Refinement.

(** ** What the specification says *)

Section Meaning.
Context {T : Type} (cap : nat).
Implicit Types s : squeue T.

Lemma length_items s : sq_ok cap s → length (sq_items s) = (length (sq_all s) - sq_out s)%nat.
Proof. intros []. unfold sq_items. by rewrite length_drop. Qed.

Lemma sq_step_ok s o s' : sq_ok cap s → sq_step cap s o s' → sq_ok cap s'.
Proof.
  intros [] Hs. destruct Hs as [s k Hk|s k Hk|s x b s' Hp|s o s' Hp|s]; [split; cbn; lia|split; cbn; lia| | |done].
  - unfold sq_push in Hp. case_bool_decide; injection Hp as <- <-; [|done]. split; cbn; rewrite ?length_app; cbn; lia.
  - unfold sq_pop, sq_peek in Hp. case_bool_decide; [|by injection Hp as <- <-].
    destruct (sq_all s !! sq_out s) eqn:Hx; injection Hp as <- <-; [|done]. apply lookup_lt_Some in Hx. split; cbn; lia.
Qed.

Lemma sq_run_ok s cs s' : sq_ok cap s → sq_run cap s cs s' → sq_ok cap s'.
Proof. intros Hs Hr. induction Hr as [|s1 o s2 cs s3 H1 _ IH]; [done|]. by eapply IH, sq_step_ok. Qed.

Lemma sq_push_items s x :
  sq_ok cap s →
  let r := sq_push cap x s in
  (r.1 = true → q_push (Z.of_nat cap) x (sq_items s) = (true, sq_items r.2)) ∧
  (r.1 = false → r.2 = s) ∧
  (sq_prod s = sq_out s → q_push (Z.of_nat cap) x (sq_items s) = (r.1, sq_items r.2)).
Proof.
  intros Hs. pose proof (length_items s Hs) as Hl. destruct Hs. unfold sq_push, q_push, q_full.
  case_bool_decide as Hc; cbn [fst snd].
  - rewrite bool_decide_false by lia. unfold sq_items. cbn [sq_out sq_all]. rewrite drop_app_le by lia. done.
  - split_and!; [done|done|]. intros He. by rewrite bool_decide_true by lia.
Qed.

Lemma sq_pop_items s :
  sq_ok cap s →
  let r := sq_pop s in
  (r.1 ≠ None → q_pop (sq_items s) = (r.1, sq_items r.2)) ∧
  (r.1 = None → r.2 = s) ∧
  (sq_cons s = length (sq_all s) → q_pop (sq_items s) = (r.1, sq_items r.2)).
Proof.
  intros Hs. destruct Hs. unfold sq_pop, sq_peek, q_pop, sq_items. case_bool_decide as Hc; cbn [fst snd].
  - destruct (lookup_lt_is_Some_2 (sq_all s) (sq_out s)) as [x Hx]; [lia|]. rewrite Hx, (drop_S _ _ _ Hx). done.
  - split_and!; [done|done|]. intros He. rewrite drop_ge by lia. done.
Qed.
End Meaning.

(** ** Properties *)

(** C16: the concurrent ring is a bounded FIFO queue whose two threads know
    of each other with a delay, and nothing worse.  Every execution of the
    two threads, one memory access at a time and with any stale values the
    memory model lets the loads return, is an execution of the abstract
    queue with the same results: each [push] is accepted or refused, and
    each [pop] and [peek] answered, exactly as the queue does from what the
    calling thread has learnt of the other; what was learnt never goes
    back, so after a [pop] that saw [k] items the next [k] pops succeed. *)
Theorem spsc_refines_stale_queue {T} (N : Z) (zero : T) (ls : list (label T)) (c : conf T) :
  capacity_ok N = true → spsc_run N ls (spsc_init N zero) = Some c →
  ∃ cs, sq_run (Z.to_nat (N - 1)) sq_empty cs (abstract c) ∧ sq_ok (Z.to_nat (N - 1)) (abstract c) ∧
    pushes cs = p_log (prod c) ∧ replies cs = c_log (cons c) ∧
    sq_all (abstract c) = pushed (prod c) ∧ sq_out (abstract c) = length (popped (cons c)).
Proof.
  intros HN Hr. pose proof (conf_inv_init N HN zero) as Hi.
  destruct (spsc_run_refines N HN ls _ c Hi Hr) as (cs & R & P & C). exists cs.
  split; [exact R|]. split; [|by rewrite P, C].
  eapply sq_run_ok; [|exact R]. by apply (abstract_ok N HN).
Qed.

Lemma spsc_refines_stale_queue_witness :
  ∃ cs, sq_run 3 sq_empty cs (abstract demo_conf) ∧
    pushes cs = [(10, true); (11, true); (12, true); (13, false); (14, true)] ∧
    replies cs = [GotPop None; GotPeek (Some 10); GotPop (Some 10)].
Proof.
  destruct (spsc_refines_stale_queue 4 0 demo_schedule demo_conf) as (cs & Hr & _ & Hp & Hc & _).
  - reflexivity.
  - vm_compute. reflexivity.
  - exists cs. split; [exact Hr|]. split; [exact Hp|exact Hc].
Defined.

(** What the two threads may count on.  In every state the abstract
    queue can reach, an accepted [push] and a successful [pop] do what the
    bounded queue of Queue does to the items waiting; a refused [push] and a
    [pop] that finds nothing change nothing; and a thread that knows all
    the other did gets the bounded queue's answer: only a full queue is
    refused and only an empty one gives nothing.  These are the pushes and
    pops of the event ring in Pipeline, with [step_push_stale] and
    [step_pop_stale] for a thread that does not know yet. *)
Theorem stale_queue_is_bounded_queue {T} (N : Z) (zero : T) (ls : list (label T)) (c : conf T) (x : T) :
  capacity_ok N = true → spsc_run N ls (spsc_init N zero) = Some c →
  let s := abstract c in
  let pushing := sq_push (Z.to_nat (N - 1)) x s in
  let popping := sq_pop s in
  Z.of_nat (length (sq_items s)) ≤ N - 1 ∧
  (pushing.1 = true → q_push (N - 1) x (sq_items s) = (true, sq_items pushing.2)) ∧
  (pushing.1 = false → pushing.2 = s) ∧
  (sq_prod s = sq_out s → q_push (N - 1) x (sq_items s) = (pushing.1, sq_items pushing.2)) ∧
  (popping.1 ≠ None → q_pop (sq_items s) = (popping.1, sq_items popping.2)) ∧
  (popping.1 = None → popping.2 = s) ∧
  (sq_cons s = length (sq_all s) → q_pop (sq_items s) = (popping.1, sq_items popping.2)).
Proof.
  intros HN Hr. pose proof (cap_pos N HN) as Hcap.
  pose proof (abstract_ok N HN c (reachable_inv N HN zero c (run_reachable N zero ls c Hr))) as Hs. cbv zeta.
  destruct (sq_push_items _ (abstract c) x Hs) as (P1 & P2 & P3). destruct (sq_pop_items _ (abstract c) Hs) as (O1 & O2 & O3).
  rewrite Z2Nat.id in P1, P3 by lia. split_and!; try done.
  rewrite (length_items _ _ Hs). destruct Hs. lia.
Qed.

(** Items 11, 12 and 14 wait; the producer does not know yet that 10 was
    taken. *)
Lemma stale_queue_is_bounded_queue_witness :
  sq_items (abstract demo_conf) = [11; 12; 14] ∧ q_pop (sq_items (abstract demo_conf)) = (Some 11, [12; 14]) ∧
  Z.of_nat (length (sq_items (abstract demo_conf))) ≤ 3.
Proof.
  destruct (stale_queue_is_bounded_queue 4 0 demo_schedule demo_conf 15) as (Hl & _).
  - reflexivity.
  - vm_compute. reflexivity.
  - split; [reflexivity|]. split; [reflexivity|exact Hl].
Defined.
