(* ===== verification/FeedEvent.v ===== *)
(** * FeedEvent: the record that travels through the ring

    Model of [include/ultrafast/feed_event.hpp]: the fields at their widths,
    the value-initialised object, and the object representation on a
    little-endian machine, which is what crosses the process boundary. *)

From S2P Require Import Prelude.

(** ** Data *)

Definition kMaxPayload : Z := 64.

Record FeedEvent : Type := mkEvent {
  inject_ns : Z;      (* uint64_t *)
  receive_ns : Z;     (* uint64_t *)
  src_ip : Z;         (* uint32_t, network byte order *)
  src_port : Z;       (* uint16_t, host byte order *)
  dst_port : Z;       (* uint16_t, host byte order *)
  ev_payload_len : Z;    (* uint16_t *)
  pad_ : list Z;      (* uint8_t[6] *)
  ev_payload : list Z;   (* uint8_t[64] *)
}.

#[export] Instance FeedEvent_eq_dec : EqDecision FeedEvent.
Proof. solve_decision. Defined.

(** [FeedEvent ev{}]. *)
Definition event_zero : FeedEvent :=
  mkEvent 0 0 0 0 0 0 (replicate 6 0) (replicate (Z.to_nat kMaxPayload) 0).

(** Every field is a value of its C++ type. *)
Record event_typed (ev : FeedEvent) : Prop := {
  et_inject : in_width 64 (inject_ns ev);
  et_receive : in_width 64 (receive_ns ev);
  et_src_ip : in_width 32 (src_ip ev);
  et_src_port : in_width 16 (src_port ev);
  et_dst_port : in_width 16 (dst_port ev);
  et_plen : in_width 16 (ev_payload_len ev);
  et_pad : length (pad_ ev) = 6%nat ∧ Forall is_byte (pad_ ev);
  et_payload : length (ev_payload ev) = Z.to_nat kMaxPayload ∧ Forall is_byte (ev_payload ev);
}.

(** ** Object representation *)

(** The members in declaration order; every member is aligned where the
    previous one ends and the size is a multiple of 8, so the compiler adds
    no padding of its own. *)
Definition event_bytes (ev : FeedEvent) : list Z :=
  le_bytes 8 (inject_ns ev) ++ le_bytes 8 (receive_ns ev) ++ le_bytes 4 (src_ip ev) ++
  le_bytes 2 (src_port ev) ++ le_bytes 2 (dst_port ev) ++ le_bytes 2 (ev_payload_len ev) ++
  pad_ ev ++ ev_payload ev.

Definition field_at (bs : list Z) (off n : nat) : list Z := take n (drop off bs).

Definition event_of_bytes (bs : list Z) : FeedEvent :=
  mkEvent (le_value (field_at bs 0 8)) (le_value (field_at bs 8 8)) (le_value (field_at bs 16 4))
          (le_value (field_at bs 20 2)) (le_value (field_at bs 22 2)) (le_value (field_at bs 24 2))
          (field_at bs 26 6) (field_at bs 32 64).

(** ** Lemmas *)

Lemma event_zero_typed : event_typed event_zero.
Proof.
  split; cbn; try (unfold in_width; lia); (split; [done|]);
  by apply (bool_decide_unpack _).
Qed.

Lemma le_roundtrip n w z : w = 8 * Z.of_nat n → in_width w z → le_value (le_bytes n z) = z.
Proof.
  intros -> Hz. rewrite le_value_le_bytes. apply Z.mod_small.
  unfold in_width in Hz. by rewrite Z.pow_mul_r in Hz by lia.
Qed.

Lemma field_at_here f post n : length f = n → field_at (f ++ post) 0 n = f.
Proof. intros <-. unfold field_at. by rewrite drop_0, take_app_length. Qed.

Lemma field_at_skip f post off n k :
  length f = k → (k ≤ off)%nat → field_at (f ++ post) off n = field_at post (off - k) n.
Proof. intros <- H. unfold field_at. by rewrite drop_app_ge. Qed.

(** ** Properties *)

(** The object representation of a [FeedEvent] is 96 bytes with no
    hidden padding, so 65536 of them are exactly 6 MiB, and a consumer that
    maps the same layout reads every field back unchanged. *)
Theorem event_layout_roundtrip (ev : FeedEvent) :
  event_typed ev →
  length (event_bytes ev) = 96%nat ∧ Forall is_byte (event_bytes ev) ∧
  event_of_bytes (event_bytes ev) = ev.
Proof.
  intros [Hi Hr Hs Hp Hd Hl [Hpl Hpb] [Hyl Hyb]]. split_and!.
  - unfold event_bytes. simp_len. rewrite Hpl, Hyl. done.
  - unfold event_bytes. repeat (apply Forall_app_2; auto with uf).
  - destruct ev as [f1 f2 f3 f4 f5 f6 f7 f8]. unfold event_of_bytes, event_bytes.
    cbn [inject_ns receive_ns src_ip src_port dst_port ev_payload_len pad_ ev_payload] in *.
    rewrite <- (app_nil_r f8). f_equal.
    all: do 7 (try (erewrite field_at_skip by (rewrite ?length_le_bytes; first [exact Hpl|reflexivity|lia]);
                cbn [Nat.sub])).
    all: rewrite field_at_here by (rewrite ?length_le_bytes; done).
    all: rewrite ?app_nil_r; first [done|eapply le_roundtrip; [|eassumption]; done].
Qed.

(** An event of the sender's shape: a timestamp and 56 filler bytes. *)
Definition sample_event : FeedEvent :=
  mkEvent 81985529216486895 81985529216490000 16780042 40000 9999 64 (replicate 6 0)
          (le_bytes 8 81985529216486895 ++ replicate 56 171).

Lemma event_layout_roundtrip_witness :
  length (event_bytes sample_event) = 96%nat ∧ Forall is_byte (event_bytes sample_event) ∧
  event_of_bytes (event_bytes sample_event) = sample_event.
Proof.
  apply (event_layout_roundtrip sample_event).
  split; try (apply (bool_decide_unpack _); vm_compute; reflexivity).
Defined.
