(* ===== verification/Packet.v ===== *)
(** * Packet: the zero-copy view of a received frame

    Model of [include/ultrafast/packet.hpp].  A packet is an address and a
    length inside a memory object (the UMEM region); header fields are read
    from that memory at their packed offsets, and a read that leaves the
    object is undefined behaviour.  A returned pointer is [option Z], with
    [None] for [nullptr]. *)

From S2P Require Import Prelude.

(** ** Wire-format structs *)

(** A packed struct: its members with their sizes, in order. *)
Definition layout : Type := list (string * Z).

Fixpoint sizeof (fs : layout) : Z :=
  match fs with [] => 0 | (_, n) :: fs => n + sizeof fs end.

Fixpoint offsetof (fs : layout) (f : string) : Z :=
  match fs with
  | [] => 0
  | (g, n) :: fs => if String.eqb f g then 0 else n + offsetof fs f
  end.

Fixpoint widthof (fs : layout) (f : string) : Z :=
  match fs with
  | [] => 0
  | (g, n) :: fs => if String.eqb f g then n else widthof fs f
  end.

Definition EthHeader : layout :=
  [("dst_mac", 6); ("src_mac", 6); ("ether_type", 2)]%string.

Definition IpHeader : layout :=
  [("version_ihl", 1); ("dscp_ecn", 1); ("total_length", 2); ("identification", 2);
   ("flags_fragment", 2); ("ttl", 1); ("protocol", 1); ("checksum", 2);
   ("src_ip", 4); ("dst_ip", 4)]%string.

Definition UdpHeader : layout :=
  [("src_port", 2); ("dst_port", 2); ("length", 2); ("checksum", 2)]%string.

(** [p->f] for an unsigned member of a packed struct at address [p]: a
    native (little-endian) load. *)
Definition member (fs : layout) (f : string) (mem : list Z) (p : Z) : outcome Z :=
  bs ← deref (load mem (p + offsetof fs f) (widthof fs f));
  Ret (le_value bs).

(** ** The view *)

Record Packet : Type := mkPacket {
  data : Z;   (* const uint8_t*: an address inside the region *)
  len : Z;    (* std::size_t *)
}.

Section Accessors.
Variable mem : list Z.

Definition eth (p : Packet) : option Z :=
  if bool_decide (len p < sizeof EthHeader) then None else Some (data p).

Definition ip (p : Packet) : option Z :=
  if bool_decide (len p < sizeof EthHeader + sizeof IpHeader) then None
  else Some (data p + sizeof EthHeader).

Definition udp (p : Packet) : outcome (option Z) :=
  match ip p with
  | None => Ret None
  | Some ip_hdr =>
      protocol ← member IpHeader "protocol" mem ip_hdr;
      if bool_decide (protocol ≠ 17) then Ret None
      else
        version_ihl ← member IpHeader "version_ihl" mem ip_hdr;
        let ip_hlen := Z.land version_ihl 15 * 4 in
        let udp_off := sizeof EthHeader + ip_hlen in
        if bool_decide (len p < udp_off + sizeof UdpHeader) then Ret None
        else Ret (Some (data p + udp_off))
  end.

Definition payload (p : Packet) : outcome (option Z) :=
  udp_hdr ← udp p;
  match udp_hdr with
  | None => Ret None
  | Some _ =>
      ip_hdr ← deref (ip p);
      version_ihl ← member IpHeader "version_ihl" mem ip_hdr;
      let ip_hlen := Z.land version_ihl 15 * 4 in
      Ret (Some (data p + sizeof EthHeader + ip_hlen + sizeof UdpHeader))
  end.

Definition payload_len (p : Packet) : outcome Z :=
  udp_hdr ← udp p;
  match udp_hdr with
  | None => Ret 0
  | Some u =>
      length ← member UdpHeader "length" mem u;
      let udp_total := ntohs length in
      if bool_decide (udp_total < sizeof UdpHeader) then Ret 0
      else Ret (udp_total - sizeof UdpHeader)
  end.

Definition is_udp (p : Packet) : outcome bool :=
  u ← udp p; Ret (bool_decide (u ≠ None)).

Definition is_ipv4 (p : Packet) : bool := bool_decide (ip p ≠ None).

Definition ether_type_host (p : Packet) : outcome Z :=
  match eth p with
  | None => Ret 0
  | Some e => t ← member EthHeader "ether_type" mem e; Ret (ntohs t)
  end.

End Accessors.

(** ** Reference frames *)

(** The packet lies inside the memory object. *)
Definition in_region (mem : list Z) (p : Packet) : Prop :=
  0 ≤ data p ∧ 0 ≤ len p ∧ data p + len p ≤ Z.of_nat (length mem).

(** A frame as a sender puts it on the wire: Ethernet II, IPv4 with any
    number of option words, UDP, payload; multi-byte fields big-endian. *)
Record udp_frame : Type := mkFrame {
  fr_dst_mac : list Z; fr_src_mac : list Z; fr_ether_type : Z;
  fr_dscp : Z; fr_id : Z; fr_flags : Z; fr_ttl : Z; fr_ipsum : Z;
  fr_src_ip : list Z; fr_dst_ip : list Z; fr_options : list Z;
  fr_src_port : Z; fr_dst_port : Z; fr_udpsum : Z;
  fr_payload : list Z;
}.

(** Length of the IPv4 header in 32-bit words. *)
Definition fr_ihl (f : udp_frame) : Z := 5 + Z.of_nat (length (fr_options f)) / 4.

Definition frame_bytes (f : udp_frame) : list Z :=
  let n := Z.of_nat (length (fr_payload f)) in
  fr_dst_mac f ++ fr_src_mac f ++ be_bytes 2 (fr_ether_type f) ++
  [64 + fr_ihl f] ++ [fr_dscp f] ++ be_bytes 2 (4 * fr_ihl f + 8 + n) ++ be_bytes 2 (fr_id f) ++
  be_bytes 2 (fr_flags f) ++ [fr_ttl f] ++ [17] ++ be_bytes 2 (fr_ipsum f) ++
  fr_src_ip f ++ fr_dst_ip f ++ fr_options f ++
  be_bytes 2 (fr_src_port f) ++ be_bytes 2 (fr_dst_port f) ++ be_bytes 2 (8 + n) ++
  be_bytes 2 (fr_udpsum f) ++ fr_payload f.

Record frame_wf (f : udp_frame) : Prop := {
  fw_dst_mac : length (fr_dst_mac f) = 6%nat;
  fw_src_mac : length (fr_src_mac f) = 6%nat;
  fw_src_ip : length (fr_src_ip f) = 4%nat;
  fw_dst_ip : length (fr_dst_ip f) = 4%nat;
  fw_options : (∃ k, length (fr_options f) = 4 * k ∧ k ≤ 10)%nat;
  fw_ports : in_width 16 (fr_src_port f) ∧ in_width 16 (fr_dst_port f);
  fw_payload : Z.of_nat (length (fr_payload f)) < 65536 - 8;
}.

(** ** Lemmas *)

Lemma member_in_bounds fs f mem p :
  0 ≤ p + offsetof fs f → 0 ≤ widthof fs f →
  p + offsetof fs f + widthof fs f ≤ Z.of_nat (length mem) →
  ∃ bs, load mem (p + offsetof fs f) (widthof fs f) = Some bs ∧
        member fs f mem p = Ret (le_value bs).
Proof.
  intros. destruct (proj2 (load_is_Some mem (p + offsetof fs f) (widthof fs f))) as [bs Hbs]; [lia|].
  exists bs. unfold member. by rewrite Hbs.
Qed.

Lemma land15 v : 0 ≤ Z.land v 15 ≤ 15.
Proof.
  change 15 with (2 ^ 4 - 1) at 1 2. rewrite land_mask by lia.
  pose proof (Z.mod_pos_bound v (2 ^ 4)). lia.
Qed.

(** What [udp] finds in a frame inside the region: either nothing, or the
    UDP header right after an IPv4 header of the length the frame states,
    wholly inside the frame. *)
Lemma udp_spec mem p :
  in_region mem p →
  ∃ o, udp mem p = Ret o ∧
    (o = None ∨ ∃ v, member IpHeader "version_ihl" mem (data p + 14) = Ret v ∧
       member IpHeader "protocol" mem (data p + 14) = Ret 17 ∧ 34 ≤ len p ∧
       o = Some (data p + 14 + Z.land v 15 * 4) ∧ 14 + Z.land v 15 * 4 + 8 ≤ len p).
Proof.
  intros (Hd & Hl & Hb). unfold udp, ip. change (sizeof EthHeader) with 14.
  change (sizeof IpHeader) with 20. change (sizeof UdpHeader) with 8.
  case_bool_decide as Hshort; [by exists None; auto|].
  destruct (member_in_bounds IpHeader "protocol" mem (data p + 14)) as (bs & _ & Hp); [cbn; lia..|].
  destruct (member_in_bounds IpHeader "version_ihl" mem (data p + 14)) as (bs' & _ & Hv); [cbn; lia..|].
  rewrite Hp, Hv. ub_step. case_bool_decide as H17; [by exists None; auto|].
  case_bool_decide as Hlen; [by exists None; auto|]. eexists; split; [done|]. right.
  exists (le_value bs'). split_and!; [done| |lia|f_equal; lia|lia].
  f_equal. destruct (decide (le_value bs = 17)); [done|]. by destruct H17.
Qed.

Lemma payload_at mem p u a :
  in_region mem p → udp mem p = Ret (Some u) → payload mem p = Ret (Some a) →
  a = u + 8 ∧ data p + 14 ≤ u ∧ u + 8 ≤ data p + len p.
Proof.
  intros Hin Hu Ha. destruct (udp_spec mem p Hin) as (o & Hu' & Hcase).
  rewrite Hu in Hu'. injection Hu' as <-.
  destruct Hcase as [|(v & Hv & _ & H34 & [= ->] & Hle)]; [done|]. pose proof (land15 v).
  revert Ha. unfold payload. rewrite Hu. ub_step. unfold ip. rewrite bool_decide_false by (cbn; lia).
  ub_step. change (sizeof EthHeader) with 14. rewrite Hv. ub_step. intros [= <-]. cbn. lia.
Qed.

(** ** Parsing a built frame *)

Lemma fr_ihl_options f :
  frame_wf f → 4 * fr_ihl f = 20 + Z.of_nat (length (fr_options f)) ∧ 5 ≤ fr_ihl f ≤ 15.
Proof.
  intros Hf. destruct (fw_options f Hf) as (k & Hk & Hle). unfold fr_ihl. rewrite Hk.
  replace (Z.of_nat (4 * k)) with (Z.of_nat k * 4) by lia. rewrite Z.div_mul by lia. lia.
Qed.

Lemma length_frame_bytes f :
  frame_wf f →
  Z.of_nat (length (frame_bytes f)) = 14 + 4 * fr_ihl f + 8 + Z.of_nat (length (fr_payload f)).
Proof.
  intros Hf. destruct (fr_ihl_options f Hf). destruct Hf. unfold frame_bytes.
  rewrite !length_app, !length_be_bytes. cbn [length]. lia.
Qed.

Lemma built_ip_hlen f : frame_wf f → Z.land (64 + fr_ihl f) 15 * 4 = 4 * fr_ihl f.
Proof.
  intros Hf. destruct (fr_ihl_options f Hf). change 15 with (2 ^ 4 - 1). rewrite land_mask by lia.
  change 64 with (4 * 2 ^ 4). rewrite Z.add_comm, Z_mod_plus_full, Z.mod_small by lia. lia.
Qed.

Section BuiltFrame.
Context (f : udp_frame) (Hf : frame_wf f) (pre post : list Z) (p : Packet).
Context (Hdata : data p = Z.of_nat (length pre)).
Context (Hlen : Z.of_nat (length (frame_bytes f)) ≤ len p).
#[local] Abbreviation mem := (pre ++ frame_bytes f ++ post).

#[local] Abbreviation udp_at := (data p + 14 + 4 * fr_ihl f).

Ltac built :=
  destruct Hf, (fr_ihl_options f Hf); unfold member, frame_bytes;
  rewrite <- !app_assoc; cbn [offsetof widthof IpHeader UdpHeader String.eqb Ascii.eqb Bool.eqb];
  load_walk; cbn; try done.

Lemma built_version : member IpHeader "version_ihl" mem (data p + 14) = Ret (64 + fr_ihl f).
Proof using Hf Hdata. built. f_equal. unfold le_value. lia. Qed.

Lemma built_protocol : member IpHeader "protocol" mem (data p + 14) = Ret 17.
Proof using Hf Hdata. built. Qed.

Lemma built_src_ip : member IpHeader "src_ip" mem (data p + 14) = Ret (le_value (fr_src_ip f)).
Proof using Hf Hdata. built. Qed.

Lemma built_src_port :
  member UdpHeader "src_port" mem udp_at = Ret (le_value (be_bytes 2 (fr_src_port f))).
Proof using Hf Hdata. built. Qed.

Lemma built_dst_port :
  member UdpHeader "dst_port" mem udp_at = Ret (le_value (be_bytes 2 (fr_dst_port f))).
Proof using Hf Hdata. built. Qed.

Lemma built_length :
  member UdpHeader "length" mem udp_at =
  Ret (le_value (be_bytes 2 (8 + Z.of_nat (length (fr_payload f))))).
Proof using Hf Hdata. built. Qed.

Lemma built_payload_load :
  load mem (udp_at + 8) (Z.of_nat (length (fr_payload f))) = Some (fr_payload f).
Proof using Hf Hdata. built. Qed.

Lemma built_ip : ip p = Some (data p + 14).
Proof using Hf Hdata Hlen.
  destruct (fr_ihl_options f Hf). pose proof (length_frame_bytes f Hf).
  unfold ip. by rewrite bool_decide_false by (cbn; lia).
Qed.

Lemma built_udp : udp mem p = Ret (Some udp_at).
Proof using Hf Hdata Hlen.
  pose proof (length_frame_bytes f Hf). unfold udp. rewrite built_ip, built_protocol. ub_step.
  rewrite bool_decide_false by auto. rewrite built_version. ub_step. rewrite built_ip_hlen by done.
  rewrite bool_decide_false by (cbn; lia). do 2 f_equal. cbn. lia.
Qed.

Lemma built_payload : payload mem p = Ret (Some (udp_at + 8)).
Proof using Hf Hdata Hlen.
  unfold payload. rewrite built_udp. ub_step. rewrite built_ip. ub_step.
  rewrite built_version. ub_step. rewrite built_ip_hlen by done. do 2 f_equal.
Qed.

Lemma built_payload_len : payload_len mem p = Ret (Z.of_nat (length (fr_payload f))).
Proof using Hf Hdata Hlen.
  pose proof (fw_payload f Hf). unfold payload_len. rewrite built_udp. ub_step.
  rewrite built_length. ub_step. rewrite ntohs_be by (unfold in_width; lia).
  rewrite bool_decide_false by (cbn; lia). f_equal. cbn. lia.
Qed.
End BuiltFrame.

(** ** Properties *)

(** C8: on any frame that lies in the region, however short or malformed,
    no accessor of [Packet] reads outside the region, and every non-null
    result stays in the frame: the Ethernet, IPv4 and UDP headers they point
    to end inside it and the payload pointer is at most one past its last
    byte. *)
Theorem accessors_stay_in_frame (mem : list Z) (p : Packet) :
  in_region mem p →
  (∀ a, eth p = Some a → data p ≤ a ∧ a + sizeof EthHeader ≤ data p + len p) ∧
  (∀ a, ip p = Some a → data p ≤ a ∧ a + sizeof IpHeader ≤ data p + len p) ∧
  (∃ o, udp mem p = Ret o ∧ ∀ a, o = Some a → data p ≤ a ∧ a + sizeof UdpHeader ≤ data p + len p) ∧
  (∃ o, payload mem p = Ret o ∧ ∀ a, o = Some a → data p ≤ a ≤ data p + len p) ∧
  (∃ n, payload_len mem p = Ret n ∧ 0 ≤ n ≤ 65527) ∧
  (∃ t, ether_type_host mem p = Ret t).
Proof.
  intros Hin. pose proof Hin as (Hd & Hl & Hb). destruct (udp_spec mem p Hin) as (o & Hu & Hcase).
  split_and!.
  - intros a. unfold eth. case_bool_decide; [done|]. intros [= <-]. lia.
  - intros a. unfold ip. case_bool_decide; [done|]. intros [= <-]. cbn in *. lia.
  - exists o. split; [done|]. intros a ->. destruct Hcase as [|(v & _ & _ & _ & [= ->] & Hle)]; [done|].
    pose proof (land15 v). cbn. lia.
  - unfold payload. rewrite Hu. ub_step. destruct Hcase as [->|(v & Hv & _ & H34 & -> & Hle)].
    { by exists None. }
    unfold ip. rewrite bool_decide_false by (cbn; lia). ub_step. change (sizeof EthHeader) with 14. rewrite Hv. ub_step.
    eexists; split; [done|]. intros a [= <-]. pose proof (land15 v). cbn. lia.
  - unfold payload_len. rewrite Hu. ub_step. destruct Hcase as [->|(v & Hv & _ & H34 & -> & Hle)].
    { exists 0. split; [done|lia]. }
    pose proof (land15 v).
    destruct (member_in_bounds UdpHeader "length" mem (data p + 14 + Z.land v 15 * 4)) as (bs & _ & ->); [cbn; lia..|].
    ub_step. pose proof (bswap16_width (le_value bs)) as Hw. unfold in_width in Hw.
    change (bswap16 (le_value bs)) with (ntohs (le_value bs)) in Hw.
    case_bool_decide as H8; eexists; (split; [done|]); cbn in *; lia.
  - unfold ether_type_host, eth. case_bool_decide as Hs; [by eexists|]. cbn in Hs.
    destruct (member_in_bounds EthHeader "ether_type" mem (data p)) as (bs & _ & ->); [cbn; lia..|].
    by eexists.
Qed.

(** Parsing inverts building: in memory that holds a well-formed
    Ethernet/IPv4/UDP frame -- any MAC addresses, any number of IPv4 option
    words, any payload, possibly followed by link padding -- the accessors
    find the UDP header after the options, report the sender's ports and
    source address, and give exactly the payload. *)
Theorem parse_built_frame (f : udp_frame) (pre post : list Z) (n : Z) :
  let mem := pre ++ frame_bytes f ++ post in
  let p := mkPacket (Z.of_nat (length pre)) n in
  frame_wf f → Z.of_nat (length (frame_bytes f)) ≤ n →
  is_udp mem p = Ret true ∧
  ∃ u y, udp mem p = Ret (Some u) ∧ payload mem p = Ret (Some y) ∧
    payload_len mem p = Ret (Z.of_nat (length (fr_payload f))) ∧
    load mem y (Z.of_nat (length (fr_payload f))) = Some (fr_payload f) ∧
    ntohs <$> member UdpHeader "src_port" mem u = Ret (fr_src_port f) ∧
    ntohs <$> member UdpHeader "dst_port" mem u = Ret (fr_dst_port f) ∧
    member IpHeader "src_ip" mem (data p + sizeof EthHeader) = Ret (le_value (fr_src_ip f)).
Proof.
  intros mem p Hf Hn. destruct (fw_ports f Hf).
  pose proof (built_udp f Hf pre post p eq_refl Hn) as Hu. unfold is_udp. fold mem in Hu. rewrite Hu.
  split; [done|]. do 2 eexists. split_and!.
  - done.
  - by apply built_payload.
  - by apply built_payload_len.
  - by apply built_payload_load.
  - unfold mem. rewrite (built_src_port f Hf pre post p eq_refl). cbn. by rewrite ntohs_be.
  - unfold mem. rewrite (built_dst_port f Hf pre post p eq_refl). cbn. by rewrite ntohs_be.
  - by apply built_src_ip.
Qed.

(** A frame with two IPv4 option words and five payload bytes, stored at
    offset 3 and followed by link padding. *)
Definition sample_frame : udp_frame :=
  mkFrame [1; 2; 3; 4; 5; 6] [7; 8; 9; 10; 11; 12] 2048 0 7 16384 64 0
          [10; 11; 0; 1] [10; 11; 0; 2] (replicate 8 1) 40000 9999 0 [1; 2; 3; 4; 5].

Lemma sample_frame_wf : frame_wf sample_frame.
Proof.
  split; try reflexivity; try (unfold in_width; cbn; lia).
  exists 2%nat. cbn. lia.
Qed.

Definition sample_mem : list Z := [0; 0; 0] ++ frame_bytes sample_frame ++ replicate 9 0.
Definition sample_packet : Packet := mkPacket 3 60.

Lemma accessors_stay_in_frame_witness :
  in_region sample_mem sample_packet ∧
  (∃ o, udp sample_mem sample_packet = Ret o ∧
    ∀ a, o = Some a → 3 ≤ a ∧ a + sizeof UdpHeader ≤ 3 + 60).
Proof.
  assert (H : in_region sample_mem sample_packet) by (vm_compute; split_and!; discriminate).
  split; [exact H|]. destruct (accessors_stay_in_frame sample_mem sample_packet H) as (_ & _ & Hu & _).
  exact Hu.
Defined.

Lemma parse_built_frame_witness :
  udp sample_mem sample_packet = Ret (Some 45) ∧
  is_udp sample_mem sample_packet = Ret true.
Proof.
  split; [vm_compute; reflexivity|].
  apply (parse_built_frame sample_frame [0; 0; 0] (replicate 9 0) 60 sample_frame_wf).
  vm_compute. discriminate.
Defined.

(** The payload span [payload()], [payload_len()] of a frame lies inside
    the frame exactly when the UDP length field does not promise more than
    the frame holds after the UDP header: [payload_len] trusts that field
    and never compares it with the frame length. *)
Theorem payload_span_in_frame_iff (mem : list Z) (p : Packet) (u a : Z) :
  in_region mem p → udp mem p = Ret (Some u) → payload mem p = Ret (Some a) →
  ∃ l n, member UdpHeader "length" mem u = Ret l ∧ payload_len mem p = Ret n ∧
    (a + n ≤ data p + len p ↔ ntohs l < sizeof UdpHeader ∨ u + ntohs l ≤ data p + len p).
Proof.
  intros Hin Hu Ha. destruct (payload_at mem p u a Hin Hu Ha) as (-> & Hlo & Hhi).
  destruct Hin as (Hd & Hl & Hb). unfold payload_len. rewrite Hu. ub_step.
  destruct (member_in_bounds UdpHeader "length" mem u) as (bs & _ & ->); [cbn; lia..|].
  ub_step. case_bool_decide as H8; do 2 eexists; (split_and!; [done..|]); cbn in *; lia.
Qed.

Lemma payload_span_in_frame_iff_witness :
  ∃ l n, member UdpHeader "length" sample_mem 45 = Ret l ∧
    payload_len sample_mem sample_packet = Ret n ∧
    (53 + n ≤ 3 + 60 ↔ ntohs l < sizeof UdpHeader ∨ 45 + ntohs l ≤ 3 + 60).
Proof.
  apply (payload_span_in_frame_iff sample_mem sample_packet 45 53).
  - vm_compute. split_and!; discriminate.
  - vm_compute. reflexivity.
  - vm_compute. reflexivity.
Defined.

(** A 42-byte frame -- headers only -- whose UDP length field says 65535. *)
Definition lying_frame : list Z :=
  replicate 12 0 ++ be_bytes 2 2048 ++ [69; 0] ++ replicate 7 0 ++ [17] ++ replicate 10 0 ++
  be_bytes 2 1 ++ be_bytes 2 2 ++ be_bytes 2 65535 ++ be_bytes 2 0.

(** A received frame can make [payload()] and [payload_len()] describe
    bytes that are not in the frame and not even in the region: a 42-byte
    frame at the end of the region with 65535 in its UDP length field is
    reported to carry 65527 payload bytes. *)
Theorem payload_span_can_leave_region :
  let p := mkPacket 0 42 in
  in_region lying_frame p ∧ Forall is_byte lying_frame ∧
  payload lying_frame p = Ret (Some 42) ∧ payload_len lying_frame p = Ret 65527 ∧
  Z.of_nat (length lying_frame) < 42 + 65527.
Proof.
  split_and!; try (vm_compute; reflexivity).
  - vm_compute. split_and!; discriminate.
  - apply (bool_decide_unpack _). vm_compute. reflexivity.
Qed.

(** [ip], [is_ipv4] and [udp] never look at the EtherType: overwriting
    it with any value (IPv6, VLAN, ARP) leaves their results as they were,
    so a non-IPv4 frame with a 17 at the right offset is taken for UDP. *)
Theorem udp_ignores_ether_type (mem : list Z) (p : Packet) (t0 t1 : Z) :
  in_region mem p →
  let mem' := <[Z.to_nat (data p + 12) := t0]> (<[Z.to_nat (data p + 13) := t1]> mem) in
  udp mem' p = udp mem p ∧ is_udp mem' p = is_udp mem p ∧
  is_ipv4 p = bool_decide (34 ≤ len p).
Proof.
  intros (Hd & _) mem'.
  assert (Hm : ∀ f, (f = "protocol" ∨ f = "version_ihl")%string →
    member IpHeader f mem' (data p + 14) = member IpHeader f mem (data p + 14)).
  { intros f Hf. unfold member, mem'.
    rewrite !load_insert_before by (destruct Hf as [-> | ->]; cbn; lia). done. }
  assert (Hu : udp mem' p = udp mem p).
  { unfold udp, ip. change (sizeof EthHeader) with 14. case_bool_decide; [done|].
    rewrite !Hm by auto. done. }
  split_and!; [done|by unfold is_udp; rewrite Hu|].
  unfold is_ipv4, ip. change (sizeof EthHeader + sizeof IpHeader) with 34. apply bool_decide_ext.
  case_bool_decide; split; intros; done || lia.
Qed.

Lemma udp_ignores_ether_type_witness :
  udp (<[15%nat := 8]> (<[16%nat := 6]> sample_mem)) sample_packet = udp sample_mem sample_packet.
Proof.
  apply (udp_ignores_ether_type sample_mem sample_packet 8 6).
  vm_compute. split_and!; discriminate.
Defined.
