(* ===== verification/Xsk.v ===== *)
(** * The libxdp rings and the resource ledger

    libxdp and the kernel are outside the repository.  This file states what
    the code uses of them: the producer ring and the consumer ring of
    [<xdp/xsk.h>] as classes of operations with the documented laws, and the
    ledger of mappings, UMEM handles and sockets that the constructors and
    destructors acquire and release. *)

From S2P Require Import Prelude.

(** ** Descriptors *)

(** [struct xdp_desc] of the RX and TX rings. *)
Record xdp_desc : Type := mkDesc { d_addr : Z; d_len : Z; d_options : Z }.

#[export] Instance xdp_desc_eq_dec : EqDecision xdp_desc.
Proof. solve_decision. Defined.

(** ** Producer rings: the fill ring and the TX ring *)

(** [xsk_ring_prod__reserve] returns the ring after the call, the number of
    reserved slots and the index of the first one (its out parameter);
    [prod_put] is the store through [xsk_ring_prod__fill_addr] or
    [xsk_ring_prod__tx_desc]. *)
Class XskProd (R E : Type) := {
  prod_reserve : R → Z → R * Z * Z;
  prod_put : R → Z → E → R;
  prod_submit : R → Z → R;
  prod_needs_wakeup : R → bool;
}.

(** The documented behaviour, in terms of what the kernel can see: the
    submitted entries not yet consumed, and the slots reserved and not yet
    submitted.  A reservation is granted in full or not at all, indices run
    modulo [2 ^ 32], and entries become visible in order on submit. *)
Class XskProdLaws (R E : Type) `{!XskProd R E} := {
  pr_size : R → Z;
  pr_entries : R → list E;
  pr_open : R → list (option E);
  pr_first : R → Z;
  pr_reserve_ok r n :
    pr_open r = [] → 0 ≤ n < 2 ^ 32 → n + Z.of_nat (length (pr_entries r)) ≤ pr_size r →
    ∃ r' i, prod_reserve r n = (r', n, i) ∧ pr_first r' = i ∧
      pr_open r' = replicate (Z.to_nat n) None ∧
      pr_entries r' = pr_entries r ∧ pr_size r' = pr_size r;
  pr_reserve_full r n :
    pr_open r = [] → 0 ≤ n < 2 ^ 32 → pr_size r < n + Z.of_nat (length (pr_entries r)) →
    ∃ r' i, prod_reserve r n = (r', 0, i) ∧ pr_open r' = [] ∧
      pr_entries r' = pr_entries r ∧ pr_size r' = pr_size r;
  pr_put_open r i e :
    (i < length (pr_open r))%nat → Z.of_nat i < 2 ^ 32 →
    let r' := prod_put r (u32 (pr_first r + Z.of_nat i)) e in
    pr_open r' = <[i := Some e]> (pr_open r) ∧ pr_first r' = pr_first r ∧
    pr_entries r' = pr_entries r ∧ pr_size r' = pr_size r;
  pr_submit_all r es :
    pr_open r = Some <$> es →
    let r' := prod_submit r (Z.of_nat (length es)) in
    pr_entries r' = pr_entries r ++ es ∧ pr_open r' = [] ∧ pr_size r' = pr_size r;
}.

(** ** Consumer rings: the RX ring and the completion ring *)

(** [xsk_ring_cons__peek] likewise returns the count and the first index;
    [cons_get] is the load through [xsk_ring_cons__rx_desc] or
    [xsk_ring_cons__comp_addr]. *)
Class XskCons (R E : Type) := {
  cons_peek : R → Z → R * Z * Z;
  cons_get : R → Z → E;
  cons_release : R → Z → R;
}.

(** A peek returns some of the available entries, at most as many as asked
    for (the library may know of fewer than the kernel has posted) and at
    least one when there are any; release gives the oldest ones back. *)
Class XskConsLaws (R E : Type) `{!XskCons R E} := {
  cr_entries : R → list E;
  cr_taken : R → nat;
  cr_peek_some r n :
    cr_taken r = 0%nat → 0 ≤ n < 2 ^ 32 →
    ∃ r' k i, cons_peek r n = (r', Z.of_nat k, i) ∧
      Z.of_nat k ≤ n ∧ (k ≤ length (cr_entries r))%nat ∧
      (cr_entries r ≠ [] → 0 < n → (0 < k)%nat) ∧
      cr_entries r' = cr_entries r ∧ cr_taken r' = k ∧
      ∀ j, (j < k)%nat → cr_entries r !! j = Some (cons_get r' (u32 (i + Z.of_nat j)));
  cr_release_taken r k :
    cr_taken r = k → (0 < k)%nat →
    let r' := cons_release r (Z.of_nat k) in
    cr_entries r' = drop k (cr_entries r) ∧ cr_taken r' = 0%nat;
}.

(** ** Filling the reserved slots *)

(** The loop [for (i = 0; i < n; ++i) *slot(idx + i) = value(i);] shared by
    the three producers of the code; [value i] may itself be an array
    access. *)
Fixpoint fill_slots {R E} `{!XskProd R E} (n : nat) (i idx : Z) (value : Z → outcome E) (r : R)
    : outcome R :=
  match n with
  | O => Ret r
  | S n =>
      e ← value i;
      fill_slots n (i + 1) idx value (prod_put r (u32 (idx + i)) e)
  end.

(** ** The ledger *)

(** What the process holds: mapped regions with their sizes, UMEM handles
    with the region each was created on, sockets with the UMEM each uses. *)
Record world : Type := mkWorld {
  w_maps : gmap Z Z;
  w_umems : gmap Z Z;
  w_socks : gmap Z Z;
}.

(** [munmap]: the region must be mapped with this size, and no UMEM may
    still be registered on it. *)
Definition sys_munmap (a sz : Z) (w : world) : outcome world :=
  if bool_decide (w_maps w !! a = Some sz ∧ map_Forall (λ _ b, b ≠ a) (w_umems w))
  then Ret (mkWorld (delete a (w_maps w)) (w_umems w) (w_socks w))
  else Undef.

(** [xsk_umem__delete]: the handle must be live; a UMEM still used by a
    socket is not deleted (the call reports [-EBUSY]). *)
Definition xsk_umem_delete (h : Z) (w : world) : outcome world :=
  if bool_decide (is_Some (w_umems w !! h)) then
    if bool_decide (map_Forall (λ _ h', h' ≠ h) (w_socks w))
    then Ret (mkWorld (w_maps w) (delete h (w_umems w)) (w_socks w))
    else Ret w
  else Undef.

(** [xsk_socket__delete]. *)
Definition xsk_socket_delete (s : Z) (w : world) : outcome world :=
  if bool_decide (is_Some (w_socks w !! s))
  then Ret (mkWorld (w_maps w) (w_umems w) (delete s (w_socks w)))
  else Undef.

(** ** Lemmas *)

Section Fill.
Context {R E : Type} `{!XskProd R E, !XskProdLaws R E}.

Lemma fill_slots_spec (es pre : list E) (value : Z → outcome E) (r : R) :
  Z.of_nat (length pre + length es) ≤ 2 ^ 32 →
  pr_open r = (Some <$> pre) ++ replicate (length es) None →
  (∀ j e, es !! j = Some e → value (Z.of_nat (length pre + j)) = Ret e) →
  ∃ r', fill_slots (length es) (Z.of_nat (length pre)) (pr_first r) value r = Ret r' ∧
    pr_open r' = Some <$> (pre ++ es) ∧ pr_entries r' = pr_entries r ∧ pr_size r' = pr_size r.
Proof.
  revert pre r. induction es as [|e es IH]; intros pre r Hlen Hopen Hval; cbn.
  - exists r. rewrite app_nil_r. cbn in Hopen. by rewrite app_nil_r in Hopen.
  - pose proof (Hval 0%nat e eq_refl) as Hv. rewrite Nat.add_0_r in Hv. rewrite Hv. ub_step.
    destruct (pr_put_open r (length pre) e) as (Ho & Hf & He & Hs).
    { rewrite Hopen, length_app, length_fmap, length_replicate. cbn. lia. }
    { cbn in Hlen. lia. }
    destruct (IH (pre ++ [e]) (prod_put r (u32 (pr_first r + Z.of_nat (length pre))) e)) as (r' & Hr & Ho' & He' & Hs').
    + rewrite length_app. cbn in *. lia.
    + rewrite Ho, Hopen. rewrite insert_app_r_alt by (rewrite length_fmap; lia).
      rewrite length_fmap, Nat.sub_diag. cbn. by rewrite fmap_app, <- app_assoc.
    + intros j y Hj. rewrite length_app. cbn. rewrite <- Nat.add_assoc. by apply (Hval (S j)).
    + exists r'. rewrite length_app in Hr. cbn in Hr. rewrite Hf in Hr.
      replace (Z.of_nat (length pre + 1)) with (Z.of_nat (length pre) + 1) in Hr by lia.
      rewrite <- app_assoc in Ho'. split_and!; [done|done|congruence|congruence].
Qed.

(** Reserve, fill, submit: the entries are appended, all or none. *)
Lemma prod_batch_spec (es : list E) (value : Z → outcome E) (r : R) :
  pr_open r = [] → Z.of_nat (length es) < 2 ^ 32 →
  (∀ j e, es !! j = Some e → value (Z.of_nat j) = Ret e) →
  ∃ r1 k i r2, prod_reserve r (Z.of_nat (length es)) = (r1, k, i) ∧
    fill_slots (Z.to_nat k) 0 i value r1 = Ret r2 ∧
    let posted := if bool_decide (Z.of_nat (length es) + Z.of_nat (length (pr_entries r)) ≤ pr_size r)
                  then es else [] in
    k = Z.of_nat (length posted) ∧
    pr_entries r2 = pr_entries r ∧ pr_open r2 = Some <$> posted ∧ pr_size r2 = pr_size r.
Proof.
  intros Ho Hn Hval. cbv zeta. case_bool_decide as Hroom.
  - destruct (pr_reserve_ok r (Z.of_nat (length es)) Ho) as (r1 & i & Hr & Hf & Ho1 & He & Hs); [lia..|].
    destruct (fill_slots_spec es [] value r1) as (r2 & Hfill & Ho2 & He2 & Hs2).
    { cbn. lia. }
    { by rewrite Ho1, Nat2Z.id. }
    { intros j e. apply Hval. }
    cbn in Hfill. exists r1, (Z.of_nat (length es)), i, r2. rewrite Nat2Z.id, <- Hf. cbn in Ho2.
    split_and!; congruence || done.
  - destruct (pr_reserve_full r (Z.of_nat (length es)) Ho) as (r1 & i & Hr & Ho1 & He & Hs); [lia..|].
    exists r1, 0, i, r1. split_and!; done.
Qed.
End Fill.

(** ** Reference rings *)

(** Rings kept as lists, with a running 32-bit index: the laws above can
    hold.  They instantiate the parameters in the concrete examples. *)
Record list_prod (E : Type) : Type := mkLP {
  lp_size : Z; lp_entries : list E; lp_open : list (option E); lp_first : Z;
}.
Arguments mkLP {E} _ _ _ _.
Arguments lp_size {E} _.
Arguments lp_entries {E} _.
Arguments lp_open {E} _.
Arguments lp_first {E} _.

#[export] Instance list_prod_ops E : XskProd (list_prod E) E := {|
  prod_reserve r n :=
    if bool_decide (n + Z.of_nat (length (lp_entries r)) ≤ lp_size r)
    then (mkLP (lp_size r) (lp_entries r) (replicate (Z.to_nat n) None) (lp_first r), n, lp_first r)
    else (r, 0, 0);
  prod_put r i e :=
    mkLP (lp_size r) (lp_entries r) (<[Z.to_nat (u32 (i - lp_first r)) := Some e]> (lp_open r)) (lp_first r);
  prod_submit r n :=
    mkLP (lp_size r) (lp_entries r ++ omap id (take (Z.to_nat n) (lp_open r)))
         (drop (Z.to_nat n) (lp_open r)) (u32 (lp_first r + n));
  prod_needs_wakeup r := true;
|}.

Lemma u32_sub_add x y : u32 (u32 (x + y) - x) = u32 y.
Proof. unfold u32, wrap. rewrite Zminus_mod_idemp_l. f_equal. lia. Qed.

#[export] Program Instance list_prod_laws E : XskProdLaws (list_prod E) E := {|
  pr_size := lp_size; pr_entries := lp_entries; pr_open := lp_open; pr_first := lp_first;
|}.
Next Obligation. intros E r n Ho Hn Hr. cbn. rewrite bool_decide_true by done. by do 2 eexists. Qed.
Next Obligation. intros E r n Ho Hn Hr. cbn. rewrite bool_decide_false by lia. by do 2 eexists. Qed.
Next Obligation. intros E r i e Hi Hb. cbn. by rewrite u32_sub_add, u32_small, Nat2Z.id by lia. Qed.
Next Obligation.
  intros E r es Ho. cbn. rewrite Ho, Nat2Z.id. rewrite <- (length_fmap Some es), take_ge, drop_ge by done.
  split_and!; [|done..]. f_equal. clear Ho. induction es; cbn; congruence.
Qed.

Record list_cons (E : Type) : Type := mkLC { lc_entries : list E; lc_taken : nat; lc_base : Z }.
Arguments mkLC {E} _ _ _.
Arguments lc_entries {E} _.
Arguments lc_taken {E} _.
Arguments lc_base {E} _.

#[export] Instance list_cons_ops E `{!Inhabited E} : XskCons (list_cons E) E := {|
  cons_peek r n :=
    let k := Z.min n (Z.of_nat (length (lc_entries r))) in
    (mkLC (lc_entries r) (Z.to_nat k) (lc_base r), k, lc_base r);
  cons_get r i := lc_entries r !!! Z.to_nat (u32 (i - lc_base r));
  cons_release r n := mkLC (drop (Z.to_nat n) (lc_entries r)) 0 (u32 (lc_base r + n));
|}.

#[export] Program Instance list_cons_laws E `{!Inhabited E} : XskConsLaws (list_cons E) E := {|
  cr_entries := lc_entries; cr_taken := lc_taken;
|}.
Next Obligation.
  intros E ? r n Ht Hn. cbn.
  exists (mkLC (lc_entries r) (Z.to_nat (Z.min n (Z.of_nat (length (lc_entries r))))) (lc_base r)),
    (Z.to_nat (Z.min n (Z.of_nat (length (lc_entries r))))), (lc_base r).
  split_and!; [rewrite Z2Nat.id by lia; done|lia|lia| |done|done|].
  - intros Hne Hpos. destruct (lc_entries r); [done|]. cbn. lia.
  - intros j Hj. cbn. rewrite u32_sub_add, u32_small, Nat2Z.id by lia.
    apply list_lookup_lookup_total_lt. lia.
Qed.
Next Obligation. intros E ? r k Ht Hk. cbn. by rewrite Nat2Z.id. Qed.

#[export] Instance xdp_desc_inhabited : Inhabited xdp_desc := populate (mkDesc 0 0 0).
