(* ===== verification/Umem.v ===== *)
(** * Umem: the shared memory region

    Model of [include/ultrafast/umem.hpp] and [src/umem.cpp]: region sizing
    at the width of [std::size_t], the constructor with its error paths, the
    destructor and the moves over the resource ledger, the fill-ring
    priming and the LIFO frame allocator. *)

From S2P Require Import Prelude Xsk.

(** ** Configuration and arithmetic *)

Record UmemConfig : Type := mkUmemConfig {
  frame_size : Z;
  frame_count : Z;
  fill_size : Z;
  completion_size : Z;
  use_huge_pages : bool;
}.

(** [UmemConfig{}], with the libxdp constants of its initialisers
    ([XSK_UMEM__DEFAULT_FRAME_SIZE] and the two default ring sizes). *)
Definition default_config : UmemConfig := mkUmemConfig 4096 4096 2048 2048 true.

Definition align_up (size align_to : Z) : Z :=
  Z.land (u64 (size + align_to - 1)) (u64 (Z.lnot (u64 (align_to - 1)))).

Definition UINT64_MAX : Z := 2 ^ 64 - 1.
Definition kHugePage : Z := Z.shiftl 2 20.

(** [struct xsk_umem_config] as [create_umem] fills it. *)
Record xsk_umem_config : Type := mkXskUmemConfig {
  xc_fill_size : Z; xc_comp_size : Z; xc_frame_size : Z; xc_frame_headroom : Z; xc_flags : Z;
}.

(** ** The object *)

(** Pointers are [option Z], [None] for [nullptr]. *)
Record Umem (FR CR : Type) : Type := mkUmem {
  cfg_ : UmemConfig;
  region_ : option Z;
  region_size_ : Z;
  huge_pages_ : bool;
  umem_ : option Z;
  fill_ring_ : FR;
  comp_ring_ : CR;
  free_frames_ : list Z;   (* the back of the vector is the end of the list *)
}.
Arguments mkUmem {FR CR} _ _ _ _ _ _ _ _.
Arguments cfg_ {FR CR} _.
Arguments region_ {FR CR} _.
Arguments region_size_ {FR CR} _.
Arguments huge_pages_ {FR CR} _.
Arguments umem_ {FR CR} _.
Arguments fill_ring_ {FR CR} _.
Arguments comp_ring_ {FR CR} _.
Arguments free_frames_ {FR CR} _.

(** The answers of [mmap] (an address, or [MAP_FAILED]), of
    [xsk_umem__create] (an error code, or a handle with its two rings) and of
    [operator new] (whether it has so many bytes), and that new addresses and
    handles are not in use. *)
Class UmemKernel (FR CR : Type) := {
  mmap_answer : world → Z → bool → option Z;
  umem_create_answer : world → Z → Z → xsk_umem_config → Z + (Z * FR * CR);
  new_answer : world → Z → bool;
  mmap_fresh w sz huge a : mmap_answer w sz huge = Some a → w_maps w !! a = None;
  umem_create_fresh w a sz c h fr cr :
    umem_create_answer w a sz c = inr (h, fr, cr) → w_umems w !! h = None;
}.

Section Operations.
Context {FR CR : Type} `{!UmemKernel FR CR}.
#[local] Abbreviation umem := (Umem FR CR).

Definition set_region (u : umem) (r : option Z) (sz : Z) (huge : bool) : umem :=
  mkUmem (cfg_ u) r sz huge (umem_ u) (fill_ring_ u) (comp_ring_ u) (free_frames_ u).

Definition set_free (u : umem) (l : list Z) : umem :=
  mkUmem (cfg_ u) (region_ u) (region_size_ u) (huge_pages_ u) (umem_ u) (fill_ring_ u)
         (comp_ring_ u) l.

Definition set_fill_ring (u : umem) (r : FR) : umem :=
  mkUmem (cfg_ u) (region_ u) (region_size_ u) (huge_pages_ u) (umem_ u) r
         (comp_ring_ u) (free_frames_ u).

Definition set_comp_ring (u : umem) (r : CR) : umem :=
  mkUmem (cfg_ u) (region_ u) (region_size_ u) (huge_pages_ u) (umem_ u) (fill_ring_ u)
         r (free_frames_ u).

(** [valid()], [frame_offset(idx)] and [frame_ptr(idx)]; a host pointer is
    the region's address plus an offset. *)
Definition valid (u : umem) : bool := bool_decide (umem_ u ≠ None).
Definition frame_offset (u : umem) (idx : Z) : Z := u64 (idx * frame_size (cfg_ u)).
Definition frame_ptr (u : umem) (idx : Z) : option Z := (λ a, a + frame_offset u idx) <$> region_ u.

Definition sys_mmap (sz : Z) (huge : bool) (w : world) : option Z * world :=
  match mmap_answer w sz huge with
  | Some a => (Some a, mkWorld (<[a := sz]> (w_maps w)) (w_umems w) (w_socks w))
  | None => (None, w)
  end.

(** The message of the exception reads [region_size_] after it has been
    reset. *)
Definition allocate_region (u : umem) (w : world) : (uf_error + umem) * world :=
  let raw_size := u64 (frame_size (cfg_ u) * frame_count (cfg_ u)) in
  let standard (w : world) :=
    let sz := align_up raw_size 4096 in
    match sys_mmap sz false w with
    | (Some a, w') => (inr (set_region u (Some a) sz false), w')
    | (None, w') =>
        let u' := set_region u None 0 (huge_pages_ u) in
        (inl (MmapFailed (region_size_ u')), w')
    end in
  if use_huge_pages (cfg_ u) then
    let aligned_size := align_up raw_size kHugePage in
    match sys_mmap aligned_size true w with
    | (Some a, w') => (inr (set_region u (Some a) aligned_size true), w')
    | (None, w') => standard w'
    end
  else standard w.

Definition deallocate_region (u : umem) (w : world) : outcome (umem * world) :=
  match region_ u with
  | None => Ret (u, w)
  | Some a =>
      w' ← sys_munmap a (region_size_ u) w;
      Ret (set_region u None 0 (huge_pages_ u), w')
  end.

Definition create_umem (u : umem) (w : world) : outcome ((uf_error + umem) * world) :=
  let xsk_cfg := mkXskUmemConfig (u32 (fill_size (cfg_ u))) (u32 (completion_size (cfg_ u)))
                                 (u32 (frame_size (cfg_ u))) 0 0 in
  region ← deref (region_ u);
  match umem_create_answer w region (region_size_ u) xsk_cfg with
  | inl ret => '(_, w') ← deallocate_region u w; Ret (inl (UmemCreateFailed ret), w')
  | inr (h, fr, cr) =>
      Ret (inr (mkUmem (cfg_ u) (region_ u) (region_size_ u) (huge_pages_ u) (Some h) fr cr
                       (free_frames_ u)),
           mkWorld (w_maps w) (<[h := region]> (w_umems w)) (w_socks w))
  end.

(** The constructor: on an exception the members are destroyed and the
    destructor does not run, so that what [reserve] throws leaves the region
    and the handle behind.  Once the room is reserved, [push_back] does not
    allocate. *)
Definition Umem_ctor (fr0 : FR) (cr0 : CR) (cfg : UmemConfig) (w : world)
    : outcome ((uf_error + umem) * world) :=
  let u0 := mkUmem cfg None 0 false None fr0 cr0 [] in
  match allocate_region u0 w with
  | (inl e, w1) => Ret (inl e, w1)
  | (inr u1, w1) =>
      '(r, w2) ← create_umem u1 w1;
      match r with
      | inl e => Ret (inl e, w2)
      | inr u2 =>
          match vector_reserve (new_answer w2) (frame_count (cfg_ u2)) with
          | Some e => Ret (inl e, w2)
          | None => Ret (inr (set_free u2 (frame_offset u2 <$> seqZ 0 (frame_count (cfg_ u2)))), w2)
          end
      end
  end.

Definition delete_handle (u : umem) (w : world) : outcome world :=
  match umem_ u with None => Ret w | Some h => xsk_umem_delete h w end.

Definition Umem_dtor (u : umem) (w : world) : outcome world :=
  w1 ← delete_handle u w;
  '(_, w2) ← deallocate_region u w1;
  Ret w2.

(** What a move leaves in the source: the configuration, the flag and the
    ring structs stay, the owning pointers are cleared and the vector has
    been moved out. *)
Definition moved_from (u : umem) : umem :=
  mkUmem (cfg_ u) None 0 (huge_pages_ u) None (fill_ring_ u) (comp_ring_ u) [].

Definition Umem_move_ctor (other : umem) : umem * umem := (other, moved_from other).

(** The body of the move assignment for two distinct objects; the test
    [this != &other] is on object identity and is made by the caller below. *)
Definition Umem_move_assign (this other : umem) (w : world) : outcome (umem * umem * world) :=
  w1 ← delete_handle this w;
  '(_, w2) ← deallocate_region this w1;
  Ret (other, moved_from other, w2).

(** ** Fill ring and frame allocator *)

Definition populate_fill_ring `{!XskProd FR Z} (u : umem) : outcome umem :=
  let n := u32 (Z.min (fill_size (cfg_ u)) (frame_count (cfg_ u))) in
  let '(r1, reserved, idx) := prod_reserve (fill_ring_ u) n in
  r2 ← fill_slots (Z.to_nat reserved) 0 idx (λ i, Ret (u64 (i * frame_size (cfg_ u)))) r1;
  Ret (set_fill_ring u (prod_submit r2 reserved)).

Definition alloc_frame (u : umem) : Z * umem :=
  match last (free_frames_ u) with
  | None => (UINT64_MAX, u)
  | Some offset => (offset, set_free u (take (length (free_frames_ u) - 1) (free_frames_ u)))
  end.

Definition free_frame (offset : Z) (u : umem) : umem := set_free u (free_frames_ u ++ [offset]).

(** ** Object lifetimes *)

(** A program that creates, moves and destroys [Umem] objects, named by
    numbers, and catches what the constructor throws; the exceptions caught
    are part of what it returns.  [None] is a program that is not C++: it
    names an object that does not exist or constructs one that does. *)
Inductive umem_cmd : Type :=
| UNew (o : nat) (cfg : UmemConfig)
| UMoveCtor (dst src : nat)
| UMoveAssign (dst src : nat)
| UDestroy (o : nat).

Definition exec_umem (fr0 : FR) (cr0 : CR) (c : umem_cmd) (h : gmap nat umem) (w : world)
    : option (outcome (option uf_error * gmap nat umem * world)) :=
  match c with
  | UNew o cfg =>
      match h !! o with
      | Some _ => None
      | None =>
          Some ('(r, w') ← Umem_ctor fr0 cr0 cfg w;
                match r with
                | inl e => Ret (Some e, h, w')
                | inr u => Ret (None, <[o := u]> h, w')
                end)
      end
  | UMoveCtor dst src =>
      match h !! dst, h !! src with
      | None, Some other =>
          let '(this, other') := Umem_move_ctor other in
          Some (Ret (None, <[dst := this]> (<[src := other']> h), w))
      | _, _ => None
      end
  | UMoveAssign dst src =>
      match h !! dst, h !! src with
      | Some this, Some other =>
          if bool_decide (dst = src) then Some (Ret (None, h, w))
          else Some ('(this', other', w') ← Umem_move_assign this other w;
                     Ret (None, <[dst := this']> (<[src := other']> h), w'))
      | _, _ => None
      end
  | UDestroy o =>
      match h !! o with
      | None => None
      | Some u => Some (w' ← Umem_dtor u w; Ret (None, delete o h, w'))
      end
  end.

Fixpoint exec_umems (fr0 : FR) (cr0 : CR) (cs : list umem_cmd) (caught : list uf_error)
    (h : gmap nat umem) (w : world) : option (outcome (list uf_error * gmap nat umem * world)) :=
  match cs with
  | [] => Some (Ret (caught, h, w))
  | c :: cs =>
      match exec_umem fr0 cr0 c h w with
      | None => None
      | Some Undef => Some Undef
      | Some (Ret (e, h', w')) => exec_umems fr0 cr0 cs (caught ++ option_list e) h' w'
      end
  end.

End Operations.

(** ** Alignment *)

Lemma land_u64_mask x m : in_width 64 x → Z.land x (u64 m) = Z.land x m.
Proof.
  intros Hx. unfold u64, wrap. rewrite <- Z.land_ones by lia.
  rewrite (Z.land_comm m), Z.land_assoc, Z.land_ones by lia. by rewrite Z.mod_small.
Qed.

Lemma align_up_eq size k :
  0 ≤ k < 64 → 0 ≤ size → size + 2 ^ k - 1 < 2 ^ 64 →
  align_up size (2 ^ k) = (size + 2 ^ k - 1) `div` 2 ^ k * 2 ^ k.
Proof.
  intros Hk Hs Hb. unfold align_up. assert (0 < 2 ^ k) by lia.
  assert (2 ^ k < 2 ^ 64) by (apply Z.pow_lt_mono_r; lia).
  rewrite (u64_small (size + _ - _)), (u64_small (2 ^ k - 1)) by lia.
  rewrite land_u64_mask by (unfold in_width; lia).
  rewrite <- Z.ldiff_land. replace (2 ^ k - 1) with (Z.ones k) by (rewrite Z.ones_equiv; lia).
  rewrite Z.ldiff_ones_r, Z.shiftl_mul_pow2, Z.shiftr_div_pow2 by lia. done.
Qed.

(** ** Ownership *)

(** The exceptions that [reserve] throws. *)
Definition reserve_threw (e : uf_error) : bool :=
  match e with VectorTooLong | BadAlloc => true | _ => false end.

(** A region and a handle on it that are held and that no object owns. *)
Definition leaked (w w' : world) : Prop :=
  ∃ a sz hd, w_maps w !! a = None ∧ w_umems w !! hd = None ∧
    w' = mkWorld (<[a := sz]> (w_maps w)) (<[hd := a]> (w_umems w)) (w_socks w).

(** A map whose keys are enumerated without repetition by [n] indices. *)
Lemma size_of_indexed {A} (m : gmap Z A) (n : nat) (f : nat → Z) :
  (∀ i j, (i < n)%nat → (j < n)%nat → f i = f j → i = j) →
  (∀ k, is_Some (m !! k) ↔ ∃ i, (i < n)%nat ∧ k = f i) → size m = n.
Proof.
  intros Hinj Hdom. rewrite <- size_dom. assert (Hd : dom m = list_to_set (f <$> seq 0 n)).
  { apply set_eq. intros k. rewrite elem_of_dom, Hdom, elem_of_list_to_set, list_elem_of_fmap.
    split; [intros (i & ? & ->); exists i; rewrite elem_of_seq; split; [done|lia]|].
    intros (i & -> & Hi%elem_of_seq). exists i. split; [lia|done]. }
  rewrite Hd, size_list_to_set; [by rewrite length_fmap, length_seq|].
  apply NoDup_fmap_2_strong; [|apply NoDup_seq]. intros i j Hi%elem_of_seq Hj%elem_of_seq. apply Hinj; lia.
Qed.

Lemma vector_reserve_threw room n e : vector_reserve room n = Some e → reserve_threw e = true.
Proof.
  unfold vector_reserve. case_bool_decide; [by intros [= <-]|].
  destruct (_ && _); [|done]. by intros [= <-].
Qed.

Section Ownership.
Context {FR CR : Type} `{!UmemKernel FR CR}.
(** Objects are named by a program's numbers or, below, by either those or
    the constructions that failed in [reserve]. *)
Context {K : Type} `{Countable K}.
Implicit Types (u : Umem FR CR) (h : gmap K (Umem FR CR)) (w : world) (o : K).

(** The ledger is exactly what the objects own: every owning pointer is
    live, no two objects own the same thing, nothing is held by nobody. *)
Record owns h w : Prop := {
  ow_map o u a : h !! o = Some u → region_ u = Some a → w_maps w !! a = Some (region_size_ u);
  ow_umem o u hd : h !! o = Some u → umem_ u = Some hd →
    ∃ a, region_ u = Some a ∧ w_umems w !! hd = Some a;
  ow_map_inj o o' u u' a : h !! o = Some u → h !! o' = Some u' →
    region_ u = Some a → region_ u' = Some a → o = o';
  ow_umem_inj o o' u u' hd : h !! o = Some u → h !! o' = Some u' →
    umem_ u = Some hd → umem_ u' = Some hd → o = o';
  ow_map_all a sz : w_maps w !! a = Some sz → ∃ o u, h !! o = Some u ∧ region_ u = Some a;
  ow_umem_all hd a : w_umems w !! hd = Some a →
    ∃ o u, h !! o = Some u ∧ umem_ u = Some hd ∧ region_ u = Some a;
  ow_socks : w_socks w = ∅;
}.

Lemma owns_empty : owns ∅ (mkWorld ∅ ∅ ∅).
Proof. split; cbn; intros; by simplify_map_eq. Qed.

(** Nothing in the ledger: no object owns anything. *)
Lemma owns_no_objects w : owns ∅ w → w = mkWorld ∅ ∅ ∅.
Proof.
  intros []. destruct w as [maps umems socks]; cbn in *. f_equal; [| |done].
  - apply map_eq. intros a. rewrite lookup_empty. destruct (maps !! a) as [sz|] eqn:Ha; [|done].
    destruct (ow_map_all0 a sz Ha) as (o & u & Hu & _). by rewrite lookup_empty in Hu.
  - apply map_eq. intros a. rewrite lookup_empty. destruct (umems !! a) as [sz|] eqn:Ha; [|done].
    destruct (ow_umem_all0 a sz Ha) as (o & u & Hu & _). by rewrite lookup_empty in Hu.
Qed.

(** The handle of a live object can be deleted. *)
Lemma delete_handle_ok h w o u :
  owns h w → h !! o = Some u →
  delete_handle u w = Ret (mkWorld (w_maps w)
    (match umem_ u with Some hd => delete hd (w_umems w) | None => w_umems w end) (w_socks w)).
Proof.
  intros Hw Hu. unfold delete_handle. destruct (umem_ u) as [hd|] eqn:Hhd; [|by destruct w].
  destruct (ow_umem h w Hw o u hd Hu Hhd) as (a & _ & Hl). unfold xsk_umem_delete.
  rewrite bool_decide_true by by eexists. rewrite (ow_socks h w Hw).
  rewrite bool_decide_true by apply map_Forall_empty. done.
Qed.

(** After that its region can be unmapped: no other UMEM sits on it. *)
Lemma deallocate_ok h w o u :
  owns h w → h !! o = Some u →
  deallocate_region u (mkWorld (w_maps w)
    (match umem_ u with Some hd => delete hd (w_umems w) | None => w_umems w end) (w_socks w)) =
  Ret (set_region u None (match region_ u with Some _ => 0 | None => region_size_ u end) (huge_pages_ u),
    mkWorld (match region_ u with Some a => delete a (w_maps w) | None => w_maps w end)
      (match umem_ u with Some hd => delete hd (w_umems w) | None => w_umems w end) (w_socks w)).
Proof.
  intros Hw Hu. unfold deallocate_region. destruct (region_ u) as [a|] eqn:Ha; [|].
  2: { by destruct u; cbn in *; subst. }
  unfold sys_munmap. cbn [w_maps w_umems w_socks]. rewrite bool_decide_true; [done|].
  split; [by apply (ow_map h w Hw o)|]. intros hd b Hl ->.
  assert (w_umems w !! hd = Some a ∧ umem_ u ≠ Some hd) as [Hl' Hne].
  { destruct (umem_ u) as [hd'|]; [|done]. apply lookup_delete_Some in Hl as [Hne Hl].
    split; [done|congruence]. }
  destruct (ow_umem_all h w Hw hd a Hl') as (o' & u' & Hu' & Hhd & Ha').
  assert (o' = o) as -> by by eapply (ow_map_inj h w Hw). congruence.
Qed.

(** Destroying one object releases exactly what it owned. *)
Lemma owns_release h w o u :
  owns h w → h !! o = Some u → ∃ w', Umem_dtor u w = Ret w' ∧ owns (delete o h) w'.
Proof.
  intros Hw Hu. unfold Umem_dtor. rewrite (delete_handle_ok h w o u Hw Hu). ub_step.
  rewrite (deallocate_ok h w o u Hw Hu). ub_step. eexists; split; [done|].
  destruct Hw. split; cbn [w_maps w_umems w_socks]; try done.
  - intros o' u' a [Hne Hu']%lookup_delete_Some Ha. pose proof (ow_map0 o' u' a Hu' Ha) as Hm.
    destruct (region_ u) as [b|] eqn:Hb; [|done]. rewrite lookup_delete_ne; [done|].
    intros ->. apply Hne. by eapply ow_map_inj0.
  - intros o' u' hd [Hne Hu']%lookup_delete_Some Hhd. destruct (ow_umem0 o' u' hd Hu' Hhd) as (a & Ha & Hl).
    exists a. split; [done|]. destruct (umem_ u) as [hd'|] eqn:Hb; [|done].
    rewrite lookup_delete_ne; [done|]. intros ->. apply Hne. by eapply ow_umem_inj0.
  - intros o1 o2 u1 u2 a [_ H1]%lookup_delete_Some [_ H2]%lookup_delete_Some. by eapply ow_map_inj0.
  - intros o1 o2 u1 u2 a [_ H1]%lookup_delete_Some [_ H2]%lookup_delete_Some. by eapply ow_umem_inj0.
  - intros a sz Hl. assert (w_maps w !! a = Some sz ∧ region_ u ≠ Some a) as [Hl' Hne].
    { destruct (region_ u); [|done]. apply lookup_delete_Some in Hl as []. split; congruence. }
    destruct (ow_map_all0 a sz Hl') as (o' & u' & Hu' & Ha). exists o', u'. split; [|done].
    rewrite lookup_delete_ne; [done|]. intros ->. congruence.
  - intros hd a Hl. assert (w_umems w !! hd = Some a ∧ umem_ u ≠ Some hd) as [Hl' Hne].
    { destruct (umem_ u); [|done]. apply lookup_delete_Some in Hl as []. split; congruence. }
    destruct (ow_umem_all0 hd a Hl') as (o' & u' & Hu' & Hhd & Ha). exists o', u'. split; [|done].
    rewrite lookup_delete_ne; [done|]. intros ->. congruence.
Qed.

(** A move hands everything to the new owner. *)
Lemma owns_move h w dst src u :
  owns h w → h !! dst = None → h !! src = Some u →
  owns (<[dst := u]> (<[src := moved_from u]> h)) w.
Proof.
  intros Hw Hd Hs. assert (dst ≠ src) as Hne by congruence.
  assert (Hcase : ∀ o v, <[dst := u]> (<[src := moved_from u]> h) !! o = Some v →
    (o = dst ∧ v = u) ∨ (o = src ∧ v = moved_from u) ∨ (o ≠ dst ∧ o ≠ src ∧ h !! o = Some v)).
  { intros o v. rewrite !lookup_insert_Some. intros [[-> ->]|[? [[-> ->]|[? ?]]]]; auto 10. }
  assert (Hlift : ∀ o v, h !! o = Some v → (region_ v ≠ None ∨ umem_ v ≠ None) →
    ∃ o', <[dst := u]> (<[src := moved_from u]> h) !! o' = Some v).
  { intros o v Ho _. destruct (decide (o = src)) as [->|]; [exists dst|exists o]; by simplify_map_eq. }
  destruct Hw. split; try done.
  - intros o v a Hv Ha. destruct (Hcase o v Hv) as [[-> ->]|[[-> ->]|(_ & _ & Ho)]]; [|done|]; eauto.
  - intros o v hd Hv Ha. destruct (Hcase o v Hv) as [[-> ->]|[[-> ->]|(_ & _ & Ho)]]; [|done|]; eauto.
  - intros o o' v v' a Hv Hv' Ha Ha'.
    destruct (Hcase o v Hv) as [[-> ->]|[[-> ->]|(? & ? & Ho)]]; [|done|];
    destruct (Hcase o' v' Hv') as [[-> ->]|[[-> ->]|(? & ? & Ho')]]; try done; naive_solver.
  - intros o o' v v' a Hv Hv' Ha Ha'.
    destruct (Hcase o v Hv) as [[-> ->]|[[-> ->]|(? & ? & Ho)]]; [|done|];
    destruct (Hcase o' v' Hv') as [[-> ->]|[[-> ->]|(? & ? & Ho')]]; try done; naive_solver.
  - intros a sz Hl. destruct (ow_map_all0 a sz Hl) as (o & v & Hv & Ha).
    destruct (Hlift o v Hv) as (o' & Ho'); [left; congruence|]. by exists o', v.
  - intros hd a Hl. destruct (ow_umem_all0 hd a Hl) as (o & v & Hv & Hhd & Ha).
    destruct (Hlift o v Hv) as (o' & Ho'); [left; congruence|]. by exists o', v.
Qed.

(** The two ways [allocate_region] ends. *)
Lemma allocate_region_cases u w :
  let raw_size := u64 (frame_size (cfg_ u) * frame_count (cfg_ u)) in
  (allocate_region u w = (inl (MmapFailed 0), w)) ∨
  ∃ a sz huge, w_maps w !! a = None ∧
    sz = align_up raw_size (if huge : bool then kHugePage else 4096) ∧
    (huge = true → use_huge_pages (cfg_ u) = true) ∧
    allocate_region u w = (inr (set_region u (Some a) sz huge),
                           mkWorld (<[a := sz]> (w_maps w)) (w_umems w) (w_socks w)).
Proof.
  intros raw_size. unfold allocate_region, sys_mmap. fold raw_size.
  destruct (use_huge_pages (cfg_ u)) eqn:Hh.
  - destruct (mmap_answer w (align_up raw_size kHugePage) true) as [a|] eqn:Hm.
    { right. exists a, (align_up raw_size kHugePage), true. split_and!; try done. by eapply mmap_fresh. }
    destruct (mmap_answer w (align_up raw_size 4096) false) as [a|] eqn:Hm'; [|by left].
    right. exists a, (align_up raw_size 4096), false. split_and!; try done. by eapply mmap_fresh.
  - destruct (mmap_answer w (align_up raw_size 4096) false) as [a|] eqn:Hm'; [|by left].
    right. exists a, (align_up raw_size 4096), false. split_and!; try done. by eapply mmap_fresh.
Qed.

(** Every UMEM of the ledger sits on a mapped region. *)
Definition umems_mapped w : Prop :=
  ∀ a, w_maps w !! a = None → map_Forall (λ _ b, b ≠ a) (w_umems w).

Lemma owns_mapped h w : owns h w → umems_mapped w.
Proof.
  intros Hw a Ha hd b Hl ->. destruct (ow_umem_all h w Hw hd a Hl) as (o & u & Hu & _ & Hr).
  pose proof (ow_map h w Hw o u a Hu Hr). congruence.
Qed.

(** The constructor throws before it holds anything, or throws from
    [reserve] and leaves a region and a handle behind, or returns an object
    that owns them. *)
Lemma Umem_ctor_cases fr0 cr0 cfg w :
  umems_mapped w →
  ∃ r w', Umem_ctor fr0 cr0 cfg w = Ret (r, w') ∧
    match r with
    | inl e => if reserve_threw e then leaked w w'
               else w' = w ∧ (e = MmapFailed 0 ∨ ∃ err, e = UmemCreateFailed err)
    | inr u => cfg_ u = cfg ∧ ∃ a hd,
        w_maps w !! a = None ∧ w_umems w !! hd = None ∧
        region_ u = Some a ∧ umem_ u = Some hd ∧
        (∃ huge, region_size_ u = align_up (u64 (frame_size cfg * frame_count cfg))
                                  (if huge : bool then kHugePage else 4096)) ∧
        free_frames_ u = (λ i, u64 (i * frame_size cfg)) <$> seqZ 0 (frame_count cfg) ∧
        w' = mkWorld (<[a := region_size_ u]> (w_maps w)) (<[hd := a]> (w_umems w)) (w_socks w)
    end.
Proof.
  intros Hw. unfold Umem_ctor.
  destruct (allocate_region_cases (mkUmem cfg None 0 false None fr0 cr0 []) w)
    as [->|(a & sz & huge & Hfree & Hsz & Hhuge & ->)].
  { exists (inl (MmapFailed 0)), w. split; [done|]. cbn. auto. }
  unfold create_umem. cbn [region_ set_region deref]. ub_step.
  destruct (umem_create_answer _ a _ _) as [err|[[hd fr] cr]] eqn:Hc.
  - unfold deallocate_region, sys_munmap. cbn [region_ set_region region_size_ w_maps w_umems w_socks].
    rewrite bool_decide_true.
    + ub_step. eexists _, _; split; [done|]. split; [|by eauto].
      destruct w; cbn in *. by rewrite delete_insert_id.
    + split; [by rewrite lookup_insert_eq|]. by apply Hw.
  - apply umem_create_fresh in Hc. ub_step. destruct (vector_reserve _ _) as [e|] eqn:Hv.
    + apply vector_reserve_threw in Hv. exists (inl e). eexists. split; [done|]. rewrite Hv. by exists a, sz, hd.
    + eexists _, _; split; [done|]. split; [done|]. exists a, hd. split_and!; try done. by exists huge.
Qed.

Lemma owns_new h w o u a hd :
  owns h w → h !! o = None → w_maps w !! a = None → w_umems w !! hd = None →
  region_ u = Some a → umem_ u = Some hd →
  owns (<[o := u]> h)
    (mkWorld (<[a := region_size_ u]> (w_maps w)) (<[hd := a]> (w_umems w)) (w_socks w)).
Proof.
  intros Hw Ho Ha Hhd Hr Hu. pose proof Hw as Hw0. destruct Hw. split; cbn [w_maps w_umems w_socks]; try done.
  - intros o' u' a' [[<- <-]|[Hne Hu']]%lookup_insert_Some Ha'; [by simplify_map_eq|].
    pose proof (ow_map0 o' u' a' Hu' Ha'). rewrite lookup_insert_ne; [done|congruence].
  - intros o' u' hd' [[<- <-]|[Hne Hu']]%lookup_insert_Some Hd'; [exists a; by simplify_map_eq|].
    destruct (ow_umem0 o' u' hd' Hu' Hd') as (a' & Ha' & Hl). exists a'. split; [done|].
    rewrite lookup_insert_ne; [done|congruence].
  - intros o1 o2 u1 u2 b [[<- <-]|[Hn1 H1]]%lookup_insert_Some [[<- <-]|[Hn2 H2]]%lookup_insert_Some Hb1 Hb2;
      [done| | |by eapply ow_map_inj0].
    + pose proof (ow_map0 _ _ _ H2 Hb2). congruence.
    + pose proof (ow_map0 _ _ _ H1 Hb1). congruence.
  - intros o1 o2 u1 u2 b [[<- <-]|[Hn1 H1]]%lookup_insert_Some [[<- <-]|[Hn2 H2]]%lookup_insert_Some Hb1 Hb2;
      [done| | |by eapply ow_umem_inj0].
    + destruct (ow_umem0 _ _ _ H2 Hb2) as (? & ? & ?). congruence.
    + destruct (ow_umem0 _ _ _ H1 Hb1) as (? & ? & ?). congruence.
  - intros b sz [[<- <-]|[Hne Hl]]%lookup_insert_Some; [exists o, u; by simplify_map_eq|].
    destruct (ow_map_all0 b sz Hl) as (o' & u' & Hu' & Hb). exists o', u'. split; [|done].
    rewrite lookup_insert_ne; [done|congruence].
  - intros hd' b [[<- <-]|[Hne Hl]]%lookup_insert_Some; [exists o, u; by simplify_map_eq|].
    destruct (ow_umem_all0 hd' b Hl) as (o' & u' & Hu' & Hb). exists o', u'. split; [|done].
    rewrite lookup_insert_ne; [done|congruence].
Qed.
End Ownership.

(** ** Programs over objects *)

Section Programs.
Context {FR CR : Type} `{!UmemKernel FR CR}.
Implicit Types (h : gmap nat (Umem FR CR)) (w : world).

(** The ledger is exactly what the live objects own and what the
    constructions that failed in [reserve] have left behind: a region and a
    handle on it for each of them.  [g] names both. *)
Definition accounted (caught : list uf_error) h w : Prop :=
  let n := length (filter reserve_threw caught) in
  ∃ g : gmap (nat + nat) (Umem FR CR), owns g w ∧ (∀ o, g !! inl o = h !! o) ∧
    ∀ k, match g !! inr k with
         | Some u => (k < n)%nat ∧ region_ u ≠ None ∧ umem_ u ≠ None
         | None => (n ≤ k)%nat
         end.

(** With no object left, what remains is what [reserve] lost. *)
Lemma accounted_no_objects caught w :
  accounted caught ∅ w →
  let n := length (filter reserve_threw caught) in size (w_maps w) = n ∧ size (w_umems w) = n.
Proof.
  intros (g & Hw & Hl & Hr). set (n := length _) in *. clearbody n. destruct Hw.
  assert (Hg : ∀ k, (k < n)%nat → ∃ u a hd, g !! inr k = Some u ∧ region_ u = Some a ∧ umem_ u = Some hd).
  { intros k Hk. specialize (Hr k). destruct (g !! inr k) as [u|]; [|lia]. destruct Hr as (_ & Hru & Huu).
    destruct (region_ u) as [a|] eqn:?; [|done]. destruct (umem_ u) as [hd|] eqn:?; [|done]. by exists u, a, hd. }
  assert (Hin : ∀ o u, g !! o = Some u → ∃ k, o = inr k ∧ (k < n)%nat).
  { intros [o|k] u Hu; [by rewrite Hl, lookup_empty in Hu|]. specialize (Hr k). rewrite Hu in Hr. exists k. tauto. }
  split.
  - apply (size_of_indexed _ n (λ k, default 0 (g !! inr k ≫= region_))).
    + intros i j Hi Hj. destruct (Hg i Hi) as (u & a & ? & Hu & Ha & _), (Hg j Hj) as (v & b & ? & Hv & Hb & _).
      rewrite Hu, Hv. cbn. rewrite Ha, Hb. cbn. intros ->. by injection (ow_map_inj0 _ _ _ _ _ Hu Hv Ha Hb).
    + intros a. split.
      * intros [sz Hs]. destruct (ow_map_all0 a sz Hs) as (o & u & Hu & Ha). destruct (Hin o u Hu) as (k & -> & Hk).
        exists k. rewrite Hu. cbn. by rewrite Ha.
      * intros (k & Hk & ->). destruct (Hg k Hk) as (u & a & hd & Hu & Ha & _). rewrite Hu. cbn. rewrite Ha. cbn.
        eexists. by eapply ow_map0.
  - apply (size_of_indexed _ n (λ k, default 0 (g !! inr k ≫= umem_))).
    + intros i j Hi Hj. destruct (Hg i Hi) as (u & ? & a & Hu & _ & Ha), (Hg j Hj) as (v & ? & b & Hv & _ & Hb).
      rewrite Hu, Hv. cbn. rewrite Ha, Hb. cbn. intros ->. by injection (ow_umem_inj0 _ _ _ _ _ Hu Hv Ha Hb).
    + intros hd. split.
      * intros [a Hs]. destruct (ow_umem_all0 hd a Hs) as (o & u & Hu & Ha & _). destruct (Hin o u Hu) as (k & -> & Hk).
        exists k. rewrite Hu. cbn. by rewrite Ha.
      * intros (k & Hk & ->). destruct (Hg k Hk) as (u & a & hd & Hu & _ & Ha). rewrite Hu. cbn. rewrite Ha. cbn.
        destruct (ow_umem0 _ _ _ Hu Ha) as (b & _ & Hb). by eexists.
Qed.

Lemma accounted_start : accounted [] ∅ (mkWorld ∅ ∅ ∅).
Proof. exists ∅. split; [by apply owns_empty|]. split; [done|]. intros k. rewrite lookup_empty. cbn. lia. Qed.

Lemma insert_inl (g : gmap (nat + nat) (Umem FR CR)) h o u :
  (∀ o, g !! inl o = h !! o) → ∀ o', <[inl o := u]> g !! inl o' = <[o := u]> h !! o'.
Proof.
  intros Hl o'. destruct (decide (o = o')) as [->|]; [by rewrite !lookup_insert_eq|].
  by rewrite !lookup_insert_ne by congruence.
Qed.

(** A constructor: a new object, nothing, or something lost. *)
Lemma accounted_new caught fr0 cr0 cfg h w o :
  accounted caught h w → h !! o = None →
  ∃ r w', Umem_ctor fr0 cr0 cfg w = Ret (r, w') ∧
    match r with
    | inl e => accounted (caught ++ [e]) h w'
    | inr u => accounted caught (<[o := u]> h) w'
    end.
Proof.
  intros (g & Hw & Hl & Hr) Ho. destruct (Umem_ctor_cases fr0 cr0 cfg w (owns_mapped g w Hw)) as (r & w' & Hc & Hcase).
  exists r, w'. split; [done|]. destruct r as [e|u].
  - unfold accounted. rewrite filter_app, length_app. destruct (reserve_threw e) eqn:He.
    + destruct Hcase as (a & sz & hd & Ha & Hhd & ->). set (n := length (filter reserve_threw caught)) in *.
      assert (Hnone : g !! inr n = None) by (specialize (Hr n); destruct (g !! inr n); [lia|done]).
      exists (<[inr n := mkUmem cfg (Some a) sz false (Some hd) fr0 cr0 []]> g). split_and!.
      * exact (owns_new g w (inr n) (mkUmem cfg (Some a) sz false (Some hd) fr0 cr0 []) a hd Hw Hnone Ha Hhd eq_refl eq_refl).
      * intros o'. by rewrite lookup_insert_ne.
      * intros k. rewrite filter_cons_True by by rewrite He. cbn. specialize (Hr k).
        destruct (decide (k = n)) as [->|Hk]; [rewrite lookup_insert_eq; cbn; split_and!; [lia|done|done]|].
        rewrite lookup_insert_ne by congruence. destruct (g !! inr k); [split; [lia|tauto]|lia].
    + destruct Hcase as [-> _]. rewrite filter_cons_False by (rewrite He; tauto). cbn. rewrite Nat.add_0_r. by exists g.
  - destruct Hcase as (_ & a & hd & Ha & Hhd & Hra & Hu & _ & _ & ->). exists (<[inl o := u]> g). split_and!.
    + apply owns_new; try done. by rewrite Hl.
    + by apply insert_inl.
    + intros k. rewrite lookup_insert_ne by done. apply Hr.
Qed.

(** Destroying an object and moving one. *)
Lemma accounted_release caught h w o u :
  accounted caught h w → h !! o = Some u → ∃ w', Umem_dtor u w = Ret w' ∧ accounted caught (delete o h) w'.
Proof.
  intros (g & Hw & Hl & Hr) Ho. rewrite <- Hl in Ho. destruct (owns_release g w _ u Hw Ho) as (w' & Hd & Hw').
  exists w'. split; [done|]. exists (delete (inl o) g). split_and!; [done| |].
  - intros o'. destruct (decide (o = o')) as [->|]; [by rewrite !lookup_delete_eq|].
    by rewrite !lookup_delete_ne by congruence.
  - intros k. rewrite lookup_delete_ne by done. apply Hr.
Qed.

Lemma accounted_move caught h w dst src u :
  accounted caught h w → h !! dst = None → h !! src = Some u →
  accounted caught (<[dst := u]> (<[src := moved_from u]> h)) w.
Proof.
  intros (g & Hw & Hl & Hr) Hd Hs. exists (<[inl dst := u]> (<[inl src := moved_from u]> g)). split_and!.
  - apply owns_move; by rewrite ?Hl.
  - apply insert_inl. by apply insert_inl.
  - intros k. rewrite !lookup_insert_ne by done. apply Hr.
Qed.

(** Every command keeps the account and none is undefined behaviour. *)
Lemma exec_umem_accounted caught fr0 cr0 c h w r :
  accounted caught h w → exec_umem fr0 cr0 c h w = Some r →
  ∃ e h' w', r = Ret (e, h', w') ∧ accounted (caught ++ option_list e) h' w'.
Proof.
  intros Hw. destruct c as [o cfg|dst src|dst src|o]; cbn.
  - destruct (h !! o) eqn:Ho; [done|]. intros [= <-].
    destruct (accounted_new caught fr0 cr0 cfg h w o Hw Ho) as (r & w' & -> & Hr). ub_step.
    destruct r as [e|u]; do 3 eexists; (split; [done|]); [done|]. by rewrite app_nil_r.
  - destruct (h !! dst) eqn:Hd; [done|]. destruct (h !! src) as [u|] eqn:Hs; [|done]. intros [= <-].
    do 3 eexists. split; [done|]. rewrite app_nil_r. by apply accounted_move.
  - destruct (h !! dst) as [this|] eqn:Hd; [|done]. destruct (h !! src) as [other|] eqn:Hs; [|done].
    case_bool_decide as Hself; intros [= <-]; [exists None, h, w; by rewrite app_nil_r|].
    destruct (accounted_release caught h w dst this Hw Hd) as (w' & Hrel & Hw').
    assert (Hma : Umem_move_assign this other w = Ret (other, moved_from other, w')).
    { revert Hrel. unfold Umem_dtor, Umem_move_assign. destruct (delete_handle this w); [|done]. ub_step.
      destruct (deallocate_region this a) as [[u2 w2]|]; [|done]. ub_step. by intros [= <-]. }
    rewrite Hma. ub_step. do 3 eexists. split; [done|]. rewrite app_nil_r.
    replace (<[dst:=other]> (<[src:=moved_from other]> h))
      with (<[dst:=other]> (<[src:=moved_from other]> (delete dst h))).
    + apply accounted_move; [done|by rewrite lookup_delete_eq|by rewrite lookup_delete_ne].
    + rewrite insert_insert_ne by done. rewrite insert_delete_eq. by rewrite insert_insert_ne.
  - destruct (h !! o) as [u|] eqn:Ho; [|done]. intros [= <-].
    destruct (accounted_release caught h w o u Hw Ho) as (w' & -> & Hw'). ub_step.
    exists None, (delete o h), w'. by rewrite app_nil_r.
Qed.

Lemma exec_umems_accounted fr0 cr0 cs : ∀ caught h w r,
  accounted caught h w → exec_umems fr0 cr0 cs caught h w = Some r →
  ∃ caught' h' w', r = Ret (caught', h', w') ∧ accounted caught' h' w'.
Proof.
  induction cs as [|c cs IH]; intros caught h w r Hw; cbn.
  - intros [= <-]. by exists caught, h, w.
  - destruct (exec_umem fr0 cr0 c h w) as [r1|] eqn:Hc; [|done].
    destruct (exec_umem_accounted caught fr0 cr0 c h w r1 Hw Hc) as (e & h1 & w1 & -> & Hw1). by apply IH.
Qed.
End Programs.

(** ** Frames *)

(** The configuration's frames are addressable: the offsets do not wrap and
    none of them is the sentinel of [alloc_frame]. *)
Definition frames_fit (cfg : UmemConfig) : Prop :=
  0 < frame_size cfg ∧ 0 ≤ frame_count cfg ∧ frame_size cfg * frame_count cfg < 2 ^ 64.

Definition all_frames (cfg : UmemConfig) : list Z :=
  (λ i, i * frame_size cfg) <$> seqZ 0 (frame_count cfg).

Lemma frame_offset_exact cfg i :
  frames_fit cfg → 0 ≤ i < frame_count cfg → u64 (i * frame_size cfg) = i * frame_size cfg.
Proof. intros (Hs & Hc & Hb) Hi. apply u64_small. nia. Qed.

Lemma offsets_exact cfg n :
  frames_fit cfg → n ≤ frame_count cfg →
  (λ i, u64 (i * frame_size cfg)) <$> seqZ 0 n = (λ i, i * frame_size cfg) <$> seqZ 0 n.
Proof.
  intros Hf Hn. apply list_fmap_ext. intros k i Hk. apply lookup_seqZ in Hk as [-> Hk].
  apply frame_offset_exact; [done|lia].
Qed.

Lemma elem_all_frames cfg a :
  frames_fit cfg → a ∈ all_frames cfg ↔ ∃ i, 0 ≤ i < frame_count cfg ∧ a = i * frame_size cfg.
Proof.
  intros _. unfold all_frames. rewrite list_elem_of_fmap. split.
  - intros (i & -> & Hi%elem_of_seqZ). exists i. split; [lia|done].
  - intros (i & Hi & ->). exists i. split; [done|]. apply elem_of_seqZ. lia.
Qed.

Lemma NoDup_all_frames cfg : frames_fit cfg → NoDup (all_frames cfg).
Proof.
  intros (Hs & _). apply NoDup_fmap_2; [|apply NoDup_seqZ]. intros i j Hij. nia.
Qed.

Lemma sentinel_not_frame cfg : frames_fit cfg → UINT64_MAX ∉ all_frames cfg.
Proof.
  intros Hf. rewrite elem_all_frames by done. intros (i & Hi & Heq). destruct Hf as (Hs & Hc & Hb).
  unfold UINT64_MAX in Heq. nia.
Qed.

(** ** Clients of the allocator *)

(** A client of [alloc_frame] and [free_frame]: it keeps the frames it got
    and frees only those. *)
Inductive pool_cmd : Type := PAlloc | PFree (offset : Z).

Section Pool.
Context {FR CR : Type}.

Definition exec_pool (c : pool_cmd) (s : Umem FR CR * list Z) : Umem FR CR * list Z :=
  let '(u, out) := s in
  match c with
  | PAlloc =>
      let '(a, u') := alloc_frame u in
      (u', if bool_decide (a = UINT64_MAX) then out else a :: out)
  | PFree a => if bool_decide (a ∈ out) then (free_frame a u, remove Z.eq_dec a out) else (u, out)
  end.

Definition pool_inv (cfg : UmemConfig) (s : Umem FR CR * list Z) : Prop :=
  free_frames_ s.1 ++ s.2 ≡ₚ all_frames cfg.

Lemma alloc_frame_cases (u : Umem FR CR) :
  (free_frames_ u = [] ∧ alloc_frame u = (UINT64_MAX, u)) ∨
  ∃ l a, free_frames_ u = l ++ [a] ∧ alloc_frame u = (a, set_free u l).
Proof.
  unfold alloc_frame. destruct (free_frames_ u) as [|x l'] using rev_ind; [by left|right].
  exists l', x. rewrite last_snoc. split; [done|]. rewrite length_app. cbn.
  by rewrite Nat.add_sub, take_app_length.
Qed.

Lemma remove_Permutation a (out : list Z) : NoDup out → a ∈ out → out ≡ₚ a :: remove Z.eq_dec a out.
Proof.
  induction 1 as [|x out Hx Hnd IH]; [by intros ?%elem_of_nil|].
  intros [->|Ha]%elem_of_cons; cbn.
  - destruct (Z.eq_dec x x) as [_|]; [|done]. rewrite notin_remove; [done|].
    by rewrite <- list_elem_of_In.
  - destruct (Z.eq_dec a x) as [->|Hne]; [done|]. rewrite Permutation_swap. by rewrite <- IH.
Qed.

Lemma exec_pool_inv cfg c s : frames_fit cfg → pool_inv cfg s → pool_inv cfg (exec_pool c s).
Proof.
  intros Hf Hs. destruct s as [u out]. unfold pool_inv in *. cbn in Hs. destruct c as [|a]; cbn.
  - destruct (alloc_frame_cases u) as [[Hn ->]|(l & a & Hl & ->)].
    + by rewrite bool_decide_true.
    + rewrite bool_decide_false; cbn.
      * rewrite <- Hs, Hl, <- app_assoc. done.
      * intros ->. apply (sentinel_not_frame cfg Hf). rewrite <- Hs, Hl. set_solver.
  - case_bool_decide as Ha; [|done]. cbn. rewrite <- app_assoc. cbn. rewrite <- Hs. f_equiv. symmetry.
    apply remove_Permutation; [|done]. pose proof (NoDup_all_frames cfg Hf) as Hnd.
    rewrite <- Hs in Hnd. by apply NoDup_app in Hnd as (_ & _ & ?).
Qed.

Lemma exec_pools_inv cfg cs : ∀ s,
  frames_fit cfg → pool_inv cfg s → pool_inv cfg (foldl (λ s c, exec_pool c s) s cs).
Proof. induction cs; intros; cbn; [done|]. apply IHcs; [done|]. by apply exec_pool_inv. Qed.
End Pool.

(** ** Priming the fill ring *)

Section Populate.
Context {FR CR : Type} `{!XskProd FR Z, !XskProdLaws FR Z}.

(** The frames [populate_fill_ring] posts: the first [min(fill_size,
    frame_count)], or none when the ring has no room for all of them. *)
Definition posted_frames (u : Umem FR CR) : list Z :=
  let n := Z.min (fill_size (cfg_ u)) (frame_count (cfg_ u)) in
  if bool_decide (n + Z.of_nat (length (pr_entries (fill_ring_ u))) ≤ pr_size (fill_ring_ u))
  then (λ i, i * frame_size (cfg_ u)) <$> seqZ 0 n else [].

Lemma populate_spec (u : Umem FR CR) :
  frames_fit (cfg_ u) → 0 ≤ fill_size (cfg_ u) →
  Z.min (fill_size (cfg_ u)) (frame_count (cfg_ u)) < 2 ^ 32 → pr_open (fill_ring_ u) = [] →
  ∃ r, populate_fill_ring u = Ret (set_fill_ring u r) ∧ pr_open r = [] ∧
    pr_entries r = pr_entries (fill_ring_ u) ++ posted_frames u ∧ pr_size r = pr_size (fill_ring_ u).
Proof.
  intros Hf Hfill Hn Ho. unfold populate_fill_ring, posted_frames.
  set (n := Z.min (fill_size (cfg_ u)) (frame_count (cfg_ u))) in *.
  assert (0 ≤ n ≤ frame_count (cfg_ u)) by (destruct Hf as (_ & ? & _); lia).
  rewrite u32_small by lia. rewrite <- (offsets_exact (cfg_ u) n) by (done || lia).
  set (es := (λ i, u64 (i * frame_size (cfg_ u))) <$> seqZ 0 n).
  assert (Hlen : Z.of_nat (length es) = n) by (unfold es; rewrite length_fmap, length_seqZ; lia).
  destruct (prod_batch_spec es (λ i, Ret (u64 (i * frame_size (cfg_ u)))) (fill_ring_ u) Ho)
    as (r1 & k & i & r2 & Hres & Hfs & Hk & He & Ho2 & Hs); [lia| |].
  { intros j e Hj. unfold es in Hj. apply list_lookup_fmap_Some in Hj as (x & -> & [-> _]%lookup_seqZ). done. }
  rewrite Hlen in Hres, Hk, Ho2. rewrite Hres, Hfs. ub_step. eexists; split; [done|].
  rewrite Hk. destruct (pr_submit_all r2 _ Ho2) as (He' & Ho' & Hs').
  split_and!; [done|by rewrite He', He|congruence].
Qed.

Lemma posted_in_all (u : Umem FR CR) a :
  frames_fit (cfg_ u) → a ∈ posted_frames u → a ∈ all_frames (cfg_ u).
Proof.
  intros Hf. unfold posted_frames. case_bool_decide; [|by intros ?%elem_of_nil].
  intros (i & -> & Hi%elem_of_seqZ)%list_elem_of_fmap. apply elem_all_frames; [done|].
  exists i. split; [lia|done].
Qed.
End Populate.

(** ** Reference kernel *)

(** A kernel that has no huge pages, hands out addresses and handles above
    all those in use, and refuses a UMEM with a frame size below 2048; the
    allocator has a mebibyte. *)
Definition next_key (m : gmap Z Z) : Z := map_fold (λ k _ acc, Z.max k acc) 0 m + 4096.

Lemma next_key_fresh m : m !! next_key m = None.
Proof.
  assert (H : ∀ k, is_Some (m !! k) → k ≤ map_fold (λ k _ acc, Z.max k acc) 0 m).
  { apply (map_fold_weak_ind (λ r m, ∀ k, is_Some (m !! k) → k ≤ r)).
    - intros k [x Hx]. by rewrite lookup_empty in Hx.
    - intros i x m' r Hi IH k Hk. destruct (decide (k = i)) as [->|Hne]; [lia|].
      rewrite lookup_insert_ne in Hk by done. specialize (IH k Hk). lia. }
  destruct (m !! next_key m) eqn:He; [|done]. specialize (H (next_key m) ltac:(by eexists)).
  unfold next_key in H. lia.
Qed.

#[export] Program Instance demo_kernel : UmemKernel (list_prod Z) (list_cons Z) := {|
  mmap_answer w sz huge := if huge then None else Some (next_key (w_maps w));
  umem_create_answer w a sz c :=
    if bool_decide (xc_frame_size c < 2048) then inl (-22)
    else inr (next_key (w_umems w), mkLP (xc_fill_size c) [] [] 0, mkLC [] 0 0);
  new_answer w n := bool_decide (n ≤ 2 ^ 20);
|}.
Next Obligation. intros w sz [] a; [done|]. intros [= <-]. apply next_key_fresh. Qed.
Next Obligation.
  intros w a sz c h fr cr. cbn. case_bool_decide; [done|]. intros [= <- _ _]. apply next_key_fresh.
Qed.

Definition no_fill : list_prod Z := mkLP 0 [] [] 0.
Definition no_comp : list_cons Z := mkLC [] 0 0.
Definition world0 : world := mkWorld ∅ ∅ ∅.
Definition small_config : UmemConfig := mkUmemConfig 4096 8 4 4 true.

(** ** Properties *)

(** C9: the resources of [Umem] objects, exactly.  Any C++ program that
    constructs, move-constructs, move-assigns (also to itself) and destroys
    [Umem] objects and catches what the constructor throws, whatever [mmap],
    [xsk_umem__create] and the allocator answer, never deletes a handle or
    unmaps a region twice and never unmaps a region whose UMEM is still
    registered.  The ledger is at every moment exactly what the live objects
    own, and in addition one region with one handle on it for each
    constructor that threw from [reserve] -- which runs after both have been
    acquired, and whose exception keeps the destructor from running; any
    other exception leaves nothing behind.  So once all objects are
    destroyed nothing is left if [reserve] never threw, and otherwise as many
    regions and handles as it threw. *)
Theorem umem_raii_balanced {FR CR} `{!UmemKernel FR CR} (fr0 : FR) (cr0 : CR)
    (cs : list umem_cmd) (r : outcome (list uf_error * gmap nat (Umem FR CR) * world)) :
  exec_umems fr0 cr0 cs [] ∅ world0 = Some r →
  ∃ caught h w, r = Ret (caught, h, w) ∧ accounted caught h w ∧
    (h = ∅ → let n := length (filter reserve_threw caught) in
       size (w_maps w) = n ∧ size (w_umems w) = n ∧ (n = 0%nat → w = world0)).
Proof.
  intros Hr. destruct (exec_umems_accounted fr0 cr0 cs [] ∅ _ r accounted_start Hr) as (caught & h & w & -> & Hw).
  exists caught, h, w. split; [done|]. split; [done|]. intros ->.
  destruct (accounted_no_objects caught w Hw) as [H1 H2]. split_and!; [done|done|]. intros H0. rewrite H0 in H1, H2.
  apply map_size_empty_inv in H1, H2. destruct Hw as (g & Hw & _). pose proof (ow_socks g w Hw) as H3.
  destruct w as [maps umems socks]. cbn in *. by subst.
Qed.

(** Two objects, a construction refused by the kernel, moves in both
    directions, a self move, the destructors, and a construction whose
    [frame_size * frame_count] wraps to eight frames but whose
    [frame_count] no vector can hold. *)
Definition raii_program : list umem_cmd :=
  [UNew 0 small_config; UNew 1 (mkUmemConfig 1024 8 8 8 true); UNew 1 small_config;
   UMoveCtor 2 0; UMoveAssign 1 2; UMoveAssign 1 1; UMoveAssign 2 1;
   UDestroy 0; UDestroy 1; UDestroy 2; UNew 3 (mkUmemConfig 4096 (2 ^ 61 + 8) 8 8 true)].

Lemma raii_program_runs : ∃ w,
  exec_umems no_fill no_comp raii_program [] ∅ world0 = Some (Ret ([UmemCreateFailed (-22); VectorTooLong], ∅, w)).
Proof. eexists. vm_compute. reflexivity. Qed.

Lemma umem_raii_balanced_witness :
  ∃ w, exec_umems no_fill no_comp raii_program [] ∅ world0 =
      Some (Ret ([UmemCreateFailed (-22); VectorTooLong], ∅, w)) ∧
    size (w_maps w) = 1%nat ∧ size (w_umems w) = 1%nat.
Proof.
  destruct raii_program_runs as [w Hrun]. exists w. split; [exact Hrun|].
  destruct (umem_raii_balanced no_fill no_comp raii_program _ Hrun) as (caught & h & w' & [= <- <- <-] & _ & Hend).
  destruct (Hend eq_refl) as (H1 & H2 & _). split; [exact H1|exact H2].
Defined.

(** The three ways the constructor ends, run in a ledger that matches the
    live objects: it throws because [mmap] or [xsk_umem__create] failed and
    leaves nothing acquired; it throws from [reserve] and leaves a region
    and a handle that no object owns; or it returns an object that owns a
    fresh region and a fresh handle registered on it. *)
Theorem umem_ctor_outcomes {FR CR} `{!UmemKernel FR CR} (fr0 : FR) (cr0 : CR)
    (cfg : UmemConfig) (h : gmap nat (Umem FR CR)) (w : world) :
  owns h w →
  ∃ r w', Umem_ctor fr0 cr0 cfg w = Ret (r, w') ∧
    match r with
    | inl e => if reserve_threw e then leaked w w' else w' = w
    | inr u => valid u = true ∧ ∃ a hd, region_ u = Some a ∧ umem_ u = Some hd ∧
        w_maps w !! a = None ∧ w_umems w !! hd = None ∧
        w' = mkWorld (<[a := region_size_ u]> (w_maps w)) (<[hd := a]> (w_umems w)) (w_socks w)
    end.
Proof.
  intros Hw. destruct (Umem_ctor_cases fr0 cr0 cfg w (owns_mapped h w Hw)) as (r & w' & Hc & Hr).
  exists r, w'. split; [done|]. destruct r as [e|u]; [destruct (reserve_threw e); [done|by destruct Hr]|].
  destruct Hr as (_ & a & hd & ? & ? & ? & Hu & _ & _ & ?). split.
  - unfold valid. apply bool_decide_true. congruence.
  - by exists a, hd.
Qed.

Lemma umem_ctor_outcomes_witness :
  ∃ r w', Umem_ctor no_fill no_comp (mkUmemConfig 1024 8 8 8 true) world0 = Ret (r, w') ∧
    r = inl (UmemCreateFailed (-22)) ∧ w' = world0.
Proof.
  destruct (umem_ctor_outcomes no_fill no_comp (mkUmemConfig 1024 8 8 8 true) ∅ world0 owns_empty)
    as (r & w' & Hc & Hr).
  exists r, w'. split; [exact Hc|].
  assert (r = inl (UmemCreateFailed (-22))) as -> by (vm_compute in Hc; congruence).
  split; [reflexivity|exact Hr].
Defined.

(** The exception for a failed [mmap] always reports 0 bytes, whatever
    size was asked for: [region_size_] is reset before the message is
    formatted. *)
Theorem mmap_error_reports_zero {FR CR} `{!UmemKernel FR CR} (u : Umem FR CR) (w w' : world) (e : uf_error) :
  allocate_region u w = (inl e, w') → e = MmapFailed 0.
Proof.
  destruct (allocate_region_cases u w) as [->|(a & sz & huge & _ & _ & _ & ->)]; [|done].
  by intros [= <- _].
Qed.

(** A kernel that cannot map anything. *)
Program Definition out_of_memory : UmemKernel (list_prod Z) (list_cons Z) := {|
  mmap_answer w sz huge := None;
  umem_create_answer w a sz c := inl (-22);
  new_answer w n := true;
|}.
Next Obligation. done. Qed.
Next Obligation. done. Qed.

Lemma mmap_error_reports_zero_witness :
  allocate_region (UmemKernel0 := out_of_memory)
    (mkUmem small_config None 0 false None no_fill no_comp []) world0 = (inl (MmapFailed 0), world0) ∧
  MmapFailed 0 = MmapFailed 0.
Proof.
  split; [reflexivity|].
  apply (mmap_error_reports_zero (UmemKernel0 := out_of_memory)
    (mkUmem small_config None 0 false None no_fill no_comp []) world0 world0 (MmapFailed 0)).
  reflexivity.
Defined.

(** A constructed region is large enough: its size is the configured
    [frame_size * frame_count] rounded up to the page size used (4 KiB, or
    2 MiB with huge pages), so every frame lies in the region at
    [idx * frame_size], and no two frames overlap. *)
Theorem frames_lie_in_region {FR CR} `{!UmemKernel FR CR} (fr0 : FR) (cr0 : CR)
    (cfg : UmemConfig) (h : gmap nat (Umem FR CR)) (w w' : world) (u : Umem FR CR) (a : Z) :
  owns h w → frames_fit cfg → frame_size cfg * frame_count cfg + kHugePage ≤ 2 ^ 64 →
  Umem_ctor fr0 cr0 cfg w = Ret (inr u, w') → region_ u = Some a →
  (∃ page, page ∈ [4096; kHugePage] ∧ (page | region_size_ u) ∧
     frame_size cfg * frame_count cfg ≤ region_size_ u < frame_size cfg * frame_count cfg + page) ∧
  (∀ i, 0 ≤ i < frame_count cfg →
     frame_ptr u i = Some (a + i * frame_size cfg) ∧
     i * frame_size cfg + frame_size cfg ≤ region_size_ u) ∧
  (∀ i j, 0 ≤ i < j → j < frame_count cfg → i * frame_size cfg + frame_size cfg ≤ j * frame_size cfg).
Proof.
  intros Hw Hf Hb Hc Ha. destruct (Umem_ctor_cases fr0 cr0 cfg w (owns_mapped h w Hw)) as (r & w1 & Hc' & Hr).
  rewrite Hc in Hc'. injection Hc' as <- <-.
  destruct Hr as (Hcfg & a' & hd & _ & _ & Ha' & _ & (huge & Hsz) & _ & _).
  rewrite Ha in Ha'. injection Ha' as <-. pose proof Hf as (Hs & Hn & Hfit).
  rewrite (u64_small (_ * _)) in Hsz by nia.
  assert (Hpage : ∃ page k, page = 2 ^ k ∧ 0 ≤ k < 64 ∧ page ∈ [4096; kHugePage] ∧ page ≤ kHugePage ∧
    region_size_ u = align_up (frame_size cfg * frame_count cfg) page).
  { destruct huge; [exists kHugePage, 21|exists 4096, 12]; split_and!; try done; set_solver. }
  destruct Hpage as (page & k & -> & Hk & Hin & Hle & Hsz'). clear Hsz.
  rewrite align_up_eq in Hsz' by (nia || lia).
  set (raw := frame_size cfg * frame_count cfg) in *. assert (0 < 2 ^ k) by lia.
  pose proof (Z.div_mod (raw + 2 ^ k - 1) (2 ^ k) ltac:(lia)) as Hdm.
  pose proof (Z.mod_pos_bound (raw + 2 ^ k - 1) (2 ^ k) ltac:(lia)) as Hmb.
  assert (raw ≤ region_size_ u < raw + 2 ^ k) by (rewrite Hsz'; lia).
  split_and!.
  - exists (2 ^ k). split_and!; [done| |lia..]. exists ((raw + 2 ^ k - 1) `div` 2 ^ k). done.
  - intros i Hi. unfold frame_ptr, frame_offset. rewrite Ha, Hcfg, frame_offset_exact by done.
    split; [done|]. unfold raw in *. nia.
  - intros i j Hij Hj. nia.
Qed.

(** The object the small configuration constructs in an empty ledger. *)
Definition small_umem : Umem (list_prod Z) (list_cons Z) :=
  mkUmem small_config (Some 4096) 32768 false (Some 4096) (mkLP 4 [] [] 0) (mkLC [] 0 0)
         ((λ i, i * 4096) <$> seqZ 0 8).
Definition small_world : world := mkWorld {[4096 := 32768]} {[4096 := 4096]} ∅.

Lemma small_umem_ctor : Umem_ctor no_fill no_comp small_config world0 = Ret (inr small_umem, small_world).
Proof. vm_compute. reflexivity. Qed.

Lemma frames_lie_in_region_witness :
  frame_ptr small_umem 7 = Some (4096 + 7 * 4096) ∧ 7 * 4096 + 4096 ≤ region_size_ small_umem.
Proof.
  destruct (frames_lie_in_region no_fill no_comp small_config ∅ world0 small_world small_umem 4096)
    as (_ & H & _).
  - exact owns_empty.
  - vm_compute. split_and!; discriminate || reflexivity.
  - vm_compute. discriminate.
  - apply small_umem_ctor.
  - reflexivity.
  - apply H. split; vm_compute; [discriminate|reflexivity].
Defined.

(** The frame allocator never hands out a frame twice and never loses
    one: whatever a client that frees only frames it holds does after
    construction, the free list together with the frames it holds is always
    exactly the set of frame offsets, each once, and [alloc_frame] answers
    the sentinel [UINT64_MAX] exactly when the client holds them all. *)
Theorem frame_pool_exact {FR CR} `{!UmemKernel FR CR} (fr0 : FR) (cr0 : CR)
    (cfg : UmemConfig) (h : gmap nat (Umem FR CR)) (w w' : world) (u : Umem FR CR) (cs : list pool_cmd) :
  owns h w → frames_fit cfg → Umem_ctor fr0 cr0 cfg w = Ret (inr u, w') →
  let '(u', out) := foldl (λ s c, exec_pool c s) (u, []) cs in
  free_frames_ u' ++ out ≡ₚ all_frames cfg ∧ NoDup (free_frames_ u' ++ out) ∧
  ((alloc_frame u').1 = UINT64_MAX ↔ out ≡ₚ all_frames cfg).
Proof.
  intros Hw Hf Hc. destruct (Umem_ctor_cases fr0 cr0 cfg w (owns_mapped h w Hw)) as (r & w1 & Hc' & Hr).
  rewrite Hc in Hc'. injection Hc' as <- <-. destruct Hr as (Hcfg & a & hd & _ & _ & _ & _ & _ & Hff & _).
  assert (Hi : pool_inv cfg (u, [])).
  { unfold pool_inv. cbn. rewrite app_nil_r, Hff, offsets_exact by (done || lia). done. }
  apply (exec_pools_inv cfg cs) in Hi; [|done].
  destruct (foldl _ _ _) as [u' out]. unfold pool_inv in Hi. cbn in Hi. split_and!; [done| |].
  - rewrite Hi. by apply NoDup_all_frames.
  - destruct (alloc_frame_cases u') as [[Hn ->]|(l & x & Hl & ->)]; cbn.
    + split; [|done]. intros _. by rewrite Hn in Hi.
    + split.
      * intros ->. exfalso. apply (sentinel_not_frame cfg Hf). rewrite <- Hi, Hl. set_solver.
      * intros Hout. exfalso. apply Permutation_length in Hout, Hi. rewrite Hl, !length_app in Hi.
        cbn in Hi. lia.
Qed.

Lemma frame_pool_exact_witness :
  let '(u', out) := foldl (λ s c, exec_pool c s) (small_umem, []) [PAlloc; PAlloc; PFree 28672; PAlloc] in
  free_frames_ u' ++ out ≡ₚ all_frames small_config ∧ NoDup (free_frames_ u' ++ out) ∧
  ((alloc_frame u').1 = UINT64_MAX ↔ out ≡ₚ all_frames small_config).
Proof.
  apply (frame_pool_exact no_fill no_comp small_config ∅ world0 small_world small_umem
           [PAlloc; PAlloc; PFree 28672; PAlloc]).
  - exact owns_empty.
  - vm_compute. split_and!; discriminate || reflexivity.
  - apply small_umem_ctor.
Defined.

(** The allocator is last-in first-out: the frame just freed is the next
    one handed out, and handing it out restores the pool. *)
Theorem free_then_alloc {FR CR} (u : Umem FR CR) (offset : Z) :
  alloc_frame (free_frame offset u) = (offset, u).
Proof.
  destruct (alloc_frame_cases (free_frame offset u)) as [[Hn _]|(l & a & Hl & ->)].
  - cbn in Hn. by destruct (free_frames_ u).
  - cbn in Hl. apply app_inj_tail in Hl as [<- <-]. by destruct u.
Qed.

(** [populate_fill_ring] on a ring with nothing outstanding posts the
    offsets of the first [min(fill_size, frame_count)] frames, in order and
    behind what the ring already holds, or posts nothing at all when they
    do not all fit; nothing else of the object changes. *)
Theorem populate_fill_ring_posts {FR CR} `{!XskProd FR Z, !XskProdLaws FR Z} (u : Umem FR CR) :
  frames_fit (cfg_ u) → 0 ≤ fill_size (cfg_ u) →
  Z.min (fill_size (cfg_ u)) (frame_count (cfg_ u)) < 2 ^ 32 → pr_open (fill_ring_ u) = [] →
  ∃ r, populate_fill_ring u = Ret (set_fill_ring u r) ∧ pr_open r = [] ∧
    pr_entries r = pr_entries (fill_ring_ u) ++ posted_frames u.
Proof.
  intros H1 H2 H3 H4. destruct (populate_spec u H1 H2 H3 H4) as (r & Hp & Ho & He & _). by exists r.
Qed.

Lemma populate_fill_ring_posts_witness :
  posted_frames small_umem = [0; 4096; 8192; 12288] ∧
  ∃ r, populate_fill_ring small_umem = Ret (set_fill_ring small_umem r) ∧ pr_open r = [] ∧
    pr_entries r = pr_entries (fill_ring_ small_umem) ++ posted_frames small_umem.
Proof.
  split; [vm_compute; reflexivity|].
  apply (populate_fill_ring_posts small_umem).
  - vm_compute. split_and!; discriminate || reflexivity.
  - vm_compute. discriminate.
  - vm_compute. reflexivity.
  - reflexivity.
Defined.

(** The frames posted to the fill ring stay in the allocator's free
    list: after construction and [populate_fill_ring] every posted frame can
    still be handed out for transmission, and when the ring takes every
    frame the very next [alloc_frame] returns one the kernel already owns. *)
Theorem posted_frames_still_allocatable {FR CR} `{!UmemKernel FR CR, !XskProd FR Z, !XskProdLaws FR Z}
    (fr0 : FR) (cr0 : CR) (cfg : UmemConfig) (h : gmap nat (Umem FR CR)) (w w' : world) (u : Umem FR CR) :
  owns h w → frames_fit cfg → Umem_ctor fr0 cr0 cfg w = Ret (inr u, w') →
  (∀ f, f ∈ posted_frames u → f ∈ free_frames_ u) ∧
  (0 < frame_count cfg ≤ fill_size cfg → posted_frames u ≠ [] →
     (alloc_frame u).1 ∈ posted_frames u).
Proof.
  intros Hw Hf Hc. destruct (Umem_ctor_cases fr0 cr0 cfg w (owns_mapped h w Hw)) as (r & w1 & Hc' & Hr).
  rewrite Hc in Hc'. injection Hc' as <- <-. destruct Hr as (Hcfg & a & hd & _ & _ & _ & _ & _ & Hff & _).
  rewrite offsets_exact in Hff by (done || lia).
  assert (Hall : free_frames_ u = all_frames (cfg_ u)) by by rewrite Hcfg.
  assert (Hf' : frames_fit (cfg_ u)) by by rewrite Hcfg.
  split; [intros f ?; rewrite Hall; by apply posted_in_all|].
  intros Hcount Hne. assert (Hp : posted_frames u = all_frames (cfg_ u)).
  { unfold posted_frames in *. case_bool_decide; [|done]. unfold all_frames. rewrite Hcfg.
    by replace (Z.min _ _) with (frame_count cfg) by lia. }
  rewrite Hp. destruct (alloc_frame_cases u) as [[Hn _]|(l & x & Hl & ->)]; [congruence|].
  cbn. rewrite <- Hall, Hl. set_solver.
Qed.

Definition tx_config : UmemConfig := mkUmemConfig 4096 4 8 8 false.
Definition tx_umem : Umem (list_prod Z) (list_cons Z) :=
  mkUmem tx_config (Some 4096) 16384 false (Some 4096) (mkLP 8 [] [] 0) (mkLC [] 0 0)
         [0; 4096; 8192; 12288].

Lemma posted_frames_still_allocatable_witness :
  posted_frames tx_umem = [0; 4096; 8192; 12288] ∧ (alloc_frame tx_umem).1 ∈ posted_frames tx_umem.
Proof.
  split; [reflexivity|].
  apply (posted_frames_still_allocatable no_fill no_comp tx_config ∅ world0
           (mkWorld {[4096 := 16384]} {[4096 := 4096]} ∅) tx_umem).
  - exact owns_empty.
  - vm_compute. split_and!; discriminate || reflexivity.
  - vm_compute. reflexivity.
  - vm_compute. split; [reflexivity|discriminate].
  - vm_compute. discriminate.
Defined.

(** An [RxDesc] address is a byte offset, not a frame index: passing it
    to [frame_ptr] does not give the frame's address -- for every offset of
    a frame other than the first the result points elsewhere. *)
Theorem frame_ptr_of_offset_is_wrong {FR CR} (u : Umem FR CR) (a i : Z) :
  region_ u = Some a → 1 < frame_size (cfg_ u) → 0 < i →
  i * frame_size (cfg_ u) * frame_size (cfg_ u) < 2 ^ 64 →
  frame_ptr u i = Some (a + i * frame_size (cfg_ u)) ∧
  frame_ptr u (i * frame_size (cfg_ u)) ≠ Some (a + i * frame_size (cfg_ u)).
Proof.
  intros Ha Hs Hi Hb. unfold frame_ptr, frame_offset. rewrite Ha. cbn.
  rewrite !u64_small by nia. split; [done|]. intros [= Heq]. nia.
Qed.

Lemma frame_ptr_of_offset_is_wrong_witness :
  frame_ptr small_umem 1 = Some (4096 + 1 * 4096) ∧ frame_ptr small_umem (1 * 4096) ≠ Some (4096 + 1 * 4096).
Proof.
  apply (frame_ptr_of_offset_is_wrong small_umem 4096 1); vm_compute; reflexivity.
Defined.
