(* ===== verification/XdpSocket.v ===== *)
(** * XdpSocket: the AF_XDP socket

    Model of [include/ultrafast/xdp_socket.hpp] and [src/xdp_socket.cpp]:
    creation, close and the moves over the resource ledger, and the four
    burst operations over the libxdp rings.  The socket stores the address of
    its [Umem]; operations that go through it take that object and return it
    updated. *)

From S2P Require Import Prelude Xsk Umem.

(** ** Configuration and data *)

Record XdpSocketConfig : Type := mkXdpSocketConfig {
  sc_iface : string;
  sc_queue_id : Z;
  sc_rx_size : Z;
  sc_tx_size : Z;
  sc_xdp_flags : Z;
  sc_bind_flags : Z;
}.

(** [XDP_USE_NEED_WAKEUP], [XDP_COPY] and [XDP_FLAGS_SKB_MODE] of the kernel
    headers. *)
Definition XDP_USE_NEED_WAKEUP : Z := 8.
Definition XDP_COPY : Z := 2.
Definition XDP_FLAGS_SKB_MODE : Z := 2.

(** [XdpSocketConfig{}]. *)
Definition default_socket_config : XdpSocketConfig :=
  mkXdpSocketConfig "" 0 2048 2048 0 XDP_USE_NEED_WAKEUP.

Record RxDesc : Type := mkRxDesc { rx_addr : Z; rx_len : Z; rx_options : Z }.

#[export] Instance RxDesc_eq_dec : EqDecision RxDesc.
Proof. solve_decision. Defined.

Record xsk_socket_config : Type := mkXskSocketConfig {
  xs_rx_size : Z; xs_tx_size : Z; xs_libbpf_flags : Z; xs_xdp_flags : Z; xs_bind_flags : Z;
}.

Record XdpSocket (RR TR : Type) : Type := mkSocket {
  umem_ptr_ : Z;   (* Umem*: the address of the Umem object *)
  s_cfg_ : XdpSocketConfig;
  socket_ : option Z;
  rx_ring_ : RR;
  tx_ring_ : TR;
}.
Arguments mkSocket {RR TR} _ _ _ _ _.
Arguments umem_ptr_ {RR TR} _.
Arguments s_cfg_ {RR TR} _.
Arguments socket_ {RR TR} _.
Arguments rx_ring_ {RR TR} _.
Arguments tx_ring_ {RR TR} _.

(** The answer of [xsk_socket__create]: an error code, or a socket with its
    two rings; and [xsk_socket__fd]. *)
Class SocketKernel (RR TR : Type) := {
  socket_create_answer : world → string → Z → option Z → xsk_socket_config → Z + (Z * RR * TR);
  socket_fd : option Z → Z;
  socket_create_fresh w i q u c s rr tr :
    socket_create_answer w i q u c = inr (s, rr, tr) → w_socks w !! s = None;
  socket_create_umem w i q u c s rr tr :
    socket_create_answer w i q u c = inr (s, rr, tr) → u ≠ None;
}.

(** ** Reading peeked slots *)

(** The loop [for (i = 0; i < n; ++i) out[i] = convert( *slot(idx + i));] of
    the two consumers of the code. *)
Fixpoint read_slots {R E D} `{!XskCons R E} (n : nat) (i idx : Z) (convert : E → D) (r : R)
    (out : list D) : outcome (list D) :=
  match n with
  | O => Ret out
  | S n =>
      out' ← array_set out i (convert (cons_get r (u32 (idx + i))));
      read_slots n (i + 1) idx convert r out'
  end.

Section Operations.
Context {FR CR RR TR : Type}.
#[local] Abbreviation sock := (XdpSocket RR TR).
#[local] Abbreviation umem := (Umem FR CR).

Definition set_rx_ring (s : sock) (r : RR) : sock := mkSocket (umem_ptr_ s) (s_cfg_ s) (socket_ s) r (tx_ring_ s).
Definition set_tx_ring (s : sock) (r : TR) : sock := mkSocket (umem_ptr_ s) (s_cfg_ s) (socket_ s) (rx_ring_ s) r.

Definition socket_valid (s : sock) : bool := bool_decide (socket_ s ≠ None).

(** ** Lifetime *)

Definition create_socket `{!SocketKernel RR TR} (handle : option Z) (s : sock) (w : world)
    : (uf_error + sock) * world :=
  let cfg := mkXskSocketConfig (u32 (sc_rx_size (s_cfg_ s))) (u32 (sc_tx_size (s_cfg_ s))) 0
                               (sc_xdp_flags (s_cfg_ s)) (sc_bind_flags (s_cfg_ s)) in
  match socket_create_answer w (sc_iface (s_cfg_ s)) (sc_queue_id (s_cfg_ s)) handle cfg with
  | inl ret => (inl (SocketCreateFailed (sc_iface (s_cfg_ s)) (sc_queue_id (s_cfg_ s)) ret), w)
  | inr (sk, rr, tr) =>
      (inr (mkSocket (umem_ptr_ s) (s_cfg_ s) (Some sk) rr tr),
       mkWorld (w_maps w) (w_umems w) (<[sk := default 0 handle]> (w_socks w)))
  end.

Definition XdpSocket_ctor `{!SocketKernel RR TR} (rr0 : RR) (tr0 : TR) (uptr : Z) (u : umem)
    (cfg : XdpSocketConfig) (w : world) : (uf_error + sock) * world :=
  create_socket (umem_ u) (mkSocket uptr cfg None rr0 tr0) w.

Definition close_socket (s : sock) (w : world) : outcome (sock * world) :=
  match socket_ s with
  | None => Ret (s, w)
  | Some sk =>
      w' ← xsk_socket_delete sk w;
      Ret (mkSocket (umem_ptr_ s) (s_cfg_ s) None (rx_ring_ s) (tx_ring_ s), w')
  end.

Definition XdpSocket_dtor (s : sock) (w : world) : outcome world :=
  '(_, w') ← close_socket s w; Ret w'.

(** The source of a move keeps everything but the socket; its configuration
    (a string) is moved out. *)
Definition socket_moved_from (s : sock) : sock :=
  mkSocket (umem_ptr_ s)
           (mkXdpSocketConfig "" (sc_queue_id (s_cfg_ s)) (sc_rx_size (s_cfg_ s)) (sc_tx_size (s_cfg_ s))
                              (sc_xdp_flags (s_cfg_ s)) (sc_bind_flags (s_cfg_ s)))
           None (rx_ring_ s) (tx_ring_ s).

Definition XdpSocket_move_ctor (other : sock) : sock * sock := (other, socket_moved_from other).

Definition XdpSocket_move_assign (this other : sock) (w : world) : outcome (sock * sock * world) :=
  '(_, w') ← close_socket this w;
  Ret (other, socket_moved_from other, w').

Definition fd `{!SocketKernel RR TR} (s : sock) : Z := socket_fd (socket_ s).

(** ** Bursts *)

Definition rx_burst `{!XskCons RR xdp_desc} (out_descs : list RxDesc) (s : sock)
    : outcome (Z * list RxDesc * sock) :=
  let '(r1, rcvd, idx) := cons_peek (rx_ring_ s) (u32 (Z.of_nat (length out_descs))) in
  out ← read_slots (Z.to_nat rcvd) 0 idx (λ d, mkRxDesc (d_addr d) (d_len d) (d_options d)) r1 out_descs;
  let r2 := if bool_decide (rcvd > 0) then cons_release r1 (u32 rcvd) else r1 in
  Ret (rcvd, out, set_rx_ring s r2).

Definition rx_release `{!XskProd FR Z} (descs : list RxDesc) (u : umem) : outcome umem :=
  match descs with
  | [] => Ret u
  | _ =>
      let '(r1, reserved, idx) := prod_reserve (fill_ring_ u) (u32 (Z.of_nat (length descs))) in
      r2 ← fill_slots (Z.to_nat reserved) 0 idx (λ i, d ← array_get descs i; Ret (rx_addr d)) r1;
      Ret (set_fill_ring u (prod_submit r2 reserved))
  end.

Definition tx_burst `{!XskProd TR xdp_desc} (addrs lens : list Z) (count : Z) (s : sock)
    : outcome (Z * sock) :=
  if bool_decide (count = 0) then Ret (0, s)
  else
    let '(r1, reserved, idx) := prod_reserve (tx_ring_ s) (u32 count) in
    r2 ← fill_slots (Z.to_nat reserved) 0 idx
           (λ i, a ← array_get addrs i; l ← array_get lens i; Ret (mkDesc a l 0)) r1;
    let r3 := if bool_decide (reserved > 0) then prod_submit r2 reserved else r2 in
    Ret (reserved, set_tx_ring s r3).

(** [tx_kick]: whether the wake-up [sendto] is issued. *)
Definition tx_kick `{!XskProd TR xdp_desc} (s : sock) : bool := prod_needs_wakeup (tx_ring_ s).

Definition tx_complete `{!XskCons CR Z} (addrs : list Z) (max_count : Z) (u : umem)
    : outcome (Z * list Z * umem) :=
  let '(r1, n, idx) := cons_peek (comp_ring_ u) (u32 max_count) in
  out ← read_slots (Z.to_nat n) 0 idx id r1 addrs;
  let r2 := if bool_decide (n > 0) then cons_release r1 (u32 n) else r1 in
  Ret (n, out, set_comp_ring u r2).

(** ** Object lifetimes *)

(** Programs over socket objects that share one live [Umem] with handle
    [handle]. *)
Inductive socket_cmd : Type :=
| SNew (o : nat) (uptr : Z) (cfg : XdpSocketConfig)
| SMoveCtor (dst src : nat)
| SMoveAssign (dst src : nat)
| SDestroy (o : nat).

Definition exec_socket `{!SocketKernel RR TR} (rr0 : RR) (tr0 : TR) (handle : Z)
    (c : socket_cmd) (h : gmap nat sock) (w : world) : option (outcome (gmap nat sock * world)) :=
  match c with
  | SNew o uptr cfg =>
      match h !! o with
      | Some _ => None
      | None =>
          match create_socket (Some handle) (mkSocket uptr cfg None rr0 tr0) w with
          | (inl _, w') => Some (Ret (h, w'))
          | (inr s, w') => Some (Ret (<[o := s]> h, w'))
          end
      end
  | SMoveCtor dst src =>
      match h !! dst, h !! src with
      | None, Some other =>
          let '(this, other') := XdpSocket_move_ctor other in
          Some (Ret (<[dst := this]> (<[src := other']> h), w))
      | _, _ => None
      end
  | SMoveAssign dst src =>
      match h !! dst, h !! src with
      | Some this, Some other =>
          if bool_decide (dst = src) then Some (Ret (h, w))
          else Some ('(this', other', w') ← XdpSocket_move_assign this other w;
                     Ret (<[dst := this']> (<[src := other']> h), w'))
      | _, _ => None
      end
  | SDestroy o =>
      match h !! o with
      | None => None
      | Some s => Some (w' ← XdpSocket_dtor s w; Ret (delete o h, w'))
      end
  end.

Fixpoint exec_sockets `{!SocketKernel RR TR} (rr0 : RR) (tr0 : TR) (handle : Z)
    (cs : list socket_cmd) (h : gmap nat sock) (w : world) : option (outcome (gmap nat sock * world)) :=
  match cs with
  | [] => Some (Ret (h, w))
  | c :: cs =>
      match exec_socket rr0 tr0 handle c h w with
      | None => None
      | Some Undef => Some Undef
      | Some (Ret (h', w')) => exec_sockets rr0 tr0 handle cs h' w'
      end
  end.

End Operations.

(** ** Bursts: lemmas *)

Section Reads.
Context {R E D : Type} `{!XskCons R E}.

Lemma read_slots_spec (es : list E) (convert : E → D) (r : R) (idx : Z) (pre rest : list D) :
  (length es ≤ length rest)%nat →
  (∀ j e, es !! j = Some e → e = cons_get r (u32 (idx + Z.of_nat (length pre + j)))) →
  read_slots (length es) (Z.of_nat (length pre)) idx convert r (pre ++ rest) =
  Ret (pre ++ (convert <$> es) ++ drop (length es) rest).
Proof.
  revert pre rest. induction es as [|e es IH]; intros pre rest Hlen He; cbn; [done|].
  destruct rest as [|x rest]; cbn in Hlen; [lia|].
  rewrite array_set_in by (rewrite length_app; cbn; lia). ub_step.
  rewrite Nat2Z.id, insert_app_r_alt, Nat.sub_diag by lia. cbn.
  pose proof (He 0%nat e eq_refl) as He0. rewrite Nat.add_0_r in He0. rewrite <- He0.
  specialize (IH (pre ++ [convert e]) rest). rewrite length_app, <- !app_assoc in IH. cbn in IH.
  replace (Z.of_nat (length pre) + 1) with (Z.of_nat (length pre + 1)) by lia. apply IH; [lia|].
  intros j y Hj. rewrite <- Nat.add_assoc. by apply (He (S j)).
Qed.

(** Peek, copy out, release: the oldest entries are moved to the caller. *)
Lemma cons_batch_spec `{!XskConsLaws R E} (convert : E → D) (r : R) (out : list D) (n : Z) :
  cr_taken r = 0%nat → 0 ≤ n < 2 ^ 32 → n ≤ Z.of_nat (length out) →
  ∃ r1 k idx, cons_peek r n = (r1, Z.of_nat k, idx) ∧
    let r2 := if bool_decide (Z.of_nat k > 0) then cons_release r1 (u32 (Z.of_nat k)) else r1 in
    Z.of_nat k ≤ n ∧ (k ≤ length (cr_entries r))%nat ∧ (cr_entries r ≠ [] → 0 < n → (0 < k)%nat) ∧
    read_slots k 0 idx convert r1 out =
      Ret ((convert <$> take k (cr_entries r)) ++ drop k out) ∧
    cr_entries r2 = drop k (cr_entries r) ∧ cr_taken r2 = 0%nat.
Proof.
  intros Ht Hn Hout. destruct (cr_peek_some r n Ht Hn) as (r1 & k & i & Hp & Hkn & Hke & Hpos & He & Ht1 & Hget).
  exists r1, k, i. cbv zeta. do 4 (split; [done|]). split.
  - pose proof (read_slots_spec (take k (cr_entries r)) convert r1 i [] out) as Hr.
    rewrite length_take, Nat.min_l in Hr by lia. cbn in Hr. apply Hr; [lia|].
    intros j e Hj. apply lookup_take_Some in Hj as [Hj Hlt]. specialize (Hget j Hlt). cbn. congruence.
  - destruct (decide (k = 0%nat)) as [->|Hk].
    + rewrite bool_decide_false by lia. by rewrite He, drop_0.
    + rewrite bool_decide_true, u32_small by lia.
      destruct (cr_release_taken r1 k Ht1 ltac:(lia)) as [He2 Ht2]. by rewrite He2, He.
Qed.
End Reads.

Section Bursts.
Context {FR CR RR TR : Type}.
Implicit Types (s : XdpSocket RR TR) (u : Umem FR CR).

Definition to_rx (d : xdp_desc) : RxDesc := mkRxDesc (d_addr d) (d_len d) (d_options d).

Lemma rx_burst_spec `{!XskCons RR xdp_desc, !XskConsLaws RR xdp_desc} (out : list RxDesc) s :
  cr_taken (rx_ring_ s) = 0%nat → Z.of_nat (length out) < 2 ^ 32 →
  let q := cr_entries (rx_ring_ s) in
  ∃ k r, rx_burst out s =
           Ret (Z.of_nat k, (to_rx <$> take k q) ++ drop k out, set_rx_ring s r) ∧
    (k ≤ length out)%nat ∧ (k ≤ length q)%nat ∧ (q ≠ [] → out ≠ [] → (0 < k)%nat) ∧
    cr_entries r = drop k q ∧ cr_taken r = 0%nat.
Proof.
  intros Ht Hlen. cbv zeta. unfold rx_burst. rewrite u32_small by lia.
  destruct (cons_batch_spec to_rx (rx_ring_ s) out (Z.of_nat (length out)) Ht)
    as (r1 & k & idx & -> & Hkn & Hke & Hpos & Hread & He & Ht2); [lia..|].
  rewrite Nat2Z.id. unfold to_rx in Hread. rewrite Hread. ub_step. do 2 eexists. split; [done|].
  split_and!; [lia|lia| |done|done]. intros Hq Ho. apply Hpos; [done|]. destruct out; [done|]. cbn. lia.
Qed.

Lemma rx_release_spec `{!XskProd FR Z, !XskProdLaws FR Z} (descs : list RxDesc) u :
  pr_open (fill_ring_ u) = [] → Z.of_nat (length descs) < 2 ^ 32 →
  ∃ r, rx_release descs u = Ret (set_fill_ring u r) ∧ pr_open r = [] ∧
    pr_size r = pr_size (fill_ring_ u) ∧
    pr_entries r = pr_entries (fill_ring_ u) ++
      (if bool_decide (Z.of_nat (length descs) + Z.of_nat (length (pr_entries (fill_ring_ u)))
                       ≤ pr_size (fill_ring_ u)) then rx_addr <$> descs else []).
Proof.
  intros Ho Hlen. unfold rx_release. destruct descs as [|d0 ds].
  { exists (fill_ring_ u). split; [by destruct u|]. split_and!; [done..|].
    case_bool_decide; by rewrite app_nil_r. }
  set (descs := d0 :: ds) in *. rewrite u32_small by lia.
  destruct (prod_batch_spec (rx_addr <$> descs) (λ i, d ← array_get descs i; Ret (rx_addr d)) (fill_ring_ u) Ho)
    as (r1 & k & i & r2 & Hres & Hfs & Hk & He & Ho2 & Hs); [by rewrite length_fmap| |].
  { intros j e Hj. apply list_lookup_fmap_Some in Hj as (d & -> & Hd).
    rewrite (array_get_lookup _ _ d) by (rewrite ?Nat2Z.id; done || lia). done. }
  rewrite length_fmap in Hres, Hk, Ho2. rewrite Hres, Hfs. ub_step.
  destruct (pr_submit_all r2 _ Ho2) as (He' & Ho' & Hs'). rewrite <- Hk in He', Ho', Hs'.
  eexists. split; [done|]. split_and!; [done|congruence|by rewrite He', He].
Qed.

Lemma tx_burst_spec `{!XskProd TR xdp_desc, !XskProdLaws TR xdp_desc} (addrs lens : list Z) s :
  pr_open (tx_ring_ s) = [] → length addrs = length lens → Z.of_nat (length addrs) < 2 ^ 32 →
  let descs := zip_with (λ a l, mkDesc a l 0) addrs lens in
  let posted := if bool_decide (Z.of_nat (length addrs) + Z.of_nat (length (pr_entries (tx_ring_ s)))
                                ≤ pr_size (tx_ring_ s)) then descs else [] in
  ∃ r, tx_burst addrs lens (Z.of_nat (length addrs)) s =
         Ret (Z.of_nat (length posted), set_tx_ring s r) ∧ pr_open r = [] ∧
    pr_entries r = pr_entries (tx_ring_ s) ++ posted.
Proof.
  intros Ho Hll Hlen descs posted.
  assert (Hdl : length descs = length addrs) by (unfold descs; rewrite length_zip_with; lia).
  unfold tx_burst. case_bool_decide as H0.
  { destruct addrs; [|done]. exists (tx_ring_ s). unfold posted. cbn.
    destruct (bool_decide _); (split; [by destruct s|]); by rewrite app_nil_r. }
  rewrite u32_small by lia.
  destruct (prod_batch_spec descs (λ i, a ← array_get addrs i; l ← array_get lens i; Ret (mkDesc a l 0)) (tx_ring_ s) Ho)
    as (r1 & k & i & r2 & Hres & Hfs & Hk & He & Ho2 & Hs); [by rewrite Hdl| |].
  { intros j e Hj. apply lookup_zip_with_Some in Hj as (a & l & -> & Ha & Hl).
    rewrite (array_get_lookup addrs _ a), (array_get_lookup lens _ l);
      rewrite ?Nat2Z.id; (done || lia). }
  rewrite Hdl in Hres, Hk, Ho2. fold posted in Hk, Ho2. rewrite Hres, Hfs, Hk. ub_step.
  clearbody posted. destruct posted as [|d ds].
  - rewrite bool_decide_false by (cbn; lia). exists r2. split_and!; [done|done|].
    by rewrite app_nil_r.
  - rewrite bool_decide_true by (cbn; lia).
    destruct (pr_submit_all r2 _ Ho2) as (He' & Ho' & Hs'). eexists. split; [done|].
    split; [done|]. by rewrite He', He.
Qed.

Lemma tx_complete_spec `{!XskCons CR Z, !XskConsLaws CR Z} (addrs : list Z) (max_count : Z) u :
  cr_taken (comp_ring_ u) = 0%nat → 0 ≤ max_count < 2 ^ 32 → max_count ≤ Z.of_nat (length addrs) →
  let q := cr_entries (comp_ring_ u) in
  ∃ k r, tx_complete addrs max_count u = Ret (Z.of_nat k, take k q ++ drop k addrs, set_comp_ring u r) ∧
    Z.of_nat k ≤ max_count ∧ (k ≤ length q)%nat ∧ (q ≠ [] → 0 < max_count → (0 < k)%nat) ∧
    cr_entries r = drop k q ∧ cr_taken r = 0%nat.
Proof.
  intros Ht Hm Hlen. cbv zeta. unfold tx_complete. rewrite u32_small by lia.
  destruct (cons_batch_spec id (comp_ring_ u) addrs max_count Ht)
    as (r1 & k & idx & -> & Hkn & Hke & Hpos & Hread & He & Ht2); [lia..|].
  rewrite Nat2Z.id, Hread, list_fmap_id. ub_step. do 2 eexists. by split_and!.
Qed.
End Bursts.

(** ** Ownership of sockets *)

Section Ownership.
Context {RR TR : Type} `{!SocketKernel RR TR}.
Implicit Types (s : XdpSocket RR TR) (h : gmap nat (XdpSocket RR TR)) (w : world).

(** The sockets of the ledger beyond those of [w0] are exactly what the live
    objects own, and the rest of the ledger is that of [w0]. *)
Record sock_owns (w0 : world) h w : Prop := {
  so_live o s k : h !! o = Some s → socket_ s = Some k → is_Some (w_socks w !! k) ∧ w_socks w0 !! k = None;
  so_inj o o' s s' k : h !! o = Some s → h !! o' = Some s' →
    socket_ s = Some k → socket_ s' = Some k → o = o';
  so_all k v : w_socks w !! k = Some v →
    w_socks w0 !! k = Some v ∨ ∃ o s, h !! o = Some s ∧ socket_ s = Some k;
  so_old k v : w_socks w0 !! k = Some v → w_socks w !! k = Some v;
  so_rest : w_maps w = w_maps w0 ∧ w_umems w = w_umems w0;
}.

Lemma sock_owns_start w0 : sock_owns w0 ∅ w0.
Proof. split; try done; try (intros; by simplify_map_eq). auto. Qed.

Lemma sock_owns_empty w0 w : sock_owns w0 ∅ w → w = w0.
Proof.
  intros [Hl Hi Ha Ho [Hm Hu]]. destruct w as [m u s], w0 as [m0 u0 s0]; cbn in *. subst.
  f_equal. apply map_eq. intros k. destruct (s0 !! k) as [v|] eqn:H0; [by apply Ho|].
  destruct (s !! k) as [v|] eqn:H1; [|done]. destruct (Ha k v H1) as [?|(o & x & Hx & _)]; [congruence|].
  by rewrite lookup_empty in Hx.
Qed.

Lemma sock_release w0 h w o s :
  sock_owns w0 h w → h !! o = Some s → ∃ w', XdpSocket_dtor s w = Ret w' ∧ sock_owns w0 (delete o h) w'.
Proof.
  intros [Hl Hi Ha Ho [Hm Hu]] Hs. unfold XdpSocket_dtor, close_socket.
  destruct (socket_ s) as [k|] eqn:Hk.
  - destruct (Hl o s k Hs Hk) as [Hlive Hnew]. unfold xsk_socket_delete.
    rewrite bool_decide_true by done. ub_step. eexists; split; [done|]. split; cbn [w_socks w_maps w_umems].
    + intros o' s' k' [Hne Hs']%lookup_delete_Some Hk'. rewrite lookup_delete_ne; [by apply (Hl o' s' k')|].
      intros <-. apply Hne. by eapply Hi.
    + intros o1 o2 s1 s2 k' [_ H1]%lookup_delete_Some [_ H2]%lookup_delete_Some. by eapply Hi.
    + intros k' v [Hne Hv]%lookup_delete_Some. destruct (Ha k' v Hv) as [?|(o' & s' & Hs' & Hk')]; [by left|right].
      exists o', s'. split; [|done]. rewrite lookup_delete_ne; [done|]. intros ->. congruence.
    + intros k' v Hv. rewrite lookup_delete_ne; [by apply Ho|congruence].
    + done.
  - ub_step. exists w. split; [done|]. split; try done.
    + intros o' s' k' [_ Hs']%lookup_delete_Some. by apply (Hl o' s' k').
    + intros o1 o2 s1 s2 k' [_ H1]%lookup_delete_Some [_ H2]%lookup_delete_Some. by eapply Hi.
    + intros k' v Hv. destruct (Ha k' v Hv) as [?|(o' & s' & Hs' & Hk')]; [by left|right].
      exists o', s'. split; [|done]. rewrite lookup_delete_ne; [done|]. intros ->. congruence.
Qed.

Lemma sock_owns_move w0 h w dst src s :
  sock_owns w0 h w → h !! dst = None → h !! src = Some s →
  sock_owns w0 (<[dst := s]> (<[src := socket_moved_from s]> h)) w.
Proof.
  intros [Hl Hi Ha Ho Hr] Hd Hs. assert (dst ≠ src) as Hne by congruence.
  assert (Hcase : ∀ o v k, <[dst := s]> (<[src := socket_moved_from s]> h) !! o = Some v → socket_ v = Some k →
    (o = dst ∧ v = s) ∨ (o ≠ dst ∧ o ≠ src ∧ h !! o = Some v)).
  { intros o v k. rewrite !lookup_insert_Some. intros [[-> ->]|[? [[-> <-]|[? ?]]]]; auto. done. }
  split; try done.
  - intros o v k Hv Hk. destruct (Hcase o v k Hv Hk) as [[-> ->]|(_ & _ & Ho')]; eauto.
  - intros o o' v v' k Hv Hv' Hk Hk'.
    destruct (Hcase o v k Hv Hk) as [[-> ->]|(? & ? & H1)], (Hcase o' v' k Hv' Hk') as [[-> ->]|(? & ? & H2)];
      [done| | |by eapply Hi].
    + by assert (src = o') by by eapply (Hi src o' s v' k).
    + by assert (src = o) by by eapply (Hi src o s v k).
  - intros k v Hv. destruct (Ha k v Hv) as [?|(o & x & Hx & Hk)]; [by left|right].
    destruct (decide (o = src)) as [->|]; [exists dst|exists o]; exists x; by simplify_map_eq.
Qed.

Lemma sock_owns_new w0 h w o uptr cfg rr0 tr0 handle r w' :
  sock_owns w0 h w → h !! o = None →
  create_socket (Some handle) (mkSocket uptr cfg None rr0 tr0) w = (r, w') →
  match r with inl _ => w' = w | inr s => sock_owns w0 (<[o := s]> h) w' end.
Proof.
  intros [Hl Hi Ha Ho [Hm Hu]] Hno. unfold create_socket.
  destruct (socket_create_answer _ _ _ _ _) as [e|[[k rr] tr]] eqn:Hc; intros [= <- <-]; [done|].
  apply socket_create_fresh in Hc as Hf. assert (w_socks w0 !! k = None) as Hf0.
  { destruct (w_socks w0 !! k) eqn:E; [|done]. apply Ho in E. congruence. }
  split; cbn [w_socks w_maps w_umems]; try done.
  - intros o' s' k' [[<- <-]|[Hne Hs']]%lookup_insert_Some Hk'.
    + cbn in Hk'. injection Hk' as <-. split; [|done]. rewrite lookup_insert_eq. by eexists.
    + destruct (Hl o' s' k' Hs' Hk') as [Hlv Hnw]. split; [|done].
      rewrite lookup_insert_ne; [done|]. intros ->. by rewrite Hf in Hlv; destruct Hlv.
  - intros o1 o2 s1 s2 k' [[<- <-]|[Hn1 H1]]%lookup_insert_Some [[<- <-]|[Hn2 H2]]%lookup_insert_Some Hk1 Hk2;
      [done| | |by eapply Hi]; cbn in *; simplify_eq.
    + destruct (Hl _ _ _ H2 Hk2) as [[? ?] _]. congruence.
    + destruct (Hl _ _ _ H1 Hk1) as [[? ?] _]. congruence.
  - intros k' v [[<- <-]|[Hne Hv]]%lookup_insert_Some.
    + right. eexists o, _. by rewrite lookup_insert_eq.
    + destruct (Ha k' v Hv) as [?|(o' & s' & Hs' & Hk')]; [by left|right]. exists o', s'.
      split; [|done]. rewrite lookup_insert_ne; [done|congruence].
  - intros k' v Hv. rewrite lookup_insert_ne; [by apply Ho|congruence].
Qed.

Lemma exec_socket_owns w0 rr0 tr0 handle c h w r :
  sock_owns w0 h w → exec_socket rr0 tr0 handle c h w = Some r →
  ∃ h' w', r = Ret (h', w') ∧ sock_owns w0 h' w'.
Proof.
  intros Hw. destruct c as [o uptr cfg|dst src|dst src|o]; cbn.
  - destruct (h !! o) eqn:Ho; [done|].
    destruct (create_socket (Some handle) _ w) as [r1 w1] eqn:Hc.
    pose proof (sock_owns_new w0 h w o _ _ _ _ _ r1 w1 Hw Ho Hc) as Hn.
    destruct r1 as [e|s]; intros [= <-]; [subst w1; by exists h, w|by do 2 eexists].
  - destruct (h !! dst) eqn:Hd; [done|]. destruct (h !! src) as [s|] eqn:Hs; [|done]. intros [= <-].
    do 2 eexists. split; [done|]. by apply sock_owns_move.
  - destruct (h !! dst) as [this|] eqn:Hd; [|done]. destruct (h !! src) as [other|] eqn:Hs; [|done].
    case_bool_decide as Hself; intros [= <-]; [by exists h, w|].
    destruct (sock_release w0 h w dst this Hw Hd) as (w' & Hrel & Hw').
    assert (Hma : XdpSocket_move_assign this other w = Ret (other, socket_moved_from other, w')).
    { revert Hrel. unfold XdpSocket_dtor, XdpSocket_move_assign.
      destruct (close_socket this w) as [[s1 w1]|]; [|done]. ub_step. by intros [= <-]. }
    rewrite Hma. ub_step. do 2 eexists. split; [done|].
    replace (<[dst:=other]> (<[src:=socket_moved_from other]> h))
      with (<[dst:=other]> (<[src:=socket_moved_from other]> (delete dst h))).
    + apply sock_owns_move; [done|by rewrite lookup_delete_eq|by rewrite lookup_delete_ne].
    + rewrite insert_insert_ne by done. rewrite insert_delete_eq. by rewrite insert_insert_ne.
  - destruct (h !! o) as [s|] eqn:Ho; [|done]. intros [= <-].
    destruct (sock_release w0 h w o s Hw Ho) as (w' & -> & Hw'). ub_step. by exists (delete o h), w'.
Qed.

Lemma exec_sockets_owns w0 rr0 tr0 handle cs : ∀ h w r,
  sock_owns w0 h w → exec_sockets rr0 tr0 handle cs h w = Some r →
  ∃ h' w', r = Ret (h', w') ∧ sock_owns w0 h' w'.
Proof.
  induction cs as [|c cs IH]; intros h w r Hw; cbn.
  - intros [= <-]. by exists h, w.
  - destruct (exec_socket rr0 tr0 handle c h w) as [r1|] eqn:Hc; [|done].
    destruct (exec_socket_owns w0 rr0 tr0 handle c h w r1 Hw Hc) as (h1 & w1 & -> & Hw1). by apply IH.
Qed.
End Ownership.

(** ** Reference kernel *)

(** A kernel that knows one interface and hands out unused sockets. *)
#[export] Program Instance demo_socket_kernel :
    SocketKernel (list_cons xdp_desc) (list_prod xdp_desc) := {|
  socket_create_answer w iface q u c :=
    match u with
    | None => inl (-14)
    | Some _ =>
        if String.eqb iface "veth1"
        then inr (next_key (w_socks w), mkLC [] 0 0, mkLP (xs_tx_size c) [] [] 0) else inl (-19)
    end;
  socket_fd s := default (-1) s;
|}.
Next Obligation.
  intros w i q [u|] c s rr tr; [|done]. cbn. destruct (String.eqb i "veth1"); [|done].
  intros [= <- _ _]. apply next_key_fresh.
Qed.
Next Obligation. by intros w i q [u|] c s rr tr. Qed.

Definition no_rx : list_cons xdp_desc := mkLC [] 0 0.
Definition no_tx : list_prod xdp_desc := mkLP 0 [] [] 0.

(** ** Properties *)

(** A burst read takes the oldest received descriptors, in order,
    unchanged and each exactly once: it writes no more than the caller's
    span holds (never outside it), leaves the rest of the span alone,
    returns the number written, removes exactly those from the RX ring, and
    returns at least one whenever a frame is waiting. *)
Theorem rx_burst_takes_oldest {RR TR} `{!XskCons RR xdp_desc, !XskConsLaws RR xdp_desc}
    (out : list RxDesc) (s : XdpSocket RR TR) :
  cr_taken (rx_ring_ s) = 0%nat → Z.of_nat (length out) < 2 ^ 32 →
  let q := cr_entries (rx_ring_ s) in
  ∃ k r, rx_burst out s =
           Ret (Z.of_nat k, (to_rx <$> take k q) ++ drop k out, set_rx_ring s r) ∧
    (k ≤ length out)%nat ∧ (k ≤ length q)%nat ∧ (q ≠ [] → out ≠ [] → (0 < k)%nat) ∧
    cr_entries r = drop k q ∧ cr_taken r = 0%nat.
Proof. apply rx_burst_spec. Qed.

Definition demo_socket : XdpSocket (list_cons xdp_desc) (list_prod xdp_desc) :=
  mkSocket 0 default_socket_config (Some 7)
    (mkLC [mkDesc 256 60 0; mkDesc 4352 61 0; mkDesc 8448 62 0] 0 (2 ^ 32 - 1))
    (mkLP 2 [] [] (2 ^ 32 - 1)).

Lemma rx_burst_takes_oldest_witness :
  rx_burst (replicate 2 (mkRxDesc 0 0 0)) demo_socket =
    Ret (2, [mkRxDesc 256 60 0; mkRxDesc 4352 61 0],
         set_rx_ring demo_socket (mkLC [mkDesc 8448 62 0] 0 1)) ∧
  ∃ k r, rx_burst (replicate 2 (mkRxDesc 0 0 0)) demo_socket =
           Ret (Z.of_nat k, (to_rx <$> take k (cr_entries (rx_ring_ demo_socket)))
                            ++ drop k (replicate 2 (mkRxDesc 0 0 0)), set_rx_ring demo_socket r) ∧
    (k ≤ 2)%nat.
Proof.
  split; [vm_compute; reflexivity|].
  destruct (rx_burst_takes_oldest (replicate 2 (mkRxDesc 0 0 0)) demo_socket) as (k & r & H & Hk & _).
  - reflexivity.
  - vm_compute. reflexivity.
  - exists k, r. split; [exact H|exact Hk].
Defined.

(** C33: [rx_release] gives back all the frames of the batch or none: when
    the fill ring has room for the whole batch their addresses are appended
    in order, and otherwise the ring is left as it was and the frames are
    dropped -- the caller is not told. *)
Theorem rx_release_all_or_nothing {FR CR} `{!XskProd FR Z, !XskProdLaws FR Z}
    (descs : list RxDesc) (u : Umem FR CR) :
  pr_open (fill_ring_ u) = [] → Z.of_nat (length descs) < 2 ^ 32 →
  ∃ r, rx_release descs u = Ret (set_fill_ring u r) ∧ pr_open r = [] ∧
    (Z.of_nat (length descs) + Z.of_nat (length (pr_entries (fill_ring_ u))) ≤ pr_size (fill_ring_ u) →
       pr_entries r = pr_entries (fill_ring_ u) ++ (rx_addr <$> descs)) ∧
    (pr_size (fill_ring_ u) < Z.of_nat (length descs) + Z.of_nat (length (pr_entries (fill_ring_ u))) →
       pr_entries r = pr_entries (fill_ring_ u)).
Proof.
  intros Ho Hl. destruct (rx_release_spec descs u Ho Hl) as (r & Hr & Ho' & _ & He). exists r.
  split_and!; [done..| |]; intros Hroom; rewrite He.
  - by rewrite bool_decide_true.
  - rewrite bool_decide_false by lia. apply app_nil_r.
Qed.

Definition nearly_full_umem : Umem (list_prod Z) (list_cons Z) :=
  set_fill_ring small_umem (mkLP 4 [0; 4096; 8192] [] 3).

Lemma rx_release_all_or_nothing_witness :
  ∃ r, rx_release [mkRxDesc 12544 60 0; mkRxDesc 16640 60 0] nearly_full_umem =
         Ret (set_fill_ring nearly_full_umem r) ∧ pr_entries r = [0; 4096; 8192].
Proof.
  destruct (rx_release_all_or_nothing [mkRxDesc 12544 60 0; mkRxDesc 16640 60 0] nearly_full_umem)
    as (r & Hr & _ & _ & Hlost).
  - reflexivity.
  - vm_compute. reflexivity.
  - exists r. split; [exact Hr|]. apply Hlost. vm_compute. reflexivity.
Defined.

(** [tx_burst] enqueues every frame it is given or none of them: with
    room in the TX ring for all, the descriptors ([addrs[i]], [lens[i]], no
    options) are appended in order and [count] is returned; otherwise
    nothing is enqueued and 0 is returned.  The arrays are never read out of
    bounds. *)
Theorem tx_burst_all_or_nothing {RR TR} `{!XskProd TR xdp_desc, !XskProdLaws TR xdp_desc}
    (addrs lens : list Z) (s : XdpSocket RR TR) :
  pr_open (tx_ring_ s) = [] → length addrs = length lens → Z.of_nat (length addrs) < 2 ^ 32 →
  let descs := zip_with (λ a l, mkDesc a l 0) addrs lens in
  let posted := if bool_decide (Z.of_nat (length addrs) + Z.of_nat (length (pr_entries (tx_ring_ s)))
                                ≤ pr_size (tx_ring_ s)) then descs else [] in
  ∃ r, tx_burst addrs lens (Z.of_nat (length addrs)) s =
         Ret (Z.of_nat (length posted), set_tx_ring s r) ∧ pr_open r = [] ∧
    pr_entries r = pr_entries (tx_ring_ s) ++ posted.
Proof. apply tx_burst_spec. Qed.

Lemma tx_burst_all_or_nothing_witness :
  ∃ r, tx_burst [0; 4096] [60; 64] 2 demo_socket = Ret (2, set_tx_ring demo_socket r) ∧
    pr_open r = [] ∧ pr_entries r = [] ++ [mkDesc 0 60 0; mkDesc 4096 64 0].
Proof.
  destruct (tx_burst_all_or_nothing [0; 4096] [60; 64] demo_socket) as (r & H & Ho & He).
  - reflexivity.
  - reflexivity.
  - vm_compute. reflexivity.
  - exists r. vm_compute in H, Ho, He |- *. split; [exact H|]. split; [exact Ho|exact He].
Defined.

(** [tx_complete] hands the caller the oldest completed frames, in order
    and once, never writes more than [max_count] of them, and removes
    exactly those from the completion ring. *)
Theorem tx_complete_takes_oldest {FR CR} `{!XskCons CR Z, !XskConsLaws CR Z}
    (addrs : list Z) (max_count : Z) (u : Umem FR CR) :
  cr_taken (comp_ring_ u) = 0%nat → 0 ≤ max_count < 2 ^ 32 → max_count ≤ Z.of_nat (length addrs) →
  let q := cr_entries (comp_ring_ u) in
  ∃ k r, tx_complete addrs max_count u = Ret (Z.of_nat k, take k q ++ drop k addrs, set_comp_ring u r) ∧
    Z.of_nat k ≤ max_count ∧ (k ≤ length q)%nat ∧ (q ≠ [] → 0 < max_count → (0 < k)%nat) ∧
    cr_entries r = drop k q ∧ cr_taken r = 0%nat.
Proof. apply tx_complete_spec. Qed.

Definition completing_umem : Umem (list_prod Z) (list_cons Z) :=
  set_comp_ring small_umem (mkLC [0; 4096; 8192] 0 5).

Lemma tx_complete_takes_oldest_witness :
  ∃ k r, tx_complete [9; 9] 2 completing_umem =
           Ret (Z.of_nat k, take k [0; 4096; 8192] ++ drop k [9; 9], set_comp_ring completing_umem r) ∧
    Z.of_nat k ≤ 2 ∧ (0 < k)%nat.
Proof.
  destruct (tx_complete_takes_oldest [9; 9] 2 completing_umem) as (k & r & H & Hk & _ & Hpos & _).
  - reflexivity.
  - vm_compute. split; [discriminate|reflexivity].
  - vm_compute. discriminate.
  - exists k, r. split; [exact H|]. split; [exact Hk|]. apply Hpos; [discriminate|reflexivity].
Defined.

(** C34: any program that creates, moves and destroys [XdpSocket] objects on
    a live [Umem] never closes a socket twice and leaks none: the sockets
    held beyond those that were open before are exactly those of the live
    objects, a failed creation holds nothing, and destroying the objects
    gives the ledger back as it was. *)
Theorem socket_raii_balanced {RR TR} `{!SocketKernel RR TR} (rr0 : RR) (tr0 : TR) (handle : Z)
    (cs : list socket_cmd) (w0 : world) (r : outcome (gmap nat (XdpSocket RR TR) * world)) :
  exec_sockets rr0 tr0 handle cs ∅ w0 = Some r →
  ∃ h w, r = Ret (h, w) ∧ sock_owns w0 h w ∧ (h = ∅ → w = w0).
Proof.
  intros Hr. destruct (exec_sockets_owns w0 rr0 tr0 handle cs _ _ r (sock_owns_start w0) Hr) as (h & w & -> & Hw).
  exists h, w. split_and!; [done..|]. intros ->. exact (sock_owns_empty w0 w Hw).
Qed.

Definition veth_config : XdpSocketConfig := mkXdpSocketConfig "veth1" 0 2048 2048 0 8.

Definition socket_program : list socket_cmd :=
  [SNew 0 0 veth_config; SNew 1 0 default_socket_config; SNew 1 0 veth_config; SMoveAssign 1 0;
   SMoveAssign 1 1; SMoveCtor 2 1; SDestroy 0; SDestroy 1; SDestroy 2].

Lemma socket_raii_balanced_witness :
  exec_sockets no_rx no_tx 4096 socket_program ∅ small_world ≠ None ∧
  ∃ h w, exec_sockets no_rx no_tx 4096 (take 6 socket_program) ∅ small_world = Some (Ret (h, w)) ∧
         sock_owns small_world h w ∧ (h = ∅ → w = small_world).
Proof.
  split; [vm_compute; discriminate|].
  destruct (exec_sockets no_rx no_tx 4096 (take 6 socket_program) ∅ small_world) as [r|] eqn:Hr;
    [|exfalso; vm_compute in Hr; discriminate].
  destruct (socket_raii_balanced no_rx no_tx 4096 (take 6 socket_program) small_world r Hr) as (h & w & -> & H).
  exists h, w. split; [reflexivity|exact H].
Defined.
