(* ===== verification/TxPath.v ===== *)
(** * The transmit path

    A client that sends frames of its own: it takes frames from the [Umem]'s
    allocator ([alloc_frame]), enqueues them on an [XdpSocket] ([tx_burst]),
    gets them back from the completion ring ([tx_complete]) and frees them
    ([free_frame]), in any order, while the kernel takes descriptors from
    the TX ring and completes frames.  [tx_kick] only wakes the kernel up,
    whose steps may happen at any time here. *)

From S2P Require Import Prelude Xsk Umem XdpSocket.

Section TxPath.
Context {FR CR RR TR : Type} `{!XskProd TR xdp_desc, !XskProdLaws TR xdp_desc, !XskCons CR Z, !XskConsLaws CR Z}.

(** The two objects, the frames the client holds and those the kernel has
    taken and not completed. *)
Record tx_state : Type := mkTx {
  t_umem : Umem FR CR;
  t_sock : XdpSocket RR TR;
  t_held : list Z;
  t_wire : list Z;
}.

(** A [Umem] as constructed, and rings nothing went through. *)
Record tx_init (cfg : UmemConfig) (s : tx_state) : Prop := {
  ti_fit : frames_fit cfg;
  ti_free : free_frames_ (t_umem s) = all_frames cfg;
  ti_comp : cr_entries (comp_ring_ (t_umem s)) = [] ∧ cr_taken (comp_ring_ (t_umem s)) = 0%nat;
  ti_tx : pr_entries (tx_ring_ (t_sock s)) = [] ∧ pr_open (tx_ring_ (t_sock s)) = [];
  ti_none : t_held s = [] ∧ t_wire s = [];
}.

Inductive tx_step : tx_state → tx_state → Prop :=
| tx_alloc s a u :
    alloc_frame (t_umem s) = (a, u) → a ≠ UINT64_MAX →
    tx_step s (mkTx u (t_sock s) (a :: t_held s) (t_wire s))
| tx_free s a rest :
    t_held s ≡ₚ a :: rest →
    tx_step s (mkTx (free_frame a (t_umem s)) (t_sock s) rest (t_wire s))
| tx_send s addrs lens rest n sk :
    t_held s ≡ₚ addrs ++ rest → length addrs = length lens → Z.of_nat (length addrs) < 2 ^ 32 →
    tx_burst addrs lens (Z.of_nat (length addrs)) (t_sock s) = Ret (n, sk) →
    tx_step s (mkTx (t_umem s) sk (drop (Z.to_nat n) addrs ++ rest) (t_wire s))
| tx_reclaim s buf max_count n buf' u :
    0 ≤ max_count < 2 ^ 32 → max_count ≤ Z.of_nat (length buf) →
    tx_complete buf max_count (t_umem s) = Ret (n, buf', u) →
    tx_step s (mkTx u (t_sock s) (take (Z.to_nat n) buf' ++ t_held s) (t_wire s))
| tx_kernel_take s k r :
    pr_entries r = drop k (pr_entries (tx_ring_ (t_sock s))) → pr_open r = [] →
    tx_step s (mkTx (t_umem s) (set_tx_ring (t_sock s) r) (t_held s)
                    (t_wire s ++ (d_addr <$> take k (pr_entries (tx_ring_ (t_sock s))))))
| tx_kernel_done s a rest r :
    t_wire s ≡ₚ a :: rest → cr_entries r = cr_entries (comp_ring_ (t_umem s)) ++ [a] → cr_taken r = 0%nat →
    tx_step s (mkTx (set_comp_ring (t_umem s) r) (t_sock s) (t_held s) rest).

(** Where the frames are. *)
Definition tx_frames (s : tx_state) : list Z :=
  free_frames_ (t_umem s) ++ t_held s ++ (d_addr <$> pr_entries (tx_ring_ (t_sock s))) ++ t_wire s ++
  cr_entries (comp_ring_ (t_umem s)).

Record tx_inv (cfg : UmemConfig) (s : tx_state) : Prop := {
  tv_frames : tx_frames s ≡ₚ all_frames cfg;
  tv_open : pr_open (tx_ring_ (t_sock s)) = [];
  tv_taken : cr_taken (comp_ring_ (t_umem s)) = 0%nat;
}.

Lemma tx_init_inv cfg s : tx_init cfg s → tx_inv cfg s.
Proof.
  intros [_ Hf [Hc Ht] [He Ho] [Hh Hw]]. split; [|done|done]. unfold tx_frames. rewrite Hf, Hc, He, Hh, Hw. cbn.
  by rewrite app_nil_r.
Qed.

Lemma addrs_of_zip addrs lens :
  length addrs = length lens → d_addr <$> zip_with (λ a l, mkDesc a l 0) addrs lens = addrs.
Proof.
  revert lens. induction addrs as [|a addrs IH]; intros [|l lens] Hl; [done..|]. cbn. f_equal. apply IH. cbn in Hl. lia.
Qed.

Lemma tx_step_inv cfg s s' : tx_step s s' → tx_inv cfg s → tx_inv cfg s'.
Proof.
  intros Hstep [Hf Ho Ht]. unfold tx_frames in Hf. destruct Hstep as
    [s a u Ha Hne|s a rest Hh|s addrs lens rest n sk Hh Hl Hlen Hb|s buf mx n buf' u Hm Hlb Hc|s k r He Ho'|s a rest r Hw He Ht'].
  - destruct (alloc_frame_cases (t_umem s)) as [[_ E]|(l & x & Hfree & E)]; rewrite E in Ha; injection Ha as <- <-; [done|].
    split; [|done|done]. rewrite <- Hf. unfold tx_frames. cbn. rewrite Hfree. solve_Permutation.
  - split; [|done|done]. rewrite <- Hf, Hh. unfold tx_frames. cbn. solve_Permutation.
  - destruct (tx_burst_spec addrs lens (t_sock s) Ho Hl Hlen) as (r & E & Ho2 & He). rewrite E in Hb. injection Hb as <- <-.
    split; [|done|done]. rewrite <- Hf, Hh. unfold tx_frames. cbn. rewrite He, fmap_app. case_bool_decide.
    + rewrite Nat2Z.id, length_zip_with_l_eq, drop_all, addrs_of_zip by done. solve_Permutation.
    + cbn. by rewrite app_nil_r.
  - destruct (tx_complete_spec buf mx (t_umem s) Ht Hm Hlb) as (k & r & E & Hk & Hkl & _ & He & Ht2). rewrite E in Hc. injection Hc as <- <- <-.
    split; [|done|done]. rewrite <- Hf. unfold tx_frames. cbn. rewrite He, Nat2Z.id, take_app_le, take_take, Nat.min_id by (rewrite length_take; lia).
    rewrite <- (take_drop k (cr_entries (comp_ring_ (t_umem s)))) at 3. solve_Permutation.
  - split; [|done|done]. rewrite <- Hf. unfold tx_frames. cbn. rewrite He.
    rewrite <- (take_drop k (pr_entries (tx_ring_ (t_sock s)))) at 3. rewrite fmap_app. solve_Permutation.
  - split; [|done|done]. rewrite <- Hf, Hw. unfold tx_frames. cbn. rewrite He. solve_Permutation.
Qed.

Lemma tx_reachable_inv cfg s0 s : tx_init cfg s0 → rtc tx_step s0 s → tx_inv cfg s.
Proof. intros H0 Hr. apply tx_init_inv in H0. induction Hr; [done|]. eauto using tx_step_inv. Qed.
End TxPath.
Arguments tx_state : clear implicits.
Arguments mkTx {FR CR RR TR} _ _ _ _.

(** ** Properties *)

(** C20: no frame of the transmit path is lost or lent twice.  A client that
    allocates frames of a successfully constructed [Umem], sends and frees only frames it holds
    and takes back what [tx_complete] returns, in any order and whatever the
    kernel does in between: each frame of the region is always in exactly
    one place -- the free list, the client's hands, the TX ring, the wire,
    or the completion ring; what is on the wire is a frame of the region
    that neither the client nor the allocator has; [alloc_frame] answers the
    sentinel exactly when the free list is empty; and every [tx_burst] and
    [tx_complete] the client may make is free of undefined behaviour, the
    one taking all frames or none, the other returning frames that the
    client did not hold. *)
Theorem tx_frames_conserved {FR CR RR TR}
    `{!UmemKernel FR CR, !XskProd TR xdp_desc, !XskProdLaws TR xdp_desc, !XskCons CR Z, !XskConsLaws CR Z}
    (fr0 : FR) (cr0 : CR) (cfg : UmemConfig) (w w' : world) (u : Umem FR CR) (sk : XdpSocket RR TR) (s : tx_state FR CR RR TR) :
  umems_mapped w → frames_fit cfg → Umem_ctor fr0 cr0 cfg w = Ret (inr u, w') →
  cr_entries (comp_ring_ u) = [] → cr_taken (comp_ring_ u) = 0%nat → pr_entries (tx_ring_ sk) = [] → pr_open (tx_ring_ sk) = [] →
  rtc tx_step (mkTx u sk [] []) s →
  tx_frames s ≡ₚ all_frames cfg ∧ NoDup (tx_frames s) ∧
  (∀ a, a ∈ t_wire s → (∃ i, 0 ≤ i < frame_count cfg ∧ a = i * frame_size cfg) ∧ a ∉ t_held s ∧ a ∉ free_frames_ (t_umem s)) ∧
  ((alloc_frame (t_umem s)).1 = UINT64_MAX ↔ free_frames_ (t_umem s) = []) ∧
  (∀ addrs lens rest, t_held s ≡ₚ addrs ++ rest → length addrs = length lens → Z.of_nat (length addrs) < 2 ^ 32 →
     ∃ n sk', tx_burst addrs lens (Z.of_nat (length addrs)) (t_sock s) = Ret (n, sk') ∧ (n = 0 ∨ n = Z.of_nat (length addrs))) ∧
  (∀ buf max_count, 0 ≤ max_count < 2 ^ 32 → max_count ≤ Z.of_nat (length buf) →
     ∃ k buf' u', tx_complete buf max_count (t_umem s) = Ret (Z.of_nat k, buf', u') ∧ Z.of_nat k ≤ max_count ∧
       Forall (λ a, a ∉ t_held s) (take k buf')).
Proof.
  intros Hw Hfit Hctor Hc Ht He Ho Hr.
  destruct (Umem_ctor_cases fr0 cr0 cfg w Hw) as (x & w1 & E & Hx). rewrite Hctor in E. injection E as <- <-.
  destruct Hx as (_ & a0 & hd & _ & _ & _ & _ & _ & Hff & _).
  assert (Hi : tx_inv cfg s).
  { eapply tx_reachable_inv; [|exact Hr]. split; cbn; [done| |done|done|done]. by rewrite Hff, offsets_exact by (done || lia). }
  destruct Hi as [Hf Hopen Htaken].
  assert (Hnd : NoDup (tx_frames s)) by (rewrite Hf; by apply NoDup_all_frames). pose proof Hnd as Hnd2.
  unfold tx_frames in Hnd2. rewrite !NoDup_app in Hnd2. destruct Hnd2 as (_ & N1 & _ & N2 & _ & N3 & _).
  split; [done|]. split; [done|]. split_and!.
  - intros a Ha. split; [|split].
    + apply elem_all_frames; [done|]. rewrite <- Hf. unfold tx_frames. set_solver.
    + intros Hh. apply (N2 a Hh). set_solver.
    + intros Hh. apply (N1 a Hh). set_solver.
  - destruct (alloc_frame_cases (t_umem s)) as [[Hn ->]|(l & x & Hl & ->)]; [done|]. cbn. split.
    + intros ->. exfalso. apply (sentinel_not_frame cfg Hfit). rewrite <- Hf. unfold tx_frames. rewrite Hl. set_solver.
    + intros Hn. rewrite Hl in Hn. by apply app_nil in Hn as [_ ?].
  - intros addrs lens rest Hh Hl Hlen. destruct (tx_burst_spec addrs lens (t_sock s) Hopen Hl Hlen) as (r & E & _).
    do 2 eexists. split; [exact E|]. case_bool_decide; [right|by left]. by rewrite length_zip_with_l_eq.
  - intros buf mx Hm Hlb. destruct (tx_complete_spec buf mx (t_umem s) Htaken Hm Hlb) as (k & r & E & Hk & Hkl & _).
    exists k. do 2 eexists. split; [exact E|]. split; [done|].
    rewrite take_app_le, take_take, Nat.min_id by (rewrite length_take; lia). apply Forall_forall.
    intros a Ha%elem_of_take Hh. destruct Ha as (i & Ha%list_elem_of_lookup_2 & _). apply (N2 a Hh). set_solver.
Qed.

(** Two frames are allocated and sent, the kernel takes both and completes
    the first, which is reclaimed. *)
Definition tx_socket : XdpSocket (list_cons xdp_desc) (list_prod xdp_desc) :=
  mkSocket 0 default_socket_config (Some 7) (mkLC [] 0 0) (mkLP 4 [] [] 0).

(** One more step, from a state brought into normal form. *)
Ltac tx_demo_step tac :=
  eapply rtc_l; [tac|];
  match goal with |- rtc _ ?s _ => let s' := eval vm_compute in s in replace s with s' by (vm_compute; reflexivity) end.

Lemma tx_demo_run :
  ∃ s, rtc tx_step (mkTx small_umem tx_socket [] []) s ∧ t_held s = [28672] ∧ t_wire s = [24576].
Proof.
  eexists. split.
  - tx_demo_step ltac:(eapply tx_alloc; [reflexivity|discriminate]). tx_demo_step ltac:(eapply tx_alloc; [reflexivity|discriminate]).
    tx_demo_step ltac:(eapply (tx_send _ [28672; 24576] [60; 64] []); [apply Permutation_swap|reflexivity..|vm_compute; reflexivity]).
    tx_demo_step ltac:(eapply (tx_kernel_take _ 2 (mkLP 4 [] [] 2)); reflexivity).
    tx_demo_step ltac:(eapply (tx_kernel_done _ 28672 [24576] (mkLC [28672] 0 0)); reflexivity).
    tx_demo_step ltac:(eapply (tx_reclaim _ [0] 1); [split; [discriminate|reflexivity]|discriminate|vm_compute; reflexivity]). apply rtc_refl.
  - split; reflexivity.
Qed.

Lemma tx_frames_conserved_witness :
  ∃ s, rtc tx_step (mkTx small_umem tx_socket [] []) s ∧ t_wire s = [24576] ∧ tx_frames s ≡ₚ all_frames small_config ∧ 24576 ∉ t_held s.
Proof.
  destruct tx_demo_run as (s & Hr & _ & Hw). exists s. split; [exact Hr|]. split; [exact Hw|].
  destruct (tx_frames_conserved no_fill no_comp small_config world0 small_world small_umem tx_socket s) as (H1 & _ & H2 & _).
  - intros a _. apply map_Forall_empty.
  - vm_compute. split_and!; discriminate || reflexivity.
  - apply small_umem_ctor.
  - reflexivity.
  - reflexivity.
  - reflexivity.
  - reflexivity.
  - exact Hr.
  - split; [exact H1|]. apply H2. rewrite Hw. apply list_elem_of_singleton. reflexivity.
Defined.
