(* ===== verification/FeedHandler.v ===== *)
(** * FeedHandler: from the socket to the event ring

    Model of [include/ultrafast/feed_handler.hpp] and
    [src/feed_handler.cpp]: construction and destruction over the resource
    ledger, [start] / [stop], the body of the receive loop, and the making of
    a [FeedEvent] from a received frame.  The event ring is used through the
    [BoundedQueue] interface.  Pointers into the UMEM region are offsets from
    its base: the frame at [base() + addr] is at [addr] in the region's
    bytes. *)

From S2P Require Import Prelude Queue RingBuffer FeedEvent Packet Xsk Umem XdpSocket.

(** ** Configuration *)

Record Config : Type := mkConfig {
  iface : string;
  queue_id : Z;      (* int *)
  xdp_flags : Z;
  bind_flags : Z;
  rx_batch : Z;      (* int *)
  busy_poll : bool;
}.

(** [FeedHandler::Config{}]. *)
Definition default_handler_config : Config :=
  mkConfig "veth1" 0 XDP_FLAGS_SKB_MODE XDP_COPY 64 false.

Definition kRingCap : Z := 65536.
Definition kMaxBatch : Z := 64.

Definition make_xdp_cfg (cfg : Config) : XdpSocketConfig :=
  let c := default_socket_config in
  mkXdpSocketConfig (iface cfg) (u32 (queue_id cfg)) (sc_rx_size c) (sc_tx_size c)
                    (xdp_flags cfg) (bind_flags cfg).

(** ** Clock *)

(** What [clock_gettime] writes; the arithmetic is unsigned, at 64 bits. *)
Record timespec : Type := mkTimespec { tv_sec : Z; tv_nsec : Z }.

Definition clock_ns (ts : timespec) : Z :=
  u64 (u64 (u64 (tv_sec ts) * 1000000000) + u64 (tv_nsec ts)).

(** ** One frame *)

(** The body of the per-frame loop up to the push: [None] is the [continue]
    for a frame that is not UDP.  [receive_ns] is the batch timestamp. *)
Definition make_event (mem : list Z) (batch_ts : Z) (pkt : Packet) : outcome (option FeedEvent) :=
  b ← is_udp mem pkt;
  if (b : bool) then
    u1 ← udp mem pkt; u1 ← deref u1; sport ← member UdpHeader "src_port" mem u1;
    u2 ← udp mem pkt; u2 ← deref u2; dport ← member UdpHeader "dst_port" mem u2;
    i ← deref (ip pkt); sip ← member IpHeader "src_ip" mem i;
    pay ← payload mem pkt;
    plen ← payload_len mem pkt;
    inject ← match pay with
             | Some a =>
                 if bool_decide (8 ≤ plen) then bs ← deref (load mem a 8); Ret (le_value bs)
                 else Ret (inject_ns event_zero)
             | None => Ret (inject_ns event_zero)
             end;
    let n := u16 (Z.min plen kMaxPayload) in
    body ← match pay with
           | Some a =>
               if bool_decide (0 < n) then bs ← deref (load mem a n); Ret (memcpy (ev_payload event_zero) bs)
               else Ret (ev_payload event_zero)
           | None => Ret (ev_payload event_zero)
           end;
    Ret (Some (mkEvent inject batch_ts sip (ntohs sport) (ntohs dport) n (pad_ event_zero) body))
  else Ret None.

(** [Packet pkt{frame, descs[i].len}]. *)
Definition desc_packet (d : RxDesc) : Packet := mkPacket (rx_addr d) (rx_len d).

(** ** The handler *)

Record FeedHandler (FR CR RR TR Q : Type) : Type := mkHandler {
  fh_cfg_ : Config;
  fh_umem_ : Umem FR CR;
  fh_socket_ : XdpSocket RR TR;
  ring_ : Q;
  stop_flag_ : bool;
  rx_thread_ : bool;      (* joinable() *)
  pkts_rx_ : Z;
  pkts_dropped_ : Z;
}.
Arguments mkHandler {FR CR RR TR Q} _ _ _ _ _ _ _ _.
Arguments fh_cfg_ {FR CR RR TR Q} _.
Arguments fh_umem_ {FR CR RR TR Q} _.
Arguments fh_socket_ {FR CR RR TR Q} _.
Arguments ring_ {FR CR RR TR Q} _.
Arguments stop_flag_ {FR CR RR TR Q} _.
Arguments rx_thread_ {FR CR RR TR Q} _.
Arguments pkts_rx_ {FR CR RR TR Q} _.
Arguments pkts_dropped_ {FR CR RR TR Q} _.

(** What the loop does with an empty RX ring. *)
Inductive rx_wait : Type :=
| NoWait
| CpuRelax
| Poll (pfd_fd timeout_ms : Z).

Section Operations.
Context {FR CR RR TR Q : Type}.
Context `{!UmemKernel FR CR, !SocketKernel RR TR}.
Context `{!XskProd FR Z, !XskCons RR xdp_desc, !BoundedQueue Q FeedEvent}.
#[local] Abbreviation handler := (FeedHandler FR CR RR TR Q).

Definition set_ring (h : handler) (q : Q) : handler :=
  mkHandler (fh_cfg_ h) (fh_umem_ h) (fh_socket_ h) q (stop_flag_ h) (rx_thread_ h) (pkts_rx_ h) (pkts_dropped_ h).

(** ** Lifetime *)

(** [fr0], [cr0], [rr0], [tr0] are the ring structs before libxdp fills
    them, [uptr] is the address of the member [umem_], and [q0] is the ring
    as its member initialisers leave it.  When the socket's constructor
    throws, [umem_] has been constructed and is destroyed. *)
Definition FeedHandler_ctor (fr0 : FR) (cr0 : CR) (rr0 : RR) (tr0 : TR) (uptr : Z) (q0 : Q)
    (cfg : Config) (w : world) : outcome ((uf_error + handler) * world) :=
  '(r, w1) ← Umem_ctor fr0 cr0 default_config w;
  match r with
  | inl e => Ret (inl e, w1)
  | inr u =>
      match XdpSocket_ctor rr0 tr0 uptr u (make_xdp_cfg cfg) w1 with
      | (inl e, w2) => w3 ← Umem_dtor u w2; Ret (inl e, w3)
      | (inr s, w2) => Ret (inr (mkHandler cfg u s q0 false false 0 0), w2)
      end
  end.

(** [start].  [err] is the answer of the call that creates the thread, 0 for
    success: otherwise the constructor of [std::thread] throws, with the flag
    cleared and the fill ring primed, and the handler stays as it is.
    Assigning to a thread that is still joinable terminates the program,
    which the model does not distinguish from [Undef]. *)
Definition start (err : Z) (h : handler) : outcome (option uf_error * handler) :=
  u ← populate_fill_ring (fh_umem_ h);
  let started (joinable : bool) :=
    mkHandler (fh_cfg_ h) u (fh_socket_ h) (ring_ h) false joinable (pkts_rx_ h) (pkts_dropped_ h) in
  if bool_decide (err ≠ 0) then Ret (Some (ThreadRefused err), started (rx_thread_ h))
  else if rx_thread_ h then Undef
  else Ret (None, started true).

(** [stop], once the receive thread has returned from [rx_loop]. *)
Definition stop (h : handler) : handler :=
  mkHandler (fh_cfg_ h) (fh_umem_ h) (fh_socket_ h) (ring_ h) true false (pkts_rx_ h) (pkts_dropped_ h).

(** The body of the destructor, then the members in reverse order. *)
Definition FeedHandler_dtor (h : handler) (w : world) : outcome world :=
  let h := stop h in
  w1 ← XdpSocket_dtor (fh_socket_ h) w;
  Umem_dtor (fh_umem_ h) w1.

(** ** Consumer side *)

Definition FeedHandler_pop (h : handler) : outcome (option FeedEvent * handler) :=
  '(o, q) ← bq_pop (ring_ h); Ret (o, set_ring h q).

Definition packets_received (h : handler) : Z := pkts_rx_ h.
Definition packets_dropped (h : handler) : Z := pkts_dropped_ h.

(** ** The receive loop *)

(** One frame: make the event and push it, or count the drop. *)
Definition handle_frame (mem : list Z) (batch_ts : Z) (d : RxDesc) (q : Q) (dropped : Z)
    : outcome (Q * Z) :=
  o ← make_event mem batch_ts (desc_packet d);
  match o with
  | None => Ret (q, dropped)
  | Some ev =>
      '(b, q') ← bq_push ev q;
      if (b : bool) then Ret (q', dropped) else Ret (q', u64 (dropped + 1))
  end.

(** [for (i = 0; i < n; ++i)] over the descriptors of the batch. *)
Fixpoint handle_frames (n : nat) (i : Z) (mem : list Z) (batch_ts : Z) (descs : list RxDesc)
    (q : Q) (dropped : Z) : outcome (Q * Z) :=
  match n with
  | O => Ret (q, dropped)
  | S n =>
      d ← array_get descs i;
      '(q', dropped') ← handle_frame mem batch_ts d q dropped;
      handle_frames n (i + 1) mem batch_ts descs q' dropped'
  end.

(** One turn of the [while] loop whose flag test passed.  [descs] is the
    local array, which lives across turns; [mem] is the region and [ts] the
    clock when this turn reads them. *)
Definition rx_turn (mem : list Z) (ts : timespec) (descs : list RxDesc) (h : handler)
    : outcome (rx_wait * list RxDesc * handler) :=
  '(n, descs', s') ← rx_burst descs (fh_socket_ h);
  if bool_decide (n = 0) then
    Ret (if busy_poll (fh_cfg_ h) then CpuRelax else Poll (fd (fh_socket_ h)) 1, descs',
         mkHandler (fh_cfg_ h) (fh_umem_ h) s' (ring_ h) (stop_flag_ h) (rx_thread_ h)
                   (pkts_rx_ h) (pkts_dropped_ h))
  else
    let batch_ts := clock_ns ts in
    let rx' := u64 (pkts_rx_ h + n) in
    _ ← deref (region_ (fh_umem_ h));
    '(q', dropped') ← handle_frames (Z.to_nat n) 0 mem batch_ts descs' (ring_ h) (pkts_dropped_ h);
    u' ← rx_release (take (Z.to_nat n) descs') (fh_umem_ h);
    Ret (NoWait, descs',
         mkHandler (fh_cfg_ h) u' s' q' (stop_flag_ h) (rx_thread_ h) rx' dropped').

End Operations.

(** ** Making events: lemmas *)

Lemma clock_ns_width ts : in_width 64 (clock_ns ts).
Proof. by apply in_width_wrap. Qed.

(** Every field of a packed struct that lies in the frame can be read. *)
Lemma load_ok mem a n :
  0 ≤ a → 0 ≤ n → a + n ≤ Z.of_nat (length mem) → ∃ bs, load mem a n = Some bs ∧ Z.of_nat (length bs) = n.
Proof.
  intros. destruct (proj2 (load_is_Some mem a n)) as [bs Hbs]; [lia|]. exists bs.
  split; [done|]. by eapply length_load.
Qed.

Lemma member_width fs f mem p v :
  Forall is_byte mem → member fs f mem p = Ret v → 0 ≤ widthof fs f → in_width (8 * widthof fs f) v.
Proof.
  intros Hm. unfold member. destruct (load mem _ _) as [bs|] eqn:Hl; [|done]. ub_step.
  intros [= <-] Hw. pose proof (le_value_bound bs (load_is_byte _ _ _ _ Hm Hl)) as Hb.
  unfold in_width. rewrite Z.pow_mul_r by lia. apply length_load in Hl. by rewrite Hl in Hb.
Qed.

Lemma payload_len_nonneg mem p n : payload_len mem p = Ret n → 0 ≤ n.
Proof.
  unfold payload_len. destruct (udp mem p) as [[u|]|]; ub_step; [|by intros [= <-]|done].
  destruct (member UdpHeader "length" mem u); ub_step; [|done].
  case_bool_decide as H8; [by intros [= <-]|]. intros [= <-]. cbn in *. lia.
Qed.

Lemma copied_len plen : 0 ≤ plen → u16 (Z.min plen kMaxPayload) = Z.min plen 64.
Proof. intros. unfold kMaxPayload. apply u16_small. lia. Qed.

(** A frame that is UDP: where its parts are, and that the header fields
    the event takes can be read. *)
Lemma udp_frame_parts mem p u :
  in_region mem p → udp mem p = Ret (Some u) →
  ∃ sport dport sip plen, ip p = Some (data p + 14) ∧
    member UdpHeader "src_port" mem u = Ret sport ∧ member UdpHeader "dst_port" mem u = Ret dport ∧
    member IpHeader "src_ip" mem (data p + 14) = Ret sip ∧
    payload mem p = Ret (Some (u + 8)) ∧ payload_len mem p = Ret plen ∧
    0 ≤ plen ∧ 0 ≤ u + 8 ≤ data p + len p.
Proof.
  intros Hin Hu. pose proof Hin as (Hd & Hl & Hb). destruct (udp_spec mem p Hin) as (o & Hu' & Hcase).
  rewrite Hu in Hu'. injection Hu' as <-. destruct Hcase as [|(v & Hv & _ & H34 & [= ->] & Hle)]; [done|].
  pose proof (land15 v). set (u := data p + 14 + Z.land v 15 * 4) in *.
  destruct (member_in_bounds UdpHeader "src_port" mem u) as (b1 & _ & H1); [cbn; lia..|].
  destruct (member_in_bounds UdpHeader "dst_port" mem u) as (b2 & _ & H2); [cbn; lia..|].
  destruct (member_in_bounds UdpHeader "length" mem u) as (b3 & _ & H3); [cbn; lia..|].
  destruct (member_in_bounds IpHeader "src_ip" mem (data p + 14)) as (b4 & _ & H4); [cbn; lia..|].
  assert (Hip : ip p = Some (data p + 14)) by (unfold ip; by rewrite bool_decide_false by (cbn; lia)).
  assert (Hpl : ∃ plen, payload_len mem p = Ret plen).
  { unfold payload_len. rewrite Hu. ub_step. rewrite H3. ub_step. case_bool_decide; by eexists. }
  destruct Hpl as [plen Hplen]. do 4 eexists. split_and!; try done; [|by eapply payload_len_nonneg|lia|lia].
  unfold payload. rewrite Hu. ub_step. rewrite Hip. ub_step. rewrite Hv. ub_step. do 2 f_equal.
Qed.

(** The event, once the parts are known. *)
Lemma make_event_parts mem ts p u sport dport sip plen :
  udp mem p = Ret (Some u) → ip p = Some (data p + 14) →
  member UdpHeader "src_port" mem u = Ret sport → member UdpHeader "dst_port" mem u = Ret dport →
  member IpHeader "src_ip" mem (data p + 14) = Ret sip →
  payload mem p = Ret (Some (u + 8)) → payload_len mem p = Ret plen →
  make_event mem ts p =
    (inject ← (if bool_decide (8 ≤ plen) then bs ← deref (load mem (u + 8) 8); Ret (le_value bs) else Ret 0);
     body ← (if bool_decide (0 < Z.min plen 64) then
               bs ← deref (load mem (u + 8) (Z.min plen 64)); Ret (memcpy (replicate 64 0) bs)
             else Ret (replicate 64 0));
     Ret (Some (mkEvent inject ts sip (ntohs sport) (ntohs dport) (Z.min plen 64) (replicate 6 0) body))).
Proof.
  intros Hu Hip Hs Hd Hi Hpay Hplen. unfold make_event, is_udp. rewrite Hu. ub_step.
  rewrite bool_decide_true by done. rewrite Hs. ub_step. rewrite Hd, Hip. ub_step. rewrite Hi. ub_step.
  rewrite Hpay, Hplen. ub_step. by rewrite (copied_len plen (payload_len_nonneg mem p plen Hplen)).
Qed.

Lemma make_event_not_udp mem ts p : udp mem p = Ret None → make_event mem ts p = Ret None.
Proof. intros Hu. unfold make_event, is_udp. by rewrite Hu. Qed.

Lemma memcpy_payload_typed bs :
  Forall is_byte bs → (length bs ≤ 64)%nat →
  length (memcpy (replicate 64 0) bs) = 64%nat ∧ Forall is_byte (memcpy (replicate 64 0) bs).
Proof.
  intros Hb Hl. split; [by rewrite length_memcpy|]. unfold memcpy.
  apply Forall_app_2; [done|]. apply Forall_drop. by apply Forall_replicate.
Qed.

(** In a region of bytes where the frame is followed by at least 64 more,
    making an event has no undefined behaviour and the event is well
    typed. *)
Lemma make_event_ok mem ts p :
  Forall is_byte mem → in_width 64 ts → in_region mem p →
  data p + len p + kMaxPayload ≤ Z.of_nat (length mem) →
  (udp mem p = Ret None ∧ make_event mem ts p = Ret None) ∨
  ∃ ev, make_event mem ts p = Ret (Some ev) ∧ event_typed ev ∧ is_udp mem p = Ret true ∧
    receive_ns ev = ts.
Proof.
  intros Hm Hts Hin Hroom. unfold kMaxPayload in Hroom.
  destruct (udp_spec mem p Hin) as (o & Hu & _). destruct o as [u|]; [right|left; auto using make_event_not_udp].
  destruct (udp_frame_parts mem p u Hin Hu) as (sport & dport & sip & plen & Hip & Hs & Hd & Hi & Hpay & Hplen & Hnn & Ha).
  rewrite (make_event_parts mem ts p u sport dport sip plen) by done.
  destruct (load_ok mem (u + 8) 8) as (b8 & H8 & Hl8); [lia..|].
  destruct (load_ok mem (u + 8) (Z.min plen 64)) as (bn & Hn & Hln); [lia..|].
  rewrite H8, Hn. cbn [deref]. ub_step.
  assert (Hi8 : in_width 64 (le_value b8)).
  { pose proof (le_value_bound b8 (load_is_byte _ _ _ _ Hm H8)) as Hb. rewrite Hl8 in Hb. exact Hb. }
  destruct (memcpy_payload_typed bn) as [Hcl Hcb]; [by eapply load_is_byte|lia|].
  apply (member_width _ _ _ _ _ Hm) in Hi; [|cbn; lia].
  assert (Hudp : is_udp mem p = Ret true).
  { unfold is_udp. by rewrite Hu. }
  assert (Hev : ∀ inj body, in_width 64 inj → length body = 64%nat ∧ Forall is_byte body →
    event_typed (mkEvent inj ts sip (ntohs sport) (ntohs dport) (Z.min plen 64) (replicate 6 0) body)).
  { intros inj body Hinj Hbody. split; cbn; try done; try apply bswap16_width; [|split; [done|]].
    - unfold in_width. lia.
    - by apply (bool_decide_unpack _). }
  assert (Hz : length (replicate 64 0) = 64%nat ∧ Forall is_byte (replicate 64 0)).
  { split; [done|]. by apply Forall_replicate. }
  assert (H0 : in_width 64 0) by (unfold in_width; lia).
  case_bool_decide; case_bool_decide; ub_step; eexists; (split; [reflexivity|]); auto.
Qed.

Lemma load_prefix mem a n k bs :
  load mem a n = Some bs → 0 ≤ k ≤ n → load mem a k = Some (take (Z.to_nat k) bs).
Proof.
  unfold load. case_bool_decide as H; [|done]. intros [= <-] Hk.
  rewrite bool_decide_true by lia. by rewrite take_take, Nat.min_l by lia.
Qed.

Lemma load_app_l mem post a n bs : load mem a n = Some bs → load (mem ++ post) a n = Some bs.
Proof.
  unfold load. case_bool_decide as H; [|done]. intros [= <-]. rewrite length_app.
  rewrite bool_decide_true by lia. rewrite drop_app_le by lia. by rewrite take_app_le by (rewrite length_drop; lia).
Qed.

(** What a frame as a sender builds it turns into: the sender's ports and
    address, the first 8 payload bytes as the injection timestamp when there
    are that many, and the first 64 payload bytes, zero padded. *)
Definition frame_event (f : udp_frame) (ts : Z) : FeedEvent :=
  let n := length (fr_payload f) in
  mkEvent (if bool_decide (8 ≤ n)%nat then le_value (take 8 (fr_payload f)) else 0) ts
          (le_value (fr_src_ip f)) (fr_src_port f) (fr_dst_port f) (Z.of_nat (n `min` 64)) (replicate 6 0)
          (take 64 (fr_payload f) ++ replicate (64 - n) 0).

Lemma make_event_built f pre post n ts :
  frame_wf f → Z.of_nat (length (frame_bytes f)) ≤ n →
  make_event (pre ++ frame_bytes f ++ post) ts (mkPacket (Z.of_nat (length pre)) n) =
  Ret (Some (frame_event f ts)).
Proof.
  intros Hf Hn. set (p := mkPacket (Z.of_nat (length pre)) n). destruct (fw_ports f Hf) as [Hsp Hdp].
  pose proof (built_payload_load f Hf pre post p eq_refl) as Hl.
  assert (Hpre : ∀ k, 0 ≤ k ≤ Z.of_nat (length (fr_payload f)) →
    load (pre ++ frame_bytes f ++ post) (data p + 14 + 4 * fr_ihl f + 8) k = Some (take (Z.to_nat k) (fr_payload f)))
    by (intros k Hk; by eapply load_prefix).
  erewrite make_event_parts; [|by apply built_udp|by apply (built_ip f Hf pre)|by apply built_src_port|
    by apply built_dst_port|by apply built_src_ip|by apply built_payload|by apply built_payload_len].
  rewrite !ntohs_be by done. unfold frame_event. set (y := fr_payload f) in *.
  rewrite (bool_decide_ext (8 ≤ Z.of_nat (length y)) (8 ≤ length y)%nat) by lia.
  replace (Z.min (Z.of_nat (length y)) 64) with (Z.of_nat (length y `min` 64)) by lia.
  assert (Hbody : (if bool_decide (0 < Z.of_nat (length y `min` 64)) then
      bs ← deref (load (pre ++ frame_bytes f ++ post) (data p + 14 + 4 * fr_ihl f + 8) (Z.of_nat (length y `min` 64)));
      Ret (memcpy (replicate 64 0) bs) else Ret (replicate 64 0)) =
      Ret (take 64 y ++ replicate (64 - length y) 0)).
  { case_bool_decide as Hpos.
    - rewrite Hpre by lia. ub_step. rewrite Nat2Z.id. unfold memcpy. do 2 f_equal.
      + destruct (decide (length y ≤ 64)%nat); [by rewrite Nat.min_l, !take_ge by lia|by rewrite Nat.min_r by lia].
      + rewrite drop_replicate. f_equal. rewrite length_take. lia.
    - destruct y; [done|]. cbn in Hpos. lia. }
  rewrite Hbody. clear Hbody. ub_step. case_bool_decide as H8; [|done]. by rewrite Hpre by lia.
Qed.

(** ** Batches: lemmas *)

Section Batch.
Context {Q : Type} `{!BoundedQueue Q FeedEvent}.

(** What a batch does to the abstract queue: the events fill the room that
    is left, in order, and the others are dropped. *)
Definition queue_room (q : Q) : nat := Z.to_nat (bq_cap - Z.of_nat (length (bq_items q))).

Lemma handle_frames_spec mem ts ds : ∀ evs pre post q dropped,
  Forall2 (λ d o, make_event mem ts (desc_packet d) = Ret o) ds evs →
  bq_wf q → in_width 64 dropped →
  ∃ q', handle_frames (length ds) (Z.of_nat (length pre)) mem ts (pre ++ ds ++ post) q dropped =
          Ret (q', u64 (dropped + Z.of_nat (length (omap id evs) - queue_room q))) ∧
    bq_wf q' ∧ bq_items q' = bq_items q ++ take (queue_room q) (omap id evs).
Proof.
  induction ds as [|d ds IH]; intros evs pre post q dropped Hev Hwf Hdr.
  { apply Forall2_nil_inv_l in Hev as ->. exists q. cbn. rewrite take_nil, app_nil_r, Z.add_0_r.
    by rewrite u64_small. }
  apply Forall2_cons_inv_l in Hev as (o & evs' & Ho & Hevs & ->). cbn [length handle_frames].
  rewrite (array_get_lookup _ _ d); [|lia|by rewrite Nat2Z.id, lookup_app_r, Nat.sub_diag by lia]. ub_step.
  unfold handle_frame. rewrite Ho. ub_step.
  assert (Hnext : ∀ q1 d1, bq_wf q1 → in_width 64 d1 →
    ∃ q', handle_frames (length ds) (Z.of_nat (length pre) + 1) mem ts (pre ++ (d :: ds) ++ post) q1 d1 =
            Ret (q', u64 (d1 + Z.of_nat (length (omap id evs') - queue_room q1))) ∧
      bq_wf q' ∧ bq_items q' = bq_items q1 ++ take (queue_room q1) (omap id evs')).
  { intros q1 d1 Hq1 Hd1. specialize (IH evs' (pre ++ [d]) post q1 d1 Hevs Hq1 Hd1).
    rewrite length_app, <- app_assoc in IH. cbn in IH. by rewrite Nat2Z.inj_add in IH. }
  destruct o as [ev|]; [|by apply Hnext].
  destruct (bq_push_spec ev q Hwf) as (q1 & -> & Hwf1 & Hi1). ub_step.
  unfold q_push, q_full in Hi1. unfold q_full.
  case_bool_decide as Hfull; cbn [negb snd] in *; ub_step.
  - destruct (Hnext q1 (u64 (dropped + 1)) Hwf1) as (q' & -> & Hw' & Hi'); [by apply in_width_wrap|].
    exists q'. unfold queue_room in *. rewrite Hi1 in *.
    replace (Z.to_nat (bq_cap - Z.of_nat (length (bq_items q)))) with 0%nat in * by lia.
    split_and!; [|done|done]. do 2 f_equal. cbn. unfold u64, wrap.
    rewrite Zplus_mod_idemp_l. f_equal. lia.
  - destruct (Hnext q1 dropped Hwf1 Hdr) as (q' & -> & Hw' & Hi'). exists q'.
    assert (Hroom : queue_room q = S (queue_room q1)).
    { unfold queue_room. rewrite Hi1, length_app. cbn. lia. }
    rewrite Hroom. cbn. split_and!; [done|done|]. by rewrite Hi', Hi1, <- app_assoc.
Qed.
End Batch.

(** ** Turns of the loop: lemmas *)

Section Turn.
Context {FR CR RR TR Q : Type} `{!SocketKernel RR TR}.
Context `{!XskProd FR Z, !XskProdLaws FR Z, !XskCons RR xdp_desc, !XskConsLaws RR xdp_desc}.
Context `{!BoundedQueue Q FeedEvent}.
Implicit Types (h : FeedHandler FR CR RR TR Q).

(** The event of a received descriptor, if it carries one. *)
Definition desc_event (mem : list Z) (ts : Z) (d : xdp_desc) : option FeedEvent :=
  match make_event mem ts (desc_packet (to_rx d)) with Ret o => o | Undef => None end.

(** A descriptor whose frame lies in the region with room for a full
    payload copy behind it. *)
Definition desc_in_region (mem : list Z) (d : xdp_desc) : Prop :=
  0 ≤ d_addr d ∧ 0 ≤ d_len d ∧ d_addr d + d_len d + kMaxPayload ≤ Z.of_nat (length mem).

Lemma desc_event_spec mem ts d :
  Forall is_byte mem → in_width 64 ts → desc_in_region mem d →
  make_event mem ts (desc_packet (to_rx d)) = Ret (desc_event mem ts d).
Proof.
  intros Hm Hts (Ha & Hl & Hb). unfold desc_event, kMaxPayload in *.
  destruct (make_event_ok mem ts (desc_packet (to_rx d))) as [[_ ->]|(ev & -> & _)]; try done.
  unfold in_region. cbn. lia.
Qed.

(** The state in which the receive thread finds the handler at the top of
    the loop. *)
Record handler_ready h : Prop := {
  hr_rx : cr_taken (rx_ring_ (fh_socket_ h)) = 0%nat;
  hr_fill : pr_open (fill_ring_ (fh_umem_ h)) = [];
  hr_region : region_ (fh_umem_ h) ≠ None;
  hr_ring : bq_wf (ring_ h);
  hr_counts : in_width 64 (pkts_rx_ h) ∧ in_width 64 (pkts_dropped_ h);
}.

Lemma rx_turn_spec mem ts descs h :
  handler_ready h → Z.of_nat (length descs) = kMaxBatch → Forall is_byte mem →
  Forall (desc_in_region mem) (cr_entries (rx_ring_ (fh_socket_ h))) →
  let received := cr_entries (rx_ring_ (fh_socket_ h)) in
  let posted := pr_entries (fill_ring_ (fh_umem_ h)) in
  ∃ k wt descs' h', rx_turn mem ts descs h = Ret (wt, descs', h') ∧
    (k ≤ 64)%nat ∧ (k ≤ length received)%nat ∧ (received ≠ [] → (0 < k)%nat) ∧
    Z.of_nat (length descs') = kMaxBatch ∧ handler_ready h' ∧
    let batch := take k received in
    let evs := omap (desc_event mem (clock_ns ts)) batch in
    cr_entries (rx_ring_ (fh_socket_ h')) = drop k received ∧
    pkts_rx_ h' = u64 (pkts_rx_ h + Z.of_nat k) ∧
    bq_items (ring_ h') = bq_items (ring_ h) ++ take (queue_room (ring_ h)) evs ∧
    pkts_dropped_ h' = u64 (pkts_dropped_ h + Z.of_nat (length evs - queue_room (ring_ h))) ∧
    pr_size (fill_ring_ (fh_umem_ h')) = pr_size (fill_ring_ (fh_umem_ h)) ∧
    pr_entries (fill_ring_ (fh_umem_ h')) = posted ++
      (if bool_decide (Z.of_nat k + Z.of_nat (length posted) ≤ pr_size (fill_ring_ (fh_umem_ h)))
       then d_addr <$> batch else []) ∧
    (wt = NoWait ↔ k ≠ 0%nat).
Proof.
  intros [Ht Hop Hreg Hq [Hcr Hcd]] Hdl Hm Hall received posted. unfold kMaxBatch in Hdl.
  destruct (rx_burst_spec descs (fh_socket_ h) Ht) as (k & r & Hb & Hkd & Hkr & Hpos & Hent & Htk); [lia|].
  fold received in Hb, Hkr, Hpos, Hent. set (batch := take k received) in *.
  assert (Hbl : length batch = k) by (unfold batch; rewrite length_take; lia).
  unfold rx_turn. rewrite Hb. ub_step.
  assert (Hwidth : ∀ z, in_width 64 (u64 z)) by (intros; by apply in_width_wrap).
  assert (Hlen' : Z.of_nat (length ((to_rx <$> batch) ++ drop k descs)) = kMaxBatch).
  { rewrite length_app, length_fmap, length_drop, Hbl. unfold kMaxBatch. lia. }
  assert (Hk64 : (k ≤ 64)%nat) by lia.
  assert (Hk0 : received ≠ [] → (0 < k)%nat) by (intros; apply Hpos; [done|by intros ->]).
  destruct (decide (k = 0%nat)) as [->|Hne].
  - rewrite bool_decide_true by done. ub_step. exists 0%nat. do 3 eexists. split; [done|].
    split_and!; try done; try (split; done); cbn;
      rewrite ?take_0 by done; cbn; rewrite ?take_nil, ?app_nil_r, ?Z.add_0_r, ?u64_small by done; try done.
    + by case_bool_decide; rewrite app_nil_r.
    + split; [|done]. by destruct (busy_poll (fh_cfg_ h)).
  - rewrite bool_decide_false by lia. destruct (region_ (fh_umem_ h)) as [base|] eqn:Hbase; [|done]. ub_step.
    rewrite Nat2Z.id.
    assert (Hev : Forall2 (λ d o, make_event mem (clock_ns ts) (desc_packet d) = Ret o) (to_rx <$> batch)
                    (desc_event mem (clock_ns ts) <$> batch)).
    { rewrite Forall2_fmap. apply Forall_Forall2_diag. unfold batch. apply Forall_take.
      eapply Forall_impl; [exact Hall|]. intros d Hd. apply desc_event_spec; auto using clock_ns_width. }
    destruct (handle_frames_spec mem (clock_ns ts) _ _ [] (drop k descs) (ring_ h) (pkts_dropped_ h) Hev Hq Hcd)
      as (q' & Hf & Hq' & Hi'). rewrite length_fmap, Hbl in Hf. cbn [length app] in Hf.
    change (Z.of_nat 0) with 0 in Hf. rewrite Hf. ub_step.
    rewrite take_app_length' by (by rewrite length_fmap, Hbl).
    destruct (rx_release_spec (to_rx <$> batch) (fh_umem_ h) Hop) as (r' & Hr & Hop' & Hsz & He').
    { rewrite length_fmap, Hbl. lia. }
    rewrite Hr. ub_step. rewrite length_fmap, Hbl, <- list_fmap_compose in He'.
    assert (Homap : omap id (desc_event mem (clock_ns ts) <$> batch) = omap (desc_event mem (clock_ns ts)) batch).
    { clear. induction batch as [|d b IH]; cbn; [done|]. destruct (desc_event _ _ d); cbn; by rewrite IH. }
    rewrite Homap in *. exists k. do 3 eexists. split; [done|].
    split_and!; try done; try (split; done). split; cbn; try done. by rewrite Hbase.
Qed.
End Turn.

(** ** Lifetimes: lemmas *)

(** Calls on a live handler, with what the kernel does to the shared rings
    in between; the descriptors are the receive thread's local array. *)
Inductive handler_cmd (FR CR RR TR : Type) : Type :=
| HStart (err : Z)
| HStop
| HTurn (mem : list Z) (ts : timespec)
| HPop
| HKernel (fill : FR) (comp : CR) (rx : RR) (tx : TR).
Arguments HStart {FR CR RR TR} err.
Arguments HStop {FR CR RR TR}.
Arguments HTurn {FR CR RR TR} mem ts.
Arguments HPop {FR CR RR TR}.
Arguments HKernel {FR CR RR TR} fill comp rx tx.

Section Lifetime.
Context {FR CR RR TR Q : Type}.
Context `{!UmemKernel FR CR, !SocketKernel RR TR}.
Context `{!XskProd FR Z, !XskCons RR xdp_desc, !BoundedQueue Q FeedEvent}.
Implicit Types (h : FeedHandler FR CR RR TR Q) (w : world).

Definition exec_handler (c : handler_cmd FR CR RR TR) (descs : list RxDesc) h
    : outcome (list RxDesc * FeedHandler FR CR RR TR Q) :=
  match c with
  | HStart err => '(_, h') ← start err h; Ret (descs, h')
  | HStop => Ret (descs, stop h)
  | HTurn mem ts => '(_, descs', h') ← rx_turn mem ts descs h; Ret (descs', h')
  | HPop => '(_, h') ← FeedHandler_pop h; Ret (descs, h')
  | HKernel fill comp rx tx =>
      Ret (descs,
           mkHandler (fh_cfg_ h) (set_comp_ring (set_fill_ring (fh_umem_ h) fill) comp)
             (set_tx_ring (set_rx_ring (fh_socket_ h) rx) tx) (ring_ h) (stop_flag_ h) (rx_thread_ h)
             (pkts_rx_ h) (pkts_dropped_ h))
  end.

Fixpoint exec_handlers (cs : list (handler_cmd FR CR RR TR)) (descs : list RxDesc) h
    : outcome (list RxDesc * FeedHandler FR CR RR TR Q) :=
  match cs with
  | [] => Ret (descs, h)
  | c :: cs => '(descs', h') ← exec_handler c descs h; exec_handlers cs descs' h'
  end.

(** What the destructor looks at. *)
Definition owned h : option Z * Z * option Z * option Z :=
  (region_ (fh_umem_ h), region_size_ (fh_umem_ h), umem_ (fh_umem_ h), socket_ (fh_socket_ h)).

Lemma fill_keeps_umem (u u' : Umem FR CR) :
  populate_fill_ring u = Ret u' ∨ (∃ ds, rx_release ds u = Ret u') →
  (region_ u', region_size_ u', umem_ u') = (region_ u, region_size_ u, umem_ u).
Proof.
  intros [Hp|[ds Hr]].
  - revert Hp. unfold populate_fill_ring. destruct (prod_reserve _ _) as [[r1 n] i].
    destruct (fill_slots _ _ _ _ _); [|done]. ub_step. by intros [= <-].
  - revert Hr. unfold rx_release. destruct ds as [|d ds]; [by intros [= <-]|].
    destruct (prod_reserve _ _) as [[r1 n] i]. destruct (fill_slots _ _ _ _ _); [|done]. ub_step.
    by intros [= <-].
Qed.

Lemma rx_burst_keeps_socket descs (s s' : XdpSocket RR TR) n descs' :
  rx_burst descs s = Ret (n, descs', s') → socket_ s' = socket_ s.
Proof.
  unfold rx_burst. destruct (cons_peek _ _) as [[r1 k] i]. destruct (read_slots _ _ _ _ _ _); [|done].
  ub_step. by intros [= <- <- <-].
Qed.

Lemma exec_handler_owned c descs h descs' h' :
  exec_handler c descs h = Ret (descs', h') → owned h' = owned h.
Proof.
  destruct c as [err| |mem ts| |fill comp rx tx]; cbn.
  - unfold start. destruct (populate_fill_ring (fh_umem_ h)) as [u|] eqn:Hp; [|done]. ub_step.
    pose proof (fill_keeps_umem _ _ (or_introl Hp)). unfold owned.
    case_bool_decide; ub_step; [intros [= <- <-]; cbn; congruence|].
    destruct (rx_thread_ h); [done|]. ub_step. intros [= <- <-]. cbn. congruence.
  - by intros [= <- <-].
  - unfold rx_turn. destruct (rx_burst descs (fh_socket_ h)) as [[[n ds] s]|] eqn:Hb; [|done]. ub_step.
    apply rx_burst_keeps_socket in Hb. case_bool_decide; ub_step.
    { intros [= <- <-]. unfold owned. cbn. congruence. }
    destruct (region_ (fh_umem_ h)); [|done]. ub_step.
    destruct (handle_frames _ _ _ _ _ _ _) as [[q d]|]; [|done]. ub_step.
    destruct (rx_release _ _) as [u|] eqn:Hr; [|done]. ub_step. intros [= <- <-]. unfold owned. cbn.
    pose proof (fill_keeps_umem _ _ (or_intror (ex_intro _ _ Hr))). congruence.
  - unfold FeedHandler_pop. destruct (bq_pop (ring_ h)) as [[o q]|]; [|done]. ub_step. by intros [= <- <-].
  - by intros [= <- <-].
Qed.

Lemma exec_handlers_owned cs : ∀ descs h descs' h',
  exec_handlers cs descs h = Ret (descs', h') → owned h' = owned h.
Proof.
  induction cs as [|c cs IH]; intros descs h descs' h'; cbn; [by intros [= <- <-]|].
  destruct (exec_handler c descs h) as [[d1 h1]|] eqn:Hc; [|done]. ub_step.
  intros Hr. rewrite (IH _ _ _ _ Hr). by eapply exec_handler_owned.
Qed.

(** libxdp creates a fill ring with no reservation open, so a handler just
    constructed can be started. *)
Definition fresh_fill `{!XskProdLaws FR Z} : Prop :=
  ∀ w a sz c hd fr cr, umem_create_answer w a sz c = inr (hd, fr, cr) → pr_open fr = [].

Lemma Umem_ctor_fill `{!XskProdLaws FR Z} fr0 cr0 cfg w u w' :
  fresh_fill → Umem_ctor fr0 cr0 cfg w = Ret (inr u, w') → cfg_ u = cfg ∧ pr_open (fill_ring_ u) = [].
Proof.
  intros Hfresh. unfold Umem_ctor.
  destruct (allocate_region_cases (mkUmem cfg None 0 false None fr0 cr0 []) w)
    as [->|(a & sz & huge & _ & _ & _ & ->)]; [done|].
  unfold create_umem. cbn [region_ set_region deref]. ub_step.
  destruct (umem_create_answer _ a _ _) as [err|[[hd fr] cr]] eqn:Hc.
  - by destruct (deallocate_region _ _) as [[u2 w2]|].
  - ub_step. destruct (vector_reserve _ _); [done|]. intros [= <- _]. split; [done|]. by eapply Hfresh.
Qed.

Lemma ctor_can_start `{!XskProdLaws FR Z} fr0 cr0 rr0 tr0 uptr (q0 : Q) cfg w h w' err :
  fresh_fill → FeedHandler_ctor fr0 cr0 rr0 tr0 uptr q0 cfg w = Ret (inr h, w') →
  ∃ h', start err h = Ret (if bool_decide (err ≠ 0) then Some (ThreadRefused err) else None, h') ∧
    owned h' = owned h ∧ ring_ h' = ring_ h.
Proof.
  intros Hfresh. unfold FeedHandler_ctor.
  destruct (Umem_ctor fr0 cr0 default_config w) as [[[e|u] w1]|] eqn:Hu; [done| |done]. ub_step.
  apply Umem_ctor_fill in Hu as [Hcfg Hopen]; [|done].
  destruct (XdpSocket_ctor _ _ _ _ _ _) as [[e|sk] w2]; [by destruct (Umem_dtor _ _)|]. intros [= <- _].
  unfold start. cbn [fh_umem_ rx_thread_].
  destruct (populate_spec u) as (r & Hp & _); rewrite ?Hcfg; try done.
  rewrite Hp. ub_step. case_bool_decide; by eexists.
Qed.

(** Sockets of the ledger sit on live UMEMs. *)
Definition socks_mapped w : Prop :=
  ∀ hd, w_umems w !! hd = None → map_Forall (λ _ b, b ≠ hd) (w_socks w).

(** Destroying a UMEM that no socket uses undoes its construction. *)
Lemma Umem_dtor_fresh (u : Umem FR CR) w a hd :
  umems_mapped w → socks_mapped w → w_maps w !! a = None → w_umems w !! hd = None →
  region_ u = Some a → umem_ u = Some hd →
  Umem_dtor u (mkWorld (<[a := region_size_ u]> (w_maps w)) (<[hd := a]> (w_umems w)) (w_socks w)) = Ret w.
Proof.
  intros Hum Hsm Ha Hhd Hr Hu. unfold Umem_dtor, delete_handle, xsk_umem_delete. rewrite Hu.
  cbn [w_maps w_umems w_socks]. rewrite lookup_insert_eq, bool_decide_true by done.
  rewrite bool_decide_true by by apply Hsm. ub_step. rewrite delete_insert_id by done.
  unfold deallocate_region, sys_munmap. rewrite Hr. cbn [w_maps w_umems w_socks].
  rewrite bool_decide_true by (split; [by rewrite lookup_insert_eq|by apply Hum]). ub_step.
  rewrite delete_insert_id by done. by destruct w.
Qed.

(** The constructor throws and leaves the ledger as it was (unless it was
    [reserve] that threw), or returns a handler that is not running and
    whose destruction will give the ledger back. *)
Lemma FeedHandler_ctor_cases fr0 cr0 rr0 tr0 uptr (q0 : Q) cfg w :
  umems_mapped w → socks_mapped w →
  ∃ r w', FeedHandler_ctor fr0 cr0 rr0 tr0 uptr q0 cfg w = Ret (r, w') ∧
    match r with
    | inl e => if reserve_threw e then leaked w w' else w' = w
    | inr h => rx_thread_ h = false ∧ ring_ h = q0 ∧ pkts_rx_ h = 0 ∧ pkts_dropped_ h = 0 ∧
        ∀ h', owned h' = owned h → FeedHandler_dtor h' w' = Ret w
    end.
Proof.
  intros Hum Hsm. unfold FeedHandler_ctor.
  destruct (Umem_ctor_cases fr0 cr0 default_config w Hum) as (r & w1 & -> & Hr). ub_step.
  destruct r as [e|u].
  { exists (inl e), w1. split; [done|]. destruct (reserve_threw e); [done|by destruct Hr]. }
  destruct Hr as (_ & a & hd & Ha & Hhd & Hra & Hu & _ & _ & ->).
  unfold XdpSocket_ctor, create_socket. rewrite Hu.
  destruct (socket_create_answer _ _ _ _ _) as [err|[[sk rr] tr]] eqn:Hc.
  - rewrite Umem_dtor_fresh by done. ub_step. exists (inl (SocketCreateFailed (sc_iface (make_xdp_cfg cfg))
      (sc_queue_id (make_xdp_cfg cfg)) err)), w. done.
  - apply socket_create_fresh in Hc. cbn [w_socks] in Hc. eexists _, _. split; [done|].
    split_and!; try done. intros h'. destruct h' as [c u' s' q sf rt p d]. unfold owned. cbn.
    intros [= Hr' Hs' Hu' Hk']. unfold FeedHandler_dtor, XdpSocket_dtor, close_socket, xsk_socket_delete. cbn.
    rewrite Hk'. cbn. rewrite lookup_insert_eq, bool_decide_true by done. ub_step.
    rewrite delete_insert_id by done. rewrite <- Hs'. apply Umem_dtor_fresh; congruence || done.
Qed.
End Lifetime.

(** ** Properties *)

(** A frame as a sender builds it -- any IPv4 options, any payload,
    link padding behind it -- becomes exactly one event: the sender's
    address and ports in host order, the batch timestamp, the payload length
    capped at 64, the first 64 payload bytes zero padded, and the injection
    timestamp the sender wrote into the first 8 payload bytes. *)
Theorem event_of_built_frame (f : udp_frame) (pre post : list Z) (n ts : Z) :
  frame_wf f → Z.of_nat (length (frame_bytes f)) ≤ n →
  make_event (pre ++ frame_bytes f ++ post) ts (mkPacket (Z.of_nat (length pre)) n) =
    Ret (Some (frame_event f ts)) ∧
  (∀ t rest, in_width 64 t → fr_payload f = le_bytes 8 t ++ rest → inject_ns (frame_event f ts) = t) ∧
  (length (fr_payload f) = 64%nat → ev_payload (frame_event f ts) = fr_payload f).
Proof.
  intros Hf Hn. split_and!; [by apply make_event_built| |].
  - intros t rest Ht Hp. unfold frame_event. cbn. rewrite Hp, length_app, length_le_bytes.
    rewrite bool_decide_true by lia. rewrite take_app_length' by (by rewrite length_le_bytes).
    by apply (le_roundtrip 8 64).
  - intros Hl. unfold frame_event. cbn. rewrite Hl, Nat.sub_diag, app_nil_r. by rewrite take_ge by lia.
Qed.

(** The synthetic sender's datagram: a timestamp and 56 filler bytes. *)
Definition stamped_frame : udp_frame :=
  mkFrame (replicate 6 2) (replicate 6 3) 2048 0 1 0 64 0 [10; 99; 0; 1] [10; 99; 0; 2] []
          40000 9999 0 (le_bytes 8 1234567890123 ++ replicate 56 171).

Lemma event_of_built_frame_witness :
  make_event (replicate 5 9 ++ frame_bytes stamped_frame ++ [7; 7]) 42 (mkPacket 5 106) =
    Ret (Some (frame_event stamped_frame 42)) ∧
  inject_ns (frame_event stamped_frame 42) = 1234567890123.
Proof.
  destruct (event_of_built_frame stamped_frame (replicate 5 9) [7; 7] 106 42) as (H & Hs & _).
  - split; try (vm_compute; reflexivity).
    + exists 0%nat. split; [reflexivity|lia].
    + split; apply (bool_decide_unpack _); vm_compute; reflexivity.
  - vm_compute. discriminate.
  - split; [exact H|]. apply (Hs 1234567890123 (replicate 56 171)); [|reflexivity].
    apply (bool_decide_unpack _). vm_compute. reflexivity.
Defined.

(** C32: making an event never has undefined behaviour on a frame that has
    at least 64 bytes of the region behind it, however malformed the frame
    is, and every event made is well typed: its fields are values of their
    C++ types, it carries the batch timestamp, and exactly the frames that
    are UDP give one. *)
Theorem event_safe_and_typed (mem : list Z) (ts : Z) (p : Packet) :
  Forall is_byte mem → in_width 64 ts → in_region mem p →
  data p + len p + kMaxPayload ≤ Z.of_nat (length mem) →
  ∃ o b, make_event mem ts p = Ret o ∧ is_udp mem p = Ret b ∧ (b = true ↔ o ≠ None) ∧
    ∀ ev, o = Some ev → event_typed ev ∧ receive_ns ev = ts.
Proof.
  intros Hm Hts Hin Hroom. destruct (make_event_ok mem ts p Hm Hts Hin Hroom) as [[Hu Hev]|(ev & Hev & Hty & Hb & Hr)].
  - exists None, false. split_and!; [done|by unfold is_udp; rewrite Hu|split; done|done].
  - exists (Some ev), true. split_and!; [done|done|split; done|]. by intros ? [= <-].
Qed.

Lemma event_safe_and_typed_witness :
  ∃ o b, make_event (lying_frame ++ replicate 64 7) 42 (mkPacket 0 42) = Ret o ∧
    is_udp (lying_frame ++ replicate 64 7) (mkPacket 0 42) = Ret b ∧ (b = true ↔ o ≠ None).
Proof.
  destruct (event_safe_and_typed (lying_frame ++ replicate 64 7) 42 (mkPacket 0 42)) as (o & b & H1 & H2 & H3 & _).
  - apply (bool_decide_unpack _). vm_compute. reflexivity.
  - apply (bool_decide_unpack _). vm_compute. reflexivity.
  - vm_compute. split_and!; discriminate.
  - vm_compute. discriminate.
  - exists o, b. split; [exact H1|]. split; [exact H2|exact H3].
Defined.

(** C39: an event can carry bytes that were never in its frame: a frame of
    headers only whose UDP length field lies makes an event whose payload
    and injection timestamp are the 64 bytes that follow the frame in the
    region (another frame's), and the same frame at the very end of the
    region makes the handler read past it. *)
Theorem event_copies_past_frame (other : list Z) (ts : Z) :
  length other = 64%nat →
  (∃ ev, make_event (lying_frame ++ other) ts (mkPacket 0 42) = Ret (Some ev) ∧
     ev_payload_len ev = 64 ∧ ev_payload ev = other ∧ inject_ns ev = le_value (take 8 other)) ∧
  make_event lying_frame ts (mkPacket 0 42) = Undef.
Proof.
  intros Hl. split; [|vm_compute; reflexivity].
  assert (Hload : ∀ k, 0 ≤ k ≤ 64 → load (lying_frame ++ other) 42 k = Some (take (Z.to_nat k) other)).
  { intros k Hk. apply (load_prefix _ _ 64); [|done]. rewrite load_skip by (vm_compute; discriminate).
    replace other with (other ++ []) at 1 by apply app_nil_r. apply load_here; [vm_compute; reflexivity|by rewrite Hl]. }
  assert (Hmem : ∀ fs f p, is_Some (load lying_frame (p + offsetof fs f) (widthof fs f)) →
    member fs f (lying_frame ++ other) p = member fs f lying_frame p).
  { intros fs f p [bs Hbs]. unfold member. by rewrite (load_app_l _ _ _ _ _ Hbs), Hbs. }
  assert (Hudp : udp (lying_frame ++ other) (mkPacket 0 42) = Ret (Some 34)).
  { unfold udp. change (ip (mkPacket 0 42)) with (Some 14). cbv iota beta.
    by rewrite !Hmem by (vm_compute; eexists; reflexivity). }
  erewrite (make_event_parts _ _ _ 34 _ _ _ 65527);
    [|done|done|by rewrite Hmem by (vm_compute; eexists; reflexivity)..| |].
  - change (34 + 8) with 42. rewrite !Hload by lia. cbn [deref]. ub_step.
    rewrite !bool_decide_true by lia. ub_step. eexists. split; [reflexivity|].
    cbn [ev_payload_len ev_payload inject_ns]. rewrite (take_ge other) by (rewrite Hl; vm_compute; lia).
    split_and!; [done| |done]. unfold memcpy. rewrite drop_ge by (by rewrite Hl). apply app_nil_r.
  - unfold payload. rewrite Hudp. ub_step. change (ip (mkPacket 0 42)) with (Some 14). ub_step.
    by rewrite Hmem by (vm_compute; eexists; reflexivity).
  - unfold payload_len. rewrite Hudp. ub_step. by rewrite Hmem by (vm_compute; eexists; reflexivity).
Qed.

Lemma event_copies_past_frame_witness :
  ∃ ev, make_event (lying_frame ++ replicate 64 7) 42 (mkPacket 0 42) = Ret (Some ev) ∧
    ev_payload ev = replicate 64 7.
Proof.
  destruct (event_copies_past_frame (replicate 64 7) 42) as [(ev & H & _ & Hp & _) _].
  - reflexivity.
  - exists ev. split; [exact H|exact Hp].
Defined.

(** C7: one turn of the receive loop, with the event ring behind its
    interface: it takes the oldest received descriptors (at most 64, at
    least one when any is waiting), adds their number to [packets_received],
    queues the events of those that are UDP in arrival order as far as the
    ring has room, adds exactly the ones that did not fit to
    [packets_dropped], and returns the frames' addresses to the fill ring as
    one batch -- all of them, or none when the fill ring has no room for
    all.  It waits only when there was nothing to take, and it leaves the
    handler ready for the next turn.  Each received descriptor is taken to
    have its length and at least 64 bytes of region behind its address, as
    [desc_in_region] says; the handlers that the constructor makes post
    only the first half of their region, and Pipeline proves it of them. *)
Theorem rx_turn_exact {FR CR RR TR Q} `{!SocketKernel RR TR}
    `{!XskProd FR Z, !XskProdLaws FR Z, !XskCons RR xdp_desc, !XskConsLaws RR xdp_desc}
    `{!BoundedQueue Q FeedEvent}
    (mem : list Z) (ts : timespec) (descs : list RxDesc) (h : FeedHandler FR CR RR TR Q) :
  handler_ready h → Z.of_nat (length descs) = kMaxBatch → Forall is_byte mem →
  Forall (desc_in_region mem) (cr_entries (rx_ring_ (fh_socket_ h))) →
  let received := cr_entries (rx_ring_ (fh_socket_ h)) in
  let posted := pr_entries (fill_ring_ (fh_umem_ h)) in
  ∃ k wt descs' h', rx_turn mem ts descs h = Ret (wt, descs', h') ∧
    (k ≤ 64)%nat ∧ (k ≤ length received)%nat ∧ (received ≠ [] → (0 < k)%nat) ∧
    Z.of_nat (length descs') = kMaxBatch ∧ handler_ready h' ∧
    let batch := take k received in
    let evs := omap (desc_event mem (clock_ns ts)) batch in
    cr_entries (rx_ring_ (fh_socket_ h')) = drop k received ∧
    packets_received h' = u64 (packets_received h + Z.of_nat k) ∧
    bq_items (ring_ h') = bq_items (ring_ h) ++ take (queue_room (ring_ h)) evs ∧
    packets_dropped h' = u64 (packets_dropped h + Z.of_nat (length evs - queue_room (ring_ h))) ∧
    pr_size (fill_ring_ (fh_umem_ h')) = pr_size (fill_ring_ (fh_umem_ h)) ∧
    pr_entries (fill_ring_ (fh_umem_ h')) = posted ++
      (if bool_decide (Z.of_nat k + Z.of_nat (length posted) ≤ pr_size (fill_ring_ (fh_umem_ h)))
       then d_addr <$> batch else []) ∧
    (wt = NoWait ↔ k ≠ 0%nat).
Proof. apply rx_turn_spec. Qed.

(** A region with two stamped frames and a frame that is not UDP, a ring
    with room for one event. *)
Definition turn_mem : list Z :=
  frame_bytes stamped_frame ++ replicate 150 0 ++ frame_bytes stamped_frame ++ replicate 200 0.
Definition tiny_ring : SpscRingBuffer FeedEvent := ring_init 2 event_zero.
#[export] Instance capacity_2 : CapacityOk 2 := eq_refl.

Definition turn_handler :
    FeedHandler (list_prod Z) (list_cons Z) (list_cons xdp_desc) (list_prod xdp_desc) (SpscRingBuffer FeedEvent) :=
  mkHandler default_handler_config small_umem
    (mkSocket 0 default_socket_config (Some 7)
       (mkLC [mkDesc 0 106 0; mkDesc 110 60 0; mkDesc 256 106 0] 0 0) (mkLP 2 [] [] 0))
    tiny_ring false true 0 0.

Definition turn_descs : list RxDesc := replicate 64 (mkRxDesc 0 0 0).

Lemma rx_turn_exact_witness :
  (∃ wt ds h', rx_turn turn_mem (mkTimespec 1 5) turn_descs turn_handler = Ret (wt, ds, h') ∧
     bq_items (ring_ h') = [frame_event stamped_frame 1000000005] ∧
     packets_received h' = 3 ∧ packets_dropped h' = 1) ∧
  ∃ k wt descs' h', rx_turn turn_mem (mkTimespec 1 5) turn_descs turn_handler = Ret (wt, descs', h') ∧
    (k ≤ 64)%nat ∧ handler_ready h' ∧
    bq_items (ring_ h') = bq_items tiny_ring ++
      take (queue_room tiny_ring)
        (omap (desc_event turn_mem 1000000005) (take k (cr_entries (rx_ring_ (fh_socket_ turn_handler))))).
Proof.
  split; [do 3 eexists; split; [vm_compute; reflexivity|]; vm_compute; auto|].
  destruct (rx_turn_exact turn_mem (mkTimespec 1 5) turn_descs turn_handler)
    as (k & wt & ds & h' & H & Hk & _ & _ & _ & Hr & _ & _ & Hi & _).
  - split.
    + reflexivity.
    + reflexivity.
    + discriminate.
    + apply (ring_init_wf 2 eq_refl).
    + split; apply (bool_decide_unpack _); vm_compute; reflexivity.
  - reflexivity.
  - apply (bool_decide_unpack _). vm_compute. reflexivity.
  - repeat constructor; vm_compute; discriminate.
  - exists k, wt, ds, h'. split; [exact H|]. split; [exact Hk|]. split; [exact Hr|exact Hi].
Defined.

(** C10: the handler's resources are accounted for: constructing it in a
    ledger where every UMEM and socket has what it needs throws with the
    ledger as it was -- a UMEM built before the socket failed is destroyed
    again -- or, when it was the [reserve] of the UMEM's free list that
    threw, with one region and one handle more, which no object owns and no
    destructor will release; or it gives a handler that, after any calls --
    also a [start] whose thread could not be created -- and any kernel
    activity, can be destroyed without undefined behaviour (the socket
    before the UMEM, the UMEM before the region), which gives the ledger
    back exactly. *)
Theorem handler_lifetime_balanced {FR CR RR TR Q} `{!UmemKernel FR CR, !SocketKernel RR TR}
    `{!XskProd FR Z, !XskCons RR xdp_desc, !BoundedQueue Q FeedEvent}
    (fr0 : FR) (cr0 : CR) (rr0 : RR) (tr0 : TR) (uptr : Z) (q0 : Q) (cfg : Config) (w : world) :
  umems_mapped w → socks_mapped w →
  ∃ r w', FeedHandler_ctor fr0 cr0 rr0 tr0 uptr q0 cfg w = Ret (r, w') ∧
    match r with
    | inl e => if reserve_threw e then leaked w w' else w' = w
    | inr h => ∀ cs descs descs' h',
        exec_handlers cs descs h = Ret (descs', h') → FeedHandler_dtor h' w' = Ret w
    end.
Proof.
  intros Hum Hsm.
  destruct (FeedHandler_ctor_cases fr0 cr0 rr0 tr0 uptr q0 cfg w Hum Hsm) as (r & w' & Hc & Hr).
  exists r, w'. split; [done|]. destruct r as [e|h]; [done|]. destruct Hr as (_ & _ & _ & _ & Hd).
  intros cs descs descs' h' Hx. apply Hd. by eapply exec_handlers_owned.
Qed.

Lemma handler_lifetime_balanced_witness :
  ∃ h w', FeedHandler_ctor no_fill no_comp no_rx no_tx 0 tiny_ring default_handler_config world0 =
            Ret (inr h, w') ∧
    ∀ cs descs descs' h',
      exec_handlers cs descs h = Ret (descs', h') → FeedHandler_dtor h' w' = Ret world0.
Proof.
  destruct (handler_lifetime_balanced no_fill no_comp no_rx no_tx 0 tiny_ring default_handler_config world0)
    as (r & w' & Hc & Hr).
  - intros a _. apply map_Forall_empty.
  - intros a _. apply map_Forall_empty.
  - destruct r as [e|h]; [exfalso; vm_compute in Hc; discriminate|].
    exists h, w'. split; [exact Hc|exact Hr].
Defined.
