(* ===== verification/Pipeline.v ===== *)
(** * The running pipeline: kernel, receive thread, consumer

    The feed handler in operation as a state machine: the receive thread of
    [FeedHandler::rx_loop] one shared-memory action at a time, the consumer
    thread popping, a control thread starting and stopping, and the kernel
    moving frames from the fill ring through the region to the RX ring.  The
    steps of the threads are the operations of FeedHandler; each push and
    pop of the event ring is one step, and each may also answer on an old
    value of the other side's index, as SpscConcurrent allows. *)

From S2P Require Import Prelude Queue RingBuffer FeedEvent Packet Xsk Umem XdpSocket FeedHandler.

(** ** Frames are read in place *)

(** An event depends on the frame's own bytes only, when making it from a
    copy of those bytes alone is defined. *)
Section Local.
Context (pre fb post : list Z) (n : Z).
#[local] Abbreviation mem := (pre ++ fb ++ post).
#[local] Abbreviation base := (Z.of_nat (length pre)).
#[local] Abbreviation p0 := (mkPacket 0 n).
#[local] Abbreviation pa := (mkPacket base n).

Lemma load_shift x k bs : load fb x k = Some bs → load mem (base + x) k = Some bs.
Proof.
  intros Hl. assert (0 ≤ x) by (destruct (proj1 (load_is_Some fb x k)); [by eexists|done]).
  rewrite load_skip by lia. replace (base + x - base) with x by lia. by apply load_app_l.
Qed.

Lemma member_shift fs f p v : member fs f fb p = Ret v → member fs f mem (base + p) = Ret v.
Proof.
  unfold member. destruct (load fb _ _) as [bs|] eqn:Hl; [|done].
  rewrite <- Z.add_assoc. by rewrite (load_shift _ _ _ Hl).
Qed.

Lemma ip_shift : ip pa = Z.add base <$> ip p0.
Proof. unfold ip. cbn [len data]. case_bool_decide; cbn; [done|]. f_equal. Qed.

Lemma udp_shift o : udp fb p0 = Ret o → udp mem pa = Ret (Z.add base <$> o).
Proof.
  unfold udp. rewrite ip_shift. destruct (ip p0) as [i|]; cbn [fmap option_fmap option_map len data]; [|by intros [= <-]].
  destruct (member IpHeader "protocol" fb i) as [pr|] eqn:Hp; [|done].
  rewrite (member_shift _ _ _ _ Hp). ub_step. case_bool_decide; [by intros [= <-]|].
  destruct (member IpHeader "version_ihl" fb i) as [v|] eqn:Hv; [|done].
  rewrite (member_shift _ _ _ _ Hv). ub_step. case_bool_decide; [by intros [= <-]|]. by intros [= <-].
Qed.

Lemma is_udp_shift b : is_udp fb p0 = Ret b → is_udp mem pa = Ret b.
Proof.
  unfold is_udp. destruct (udp fb p0) as [o|] eqn:Hu; [|done]. rewrite (udp_shift o Hu). ub_step.
  intros [= <-]. f_equal. apply bool_decide_ext. by destruct o.
Qed.

Lemma payload_shift o : payload fb p0 = Ret o → payload mem pa = Ret (Z.add base <$> o).
Proof.
  unfold payload. destruct (udp fb p0) as [u|] eqn:Hu; [|done]. rewrite (udp_shift u Hu). ub_step.
  destruct u as [u|]; cbn [fmap option_fmap option_map]; [|by intros [= <-]]. rewrite ip_shift.
  destruct (ip p0) as [i|]; [|done]. cbn [fmap option_fmap option_map]. ub_step.
  destruct (member IpHeader "version_ihl" fb i) as [v|] eqn:Hv; [|done].
  rewrite (member_shift _ _ _ _ Hv). ub_step. intros [= <-]. cbn. do 2 f_equal. lia.
Qed.

Lemma payload_len_shift l : payload_len fb p0 = Ret l → payload_len mem pa = Ret l.
Proof.
  unfold payload_len. destruct (udp fb p0) as [u|] eqn:Hu; [|done]. rewrite (udp_shift u Hu). ub_step.
  destruct u as [u|]; cbn [fmap option_fmap option_map]; [|done].
  destruct (member UdpHeader "length" fb u) as [v|] eqn:Hv; [|done]. by rewrite (member_shift _ _ _ _ Hv).
Qed.

(** A copy out of the frame: none, or a defined load. *)
Lemma copy_shift {A} (c : bool) k (g : list Z → A) y (d r : A) :
  (if c then bs ← deref (load fb y k); Ret (g bs) else Ret d) = Ret r →
  (if c then bs ← deref (load mem (base + y) k); Ret (g bs) else Ret d) = Ret r.
Proof.
  destruct c; [|done]. destruct (load fb y k) as [bs|] eqn:Hl; [|done]. by rewrite (load_shift _ _ _ Hl).
Qed.

Lemma make_event_shift ts o : make_event fb ts p0 = Ret o → make_event mem ts pa = Ret o.
Proof.
  unfold make_event. destruct (is_udp fb p0) as [b|] eqn:Hb; [|done]. rewrite (is_udp_shift b Hb). ub_step.
  destruct b; [|done]. destruct (udp fb p0) as [[u|]|] eqn:Hu; [|done|done]. rewrite (udp_shift _ Hu).
  cbn [fmap option_fmap option_map]. ub_step.
  destruct (member UdpHeader "src_port" fb u) as [sp|] eqn:Hs; [|done]. rewrite (member_shift _ _ _ _ Hs). ub_step.
  destruct (member UdpHeader "dst_port" fb u) as [dp|] eqn:Hd; [|done]. rewrite (member_shift _ _ _ _ Hd). ub_step.
  rewrite ip_shift. destruct (ip p0) as [i|]; [|done]. cbn [fmap option_fmap option_map]. ub_step.
  destruct (member IpHeader "src_ip" fb i) as [si|] eqn:Hi; [|done]. rewrite (member_shift _ _ _ _ Hi). ub_step.
  destruct (payload fb p0) as [y|] eqn:Hy; [|done]. rewrite (payload_shift _ Hy). ub_step.
  destruct (payload_len fb p0) as [l|] eqn:Hl; [|done]. rewrite (payload_len_shift _ Hl). ub_step.
  destruct y as [y|]; cbn [fmap option_fmap option_map]; [|done]. intros Hev.
  destruct (if bool_decide (8 ≤ l) then _ else _) as [inj|] eqn:Hinj in Hev; [|done].
  rewrite (copy_shift _ _ _ _ _ _ Hinj). ub_step.
  destruct (if bool_decide (0 < _) then _ else _) as [body|] eqn:Hbody in Hev; [|done].
  by rewrite (copy_shift _ _ _ _ _ _ Hbody).
Qed.
End Local.

Lemma make_event_local mem a n fb ts o :
  load mem a n = Some fb → make_event fb ts (mkPacket 0 n) = Ret o → make_event mem ts (mkPacket a n) = Ret o.
Proof.
  unfold load. case_bool_decide as H; [|done]. intros [= <-] Hev.
  pose proof (make_event_shift (take (Z.to_nat a) mem) _ (drop (Z.to_nat n) (drop (Z.to_nat a) mem)) n ts o Hev) as Hs.
  rewrite take_drop, take_drop, length_take in Hs. by replace (Z.of_nat _) with a in Hs by lia.
Qed.

(** ** The machine *)

(** Where the receive thread is in [rx_loop].  [PcFrame ts n i] is the
    [for] loop before its iteration [i] of [n], with the batch timestamp. *)
Inductive rx_pc : Type :=
| PcIdle                                (* no thread, or joined *)
| PcTest                                (* at the test of [stop_flag_] *)
| PcBurst
| PcFrame (batch_ts : Z) (n i : nat)
| PcRelease (n : nat)
| PcExited.                             (* returned, not yet joined *)

(** A frame the thread has handled: the bytes the kernel delivered, the
    batch timestamp, and the event made of it. *)
Record seen : Type := mkSeen { sn_frame : list Z; sn_ts : Z; sn_event : option FeedEvent }.

Record sys (FR CR RR TR Q : Type) : Type := mkSys {
  y_h : FeedHandler FR CR RR TR Q;
  y_pc : rx_pc;
  y_descs : list RxDesc;        (* the thread's local array *)
  y_mem : list Z;               (* the bytes of the region *)
  y_kernel : list Z;            (* chunks the kernel holds, by number *)
  (* history *)
  y_starts : nat;               (* calls of [start] *)
  y_arrived : list (list Z);    (* the frames the kernel delivered, in order *)
  y_seen : list seen;           (* the frames the thread handled, in order *)
  y_popped : list FeedEvent;    (* what the consumer got, in order *)
}.
Arguments mkSys {FR CR RR TR Q} _ _ _ _ _ _ _ _ _.
Arguments y_h {FR CR RR TR Q} _.
Arguments y_pc {FR CR RR TR Q} _.
Arguments y_descs {FR CR RR TR Q} _.
Arguments y_mem {FR CR RR TR Q} _.
Arguments y_kernel {FR CR RR TR Q} _.
Arguments y_starts {FR CR RR TR Q} _.
Arguments y_arrived {FR CR RR TR Q} _.
Arguments y_seen {FR CR RR TR Q} _.
Arguments y_popped {FR CR RR TR Q} _.

(** The chunk (UMEM frame) an address of the region belongs to. *)
Definition kFrameSize : Z := frame_size default_config.
Definition chunk (a : Z) : Z := a `div` kFrameSize.

(** The frames the handler primes the kernel with. *)
Definition kPosted : Z := Z.min (fill_size default_config) (frame_count default_config).

(** A descriptor inside one chunk of the region. *)
Definition desc_in_chunk (c a l : Z) : Prop :=
  chunk a = c ∧ 0 ≤ l ∧ a + l ≤ c * kFrameSize + kFrameSize.

Section Machine.
Context {FR CR RR TR Q : Type} `{!SocketKernel RR TR}.
Context `{!XskProd FR Z, !XskProdLaws FR Z, !XskCons RR xdp_desc, !XskConsLaws RR xdp_desc}.
Context `{!BoundedQueue Q FeedEvent}.
#[local] Abbreviation handler := (FeedHandler FR CR RR TR Q).
#[local] Abbreviation state := (sys FR CR RR TR Q).

Definition set_thread (s : state) (h : handler) (pc : rx_pc) (descs : list RxDesc) (sn : list seen) : state :=
  mkSys h pc descs (y_mem s) (y_kernel s) (y_starts s) (y_arrived s) sn (y_popped s).

Definition with_socket (h : handler) (sk : XdpSocket RR TR) (rx : Z) : handler :=
  mkHandler (fh_cfg_ h) (fh_umem_ h) sk (ring_ h) (stop_flag_ h) (rx_thread_ h) rx (pkts_dropped_ h).
Definition with_ring (h : handler) (q : Q) (dropped : Z) : handler :=
  mkHandler (fh_cfg_ h) (fh_umem_ h) (fh_socket_ h) q (stop_flag_ h) (rx_thread_ h) (pkts_rx_ h) dropped.
Definition with_umem (h : handler) (u : Umem FR CR) : handler :=
  mkHandler (fh_cfg_ h) u (fh_socket_ h) (ring_ h) (stop_flag_ h) (rx_thread_ h) (pkts_rx_ h) (pkts_dropped_ h).

Definition frame_content (mem : list Z) (a l : Z) : list Z := default [] (load mem a l).

(** One action of the receive thread; [ts] is what the clock answers if it
    is read. *)
Definition thread_step (ts : timespec) (s : state) : outcome state :=
  let h := y_h s in
  match y_pc s with
  | PcIdle | PcExited => Ret s
  | PcTest =>
      Ret (set_thread s h (if stop_flag_ h then PcExited else PcBurst) (y_descs s) (y_seen s))
  | PcBurst =>
      '(n, descs', sk) ← rx_burst (y_descs s) (fh_socket_ h);
      if bool_decide (n = 0) then
        Ret (set_thread s (with_socket h sk (pkts_rx_ h)) PcTest descs' (y_seen s))
      else
        Ret (set_thread s (with_socket h sk (u64 (pkts_rx_ h + n))) (PcFrame (clock_ns ts) (Z.to_nat n) 0)
               descs' (y_seen s))
  | PcFrame batch_ts n i =>
      if bool_decide (i < n)%nat then
        d ← array_get (y_descs s) (Z.of_nat i);
        _ ← deref (region_ (fh_umem_ h));
        o ← make_event (y_mem s) batch_ts (desc_packet d);
        '(q, dropped) ← handle_frame (y_mem s) batch_ts d (ring_ h) (pkts_dropped_ h);
        Ret (set_thread s (with_ring h q dropped) (PcFrame batch_ts n (S i)) (y_descs s)
               (y_seen s ++ [mkSeen (frame_content (y_mem s) (rx_addr d) (rx_len d)) batch_ts o]))
      else Ret (set_thread s h (PcRelease n) (y_descs s) (y_seen s))
  | PcRelease n =>
      u ← rx_release (take n (y_descs s)) (fh_umem_ h);
      Ret (set_thread s (with_umem h u) PcTest (y_descs s) (y_seen s))
  end.

(** What a stale view of the other side's index adds: [push] may answer
    false though the consumer has already made room (the event is dropped),
    and [pop] may find nothing although an event was pushed (nothing
    changes). *)
Definition push_refused (s s' : state) : Prop :=
  ∃ batch_ts n i d ev, y_pc s = PcFrame batch_ts n i ∧ (i < n)%nat ∧ y_descs s !! i = Some d ∧
    make_event (y_mem s) batch_ts (desc_packet d) = Ret (Some ev) ∧
    s' = set_thread s (with_ring (y_h s) (ring_ (y_h s)) (u64 (pkts_dropped_ (y_h s) + 1))) (PcFrame batch_ts n (S i))
           (y_descs s) (y_seen s ++ [mkSeen (frame_content (y_mem s) (rx_addr d) (rx_len d)) batch_ts (Some ev)]).

(** The other actors.  The kernel takes the oldest address of the fill ring
    and holds its chunk; it delivers a frame by writing into a chunk it holds
    (nowhere else) and appending a descriptor of it to the RX ring, which
    ends its hold. *)
Inductive sys_step : state → state → Prop :=
| step_thread ts s s' :
    thread_step ts s = Ret s' → sys_step s s'
| step_push_stale s s' :
    push_refused s s' → sys_step s s'
| step_pop_stale s :
    sys_step s s
| step_start s h descs :
    y_pc s = PcIdle → start 0 (y_h s) = Ret (None, h) → Z.of_nat (length descs) = kMaxBatch →
    sys_step s (mkSys h PcTest descs (y_mem s) (y_kernel s) (S (y_starts s)) (y_arrived s) (y_seen s) (y_popped s))
| step_start_throws s err e h :
    y_pc s = PcIdle → start err (y_h s) = Ret (Some e, h) →
    sys_step s (mkSys h PcIdle (y_descs s) (y_mem s) (y_kernel s) (S (y_starts s)) (y_arrived s) (y_seen s) (y_popped s))
| step_stop_flag s :
    let h := y_h s in
    sys_step s (set_thread s (mkHandler (fh_cfg_ h) (fh_umem_ h) (fh_socket_ h) (ring_ h) true (rx_thread_ h)
                                (pkts_rx_ h) (pkts_dropped_ h)) (y_pc s) (y_descs s) (y_seen s))
| step_join s :
    y_pc s = PcExited →
    sys_step s (set_thread s (stop (y_h s)) PcIdle (y_descs s) (y_seen s))
| step_pop s o h :
    FeedHandler_pop (y_h s) = Ret (o, h) →
    sys_step s (mkSys h (y_pc s) (y_descs s) (y_mem s) (y_kernel s) (y_starts s) (y_arrived s) (y_seen s)
                  (y_popped s ++ option_list o))
| step_fill s a fr :
    let u := fh_umem_ (y_h s) in
    pr_entries (fill_ring_ u) = a :: pr_entries fr → pr_open fr = pr_open (fill_ring_ u) →
    pr_size fr = pr_size (fill_ring_ u) →
    sys_step s (mkSys (with_umem (y_h s) (set_fill_ring u fr)) (y_pc s) (y_descs s) (y_mem s)
                  (chunk a :: y_kernel s) (y_starts s) (y_arrived s) (y_seen s) (y_popped s))
| step_deliver s c held d mem' rr :
    let sk := fh_socket_ (y_h s) in
    y_kernel s ≡ₚ c :: held → desc_in_chunk c (d_addr d) (d_len d) →
    length mem' = length (y_mem s) → Forall is_byte mem' →
    (∀ i, Z.of_nat i `div` kFrameSize ≠ c → mem' !! i = y_mem s !! i) →
    cr_entries rr = cr_entries (rx_ring_ sk) ++ [d] → cr_taken rr = cr_taken (rx_ring_ sk) →
    sys_step s (mkSys (with_socket (y_h s) (set_rx_ring sk rr) (pkts_rx_ (y_h s))) (y_pc s) (y_descs s) mem'
                  held (y_starts s) (y_arrived s ++ [frame_content mem' (d_addr d) (d_len d)])
                  (y_seen s) (y_popped s)).

(** A freshly constructed handler on a quiet system. *)
Record sys_init (s : state) : Prop := {
  si_cfg : cfg_ (fh_umem_ (y_h s)) = default_config;
  si_region : region_ (fh_umem_ (y_h s)) ≠ None;
  si_mem : frame_size default_config * frame_count default_config ≤ Z.of_nat (length (y_mem s));
  si_bytes : Forall is_byte (y_mem s);
  si_fill : pr_entries (fill_ring_ (fh_umem_ (y_h s))) = [] ∧ pr_open (fill_ring_ (fh_umem_ (y_h s))) = [] ∧
    pr_size (fill_ring_ (fh_umem_ (y_h s))) = fill_size default_config;
  si_rx : cr_entries (rx_ring_ (fh_socket_ (y_h s))) = [] ∧ cr_taken (rx_ring_ (fh_socket_ (y_h s))) = 0%nat;
  si_ring : bq_wf (ring_ (y_h s)) ∧ bq_items (ring_ (y_h s)) = [];
  si_counts : pkts_rx_ (y_h s) = 0 ∧ pkts_dropped_ (y_h s) = 0;
  si_pc : y_pc s = PcIdle ∧ rx_thread_ (y_h s) = false;
  si_history : y_kernel s = [] ∧ y_starts s = 0%nat ∧ y_arrived s = [] ∧ y_seen s = [] ∧ y_popped s = [];
}.

Definition reachable (s : state) : Prop := ∃ s0, sys_init s0 ∧ rtc sys_step s0 s.

(** ** What is where *)

(** The descriptors of the current batch: those the thread still has to
    handle, and all it has to give back. *)
Definition batch_todo (s : state) : list RxDesc :=
  match y_pc s with PcFrame _ n i => drop i (take n (y_descs s)) | _ => [] end.
Definition batch_held (s : state) : list RxDesc :=
  match y_pc s with PcFrame _ n _ | PcRelease n => take n (y_descs s) | _ => [] end.

(** Every place a chunk can be. *)
Definition chunks (s : state) : list Z :=
  (chunk <$> pr_entries (fill_ring_ (fh_umem_ (y_h s)))) ++ y_kernel s ++
  ((λ d, chunk (d_addr d)) <$> cr_entries (rx_ring_ (fh_socket_ (y_h s)))) ++
  ((λ d, chunk (rx_addr d)) <$> batch_held s).

(** The frames delivered and not yet handled, oldest first. *)
Definition pending (s : state) : list (Z * Z) :=
  ((λ d, (rx_addr d, rx_len d)) <$> batch_todo s) ++
  ((λ d, (d_addr d, d_len d)) <$> cr_entries (rx_ring_ (fh_socket_ (y_h s)))).

Definition seen_events (s : state) : list FeedEvent := omap sn_event (y_seen s).

(** ** The invariant *)

(** Holds as long as [start] has been called at most once. *)
Record sys_inv (s : state) : Prop := {
  v_cfg : cfg_ (fh_umem_ (y_h s)) = default_config;
  v_region : region_ (fh_umem_ (y_h s)) ≠ None;
  v_mem : frame_size default_config * frame_count default_config ≤ Z.of_nat (length (y_mem s));
  v_bytes : Forall is_byte (y_mem s);
  v_fill : pr_open (fill_ring_ (fh_umem_ (y_h s))) = [] ∧
           pr_size (fill_ring_ (fh_umem_ (y_h s))) = fill_size default_config;
  v_rx : cr_taken (rx_ring_ (fh_socket_ (y_h s))) = 0%nat;
  v_ring : bq_wf (ring_ (y_h s));
  v_thread : y_pc s = PcIdle ↔ rx_thread_ (y_h s) = false;
  v_descs : y_pc s ≠ PcIdle → Z.of_nat (length (y_descs s)) = kMaxBatch;
  v_pc : match y_pc s with
         | PcFrame ts n i => (i ≤ n ≤ 64)%nat ∧ in_width 64 ts
         | PcRelease n => (n ≤ 64)%nat
         | _ => True
         end;
  v_chunks : chunks s ≡ₚ (if bool_decide (y_starts s = 0%nat) then [] else seqZ 0 kPosted);
  v_pending : Forall (λ p, desc_in_chunk (chunk p.1) p.1 p.2) (pending s);
  v_arrived : y_arrived s = (sn_frame <$> y_seen s) ++
                            ((λ p, frame_content (y_mem s) p.1 p.2) <$> pending s);
  v_seen : Forall (λ x, ∀ o, make_event (sn_frame x) (sn_ts x)
                               (mkPacket 0 (Z.of_nat (length (sn_frame x)))) = Ret o → sn_event x = o) (y_seen s);
  v_typed : Forall event_typed (seen_events s);
  v_fifo : y_popped s ++ bq_items (ring_ (y_h s)) `sublist_of` seen_events s;
  v_dropped : pkts_dropped_ (y_h s) =
    u64 (Z.of_nat (length (seen_events s)) - Z.of_nat (length (y_popped s ++ bq_items (ring_ (y_h s)))));
  v_received : pkts_rx_ (y_h s) = u64 (Z.of_nat (length (y_seen s)) + Z.of_nat (length (batch_todo s)));
}.

End Machine.

(** ** Lemmas *)

Lemma load_agree mem mem' a l :
  length mem' = length mem → (∀ i, a ≤ Z.of_nat i < a + l → mem' !! i = mem !! i) →
  load mem' a l = load mem a l.
Proof.
  intros Hlen Hag. unfold load. rewrite Hlen. case_bool_decide as H; [|done]. f_equal.
  apply list_eq. intros j. destruct (decide (j < Z.to_nat l)%nat) as [Hj|Hj].
  - rewrite !lookup_take_lt, !lookup_drop by done. apply Hag. lia.
  - by rewrite !lookup_take_ge by lia.
Qed.

(** A frame in a chunk other than the one being written keeps its bytes. *)
Lemma content_stable mem mem' c a l :
  length mem' = length mem → (∀ i, Z.of_nat i `div` kFrameSize ≠ c → mem' !! i = mem !! i) →
  desc_in_chunk (chunk a) a l → chunk a ≠ c → frame_content mem' a l = frame_content mem a l.
Proof.
  intros Hlen Hag (H1 & H2 & H3) Hne. unfold frame_content. f_equal. apply load_agree; [done|].
  intros i Hi. apply Hag. intros Hc. apply Hne. rewrite <- Hc. unfold chunk in *.
  change kFrameSize with 4096 in *. pose proof (Z.div_mod a 4096 ltac:(lia)).
  pose proof (Z.mod_pos_bound a 4096 ltac:(lia)).
  apply Z.div_unique with (Z.of_nat i - a `div` 4096 * 4096); lia.
Qed.

(** A posted chunk has room behind it in the region. *)
Lemma posted_desc_bounds (mem : list Z) a l :
  frame_size default_config * frame_count default_config ≤ Z.of_nat (length mem) →
  desc_in_chunk (chunk a) a l → chunk a ∈ seqZ 0 kPosted →
  0 ≤ a ∧ 0 ≤ l ∧ a + l + kMaxPayload ≤ Z.of_nat (length mem).
Proof.
  intros Hm (H1 & H2 & H3) Hc%elem_of_seqZ. change kPosted with 2048 in Hc.
  unfold chunk in *. change kFrameSize with 4096 in *. pose proof (Z.div_mod a 4096 ltac:(lia)).
  pose proof (Z.mod_pos_bound a 4096 ltac:(lia)). unfold kMaxPayload. cbn in Hm. lia.
Qed.

Section Invariant.
Context {FR CR RR TR Q : Type} `{!SocketKernel RR TR}.
Context `{!XskProd FR Z, !XskProdLaws FR Z, !XskCons RR xdp_desc, !XskConsLaws RR xdp_desc}.
Context `{!BoundedQueue Q FeedEvent}.
Implicit Types s : sys FR CR RR TR Q.

Lemma chunks_cases s :
  sys_inv s → chunks s ≡ₚ [] ∨ chunks s ≡ₚ seqZ 0 kPosted.
Proof. intros Hs. pose proof (v_chunks s Hs) as Hc. case_bool_decide; auto. Qed.

Lemma chunks_NoDup s : sys_inv s → NoDup (chunks s).
Proof.
  intros Hs. destruct (chunks_cases s Hs) as [-> | ->]; [by constructor|apply NoDup_seqZ].
Qed.

Lemma chunks_posted s c : sys_inv s → c ∈ chunks s → c ∈ seqZ 0 kPosted.
Proof.
  intros Hs Hc. destruct (chunks_cases s Hs) as [Hp|Hp]; rewrite Hp in Hc; [by apply elem_of_nil in Hc|done].
Qed.

(** At most 2048 chunks are about, so a batch always fits in the fill
    ring. *)
Lemma batch_fits s :
  sys_inv s →
  Z.of_nat (length (batch_held s)) + Z.of_nat (length (pr_entries (fill_ring_ (fh_umem_ (y_h s)))))
  ≤ pr_size (fill_ring_ (fh_umem_ (y_h s))).
Proof.
  intros Hs. destruct (v_fill s Hs) as [_ ->].
  assert (Hl : (length (chunks s) ≤ 2048)%nat).
  { destruct (chunks_cases s Hs) as [-> | ->]; [cbn; lia|by rewrite length_seqZ]. }
  unfold chunks in Hl. rewrite !length_app, !length_fmap in Hl. cbn. lia.
Qed.

Lemma todo_in_held s d : d ∈ batch_todo s → d ∈ batch_held s.
Proof.
  unfold batch_todo, batch_held. destruct (y_pc s) as [| | |ts n i|n|]; try by intros ?%elem_of_nil.
  intros (j & Hj)%list_elem_of_lookup. rewrite lookup_drop in Hj. by eapply list_elem_of_lookup_2.
Qed.

(** A frame that waits to be handled lies in a posted chunk that neither the
    kernel nor the fill ring has. *)
Lemma pending_chunk s a l :
  sys_inv s → (a, l) ∈ pending s → chunk a ∈ seqZ 0 kPosted ∧ chunk a ∉ y_kernel s.
Proof.
  intros Hs Hp. assert (Hin : chunk a ∈ ((λ d, chunk (d_addr d)) <$> cr_entries (rx_ring_ (fh_socket_ (y_h s)))) ++
    ((λ d, chunk (rx_addr d)) <$> batch_held s)).
  { unfold pending in Hp. apply elem_of_app. apply elem_of_app in Hp as [Hp|Hp]; [right|left];
      apply list_elem_of_fmap in Hp as (d & [= -> ->] & Hd); apply list_elem_of_fmap; exists d; split; try done.
    by apply todo_in_held. }
  split.
  - apply (chunks_posted s); [done|]. unfold chunks. apply elem_of_app. right. apply elem_of_app. by right.
  - intros Hk. pose proof (chunks_NoDup s Hs) as Hnd. unfold chunks in Hnd.
    apply NoDup_app in Hnd as (_ & _ & Hnd). apply NoDup_app in Hnd as (_ & Hdis & _). by apply (Hdis (chunk a)).
Qed.

Lemma pending_bounds s a l :
  sys_inv s → (a, l) ∈ pending s → 0 ≤ a ∧ 0 ≤ l ∧ a + l + kMaxPayload ≤ Z.of_nat (length (y_mem s)).
Proof.
  intros Hs Hp. apply posted_desc_bounds; [by apply v_mem| |by apply (pending_chunk s a l)].
  by apply (proj1 (Forall_forall _ _) (v_pending s Hs) (a, l)).
Qed.

Lemma sys_inv_init s : sys_init s → sys_inv s.
Proof.
  intros [Hcfg Hreg Hmem Hb (Hf1 & Hf2 & Hf3) (Hr1 & Hr2) (Hq1 & Hq2) (Hc1 & Hc2) (Hp1 & Hp2)
    (Hk & Hst & Ha & Hse & Hpo)].
  assert (Hnp : pending s = []).
  { unfold pending, batch_todo. by rewrite Hp1, Hr1. }
  split; try done; rewrite ?Hp1, ?Hnp, ?Ha, ?Hse, ?Hpo; try done.
  - unfold chunks, batch_held. rewrite Hp1, Hf1, Hr1, Hk, Hst. done.
  - unfold seen_events. by rewrite Hse.
  - unfold seen_events. by rewrite Hse, Hq2.
  - unfold seen_events. by rewrite Hse, Hq2, Hc2.
  - unfold batch_todo. by rewrite Hp1, Hc1.
Qed.

(** Unfold the bookkeeping of a state whose control point is known. *)
Ltac places Hpc := unfold chunks, pending, batch_todo, batch_held, seen_events in *; cbn in *; rewrite ?Hpc in *; cbn in *.

Lemma inv_test s :
  sys_inv s → y_pc s = PcTest →
  sys_inv (set_thread s (y_h s) (if stop_flag_ (y_h s) then PcExited else PcBurst) (y_descs s) (y_seen s)).
Proof.
  intros [] Hpc. places Hpc. assert (Hd : Z.of_nat (length (y_descs s)) = kMaxBatch) by auto.
  destruct (stop_flag_ (y_h s)); split; places Hpc; try done; rewrite <- v_thread0; by split.
Qed.

Lemma inv_burst s n descs' sk ts :
  sys_inv s → y_pc s = PcBurst → rx_burst (y_descs s) (fh_socket_ (y_h s)) = Ret (n, descs', sk) →
  sys_inv (if bool_decide (n = 0)
    then set_thread s (with_socket (y_h s) sk (pkts_rx_ (y_h s))) PcTest descs' (y_seen s)
    else set_thread s (with_socket (y_h s) sk (u64 (pkts_rx_ (y_h s) + n))) (PcFrame (clock_ns ts) (Z.to_nat n) 0)
           descs' (y_seen s)).
Proof.
  intros Hs Hpc Hb. pose proof (v_descs s Hs ltac:(congruence)) as Hdl. unfold kMaxBatch in Hdl.
  destruct (rx_burst_spec (y_descs s) (fh_socket_ (y_h s)) (v_rx s Hs)) as (k & r & Hb' & Hkd & Hkq & _ & He & Ht); [lia|].
  rewrite Hb in Hb'. injection Hb' as -> -> ->. set (q := cr_entries _) in *.
  assert (Hl : Z.of_nat (length ((to_rx <$> take k q) ++ drop k (y_descs s))) = kMaxBatch).
  { rewrite length_app, length_fmap, length_take, length_drop. unfold kMaxBatch. lia. }
  assert (Htake : take k ((to_rx <$> take k q) ++ drop k (y_descs s)) = to_rx <$> take k q).
  { apply take_app_length'. rewrite length_fmap, length_take. lia. }
  destruct Hs. places Hpc. destruct (decide (k = 0%nat)) as [->|Hk]; [rewrite bool_decide_true by lia|rewrite bool_decide_false by lia].
  - cbn in He. rewrite drop_0 in He.
    split; places Hpc; rewrite ?He; try done. rewrite <- v_thread0. by split.
  - rewrite Nat2Z.id. split; places Hpc; rewrite ?He, ?Htake, ?drop_0; try done.
    + rewrite <- v_thread0. by split.
    + split; [lia|apply clock_ns_width].
    + rewrite app_nil_r in v_chunks0. rewrite <- list_fmap_compose.
      change (compose (λ d, chunk (rx_addr d)) to_rx) with (λ d, chunk (d_addr d)).
      rewrite (Permutation_app_comm (_ <$> drop k q)), <- fmap_app, take_drop. done.
    + rewrite <- list_fmap_compose. change (compose (λ d, (rx_addr d, rx_len d)) to_rx) with (λ d, (d_addr d, d_len d)).
      by rewrite <- fmap_app, take_drop.
    + rewrite <- list_fmap_compose. change (compose (λ d, (rx_addr d, rx_len d)) to_rx) with (λ d, (d_addr d, d_len d)).
      by rewrite <- fmap_app, take_drop.
    + rewrite v_received0, length_fmap, length_take. unfold u64, wrap. rewrite Zplus_mod_idemp_l. f_equal. cbn. lia.
Qed.

(** The frame the loop is about to handle. *)
Lemma next_frame s ts n i :
  sys_inv s → y_pc s = PcFrame ts n i → (i < n)%nat →
  ∃ d, y_descs s !! i = Some d ∧ batch_todo s = d :: drop (S i) (take n (y_descs s)) ∧
    (rx_addr d, rx_len d) ∈ pending s.
Proof.
  intros Hs Hpc Hi. pose proof (v_pc s Hs) as Hp. rewrite Hpc in Hp.
  pose proof (v_descs s Hs ltac:(congruence)) as Hdl. unfold kMaxBatch in Hdl.
  destruct (lookup_lt_is_Some_2 (y_descs s) i) as [d Hd]; [lia|].
  assert (Htodo : batch_todo s = d :: drop (S i) (take n (y_descs s))).
  { unfold batch_todo. rewrite Hpc. apply drop_S. by rewrite lookup_take_lt. }
  exists d. split_and!; [done|done|]. unfold pending. rewrite Htodo. by left.
Qed.

(** What handling it does, in terms of the event made. *)
Lemma handle_frame_event mem ts d (q : Q) dropped o :
  make_event mem ts (desc_packet d) = Ret o → bq_wf q → in_width 64 dropped →
  ∃ q' dropped', handle_frame mem ts d q dropped = Ret (q', dropped') ∧ bq_wf q' ∧
    ((bq_items q' = bq_items q ++ option_list o ∧ dropped' = dropped) ∨
     (bq_items q' = bq_items q ∧ o ≠ None ∧ dropped' = u64 (dropped + 1))).
Proof.
  intros Ho Hq Hd. unfold handle_frame. rewrite Ho. ub_step. destruct o as [ev|].
  - destruct (bq_push_spec ev q Hq) as (q' & -> & Hq' & Hi). ub_step. unfold q_push in Hi.
    destruct (q_full bq_cap (bq_items q)); cbn in *; do 2 eexists; (split; [done|]); auto.
  - do 2 eexists. split; [done|]. cbn. rewrite app_nil_r. auto.
Qed.

Lemma inv_frame_event s ts n i d :
  sys_inv s → y_pc s = PcFrame ts n i → (i < n)%nat → y_descs s !! i = Some d →
  ∃ o, make_event (y_mem s) ts (desc_packet d) = Ret o ∧ Forall event_typed (option_list o) ∧
    let fb := frame_content (y_mem s) (rx_addr d) (rx_len d) in
    ∀ o', make_event fb ts (mkPacket 0 (Z.of_nat (length fb))) = Ret o' → o = o'.
Proof.
  intros Hs Hpc Hi Hd. destruct (next_frame s ts n i Hs Hpc Hi) as (d' & Hd' & _ & Hin).
  rewrite Hd in Hd'. injection Hd' as <-. pose proof (v_pc s Hs) as Hp. rewrite Hpc in Hp.
  destruct (pending_bounds s _ _ Hs Hin) as (H1 & H2 & H3).
  destruct (load_ok (y_mem s) (rx_addr d) (rx_len d)) as (fb & Hfb & Hlen); [unfold kMaxPayload in *; lia..|].
  assert (Hloc : ∀ o o', make_event (y_mem s) ts (desc_packet d) = Ret o →
    make_event (frame_content (y_mem s) (rx_addr d) (rx_len d)) ts
      (mkPacket 0 (Z.of_nat (length (frame_content (y_mem s) (rx_addr d) (rx_len d))))) = Ret o' → o = o').
  { intros o o' Ho. unfold frame_content. rewrite Hfb. change (default [] (Some fb)) with fb. rewrite Hlen. intros Ho'.
    apply (make_event_local _ _ _ _ _ _ Hfb) in Ho'. unfold desc_packet in Ho. congruence. }
  destruct (make_event_ok (y_mem s) ts (desc_packet d) (v_bytes s Hs)) as [[_ Ho]|(ev & Ho & Hty & _)];
    [tauto|unfold in_region, kMaxPayload in *; cbn; lia|done| |]; eexists; (split; [exact Ho|]); split; try by eauto.
  by apply Forall_singleton.
Qed.

Lemma inv_handled s ts n i d o q' dropped' :
  sys_inv s → y_pc s = PcFrame ts n i → (i < n)%nat → y_descs s !! i = Some d →
  make_event (y_mem s) ts (desc_packet d) = Ret o → bq_wf q' →
  ((bq_items q' = bq_items (ring_ (y_h s)) ++ option_list o ∧ dropped' = pkts_dropped_ (y_h s)) ∨
   (bq_items q' = bq_items (ring_ (y_h s)) ∧ o ≠ None ∧ dropped' = u64 (pkts_dropped_ (y_h s) + 1))) →
  sys_inv (set_thread s (with_ring (y_h s) q' dropped') (PcFrame ts n (S i)) (y_descs s)
             (y_seen s ++ [mkSeen (frame_content (y_mem s) (rx_addr d) (rx_len d)) ts o])).
Proof.
  intros Hs Hpc Hi Hd Ho Hq1 Hcase.
  destruct (inv_frame_event s ts n i d Hs Hpc Hi Hd) as (o2 & Ho2 & Hty & Hloc). assert (o2 = o) as -> by congruence.
  destruct (next_frame s ts n i Hs Hpc Hi) as (d' & Hd' & Htodo & _). rewrite Hd in Hd'. injection Hd' as <-.
  destruct Hs. rewrite Htodo in *. unfold pending in *. rewrite Htodo in *. clear Htodo. places Hpc.
  apply Forall_cons in v_pending0 as [Hdc Hpend].
  assert (Hev : omap sn_event (y_seen s ++ [mkSeen (frame_content (y_mem s) (rx_addr d) (rx_len d)) ts o]) =
    omap sn_event (y_seen s) ++ option_list o).
  { rewrite omap_app. cbn. by destruct o. }
  split; places Hpc; try done.
  - rewrite <- v_thread0. by split.
  - intros _. by apply v_descs0.
  - split; [lia|tauto].
  - rewrite v_arrived0, (fmap_app sn_frame (y_seen s)), <- app_assoc. done.
  - apply Forall_app. split; [done|]. constructor; [|done]. cbn. exact Hloc.
  - rewrite Hev. by apply Forall_app.
  - rewrite Hev. destruct Hcase as [[-> _]|[-> _]].
    + rewrite app_assoc. by apply sublist_app.
    + by apply sublist_inserts_r.
  - rewrite Hev. destruct Hcase as [[-> ->]|(-> & Hne & ->)]; rewrite v_dropped0, ?app_assoc, ?(length_app _ (option_list o)).
    + f_equal. lia.
    + destruct o; [|done]. unfold u64, wrap. rewrite Zplus_mod_idemp_l. f_equal. cbn. lia.
  - rewrite v_received0, length_app. f_equal. cbn. lia.
Qed.

Lemma inv_frame s ts n i d o q' dropped' :
  sys_inv s → y_pc s = PcFrame ts n i → (i < n)%nat → y_descs s !! i = Some d →
  make_event (y_mem s) ts (desc_packet d) = Ret o →
  handle_frame (y_mem s) ts d (ring_ (y_h s)) (pkts_dropped_ (y_h s)) = Ret (q', dropped') →
  sys_inv (set_thread s (with_ring (y_h s) q' dropped') (PcFrame ts n (S i)) (y_descs s)
             (y_seen s ++ [mkSeen (frame_content (y_mem s) (rx_addr d) (rx_len d)) ts o])).
Proof.
  intros Hs Hpc Hi Hd Ho Hh.
  assert (Hcd : in_width 64 (pkts_dropped_ (y_h s))) by (rewrite v_dropped by done; by apply in_width_wrap).
  destruct (handle_frame_event _ _ _ _ _ o Ho (v_ring s Hs) Hcd) as (q1 & d1 & Hh1 & Hq1 & Hcase).
  rewrite Hh in Hh1. injection Hh1 as <- <-. by apply inv_handled.
Qed.

Lemma inv_push_stale s s' : sys_inv s → push_refused s s' → sys_inv s'.
Proof.
  intros Hs (ts & n & i & d & ev & Hpc & Hi & Hd & Ho & ->). apply inv_handled; try done; [by apply v_ring|auto].
Qed.

Lemma inv_loop_end s ts n i :
  sys_inv s → y_pc s = PcFrame ts n i → ¬ (i < n)%nat →
  sys_inv (set_thread s (y_h s) (PcRelease n) (y_descs s) (y_seen s)).
Proof.
  intros Hs Hpc Hi. assert (Htodo : batch_todo s = []).
  { unfold batch_todo. rewrite Hpc. apply drop_ge. rewrite length_take. lia. }
  destruct Hs. unfold pending in *. rewrite Htodo in *. clear Htodo. places Hpc.
  split; places Hpc; try done.
  - rewrite <- v_thread0. by split.
  - intros _. by apply v_descs0.
  - lia.
Qed.

Lemma inv_release s n u :
  sys_inv s → y_pc s = PcRelease n → rx_release (take n (y_descs s)) (fh_umem_ (y_h s)) = Ret u →
  sys_inv (set_thread s (with_umem (y_h s) u) PcTest (y_descs s) (y_seen s)).
Proof.
  intros Hs Hpc Hr. pose proof (v_pc s Hs) as Hn. rewrite Hpc in Hn. destruct (v_fill s Hs) as [Ho Hsz].
  destruct (rx_release_spec (take n (y_descs s)) (fh_umem_ (y_h s)) Ho) as (r & Hr' & Ho' & Hsz' & He).
  { rewrite length_take. lia. }
  pose proof (batch_fits s Hs) as Hfit. unfold batch_held in Hfit. rewrite Hpc in Hfit.
  rewrite bool_decide_true in He by done. rewrite Hr in Hr'. injection Hr' as ->.
  destruct Hs. places Hpc. split; places Hpc; rewrite ?He; try done.
  - by rewrite Hsz'.
  - rewrite <- v_thread0. by split.
  - intros _. by apply v_descs0.
  - rewrite app_nil_r, fmap_app, <- list_fmap_compose, <- v_chunks0, <- !app_assoc. apply Permutation_app_head.
    rewrite Permutation_app_comm, <- !app_assoc. done.
Qed.

Lemma thread_step_inv ts s s' : sys_inv s → thread_step ts s = Ret s' → sys_inv s'.
Proof.
  intros Hs. unfold thread_step. destruct (y_pc s) as [| | |bts n i|n|] eqn:Hpc.
  - by intros [= <-].
  - intros [= <-]. by apply inv_test.
  - destruct (rx_burst _ _) as [[[n descs'] sk]|] eqn:Hb; [|done]. ub_step.
    pose proof (inv_burst s n descs' sk ts Hs Hpc Hb). by case_bool_decide; intros [= <-].
  - case_bool_decide as Hi; [|intros [= <-]; by eapply inv_loop_end].
    destruct (next_frame s bts n i Hs Hpc Hi) as (d & Hd & _).
    rewrite (array_get_lookup _ _ d) by (lia || by rewrite Nat2Z.id). ub_step.
    destruct (region_ _); [|done]. ub_step. destruct (make_event _ _ _) as [o|] eqn:Ho; [|done]. ub_step.
    destruct (handle_frame _ _ _ _ _) as [[q dr]|] eqn:Hh; [|done]. ub_step. intros [= <-].
    by eapply inv_frame.
  - destruct (rx_release _ _) as [u|] eqn:Hr; [|done]. ub_step. intros [= <-]. by eapply inv_release.
  - by intros [= <-].
Qed.

(** [start] on an idle handler whose fill ring is empty posts the first
    2048 frames, also when its thread cannot be created. *)
Definition started s (r : FR) (joinable : bool) : FeedHandler FR CR RR TR Q :=
  mkHandler (fh_cfg_ (y_h s)) (set_fill_ring (fh_umem_ (y_h s)) r) (fh_socket_ (y_h s))
    (ring_ (y_h s)) false joinable (pkts_rx_ (y_h s)) (pkts_dropped_ (y_h s)).

Lemma start_posts s :
  sys_inv s → y_pc s = PcIdle → pr_entries (fill_ring_ (fh_umem_ (y_h s))) = [] →
  ∃ r, start 0 (y_h s) = Ret (None, started s r true) ∧
    (∀ err, err ≠ 0 → start err (y_h s) = Ret (Some (ThreadRefused err), started s r false)) ∧
    chunk <$> pr_entries r = seqZ 0 kPosted ∧ pr_open r = [] ∧ pr_size r = fill_size default_config.
Proof.
  intros Hs Hpc Hfe. destruct (v_fill s Hs) as [Ho Hsz].
  destruct (populate_spec (fh_umem_ (y_h s))) as (r & Hp & Ho' & He & Hsz');
    rewrite ?(v_cfg s Hs); try done.
  exists r. unfold start. rewrite Hp. ub_step. rewrite (proj1 (v_thread s Hs) Hpc). split; [done|].
  split; [intros err Herr; by rewrite bool_decide_true|].
  rewrite Hfe in He. unfold posted_frames in He. rewrite Hfe, Hsz, (v_cfg s Hs), bool_decide_true in He by (cbn; lia).
  split_and!; [|done|congruence]. rewrite He. cbn [app]. rewrite <- list_fmap_compose.
  trans (id <$> seqZ 0 kPosted); [|apply list_fmap_id].
  apply list_fmap_ext. intros _ x _. unfold chunk. cbn. by apply Z.div_mul.
Qed.

Lemma inv_start s err e h descs :
  sys_inv s → y_starts s = 0%nat → y_pc s = PcIdle → start err (y_h s) = Ret (e, h) →
  Z.of_nat (length descs) = kMaxBatch ∨ e ≠ None →
  sys_inv (mkSys h (if e is Some _ then PcIdle else PcTest) descs (y_mem s) (y_kernel s) (S (y_starts s))
             (y_arrived s) (y_seen s) (y_popped s)).
Proof.
  intros Hs H0 Hpc Hst Hdl. pose proof (v_chunks s Hs) as Hc. rewrite H0, bool_decide_true in Hc by done.
  apply Permutation_nil_r in Hc. unfold chunks in Hc.
  apply app_eq_nil in Hc as (Hfe & (Hke & (Hre & _)%app_eq_nil)%app_eq_nil).
  apply fmap_nil_inv in Hfe, Hre.
  destruct (start_posts s Hs Hpc Hfe) as (r & Hok & Hthrows & Hch & Ho' & Hsz').
  assert (Hcase : e = None ∧ h = started s r true ∨ e ≠ None ∧ h = started s r false).
  { destruct (decide (err = 0)) as [->|Hne]; [left; rewrite Hok in Hst; by injection Hst as <- <-|right].
    rewrite (Hthrows err Hne) in Hst. by injection Hst as <- <-. }
  clear Hst Hok Hthrows. destruct Hs. places Hpc. rewrite Hre, Hke in *.
  destruct Hcase as [[-> ->]|[Hne ->]]; [|destruct e; [|done]]; split; places Hpc; rewrite ?Hre, ?Hke; try done.
  - by destruct Hdl.
  - by rewrite Hch, app_nil_r.
  - by rewrite Hch, app_nil_r.
Qed.

Lemma inv_stop_flag s :
  sys_inv s → sys_inv (set_thread s (mkHandler (fh_cfg_ (y_h s)) (fh_umem_ (y_h s)) (fh_socket_ (y_h s)) (ring_ (y_h s))
    true (rx_thread_ (y_h s)) (pkts_rx_ (y_h s)) (pkts_dropped_ (y_h s))) (y_pc s) (y_descs s) (y_seen s)).
Proof. intros []. by split. Qed.

Lemma inv_join s :
  sys_inv s → y_pc s = PcExited → sys_inv (set_thread s (stop (y_h s)) PcIdle (y_descs s) (y_seen s)).
Proof. intros [] Hpc. places Hpc. by split; places Hpc. Qed.

Lemma inv_pop s o h :
  sys_inv s → FeedHandler_pop (y_h s) = Ret (o, h) →
  sys_inv (mkSys h (y_pc s) (y_descs s) (y_mem s) (y_kernel s) (y_starts s) (y_arrived s) (y_seen s)
             (y_popped s ++ option_list o)).
Proof.
  intros Hs. unfold FeedHandler_pop. destruct (bq_pop_spec (ring_ (y_h s)) (v_ring s Hs)) as (q & -> & Hq & Hi).
  ub_step. intros [= <- <-].
  assert (Hsplit : (y_popped s ++ option_list (head (bq_items (ring_ (y_h s))))) ++ bq_items q =
    y_popped s ++ bq_items (ring_ (y_h s))).
  { rewrite Hi, <- app_assoc. by destruct (bq_items (ring_ (y_h s))). }
  destruct Hs. split; try done; cbn [y_popped y_h ring_ set_ring]; rewrite ?Hsplit; done.
Qed.

Lemma inv_fill s a fr :
  sys_inv s → let u := fh_umem_ (y_h s) in
  pr_entries (fill_ring_ u) = a :: pr_entries fr → pr_open fr = pr_open (fill_ring_ u) →
  pr_size fr = pr_size (fill_ring_ u) →
  sys_inv (mkSys (with_umem (y_h s) (set_fill_ring u fr)) (y_pc s) (y_descs s) (y_mem s)
             (chunk a :: y_kernel s) (y_starts s) (y_arrived s) (y_seen s) (y_popped s)).
Proof.
  intros Hs u He Ho Hsz. subst u. destruct Hs. split; try done; cbn.
  - by rewrite Ho, Hsz.
  - rewrite <- v_chunks0. unfold chunks, batch_held. cbn. rewrite He. cbn.
    by rewrite <- Permutation_middle.
Qed.

Lemma inv_deliver s c held d mem' rr :
  sys_inv s → let sk := fh_socket_ (y_h s) in
  y_kernel s ≡ₚ c :: held → desc_in_chunk c (d_addr d) (d_len d) →
  length mem' = length (y_mem s) → Forall is_byte mem' →
  (∀ i, Z.of_nat i `div` kFrameSize ≠ c → mem' !! i = y_mem s !! i) →
  cr_entries rr = cr_entries (rx_ring_ sk) ++ [d] → cr_taken rr = cr_taken (rx_ring_ sk) →
  sys_inv (mkSys (with_socket (y_h s) (set_rx_ring sk rr) (pkts_rx_ (y_h s))) (y_pc s) (y_descs s) mem'
             held (y_starts s) (y_arrived s ++ [frame_content mem' (d_addr d) (d_len d)])
             (y_seen s) (y_popped s)).
Proof.
  intros Hs sk Hk Hd Hlen Hb Hag He Ht. subst sk. destruct Hd as [Hc Hd].
  assert (Hstable : (λ p, frame_content mem' p.1 p.2) <$> pending s = (λ p, frame_content (y_mem s) p.1 p.2) <$> pending s).
  { apply list_fmap_ext. intros j [a l] Hj%list_elem_of_lookup_2. cbn. apply (content_stable _ _ c); try done.
    - by apply (proj1 (Forall_forall _ _) (v_pending s Hs) (a, l)).
    - intros Heq. apply (pending_chunk s a l) in Hj as [_ Hj]; [|done]. apply Hj. rewrite Hk, Heq. by left. }
  match goal with |- sys_inv ?t => set (s' := t) end.
  assert (Hpend : pending s' = pending s ++ [(d_addr d, d_len d)]).
  { unfold pending, batch_todo. cbn. by rewrite He, fmap_app, app_assoc. }
  destruct Hs. split; rewrite ?Hpend; try done; cbn.
  - by rewrite Hlen.
  - by rewrite Ht.
  - rewrite <- v_chunks0. unfold chunks, batch_held. cbn. rewrite He, Hk, fmap_app. cbn. rewrite Hc.
    apply Permutation_app_head. rewrite <- !app_assoc. cbn.
    by rewrite <- Permutation_middle, <- Permutation_middle.
  - apply Forall_app. split; [done|]. apply Forall_singleton. cbn. split; [done|]. by rewrite Hc.
  - rewrite v_arrived0, (fmap_app _ (pending s)), Hstable, <- app_assoc. done.
Qed.

(** What the thread never touches. *)
Lemma thread_step_frame ts s s' :
  thread_step ts s = Ret s' → y_starts s' = y_starts s ∧ y_popped s' = y_popped s ∧
    y_arrived s' = y_arrived s ∧ y_seen s `prefix_of` y_seen s'.
Proof.
  unfold thread_step. destruct (y_pc s) as [| | |bts n i|n|]; try by intros [= <-].
  - destruct (rx_burst _ _) as [[[k descs'] sk]|]; [|done]. ub_step. by case_bool_decide; intros [= <-].
  - case_bool_decide; [|by intros [= <-]]. destruct (array_get _ _) as [d|]; [|done]. ub_step.
    destruct (region_ _); [|done]. ub_step. destruct (make_event _ _ _); [|done]. ub_step.
    destruct (handle_frame _ _ _ _ _) as [[q dr]|]; [|done]. ub_step. intros [= <-].
    split_and!; [done..|]. by apply prefix_app_r.
  - destruct (rx_release _ _); [|done]. ub_step. by intros [= <-].
Qed.

Lemma thread_step_starts ts s s' : thread_step ts s = Ret s' → y_starts s' = y_starts s.
Proof. by intros []%thread_step_frame. Qed.

Lemma sys_step_inv s s' :
  (y_starts s ≤ 1 → sys_inv s)%nat → sys_step s s' → (y_starts s' ≤ 1 → sys_inv s')%nat.
Proof.
  intros Hs Hstep. destruct Hstep as [ts s s' Hth|s s' Href|s|s h descs Hpc Hst Hdl|s err e h Hpc Hst|s h|s Hpc|s o h Hpop|s a fr u He Ho Hsz|
    s c held d mem' rr sk Hk Hd Hlen Hb Hag He Ht]; cbn; intros H1.
  - rewrite (thread_step_starts ts s s' Hth) in H1. by eapply thread_step_inv; [apply Hs|].
  - destruct Href as (? & ? & ? & ? & ? & Hp & Hi & Hd & Hm & ->). eapply inv_push_stale; [by apply Hs|].
    do 5 eexists. split_and!; done.
  - by apply Hs.
  - apply (inv_start s 0 None); try done; [apply Hs; lia|lia|by left].
  - apply (inv_start s err (Some e)); try done; [apply Hs; lia|lia|by right].
  - by apply inv_stop_flag, Hs.
  - by apply inv_join; [apply Hs|].
  - by apply inv_pop; [apply Hs|].
  - by apply inv_fill; [apply Hs|..].
  - by apply (inv_deliver s c); [apply Hs|..].
Qed.

Lemma sys_reachable_inv s : reachable s → (y_starts s ≤ 1)%nat → sys_inv s.
Proof.
  intros (s0 & Hi & Hr). assert (H0 : (y_starts s0 ≤ 1 → sys_inv s0)%nat) by (intros; by apply sys_inv_init).
  clear Hi. induction Hr as [s|s s1 s2 Hstep _ IH]; [done|]. apply IH. by eapply sys_step_inv.
Qed.
End Invariant.

(** ** Progress *)

Section Progress.
Context {FR CR RR TR Q : Type} `{!SocketKernel RR TR}.
Context `{!XskProd FR Z, !XskProdLaws FR Z, !XskCons RR xdp_desc, !XskConsLaws RR xdp_desc}.
Context `{!BoundedQueue Q FeedEvent}.
Implicit Types s : sys FR CR RR TR Q.

Lemma thread_step_defined ts s : sys_inv s → ∃ s', thread_step ts s = Ret s'.
Proof.
  intros Hs. unfold thread_step. destruct (y_pc s) as [| | |bts n i|n|] eqn:Hpc; try by eexists.
  - pose proof (v_descs s Hs ltac:(congruence)) as Hdl. unfold kMaxBatch in Hdl.
    destruct (rx_burst_spec (y_descs s) (fh_socket_ (y_h s)) (v_rx s Hs)) as (k & r & -> & _); [lia|]. ub_step.
    case_bool_decide; by eexists.
  - case_bool_decide as Hi; [|by eexists]. destruct (next_frame s bts n i Hs Hpc Hi) as (d & Hd & _).
    rewrite (array_get_lookup _ _ d) by (lia || by rewrite Nat2Z.id). ub_step.
    destruct (region_ _) eqn:Hr; [|by destruct (v_region s Hs)]. ub_step.
    destruct (inv_frame_event s bts n i d Hs Hpc Hi Hd) as (o & Ho & _). rewrite Ho. ub_step.
    destruct (handle_frame_event _ _ _ (ring_ (y_h s)) (pkts_dropped_ (y_h s)) o Ho (v_ring s Hs)) as (q & dr & -> & _).
    { rewrite v_dropped by done. by apply in_width_wrap. }
    ub_step. by eexists.
  - pose proof (v_pc s Hs) as Hn. rewrite Hpc in Hn.
    destruct (rx_release_spec (take n (y_descs s)) (fh_umem_ (y_h s))) as (r & -> & _);
      [by apply v_fill|rewrite length_take; lia|]. ub_step. by eexists.
Qed.

Lemma start_defined s err :
  sys_inv s → y_pc s = PcIdle →
  ∃ h, start err (y_h s) = Ret (if bool_decide (err ≠ 0) then Some (ThreadRefused err) else None, h).
Proof.
  intros Hs Hpc. destruct (v_fill s Hs) as [Ho _].
  destruct (populate_spec (fh_umem_ (y_h s))) as (r & Hp & _); rewrite ?(v_cfg s Hs); try done.
  unfold start. rewrite Hp. ub_step. rewrite (proj1 (v_thread s Hs) Hpc). case_bool_decide; by eexists.
Qed.

End Progress.

(** ** A concrete quiet system *)

Definition demo_umem : Umem (list_prod Z) (list_cons Z) :=
  mkUmem default_config (Some 4096) 16777216 false (Some 4096) (mkLP 2048 [] [] 0) (mkLC [] 0 0) [].
Definition quiet_socket : XdpSocket (list_cons xdp_desc) (list_prod xdp_desc) :=
  mkSocket 0 (make_xdp_cfg default_handler_config) (Some 4096) (mkLC [] 0 0) (mkLP 2048 [] [] 0).
#[export] Instance capacity_65536 : CapacityOk kRingCap := eq_refl.
Definition zero_region : list Z := replicate (Z.to_nat 16777216) 0.

Lemma length_zero_region : Z.of_nat (length zero_region) = 16777216.
Proof. unfold zero_region. rewrite length_replicate. apply Z2Nat.id. lia. Qed.

Lemma zero_region_bytes : Forall is_byte zero_region.
Proof. apply Forall_replicate. unfold is_byte. lia. Qed.
#[global] Opaque zero_region.

Definition quiet_system : sys (list_prod Z) (list_cons Z) (list_cons xdp_desc) (list_prod xdp_desc) (SpscRingBuffer FeedEvent) :=
  mkSys (mkHandler default_handler_config demo_umem quiet_socket (ring_init kRingCap event_zero) false false 0 0)
    PcIdle [] zero_region [] 0 [] [] [].

Lemma quiet_system_init : sys_init quiet_system.
Proof.
  split; cbn [y_h y_mem y_pc fh_umem_ ring_ quiet_system].
  - reflexivity.
  - discriminate.
  - rewrite length_zero_region. discriminate.
  - apply zero_region_bytes.
  - repeat split.
  - repeat split.
  - split; [apply (ring_init_wf kRingCap eq_refl)|apply (ring_init_items kRingCap eq_refl)].
  - repeat split.
  - repeat split.
  - repeat split.
Qed.

Lemma quiet_system_reachable : reachable quiet_system.
Proof. exists quiet_system. split; [apply quiet_system_init|by apply rtc_refl]. Qed.

(** ** Properties *)

(** C4: the running pipeline has no undefined behaviour: in every state the
    kernel, the receive thread, the consumer and the control thread can
    reach together from a freshly constructed handler that is started once,
    whatever bytes arrive, the next action of the receive thread, a [pop]
    and a [start] of an idle handler, whether or not its thread can be
    created, are all defined.  A copy that runs past
    the end of its frame stays in the region because only the first 2048 of
    the 4096 frames are ever posted. *)
Theorem pipeline_safe {FR CR RR TR Q} `{!SocketKernel RR TR}
    `{!XskProd FR Z, !XskProdLaws FR Z, !XskCons RR xdp_desc, !XskConsLaws RR xdp_desc}
    `{!BoundedQueue Q FeedEvent} (s : sys FR CR RR TR Q) :
  reachable s → (y_starts s ≤ 1)%nat →
  (∀ ts, ∃ s', thread_step ts s = Ret s') ∧
  (∃ o h, FeedHandler_pop (y_h s) = Ret (o, h)) ∧
  (y_pc s = PcIdle → ∀ err, ∃ e h, start err (y_h s) = Ret (e, h)).
Proof.
  intros Hr Hst. pose proof (sys_reachable_inv s Hr Hst) as Hs. split_and!.
  - intros ts. by apply thread_step_defined.
  - unfold FeedHandler_pop. destruct (bq_pop_spec (ring_ (y_h s)) (v_ring s Hs)) as (q & -> & _).
    ub_step. by do 2 eexists.
  - intros Hpc err. destruct (start_defined s err Hs Hpc) as [h Hh]. by do 2 eexists.
Qed.

Lemma pipeline_safe_witness : ∃ e h, start 11 (y_h quiet_system) = Ret (e, h).
Proof.
  destruct (pipeline_safe quiet_system) as (_ & _ & H).
  - exact quiet_system_reachable.
  - cbn. lia.
  - apply H. reflexivity.
Defined.

(** C6: no UMEM frame is lost or duplicated: after the one [start], in every
    reachable state each of the 2048 posted frames is in exactly one place
    (fill ring, kernel, RX ring, or the batch being handled); the fill ring
    always has room for the batch that is being returned; and a frame that
    waits to be read is never one the kernel may write. *)
Theorem frames_conserved {FR CR RR TR Q} `{!SocketKernel RR TR}
    `{!XskProd FR Z, !XskProdLaws FR Z, !XskCons RR xdp_desc, !XskConsLaws RR xdp_desc}
    `{!BoundedQueue Q FeedEvent} (s : sys FR CR RR TR Q) :
  reachable s → y_starts s = 1%nat →
  chunks s ≡ₚ seqZ 0 kPosted ∧ NoDup (chunks s) ∧
  Z.of_nat (length (batch_held s)) + Z.of_nat (length (pr_entries (fill_ring_ (fh_umem_ (y_h s)))))
    ≤ pr_size (fill_ring_ (fh_umem_ (y_h s))) ∧
  (∀ a l, (a, l) ∈ pending s → chunk a ∉ y_kernel s).
Proof.
  intros Hr Hst. assert (Hs : sys_inv s) by (apply sys_reachable_inv; [done|lia]). split_and!.
  - pose proof (v_chunks s Hs) as Hc. by rewrite Hst, bool_decide_false in Hc.
  - by apply chunks_NoDup.
  - by apply batch_fits.
  - intros a l Hp. by apply (pending_chunk s a l).
Qed.

(** The quiet system after [start]. *)
Lemma started_system :
  ∃ s, rtc sys_step quiet_system s ∧ y_starts s = 1%nat ∧ y_pc s = PcTest.
Proof.
  destruct (start_defined quiet_system 0) as [h Hh]; [apply sys_inv_init, quiet_system_init|done|].
  eexists. split; [apply rtc_once;
    exact (step_start quiet_system h (replicate 64 (mkRxDesc 0 0 0)) eq_refl Hh eq_refl)|]. split; reflexivity.
Qed.

Lemma frames_conserved_witness :
  ∃ s, rtc sys_step quiet_system s ∧ chunks s ≡ₚ seqZ 0 2048 ∧ NoDup (chunks s).
Proof.
  destruct started_system as (s & Hr & Hst & _). exists s. split; [exact Hr|].
  destruct (frames_conserved s) as (H1 & H2 & _).
  - exists quiet_system. split; [exact quiet_system_init|exact Hr].
  - exact Hst.
  - split; [exact H1|exact H2].
Defined.

(** C5: the consumer gets the right events in the right order.  In every
    reachable state of a handler started once: the frames handled so far are
    the oldest ones the kernel delivered, byte for byte as delivered, and
    every one of the others is still waiting; what the consumer popped
    followed by what the ring holds is the sequence of the events made, in
    arrival order, less those that were dropped; each event is well typed
    and, unless its frame's UDP length reaches past the frame, is the one
    the frame's own bytes determine; and the two counters are exactly the
    number of frames taken and of events dropped (modulo [2 ^ 64]). *)
Theorem events_in_order {FR CR RR TR Q} `{!SocketKernel RR TR}
    `{!XskProd FR Z, !XskProdLaws FR Z, !XskCons RR xdp_desc, !XskConsLaws RR xdp_desc}
    `{!BoundedQueue Q FeedEvent} (s : sys FR CR RR TR Q) :
  reachable s → (y_starts s ≤ 1)%nat →
  let events := omap sn_event (y_seen s) in
  let kept := y_popped s ++ bq_items (ring_ (y_h s)) in
  y_arrived s = (sn_frame <$> y_seen s) ++ ((λ p, frame_content (y_mem s) p.1 p.2) <$> pending s) ∧
  Forall (λ x, ∀ o, make_event (sn_frame x) (sn_ts x) (mkPacket 0 (Z.of_nat (length (sn_frame x)))) = Ret o →
                    sn_event x = o) (y_seen s) ∧
  kept `sublist_of` events ∧ Forall event_typed kept ∧
  packets_dropped (y_h s) = u64 (Z.of_nat (length events) - Z.of_nat (length kept)) ∧
  packets_received (y_h s) = u64 (Z.of_nat (length (y_seen s)) + Z.of_nat (length (batch_todo s))).
Proof.
  intros Hr Hst events kept. destruct (sys_reachable_inv s Hr Hst). split_and!; try done.
  rewrite Forall_forall in *. intros ev Hev. apply v_typed0. by eapply elem_of_submseteq, sublist_submseteq.
Qed.

Lemma events_in_order_witness :
  ∃ s, rtc sys_step quiet_system s ∧ y_pc s = PcTest ∧
    packets_dropped (y_h s) = u64 (Z.of_nat (length (omap sn_event (y_seen s))) -
                                   Z.of_nat (length (y_popped s ++ bq_items (ring_ (y_h s))))).
Proof.
  destruct started_system as (s & Hr & Hst & Hpc). exists s. split; [exact Hr|]. split; [exact Hpc|].
  destruct (events_in_order s) as (_ & _ & _ & _ & H & _).
  - exists quiet_system. split; [exact quiet_system_init|exact Hr].
  - rewrite Hst. lia.
  - exact H.
Defined.
