(* ===== verification/Progress.v ===== *)
(** * Progress of the running pipeline

    What the machine of Pipeline gets done: the receive thread returns after
    [stop], every frame the kernel delivered is handled, the machine runs the
    loop as written; and what a second [start] does to the frames. *)

From S2P Require Import Prelude Queue RingBuffer FeedEvent Packet Xsk Umem XdpSocket FeedHandler Pipeline.

(** ** Stopping *)

Section Progress.
Context {FR CR RR TR Q : Type} `{!SocketKernel RR TR}.
Context `{!XskProd FR Z, !XskProdLaws FR Z, !XskCons RR xdp_desc, !XskConsLaws RR xdp_desc}.
Context `{!BoundedQueue Q FeedEvent}.
Implicit Types s : sys FR CR RR TR Q.

(** How many of its own actions the receive thread is away from returning
    once [stop_flag_] is set. *)
Definition exit_distance (pc : rx_pc) : nat :=
  match pc with
  | PcIdle | PcExited => 0
  | PcTest => 1
  | PcRelease _ => 2
  | PcFrame _ n i => n - i + 3
  | PcBurst => 68
  end.

Lemma thread_step_closer ts s s' :
  sys_inv s → stop_flag_ (y_h s) = true → thread_step ts s = Ret s' →
  stop_flag_ (y_h s') = true ∧
  (exit_distance (y_pc s') < exit_distance (y_pc s) ∨ exit_distance (y_pc s) = 0)%nat ∧
  (exit_distance (y_pc s') ≤ exit_distance (y_pc s))%nat.
Proof.
  intros Hs Hf. unfold thread_step. destruct (y_pc s) as [| | |bts n i|n|] eqn:Hpc.
  - intros [= <-]. rewrite Hpc. auto.
  - rewrite Hf. intros [= <-]. cbn. split_and!; [done|lia|lia].
  - pose proof (v_descs s Hs ltac:(congruence)) as Hdl. unfold kMaxBatch in Hdl.
    destruct (rx_burst_spec (y_descs s) (fh_socket_ (y_h s)) (v_rx s Hs)) as (k & r & -> & Hk & _); [lia|]. ub_step.
    case_bool_decide; intros [= <-]; cbn; (split; [done|]); lia.
  - case_bool_decide as Hi; [|intros [= <-]; cbn; (split; [done|]); lia].
    destruct (array_get _ _) as [d|]; [|done]. ub_step. destruct (region_ _); [|done]. ub_step.
    destruct (make_event _ _ _); [|done]. ub_step. destruct (handle_frame _ _ _ _ _) as [[q dr]|]; [|done]. ub_step.
    intros [= <-]. cbn. split; [done|]. lia.
  - destruct (rx_release _ _); [|done]. ub_step. intros [= <-]. cbn. split; [done|]. lia.
  - intros [= <-]. rewrite Hpc. auto.
Qed.

Lemma exit_distance_bound s : sys_inv s → (exit_distance (y_pc s) ≤ 68)%nat.
Proof. intros Hs. pose proof (v_pc s Hs). destruct (y_pc s); cbn; lia. Qed.

(** ** The machine and the turn *)

(** The thread running on its own, with the clock readings it gets. *)
Fixpoint thread_run (tss : list timespec) s : outcome (sys FR CR RR TR Q) :=
  match tss with
  | [] => Ret s
  | ts :: tss => s' ← thread_step ts s; thread_run tss s'
  end.

Lemma thread_run_app tss tss' s : thread_run (tss ++ tss') s = (s' ← thread_run tss s; thread_run tss' s').
Proof.
  revert s. induction tss as [|ts tss IH]; intros s; [done|]. cbn.
  destruct (thread_step ts s); [|done]. ub_step. apply IH.
Qed.

(** The [for] loop of the machine is [handle_frames]. *)
Lemma run_frames ts bts n k : ∀ i s q dropped,
  y_pc s = PcFrame bts n i → (i + k = n)%nat → region_ (fh_umem_ (y_h s)) ≠ None →
  handle_frames k (Z.of_nat i) (y_mem s) bts (y_descs s) (ring_ (y_h s)) (pkts_dropped_ (y_h s)) = Ret (q, dropped) →
  ∃ sn, thread_run (replicate k ts) s =
    Ret (set_thread s (with_ring (y_h s) q dropped) (PcFrame bts n n) (y_descs s) sn).
Proof.
  induction k as [|k IH]; intros i s q dropped Hpc Hk Hreg.
  - cbn. intros [= <- <-]. exists (y_seen s). destruct s as [h pc ds m kn st ar sn po]. cbn in *.
    subst pc. replace i with n by lia. by destruct h.
  - cbn [handle_frames replicate thread_run]. unfold thread_step at 1. rewrite Hpc, bool_decide_true by lia.
    destruct (array_get _ _) as [d|]; [|done]. ub_step. destruct (region_ _) eqn:Hr; [|done]. ub_step.
    destruct (handle_frame _ _ _ _ _) as [[q1 d1]|] eqn:Hh; [|done]. ub_step.
    assert (Hm : ∃ o, make_event (y_mem s) bts (desc_packet d) = Ret o).
    { revert Hh. unfold handle_frame. destruct (make_event _ _ _); [by eexists|done]. }
    destruct Hm as [o ->]. ub_step. intros Hf.
    match goal with |- context [thread_run _ ?t] => destruct (IH (S i) t q dropped) as (sn & ->) end;
      [done|lia|cbn; by rewrite Hr|cbn; by replace (Z.of_nat (S i)) with (Z.of_nat i + 1) by lia|].
    by exists sn.
Qed.
End Progress.

(** ** Delivered frames are handled *)

Section Liveness.
Context {FR CR RR TR Q : Type} `{!SocketKernel RR TR}.
Context `{!XskProd FR Z, !XskProdLaws FR Z, !XskCons RR xdp_desc, !XskConsLaws RR xdp_desc}.
Context `{!BoundedQueue Q FeedEvent}.
Implicit Types s : sys FR CR RR TR Q.

(** An action of the receive thread. *)
Definition thread_acts s s' : Prop := (∃ ts, thread_step ts s = Ret s') ∨ push_refused s s'.

(** A run in which the receive thread acts at least [k] times, between any
    actions of the others. *)
Inductive sys_run : nat → sys FR CR RR TR Q → sys FR CR RR TR Q → Prop :=
| run_refl s : sys_run 0 s s
| run_thread k s s1 s2 : thread_acts s s1 → sys_run k s1 s2 → sys_run (S k) s s2
| run_other k s s1 s2 : sys_step s s1 → sys_run k s1 s2 → sys_run k s s2.

Definition running s : Prop := y_pc s ≠ PcIdle ∧ y_pc s ≠ PcExited.

Lemma thread_acts_step s s' : thread_acts s s' → sys_step s s'.
Proof. intros [[ts Ht]|Hr]; [by eapply step_thread|by apply step_push_stale]. Qed.

(** Without a new [start] a thread that is not running stays so, starts do
    not go back, and the history only grows. *)
Lemma stopped_stays s s' :
  sys_step s s' → ¬ running s → y_starts s' = y_starts s → ¬ running s'.
Proof.
  intros Hstep Hnr Heq Hr'. apply Hnr. clear Hnr. revert Heq Hr'. unfold running.
  destruct Hstep as [ts s s' Hth|s s' (? & n & i & ? & ? & Hp & _)| | | | |s Hpc|s o h Hpop| |]; cbn; intros Heq Hr'; try done.
  - unfold thread_step in Hth. destruct (y_pc s) eqn:Hpc; try done; injection Hth as <-; by rewrite Hpc in Hr'.
  - by rewrite Hp.
  - lia.
  - lia.
  - tauto.
Qed.

Lemma starts_grow s s' : sys_step s s' → (y_starts s ≤ y_starts s')%nat.
Proof.
  destruct 1 as [ts s s' Hth|s s' (? & ? & ? & ? & ? & _ & _ & _ & _ & ->)| | | | | | | |]; cbn; try lia.
  by rewrite (thread_step_starts ts s s' Hth).
Qed.

Lemma history_grows s s' :
  sys_step s s' → y_arrived s `prefix_of` y_arrived s' ∧ y_seen s `prefix_of` y_seen s'.
Proof.
  destruct 1 as [ts s s' Hth|s s' (? & ? & ? & ? & ? & _ & _ & _ & _ & ->)| | | | | | | |]; cbn; try done.
  - by destruct (thread_step_frame ts s s' Hth) as (_ & _ & -> & ?).
  - split; [done|]. by apply prefix_app_r.
  - split; [|done]. by apply prefix_app_r.
Qed.

(** The number of its own actions the thread is away from having handled the
    first [a] frames: five for each frame that is left (the frame, and the
    test, the read, the end of the loop and the release of a batch of one),
    and the position in the loop. *)
Definition loop_offset (pc : rx_pc) : nat :=
  match pc with
  | PcFrame _ n i => if bool_decide (i < n)%nat then 0 else 4
  | PcRelease _ => 3
  | PcTest => 2
  | PcBurst => 1
  | PcIdle | PcExited => 0
  end.

Definition distance (a : nat) s : nat :=
  if bool_decide (a ≤ length (y_seen s))%nat then 0
  else 5 * (a - length (y_seen s)) + loop_offset (y_pc s).

Lemma distance_bound s : sys_inv s → (distance (length (y_arrived s)) s ≤ 5 * length (pending s) + 4)%nat.
Proof.
  intros Hs. unfold distance. rewrite (v_arrived s Hs), length_app, !length_fmap. case_bool_decide; [lia|].
  assert (loop_offset (y_pc s) ≤ 4)%nat by (destruct (y_pc s); cbn; try case_bool_decide; lia). lia.
Qed.

(** An action of the thread brings it nearer. *)
Lemma distance_seen a s s' :
  length (y_seen s') = S (length (y_seen s)) → (loop_offset (y_pc s') ≤ 4)%nat →
  (distance a s' < distance a s ∨ distance a s = 0)%nat.
Proof. intros Hl Ho. unfold distance. rewrite Hl. repeat case_bool_decide; lia. Qed.

Lemma distance_same a s s' :
  y_seen s' = y_seen s → (loop_offset (y_pc s') < loop_offset (y_pc s))%nat →
  (distance a s' < distance a s ∨ distance a s = 0)%nat.
Proof. intros Hl Ho. unfold distance. rewrite Hl. repeat case_bool_decide; lia. Qed.

Lemma thread_acts_nearer a s s' :
  sys_inv s → (a ≤ length (y_arrived s))%nat → thread_acts s s' → running s → running s' →
  (distance a s' < distance a s ∨ distance a s = 0)%nat.
Proof.
  intros Hs Ha Hact [Hr1 Hr2] [Hr1' Hr2'].
  assert (Hoff : ∀ pc, (loop_offset pc ≤ 4)%nat) by (intros []; cbn; try case_bool_decide; lia).
  destruct Hact as [[ts Ht]|(bts & n & i & d & ev & Hpc & Hi & _ & _ & ->)].
  2: { apply distance_seen; [|done]. cbn. rewrite length_app. cbn. lia. }
  revert Ht. unfold thread_step. destruct (y_pc s) as [| | |bts n i|n|] eqn:Hpc; try done.
  - intros [= <-]. destruct (stop_flag_ (y_h s)); [done|]. apply distance_same; [done|]. rewrite Hpc. cbn. lia.
  - pose proof (v_descs s Hs ltac:(congruence)) as Hdl. unfold kMaxBatch in Hdl.
    destruct (rx_burst_spec (y_descs s) (fh_socket_ (y_h s)) (v_rx s Hs)) as (k & r & -> & _ & _ & Hk & _); [lia|]. ub_step.
    case_bool_decide as Hk0; intros [= <-].
    + right. unfold distance. apply bool_decide_eq_true_2 || rewrite bool_decide_true; [done|].
      assert (Hq : cr_entries (rx_ring_ (fh_socket_ (y_h s))) = []).
      { destruct (cr_entries _) eqn:Hq; [done|]. exfalso. assert (0 < k)%nat; [|lia].
        apply Hk; [done|]. intros Hd. by rewrite Hd in Hdl. }
      rewrite (v_arrived s Hs) in Ha. unfold pending, batch_todo in Ha. rewrite Hpc, Hq, length_app, length_fmap in Ha. cbn in Ha. lia.
    + apply distance_same; [done|]. rewrite Hpc. cbn. rewrite bool_decide_true by lia. lia.
  - case_bool_decide as Hi.
    + destruct (array_get _ _) as [d|]; [|done]. ub_step. destruct (region_ _); [|done]. ub_step.
      destruct (make_event _ _ _); [|done]. ub_step. destruct (handle_frame _ _ _ _ _) as [[q dr]|]; [|done]. ub_step.
      intros [= <-]. apply distance_seen; [|done]. cbn. rewrite length_app. cbn. lia.
    + intros [= <-]. apply distance_same; [done|]. rewrite Hpc. cbn. rewrite bool_decide_false by done. lia.
  - destruct (rx_release _ _); [|done]. ub_step. intros [= <-]. apply distance_same; [done|]. rewrite Hpc. cbn. lia.
Qed.

(** Nobody else takes it further away. *)
Lemma step_not_further a s s' :
  sys_inv s → (a ≤ length (y_arrived s))%nat → sys_step s s' → running s → running s' → y_starts s' = y_starts s →
  (distance a s' ≤ distance a s)%nat.
Proof.
  intros Hs Ha Hstep Hr Hr' Heq. assert (Hact : thread_acts s s' → (distance a s' ≤ distance a s)%nat).
  { intros Hact. destruct (thread_acts_nearer a s s' Hs Ha Hact Hr Hr') as [?|H0]; [lia|].
    unfold distance in *. revert H0. case_bool_decide as Hl; [intros _|lia].
    destruct (history_grows s s' Hstep) as [_ Hp%prefix_length]. by rewrite bool_decide_true by lia. }
  destruct Hstep as [ts s s' Hth|s s' Href| | | | |s Hpc|s o h Hpop| |]; try done; try (cbn in Heq; lia).
  - apply Hact. left. by exists ts.
  - apply Hact. by right.
  - by destruct Hr'.
Qed.

Lemma run_starts k s s' : sys_run k s s' → (y_starts s ≤ y_starts s')%nat.
Proof.
  induction 1 as [|k s s1 s2 Hact _ IH|k s s1 s2 Hstep _ IH]; [done| |].
  - apply thread_acts_step, starts_grow in Hact. lia.
  - apply starts_grow in Hstep. lia.
Qed.

Lemma run_stopped k s s' : sys_run k s s' → ¬ running s → y_starts s' = y_starts s → ¬ running s'.
Proof.
  assert (Hone : ∀ s s1 s2, sys_step s s1 → (y_starts s1 ≤ y_starts s2)%nat → y_starts s2 = y_starts s →
    ¬ running s → ¬ running s1 ∧ y_starts s2 = y_starts s1).
  { intros t t1 t2 Hstep Hle Heq Hnr. pose proof (starts_grow _ _ Hstep). split; [eapply stopped_stays; [done..|lia]|lia]. }
  induction 1 as [|k s s1 s2 Hact Hrun IH|k s s1 s2 Hstep Hrun IH]; [done| |]; intros Hnr Heq; apply run_starts in Hrun.
  - destruct (Hone s s1 s2) as [? ?]; [by apply thread_acts_step|done..|]. by apply IH.
  - destruct (Hone s s1 s2) as [? ?]; [done..|]. by apply IH.
Qed.

Lemma running_dec s : running s ∨ ¬ running s.
Proof. unfold running. destruct (y_pc s); first [by left|by right; intros []]. Qed.

Lemma run_handles a k s s' :
  sys_run k s s' → sys_inv s → (y_starts s ≤ 1)%nat → (a ≤ length (y_arrived s))%nat → running s' →
  y_starts s' = y_starts s → (distance a s ≤ k)%nat → (a ≤ length (y_seen s'))%nat.
Proof.
  intros Hrun. revert a. assert (Hpre : ∀ j s s1 s2, sys_step s s1 → sys_run j s1 s2 → sys_inv s → (y_starts s ≤ 1)%nat →
    running s2 → y_starts s2 = y_starts s → running s ∧ running s1 ∧ sys_inv s1 ∧ y_starts s1 = y_starts s).
  { intros j t t1 t2 Hstep Hr Hinv H1 Hrun2 Heq. pose proof (starts_grow _ _ Hstep). pose proof (run_starts _ _ _ Hr).
    assert (Heq1 : y_starts t1 = y_starts t) by lia.
    assert (Hr1 : running t1). { destruct (running_dec t1) as [|Hn]; [done|]. exfalso. eapply run_stopped; [done..|lia|done]. }
    assert (Hr0 : running t). { destruct (running_dec t) as [|Hn]; [done|]. exfalso. eapply stopped_stays; [exact Hstep|done..]. }
    split_and!; try done. eapply sys_step_inv; [|done|lia]. done. }
  induction Hrun as [s|k s s1 s2 Hact Hrun IH|k s s1 s2 Hstep Hrun IH]; intros a Hs H1 Ha Hr2 Heq Hd.
  - unfold distance in Hd. revert Hd. case_bool_decide; lia.
  - pose proof (thread_acts_step _ _ Hact) as Hstep.
    destruct (Hpre k s s1 s2) as (Hr & Hr1 & Hs1 & Heq1); try done.
    pose proof (prefix_length _ _ (proj1 (history_grows s s1 Hstep))).
    apply IH; try done; try lia.
    pose proof (step_not_further a s s1 Hs Ha Hstep Hr Hr1 Heq1).
    destruct (thread_acts_nearer a s s1 Hs Ha Hact Hr Hr1); lia.
  - destruct (Hpre k s s1 s2) as (Hr & Hr1 & Hs1 & Heq1); try done.
    pose proof (prefix_length _ _ (proj1 (history_grows s s1 Hstep))).
    pose proof (step_not_further a s s1 Hs Ha Hstep Hr Hr1 Heq1). apply IH; try done; lia.
Qed.

Lemma run_arrived k s s' : sys_run k s s' → y_arrived s `prefix_of` y_arrived s'.
Proof.
  induction 1 as [|k s s1 s2 Hact _ IH|k s s1 s2 Hstep _ IH]; [done| |]; (etrans; [|exact IH]).
  - by apply thread_acts_step, history_grows in Hact as [? _].
  - by apply history_grows in Hstep as [? _].
Qed.

Lemma run_inv k s s' : sys_run k s s' → (y_starts s ≤ 1 → sys_inv s)%nat → (y_starts s' ≤ 1 → sys_inv s')%nat.
Proof.
  induction 1 as [|k s s1 s2 Hact _ IH|k s s1 s2 Hstep _ IH]; [done| |]; intros Hs; apply IH.
  - eapply sys_step_inv; [exact Hs|by apply thread_acts_step].
  - by eapply sys_step_inv.
Qed.
(** Left alone, a thread that has not been told to stop keeps acting. *)
Lemma thread_step_keeps ts s s' :
  thread_step ts s = Ret s' → running s → stop_flag_ (y_h s) = false → running s' ∧ stop_flag_ (y_h s') = false.
Proof.
  unfold thread_step, running. destruct (y_pc s) as [| | |bts n i|n|] eqn:Hpc; try tauto.
  - intros [= <-] _ Hf. by rewrite Hf.
  - destruct (rx_burst _ _) as [[[k descs'] sk]|]; [|done]. ub_step. by case_bool_decide; intros [= <-].
  - case_bool_decide; [|by intros [= <-]]. destruct (array_get _ _) as [d|]; [|done]. ub_step.
    destruct (region_ _); [|done]. ub_step. destruct (make_event _ _ _); [|done]. ub_step.
    destruct (handle_frame _ _ _ _ _) as [[q dr]|]; [|done]. ub_step. by intros [= <-].
  - destruct (rx_release _ _); [|done]. ub_step. by intros [= <-].
Qed.

Lemma thread_can_act k : ∀ s,
  sys_inv s → running s → stop_flag_ (y_h s) = false →
  ∃ s', sys_run k s s' ∧ running s' ∧ stop_flag_ (y_h s') = false ∧ y_starts s' = y_starts s.
Proof.
  induction k as [|k IH]; intros s Hs Hr Hf; [by exists s; split; [apply run_refl|]|].
  destruct (thread_step_defined (mkTimespec 0 0) s Hs) as [s1 H1].
  destruct (thread_step_keeps _ _ _ H1 Hr Hf) as [Hr1 Hf1].
  destruct (IH s1) as (s' & Hrun & Hr' & Hf' & Hst); [by eapply thread_step_inv|done|done|].
  exists s'. split_and!; try done; [|rewrite Hst; by eapply thread_step_starts].
  eapply run_thread; [left; by eexists|done].
Qed.

Lemma pending_at_most s : sys_inv s → (length (pending s) ≤ 2048)%nat.
Proof.
  intros Hs. assert (Hl : (length (chunks s) ≤ 2048)%nat).
  { destruct (chunks_cases s Hs) as [-> | ->]; [cbn; lia|by rewrite length_seqZ]. }
  assert (Hb : (length (batch_todo s) ≤ length (batch_held s))%nat).
  { unfold batch_todo, batch_held. destruct (y_pc s); cbn; try lia. rewrite length_drop. lia. }
  unfold chunks in Hl. unfold pending. rewrite !length_app, !length_fmap in *. lia.
Qed.
End Liveness.

(** Draining the fill ring: the kernel takes every posted frame. *)
Lemma drain_fill {RR TR Q} `{!SocketKernel RR TR, !XskCons RR xdp_desc, !XskConsLaws RR xdp_desc, !BoundedQueue Q FeedEvent}
    (es : list Z) : ∀ s : sys (list_prod Z) (list_cons Z) RR TR Q,
  lp_entries (fill_ring_ (fh_umem_ (y_h s))) = es →
  ∃ s', rtc sys_step s s' ∧ y_pc s' = y_pc s ∧ y_starts s' = y_starts s ∧
    y_kernel s' = reverse (chunk <$> es) ++ y_kernel s ∧
    let r := fill_ring_ (fh_umem_ (y_h s)) in
    y_h s' = with_umem (y_h s) (set_fill_ring (fh_umem_ (y_h s)) (mkLP (lp_size r) [] (lp_open r) (lp_first r))).
Proof.
  induction es as [|a es IH]; intros s He.
  { exists s. split_and!; try done. destruct s as [h pc ds m kn st ar sn po]. cbn in *.
    destruct h as [c u sk q sf rt p d]. destruct u as [? ? ? ? ? r ? ?]. destruct r. cbn in *. by subst. }
  set (u := fh_umem_ (y_h s)) in *. set (r := fill_ring_ u) in *.
  set (fr := mkLP (lp_size r) es (lp_open r) (lp_first r)).
  destruct (IH (mkSys (with_umem (y_h s) (set_fill_ring u fr)) (y_pc s) (y_descs s) (y_mem s)
                  (chunk a :: y_kernel s) (y_starts s) (y_arrived s) (y_seen s) (y_popped s)))
    as (s' & Hr & Hp & Hst & Hk & Hh); [done|].
  exists s'. split_and!; try done.
  - eapply rtc_l; [|exact Hr]. by apply (step_fill s a fr).
  - rewrite Hk. cbn [y_kernel]. by rewrite fmap_cons, reverse_cons, <- app_assoc.
Qed.

(** ** A frame on its way *)

(** The quiet system started, with one frame of 60 bytes delivered. *)
Lemma fed_system :
  ∃ s, rtc sys_step quiet_system s ∧ y_starts s = 1%nat ∧ y_pc s = PcTest ∧ stop_flag_ (y_h s) = false ∧
    length (y_arrived s) = 1%nat ∧ y_seen s = [] ∧ pending s = [(0, 60)].
Proof.
  pose proof (sys_inv_init quiet_system quiet_system_init) as Hq.
  destruct (start_posts quiet_system Hq eq_refl eq_refl) as (r & Hst & _ & Hch & Ho & Hsz).
  pose proof (step_start quiet_system _ (replicate 64 (mkRxDesc 0 0 0)) eq_refl Hst eq_refl) as Hstep1.
  match type of Hstep1 with sys_step _ ?t => set (s1 := t) in * end.
  destruct r as [sz [|a es] op fi]; [by vm_compute in Hch|].
  pose proof (step_fill s1 a (mkLP sz es op fi) eq_refl eq_refl eq_refl) as Hstep2. cbv zeta in Hstep2.
  match type of Hstep2 with sys_step _ ?t => set (s2 := t) in * end.
  assert (Hk : y_kernel s2 ≡ₚ 0 :: []).
  { cbn. cbn in Hch. rewrite seqZ_cons in Hch by done. injection Hch as -> _. done. }
  pose proof (step_deliver s2 0 [] (mkDesc 0 60 0) (y_mem s2) (mkLC [mkDesc 0 60 0] 0 0) Hk ltac:(repeat split; done)
    eq_refl zero_region_bytes ltac:(done) eq_refl eq_refl) as Hstep3. cbv zeta in Hstep3.
  match type of Hstep3 with sys_step _ ?t => set (s3 := t) in * end.
  exists s3. split.
  { eapply rtc_l; [exact Hstep1|]. eapply rtc_l; [exact Hstep2|]. by apply rtc_once. }
  by split_and!.
Qed.

(** ** Properties *)

(** C12: every frame the kernel delivers is handled, and soon.  At any time
    while the receive thread of a handler started once is running, with [p]
    frames delivered and not yet handled ([p] is at most 2048), a run in
    which the thread acts [5 p + 4] times or more -- whatever the kernel, the
    consumer and the control thread do in between, more deliveries and
    refused pushes included -- and after which it is still running has
    handled all of them, before any delivered later.  And such runs exist:
    as long as it is not told to stop, the thread can act as often as
    wanted. *)
Theorem delivered_frames_handled {FR CR RR TR Q} `{!SocketKernel RR TR}
    `{!XskProd FR Z, !XskProdLaws FR Z, !XskCons RR xdp_desc, !XskConsLaws RR xdp_desc}
    `{!BoundedQueue Q FeedEvent} (s : sys FR CR RR TR Q) :
  reachable s → (y_starts s ≤ 1)%nat → running s →
  (length (pending s) ≤ 2048)%nat ∧
  (∀ k s', sys_run k s s' → y_starts s' = y_starts s → running s' → (5 * length (pending s) + 4 ≤ k)%nat →
     y_arrived s `prefix_of` (sn_frame <$> y_seen s')) ∧
  (stop_flag_ (y_h s) = false → ∀ k, ∃ s', sys_run k s s' ∧ y_starts s' = y_starts s ∧ running s').
Proof.
  intros Hr Hst Hrun. pose proof (sys_reachable_inv s Hr Hst) as Hs. split_and!.
  - by apply pending_at_most.
  - intros k s' Hk Heq Hr' Hle. pose proof (distance_bound s Hs).
    assert (Hseen : (length (y_arrived s) ≤ length (y_seen s'))%nat) by (eapply run_handles; [exact Hk|done..|lia]).
    assert (Hs' : sys_inv s') by (eapply run_inv; [exact Hk|done|lia]).
    pose proof (run_arrived _ _ _ Hk) as Hp. rewrite (v_arrived s' Hs') in Hp.
    eapply prefix_app_front; [|exact Hp]. by rewrite length_fmap.
  - intros Hf k. destruct (thread_can_act k s Hs Hrun Hf) as (s' & ? & ? & _ & ?). by exists s'.
Qed.

Lemma delivered_frames_handled_witness :
  ∃ s s', rtc sys_step quiet_system s ∧ length (y_arrived s) = 1%nat ∧ y_seen s = [] ∧ sys_run 9 s s' ∧
    y_arrived s `prefix_of` (sn_frame <$> y_seen s').
Proof.
  destruct fed_system as (s & Hr & Hst & Hpc & Hf & Ha & Hse & Hp).
  destruct (delivered_frames_handled s) as (_ & H1 & H2).
  - exists quiet_system. split; [exact quiet_system_init|exact Hr].
  - rewrite Hst. lia.
  - unfold running. rewrite Hpc. split; discriminate.
  - destruct (H2 Hf 9%nat) as (s' & Hk & Heq & Hr'). exists s, s'.
    split; [exact Hr|]. split; [exact Ha|]. split; [exact Hse|]. split; [exact Hk|].
    apply (H1 9%nat s' Hk Heq Hr'). rewrite Hp. cbn. lia.
Defined.

(** C30: [stop] terminates: once [stop_flag_] is set, the receive thread is at
    most 68 of its own actions away from returning (a full batch of 64
    frames, the release and the flag test); each of its actions is defined
    and brings it closer, and nothing any other actor does -- frames that
    keep arriving included -- clears the flag or takes it further away. *)
Theorem stop_terminates {FR CR RR TR Q} `{!SocketKernel RR TR}
    `{!XskProd FR Z, !XskProdLaws FR Z, !XskCons RR xdp_desc, !XskConsLaws RR xdp_desc}
    `{!BoundedQueue Q FeedEvent} (s : sys FR CR RR TR Q) :
  reachable s → (y_starts s ≤ 1)%nat → stop_flag_ (y_h s) = true →
  (exit_distance (y_pc s) ≤ 68)%nat ∧
  (exit_distance (y_pc s) = 0%nat ↔ y_pc s = PcIdle ∨ y_pc s = PcExited) ∧
  (∀ ts, exit_distance (y_pc s) ≠ 0%nat →
     ∃ s', thread_step ts s = Ret s' ∧ stop_flag_ (y_h s') = true ∧
           (exit_distance (y_pc s') < exit_distance (y_pc s))%nat) ∧
  (∀ s', sys_step s s' → y_starts s' = y_starts s →
     stop_flag_ (y_h s') = true ∧ (exit_distance (y_pc s') ≤ exit_distance (y_pc s))%nat).
Proof.
  intros Hr Hst Hf. pose proof (sys_reachable_inv s Hr Hst) as Hs. split_and!.
  - by apply exit_distance_bound.
  - destruct (y_pc s); cbn; (split; [try lia; auto|by intros [|]]).
  - intros ts Hne. destruct (thread_step_defined ts s Hs) as [s' Hs'].
    destruct (thread_step_closer ts s s' Hs Hf Hs') as (Hf' & [Hlt|] & _); [|done]. by exists s'.
  - intros s' Hstep Heq. revert Hs Hf Heq. clear Hr Hst.
    destruct Hstep as [ts s s' Hth|s s' (? & n & i & ? & ? & Hp & Hi & _ & _ & ->)| | | | |s Hpc|s o h Hpop| |]; cbn; intros Hs Hf Heq; try (split; [done|lia]); [| |lia|lia|].
    + destruct (thread_step_closer ts s s' Hs Hf Hth) as (? & _ & ?). done.
    + rewrite Hp. cbn. split; [done|lia].
    + revert Hpop. unfold FeedHandler_pop. destruct (bq_pop _) as [[o' q]|]; [|done]. ub_step.
      intros [= <- <-]. done.
Qed.

(** The quiet system started and then told to stop. *)
Lemma stopping_system :
  ∃ s, rtc sys_step quiet_system s ∧ y_starts s = 1%nat ∧ y_pc s = PcTest ∧ stop_flag_ (y_h s) = true.
Proof.
  destruct started_system as (s & Hr & Hst & Hpc). eexists.
  split; [eapply rtc_r; [exact Hr|apply step_stop_flag]|]. by split_and!.
Qed.

Lemma stop_terminates_witness :
  ∃ s s', rtc sys_step quiet_system s ∧ thread_step (mkTimespec 0 0) s = Ret s' ∧
    (exit_distance (y_pc s') < exit_distance (y_pc s))%nat.
Proof.
  destruct stopping_system as (s & Hr & Hst & Hpc & Hf). exists s.
  destruct (stop_terminates s) as (_ & _ & H & _).
  - exists quiet_system. split; [exact quiet_system_init|exact Hr].
  - rewrite Hst. lia.
  - exact Hf.
  - destruct (H (mkTimespec 0 0)) as (s' & Hs' & _ & Hlt); [rewrite Hpc; discriminate|].
    exists s'. split; [exact Hr|]. split; [exact Hs'|exact Hlt].
Defined.

(** C31: the step machine is the loop as written: left alone, the receive
    thread goes from the burst read to the next flag test in exactly the
    state one turn of the loop body computes, handler, ring, counters, fill
    ring and descriptor array included. *)
Theorem machine_runs_the_turn {FR CR RR TR Q} `{!SocketKernel RR TR}
    `{!XskProd FR Z, !XskProdLaws FR Z, !XskCons RR xdp_desc, !XskConsLaws RR xdp_desc}
    `{!BoundedQueue Q FeedEvent} (s : sys FR CR RR TR Q) (ts : timespec)
    (wt : rx_wait) (descs : list RxDesc) (h : FeedHandler FR CR RR TR Q) :
  y_pc s = PcBurst → rx_turn (y_mem s) ts (y_descs s) (y_h s) = Ret (wt, descs, h) →
  ∃ k sn, thread_run (replicate k ts) s = Ret (set_thread s h PcTest descs sn).
Proof.
  intros Hpc. unfold rx_turn.
  destruct (rx_burst (y_descs s) (fh_socket_ (y_h s))) as [[[n ds] sk]|] eqn:Hb; [|done]. ub_step.
  assert (Hburst : thread_step ts s = Ret (if bool_decide (n = 0)
    then set_thread s (with_socket (y_h s) sk (pkts_rx_ (y_h s))) PcTest ds (y_seen s)
    else set_thread s (with_socket (y_h s) sk (u64 (pkts_rx_ (y_h s) + n))) (PcFrame (clock_ns ts) (Z.to_nat n) 0) ds (y_seen s))).
  { unfold thread_step. rewrite Hpc, Hb. ub_step. by case_bool_decide. }
  case_bool_decide as Hn.
  { intros [= _ <- <-]. exists 1%nat, (y_seen s). cbn. by rewrite Hburst. }
  destruct (region_ (fh_umem_ (y_h s))) eqn:Hr; [|done]. ub_step.
  destruct (handle_frames _ _ _ _ _ _ _) as [[q dr]|] eqn:Hf; [|done]. ub_step.
  destruct (rx_release _ _) as [u|] eqn:Hrel; [|done]. ub_step. intros [= _ <- <-].
  match type of Hburst with _ = Ret ?t => set (s1 := t) in * end.
  destruct (run_frames ts (clock_ns ts) (Z.to_nat n) (Z.to_nat n) 0 s1 q dr) as (sn & Hrun);
    [done|lia|cbn; by rewrite Hr|exact Hf|].
  exists (1 + Z.to_nat n + 2)%nat, sn. rewrite !replicate_add, !thread_run_app. cbn [replicate thread_run]. rewrite Hburst.
  ub_step. rewrite Hrun. ub_step. unfold thread_step at 2. cbn [set_thread y_pc y_h y_descs y_seen y_mem].
  rewrite bool_decide_false by lia. ub_step. unfold thread_step. cbn. by rewrite Hrel.
Qed.

(** A system in the middle of a turn. *)
Definition bursting_system : sys (list_prod Z) (list_cons Z) (list_cons xdp_desc) (list_prod xdp_desc) (SpscRingBuffer FeedEvent) :=
  mkSys turn_handler PcBurst turn_descs turn_mem [] 1 [] [] [].

Lemma machine_runs_the_turn_witness :
  ∃ wt descs h k sn, rx_turn turn_mem (mkTimespec 1 5) turn_descs turn_handler = Ret (wt, descs, h) ∧
    thread_run (replicate k (mkTimespec 1 5)) bursting_system = Ret (set_thread bursting_system h PcTest descs sn).
Proof.
  destruct (rx_turn turn_mem (mkTimespec 1 5) turn_descs turn_handler) as [[[wt descs] h]|] eqn:Hr;
    [|exfalso; vm_compute in Hr; discriminate].
  destruct (machine_runs_the_turn bursting_system (mkTimespec 1 5) wt descs h) as (k & sn & H).
  - reflexivity.
  - exact Hr.
  - exists wt, descs, h, k, sn. split; [reflexivity|exact H].
Defined.

(** C40: a handler that is stopped and started again can post a frame twice:
    from every freshly constructed handler there is a run -- start, the
    kernel takes the posted frames, stop, start -- after which every posted
    frame is in two places at once, owned by the kernel and offered to it
    again ([populate_fill_ring] does not know what the kernel holds). *)
Theorem restart_reposts_frames {RR TR Q} `{!SocketKernel RR TR, !XskCons RR xdp_desc, !XskConsLaws RR xdp_desc}
    `{!BoundedQueue Q FeedEvent} (s0 : sys (list_prod Z) (list_cons Z) RR TR Q) :
  sys_init s0 →
  ∃ s, rtc sys_step s0 s ∧ y_starts s = 2%nat ∧
    chunks s ≡ₚ seqZ 0 kPosted ++ seqZ 0 kPosted ∧ ¬ NoDup (chunks s).
Proof.
  intros Hi. pose proof (sys_inv_init s0 Hi) as Hs0. destruct (si_pc s0 Hi) as [Hpc0 _].
  destruct (si_fill s0 Hi) as (Hfe0 & _). destruct (si_rx s0 Hi) as (Hrx0 & _).
  destruct (si_history s0 Hi) as (Hk0 & Hst0 & _).
  set (ds := replicate 64 (mkRxDesc 0 0 0)).
  destruct (start_posts s0 Hs0 Hpc0 Hfe0) as (r1 & Hst1 & _ & Hch1 & _).
  pose proof (step_start s0 _ ds Hpc0 Hst1 eq_refl) as Hstep1.
  match type of Hstep1 with sys_step _ ?t => set (s1 := t) in * end.
  destruct (drain_fill (lp_entries r1) s1 eq_refl) as (s2 & Hr2 & Hpc2 & Hst2 & Hk2 & Hh2).
  pose proof (step_stop_flag s2) as Hstep3. cbv zeta in Hstep3.
  match type of Hstep3 with sys_step _ ?t => set (s3 := t) in * end.
  assert (Hstep4 : sys_step s3 (set_thread s3 (y_h s3) PcExited (y_descs s3) (y_seen s3))).
  { apply (step_thread (mkTimespec 0 0)). unfold thread_step. by rewrite (Hpc2 : y_pc s3 = PcTest). }
  match type of Hstep4 with sys_step _ ?t => set (s4 := t) in * end.
  pose proof (step_join s4 eq_refl) as Hstep5.
  match type of Hstep5 with sys_step _ ?t => set (s5 := t) in * end.
  assert (Hrun : rtc sys_step s0 s5).
  { eapply rtc_l; [exact Hstep1|]. etrans; [exact Hr2|].
    eapply rtc_l; [exact Hstep3|]. eapply rtc_l; [exact Hstep4|]. by apply rtc_once. }
  assert (Hst5 : y_starts s5 = 1%nat) by (cbn; rewrite Hst2; cbn; lia).
  assert (Hs5 : sys_inv s5) by (apply sys_reachable_inv; [by exists s0|lia]).
  assert (Hfe5 : pr_entries (fill_ring_ (fh_umem_ (y_h s5))) = []) by (cbn; by rewrite Hh2).
  destruct (start_posts s5 Hs5 eq_refl Hfe5) as (r6 & Hst6 & _ & Hch6 & _).
  pose proof (step_start s5 _ ds eq_refl Hst6 eq_refl) as Hstep6.
  match type of Hstep6 with sys_step _ ?t => set (s6 := t) in * end.
  assert (Hc6 : chunks s6 = seqZ 0 kPosted ++ reverse (seqZ 0 kPosted)).
  { unfold chunks, batch_held. cbn [s6 s5 s4 s3 y_h y_pc y_kernel set_thread fh_umem_ fh_socket_ fill_ring_ set_fill_ring stop started].
    change (lp_entries r1) with (pr_entries r1) in Hk2. rewrite Hk2, Hh2, Hch1, Hch6. cbn [s1 y_h y_kernel with_umem fh_socket_ started]. rewrite Hrx0, Hk0. cbn.
    by rewrite !app_nil_r. }
  exists s6. split_and!.
  - eapply rtc_r; [exact Hrun|exact Hstep6].
  - cbn. rewrite Hst2. cbn. lia.
  - rewrite Hc6. by rewrite reverse_Permutation.
  - rewrite Hc6, reverse_Permutation. intros (_ & Hdis & _)%NoDup_app.
    by apply (Hdis 0); apply elem_of_seqZ; vm_compute.
Qed.

Lemma restart_reposts_frames_witness :
  ∃ s, rtc sys_step quiet_system s ∧ y_starts s = 2%nat ∧ ¬ NoDup (chunks s).
Proof.
  destruct (restart_reposts_frames quiet_system quiet_system_init) as (s & Hr & Hst & _ & Hnd).
  exists s. split; [exact Hr|]. split; [exact Hst|exact Hnd].
Defined.
