(* ===== verification/Pcap.v ===== *)
(** * Capture files: PcapWriter and PcapReader

    Model of [include/ultrafast/pcap_writer.hpp] and
    [include/ultrafast/pcap_reader.hpp] (the timed replay is in Replay) over a model
    of the C streams they use.  A file is its bytes, a position and the size
    it may grow to, so that a write can fail part-way; a stream open for
    writing has a file, the bytes it still holds back, and a choice, left to
    the implementation, of how much it pushes out at each [fwrite].  A disk
    that is full is only seen when bytes are pushed out. *)

From S2P Require Import Prelude FeedEvent.

(** ** Streams *)

Record FILE : Type := mkFILE { f_bytes : list Z; f_pos : Z; f_limit : Z }.

(** The bytes [bs] stored at position [pos] of a file. *)
Definition overwrite (l : list Z) (pos : nat) (bs : list Z) : list Z :=
  take pos l ++ replicate (pos - length l) 0 ++ bs ++ drop (pos + length bs) l.

(** Storing [bs]: as many bytes as fit are stored, and the call succeeds if
    all did. *)
Definition store (bs : list Z) (f : FILE) : bool * FILE :=
  let room := Z.to_nat (f_limit f - f_pos f) in
  let stored := take room bs in
  (bool_decide (length bs ≤ room)%nat,
   mkFILE (overwrite (f_bytes f) (Z.to_nat (f_pos f)) stored) (f_pos f + Z.of_nat (length stored)) (f_limit f)).

(** [fread(p, n, 1, f) == 1]: the [n] bytes read, or [None] at the end of the
    file, where a short read leaves the position. *)
Definition fread (n : Z) (f : FILE) : option (list Z) * FILE :=
  match load (f_bytes f) (f_pos f) n with
  | Some bs => (Some bs, mkFILE (f_bytes f) (f_pos f + n) (f_limit f))
  | None => (None, mkFILE (f_bytes f) (Z.max (f_pos f) (Z.of_nat (length (f_bytes f)))) (f_limit f))
  end.

(** [fseek(f, off, SEEK_SET)]. *)
Definition fseek (off : Z) (f : FILE) : bool * FILE :=
  if bool_decide (0 ≤ off) then (true, mkFILE (f_bytes f) off (f_limit f)) else (false, f).

(** [fopen(path, "rb")] when it succeeds. *)
Definition fopen_rb (bytes : list Z) : FILE := mkFILE bytes 0 (Z.of_nat (length bytes)).

(** ** Streams open for writing *)

(** [os_pending] are the bytes the stream took and still holds back;
    [os_push p n] is how many of the [p + n] bytes it has it pushes out when
    [n] come to [p].  C leaves that to the implementation. *)
Record ostream : Type := mkStream { os_file : FILE; os_pending : list Z; os_push : nat → nat → nat }.

(** Pushing out the first [n] bytes.  When they cannot all be stored the
    stream has an error and nothing it held is kept, as in glibc and musl. *)
Definition push (n : nat) (s : ostream) : bool * ostream :=
  let '(ok, f) := store (take n (os_pending s)) (os_file s) in
  (ok, mkStream f (if ok then drop n (os_pending s) else []) (os_push s)).

(** [fwrite(p, n, 1, s) == 1] for an object whose bytes are [bs]. *)
Definition fwrite (bs : list Z) (s : ostream) : bool * ostream :=
  push (os_push s (length (os_pending s)) (length bs)) (mkStream (os_file s) (os_pending s ++ bs) (os_push s)).

(** [fflush(s) == 0], [fseek(s, off, SEEK_SET) == 0], which flushes first
    and does not move if it cannot, and [fclose(s)], which flushes: the file
    it leaves behind. *)
Definition fflush (s : ostream) : bool * ostream := push (length (os_pending s)) s.

Definition fseek_out (off : Z) (s : ostream) : bool * ostream :=
  let '(ok, s) := fflush s in
  if ok then let '(ok, f) := fseek off (os_file s) in (ok, mkStream f (os_pending s) (os_push s)) else (false, s).

Definition fclose (s : ostream) : list Z := f_bytes (os_file (fflush s).2).

(** [fopen(path, "wb")] when it succeeds, on a disk with room for [limit]
    bytes. *)
Definition fopen_wb (pushes : nat → nat → nat) (limit : Z) : ostream := mkStream (mkFILE [] 0 limit) [] pushes.

(** A stream without a buffer, and one with a buffer of [size] bytes that it
    pushes out in whole when bytes come that do not fit. *)
Definition unbuffered : nat → nat → nat := λ p n, (p + n)%nat.
Definition buffer_of (size : nat) : nat → nat → nat := λ p n, if bool_decide (p + n ≤ size)%nat then 0%nat else (p + n)%nat.

(** A chain of writes, each made only if the one before succeeded. *)
Fixpoint fwrite_seq (bss : list (list Z)) (s : ostream) : bool * ostream :=
  match bss with
  | [] => (true, s)
  | bs :: bss =>
      let '(ok, s') := fwrite bs s in
      if ok then fwrite_seq bss s' else (false, s')
  end.

(** A chain of reads joined by [||]: all the fields, or [None] at the first
    that fails. *)
Fixpoint fread_seq (ns : list Z) (f : FILE) : option (list (list Z)) * FILE :=
  match ns with
  | [] => (Some [], f)
  | n :: ns =>
      match fread n f with
      | (None, f') => (None, f')
      | (Some bs, f') =>
          match fread_seq ns f' with
          | (None, f'') => (None, f'')
          | (Some rest, f'') => (Some (bs :: rest), f'')
          end
      end
  end.

(** ** The writer *)

Definition kMagic : Z := 0x5546415354464545.
Definition kVersion : Z := 1.
Definition kCountOffset : Z := 16.
Definition kRecordSize : Z := 88.

Record PcapWriter : Type := mkWriter { w_file_ : option ostream; w_count_ : Z }.

(** The results of the header's writes are not looked at. *)
Definition write_header (s : ostream) : ostream :=
  let s := (fwrite (le_bytes 8 kMagic) s).2 in
  let s := (fwrite (le_bytes 4 kVersion) s).2 in
  let s := (fwrite (le_bytes 4 0) s).2 in
  (fwrite (le_bytes 8 0) s).2.

(** The constructor, given what [fopen] returned. *)
Definition PcapWriter_ctor (opened : option ostream) : PcapWriter :=
  mkWriter (write_header <$> opened) 0.

Definition record_fields (ev : FeedEvent) : list (list Z) :=
  [le_bytes 8 (inject_ns ev); le_bytes 8 (receive_ns ev); le_bytes 2 (ev_payload_len ev);
   replicate 6 0; ev_payload ev].

Definition write_event (ev : FeedEvent) (w : PcapWriter) : bool * PcapWriter :=
  match w_file_ w with
  | None => (false, w)
  | Some s =>
      let '(ok, s') := fwrite_seq (record_fields ev) s in
      if ok then (true, mkWriter (Some s') (u64 (w_count_ w + 1)))
      else (false, mkWriter (Some s') (w_count_ w))
  end.

(** [close] and the destructor; no result is looked at.  The first component
    is the file as it is left behind. *)
Definition PcapWriter_close (w : PcapWriter) : option (list Z) * PcapWriter :=
  match w_file_ w with
  | None => (None, w)
  | Some s =>
      let s := (fseek_out kCountOffset s).2 in
      let s := (fwrite (le_bytes 8 (w_count_ w)) s).2 in
      let s := (fflush s).2 in
      (Some (fclose s), mkWriter None (w_count_ w))
  end.

(** The accessors. *)
Definition writer_is_open (w : PcapWriter) : bool := bool_decide (is_Some (w_file_ w)).
Definition events_written (w : PcapWriter) : Z := w_count_ w.

Fixpoint write_events (evs : list FeedEvent) (w : PcapWriter) : list bool * PcapWriter :=
  match evs with
  | [] => ([], w)
  | ev :: evs =>
      let '(ok, w') := write_event ev w in
      let '(oks, w'') := write_events evs w' in
      (ok :: oks, w'')
  end.

(** ** The reader *)

Record PcapReader : Type := mkReader { r_file_ : option FILE; total_events_ : Z; events_read_ : Z }.

Definition PcapReader_init : PcapReader := mkReader None 0 0.

Definition PcapReader_close (r : PcapReader) : PcapReader := mkReader None 0 0.

(** [open], given what [fopen] returned; a stream that was open is
    forgotten. *)
Definition PcapReader_open (opened : option FILE) (r : PcapReader) : bool * PcapReader :=
  match opened with
  | None => (false, mkReader None (total_events_ r) (events_read_ r))
  | Some f =>
      match fread_seq [8; 4; 4; 8] f with
      | (Some [magic; version; _; count], f') =>
          if bool_decide (le_value magic ≠ kMagic) || bool_decide (le_value version ≠ kVersion)
          then (false, PcapReader_close (mkReader (Some f') (total_events_ r) (events_read_ r)))
          else (true, mkReader (Some f') (le_value count) 0)
      | (_, f') => (false, PcapReader_close (mkReader (Some f') (total_events_ r) (events_read_ r)))
      end
  end.

Definition next (r : PcapReader) : option FeedEvent * PcapReader :=
  match r_file_ r with
  | None => (None, r)
  | Some f =>
      if bool_decide (total_events_ r ≤ events_read_ r) then (None, r)
      else
        match fread_seq [8; 8; 2; 6; kMaxPayload] f with
        | (Some [inject; receive; plen; _; body], f') =>
            (Some (mkEvent (le_value inject) (le_value receive) (src_ip event_zero) (src_port event_zero)
                     (dst_port event_zero) (le_value plen) (pad_ event_zero) (memcpy (ev_payload event_zero) body)),
             mkReader (Some f') (total_events_ r) (u64 (events_read_ r + 1)))
        | (_, f') => (None, mkReader (Some f') (total_events_ r) (events_read_ r))
        end
  end.

Definition rewind (r : PcapReader) : bool * PcapReader :=
  match r_file_ r with
  | None => (false, r)
  | Some f =>
      let '(ok, f') := fseek (kCountOffset + 8) f in
      (ok, mkReader (Some f') (total_events_ r) 0)
  end.

Definition total_events (r : PcapReader) : Z := total_events_ r.
Definition events_read (r : PcapReader) : Z := events_read_ r.
Definition is_open (r : PcapReader) : bool := bool_decide (is_Some (r_file_ r)).

(** [n] calls of [next]. *)
Fixpoint next_n (n : nat) (r : PcapReader) : list (option FeedEvent) * PcapReader :=
  match n with
  | O => ([], r)
  | S n =>
      let '(o, r') := next r in
      let '(os, r'') := next_n n r' in
      (o :: os, r'')
  end.

(** ** Specification *)

(** The file format: a header of 24 bytes and records of 88. *)
Definition header_bytes (count : Z) : list Z :=
  le_bytes 8 kMagic ++ le_bytes 4 kVersion ++ le_bytes 4 0 ++ le_bytes 8 count.
Definition record (ev : FeedEvent) : list Z := concat (record_fields ev).

(** The event a record stands for, and what is left of an event after a trip
    through a capture file: addresses and ports are not stored. *)
Definition decode_record (rec : list Z) : FeedEvent :=
  mkEvent (le_value (field_at rec 0 8)) (le_value (field_at rec 8 8)) 0 0 0 (le_value (field_at rec 16 2))
          (replicate 6 0) (field_at rec 24 64).
Definition captured (ev : FeedEvent) : FeedEvent :=
  mkEvent (inject_ns ev) (receive_ns ev) 0 0 0 (ev_payload_len ev) (replicate 6 0) (ev_payload ev).

#[global] Arguments store : simpl never.
#[global] Arguments fwrite : simpl never.
#[global] Arguments fread : simpl never.

(** ** Writing at the end of a file *)

Definition at_end (f : FILE) : Prop := f_pos f = Z.of_nat (length (f_bytes f)) ∧ f_pos f ≤ f_limit f.
Definition room (f : FILE) : nat := Z.to_nat (f_limit f - f_pos f).
Definition append (f : FILE) (bs : list Z) : FILE :=
  mkFILE (f_bytes f ++ bs) (f_pos f + Z.of_nat (length bs)) (f_limit f).

Lemma append_at_end f bs : at_end f → (length bs ≤ room f)%nat → at_end (append f bs).
Proof. unfold at_end, room. cbn. rewrite length_app. lia. Qed.

Lemma append_app f bs bs' : append (append f bs) bs' = append f (bs ++ bs').
Proof. unfold append. cbn. rewrite length_app, app_assoc. f_equal. lia. Qed.

Lemma append_nil f : append f [] = f.
Proof. destruct f. unfold append. cbn. by rewrite app_nil_r, Z.add_0_r. Qed.

Lemma room_append f bs : room (append f bs) = (room f - length bs)%nat.
Proof. unfold room. cbn. lia. Qed.

Lemma store_end bs f :
  at_end f → store bs f = (bool_decide (length bs ≤ room f)%nat, append f (take (room f) bs)).
Proof.
  intros [He Hl]. unfold store, append. fold (room f). f_equal. f_equal. unfold overwrite.
  rewrite He, Nat2Z.id, Nat.sub_diag, take_ge by lia. cbn.
  by rewrite drop_ge, app_nil_r by lia.
Qed.

(** Without a buffer an [fwrite] stores. *)
Lemma fwrite_seq_end bss : ∀ f,
  at_end f → fwrite_seq bss (mkStream f [] unbuffered) =
    (bool_decide (length (concat bss) ≤ room f)%nat, mkStream (append f (take (room f) (concat bss))) [] unbuffered).
Proof.
  induction bss as [|bs bss IH]; intros f Hf; cbn [fwrite_seq concat].
  { by rewrite bool_decide_true, take_nil, append_nil by (cbn; lia). }
  assert (Hw : fwrite bs (mkStream f [] unbuffered) =
    (bool_decide (length bs ≤ room f)%nat, mkStream (append f (take (room f) bs)) [] unbuffered)).
  { unfold fwrite, push, unbuffered. cbn [os_push os_pending os_file length app Nat.add].
    rewrite firstn_all, store_end by done. f_equal. f_equal. rewrite drop_all. by case_bool_decide. }
  rewrite Hw, length_app. case_bool_decide as Hfit.
  - rewrite IH by (rewrite take_ge by done; by apply append_at_end).
    rewrite room_append, append_app, !(take_ge bs) by lia. f_equal.
    + apply bool_decide_ext. lia.
    + f_equal. f_equal. by rewrite take_app_ge by lia.
  - rewrite bool_decide_false by lia. by rewrite take_app_le by lia.
Qed.

(** *** With any buffer

    A stream that was given the bytes [S] on a disk with room for [L] bytes
    has them all, stored or held back; or the disk is full, with the
    beginning of [S] on it. *)
Record good (L : Z) (S : list Z) (s : ostream) : Prop := {
  gd_end : at_end (os_file s);
  gd_limit : f_limit (os_file s) = L;
  gd_bytes : f_bytes (os_file s) ++ os_pending s = S;
}.

Record full (L : Z) (S : list Z) (s : ostream) : Prop := {
  fu_end : at_end (os_file s);
  fu_limit : f_limit (os_file s) = L;
  fu_pos : f_pos (os_file s) = L;
  fu_bytes : f_bytes (os_file s) = take (Z.to_nat L) S;
  fu_long : L < Z.of_nat (length S);
}.

Lemma full_app L S S' s : full L S s → full L (S ++ S') s.
Proof.
  intros [He Hl Hp Hb Hlen]. split; try done; rewrite ?length_app; [|lia]. by rewrite take_app_le by lia.
Qed.

Lemma push_failed n s : (push n s).1 = false → os_pending (push n s).2 = [].
Proof. unfold push. destruct (store _ _) as [[] f]; [done|done]. Qed.

Lemma push_good L S n s :
  good L S s → if (push n s).1 then good L S (push n s).2 else full L S (push n s).2.
Proof.
  intros [He Hl Hb]. unfold push. rewrite store_end by done. case_bool_decide as Hfit; cbn [fst snd].
  - rewrite take_ge by lia. split; cbn [os_file os_pending]; [by apply append_at_end|done|].
    cbn [append f_bytes]. by rewrite <- app_assoc, take_drop.
  - destruct He as [He Hle]. pose proof (length_take (os_pending s) n) as Hlt. unfold room in *.
    assert (Hlen : length (take (Z.to_nat (f_limit (os_file s) - f_pos (os_file s))) (take n (os_pending s))) =
      Z.to_nat (f_limit (os_file s) - f_pos (os_file s))) by (rewrite length_take; lia).
    split; cbn [os_file append f_bytes f_pos f_limit]; rewrite ?Hlen; [|done|lia| |].
    + unfold at_end. cbn [append f_bytes f_pos f_limit]. rewrite length_app, !Hlen. lia.
    + rewrite <- Hb, take_app_ge by lia. f_equal. rewrite take_take. f_equal. lia.
    + rewrite <- Hb, length_app. lia.
Qed.

Lemma push_full L S n s : full L S s → full L S (push n s).2.
Proof.
  intros [He Hl Hp Hb Hlen]. unfold push. rewrite store_end by done.
  assert (Hr : room (os_file s) = 0%nat) by (unfold room; lia). rewrite Hr. cbn [take]. rewrite append_nil. done.
Qed.

Lemma fwrite_good L S bs s :
  good L S s → if (fwrite bs s).1 then good L (S ++ bs) (fwrite bs s).2 else full L (S ++ bs) (fwrite bs s).2.
Proof. intros [He Hl Hb]. apply push_good. split; [done|done|]. cbn. by rewrite app_assoc, Hb. Qed.

Lemma fwrite_full L S bs s : full L S s → full L S (fwrite bs s).2.
Proof. intros [He Hl Hp Hb Hlen]. by apply push_full. Qed.

Lemma fwrite_seq_good bss : ∀ L S s,
  good L S s → if (fwrite_seq bss s).1 then good L (S ++ concat bss) (fwrite_seq bss s).2
    else full L (S ++ concat bss) (fwrite_seq bss s).2 ∧ os_pending (fwrite_seq bss s).2 = [].
Proof.
  induction bss as [|bs bss IH]; intros L S s Hs; cbn [fwrite_seq concat]; [cbn; by rewrite app_nil_r|].
  pose proof (fwrite_good L S bs s Hs) as Hw. pose proof (push_failed _ _ : (fwrite bs s).1 = false → _) as Hf.
  fold (fwrite bs s) in Hf. rewrite app_assoc. destruct (fwrite bs s) as [[] s1]; cbn [fst snd] in *; [by apply IH|].
  split; [by apply full_app|by apply Hf].
Qed.

Lemma fwrite_seq_full bss : ∀ L S s, full L S s → full L S (fwrite_seq bss s).2.
Proof.
  induction bss as [|bs bss IH]; intros L S s Hs; cbn [fwrite_seq]; [done|].
  pose proof (fwrite_full L S bs s Hs) as Hw. destruct (fwrite bs s) as [[] s1]; [by apply IH|done].
Qed.

(** A large enough buffer takes everything. *)
Lemma fwrite_held N bs s :
  (∀ p n, (p + n ≤ N)%nat → os_push s p n = 0%nat) → (length (os_pending s) + length bs ≤ N)%nat →
  (fwrite bs s).1 = true ∧ os_pending (fwrite bs s).2 = os_pending s ++ bs ∧ os_push (fwrite bs s).2 = os_push s.
Proof.
  intros Hp Hn. unfold fwrite, push. rewrite Hp by done. cbn [take os_pending os_push os_file].
  unfold store. by rewrite bool_decide_true by apply Nat.le_0_l.
Qed.

Lemma fwrite_seq_held bss N : ∀ s,
  (∀ p n, (p + n ≤ N)%nat → os_push s p n = 0%nat) → (length (os_pending s) + length (concat bss) ≤ N)%nat →
  (fwrite_seq bss s).1 = true ∧ os_pending (fwrite_seq bss s).2 = os_pending s ++ concat bss ∧
    os_push (fwrite_seq bss s).2 = os_push s.
Proof.
  induction bss as [|bs bss IH]; intros s Hp Hn; cbn [fwrite_seq concat] in *; [by rewrite app_nil_r|].
  rewrite length_app in Hn. destruct (fwrite_held N bs s Hp ltac:(lia)) as (E1 & E2 & E3).
  destruct (fwrite bs s) as [ok s1]; cbn [fst snd] in *. subst ok.
  destruct (IH s1) as (F1 & F2 & F3); [by rewrite E3|rewrite E2, length_app; lia|].
  split; [done|]. split; [by rewrite F2, E2, <- app_assoc|congruence].
Qed.

Lemma length_record ev : length (ev_payload ev) = 64%nat → length (record ev) = 88%nat.
Proof. intros Hp. unfold record, record_fields. cbn. rewrite !length_app, !length_le_bytes. cbn. rewrite length_app, Hp. done. Qed.

(** Writing events without a buffer: as many whole records as fit are
    accepted; the bytes stored are the beginning of the sequence of
    records. *)
Lemma write_events_spec evs : ∀ f c,
  Forall (λ ev, length (ev_payload ev) = 64%nat) evs → at_end f → in_width 64 c →
  let k := (length evs `min` (room f / 88))%nat in
  write_events evs (mkWriter (Some (mkStream f [] unbuffered)) c) =
    (replicate k true ++ replicate (length evs - k) false,
     mkWriter (Some (mkStream (append f (take (room f) (concat (record <$> evs)))) [] unbuffered)) (u64 (c + Z.of_nat k))).
Proof.
  induction evs as [|ev evs IH]; intros f c Hall Hf Hc; cbv zeta.
  { cbn. by rewrite take_nil, append_nil, Z.add_0_r, u64_small. }
  cbn [write_events length].
  apply Forall_cons in Hall as [Hev Hall]. pose proof (length_record ev Hev) as Hrl.
  unfold write_event. cbn [w_file_ w_count_]. rewrite fwrite_seq_end by done. fold (record ev). rewrite Hrl.
  case_bool_decide as Hfit.
  - rewrite (take_ge (record ev)) by lia.
    rewrite IH; [|done|apply append_at_end; [done|lia]|by apply in_width_wrap].
    rewrite room_append, Hrl, append_app.
    assert (Hdiv : (room f / 88 = S ((room f - 88) / 88))%nat).
    { replace (room f) with (1 * 88 + (room f - 88))%nat at 1 by lia. by rewrite Nat.div_add_l by lia. }
    rewrite Hdiv. cbn -[Nat.div]. f_equal. f_equal.
    + f_equal. f_equal. f_equal. change (concat (record <$> ev :: evs)) with (record ev ++ concat (record <$> evs)).
      rewrite (take_app_ge (record ev)) by lia. by rewrite Hrl.
    + unfold u64, wrap. rewrite Zplus_mod_idemp_l. f_equal. lia.
  - rewrite IH; [|done| |done].
    + rewrite room_append, length_take, Hrl. replace (room f - room f `min` 88)%nat with 0%nat by lia.
      rewrite Nat.Div0.div_0_l, (Nat.div_small (room f)) by lia. rewrite !Nat.min_0_r. cbn.
      rewrite append_app, Z.add_0_r, u64_small, app_nil_r by done.
      change (concat (record <$> ev :: evs)) with (record ev ++ concat (record <$> evs)).
      rewrite (take_app_le (record ev)) by lia. by rewrite Nat.sub_0_r.
    + apply append_at_end; [done|]. rewrite length_take. lia.
Qed.

(** Writing events to any stream. *)
Fixpoint accepted (oks : list bool) : nat :=
  match oks with [] => O | ok :: oks => if ok then S (accepted oks) else accepted oks end.

Lemma accepted_all n : accepted (replicate n true) = n.
Proof. induction n as [|n IH]; cbn; [done|]. by f_equal. Qed.

Lemma accepted_app n m : accepted (replicate n true ++ replicate m false) = n.
Proof. induction n as [|n IH]; cbn; [by induction m|]. by f_equal. Qed.

Lemma accepted_le oks : (accepted oks ≤ length oks)%nat.
Proof. induction oks as [|[] oks IH]; cbn; lia. Qed.

Lemma write_event_good L S s c ev :
  good L S s → ∃ s', write_event ev (mkWriter (Some s) c) =
      ((fwrite_seq (record_fields ev) s).1, mkWriter (Some s') (if (fwrite_seq (record_fields ev) s).1 then u64 (c + 1) else c)) ∧
    if (fwrite_seq (record_fields ev) s).1 then good L (S ++ record ev) s' else full L (S ++ record ev) s' ∧ os_pending s' = [].
Proof.
  intros Hs. pose proof (fwrite_seq_good (record_fields ev) L S s Hs) as Hw. unfold write_event. cbn [w_file_ w_count_].
  destruct (fwrite_seq _ s) as [[] s1]; cbn [fst snd] in *; by eexists.
Qed.

Lemma write_event_full L S s c ev :
  full L S s → ∃ s', write_event ev (mkWriter (Some s) c) =
      ((fwrite_seq (record_fields ev) s).1, mkWriter (Some s') (if (fwrite_seq (record_fields ev) s).1 then u64 (c + 1) else c)) ∧
    full L S s'.
Proof.
  intros Hs. pose proof (fwrite_seq_full (record_fields ev) L S s Hs) as Hw. unfold write_event. cbn [w_file_ w_count_].
  destruct (fwrite_seq _ s) as [[] s1]; cbn [fst snd] in *; by eexists.
Qed.

Lemma count_step (b : bool) oks c :
  in_width 64 c → u64 ((if b then u64 (c + 1) else c) + Z.of_nat (accepted oks)) = u64 (c + Z.of_nat (accepted (b :: oks))).
Proof.
  intros Hc. destruct b; [|done]. cbn [accepted]. unfold u64, wrap. rewrite Zplus_mod_idemp_l. f_equal.
  lia.
Qed.

Lemma write_events_full evs : ∀ L S s c,
  full L S s → in_width 64 c →
  ∃ oks s', write_events evs (mkWriter (Some s) c) = (oks, mkWriter (Some s') (u64 (c + Z.of_nat (accepted oks)))) ∧
    length oks = length evs ∧ full L S s'.
Proof.
  induction evs as [|ev evs IH]; intros L S s c Hs Hc; cbn [write_events].
  { exists [], s. cbn. by rewrite Z.add_0_r, u64_small. }
  destruct (write_event_full L S s c ev Hs) as (s1 & -> & H1).
  destruct (IH L S s1 (if (fwrite_seq (record_fields ev) s).1 then u64 (c + 1) else c) H1) as (oks & s2 & -> & Hl & H2).
  { case_match; [by apply in_width_wrap|done]. }
  eexists _, s2. split; [rewrite count_step by done; done|]. cbn. by rewrite Hl.
Qed.

Lemma write_events_good evs : ∀ L S s c,
  good L S s → in_width 64 c →
  ∃ oks s', write_events evs (mkWriter (Some s) c) = (oks, mkWriter (Some s') (u64 (c + Z.of_nat (accepted oks)))) ∧
    length oks = length evs ∧
    (oks = replicate (length evs) true ∧ good L (S ++ concat (record <$> evs)) s' ∨
     oks ≠ replicate (length evs) true ∧ full L (S ++ concat (record <$> evs)) s').
Proof.
  induction evs as [|ev evs IH]; intros L S s c Hs Hc; cbn [write_events].
  { exists [], s. cbn. rewrite Z.add_0_r, u64_small, app_nil_r by done. split; [done|]. split; [done|]. by left. }
  destruct (write_event_good L S s c ev Hs) as (s1 & -> & H1). cbn [fmap list_fmap concat]. rewrite app_assoc.
  destruct ((fwrite_seq (record_fields ev) s).1).
  - destruct (IH L (S ++ record ev) s1 (u64 (c + 1)) H1) as (oks & s2 & -> & Hl & H2); [by apply in_width_wrap|].
    eexists _, s2. split; [rewrite <- (count_step true) by done; done|]. cbn [length replicate]. rewrite Hl. split; [done|].
    destruct H2 as [[-> H2]|[Hne H2]]; [by left|right]. split; [by intros [= ?]|done].
  - destruct H1 as [H1 _]. destruct (write_events_full evs _ _ s1 c (full_app _ _ (concat (record <$> evs)) _ H1) Hc) as (oks & s2 & -> & Hl & H2).
    eexists _, s2. split; [rewrite <- (count_step false) by done; done|]. cbn [length replicate]. rewrite Hl. split; [done|].
    by right.
Qed.

Lemma length_records evs : Forall (λ ev, length (ev_payload ev) = 64%nat) evs → length (concat (record <$> evs)) = (88 * length evs)%nat.
Proof.
  induction 1 as [|ev evs Hev _ IH]; [done|]. cbn [fmap list_fmap concat length]. rewrite length_app, IH, length_record by done. lia.
Qed.

Lemma buffer_of_holds size n p b : (n ≤ size)%nat → (p + b ≤ n)%nat → buffer_of size p b = 0%nat.
Proof. intros. unfold buffer_of. by rewrite bool_decide_true by lia. Qed.

(** A large enough buffer accepts everything. *)
Lemma write_events_held evs N : ∀ s c,
  Forall (λ ev, length (ev_payload ev) = 64%nat) evs →
  (∀ p n, (p + n ≤ N)%nat → os_push s p n = 0%nat) → (length (os_pending s) + 88 * length evs ≤ N)%nat →
  (write_events evs (mkWriter (Some s) c)).1 = replicate (length evs) true.
Proof.
  induction evs as [|ev evs IH]; intros s c Hall Hp Hn; cbn [write_events]; [done|].
  apply Forall_cons in Hall as [Hev Hall]. pose proof (length_record ev Hev) as Hrl. cbn [length] in Hn.
  destruct (fwrite_seq_held (record_fields ev) N s Hp) as (E1 & E2 & E3); [unfold record in Hrl; lia|]. unfold write_event. cbn [w_file_ w_count_].
  destruct (fwrite_seq _ s) as [ok s1]; cbn [fst snd] in *. subst ok.
  specialize (IH s1 (u64 (c + 1)) Hall). destruct (write_events evs _) as [oks w2]. cbn [fst snd] in *. cbn [replicate length].
  rewrite IH; [done|by rewrite E3|]. rewrite E2, length_app. unfold record in Hrl. lia.
Qed.

(** ** The header and its patch *)

Lemma length_header_bytes c : length (header_bytes c) = 24%nat.
Proof. unfold header_bytes. by rewrite !length_app, !length_le_bytes. Qed.

Definition header_fields : list (list Z) := [le_bytes 8 kMagic; le_bytes 4 kVersion; le_bytes 4 0; le_bytes 8 0].

Lemma header_concat : concat header_fields = header_bytes 0.
Proof. cbn [header_fields concat]. by rewrite app_nil_r. Qed.

Lemma write_header_seq s : (fwrite_seq header_fields s).1 = true → write_header s = (fwrite_seq header_fields s).2.
Proof.
  unfold write_header, header_fields. cbn [fwrite_seq]. destruct (fwrite (le_bytes 8 kMagic) s) as [[] s1]; [|done].
  cbn [snd]. destruct (fwrite (le_bytes 4 kVersion) s1) as [[] s2]; [|done].
  cbn [snd]. destruct (fwrite (le_bytes 4 0) s2) as [[] s3]; [|done].
  cbn [snd]. by destruct (fwrite (le_bytes 8 0) s3) as [[] s4].
Qed.

Lemma fopen_good pushes limit : 0 ≤ limit → good limit [] (fopen_wb pushes limit).
Proof. intros Hl. split; [|done|done]. split; cbn; lia. Qed.

(** There is room for the header. *)
Lemma write_header_good pushes limit :
  24 ≤ limit → good limit (header_bytes 0) (write_header (fopen_wb pushes limit)).
Proof.
  intros Hl. pose proof (fwrite_seq_good header_fields limit [] (fopen_wb pushes limit) (fopen_good pushes limit ltac:(lia))) as Hw.
  rewrite header_concat in Hw. cbn [app] in Hw. destruct ((fwrite_seq header_fields (fopen_wb pushes limit)).1) eqn:Hok.
  - by rewrite write_header_seq.
  - destruct Hw as [[_ _ _ _ Hlen] _]. rewrite length_header_bytes in Hlen. lia.
Qed.

Lemma write_header_fresh limit :
  24 ≤ limit → write_header (fopen_wb unbuffered limit) = mkStream (append (mkFILE [] 0 limit) (header_bytes 0)) [] unbuffered.
Proof.
  intros Hl. assert (Hw := fwrite_seq_end header_fields (mkFILE [] 0 limit) ltac:(split; cbn; lia)).
  rewrite header_concat, length_header_bytes in Hw. unfold room in Hw. cbn [f_limit f_pos] in Hw.
  rewrite bool_decide_true, take_ge in Hw by (rewrite ?length_header_bytes; lia).
  unfold fopen_wb. rewrite write_header_seq by (by rewrite Hw). by rewrite Hw.
Qed.

Lemma write_header_held pushes limit N :
  (∀ p n, (p + n ≤ N)%nat → pushes p n = 0%nat) → (24 ≤ N)%nat →
  let s := write_header (fopen_wb pushes limit) in os_push s = pushes ∧ length (os_pending s) = 24%nat.
Proof.
  intros Hp HN. destruct (fwrite_seq_held header_fields N (fopen_wb pushes limit) Hp) as (E1 & E2 & E3).
  { rewrite header_concat, length_header_bytes. cbn. lia. }
  cbv zeta. rewrite write_header_seq by done. rewrite E2, E3, header_concat. cbn [fopen_wb os_pending os_push app].
  by rewrite length_header_bytes.
Qed.

(** Writing events to a new file without a buffer. *)
Lemma unbuffered_writes limit evs :
  Forall (λ ev, length (ev_payload ev) = 64%nat) evs → 24 ≤ limit → Z.of_nat (length evs) < 2 ^ 64 →
  let k := (length evs `min` (Z.to_nat (limit - 24) / 88))%nat in
  ∃ f, write_events evs (mkWriter (Some (write_header (fopen_wb unbuffered limit))) 0) =
    (replicate k true ++ replicate (length evs - k) false, mkWriter (Some (mkStream f [] unbuffered)) (Z.of_nat k)).
Proof.
  intros Hpl Hl Hn k. rewrite write_header_fresh by done. set (f := append (mkFILE [] 0 limit) (header_bytes 0)).
  assert (Hf : at_end f).
  { apply append_at_end; [split; cbn; lia|]. rewrite length_header_bytes. unfold room. cbn. lia. }
  assert (Hroom : room f = Z.to_nat (limit - 24)).
  { unfold f. rewrite room_append, length_header_bytes. unfold room. cbn. lia. }
  pose proof (write_events_spec evs f 0 Hpl Hf ltac:(done)) as Hw. cbv zeta in Hw.
  rewrite Hroom in Hw. fold k in Hw. rewrite Z.add_0_l, (u64_small (Z.of_nat k)) in Hw by lia. by eexists.
Qed.

(** Flushing. *)
Lemma flushed s : (fflush s).1 = true → os_pending (fflush s).2 = [].
Proof. unfold fflush, push. destruct (store _ _) as [[] f]; [|done]. intros _. apply drop_all. Qed.

Lemma flush_empty s : os_pending s = [] → (fflush s).1 = true.
Proof. intros Hn. unfold fflush, push. rewrite Hn. unfold store. by rewrite bool_decide_true by apply Nat.le_0_l. Qed.

Lemma flush_good L S s : good L S s → (fflush s).1 = bool_decide (Z.of_nat (length S) ≤ L).
Proof.
  intros Hs. pose proof (push_good L S (length (os_pending s)) s Hs) as Hp. fold (fflush s) in Hp.
  destruct (fflush s).1 eqn:Hok; symmetry.
  - apply bool_decide_true. destruct Hp as [[He Hle] Hlim Hb]. rewrite flushed, app_nil_r in Hb by done. rewrite <- Hb. lia.
  - apply bool_decide_false. pose proof (fu_long _ _ _ Hp). lia.
Qed.

(** Storing bytes piece by piece. *)
Lemma overwrite_nil l pos : (pos ≤ length l)%nat → overwrite l pos [] = l.
Proof.
  intros Hl. unfold overwrite. replace (pos - length l)%nat with 0%nat by lia. cbn [replicate app length].
  by rewrite Nat.add_0_r, take_drop.
Qed.

Lemma overwrite_app l pos a b :
  (pos ≤ length l)%nat → overwrite (overwrite l pos a) (pos + length a) b = overwrite l pos (a ++ b).
Proof.
  intros Hl. unfold overwrite. replace (pos - length l)%nat with 0%nat by lia. cbn [replicate app].
  rewrite !length_app, length_take, length_drop.
  replace (pos + length a - _)%nat with 0%nat by lia. cbn [replicate app].
  rewrite (app_assoc (take pos l) a), take_app_length' by (rewrite length_app, length_take; lia).
  rewrite drop_app_ge by (rewrite length_app, length_take; lia). rewrite length_app, length_take, drop_drop, <- !app_assoc.
  do 4 f_equal. lia.
Qed.

Lemma store_room bs f :
  (length bs ≤ room f)%nat →
  store bs f = (true, mkFILE (overwrite (f_bytes f) (Z.to_nat (f_pos f)) bs) (f_pos f + Z.of_nat (length bs)) (f_limit f)).
Proof. intros Hr. unfold store. fold (room f). by rewrite bool_decide_true, take_ge by lia. Qed.

(** Bytes written at a position of the file and flushed, however they are
    pushed out. *)
Lemma written_out bs s :
  os_pending s = [] → 0 ≤ f_pos (os_file s) ≤ Z.of_nat (length (f_bytes (os_file s))) →
  f_pos (os_file s) + Z.of_nat (length bs) ≤ f_limit (os_file s) →
  fclose (fflush (fwrite bs s).2).2 = overwrite (f_bytes (os_file s)) (Z.to_nat (f_pos (os_file s))) bs.
Proof.
  intros Hn Hpos Hroom. unfold fwrite. rewrite Hn. cbn [app length]. set (q := os_push s 0 (length bs)). clearbody q.
  destruct s as [[l pos limit] pending pushes]. cbn [os_file os_pending os_push f_bytes f_pos f_limit] in *.
  assert (Hsplit := take_drop q bs). set (a := take q bs) in *. set (b := drop q bs) in *.
  assert (Hlen : (length a + length b)%nat = length bs) by (rewrite <- Hsplit; by rewrite length_app).
  set (f0 := mkFILE l pos limit).
  assert (H1 : push q (mkStream f0 bs pushes) = (true, mkStream (mkFILE (overwrite l (Z.to_nat pos) a) (pos + Z.of_nat (length a)) limit) b pushes)).
  { unfold push. cbn [os_pending os_file os_push]. fold a b. by rewrite store_room by (unfold room; cbn; lia). }
  rewrite H1. cbn [snd]. clear H1. unfold fflush at 1, push. cbn [os_pending os_file os_push]. rewrite firstn_all, drop_all.
  rewrite store_room by (unfold room; cbn [f_limit f_pos]; lia). cbn [snd f_bytes f_pos f_limit].
  unfold fclose, fflush, push. cbn [os_pending os_file os_push take length].
  rewrite store_room by (apply Nat.le_0_l). cbn [snd os_file f_bytes f_pos].
  replace (Z.to_nat (pos + Z.of_nat (length a))) with (Z.to_nat pos + length a)%nat by lia.
  rewrite overwrite_app, Hsplit by lia. apply overwrite_nil. unfold overwrite.
  rewrite !length_app, length_take, length_replicate, length_drop. lia.
Qed.

(** Closing a stream whose flush succeeds overwrites the count and leaves
    the rest of the file. *)
Lemma close_patches c c' L rest s :
  24 ≤ L → good L (header_bytes c' ++ rest) (fflush s).2 → os_pending (fflush s).2 = [] → (fflush s).1 = true →
  PcapWriter_close (mkWriter (Some s) c) = (Some (header_bytes c ++ rest), mkWriter None c).
Proof.
  intros Hl [_ Hlim Hb] Hn Hok. unfold PcapWriter_close, fseek_out. cbn [w_file_ w_count_].
  destruct (fflush s) as [ok s1]. cbn [fst snd] in *. subst ok. rewrite Hn, app_nil_r in Hb.
  unfold fseek, kCountOffset. rewrite bool_decide_true by lia. cbn [snd].
  assert (Hlb : (24 ≤ length (f_bytes (os_file s1)))%nat) by (rewrite Hb, length_app, length_header_bytes; lia).
  rewrite written_out; cbn [os_pending os_file f_bytes f_pos f_limit]; rewrite ?length_le_bytes; [|done|lia|lia].
  by rewrite Hb.
Qed.

(** One whose flush fails cannot store the count either. *)
Lemma close_unpatched L S s c :
  full L S (fflush s).2 → (fflush s).1 = false →
  PcapWriter_close (mkWriter (Some s) c) = (Some (take (Z.to_nat L) S), mkWriter None c).
Proof.
  intros Hs Hok. unfold PcapWriter_close, fseek_out. cbn [w_file_ w_count_].
  destruct (fflush s) as [ok s1]. cbn [fst snd] in *. subst ok. cbn [snd].
  pose proof (push_full L S _ _ (push_full L S _ _ (fwrite_full L S (le_bytes 8 c) s1 Hs)) : full L S (fflush (fflush (fwrite (le_bytes 8 c) s1).2).2).2) as [_ _ _ Hb _].
  unfold fclose. by rewrite Hb.
Qed.

(** So the file that [close] leaves begins like the bytes the stream was
    given, with the count patched if the flush succeeds and still 0 if not. *)
Lemma close_any L rest s c :
  24 ≤ L → good L (header_bytes 0 ++ rest) s ∨ full L (header_bytes 0 ++ rest) s →
  PcapWriter_close (mkWriter (Some s) c) =
    (Some (header_bytes (if (fflush s).1 then c else 0) ++ take (Z.to_nat (L - 24)) rest), mkWriter None c).
Proof.
  intros Hl Hs.
  assert (Htake : take (Z.to_nat L) (header_bytes 0 ++ rest) = header_bytes 0 ++ take (Z.to_nat (L - 24)) rest).
  { rewrite take_app_ge by (rewrite length_header_bytes; lia). rewrite length_header_bytes. do 2 f_equal. lia. }
  destruct (fflush s).1 eqn:Hok.
  - apply (close_patches c 0 L); [done| |by apply flushed|done]. destruct Hs as [Hs|Hs].
    + pose proof (flush_good L _ s Hs) as Hlen. rewrite Hok in Hlen. symmetry in Hlen. apply bool_decide_eq_true in Hlen.
      rewrite length_app, length_header_bytes in Hlen. rewrite take_ge by lia.
      pose proof (push_good L _ (length (os_pending s)) s Hs) as Hp. fold (fflush s) in Hp. by rewrite Hok in Hp.
    + pose proof (push_full L _ (length (os_pending s)) s Hs) as [He Hlim _ Hb _]. fold (fflush s) in He, Hlim, Hb.
      split; [done|done|]. by rewrite flushed, app_nil_r, Hb by done.
  - rewrite <- Htake. apply close_unpatched; [|done]. destruct Hs as [Hs|Hs].
    + pose proof (push_good L _ (length (os_pending s)) s Hs) as Hp. fold (fflush s) in Hp. by rewrite Hok in Hp.
    + by apply push_full.
Qed.

(** ** Reading *)

Lemma fread_some pre bs post limit :
  fread (Z.of_nat (length bs)) (mkFILE (pre ++ bs ++ post) (Z.of_nat (length pre)) limit) =
    (Some bs, mkFILE (pre ++ bs ++ post) (Z.of_nat (length (pre ++ bs))) limit).
Proof.
  unfold fread. cbn [f_bytes f_pos f_limit]. rewrite load_skip, Z.sub_diag by lia.
  rewrite load_here by done. do 2 f_equal. rewrite length_app. lia.
Qed.

Lemma fread_none bytes pos n limit :
  0 ≤ pos → Z.of_nat (length bytes) < pos + n →
  fread n (mkFILE bytes pos limit) = (None, mkFILE bytes (Z.max pos (Z.of_nat (length bytes))) limit).
Proof. intros. unfold fread, load. cbn [f_bytes f_pos f_limit]. by rewrite bool_decide_false by lia. Qed.

Lemma fread_seq_some bss : ∀ pre post limit,
  fread_seq ((λ bs, Z.of_nat (length bs)) <$> bss) (mkFILE (pre ++ concat bss ++ post) (Z.of_nat (length pre)) limit) =
    (Some bss, mkFILE (pre ++ concat bss ++ post) (Z.of_nat (length (pre ++ concat bss))) limit).
Proof.
  induction bss as [|bs bss IH]; intros pre post limit; cbn [concat fmap list_fmap fread_seq].
  { by rewrite app_nil_r. }
  rewrite <- !app_assoc, fread_some. specialize (IH (pre ++ bs) post limit).
  rewrite <- !app_assoc in IH. rewrite IH. done.
Qed.

(** A chain of reads that runs into the end of the file fails, and leaves
    the position at the end. *)
Lemma fread_seq_none ns : ∀ bytes pos limit,
  0 ≤ pos ≤ Z.of_nat (length bytes) → Forall (λ n, 0 < n) ns →
  Z.of_nat (length bytes) < pos + foldr Z.add 0 ns →
  fread_seq ns (mkFILE bytes pos limit) = (None, mkFILE bytes (Z.of_nat (length bytes)) limit).
Proof.
  induction ns as [|n ns IH]; intros bytes pos limit Hpos Hall Hlt; cbn in Hlt; [lia|].
  apply Forall_cons in Hall as [Hn Hall]. cbn [fread_seq].
  destruct (decide (pos + n ≤ Z.of_nat (length bytes))) as [Hfit|Hfit].
  - unfold fread. cbn [f_bytes f_pos f_limit].
    destruct (proj2 (load_is_Some bytes pos n)) as [bs ->]; [lia|]. by rewrite IH by (done || lia).
  - rewrite fread_none by lia. by rewrite Z.max_r by lia.
Qed.

(** Splitting a record into its fields. *)
Lemma record_split rec :
  length rec = 88%nat →
  rec = concat [field_at rec 0 8; field_at rec 8 8; field_at rec 16 2; field_at rec 18 6; field_at rec 24 64].
Proof.
  intros Hl. cbn. unfold field_at. rewrite app_nil_r.
  rewrite (take_ge (drop 24 rec)) by (rewrite length_drop; lia).
  change (drop 24 rec) with (drop (6 + 18) rec). rewrite Nat.add_comm, <- drop_drop, take_drop.
  change (drop 18 rec) with (drop (16 + 2) rec). rewrite <- drop_drop, take_drop.
  change (drop 16 rec) with (drop (8 + 8) rec). rewrite <- drop_drop, take_drop. by rewrite drop_0, take_drop.
Qed.

Lemma length_field rec off n : length rec = 88%nat → (off + n ≤ 88)%nat → length (field_at rec off n) = n.
Proof. intros Hl H. unfold field_at. rewrite length_take, length_drop. lia. Qed.

(** The next record of a file. *)
Lemma next_record pre rec post total n limit :
  length rec = 88%nat → n < total → in_width 64 n → n + 1 < 2 ^ 64 →
  next (mkReader (Some (mkFILE (pre ++ rec ++ post) (Z.of_nat (length pre)) limit)) total n) =
    (Some (decode_record rec),
     mkReader (Some (mkFILE (pre ++ rec ++ post) (Z.of_nat (length (pre ++ rec))) limit)) total (n + 1)).
Proof.
  intros Hl Hn Hw Hw'. unfold next. cbn [r_file_ total_events_ events_read_]. rewrite bool_decide_false by lia.
  pose proof (record_split rec Hl) as Hs.
  set (fs := [field_at rec 0 8; field_at rec 8 8; field_at rec 16 2; field_at rec 18 6; field_at rec 24 64]) in *.
  pose proof (fread_seq_some fs pre post limit) as Hr. rewrite <- Hs in Hr.
  assert (Hns : (λ bs : list Z, Z.of_nat (length bs)) <$> fs = [8; 8; 2; 6; kMaxPayload]).
  { unfold fs. cbn [fmap list_fmap]. rewrite !length_field by (done || lia). done. }
  rewrite Hns in Hr. rewrite Hr. unfold fs. cbn [fst snd]. rewrite u64_small by (unfold in_width in *; lia). do 2 f_equal.
  unfold decode_record. cbn. f_equal. unfold memcpy. rewrite drop_ge, app_nil_r; [done|].
  rewrite length_field by (done || lia). apply Nat.le_refl.
Qed.

(** At the end of the file, or of the declared events, there is nothing. *)
Lemma next_end bytes pos total n limit :
  0 ≤ pos ≤ Z.of_nat (length bytes) → Z.of_nat (length bytes) < pos + 88 →
  ∃ pos', next (mkReader (Some (mkFILE bytes pos limit)) total n) = (None, mkReader (Some (mkFILE bytes pos' limit)) total n) ∧
    0 ≤ pos' ≤ Z.of_nat (length bytes) ∧ Z.of_nat (length bytes) < pos' + 88.
Proof.
  intros Hp Hl. unfold next. cbn [r_file_ total_events_ events_read_]. case_bool_decide; [by exists pos|].
  rewrite fread_seq_none; [|done|repeat (apply Forall_cons; split; [done|]); by apply Forall_nil|change (foldr Z.add 0 _) with 88; lia]. eexists. split; [done|]. lia.
Qed.

Lemma next_n_exhausted bytes total n limit m : ∀ pos,
  total ≤ n ∨ Z.of_nat (length bytes) < pos + 88 → 0 ≤ pos ≤ Z.of_nat (length bytes) →
  (next_n m (mkReader (Some (mkFILE bytes pos limit)) total n)).1 = replicate m None.
Proof.
  induction m as [|m IH]; intros pos Hend Hp; [done|]. cbn [next_n].
  assert (Hn : ∃ pos', next (mkReader (Some (mkFILE bytes pos limit)) total n) =
      (None, mkReader (Some (mkFILE bytes pos' limit)) total n) ∧
    0 ≤ pos' ≤ Z.of_nat (length bytes) ∧ (total ≤ n ∨ Z.of_nat (length bytes) < pos' + 88)).
  { destruct (decide (total ≤ n)) as [Ht|Ht].
    - exists pos. unfold next. cbn [r_file_ total_events_ events_read_]. rewrite bool_decide_true by done. auto.
    - destruct Hend as [|Hend]; [done|]. destruct (next_end bytes pos total n limit Hp Hend) as (pos' & -> & ? & ?).
      exists pos'. auto. }
  destruct Hn as (pos' & -> & Hp' & Hend'). specialize (IH pos' Hend' Hp').
  destruct (next_n m _) as [os r]. cbn in *. by rewrite IH.
Qed.

(** Reading any file of whole records and a rest: the records in order, as
    many as the header declares and the file holds, and then nothing. *)
Lemma next_n_records total limit tail m : ∀ recs pre n,
  Forall (λ rec, length rec = 88%nat) recs → (length tail < 88)%nat → in_width 64 total → in_width 64 n →
  let k := Z.to_nat (total - n) in
  (next_n m (mkReader (Some (mkFILE (pre ++ concat recs ++ tail) (Z.of_nat (length pre)) limit)) total n)).1 =
    take m (Some <$> (decode_record <$> take k recs)) ++ replicate (m - length (take k recs)) None.
Proof.
  induction m as [|m IH]; intros recs pre n Hall Ht Hwt Hwn k; [done|].
  destruct (decide (total ≤ n)) as [Hle|Hgt].
  { replace k with 0%nat by (unfold k; lia). cbn [take fmap list_fmap app length].
    rewrite Nat.sub_0_r. apply next_n_exhausted; [by left|]. rewrite length_app. lia. }
  destruct recs as [|rec recs].
  { rewrite take_nil. cbn [fmap list_fmap]. rewrite take_nil. cbn [app length concat]. rewrite Nat.sub_0_r.
    apply next_n_exhausted; rewrite ?length_app; [right|]; lia. }
  apply Forall_cons in Hall as [Hrec Hall]. cbn [concat next_n]. rewrite <- app_assoc.
  unfold in_width in Hwt, Hwn. rewrite next_record by (done || unfold in_width; lia).
  specialize (IH recs (pre ++ rec) (n + 1) Hall Ht Hwt ltac:(unfold in_width; lia)). cbv zeta in IH.
  rewrite <- app_assoc in IH. destruct (next_n m _) as [os r]. cbn [fst] in *. rewrite IH.
  replace k with (S (Z.to_nat (total - (n + 1)))) by (unfold k; lia). done.
Qed.

(** Opening a file that is long enough for a header. *)
Lemma open_fields magic version pad count body r :
  length magic = 8%nat → length version = 4%nat → length pad = 4%nat → length count = 8%nat →
  let hdr := magic ++ version ++ pad ++ count in
  PcapReader_open (Some (fopen_rb (hdr ++ body))) r =
    if bool_decide (le_value magic ≠ kMagic) || bool_decide (le_value version ≠ kVersion)
    then (false, PcapReader_init)
    else (true, mkReader (Some (mkFILE (hdr ++ body) (Z.of_nat (length hdr)) (Z.of_nat (length (hdr ++ body)))))
                  (le_value count) 0).
Proof.
  intros H1 H2 H3 H4 hdr. unfold PcapReader_open, fopen_rb.
  assert (Hcat : hdr = concat [magic; version; pad; count]) by (unfold hdr; cbn; by rewrite app_nil_r).
  pose proof (fread_seq_some [magic; version; pad; count] [] body (Z.of_nat (length (hdr ++ body)))) as Hr.
  rewrite <- Hcat in Hr. cbn [app fmap list_fmap] in Hr. rewrite H1, H2, H3, H4 in Hr.
  change (fread_seq [Z.of_nat 8; Z.of_nat 4; Z.of_nat 4; Z.of_nat 8]) with (fread_seq [8; 4; 4; 8]) in Hr.
  change (Z.of_nat (length (@nil Z))) with 0 in Hr. by rewrite Hr.
Qed.

Lemma open_header count body r :
  in_width 64 count →
  PcapReader_open (Some (fopen_rb (header_bytes count ++ body))) r =
    (true, mkReader (Some (mkFILE (header_bytes count ++ body) (Z.of_nat (length (header_bytes count)))
                             (Z.of_nat (length (header_bytes count ++ body))))) count 0).
Proof.
  intros Hc. unfold header_bytes. rewrite open_fields by apply length_le_bytes.
  rewrite (le_roundtrip 8 64 kMagic), (le_roundtrip 4 32 kVersion), (le_roundtrip 8 64 count)
    by (done || unfold in_width, kMagic, kVersion; lia).
  by rewrite !bool_decide_false by auto.
Qed.

(** A file too short for a header. *)
Lemma open_short bytes r :
  (length bytes < 24)%nat → PcapReader_open (Some (fopen_rb bytes)) r = (false, PcapReader_init).
Proof.
  intros Hl. unfold PcapReader_open, fopen_rb. rewrite fread_seq_none; [done|lia| |change (foldr Z.add 0 _) with 24; lia].
  repeat (apply Forall_cons; split; [done|]). by apply Forall_nil.
Qed.

Lemma decode_of_record ev : event_typed ev → decode_record (record ev) = captured ev.
Proof.
  intros [Hi Hr _ _ _ Hl _ [Hyl Hyb]]. unfold decode_record, captured, record, record_fields. cbn [concat].
  rewrite app_nil_r. f_equal.
  1-3: repeat (rewrite field_at_skip with (k := 8%nat) by (rewrite ?length_le_bytes; lia); cbn [Nat.sub]).
  1-3: rewrite field_at_here by (by rewrite length_le_bytes); by eapply le_roundtrip; [|eassumption].
  do 2 (rewrite field_at_skip with (k := 8%nat) by (rewrite ?length_le_bytes; lia); cbn [Nat.sub]).
  rewrite field_at_skip with (k := 2%nat) by (rewrite ?length_le_bytes; lia). cbn [Nat.sub].
  rewrite field_at_skip with (k := 6%nat) by (done || lia). cbn [Nat.sub].
  rewrite <- (app_nil_r (ev_payload ev)) at 1. by apply field_at_here.
Qed.

(** The beginning of a sequence of records: whole records and a rest. *)
Lemma records_prefix recs : ∀ n,
  Forall (λ rec : list Z, length rec = 88%nat) recs →
  ∃ tail, take n (concat recs) = concat (take (length recs `min` (n / 88)) recs) ++ tail ∧ (length tail < 88)%nat.
Proof.
  induction recs as [|rec recs IH]; intros n Hall; [exists []; split; [cbn; by rewrite !take_nil|cbn; lia]|].
  apply Forall_cons in Hall as [Hr Hall]. cbn [length concat]. destruct (decide (88 ≤ n)%nat) as [Hle|Hlt].
  - destruct (IH (n - 88)%nat Hall) as (tail & Ht & Hl). exists tail. split; [|done].
    assert (Hdiv : (n / 88 = S ((n - 88) / 88))%nat).
    { replace n with (1 * 88 + (n - 88))%nat at 1 by lia. by rewrite Nat.div_add_l by lia. }
    rewrite Hdiv, <- Nat.succ_min_distr. cbn [take concat]. rewrite take_app_ge by lia. by rewrite Hr, Ht, app_assoc.
  - exists (take n rec). rewrite (Nat.div_small n), Nat.min_0_r by lia. cbn [take concat app].
    rewrite take_app_le by lia. split; [done|]. rewrite length_take. lia.
Qed.

(** The body of a capture that ran out of room: the records that fit and a
    fragment. *)
Lemma written_body evs n :
  Forall (λ ev, length (ev_payload ev) = 64%nat) evs →
  ∃ tail, take n (concat (record <$> evs)) = concat (record <$> take (length evs `min` (n / 88)) evs) ++ tail ∧
    (length tail < 88)%nat.
Proof.
  intros Hpl. destruct (records_prefix (record <$> evs) n) as (tail & Hb & Ht).
  { apply Forall_fmap. eapply Forall_impl; [exact Hpl|]. apply length_record. }
  exists tail. rewrite length_fmap in Hb. by rewrite fmap_take.
Qed.

Lemma typed_payloads evs : Forall event_typed evs → Forall (λ ev, length (ev_payload ev) = 64%nat) evs.
Proof. intros H. eapply Forall_impl; [exact H|]. intros ev Hev. apply (et_payload ev Hev). Qed.

Lemma typed_records evs : Forall event_typed evs → Forall (λ rec, length rec = 88%nat) (record <$> evs).
Proof. intros H. apply Forall_fmap. eapply Forall_impl; [by apply typed_payloads|]. apply length_record. Qed.

Lemma decode_records evs : Forall event_typed evs → decode_record <$> (record <$> evs) = captured <$> evs.
Proof.
  induction 1 as [|ev evs Hev _ IH]; [done|]. rewrite !fmap_cons, IH. by rewrite decode_of_record.
Qed.

(** What a reader finds: with any number in the header it yields the whole
    records up to that number. *)
Lemma written_file_reads evs n total r0 :
  Forall event_typed evs → in_width 64 total →
  let k := (Z.to_nat total `min` (length evs `min` (n / 88)))%nat in
  ∃ r, PcapReader_open (Some (fopen_rb (header_bytes total ++ take n (concat (record <$> evs))))) r0 = (true, r) ∧
    total_events_ r = total ∧
    ∀ m, (next_n m r).1 = take m (Some <$> (captured <$> take k evs)) ++ replicate (m - k) None.
Proof.
  intros Hty Hw k. destruct (written_body evs n) as (tail & -> & Htail); [by apply typed_payloads|].
  rewrite open_header by done. eexists. split; [done|]. split; [done|]. intros m.
  rewrite next_n_records; [|by apply typed_records, Forall_take|done|done|done].
  rewrite Z.sub_0_r, <- !(fmap_take record), take_take, length_fmap, length_take. fold k. rewrite (Nat.min_l k) by lia.
  by rewrite decode_records by (by apply Forall_take).
Qed.

(** ** Properties *)


(** Three events on a disk with room for two and a half: with a buffer of
    4096 bytes all are accepted and none is read back, without a buffer two
    are. *)
Definition sample_events : list FeedEvent := [sample_event; event_zero; sample_event].

Lemma sample_events_typed : Forall event_typed sample_events.
Proof.
  assert (event_typed sample_event) by (split; try (apply (bool_decide_unpack _); vm_compute; reflexivity)).
  repeat (apply Forall_cons; split; [auto using event_zero_typed|]). by apply Forall_nil.
Qed.


(** C37: the reader is total on arbitrary files: [open] accepts exactly the
    files with a full header, the magic and the version, and a refused file
    leaves the reader closed and empty; an accepted one yields, in order, as
    many records as the header declares and the file wholly contains --
    a lying count or a truncated last record ends the stream early, never
    with a partial event -- and then nothing, however often it is asked. *)
Theorem reader_any_file (bytes : list Z) (r0 : PcapReader) :
  Forall is_byte bytes →
  let valid := (24 ≤ length bytes)%nat ∧ le_value (field_at bytes 0 8) = kMagic ∧
               le_value (field_at bytes 8 4) = kVersion in
  (¬ valid → PcapReader_open (Some (fopen_rb bytes)) r0 = (false, PcapReader_init)) ∧
  (valid → ∃ r, PcapReader_open (Some (fopen_rb bytes)) r0 = (true, r) ∧
     total_events_ r = le_value (field_at bytes 16 8) ∧
     ∀ recs tail m, drop 24 bytes = concat recs ++ tail → Forall (λ rec, length rec = 88%nat) recs →
       (length tail < 88)%nat →
       let k := Z.to_nat (total_events_ r) in
       (next_n m r).1 = take m (Some <$> (decode_record <$> take k recs)) ++ replicate (m - length (take k recs)) None).
Proof.
  intros Hb valid. destruct (decide (24 ≤ length bytes)%nat) as [Hlen|Hlen].
  2: { split; [intros _; apply open_short; lia|]. by intros [? _]. }
  assert (Hf : ∀ off n, (off + n ≤ 24)%nat → length (field_at bytes off n) = n).
  { intros off n Hon. unfold field_at. rewrite length_take, length_drop. lia. }
  assert (Hsplit : bytes = (field_at bytes 0 8 ++ field_at bytes 8 4 ++ field_at bytes 12 4 ++ field_at bytes 16 8) ++ drop 24 bytes).
  { unfold field_at. change (drop 24 bytes) with (drop (16 + 8) bytes). rewrite <- !app_assoc, <- drop_drop, take_drop.
    change (drop 16 bytes) with (drop (12 + 4) bytes). rewrite <- drop_drop, take_drop.
    change (drop 12 bytes) with (drop (8 + 4) bytes). rewrite <- drop_drop, take_drop.
    change (drop 8 bytes) with (drop (0 + 8) bytes). by rewrite <- drop_drop, take_drop. }
  pose proof (open_fields _ _ _ _ (drop 24 bytes) r0 (Hf 0 8 ltac:(lia)) (Hf 8 4 ltac:(lia)) (Hf 12 4 ltac:(lia)) (Hf 16 8 ltac:(lia)))%nat as Ho.
  cbv zeta in Ho. rewrite <- Hsplit in Ho. rewrite Ho. clear Ho.
  destruct (decide (le_value (field_at bytes 0 8) = kMagic)) as [Hm|Hm], (decide (le_value (field_at bytes 8 4) = kVersion)) as [Hv|Hv].
  2-4: (split; [intros _|by intros (_ & ? & ?)]).
  - split; [by intros []|]. intros _. rewrite !bool_decide_false by auto. eexists. split; [done|]. split; [done|].
    intros recs tail m Hd Hr Ht. cbn [total_events_].
    pose proof (next_n_records (le_value (field_at bytes 16 8)) (Z.of_nat (length bytes)) tail m recs
      (field_at bytes 0 8 ++ field_at bytes 8 4 ++ field_at bytes 12 4 ++ field_at bytes 16 8) 0 Hr Ht) as Hn.
    cbv zeta in Hn. rewrite <- Hd, <- Hsplit, Z.sub_0_r in Hn. apply Hn; [|done].
    pose proof (le_value_bound (field_at bytes 16 8)) as Hbd. rewrite Hf in Hbd by lia. apply Hbd.
    by apply Forall_take, Forall_drop.
  - by rewrite (bool_decide_true (_ ≠ kVersion)), orb_true_r.
  - by rewrite (bool_decide_true (_ ≠ kMagic)).
  - by rewrite (bool_decide_true (_ ≠ kMagic)).
Qed.

(** A file that declares five events and holds one and a half. *)
Definition truncated_file : list Z := header_bytes 5 ++ record sample_event ++ take 44 (record event_zero).

Lemma reader_any_file_witness :
  ∃ r, PcapReader_open (Some (fopen_rb truncated_file)) PcapReader_init = (true, r) ∧
    (next_n 3 r).1 = [Some (captured sample_event); None; None].
Proof.
  destruct (reader_any_file truncated_file PcapReader_init) as [_ H].
  - apply (bool_decide_unpack _). vm_compute. reflexivity.
  - destruct H as (r & Ho & Ht & Hn).
    + split; [apply Nat.leb_le; vm_compute; reflexivity|]. split; vm_compute; reflexivity.
    + exists r. split; [exact Ho|].
      specialize (Hn [record sample_event] (take 44 (record event_zero)) 3%nat). rewrite Ht in Hn. rewrite Hn.
      * vm_compute. reflexivity.
      * reflexivity.
      * repeat constructor.
      * apply Nat.ltb_lt. vm_compute. reflexivity.
Defined.

(** A failed [write_event] spoils the next one: if, without a buffer, the disk fills up in
    the middle of a record and has room again at the next call, that call
    succeeds and is counted, but the file holds the fragment in front of it,
    so the reader's first event is the beginning of the lost event spliced
    with the beginning of the written one. *)
Theorem failed_write_spoils_next (e1 e2 : FeedEvent) (p : nat) (limit : Z) (r0 : PcapReader) :
  event_typed e1 → event_typed e2 → (0 < p < 88)%nat → 24 + Z.of_nat p + 88 ≤ limit →
  ∃ f2 w3 file r, write_event e1 (PcapWriter_ctor (Some (fopen_wb unbuffered (24 + Z.of_nat p)))) = (false, mkWriter (Some (mkStream f2 [] unbuffered)) 0) ∧
    write_event e2 (mkWriter (Some (mkStream (mkFILE (f_bytes f2) (f_pos f2) limit) [] unbuffered)) 0) = (true, w3) ∧
    (PcapWriter_close w3).1 = Some file ∧ PcapReader_open (Some (fopen_rb file)) r0 = (true, r) ∧
    (next_n 2 r).1 = [Some (decode_record (take p (record e1) ++ take (88 - p) (record e2))); None].
Proof.
  intros H1 H2 Hp Hlim.
  pose proof (length_record e1 (proj1 (et_payload e1 H1))) as L1.
  pose proof (length_record e2 (proj1 (et_payload e2 H2))) as L2.
  set (f := append (mkFILE [] 0 (24 + Z.of_nat p)) (header_bytes 0)).
  assert (Hf : at_end f).
  { apply append_at_end; [unfold at_end; cbn; lia|]. rewrite length_header_bytes. unfold room. cbn. lia. }
  assert (Hroom : room f = p).
  { unfold f. rewrite room_append, length_header_bytes. unfold room. cbn. lia. }
  unfold PcapWriter_ctor. cbn [fmap option_fmap option_map]. rewrite write_header_fresh by lia. fold f.
  set (part := take p (record e1)). set (f2 := append f part).
  assert (Hpart : length part = p) by (unfold part; rewrite length_take; lia).
  exists f2. set (f3 := mkFILE (f_bytes f2) (f_pos f2) limit).
  assert (Hpos : f_pos f2 = 24 + Z.of_nat p).
  { unfold f2, f. cbn. rewrite Hpart. by change (length (header_bytes 0)) with 24%nat. }
  assert (Hf3 : at_end f3).
  { split; cbn [f3 f_pos f_bytes f_limit]; [|lia]. destruct (append_at_end f part Hf) as [He _]; [lia|exact He]. }
  assert (Hroom3 : (88 ≤ room f3)%nat) by (unfold room, f3; cbn [f_pos f_limit]; lia).
  exists (mkWriter (Some (mkStream (append f3 (record e2)) [] unbuffered)) 1).
  eexists _, _. split; [|split; [|split; [|split]]].
  - unfold write_event. cbn [w_file_ w_count_]. rewrite fwrite_seq_end by done. fold (record e1).
    by rewrite L1, Hroom, bool_decide_false by lia.
  - unfold write_event. cbn [w_file_ w_count_]. rewrite fwrite_seq_end by done. fold (record e2).
    by rewrite L2, bool_decide_true, take_ge by lia.
  - rewrite (close_any limit (part ++ record e2)); [|lia|left].
    + rewrite flush_empty, take_ge by (done || (rewrite length_app; lia)). done.
    + split; [apply append_at_end; [done|lia]|done|]. cbn [os_file os_pending]. rewrite app_nil_r.
      cbn [f3 f2 f f_bytes append app]. by rewrite <- app_assoc.
  - apply open_header. done.
  - pose proof (next_n_records 1 (Z.of_nat (length (header_bytes 1 ++ part ++ record e2))) (drop (88 - p) (record e2)) 2
      [part ++ take (88 - p) (record e2)] (header_bytes 1) 0) as Hn.
    cbn [concat] in Hn. rewrite app_nil_r, <- (app_assoc part), take_drop in Hn. apply Hn.
    + apply Forall_singleton. rewrite length_app, length_take. lia.
    + rewrite length_drop. lia.
    + done.
    + done.
Qed.

Lemma failed_write_spoils_next_witness :
  ∃ f2 w3 file r, write_event sample_event (PcapWriter_ctor (Some (fopen_wb unbuffered 34))) = (false, mkWriter (Some (mkStream f2 [] unbuffered)) 0) ∧
    write_event event_zero (mkWriter (Some (mkStream (mkFILE (f_bytes f2) (f_pos f2) 1000) [] unbuffered)) 0) = (true, w3) ∧
    (PcapWriter_close w3).1 = Some file ∧ PcapReader_open (Some (fopen_rb file)) PcapReader_init = (true, r) ∧
    (next_n 2 r).1 = [Some (decode_record (take 10 (record sample_event) ++ take 78 (record event_zero))); None].
Proof.
  apply (failed_write_spoils_next sample_event event_zero 10 1000 PcapReader_init).
  - exact (Forall_inv sample_events_typed).
  - exact event_zero_typed.
  - lia.
  - vm_compute. discriminate.
Defined.
