(* ===== verification/Sender.v ===== *)
(** * SyntheticSender: the stamped datagram source

    Model of [include/ultrafast/synthetic_sender.hpp]: the constructor with
    its seven error paths over the process's descriptor table and network
    namespace, the destructor, and the sending of stamped datagrams. *)

From S2P Require Import Prelude Queue RingBuffer FeedEvent Packet Xsk Umem XdpSocket FeedHandler.

(** ** The process *)

(** What a descriptor refers to: a network namespace, or a datagram socket
    created in one. *)
Inductive fd_object : Type := NsFd (ns : Z) | SockFd (ns : Z).

Record os : Type := mkOs { o_fds : gmap Z fd_object; o_ns : Z }.

(** The exceptions, by the text that varies. *)
Inductive sender_error : Type :=
| OpenSelfNsFailed
| OpenNsFailed (ns_name : string)
| SetNsFailed (ns_name : string) (err : Z)
| SocketFailed
| InvalidSrcIp (src_ip : string)
| BindFailed (src_ip : string)
| InvalidDstIp (dst_ip : string)
| SendFailed (err : Z).

(** The answers of the system calls and of [inet_pton]: a new descriptor
    with the namespace it refers to, an error code, or a network-order
    address; and the time. *)
Class SenderKernel := {
  open_answer : os → string → option (Z * Z);
  setns_answer : os → Z → Z;
  socket_answer : os → option Z;
  bind_answer : os → Z → Z → bool;
  inet_pton : string → option Z;
  open_fresh o p fd ns : open_answer o p = Some (fd, ns) → 0 ≤ fd ∧ o_fds o !! fd = None;
  open_self o fd ns : open_answer o "/proc/self/ns/net" = Some (fd, ns) → ns = o_ns o;
  socket_fresh o fd : socket_answer o = Some fd → 0 ≤ fd ∧ o_fds o !! fd = None;
}.

(** ** System calls *)

Section Operations.
Context `{!SenderKernel}.

(** A failed call returns a negative descriptor. *)
Definition sys_open (path : string) (o : os) : Z * os :=
  match open_answer o path with
  | Some (fd, ns) => (fd, mkOs (<[fd := NsFd ns]> (o_fds o)) (o_ns o))
  | None => (-1, o)
  end.

(** [close] of a descriptor that is not open is a double close. *)
Definition sys_close (fd : Z) (o : os) : outcome os :=
  match o_fds o !! fd with
  | Some _ => Ret (mkOs (delete fd (o_fds o)) (o_ns o))
  | None => Undef
  end.

(** [setns(fd, CLONE_NEWNET)]: 0 and the thread is in the namespace, or an
    error code ([errno]) and it stays where it was. *)
Definition sys_setns (fd : Z) (o : os) : outcome (Z * os) :=
  match o_fds o !! fd with
  | Some (NsFd ns) =>
      let ret := setns_answer o fd in
      Ret (ret, if bool_decide (ret = 0) then mkOs (o_fds o) ns else o)
  | _ => Undef
  end.

Definition sys_socket (o : os) : Z * os :=
  match socket_answer o with
  | Some fd => (fd, mkOs (<[fd := SockFd (o_ns o)]> (o_fds o)) (o_ns o))
  | None => (-1, o)
  end.

(** ** The object *)

Record SyntheticSender : Type := mkSender {
  sock_fd_ : Z;
  dst_sin_port : Z;    (* dst_addr_.sin_port, network order *)
  dst_sin_addr : Z;    (* dst_addr_.sin_addr *)
}.

(** The block that leaves the namespace, the same on every path; the result
    of [setns] is not looked at. *)
Definition restore_ns (saved_ns_fd : Z) (o : os) : outcome os :=
  if bool_decide (0 ≤ saved_ns_fd) then
    '(_, o1) ← sys_setns saved_ns_fd o;
    sys_close saved_ns_fd o1
  else Ret o.

(** The first block of the constructor: [saved_ns_fd] on success. *)
Definition enter_ns (ns_name : string) (o : os) : outcome ((sender_error + Z) * os) :=
  if bool_decide (ns_name ≠ "")%string then
    let '(saved_ns_fd, o1) := sys_open "/proc/self/ns/net" o in
    if bool_decide (saved_ns_fd < 0) then Ret (inl OpenSelfNsFailed, o1)
    else
      let '(ns_fd, o2) := sys_open ("/var/run/netns/" ++ ns_name) o1 in
      if bool_decide (ns_fd < 0) then
        o3 ← sys_close saved_ns_fd o2; Ret (inl (OpenNsFailed ns_name), o3)
      else
        '(ret, o3) ← sys_setns ns_fd o2;
        if bool_decide (ret ≠ 0) then
          o4 ← sys_close ns_fd o3; o5 ← sys_close saved_ns_fd o4;
          Ret (inl (SetNsFailed ns_name ret), o5)
        else o4 ← sys_close ns_fd o3; Ret (inr saved_ns_fd, o4)
  else Ret (inr (-1), o).

(** Creating, binding and addressing the socket, in the namespace the thread
    is in. *)
Definition make_socket (src_ip dst_ip : string) (dst_port saved_ns_fd : Z) (o : os)
    : outcome ((sender_error + SyntheticSender) * os) :=
  let '(sock_fd, o1) := sys_socket o in
  if bool_decide (sock_fd < 0) then
    o2 ← restore_ns saved_ns_fd o1; Ret (inl SocketFailed, o2)
  else
    let fail e := (o2 ← sys_close sock_fd o1; o3 ← restore_ns saved_ns_fd o2; Ret (inl e, o3)) in
    match inet_pton src_ip with
    | None => fail (InvalidSrcIp src_ip)
    | Some src =>
        if negb (bind_answer o1 sock_fd src) then fail (BindFailed src_ip)
        else
          match inet_pton dst_ip with
          | None => fail (InvalidDstIp dst_ip)
          | Some dst =>
              o2 ← restore_ns saved_ns_fd o1;
              Ret (inr (mkSender sock_fd (htons dst_port) dst), o2)
          end
    end.

Definition SyntheticSender_ctor (src_ip dst_ip : string) (dst_port : Z) (ns_name : string) (o : os)
    : outcome ((sender_error + SyntheticSender) * os) :=
  '(r, o1) ← enter_ns ns_name o;
  match r with
  | inl e => Ret (inl e, o1)
  | inr saved_ns_fd => make_socket src_ip dst_ip dst_port saved_ns_fd o1
  end.

Definition SyntheticSender_dtor (s : SyntheticSender) (o : os) : outcome os :=
  if bool_decide (0 ≤ sock_fd_ s) then sys_close (sock_fd_ s) o else Ret o.
End Operations.

(** ** Sending *)

(** A datagram handed to [sendto]: the socket, the destination, the bytes. *)
Record datagram : Type := mkDatagram { dg_fd : Z; dg_port : Z; dg_addr : Z; dg_bytes : list Z }.

Definition sender_clock_ns : timespec → Z := clock_ns.

(** The 64-byte buffer: zeroed, then the timestamp, then the filler. *)
Definition datagram_bytes (ts : Z) : list Z :=
  let buf := replicate 64 0 in
  let buf := memcpy buf (le_bytes 8 ts) in
  take 8 buf ++ replicate (64 - 8) 171.

(** [send_one]; [now] is the clock reading and [ret] the result of
    [sendto], the error code negated when it fails. *)
Definition send_one (now : timespec) (ret : Z) (s : SyntheticSender) : (sender_error + Z) * datagram :=
  let ts := sender_clock_ns now in
  let d := mkDatagram (sock_fd_ s) (dst_sin_port s) (dst_sin_addr s) (datagram_bytes ts) in
  if bool_decide (ret < 0) then (inl (SendFailed (- ret)), d) else (inr ts, d).

(** [send_burst]: [env] gives, for the [i]-th datagram, the clock and the
    result of [sendto].  The exception leaves the loop; the log holds the
    datagrams handed over and the sleeps in microseconds. *)
Inductive burst_event : Type := Sent (d : datagram) | Slept (us : Z).

Fixpoint burst_loop (n : nat) (i : Z) (inter_us : Z) (env : Z → timespec * Z) (s : SyntheticSender)
    : option sender_error * list burst_event :=
  match n with
  | O => (None, [])
  | S n =>
      match send_one (env i).1 (env i).2 s with
      | (inl e, d) => (Some e, [Sent d])
      | (inr _, d) =>
          let sleep := if bool_decide (inter_us > 0) then [Slept (u32 inter_us)] else [] in
          let '(r, log) := burst_loop n (i + 1) inter_us env s in
          (r, Sent d :: sleep ++ log)
      end
  end.

Definition send_burst (count inter_us : Z) (env : Z → timespec * Z) (s : SyntheticSender) :=
  burst_loop (Z.to_nat count) 0 inter_us env s.

(** ** Lemmas *)

Section Facts.
Context `{!SenderKernel}.

(** The thread may always go back to the namespace [ns] it came from. *)
Definition restores (ns : Z) : Prop := ∀ o fd, o_fds o !! fd = Some (NsFd ns) → setns_answer o fd = 0.

Lemma sys_open_cases p o :
  (sys_open p o = (-1, o)) ∨
  ∃ fd ns, 0 ≤ fd ∧ o_fds o !! fd = None ∧ sys_open p o = (fd, mkOs (<[fd := NsFd ns]> (o_fds o)) (o_ns o)) ∧
    open_answer o p = Some (fd, ns) ∧ (p = "/proc/self/ns/net"%string → ns = o_ns o).
Proof.
  unfold sys_open. destruct (open_answer o p) as [[fd ns]|] eqn:Ha; [right|by left].
  destruct (open_fresh o p fd ns Ha) as [H1 H2]. exists fd, ns. split_and!; try done.
  intros ->. by eapply open_self.
Qed.

Lemma sys_close_ok fd x o : o_fds o !! fd = Some x → sys_close fd o = Ret (mkOs (delete fd (o_fds o)) (o_ns o)).
Proof. intros Ho. unfold sys_close. by rewrite Ho. Qed.

(** [ns] is the namespace that the name [ns_name] stands for: the one the
    constructor gets when it opens the file of that name, after that of its
    own namespace; without a name, its own. *)
Definition named_ns (ns_name : string) (o : os) (ns : Z) : Prop :=
  if bool_decide (ns_name = "")%string then ns = o_ns o
  else ∃ saved fd, open_answer o "/proc/self/ns/net" = Some (saved, o_ns o) ∧
    open_answer (mkOs (<[saved := NsFd (o_ns o)]> (o_fds o)) (o_ns o)) ("/var/run/netns/" ++ ns_name) = Some (fd, ns).

(** Where the constructor stands after the first block: it threw and left
    nothing behind, or the thread is in the chosen namespace and, if that is
    not the old one, holds a descriptor of the old one. *)
Lemma enter_ns_cases ns_name o :
  ∃ r o1, enter_ns ns_name o = Ret (r, o1) ∧
    match r with
    | inl _ => o1 = o
    | inr saved => named_ns ns_name o (o_ns o1) ∧
        (saved = -1 ∧ o1 = o ∨
         0 ≤ saved ∧ o_fds o !! saved = None ∧ o_fds o1 = <[saved := NsFd (o_ns o)]> (o_fds o))
    end.
Proof.
  unfold enter_ns, named_ns. case_bool_decide as Hn.
  2: { eexists _, _. split; [done|]. rewrite bool_decide_true by (by destruct (decide (ns_name = "")%string)). split; [done|by left]. }
  rewrite (bool_decide_false (ns_name = "")%string) by done.
  destruct (sys_open_cases "/proc/self/ns/net" o) as [->|(fd & ns & Hfd & Hfresh & -> & Hopen & Hself)].
  { rewrite bool_decide_true by lia. by eexists _, _. }
  rewrite Hself in * by done. clear Hself ns. rewrite bool_decide_false by lia. set (o1 := mkOs _ _).
  destruct (sys_open_cases ("/var/run/netns/" ++ ns_name) o1) as [->|(nfd & nns & Hnfd & Hnfresh & -> & Hnopen & _)].
  { rewrite bool_decide_true by lia. rewrite (sys_close_ok fd (NsFd (o_ns o))) by (cbn; by rewrite lookup_insert_eq). ub_step.
    eexists _, _; split; [done|]. cbn. rewrite delete_insert_id by done. by destruct o. }
  cbn in Hnfresh. apply lookup_insert_None in Hnfresh as [Hnf Hne].
  rewrite bool_decide_false by lia. unfold sys_setns. cbn [o_fds]. rewrite lookup_insert_eq. ub_step.
  set (o2 := mkOs (<[nfd := NsFd nns]> _) _). destruct (decide (setns_answer o2 nfd = 0)) as [Hz|Hz].
  - rewrite Hz, (bool_decide_true (0 = 0)), (bool_decide_false (0 ≠ 0)) by (try done; by intros []).
    rewrite (sys_close_ok nfd (NsFd nns)) by (cbn; by rewrite lookup_insert_eq). ub_step.
    eexists _, _; split; [done|]. split; [by exists fd, nfd|]. right. cbn. split_and!; try done.
    by rewrite delete_insert_id by (rewrite lookup_insert_ne; done).
  - rewrite (bool_decide_true (_ ≠ 0)), (bool_decide_false (_ = 0)) by done.
    rewrite (sys_close_ok nfd (NsFd nns)) by (cbn; by rewrite lookup_insert_eq). ub_step. cbn [o2 o1 o_fds o_ns].
    rewrite delete_insert_id by (rewrite lookup_insert_ne; done).
    rewrite (sys_close_ok fd (NsFd (o_ns o))) by (cbn; by rewrite lookup_insert_eq). ub_step.
    eexists _, _; split; [done|]. cbn. rewrite delete_insert_id by done. by destruct o.
Qed.

(** Leaving the namespace again: the descriptor is closed and, since
    returning works, the thread is back. *)
Lemma restore_ns_ok saved ns o :
  restores ns → 0 ≤ saved → o_fds o !! saved = Some (NsFd ns) →
  restore_ns saved o = Ret (mkOs (delete saved (o_fds o)) ns).
Proof.
  intros Hres Hs Ho. unfold restore_ns, sys_setns. rewrite bool_decide_true, Ho by done. ub_step.
  rewrite bool_decide_true by (by apply (Hres o saved)). by rewrite (sys_close_ok saved (NsFd ns)).
Qed.

(** The second block, from a state that owes [saved] to the old one. *)
Lemma make_socket_cases src_ip dst_ip port saved o o1 :
  restores (o_ns o) →
  (saved = -1 ∧ o1 = o) ∨
  (0 ≤ saved ∧ o_fds o !! saved = None ∧ o_fds o1 = <[saved := NsFd (o_ns o)]> (o_fds o)) →
  ∃ r o2, make_socket src_ip dst_ip port saved o1 = Ret (r, o2) ∧
    match r with
    | inl _ => o2 = o
    | inr s => 0 ≤ sock_fd_ s ∧ o_fds o !! sock_fd_ s = None ∧
        o2 = mkOs (<[sock_fd_ s := SockFd (o_ns o1)]> (o_fds o)) (o_ns o) ∧
        dst_sin_port s = htons port ∧ inet_pton dst_ip = Some (dst_sin_addr s)
    end.
Proof.
  intros Hres Hsaved.
  assert (Hleave : restore_ns saved o1 = Ret o).
  { destruct Hsaved as [[-> ->]|(Hs & Hf & Ho1)]; [done|].
    rewrite (restore_ns_ok saved (o_ns o)); [|done|done|by rewrite Ho1, lookup_insert_eq].
    rewrite Ho1, delete_insert_id by done. by destruct o. }
  unfold make_socket, sys_socket. destruct (socket_answer o1) as [fd|] eqn:Hsk.
  2: { rewrite bool_decide_true by lia. rewrite Hleave. ub_step. by eexists _, _. }
  destruct (socket_fresh o1 fd Hsk) as [Hfd Hfresh]. rewrite bool_decide_false by lia.
  set (o1' := mkOs (<[fd := SockFd (o_ns o1)]> (o_fds o1)) (o_ns o1)).
  assert (Hclose : sys_close fd o1' = Ret o1).
  { rewrite (sys_close_ok fd (SockFd (o_ns o1))) by (cbn; by rewrite lookup_insert_eq). cbn.
    rewrite delete_insert_id by done. by destruct o1. }
  destruct (inet_pton src_ip) as [src|]; [|rewrite Hclose; ub_step; rewrite Hleave; ub_step; by eexists _, _].
  destruct (bind_answer o1' fd src); cbn [negb]; [|rewrite Hclose; ub_step; rewrite Hleave; ub_step; by eexists _, _].
  destruct (inet_pton dst_ip) as [dst|] eqn:Hd; [|rewrite Hclose; ub_step; rewrite Hleave; ub_step; by eexists _, _].
  assert (Hleave' : restore_ns saved o1' = Ret (mkOs (<[fd := SockFd (o_ns o1)]> (o_fds o)) (o_ns o)) ∧ o_fds o !! fd = None).
  { destruct Hsaved as [[-> ->]|(Hs & Hf & Ho1)]; [done|].
    rewrite Ho1 in Hfresh. apply lookup_insert_None in Hfresh as [Hfo Hne]. split; [|done].
    rewrite (restore_ns_ok saved (o_ns o)); [|done|done|cbn; by rewrite lookup_insert_ne, Ho1, lookup_insert_eq by done].
    cbn. rewrite delete_insert_ne by done. by rewrite Ho1, delete_insert_id. }
  destruct Hleave' as [-> Hfo]. ub_step. eexists _, _. split; [done|]. by split_and!.
Qed.
(** The constructor and the destructor together. *)
Lemma sender_ctor_cases src_ip dst_ip dst_port ns_name o :
  restores (o_ns o) →
  ∃ r o', SyntheticSender_ctor src_ip dst_ip dst_port ns_name o = Ret (r, o') ∧
    match r with
    | inl _ => o' = o
    | inr s => ∃ ns, named_ns ns_name o ns ∧
        o_fds o !! sock_fd_ s = None ∧
        o' = mkOs (<[sock_fd_ s := SockFd ns]> (o_fds o)) (o_ns o) ∧
        dst_sin_port s = htons dst_port ∧ inet_pton dst_ip = Some (dst_sin_addr s) ∧
        SyntheticSender_dtor s o' = Ret o
    end.
Proof.
  intros Hres. unfold SyntheticSender_ctor.
  destruct (enter_ns_cases ns_name o) as (r & o1 & -> & Hr). ub_step.
  destruct r as [e|saved]; [by eexists _, _|].
  destruct (make_socket_cases src_ip dst_ip dst_port saved o o1 Hres) as (r & o2 & -> & Hr2).
  { apply Hr. }
  eexists _, _. split; [done|]. destruct r as [e|s]; [done|].
  destruct Hr2 as (Hfd & Hfresh & -> & Hp & Ha). exists (o_ns o1). split_and!; [apply Hr|done..|].
  unfold SyntheticSender_dtor. rewrite bool_decide_true by done.
  rewrite (sys_close_ok _ (SockFd (o_ns o1))) by (cbn; by rewrite lookup_insert_eq). cbn.
  rewrite delete_insert_id by done. by destruct o.
Qed.
End Facts.

(** ** Datagrams: lemmas *)

Lemma datagram_bytes_eq ts : datagram_bytes ts = le_bytes 8 ts ++ replicate 56 171.
Proof.
  unfold datagram_bytes, memcpy. rewrite take_app_length' by (by rewrite length_le_bytes). done.
Qed.

Definition sent (log : list burst_event) : list datagram :=
  omap (λ e, match e with Sent d => Some d | Slept _ => None end) log.

#[global] Arguments send_one : simpl never.

Lemma send_one_datagram now ret s :
  (send_one now ret s).2 =
    mkDatagram (sock_fd_ s) (dst_sin_port s) (dst_sin_addr s) (datagram_bytes (sender_clock_ns now)).
Proof. unfold send_one. by destruct (bool_decide _). Qed.

Lemma burst_loop_sent n inter_us env s : ∀ i,
  let '(r, log) := burst_loop n i inter_us env s in
  ∃ k : nat, (k ≤ n)%nat ∧
    sent log = (λ j, (send_one (env j).1 (env j).2 s).2) <$> seqZ i (Z.of_nat k) ∧
    ((r = None ∧ k = n ∧ ∀ j, i ≤ j < i + Z.of_nat n → 0 ≤ (env j).2) ∨
     (0 < k)%nat ∧ (env (i + Z.of_nat k - 1)).2 < 0 ∧ r = Some (SendFailed (- (env (i + Z.of_nat k - 1)).2)) ∧
       ∀ j, i ≤ j < i + Z.of_nat k - 1 → 0 ≤ (env j).2).
Proof.
  induction n as [|n IH]; intros i; cbn [burst_loop].
  { exists 0%nat. split; [lia|]. split; [done|]. left. split_and!; [done|done|lia]. }
  unfold send_one at 1. destruct (decide ((env i).2 < 0)) as [Hneg|Hpos].
  - rewrite bool_decide_true by done. exists 1%nat. split; [lia|]. split.
    + change (seqZ i (Z.of_nat 1)) with [i]. cbn. by rewrite send_one_datagram.
    + right. replace (i + Z.of_nat 1 - 1) with i by lia. split_and!; [lia|done|done|lia].
  - rewrite bool_decide_false by done. specialize (IH (i + 1)).
    destruct (burst_loop n (i + 1) inter_us env s) as [r log]. destruct IH as (k & Hk & Hs & Hr).
    exists (S k). split; [lia|]. split.
    + rewrite Nat2Z.inj_succ, seqZ_cons by lia. cbn [fmap list_fmap].
      replace (Z.pred (Z.succ (Z.of_nat k))) with (Z.of_nat k) by lia. replace (Z.succ i) with (i + 1) by lia.
      rewrite <- Hs, send_one_datagram. destruct (bool_decide (inter_us > 0)); done.
    + destruct Hr as [(-> & -> & Hok)|(Hk0 & Hneg & -> & Hok)]; [left|right].
      * split_and!; [done|done|]. intros j Hj. destruct (decide (j = i)) as [->|]; [lia|]. apply Hok. lia.
      * replace (i + Z.of_nat (S k) - 1) with (i + 1 + Z.of_nat k - 1) by lia. split_and!; [lia|done|done|].
        intros j Hj. destruct (decide (j = i)) as [->|]; [lia|]. apply Hok. lia.
Qed.

(** ** Reference process *)

Definition next_fd (m : gmap Z fd_object) : Z := map_fold (λ k _ acc, Z.max k acc) 0 m + 1.

Lemma next_fd_fresh m : 0 ≤ next_fd m ∧ m !! next_fd m = None.
Proof.
  unfold next_fd.
  set (f := λ (k : Z) (_ : fd_object) acc, Z.max k acc).
  assert (H : 0 ≤ map_fold f 0 m ∧ ∀ k x, m !! k = Some x → k ≤ map_fold f 0 m).
  { apply (map_fold_weak_ind (λ acc m, 0 ≤ acc ∧ ∀ k x, m !! k = Some x → k ≤ acc)).
    - split; [done|]. intros k x Hk. by rewrite lookup_empty in Hk.
    - intros i x m' acc Hi [H0 IH]. unfold f. split; [lia|]. intros k y [[<- _]|[_ Hk]]%lookup_insert_Some; [lia|].
      specialize (IH k y Hk). lia. }
  destruct H as [H0 H]. split; [lia|]. destruct (m !! _) as [x|] eqn:Hx; [|done]. apply H in Hx. lia.
Qed.

Definition demo_setns (o : os) (fd : Z) : Z :=
  match o_fds o !! fd with
  | Some (NsFd ns) => if bool_decide (ns ≤ 2) then 0 else 1
  | _ => 9
  end.

(** Namespace 1 is where the process starts, 2 is called sender_ns, and
    entering any other is refused; 10.11.0.1 is an address of both ends. *)
#[export] Program Instance demo_sender_kernel : SenderKernel := {|
  open_answer (o : os) p :=
    if String.eqb p "/proc/self/ns/net" then Some (next_fd (o_fds o), o_ns o)
    else if String.eqb p "/var/run/netns/sender_ns" then Some (next_fd (o_fds o), 2)
    else if String.eqb p "/var/run/netns/closed_ns" then Some (next_fd (o_fds o), 3) else None;
  setns_answer := demo_setns;
  socket_answer (o : os) := Some (next_fd (o_fds o));
  bind_answer o fd a := bool_decide (a = 16780042);
  inet_pton s :=
    if String.eqb s "10.11.0.1" then Some 16780042 else if String.eqb s "10.11.0.2" then Some 33557258 else None;
|}.
Next Obligation.
  intros o p fd ns. cbn. destruct (String.eqb p _); [intros [= <- <-]; apply next_fd_fresh|].
  destruct (String.eqb p _); [intros [= <- <-]; apply next_fd_fresh|].
  destruct (String.eqb p _); [intros [= <- <-]; apply next_fd_fresh|done].
Qed.
Next Obligation. intros o fd ns. cbn. by intros [= _ <-]. Qed.
Next Obligation. intros o fd. cbn. intros [= <-]. apply next_fd_fresh. Qed.

(** ** Properties *)

(** C35: the sender's constructor leaves nothing behind.  Whatever the system
    calls answer -- as long as the thread can go back to the namespace it
    came from -- it has no undefined behaviour (no descriptor is closed
    twice); when it throws, on any of its seven error paths, the descriptor
    table and the thread's namespace are as they were; when it returns, the
    thread is back in its namespace and exactly one descriptor is new, the
    socket, which was created in the namespace asked for -- that of the file
    of /var/run/netns with the given name, as opened by the constructor, or
    the thread's own if no name is given; and the destructor gives the table
    back.  (The strings of the exceptions are taken to be allocated.) *)
Theorem sender_ctor_balanced `{!SenderKernel} (src_ip dst_ip : string) (dst_port : Z) (ns_name : string) (o : os) :
  restores (o_ns o) →
  ∃ r o', SyntheticSender_ctor src_ip dst_ip dst_port ns_name o = Ret (r, o') ∧
    match r with
    | inl _ => o' = o
    | inr s => ∃ ns, named_ns ns_name o ns ∧
        o_fds o !! sock_fd_ s = None ∧
        o' = mkOs (<[sock_fd_ s := SockFd ns]> (o_fds o)) (o_ns o) ∧
        dst_sin_port s = htons dst_port ∧ inet_pton dst_ip = Some (dst_sin_addr s) ∧
        SyntheticSender_dtor s o' = Ret o
    end.
Proof.
  apply sender_ctor_cases.
Qed.

Definition os0 : os := mkOs ∅ 1.

Lemma os0_restores : restores (o_ns os0).
Proof. intros o fd Ho. cbn. unfold demo_setns. rewrite Ho. reflexivity. Qed.

Lemma os0_sender_ns ns : named_ns "sender_ns" os0 ns → ns = 2.
Proof. intros (saved & fd & _ & Hns). cbn in Hns. by injection Hns. Qed.

Lemma sender_ctor_balanced_witness :
  (∃ s o', SyntheticSender_ctor "10.11.0.1" "10.11.0.2" 9999 "sender_ns" os0 = Ret (inr s, o') ∧
     o_fds o' = {[sock_fd_ s := SockFd 2]} ∧ o_ns o' = 1) ∧
  ∃ r o', SyntheticSender_ctor "10.11.0.1" "bad" 9999 "sender_ns" os0 = Ret (r, o') ∧
    match r with inl _ => o' = os0 | inr _ => False end.
Proof.
  split.
  - destruct (sender_ctor_balanced "10.11.0.1" "10.11.0.2" 9999 "sender_ns" os0 os0_restores) as (r & o' & Hc & Hr).
    destruct r as [e|s]; [vm_compute in Hc; discriminate Hc|]. destruct Hr as (ns & Hns & _ & Ho & _).
    apply os0_sender_ns in Hns. subst ns. exists s, o'. split; [exact Hc|]. subst o'. split; reflexivity.
  - destruct (sender_ctor_balanced "10.11.0.1" "bad" 9999 "sender_ns" os0 os0_restores) as (r & o' & Hc & Hr).
    exists r, o'. split; [exact Hc|]. destruct r as [e|s]; [exact Hr|vm_compute in Hc; discriminate].
Defined.

(** C29: the timestamp survives the whole path: a successful [send_one]
    returns the clock reading it stamped, hands [sendto] a 64-byte datagram
    that starts with it, and when that datagram arrives as the payload of any
    well-formed frame the handler's event carries the same timestamp, all 64
    bytes, and a latency that is exactly the difference of the two clock
    readings. *)
Theorem stamp_reaches_event (s : SyntheticSender) (now : timespec) (ret : Z)
    (f : udp_frame) (pre post : list Z) (n : Z) (rx : timespec) :
  0 ≤ ret → frame_wf f → fr_payload f = dg_bytes (send_one now ret s).2 →
  Z.of_nat (length (frame_bytes f)) ≤ n →
  (send_one now ret s).1 = inr (sender_clock_ns now) ∧
  length (dg_bytes (send_one now ret s).2) = 64%nat ∧
  ∃ ev, make_event (pre ++ frame_bytes f ++ post) (clock_ns rx) (mkPacket (Z.of_nat (length pre)) n) = Ret (Some ev) ∧
    inject_ns ev = sender_clock_ns now ∧ ev_payload_len ev = 64 ∧
    ev_payload ev = dg_bytes (send_one now ret s).2 ∧
    u64 (receive_ns ev - inject_ns ev) = u64 (clock_ns rx - clock_ns now).
Proof.
  intros Hret Hf Hp Hn. unfold send_one in *. rewrite bool_decide_false in * by lia. cbn [fst snd dg_bytes] in *.
  rewrite datagram_bytes_eq in *.
  assert (Hl : length (le_bytes 8 (sender_clock_ns now) ++ replicate 56 171) = 64%nat)
    by (by rewrite length_app, length_le_bytes, length_replicate).
  split_and!; [done|done|]. eexists. split; [by apply make_event_built|].
  assert (Hi : inject_ns (frame_event f (clock_ns rx)) = sender_clock_ns now).
  { unfold frame_event. cbn [inject_ns]. rewrite Hp, Hl, bool_decide_true by lia.
    rewrite take_app_length' by (by rewrite length_le_bytes). apply (le_roundtrip 8 64); [done|apply clock_ns_width]. }
  split_and!; [done| | |by rewrite Hi].
  - unfold frame_event. cbn [ev_payload_len]. by rewrite Hp, Hl.
  - unfold frame_event. cbn [ev_payload]. rewrite Hp, Hl, Nat.sub_diag, app_nil_r. by rewrite take_ge by (by rewrite Hl).
Qed.

Definition demo_sender : SyntheticSender := mkSender 3 3879 33557258.

Lemma stamp_reaches_event_witness :
  ∃ ev, make_event (frame_bytes stamped_frame) (clock_ns (mkTimespec 1235 5)) (mkPacket 0 106) = Ret (Some ev) ∧
    inject_ns ev = 1234567890123.
Proof.
  destruct (stamp_reaches_event demo_sender (mkTimespec 1234 567890123) 64 stamped_frame [] [] 106 (mkTimespec 1235 5))
    as (_ & _ & ev & H & Hi & _).
  - discriminate.
  - split; try (vm_compute; reflexivity).
    + exists 0%nat. split; [reflexivity|lia].
    + split; apply (bool_decide_unpack _); vm_compute; reflexivity.
  - vm_compute. reflexivity.
  - vm_compute. discriminate.
  - exists ev. rewrite app_nil_r in H. split; [exact H|exact Hi].
Defined.

(** A burst sends its datagrams in order, each with its own clock
    reading, until it has sent [count] of them or one [sendto] fails; the
    failure is reported with its error code and nothing is sent after it; a
    count that is not positive sends nothing. *)
Theorem burst_in_order (count inter_us : Z) (env : Z → timespec * Z) (s : SyntheticSender) :
  let '(r, log) := send_burst count inter_us env s in
  ∃ k, 0 ≤ k ≤ Z.max 0 count ∧
    sent log = (λ j, (send_one (env j).1 (env j).2 s).2) <$> seqZ 0 k ∧
    ((r = None ∧ k = Z.max 0 count ∧ ∀ j, 0 ≤ j < k → 0 ≤ (env j).2) ∨
     (0 < k ∧ (env (k - 1)).2 < 0 ∧ r = Some (SendFailed (- (env (k - 1)).2)) ∧
       ∀ j, 0 ≤ j < k - 1 → 0 ≤ (env j).2)).
Proof.
  unfold send_burst. pose proof (burst_loop_sent (Z.to_nat count) inter_us env s 0) as H.
  destruct (burst_loop (Z.to_nat count) 0 inter_us env s) as [r log]. destruct H as (k & Hk & Hs & Hr).
  exists (Z.of_nat k). split; [lia|]. split; [done|].
  destruct Hr as [(-> & -> & Hok)|(Hk0 & Hneg & -> & Hok)]; [left|right].
  - split_and!; [done|lia|]. intros j Hj. apply Hok. lia.
  - rewrite Z.add_0_l in *. split_and!; [lia|done|done|]. intros j Hj. apply Hok. lia.
Qed.
