(* ===== verification/Replay.v ===== *)
(** * Timed replay

    Model of [PcapReader::replay_at_rate] of
    [include/ultrafast/pcap_reader.hpp].  The callback is represented by the
    log of its calls, between the sleeps. *)

From S2P Require Import Prelude Double Rounding Queue RingBuffer FeedEvent Packet Xsk Umem XdpSocket FeedHandler Pcap.

(** ** Replay *)

Section Replay.
Context `{!FloatMode}.

(** What a replay does: sleeps ([nanosleep] with its [timespec]) and calls of
    the callback with the event and its scheduled time. *)
Inductive replay_event : Type :=
| Slept (ts : timespec)
| Delivered (ev : FeedEvent) (scheduled_ns : Z).

Definition reader_clock_ns : timespec → Z := clock_ns.

(** When an event is due, from the start of the replay, the timestamp of the
    first event, its own, and the rate.  The rate does not change in the
    loop: the division may be a multiplication with its reciprocal. *)
Definition target_ns (start origin inject : Z) (rate : double) : outcome Z :=
  let offset_raw := double_of_Z (u64 (inject - origin)) in
  offset_ns ← u64_of_double (quotient offset_raw rate);
  Ret (u64 (start + offset_ns)).

(** The sleep before an event due at [target], when the clock says [now]. *)
Definition sleep_until (target now : Z) : list replay_event :=
  if bool_decide (now < target)
  then let sleep_ns := u64 (target - now) in
       [Slept (mkTimespec (sleep_ns `div` 1000000000) (sleep_ns `mod` 1000000000))]
  else [].

(** The [while] loop; [clk] gives the readings of the clock, [i] is the
    number taken so far.  Each turn reads an event or leaves, so
    [total_events_ - events_read_] turns are enough. *)
Fixpoint replay_loop (fuel : nat) (i : nat) (start origin : Z) (rate : double) (clk : nat → timespec) (r : PcapReader)
    : outcome (list replay_event * PcapReader) :=
  match fuel with
  | O => Ret ([], r)
  | S fuel =>
      if bool_decide (events_read_ r < total_events_ r) then
        match next r with
        | (None, r') => Ret ([], r')
        | (Some ev, r') =>
            target ← target_ns start origin (inject_ns ev) rate;
            let now_ns := reader_clock_ns (clk i) in
            '(log, r'') ← replay_loop fuel (S i) start origin rate clk r';
            Ret (sleep_until target now_ns ++ Delivered ev target :: log, r'')
        end
      else Ret ([], r)
  end.

Definition replay_at_rate (rate : double) (clk : nat → timespec) (r : PcapReader)
    : outcome (list replay_event * PcapReader) :=
  match r_file_ r with
  | None => Ret ([], r)
  | Some _ =>
      if bool_decide (total_events_ r = 0) then Ret ([], r)
      else
        let '(_, r1) := rewind r in
        match next r1 with
        | (None, r2) => Ret ([], r2)
        | (Some first, r2) =>
            let origin_inject_ns := inject_ns first in
            let replay_start_ns := reader_clock_ns (clk 0%nat) in
            '(log, r3) ← replay_loop (Z.to_nat (total_events_ r2 - events_read_ r2)) 1
                           replay_start_ns origin_inject_ns rate clk r2;
            Ret (Delivered first replay_start_ns :: log, r3)
        end
  end.

Definition deliveries (log : list replay_event) : list (FeedEvent * Z) :=
  omap (λ e, match e with Delivered ev t => Some (ev, t) | Slept _ => None end) log.

(** ** Due times *)

(** At the rate [2 ^ c] an offset below [2 ^ 53] ns (104 days) goes through
    the double arithmetic exactly, rounded down to a nanosecond. *)
Lemma target_at_pow2 start origin inject c :
  0 ≤ inject - origin < 2 ^ 53 → -900 ≤ c ≤ 900 → Z.shiftr (inject - origin) c < 2 ^ 64 →
  target_ns start origin inject (pow2 c) = Ret (u64 (start + Z.shiftr (inject - origin) c)).
Proof.
  intros Ho Hc Hs. unfold target_ns. rewrite (u64_small (inject - origin)) by lia.
  unfold u64_of_double. destruct (inject - origin) as [|p|p]; [by rewrite trunc_quotient_0_pow2, Z.shiftr_0_l| |lia].
  rewrite trunc_quotient_pow2 by lia. pose proof (proj2 (Z.shiftr_nonneg (Z.pos p) c) ltac:(lia)).
  by rewrite bool_decide_true by lia.
Qed.

Lemma target_at_rate_1 start origin inject :
  0 ≤ inject - origin < 2 ^ 53 → target_ns start origin inject double_1 = Ret (u64 (start + (inject - origin))).
Proof. intros Ho. change double_1 with (pow2 0). by rewrite target_at_pow2, Z.shiftr_0_r by (rewrite ?Z.shiftr_0_r; lia). Qed.

(** A rate of zero makes the conversion to [uint64_t] undefined, whatever the
    timestamps: the quotient is infinite or not a number. *)
Lemma target_at_rate_0 start origin inject s : target_ns start origin inject (S754_zero s) = Undef.
Proof. unfold target_ns, u64_of_double, quotient. destruct reciprocal_math, s; by destruct (double_of_Z _) as [| | |[]]. Qed.

(** ** The loop *)

(** The log of a replay whose events and due times are known. *)
Fixpoint replay_log (i : nat) (clk : nat → timespec) (l : list (FeedEvent * Z)) : list replay_event :=
  match l with
  | [] => []
  | (ev, t) :: l => sleep_until t (reader_clock_ns (clk i)) ++ Delivered ev t :: replay_log (S i) clk l
  end.

Lemma deliveries_log clk l : ∀ i, deliveries (replay_log i clk l) = l.
Proof.
  induction l as [|[ev t] l IH]; intros i; [done|]. cbn. unfold sleep_until.
  case_bool_decide; cbn; f_equal; apply IH.
Qed.

(** A reader in a file of whole records, before record number [n]. *)
Definition reader_at (pre : list Z) (recs : list (list Z)) (tail : list Z) (limit total n : Z) : PcapReader :=
  mkReader (Some (mkFILE (pre ++ concat recs ++ tail) (Z.of_nat (length pre)) limit)) total n.

Lemma replay_loop_log start origin rate clk tail limit total fuel : ∀ recs pre n i ts,
  Forall (λ rec, length rec = 88%nat) recs → (length tail < 88)%nat → in_width 64 total → in_width 64 n →
  total - n ≤ Z.of_nat fuel →
  let evs := take (Z.to_nat (total - n)) (decode_record <$> recs) in
  Forall2 (λ ev t, target_ns start origin (inject_ns ev) rate = Ret t) evs ts →
  ∃ r', replay_loop fuel i start origin rate clk (reader_at pre recs tail limit total n) =
    Ret (replay_log i clk (zip evs ts), r').
Proof.
  induction fuel as [|fuel IH]; intros recs pre n i ts Hall Ht Hwt Hwn Hfuel evs Hts.
  { assert (Hevs : evs = []) by (subst evs; by replace (Z.to_nat (total - n)) with 0%nat by lia).
    rewrite Hevs. by eexists. }
  cbn [replay_loop]. unfold reader_at at 1 2. cbn [events_read_ total_events_].
  destruct (decide (n < total)) as [Hn|Hn].
  2: { rewrite bool_decide_false by done.
    assert (Hevs : evs = []) by (subst evs; by replace (Z.to_nat (total - n)) with 0%nat by lia).
    rewrite Hevs. by eexists. }
  rewrite bool_decide_true by done. unfold in_width in Hwt, Hwn. unfold reader_at.
  destruct recs as [|rec recs].
  { subst evs. cbn [fmap list_fmap] in *. rewrite take_nil in *. cbn [concat].
    destruct (next_end (pre ++ [] ++ tail) (Z.of_nat (length pre)) total n limit) as (pos' & -> & _).
    - rewrite length_app. lia.
    - rewrite length_app. cbn. lia.
    - by eexists. }
  apply Forall_cons in Hall as [Hrec Hall]. cbn [concat]. rewrite <- app_assoc.
  rewrite next_record by (done || unfold in_width; lia).
  assert (Hevs : evs = decode_record rec :: take (Z.to_nat (total - (n + 1))) (decode_record <$> recs)).
  { subst evs. by replace (Z.to_nat (total - n)) with (S (Z.to_nat (total - (n + 1)))) by lia. }
  rewrite Hevs in *. clear evs Hevs. apply Forall2_cons_inv_l in Hts as (t & ts' & Ht1 & Hts & ->).
  rewrite Ht1. ub_step.
  destruct (IH recs (pre ++ rec) (n + 1) (S i) ts') as (r' & Hr); try done; [unfold in_width; lia|lia|].
  unfold reader_at in Hr. rewrite <- app_assoc in Hr. rewrite Hr. ub_step. by eexists.
Qed.

(** Rewinding an open reader puts it before the first record. *)
Lemma rewind_header count body pos limit n :
  rewind (mkReader (Some (mkFILE (header_bytes count ++ body) pos limit)) count n) =
    (true, mkReader (Some (mkFILE (header_bytes count ++ body) (Z.of_nat (length (header_bytes count))) limit)) count 0).
Proof.
  unfold rewind, fseek. cbn [r_file_ total_events_ f_bytes f_pos f_limit]. unfold kCountOffset.
  rewrite bool_decide_true by lia. by rewrite length_header_bytes.
Qed.

(** A replay of a file whose header declares [count] events, at whatever
    position the reader is. *)
Lemma replay_at_rate_log rate clk count recs tail rec0 ts pos limit n :
  Forall (λ rec, length rec = 88%nat) (rec0 :: recs) → (length tail < 88)%nat → in_width 64 count → 0 < count →
  let start := reader_clock_ns (clk 0%nat) in
  let first := decode_record rec0 in
  let evs := take (Z.to_nat (count - 1)) (decode_record <$> recs) in
  Forall2 (λ ev t, target_ns start (inject_ns first) (inject_ns ev) rate = Ret t) evs ts →
  ∃ r', replay_at_rate rate clk
          (mkReader (Some (mkFILE (header_bytes count ++ concat (rec0 :: recs) ++ tail) pos limit)) count n) =
    Ret (Delivered first start :: replay_log 1 clk (zip evs ts), r').
Proof.
  intros Hall Ht Hw Hc start first evs Hts. apply Forall_cons in Hall as [Hrec Hall]. unfold in_width in Hw.
  unfold replay_at_rate. cbn [r_file_ total_events_]. rewrite bool_decide_false by lia. rewrite rewind_header.
  cbn [concat]. rewrite <- app_assoc. rewrite next_record by (done || unfold in_width; lia).
  cbn [total_events_ events_read_].
  destruct (replay_loop_log start (inject_ns first) rate clk tail limit count (Z.to_nat (count - (0 + 1)))
    recs (header_bytes count ++ rec0) (0 + 1) 1 ts) as (r' & Hr); try done; [lia|].
  unfold reader_at in Hr. rewrite <- !app_assoc in Hr. fold start first. rewrite Hr. ub_step. by eexists.
Qed.

(** When the second event's due time is undefined, so is the replay. *)
Lemma replay_undefined rate clk count rec0 rec1 body pos limit n :
  length rec0 = 88%nat → length rec1 = 88%nat → in_width 64 count → 1 < count →
  (∀ start, target_ns start (inject_ns (decode_record rec0)) (inject_ns (decode_record rec1)) rate = Undef) →
  replay_at_rate rate clk (mkReader (Some (mkFILE (header_bytes count ++ rec0 ++ rec1 ++ body) pos limit)) count n) = Undef.
Proof.
  intros H0 H1 Hw Hc Hu. unfold in_width in Hw. unfold replay_at_rate. cbn [r_file_ total_events_].
  rewrite bool_decide_false by lia. rewrite rewind_header. rewrite next_record by (done || unfold in_width; lia).
  cbn [total_events_ events_read_]. destruct (Z.to_nat (count - (0 + 1))) as [|fuel] eqn:Hf; [lia|].
  cbn [replay_loop events_read_ total_events_]. rewrite bool_decide_true by lia.
  rewrite app_assoc, next_record by (done || unfold in_width; lia). by rewrite Hu.
Qed.

(** The original timing: each event is due as long after the start as it was
    injected after the first one. *)
Definition original_schedule (start origin : Z) (evs : list FeedEvent) : list (FeedEvent * Z) :=
  (λ ev, (ev, u64 (start + (inject_ns ev - origin)))) <$> evs.

Lemma targets_at_rate_1 start origin evs :
  Forall (λ ev, 0 ≤ inject_ns ev - origin < 2 ^ 53) evs →
  Forall2 (λ ev t, target_ns start origin (inject_ns ev) double_1 = Ret t) evs (original_schedule start origin evs).*2.
Proof. induction 1; constructor; auto using target_at_rate_1. Qed.

Lemma zip_fmap_pair {A B} (f : A → B) (l : list A) : zip l ((λ x, (x, f x)) <$> l).*2 = (λ x, (x, f x)) <$> l.
Proof. induction l as [|x l IH]; [done|]. cbn. f_equal. exact IH. Qed.

(** The timing at the rate [2 ^ c]. *)
Definition scaled_schedule (c start origin : Z) (evs : list FeedEvent) : list (FeedEvent * Z) :=
  (λ ev, (ev, u64 (start + Z.shiftr (inject_ns ev - origin) c))) <$> evs.

Lemma targets_at_pow2 c start origin evs :
  -900 ≤ c ≤ 900 → Forall (λ ev, 0 ≤ inject_ns ev - origin < 2 ^ 53 ∧ Z.shiftr (inject_ns ev - origin) c < 2 ^ 64) evs →
  Forall2 (λ ev t, target_ns start origin (inject_ns ev) (pow2 c) = Ret t) evs (scaled_schedule c start origin evs).*2.
Proof. intros Hc. induction 1 as [|ev evs [? ?]]; constructor; [by apply target_at_pow2|done]. Qed.

(** The argument of every [nanosleep] is a valid [timespec]. *)
Definition sleep_ok (e : replay_event) : Prop :=
  match e with Slept ts => 0 ≤ tv_sec ts ∧ 0 ≤ tv_nsec ts < 1000000000 | Delivered _ _ => True end.

Lemma sleeps_ok clk l : ∀ i, Forall sleep_ok (replay_log i clk l).
Proof.
  induction l as [|[ev t] l IH]; intros i; cbn [replay_log]; [by apply Forall_nil|].
  apply Forall_app. split; [|by constructor]. unfold sleep_until. case_bool_decide; [|by apply Forall_nil].
  apply Forall_singleton. cbn [sleep_ok tv_sec tv_nsec].
  pose proof (Z.mod_pos_bound (t - reader_clock_ns (clk i)) (2 ^ 64)). unfold u64, wrap.
  split; [apply Z.div_pos; lia|apply Z.mod_pos_bound; lia].
Qed.

(** A replay of an opened capture, from the due times of its events. *)
Lemma replay_of_capture rate clk count rec0 recs tail r0 (due : FeedEvent → Z) :
  Forall (λ rec, length rec = 88%nat) (rec0 :: recs) → (length tail < 88)%nat → in_width 64 count → 0 < count →
  let start := clock_ns (clk 0%nat) in
  let first := decode_record rec0 in
  let evs := take (Z.to_nat (count - 1)) (decode_record <$> recs) in
  let schedule := (λ ev, (ev, due ev)) <$> evs in
  Forall2 (λ ev t, target_ns start (inject_ns first) (inject_ns ev) rate = Ret t) evs schedule.*2 →
  ∃ r r' log, PcapReader_open (Some (fopen_rb (header_bytes count ++ concat (rec0 :: recs) ++ tail))) r0 = (true, r) ∧
    replay_at_rate rate clk r = Ret (log, r') ∧
    deliveries log = (first, start) :: schedule ∧
    log = Delivered first start :: replay_log 1 clk schedule ∧ Forall sleep_ok log.
Proof.
  intros Hall Ht Hw Hc start first evs schedule Hdue. eexists. rewrite open_header by done.
  destruct (replay_at_rate_log rate clk count recs tail rec0 schedule.*2
    (Z.of_nat (length (header_bytes count))) (Z.of_nat (length (header_bytes count ++ concat (rec0 :: recs) ++ tail))) 0)
    as (r' & Hr); [done..|].
  fold evs in Hr. unfold schedule in Hr. rewrite zip_fmap_pair in Hr. exists r', (Delivered first start :: replay_log 1 clk schedule).
  split; [done|]. split; [exact Hr|]. split; [|split; [done|]].
  - change (deliveries (Delivered first start :: ?l)) with ((first, start) :: deliveries l). by rewrite deliveries_log.
  - constructor; [done|apply sleeps_ok].
Qed.

End Replay.

(** ** Properties *)

(** Replay at the original speed.  In a capture whose events were
    injected less than 2^53 ns after the first, [replay_at_rate(1.0)]
    delivers every event the header declares and the file holds, once and in
    file order; the first is due at the start and each of the others exactly
    as long after the start as it was injected after the first -- the
    passage through [double] loses nothing.  Before each of them it sleeps
    for precisely what is left until the event is due, or not at all, and
    never passes [nanosleep] an invalid time. *)
Theorem replay_at_original_speed `{!FloatMode} (clk : nat → timespec) (count : Z) (rec0 : list Z) (recs : list (list Z))
    (tail : list Z) (r0 : PcapReader) :
  Forall (λ rec, length rec = 88%nat) (rec0 :: recs) → (length tail < 88)%nat → in_width 64 count → 0 < count →
  let start := clock_ns (clk 0%nat) in
  let first := decode_record rec0 in
  let evs := take (Z.to_nat (count - 1)) (decode_record <$> recs) in
  Forall (λ ev, 0 ≤ inject_ns ev - inject_ns first < 2 ^ 53) evs →
  let schedule := original_schedule start (inject_ns first) evs in
  ∃ r r' log, PcapReader_open (Some (fopen_rb (header_bytes count ++ concat (rec0 :: recs) ++ tail))) r0 = (true, r) ∧
    replay_at_rate double_1 clk r = Ret (log, r') ∧
    deliveries log = (first, start) :: schedule ∧
    log = Delivered first start :: replay_log 1 clk schedule ∧ Forall sleep_ok log.
Proof.
  intros Hall Ht Hw Hc start first evs Hoff schedule. apply replay_of_capture; [done..|]. by apply targets_at_rate_1.
Qed.

(** C17: replay at a rate that is a power of two: 1, 2 and 0.5 of the
    documentation, and the others from 2^-900 to 2^900.  In a capture whose
    events were injected less than 2^53 ns after the first, and less than
    2^64 * 2^c ns -- a condition only for rates below 2^-11 --,
    [replay_at_rate(2^c)] delivers every event the header declares and the file holds, once and in file order;
    the first is due at the start and each of the others after exactly
    1 / 2^c of the time between their injections, rounded down to a
    nanosecond -- the passage through [double] loses nothing else, also when
    the compiler multiplies by the reciprocal of the rate.  Before
    each of them it sleeps for precisely what is left until the event is
    due, or not at all, and never passes [nanosleep] an invalid time. *)
Theorem replay_at_power_of_two `{!FloatMode} (c : Z) (clk : nat → timespec) (count : Z) (rec0 : list Z) (recs : list (list Z))
    (tail : list Z) (r0 : PcapReader) :
  Forall (λ rec, length rec = 88%nat) (rec0 :: recs) → (length tail < 88)%nat → in_width 64 count → 0 < count →
  -900 ≤ c ≤ 900 →
  let start := clock_ns (clk 0%nat) in
  let first := decode_record rec0 in
  let evs := take (Z.to_nat (count - 1)) (decode_record <$> recs) in
  Forall (λ ev, 0 ≤ inject_ns ev - inject_ns first < 2 ^ 53 ∧ Z.shiftr (inject_ns ev - inject_ns first) c < 2 ^ 64) evs →
  let schedule := scaled_schedule c start (inject_ns first) evs in
  ∃ r r' log, PcapReader_open (Some (fopen_rb (header_bytes count ++ concat (rec0 :: recs) ++ tail))) r0 = (true, r) ∧
    replay_at_rate (pow2 c) clk r = Ret (log, r') ∧
    deliveries log = (first, start) :: schedule ∧
    log = Delivered first start :: replay_log 1 clk schedule ∧ Forall sleep_ok log.
Proof.
  intros Hall Ht Hw Hc Hr start first evs Hoff schedule. apply replay_of_capture; [done..|]. by apply targets_at_pow2.
Qed.

(** Three events half a millisecond apart. *)
Definition paced_event (i : Z) : FeedEvent :=
  mkEvent (1000 + 500000 * i) (2000 + 500000 * i) 0 0 0 64 (replicate 6 0) (replicate 64 i).

Section Witnesses.
#[local] Existing Instance release_math.

(** The clock advances 0.2 ms at each reading. *)
Lemma replay_at_original_speed_witness :
  ∃ r r' log,
    PcapReader_open (Some (fopen_rb (header_bytes 3 ++ concat (record <$> [paced_event 0; paced_event 1; paced_event 2]) ++ []))) PcapReader_init =
      (true, r) ∧
    replay_at_rate double_1 (λ i, mkTimespec 5 (200000 * Z.of_nat i)) r = Ret (log, r') ∧
    deliveries log =
      [(paced_event 0, 5000000000); (paced_event 1, 5000500000); (paced_event 2, 5001000000)] ∧
    log = [Delivered (paced_event 0) 5000000000; Slept (mkTimespec 0 300000);
           Delivered (paced_event 1) 5000500000; Slept (mkTimespec 0 600000);
           Delivered (paced_event 2) 5001000000].
Proof.
  destruct (replay_at_original_speed (λ i, mkTimespec 5 (200000 * Z.of_nat i)) 3 (record (paced_event 0))
    (record <$> [paced_event 1; paced_event 2]) [] PcapReader_init) as (r & r' & log & H1 & H2 & H3 & H4 & _).
  - repeat constructor.
  - apply Nat.ltb_lt. reflexivity.
  - split; [discriminate|reflexivity].
  - reflexivity.
  - apply (bool_decide_unpack _). vm_compute. reflexivity.
  - exists r, r', log. split; [exact H1|]. split; [exact H2|]. split.
    + rewrite H3. vm_compute. reflexivity.
    + rewrite H4. vm_compute. reflexivity.
Defined.

(** At twice the speed: 0.25 ms apart. *)
Lemma replay_at_power_of_two_witness :
  ∃ r r' log,
    PcapReader_open (Some (fopen_rb (header_bytes 3 ++ concat (record <$> [paced_event 0; paced_event 1; paced_event 2]) ++ []))) PcapReader_init =
      (true, r) ∧
    replay_at_rate (double_of_Z 2) (λ i, mkTimespec 5 (200000 * Z.of_nat i)) r = Ret (log, r') ∧
    deliveries log = [(paced_event 0, 5000000000); (paced_event 1, 5000250000); (paced_event 2, 5000500000)] ∧
    log = [Delivered (paced_event 0) 5000000000; Slept (mkTimespec 0 50000); Delivered (paced_event 1) 5000250000;
           Slept (mkTimespec 0 100000); Delivered (paced_event 2) 5000500000].
Proof.
  destruct (replay_at_power_of_two 1 (λ i, mkTimespec 5 (200000 * Z.of_nat i)) 3 (record (paced_event 0))
    (record <$> [paced_event 1; paced_event 2]) [] PcapReader_init) as (r & r' & log & H1 & H2 & H3 & H4 & _).
  - repeat constructor.
  - apply Nat.ltb_lt. reflexivity.
  - split; [discriminate|reflexivity].
  - reflexivity.
  - lia.
  - apply (bool_decide_unpack _). vm_compute. reflexivity.
  - exists r, r', log. split; [exact H1|]. split; [exact H2|]. split.
    + rewrite H3. vm_compute. reflexivity.
    + rewrite H4. vm_compute. reflexivity.
Defined.

End Witnesses.
