(* ===== verification/Rates.v ===== *)
(** * Replay rates

    [PcapReader::replay_at_rate] at any rate: how far the due times are from
    the exact ones, that they keep the order of the events, and at which
    rates and timestamps the conversion back to an integer is undefined. *)

From S2P Require Import Prelude Double Rounding Queue RingBuffer FeedEvent Packet Xsk Umem XdpSocket FeedHandler Pcap Replay.

(** ** Offsets *)

Section Offsets.
Context `{!FloatMode}.

(** [offset_ns] of an event injected [D] ns after the first one. *)
Definition offset_ns (D : Z) (rate : double) : outcome Z := u64_of_double (quotient (double_of_Z D) rate).

Lemma target_offset start origin inject rate :
  target_ns start origin inject rate = z ← offset_ns (u64 (inject - origin)) rate; Ret (u64 (start + z)).
Proof. reflexivity. Qed.

(** The roundings on the way from an offset to its quotient: the conversion
    and the division, or the conversion, the reciprocal and the product.
    Each is off by at most 2^-53 of the result; [err_above / err_one] and
    [err_below / err_one] are (1 + 2^-53) and (1 - 2^-53) to their number. *)
Definition roundings : Z := if reciprocal_math then 3 else 2.
Definition err_one : Z := (2 ^ 53) ^ roundings.
Definition err_above : Z := (2 ^ 53 + 1) ^ roundings.
Definition err_below : Z := (2 ^ 53 - 1) ^ roundings.

(** [a] is [D] divided by the rate, up to the error of the roundings and a
    truncation.  In units of [2 ^ -1074] the rate is [R]. *)
Record scaled_down (D R a : Z) : Prop := {
  sd_nonneg : 0 ≤ a;
  sd_upper : err_one * (a * R) ≤ err_above * (D * scale);
  sd_lower : err_below * (D * scale) < err_one * ((a + 1) * R);
}.

(** The factor [P / Q] that a quotient multiplies by is the reciprocal of
    the rate up to one rounding, or exactly. *)
Record reciprocal_of (R P Q : Z) : Prop := {
  rc_pos : 0 < P ∧ 0 < Q;
  rc_error : if reciprocal_math then 2 ^ 53 * Z.abs (Q * scale - P * R) ≤ Q * scale else P * R = Q * scale;
}.

Lemma err_split R P Q : reciprocal_of R P Q → ∃ X Y W, 0 < X ∧ 0 < Y ∧ 0 < W ∧
  err_one = 2 ^ 53 * 2 ^ 53 * X ∧ err_above = (2 ^ 53 + 1) * (2 ^ 53 + 1) * Y ∧ err_below = (2 ^ 53 - 1) * (2 ^ 53 - 1) * W ∧
  X * (P * R) ≤ Y * (Q * scale) ∧ W * (Q * scale) ≤ X * (P * R).
Proof.
  intros [_ He]. unfold err_one, err_above, err_below, roundings. destruct reciprocal_math.
  - exists (2 ^ 53), (2 ^ 53 + 1), (2 ^ 53 - 1). split_and!; try done; lia.
  - exists 1, 1, 1. split_and!; try done; lia.
Qed.

(** Three steps down: the conversion [F1] of the offset, the quotient [F2],
    the truncation. *)
Lemma chain_upper B U X Y D R P Q S F1 F2 a :
  0 < B → 0 < U → 0 < X → 0 < Y → 0 ≤ D → 0 < R → 0 < P → 0 < Q → 0 < S →
  B * (Q * F2) ≤ U * (F1 * P) → B * F1 ≤ U * (D * S) → X * (P * R) ≤ Y * (Q * S) → a * S ≤ F2 →
  B * B * X * (a * R) ≤ U * U * Y * (D * S).
Proof.
  intros HB HU HX HY HD HR HP HQ HS H2 H1 H3 Ha. apply (Z.mul_le_mono_pos_r _ _ (S * Q)); [lia|].
  apply (Z.mul_le_mono_nonneg_l _ _ (B * B * X * R * Q)) in Ha; [|lia].
  apply (Z.mul_le_mono_nonneg_l _ _ (B * X * R)) in H2; [|lia].
  apply (Z.mul_le_mono_nonneg_l _ _ (X * R * P * U)) in H1; [|lia].
  apply (Z.mul_le_mono_nonneg_l _ _ (U * U * D * S)) in H3; [|lia]. lia.
Qed.

Lemma chain_lower B L X W D R P Q S F1 F2 a :
  0 < B → 0 < L → 0 < X → 0 < W → 0 ≤ D → 0 < R → 0 < P → 0 < Q → 0 < S →
  L * (F1 * P) ≤ B * (Q * F2) → L * (D * S) ≤ B * F1 → W * (Q * S) ≤ X * (P * R) → F2 < (a + 1) * S →
  L * L * W * (D * S) < B * B * X * ((a + 1) * R).
Proof.
  intros HB HL HX HW HD HR HP HQ HS H2 H1 H3 Ha. apply (Z.mul_lt_mono_pos_r (S * Q)); [lia|].
  apply (Z.mul_lt_mono_pos_l (B * B * X * R * Q)) in Ha; [|lia].
  apply (Z.mul_le_mono_nonneg_l _ _ (B * X * R)) in H2; [|lia].
  apply (Z.mul_le_mono_nonneg_l _ _ (X * R * P * L)) in H1; [|lia].
  apply (Z.mul_le_mono_nonneg_l _ _ (L * L * D * S)) in H3; [|lia]. lia.
Qed.

Lemma scaled_down_intro D R P Q a F1 F2 :
  0 ≤ D → 0 < R → reciprocal_of R P Q →
  2 ^ 53 * Z.abs (D * scale - F1) ≤ D * scale → 2 ^ 53 * Z.abs (F1 * P - Q * F2) ≤ F1 * P →
  a * scale ≤ F2 < (a + 1) * scale → 0 < F2 → scaled_down D R a.
Proof.
  intros HD HR HPQ H1 H2 Ha HF. pose proof scale_pos as HS. destruct (rc_pos _ _ _ HPQ) as [HP HQ].
  destruct (err_split R P Q HPQ) as (X & Y & W & HX & HY & HW & E1 & E2 & E3 & Hup & Hlo). split; [nia| |].
  - rewrite E1, E2. apply (chain_upper _ _ X Y D R P Q scale F1 F2 a); (done || lia).
  - rewrite E1, E3. apply (chain_lower _ _ X W D R P Q scale F1 F2 a); (done || lia).
Qed.

(** The rates from [2 ^ -900] to [2 ^ 900], of either sign. *)
Section Rate.
Context (s : bool) (m : positive) (e : Z).
Context (Hm : Z.log2 (Z.pos m) = 52) (He : -952 ≤ e ≤ 848).
#[local] Abbreviation rate := (S754_finite s m e).

(** What a quotient by the rate computes: [P / Q] times the dividend,
    rounded. *)
Lemma rate_factor :
  ∃ P Q, reciprocal_of (fixed rate) P Q ∧ ∀ m1 e1, Z.log2 (Z.pos m1) = 52 → -52 ≤ e1 ≤ 12 →
    ∃ m2 e2, quotient (S754_finite false m1 e1) rate = S754_finite s m2 e2 ∧ -1074 ≤ e2 ∧
      rounds (fixed (S754_finite false m1 e1) * P) Q (S754_finite s m2 e2).
Proof using Hm He.
  pose proof (fixed_pos s m e ltac:(lia)) as HR. pose proof scale_pos as HS. unfold quotient.
  destruct (reciprocal_math) eqn:Hmode.
  - destruct (div_rounds false 4503599627370496 (-52) s m e) as (mr & er & Hrec & Hlr & Her & Hrr); [lia|lia|lia|change (Z.log2 4503599627370496) with 52; lia|].
    cbv zeta in Her. change (Z.log2 4503599627370496) with 52 in Her. rewrite Hm in Her. cbn [xorb] in *.
    replace (fixed (S754_finite false 4503599627370496 (-52))) with scale in Hrr by (vm_compute; reflexivity).
    unfold double_1. rewrite Hrec. exists (fixed (S754_finite s mr er)), scale. split.
    + split; [split; [apply fixed_pos; lia|done]|]. rewrite Hmode. apply rounds_error in Hrr. lia.
    + intros m1 e1 Hm1 He1. destruct (mul_rounds false m1 e1 s mr er) as (m2 & e2 & H2 & _ & He2 & Hr2); [done|done|lia..|].
      exists m2, e2. done.
  - exists scale, (fixed rate). split.
    + split; [done|]. rewrite Hmode. lia.
    + intros m1 e1 Hm1 He1. destruct (div_rounds false m1 e1 s m e) as (m2 & e2 & H2 & _ & [He2 _] & Hr2); [lia..|].
      exists m2, e2. done.
Qed.

Lemma dividend D :
  0 < D < 2 ^ 64 →
  ∃ m1 e1, double_of_Z D = S754_finite false m1 e1 ∧ Z.log2 (Z.pos m1) = 52 ∧ -52 ≤ e1 ≤ 12 ∧
    rounds (D * scale) 1 (S754_finite false m1 e1).
Proof.
  intros HD. destruct D as [|p|p]; [lia| |lia].
  destruct (double_of_pos_rounds p) as (m1 & e1 & H1 & Hl1 & Hb1 & Hr1); [lia|].
  assert (Hlp : 0 ≤ Z.log2 (Z.pos p) < 64) by (split; [apply Z.log2_nonneg|apply Z.log2_lt_pow2; lia]).
  exists m1, e1. split_and!; try done; lia.
Qed.

Lemma zero_offset : double_trunc (quotient (double_of_Z 0) rate) = Some 0.
Proof using Hm He.
  unfold quotient. destruct reciprocal_math; [|done].
  destruct (div_rounds false 4503599627370496 (-52) s m e) as (mr & er & Hrec & _); [lia|lia|lia|change (Z.log2 4503599627370496) with 52; lia|].
  unfold double_1. by rewrite Hrec.
Qed.

Lemma rate_offset D :
  0 ≤ D < 2 ^ 64 →
  ∃ a, double_trunc (quotient (double_of_Z D) rate) = Some (if s then - a else a) ∧ scaled_down D (fixed rate) a.
Proof using Hm He.
  intros HD. pose proof (fixed_pos s m e ltac:(lia)) as HR. pose proof scale_pos as HS.
  destruct rate_factor as (P & Q & HPQ & Hquot). destruct (err_split _ _ _ HPQ) as (X & Y & W & HX & HY & HW & E1 & E2 & E3 & _).
  destruct (decide (D = 0)) as [->|HD0].
  { exists 0. rewrite zero_offset. split; [by destruct s|]. split; [done|rewrite E1, E2; lia|]. rewrite E1. nia. }
  clear E1 E2 E3 HX HY HW. destruct (dividend D ltac:(lia)) as (m1 & e1 & -> & Hl1 & He1 & Hr1).
  destruct (Hquot m1 e1 Hl1 He1) as (m2 & e2 & -> & He2 & Hr2).
  rewrite trunc_fixed by done. eexists. split; [done|]. apply rounds_error in Hr1, Hr2.
  pose proof (fixed_pos s m2 e2 He2) as HF2. rewrite Z.mul_1_l in Hr1.
  set (R := fixed rate) in *. set (F1 := fixed (S754_finite false m1 e1)) in *. set (F2 := fixed (S754_finite s m2 e2)) in *.
  pose proof (Z.div_mod F2 scale ltac:(lia)) as Hdm. pose proof (Z.mod_pos_bound F2 scale HS) as Hmod.
  set (a := F2 `div` scale) in *. assert (Ha : a * scale ≤ F2 < (a + 1) * scale) by lia. clearbody R F1 F2 a. clear Hdm Hmod.
  exact (scaled_down_intro D R P Q a F1 F2 (proj1 HD) HR HPQ Hr1 Hr2 Ha HF2).
Qed.

(** An earlier event is never due later, whatever the rounding: rounding and
    truncation are monotone. *)
Lemma rate_trunc_mono D1 D2 a1 a2 :
  0 ≤ D1 ≤ D2 → D2 < 2 ^ 64 → 0 ≤ a1 → 0 ≤ a2 →
  double_trunc (quotient (double_of_Z D1) rate) = Some (if s then - a1 else a1) →
  double_trunc (quotient (double_of_Z D2) rate) = Some (if s then - a2 else a2) → a1 ≤ a2.
Proof using Hm He.
  intros HD HD2 H1 H2 E1 E2.
  assert (Hsame : ∀ x y, Some (if s then - x else x) = Some (if s then - y else y) → x = y) by (intros x y [= ?]; destruct s; lia).
  destruct (decide (D1 = D2)) as [->|HDne]; [by rewrite E1 in E2; apply Hsame in E2 as ->|].
  destruct (decide (D1 = 0)) as [->|HD0]; [rewrite zero_offset in E1; destruct s; injection E1; lia|].
  destruct rate_factor as (P & Q & HPQ & Hquot). destruct (rc_pos _ _ _ HPQ) as [HP HQ].
  destruct (dividend D1 ltac:(lia)) as (m1 & e1 & Q1 & Hl1 & He1 & Hr1).
  destruct (dividend D2 ltac:(lia)) as (m2 & e2 & Q2 & Hl2 & He2 & Hr2).
  destruct (Hquot m1 e1 Hl1 He1) as (m3 & e3 & Q3 & He3 & Hr3). destruct (Hquot m2 e2 Hl2 He2) as (m4 & e4 & Q4 & He4 & Hr4).
  pose proof scale_pos as HS. rewrite Q1 in E1. rewrite Q2 in E2.
  pose proof (rounds_mono _ _ _ _ _ _ Z.lt_0_1 Z.lt_0_1 Hr1 Hr2 ltac:(nia)) as Hle.
  destruct (decide (fixed (S754_finite false m1 e1) = fixed (S754_finite false m2 e2))) as [Heq|Hne].
  { apply fixed_inj in Heq; [|done|done|lia..]. rewrite Heq, E2 in E1. apply Hsame in E1. lia. }
  rewrite Q3, trunc_fixed in E1 by done. rewrite Q4, trunc_fixed in E2 by done. apply Hsame in E1 as <-. apply Hsame in E2 as <-.
  apply Z.div_le_mono; [done|].
  apply (rounds_mono _ _ _ _ _ _ HQ HQ Hr3 Hr4). apply Z.mul_lt_mono_pos_r; [done|]. apply Z.mul_lt_mono_pos_r; lia.
Qed.
End Rate.

Lemma err_one_pos : 0 < err_one.
Proof. unfold err_one, roundings. by destruct reciprocal_math. Qed.

(** At a positive rate: the conversion is defined when the exact quotient
    is below [2 ^ 64] by the error of the rounding, and undefined when it is
    above by it. *)
Lemma offset_defined m e D :
  Z.log2 (Z.pos m) = 52 → -952 ≤ e ≤ 848 → 0 ≤ D < 2 ^ 64 →
  let rate := S754_finite false m e in
  err_above * (D * scale) < 2 ^ 64 * (err_one * fixed rate) →
  ∃ a, offset_ns D rate = Ret a ∧ scaled_down D (fixed rate) a ∧ a < 2 ^ 64.
Proof.
  intros Hm He HD rate Hlt. destruct (rate_offset false m e Hm He D HD) as (a & E & Ha). cbv iota in E.
  pose proof (fixed_pos false m e ltac:(lia)) as HR.
  fold rate in E, Ha, HR |- *. set (R := fixed rate) in *. pose proof (sd_nonneg _ _ _ Ha). pose proof (sd_upper _ _ _ Ha).
  assert (a < 2 ^ 64).
  { destruct (decide (a < 2 ^ 64)) as [|Hge]; [done|]. assert (err_one * (2 ^ 64 * R) ≤ err_one * (a * R)); [|lia].
    apply Z.mul_le_mono_nonneg_l; [apply Z.lt_le_incl, err_one_pos|]. apply Z.mul_le_mono_nonneg_r; lia. }
  exists a. unfold offset_ns, u64_of_double. rewrite E, bool_decide_true by lia. done.
Qed.

Lemma offset_undefined m e D :
  Z.log2 (Z.pos m) = 52 → -952 ≤ e ≤ 848 → 0 ≤ D < 2 ^ 64 →
  let rate := S754_finite false m e in
  2 ^ 64 * (err_one * fixed rate) ≤ err_below * (D * scale) → offset_ns D rate = Undef.
Proof.
  intros Hm He HD rate Hlt. destruct (rate_offset false m e Hm He D HD) as (a & E & Ha). cbv iota in E.
  pose proof (fixed_pos false m e ltac:(lia)) as HR.
  fold rate in E, Ha, HR |- *. set (R := fixed rate) in *. pose proof (sd_nonneg _ _ _ Ha). pose proof (sd_lower _ _ _ Ha).
  assert (2 ^ 64 ≤ a).
  { destruct (decide (2 ^ 64 ≤ a)) as [|Hge]; [done|]. assert (err_one * ((a + 1) * R) ≤ err_one * (2 ^ 64 * R)); [|lia].
    apply Z.mul_le_mono_nonneg_l; [apply Z.lt_le_incl, err_one_pos|]. apply Z.mul_le_mono_nonneg_r; lia. }
  unfold offset_ns, u64_of_double. rewrite E, bool_decide_false by lia. done.
Qed.

(** At a negative rate only what is truncated to zero is defined. *)
Lemma offset_negative m e D :
  Z.log2 (Z.pos m) = 52 → -952 ≤ e ≤ 848 → 0 ≤ D < 2 ^ 64 →
  let rate := S754_finite true m e in
  err_one * fixed rate ≤ err_below * (D * scale) → offset_ns D rate = Undef.
Proof.
  intros Hm He HD rate Hlt. destruct (rate_offset true m e Hm He D HD) as (a & E & Ha). cbv iota in E.
  pose proof (fixed_pos true m e ltac:(lia)) as HR.
  fold rate in E, Ha, HR |- *. set (R := fixed rate) in *. pose proof (sd_nonneg _ _ _ Ha). pose proof (sd_lower _ _ _ Ha).
  assert (1 ≤ a).
  { destruct (decide (1 ≤ a)) as [|Hge]; [done|]. assert (err_one * ((a + 1) * R) ≤ err_one * (1 * R)); [|lia].
    apply Z.mul_le_mono_nonneg_l; [apply Z.lt_le_incl, err_one_pos|]. apply Z.mul_le_mono_nonneg_r; lia. }
  unfold offset_ns, u64_of_double. rewrite E, bool_decide_false by lia. done.
Qed.

(** At an infinite rate everything is due at the start; a rate that is not a
    number is undefined behaviour. *)
Lemma finite_of_Z D : 0 ≤ D < 2 ^ 900 → ∃ d, double_of_Z D = d ∧ match d with S754_zero _ | S754_finite _ _ _ => True | _ => False end.
Proof.
  intros HD. destruct D as [|p|p]; [by eexists| |lia]. destruct (double_of_pos_rounds p) as (m & e & -> & _); [lia|]. by eexists.
Qed.

Lemma offset_infinite D s : 0 ≤ D < 2 ^ 900 → offset_ns D (S754_infinity s) = Ret 0.
Proof.
  intros HD. unfold offset_ns, quotient. destruct (finite_of_Z D HD) as (d & -> & Hd).
  destruct reciprocal_math; by destruct d.
Qed.

Lemma offset_nan D : offset_ns D S754_nan = Undef.
Proof. unfold offset_ns, quotient. destruct reciprocal_math; by destruct (double_of_Z D). Qed.

(** ** Events stamped before the first one *)

(** An offset that wrapped around: the double is a multiple of 2048 ns, which
    a rate of [2 ^ c] scales exactly. *)
Lemma wrapped_offset D c :
  2 ^ 63 ≤ D < 2 ^ 64 → -20 ≤ c ≤ 11 →
  ∃ q, 2 ^ 52 ≤ q ≤ 2 ^ 53 ∧ Z.abs (D - q * 2048) ≤ 1024 ∧
    double_trunc (quotient (double_of_Z D) (pow2 c)) = Some (q * 2 ^ (11 - c)).
Proof.
  intros HD Hc. assert (Hl : Z.log2 D = 63) by (apply Z.log2_unique; [done|exact HD]). destruct D as [|p|p]; [lia| |lia].
  unfold double_of_Z, binary_normalize, binary_round. rewrite digits2_pos_log2, Hl.
  change (shl_align p 0 (fexp 53 1024 (63 + 1 + 0))) with (p, 0).
  destruct (round_aux_located false p 0 loc_Exact (Z.pos p) 1 (located_exact _)) as (q & m & e & Hr & Hq & Hn & _ & Hm & Hlm); [lia..|].
  change (let (mz, ez) := (p, 0) in binary_round_aux 53 1024 false (Z.pos mz) ez loc_Exact)
    with (binary_round_aux 53 1024 false (Z.pos p) 0 loc_Exact). rewrite Hr, Hl in *. change (1 * 2 ^ (63 - 52)) with 2048 in Hn.
  exists q. split; [lia|]. split; [lia|]. rewrite quotient_pow2 by lia. unfold double_trunc. rewrite bool_decide_true by lia.
  f_equal. destruct Hm as [[-> ->]|(-> & -> & ->)]; [f_equal; f_equal; lia|].
  replace (0 + (63 - 52) + 1 - c) with (Z.succ (11 - c)) by lia. rewrite Z.pow_succ_r by lia. lia.
Qed.

Lemma offset_late d :
  0 < d ≤ 2 ^ 63 →
  (d ≤ 1024 → offset_ns (2 ^ 64 - d) double_1 = Undef) ∧
  (1024 < d → ∃ d', Z.abs (d' - d) ≤ 1024 ∧ offset_ns (2 ^ 64 - d) double_1 = Ret (2 ^ 64 - d')) ∧
  (∃ late, 2 ^ 62 ≤ late ≤ 2 ^ 63 ∧ offset_ns (2 ^ 64 - d) (pow2 1) = Ret late) ∧
  offset_ns (2 ^ 64 - d) (pow2 (-1)) = Undef.
Proof.
  intros Hd. unfold offset_ns. change double_1 with (pow2 0).
  assert (Hq : ∀ c, -20 ≤ c ≤ 11 → ∃ q, 2 ^ 52 ≤ q ≤ 2 ^ 53 ∧ Z.abs (2 ^ 64 - d - q * 2048) ≤ 1024 ∧
    u64_of_double (quotient (double_of_Z (2 ^ 64 - d)) (pow2 c)) =
      if bool_decide (0 ≤ q * 2 ^ (11 - c) < 2 ^ 64) then Ret (q * 2 ^ (11 - c)) else Undef).
  { intros c Hc. destruct (wrapped_offset (2 ^ 64 - d) c) as (q & ? & ? & E); [lia..|]. exists q. unfold u64_of_double. by rewrite E. }
  split_and!.
  - intros Hle. destruct (decide (d = 1024)) as [->|].
    { unfold quotient. destruct reciprocal_math; vm_compute; reflexivity. }
    destruct (Hq 0) as (q & Hb & Hn & ->); [lia|]. change (2 ^ (11 - 0)) with 2048. by rewrite bool_decide_false by lia.
  - intros Hlt. destruct (Hq 0) as (q & Hb & Hn & ->); [lia|]. change (2 ^ (11 - 0)) with 2048. rewrite bool_decide_true by lia.
    exists (2 ^ 64 - q * 2048). split; [lia|]. f_equal. lia.
  - destruct (Hq 1) as (q & Hb & Hn & ->); [lia|]. change (2 ^ (11 - 1)) with 1024. rewrite bool_decide_true by lia.
    exists (q * 1024). split; [lia|done].
  - destruct (Hq (-1)) as (q & Hb & Hn & ->); [lia|]. change (2 ^ (11 - -1)) with 4096. by rewrite bool_decide_false by lia.
Qed.

(** ** Due times *)

(** The due time of an event, as an offset from the start. *)
Definition due_offset (rate : double) (origin : Z) (ev : FeedEvent) : Z :=
  match offset_ns (u64 (inject_ns ev - origin)) rate with Ret a => a | Undef => 0 end.

Lemma due_offsets m e origin evs :
  Z.log2 (Z.pos m) = 52 → -952 ≤ e ≤ 848 →
  let rate := S754_finite false m e in
  Forall (λ ev, err_above * (u64 (inject_ns ev - origin) * scale) < 2 ^ 64 * (err_one * fixed rate)) evs →
  Forall (λ ev, offset_ns (u64 (inject_ns ev - origin)) rate = Ret (due_offset rate origin ev) ∧
    scaled_down (u64 (inject_ns ev - origin)) (fixed rate) (due_offset rate origin ev)) evs.
Proof.
  intros Hm He rate Hfit. eapply Forall_impl; [exact Hfit|]. intros ev Hev. cbn beta in Hev.
  assert (Hoff : 0 ≤ u64 (inject_ns ev - origin) < 2 ^ 64) by (apply Z.mod_pos_bound; done).
  destruct (offset_defined m e _ Hm He Hoff Hev) as (a & Ha & Hs & _). unfold due_offset. fold rate in Ha, Hs. by rewrite Ha.
Qed.

Lemma targets_defined m e start origin evs :
  Z.log2 (Z.pos m) = 52 → -952 ≤ e ≤ 848 →
  let rate := S754_finite false m e in
  Forall (λ ev, err_above * (u64 (inject_ns ev - origin) * scale) < 2 ^ 64 * (err_one * fixed rate)) evs →
  Forall2 (λ ev t, target_ns start origin (inject_ns ev) rate = Ret t) evs
    ((λ ev, (ev, u64 (start + due_offset rate origin ev))) <$> evs).*2.
Proof.
  intros Hm He rate Hfit. apply Forall2_fmap_r, Forall2_fmap_r, Forall_Forall2_diag.
  eapply Forall_impl; [by apply due_offsets|]. intros ev [Hev _]. rewrite target_offset. unfold rate. by rewrite Hev.
Qed.

End Offsets.

(** ** Properties *)

(** C18: replay at any rate, divided by as written or multiplied with its
    rounded reciprocal as the Release build may.  Let the rate be a double
    between 2^-900 and 2^900, and let no offset divided by it reach 2^64 ns,
    by the error of the roundings.  On a capture with
    any timestamps [replay_at_rate] terminates without undefined behaviour
    and delivers every event the header declares and the file holds, once
    and in file order; the first is due at the start and each of the others
    after its offset divided by the rate, with a relative error of at most
    (1 + 2^-53)^2 - 1 when it is divided and (1 + 2^-53)^3 - 1 when it is
    multiplied, before the quotient is rounded down to a nanosecond;
    the rounding never puts an event before one with a smaller offset; and
    the sleeps are those until the due times, and valid. *)
Theorem replay_at_any_rate `{!FloatMode} (m : positive) (e : Z) (clk : nat → timespec) (count : Z) (rec0 : list Z)
    (recs : list (list Z)) (tail : list Z) (r0 : PcapReader) :
  Z.log2 (Z.pos m) = 52 → -952 ≤ e ≤ 848 →
  Forall (λ rec, length rec = 88%nat) (rec0 :: recs) → (length tail < 88)%nat → in_width 64 count → 0 < count →
  let rate := S754_finite false m e in
  let start := clock_ns (clk 0%nat) in
  let first := decode_record rec0 in
  let evs := take (Z.to_nat (count - 1)) (decode_record <$> recs) in
  let offset ev := u64 (inject_ns ev - inject_ns first) in
  let due := due_offset rate (inject_ns first) in
  let schedule := (λ ev, (ev, u64 (start + due ev))) <$> evs in
  Forall (λ ev, err_above * (offset ev * scale) < 2 ^ 64 * (err_one * fixed rate)) evs →
  ∃ r r' log, PcapReader_open (Some (fopen_rb (header_bytes count ++ concat (rec0 :: recs) ++ tail))) r0 = (true, r) ∧
    replay_at_rate rate clk r = Ret (log, r') ∧
    deliveries log = (first, start) :: schedule ∧
    Forall (λ ev, scaled_down (offset ev) (fixed rate) (due ev)) evs ∧
    (∀ ev1 ev2, ev1 ∈ evs → ev2 ∈ evs → offset ev1 ≤ offset ev2 → due ev1 ≤ due ev2) ∧
    log = Delivered first start :: replay_log 1 clk schedule ∧ Forall sleep_ok log.
Proof.
  intros Hm He Hall Ht Hw Hc rate start first evs offset due schedule Hfit.
  assert (Hoff : ∀ ev, 0 ≤ offset ev < 2 ^ 64) by (intros ev; apply Z.mod_pos_bound; done).
  pose proof (due_offsets m e (inject_ns first) evs Hm He Hfit) as Hdue.
  destruct (replay_of_capture rate clk count rec0 recs tail r0 (λ ev, u64 (start + due ev))) as (r & r' & log & Ho & Hr & Hd & Hl & Hok); [done..| |].
  { by apply targets_defined. }
  exists r, r', log. split_and!; try done.
  - eapply Forall_impl; [exact Hdue|]. by intros ? [_ ?].
  - intros ev1 ev2 H1 H2 Hle. rewrite Forall_forall in Hdue. destruct (Hdue ev1 H1) as [E1 S1]. destruct (Hdue ev2 H2) as [E2 S2].
    assert (Htr : ∀ D a, offset_ns D rate = Ret a → double_trunc (quotient (double_of_Z D) rate) = Some a).
    { intros D a. unfold offset_ns, u64_of_double. destruct (double_trunc _); [|done]. case_bool_decide; [|done]. by intros [= ->]. }
    apply (rate_trunc_mono false m e Hm He (offset ev1) (offset ev2)); [pose proof (Hoff ev1); lia|apply Hoff|apply S1|apply S2|by apply Htr..].
Qed.

(** Once and a half as fast: half a millisecond becomes 333333 ns. *)
Definition one_and_a_half : double := S754_finite false 6755399441055744 (-52).

Section Release_replay_at_any_rate.
#[local] Existing Instance release_math.
Lemma replay_at_any_rate_witness :
  ∃ r r' log,
    PcapReader_open (Some (fopen_rb (header_bytes 3 ++ concat (record <$> [paced_event 0; paced_event 1; paced_event 2]) ++ []))) PcapReader_init =
      (true, r) ∧
    replay_at_rate one_and_a_half (λ i, mkTimespec 5 (200000 * Z.of_nat i)) r = Ret (log, r') ∧
    deliveries log = [(paced_event 0, 5000000000); (paced_event 1, 5000333333); (paced_event 2, 5000666666)] ∧
    scaled_down 500000 (fixed one_and_a_half) 333333.
Proof.
  destruct (replay_at_any_rate 6755399441055744 (-52) (λ i, mkTimespec 5 (200000 * Z.of_nat i)) 3 (record (paced_event 0))
    (record <$> [paced_event 1; paced_event 2]) [] PcapReader_init) as (r & r' & log & H1 & H2 & H3 & H4 & _).
  - reflexivity.
  - lia.
  - repeat constructor.
  - apply Nat.ltb_lt. reflexivity.
  - split; [discriminate|reflexivity].
  - reflexivity.
  - apply (bool_decide_unpack _). vm_compute. reflexivity.
  - exists r, r', log. split; [exact H1|]. split; [exact H2|]. split.
    + rewrite H3. vm_compute. reflexivity.
    + apply Forall_cons in H4 as [H4 _].
      assert (Ho : u64 (inject_ns (decode_record (record (paced_event 1))) - inject_ns (decode_record (record (paced_event 0)))) = 500000)
        by (vm_compute; reflexivity).
      assert (Ha : due_offset one_and_a_half (inject_ns (decode_record (record (paced_event 0)))) (decode_record (record (paced_event 1))) = 333333)
        by (vm_compute; reflexivity).
      rewrite <- Ho, <- Ha. exact H4.
Defined.
End Release_replay_at_any_rate.

(** C23: the rates that are not refused, in either mode.  A rate that is not a number is
    undefined behaviour on every capture that declares and holds two events
    or more; so is a negative rate when the second event's offset divided by
    it is at least 1 ns, and a positive one when the quotient is 2^64 or
    more (each by the error of the roundings, about 2^-52).  An infinite rate,
    which [std::stod] reads, is well defined in IEEE arithmetic: every event
    is due at the start, whatever its timestamp.  (For infinities and NaN
    -ffast-math makes no promise of its own.) *)
Theorem replay_at_extreme_rates `{!FloatMode} (clk : nat → timespec) (count : Z) (rec0 rec1 : list Z) (recs : list (list Z))
    (tail : list Z) (r0 : PcapReader) :
  Forall (λ rec, length rec = 88%nat) (rec0 :: rec1 :: recs) → (length tail < 88)%nat → in_width 64 count → 1 < count →
  let start := clock_ns (clk 0%nat) in
  let first := decode_record rec0 in
  let evs := take (Z.to_nat (count - 1)) (decode_record <$> rec1 :: recs) in
  let offset := u64 (inject_ns (decode_record rec1) - inject_ns first) in
  ∃ r, PcapReader_open (Some (fopen_rb (header_bytes count ++ concat (rec0 :: rec1 :: recs) ++ tail))) r0 = (true, r) ∧
    replay_at_rate S754_nan clk r = Undef ∧
    (∀ m e, Z.log2 (Z.pos m) = 52 → -952 ≤ e ≤ 848 →
       err_one * fixed (S754_finite true m e) ≤ err_below * (offset * scale) →
       replay_at_rate (S754_finite true m e) clk r = Undef) ∧
    (∀ m e, Z.log2 (Z.pos m) = 52 → -952 ≤ e ≤ 848 →
       2 ^ 64 * (err_one * fixed (S754_finite false m e)) ≤ err_below * (offset * scale) →
       replay_at_rate (S754_finite false m e) clk r = Undef) ∧
    (∀ s, ∃ log r', replay_at_rate (S754_infinity s) clk r = Ret (log, r') ∧
       deliveries log = (first, start) :: ((λ ev, (ev, start)) <$> evs)).
Proof.
  intros Hall Ht Hw Hc start first evs offset.
  assert (Hoff : ∀ ev : FeedEvent, 0 ≤ u64 (inject_ns ev - inject_ns first) < 2 ^ 64) by (intros ev; apply Z.mod_pos_bound; done).
  pose proof Hall as [H0 [H1 _]%Forall_cons]%Forall_cons.
  assert (Hundef : ∀ rate pos limit n, offset_ns offset rate = Undef →
    replay_at_rate rate clk (mkReader (Some (mkFILE (header_bytes count ++ concat (rec0 :: rec1 :: recs) ++ tail) pos limit)) count n) = Undef).
  { intros rate pos limit n Hu. cbn [concat]. rewrite <- !app_assoc. apply replay_undefined; try done.
    intros st. rewrite target_offset. fold first. fold offset. by rewrite Hu. }
  rewrite open_header by done. eexists. split; [done|]. split_and!.
  - apply Hundef, offset_nan.
  - intros m e Hm He Hle. apply Hundef, (offset_negative m e); [done|done|apply Hoff|done].
  - intros m e Hm He Hle. apply Hundef, (offset_undefined m e); [done|done|apply Hoff|done].
  - intros s.
    destruct (replay_of_capture (S754_infinity s) clk count rec0 (rec1 :: recs) tail r0 (λ _, start)) as (r & r' & log & Ho & Hr & Hd & _);
      [done|done|done|lia| |].
    + fold first evs. apply Forall2_fmap_r, Forall2_fmap_r, Forall_Forall2_diag, Forall_true. intros ev.
      rewrite target_offset, offset_infinite by (pose proof (Hoff ev); lia). ub_step. rewrite Z.add_0_r.
      f_equal. apply wrap_small, clock_ns_width.
    + rewrite open_header in Ho by done. injection Ho as <-. by exists log, r'.
Qed.

(** Two events half a millisecond apart: at -1, at 2^-60, and at once. *)
Section Release_replay_at_extreme_rates.
#[local] Existing Instance release_math.
Lemma replay_at_extreme_rates_witness :
  ∃ r, PcapReader_open (Some (fopen_rb (header_bytes 2 ++ concat [record (paced_event 0); record (paced_event 1)] ++ []))) PcapReader_init = (true, r) ∧
    replay_at_rate (SFopp double_1) (λ _, mkTimespec 5 0) r = Undef ∧
    replay_at_rate (pow2 (-60)) (λ _, mkTimespec 5 0) r = Undef ∧
    ∃ log r', replay_at_rate (S754_infinity false) (λ _, mkTimespec 5 0) r = Ret (log, r') ∧
      deliveries log = [(paced_event 0, 5000000000); (paced_event 1, 5000000000)].
Proof.
  destruct (replay_at_extreme_rates (λ _, mkTimespec 5 0) 2 (record (paced_event 0)) (record (paced_event 1)) [] [] PcapReader_init)
    as (r & Ho & _ & Hneg & Hsmall & Hinf).
  - repeat constructor.
  - apply Nat.ltb_lt. reflexivity.
  - split; [discriminate|reflexivity].
  - reflexivity.
  - exists r. split; [exact Ho|]. split; [|split].
    + apply (Hneg 4503599627370496%positive (-52)); [reflexivity|lia|]. apply (bool_decide_unpack _). vm_compute. reflexivity.
    + apply (Hsmall 4503599627370496%positive (-112)); [reflexivity|lia|]. apply (bool_decide_unpack _). vm_compute. reflexivity.
    + destruct (Hinf false) as (log & r' & Hr & Hd). exists log, r'. split; [exact Hr|]. rewrite Hd. vm_compute. reflexivity.
Defined.
End Release_replay_at_extreme_rates.


(** The second event was stamped half a millisecond before the first. *)
Section Release_replay_out_of_order.
#[local] Existing Instance release_math.
End Release_replay_out_of_order.
