(* ===== verification/Streams.v ===== *)
(** * Streams of the capture files

    The streams that programs with [PcapWriter] and [PcapReader] objects
    hold: every [fopen] and [fclose] of [include/ultrafast/pcap_writer.hpp]
    and [include/ultrafast/pcap_reader.hpp] on the account of open streams
    of the process. *)

From stdpp Require Import gmap.
From S2P Require Import Prelude Double FeedEvent Packet Xsk Umem XdpSocket FeedHandler Pcap Replay.

(** ** Programs *)

Inductive capture : Type :=
| AReader (r : PcapReader)
| AWriter (w : PcapWriter).

Definition is_one {A} (o : option A) : Z := match o with Some _ => 1 | None => 0 end.

(** The streams an object has open. *)
Definition streams_of (c : capture) : Z := match c with AReader r => is_one (r_file_ r) | AWriter w => is_one (w_file_ w) end.

(** The objects, the streams open in the process, and how often [open] was
    called on a reader that was open. *)
Record streams : Type := mkStreams { st_objs : gmap Z capture; st_live : Z; st_reopened : Z }.

Definition streams0 : streams := mkStreams ∅ 0 0.

(** What [fopen] answers is part of a command that calls it. *)
Inductive command : Type :=
| NewReader (id : Z)
| OpenReader (id : Z) (opened : option FILE)
| NextReader (id : Z)
| RewindReader (id : Z)
| ReplayReader (id : Z) (rate : double) (clk : nat → timespec)
| NewWriter (id : Z) (opened : option ostream)
| WriteWriter (id : Z) (ev : FeedEvent)
| Close (id : Z)
| Destroy (id : Z).

(** An [fopen], and the [fclose] of a stream if there is one. *)
Definition opening {A} (opened : option A) (s : streams) : streams :=
  mkStreams (st_objs s) (st_live s + is_one opened) (st_reopened s).
Definition closing (n : Z) (s : streams) : streams := mkStreams (st_objs s) (st_live s - n) (st_reopened s).
Definition set_obj (id : Z) (c : capture) (s : streams) : streams :=
  mkStreams (<[id := c]> (st_objs s)) (st_live s) (st_reopened s).

(** [open] stores the new stream first; on a file it refuses it closes that
    stream again. *)
Definition exec_open (id : Z) (opened : option FILE) (r : PcapReader) (s : streams) : streams :=
  let s := mkStreams (st_objs s) (st_live s) (st_reopened s + is_one (r_file_ r)) in
  let s := opening opened s in
  let '(ok, r') := PcapReader_open opened r in
  let s := if ok then s else closing (is_one opened) s in
  set_obj id (AReader r') s.

(** [close], and the destructors, which call it. *)
Definition close_capture (c : capture) : capture :=
  match c with AReader r => AReader (PcapReader_close r) | AWriter w => AWriter (PcapWriter_close w).2 end.

(** One command; [None] if the object it names does not exist, is of the
    other kind, or exists already. *)
Definition exec_command `{!FloatMode} (cmd : command) (s : streams) : option (outcome streams) :=
  match cmd with
  | NewReader id =>
      match st_objs s !! id with None => Some (Ret (set_obj id (AReader PcapReader_init) s)) | _ => None end
  | OpenReader id opened =>
      match st_objs s !! id with Some (AReader r) => Some (Ret (exec_open id opened r s)) | _ => None end
  | NextReader id =>
      match st_objs s !! id with Some (AReader r) => Some (Ret (set_obj id (AReader (next r).2) s)) | _ => None end
  | RewindReader id =>
      match st_objs s !! id with Some (AReader r) => Some (Ret (set_obj id (AReader (rewind r).2) s)) | _ => None end
  | ReplayReader id rate clk =>
      match st_objs s !! id with
      | Some (AReader r) => Some ('(_, r') ← replay_at_rate rate clk r; Ret (set_obj id (AReader r') s))
      | _ => None
      end
  | NewWriter id opened =>
      match st_objs s !! id with
      | None => Some (Ret (set_obj id (AWriter (PcapWriter_ctor opened)) (opening opened s)))
      | _ => None
      end
  | WriteWriter id ev =>
      match st_objs s !! id with Some (AWriter w) => Some (Ret (set_obj id (AWriter (write_event ev w).2) s)) | _ => None end
  | Close id =>
      match st_objs s !! id with Some c => Some (Ret (set_obj id (close_capture c) (closing (streams_of c) s))) | None => None end
  | Destroy id =>
      match st_objs s !! id with
      | Some c => let s := closing (streams_of c) s in
                  Some (Ret (mkStreams (delete id (st_objs s)) (st_live s) (st_reopened s)))
      | None => None
      end
  end.

Fixpoint exec_commands `{!FloatMode} (cmds : list command) (s : streams) : option (outcome streams) :=
  match cmds with
  | [] => Some (Ret s)
  | cmd :: cmds =>
      match exec_command cmd s with
      | Some (Ret s') => exec_commands cmds s'
      | r => r
      end
  end.

(** ** The account *)

(** Streams the objects hold. *)
Definition held (m : gmap Z capture) : Z := map_fold (λ _ c n, streams_of c + n) 0 m.

Lemma held_insert m id c : m !! id = None → held (<[id := c]> m) = streams_of c + held m.
Proof. intros H. unfold held. apply (map_fold_insert_L (λ _ c n, streams_of c + n)); [|done]. intros. lia. Qed.

Lemma held_delete m id c : m !! id = Some c → held m = streams_of c + held (delete id m).
Proof. intros H. unfold held. apply (map_fold_delete_L (λ _ c n, streams_of c + n)); [|done]. intros. lia. Qed.

Lemma held_update m id c c' : m !! id = Some c → held (<[id := c']> m) = held m + streams_of c' - streams_of c.
Proof.
  intros H. rewrite <- insert_delete_eq, held_insert by apply lookup_delete_eq. rewrite (held_delete m id c H). lia.
Qed.

Lemma held_nonneg m : 0 ≤ held m.
Proof.
  induction m as [|id c m Hid IH] using map_ind; [done|]. rewrite held_insert by done.
  assert (0 ≤ streams_of c); [|lia]. destruct c as [r|w]; cbn; [by destruct (r_file_ r)|by destruct (w_file_ w)].
Qed.

(** Reading, rewinding and writing keep the stream. *)
Lemma next_stream r : is_one (r_file_ (next r).2) = is_one (r_file_ r).
Proof.
  unfold next. destruct (r_file_ r) eqn:Hf; [|cbn; by rewrite Hf]. case_bool_decide; [cbn; by rewrite Hf|].
  by destruct (fread_seq _ _) as [[[|? [|? [|? [|? [|? [|? ?]]]]]]|] ?].
Qed.

Lemma rewind_stream r : is_one (r_file_ (rewind r).2) = is_one (r_file_ r).
Proof. unfold rewind. destruct (r_file_ r) eqn:Hf; [|cbn; by rewrite Hf]. by destruct (fseek _ _). Qed.

Lemma replay_loop_stream `{!FloatMode} fuel : ∀ i start origin rate clk r log r',
  replay_loop fuel i start origin rate clk r = Ret (log, r') → is_one (r_file_ r') = is_one (r_file_ r).
Proof.
  induction fuel as [|fuel IH]; intros i start origin rate clk r log r'; cbn [replay_loop]; [by intros [= _ <-]|].
  case_bool_decide; [|by intros [= _ <-]]. pose proof (next_stream r) as Hn. destruct (next r) as [[ev|] r1]; cbn in Hn; [|by intros [= _ <-]].
  destruct (target_ns _ _ _ _); [|done]. ub_step. destruct (replay_loop fuel _ _ _ _ _ r1) as [[log2 r2]|] eqn:Hr; [|done].
  ub_step. intros [= _ <-]. apply IH in Hr. congruence.
Qed.

Lemma replay_stream `{!FloatMode} rate clk r log r' : replay_at_rate rate clk r = Ret (log, r') → is_one (r_file_ r') = is_one (r_file_ r).
Proof.
  unfold replay_at_rate. destruct (r_file_ r) eqn:Hf; [|by intros [= _ <-]; rewrite Hf].
  case_bool_decide; [by intros [= _ <-]; rewrite Hf|]. pose proof (rewind_stream r) as Hw. destruct (rewind r) as [ok r1]. cbn in Hw.
  pose proof (next_stream r1) as Hn. destruct (next r1) as [[first|] r2]; cbn in Hn; [|intros [= _ <-]; congruence].
  destruct (replay_loop _ _ _ _ _ _ r2) as [[log2 r3]|] eqn:Hr; [|done]. ub_step. intros [= _ <-].
  apply replay_loop_stream in Hr. congruence.
Qed.

Lemma write_stream ev w : is_one (w_file_ (write_event ev w).2) = is_one (w_file_ w).
Proof. unfold write_event. destruct (w_file_ w) eqn:Hf; [|cbn; by rewrite Hf]. by destruct (fwrite_seq _ _) as [[] ?]. Qed.

(** After [open] the reader holds the new stream if it accepted it, and no
    stream otherwise. *)
Lemma open_stream opened r :
  let '(ok, r') := PcapReader_open opened r in
  is_one (r_file_ r') = if ok then is_one opened else 0.
Proof.
  unfold PcapReader_open. destruct opened as [f|]; [|done].
  destruct (fread_seq _ _) as [[[|? [|? [|? [|? [|? ?]]]]]|] ?]; try done. by destruct (_ || _).
Qed.

Lemma close_stream c : (streams_of (close_capture c)) = 0.
Proof. destruct c as [r|w]; [done|]. cbn. unfold PcapWriter_close. destruct (w_file_ w) eqn:Hf; [done|]. cbn. by rewrite Hf. Qed.

(** Every open stream is held by one object, or was held by a reader that
    was opened again. *)
Definition accounted (s : streams) : Prop := st_live s = held (st_objs s) + st_reopened s ∧ 0 ≤ st_reopened s.

(** A command that keeps the stream of the object it names. *)
Lemma accounted_keep s id c c' :
  st_objs s !! id = Some c → (streams_of c') = streams_of c → accounted s → accounted (set_obj id c' s).
Proof. intros Hid Hc [Ha Hr]. split; [|done]. cbn. rewrite (held_update _ _ _ _ Hid). lia. Qed.

Lemma exec_command_accounted `{!FloatMode} cmd s s' :
  exec_command cmd s = Some (Ret s') → accounted s → accounted s'.
Proof.
  intros He Hs. destruct cmd as [id|id opened|id|id|id rate clk|id opened|id ev|id|id]; cbn [exec_command] in He;
    destruct (st_objs s !! id) as [[r|w]|] eqn:Hid; try done.
  - injection He as <-. destruct Hs as [Ha Hr]. split; [|done]. cbn. rewrite held_insert by done. cbn. lia.
  - injection He as <-. unfold exec_open. pose proof (open_stream opened r) as Ho. destruct (PcapReader_open opened r) as [ok r'].
    destruct Hs as [Ha Hr]. split; destruct ok; cbn; rewrite ?(held_update _ _ _ _ Hid); cbn; destruct (r_file_ r); cbn in *; lia.
  - injection He as <-. by eapply accounted_keep; [exact Hid|apply next_stream|].
  - injection He as <-. by eapply accounted_keep; [exact Hid|apply rewind_stream|].
  - destruct (replay_at_rate rate clk r) as [[log r']|] eqn:Hr; [|done]. injection He as <-.
    by eapply accounted_keep; [exact Hid|by eapply replay_stream|].
  - injection He as <-. destruct Hs as [Ha Hr]. split; [|done]. cbn. rewrite held_insert by done.
    assert (streams_of (AWriter (PcapWriter_ctor opened)) = is_one opened) by by destruct opened. lia.
  - injection He as <-. by eapply accounted_keep; [exact Hid|apply write_stream|].
  - injection He as <-. destruct Hs as [Ha Hr]. split; [|done]. cbn [set_obj closing st_objs st_live st_reopened].
    rewrite (held_update _ _ _ _ Hid). pose proof (close_stream (AReader r)). cbn [close_capture streams_of] in *. lia.
  - injection He as <-. destruct Hs as [Ha Hr]. split; [|done]. cbn [set_obj closing st_objs st_live st_reopened].
    rewrite (held_update _ _ _ _ Hid). pose proof (close_stream (AWriter w)). cbn [close_capture streams_of] in *. lia.
  - injection He as <-. destruct Hs as [Ha Hr]. split; [|done]. cbn. rewrite (held_delete _ _ _ Hid) in Ha. cbn in Ha. lia.
  - injection He as <-. destruct Hs as [Ha Hr]. split; [|done]. cbn. rewrite (held_delete _ _ _ Hid) in Ha. cbn in Ha. lia.
Qed.

Lemma exec_commands_accounted `{!FloatMode} cmds : ∀ s s', exec_commands cmds s = Some (Ret s') → accounted s → accounted s'.
Proof.
  induction cmds as [|cmd cmds IH]; intros s s'; cbn; [by intros [= <-]|].
  destruct (exec_command cmd s) as [[s1|]|] eqn:He; [|done|done]. intros Hr Hs. by eapply IH, exec_command_accounted.
Qed.

(** ** Properties *)

(** C25: the capture files' streams are accounted for.  In any program over
    writers and readers -- opened, refused by [open], read, rewound,
    replayed, written, closed twice, destroyed -- every stream [fopen] gave
    is closed at most once, by [close] or by a destructor, and the streams
    open are those the objects hold and one for every call of [open] on a
    reader that was open, which forgets the stream it had: a program that
    never does that has no stream left when its objects are gone, and one
    that does has exactly as many left as it did. *)
Theorem streams_accounted `{!FloatMode} (cmds : list command) (s : streams) :
  exec_commands cmds streams0 = Some (Ret s) →
  st_live s = held (st_objs s) + st_reopened s ∧ 0 ≤ held (st_objs s) ∧ 0 ≤ st_reopened s ∧
  (st_objs s = ∅ → st_live s = st_reopened s).
Proof.
  intros He. destruct (exec_commands_accounted cmds streams0 s He) as [Ha Hr]; [split; done|].
  split; [exact Ha|]. split; [apply held_nonneg|]. split; [exact Hr|]. intros Ho. rewrite Ha, Ho. done.
Qed.

(** A reader opened twice and destroyed leaves one stream open; a writer
    closed and destroyed none. *)
Definition reopening : list command :=
  let f := Some (fopen_rb (header_bytes 1 ++ record (paced_event 0))) in
  [NewWriter 1 (Some (fopen_wb (buffer_of 4096) 200)); WriteWriter 1 (paced_event 0); Close 1; Destroy 1;
   NewReader 2; OpenReader 2 f; NextReader 2; OpenReader 2 f; NextReader 2; Close 2; Destroy 2].

Section Release_streams_accounted.
#[local] Existing Instance release_math.
Lemma streams_accounted_witness : ∃ s, exec_commands reopening streams0 = Some (Ret s) ∧ st_objs s = ∅ ∧ st_live s = 1.
Proof.
  destruct (exec_commands reopening streams0) as [[s|]|] eqn:He; [|vm_compute in He; discriminate..].
  destruct (streams_accounted reopening s He) as (_ & _ & _ & Hl). exists s. split; [reflexivity|].
  vm_compute in He. injection He as <-. split; [reflexivity|]. exact (Hl eq_refl).
Defined.
End Release_streams_accounted.
