(* ===== verification/Tools.v ===== *)
(** * The command-line tools

    Model of [tools/replay_feed.cpp] (capture generation, the replay with
    its drift statistics) and of [tools/test_sender.cpp].  Printing is
    represented by the values printed. *)

From S2P Require Import Prelude Double Stats Queue RingBuffer FeedEvent Packet Xsk Umem XdpSocket FeedHandler Pcap Sender Replay.

(** ** replay_feed: generating a capture *)

(** Event [i] of a generated capture. *)
Definition generated_event (base_ns i : Z) : FeedEvent :=
  let inject := u64 (base_ns + u64 (i * 500000)) in
  let receive := u64 (inject + 1500) in
  let filled := replicate (Z.to_nat kMaxPayload) (Z.land i 255) in
  mkEvent inject receive (src_ip event_zero) (src_port event_zero) (dst_port event_zero) (u16 kMaxPayload)
          (pad_ event_zero) (memcpy filled (le_bytes 8 inject)).

(** The [for] loop: the exit code when a write fails. *)
Fixpoint generate_loop (n : nat) (i base_ns : Z) (w : PcapWriter) : option Z * PcapWriter :=
  match n with
  | O => (None, w)
  | S n =>
      match write_event (generated_event base_ns i) w with
      | (false, w') => (Some 1, w')
      | (true, w') => generate_loop n (i + 1) base_ns w'
      end
  end.

(** [do_generate]: the exit code and the file left behind by the writer's
    destructor. *)
Definition do_generate (opened : option ostream) (now : timespec) (count : Z) : Z * option (list Z) :=
  let w := PcapWriter_ctor opened in
  if negb (writer_is_open w) then (1, None)
  else
    let '(e, w') := generate_loop (Z.to_nat count) 0 (clock_ns now) w in
    (default 0 e, (PcapWriter_close w').1).

(** ** replay_feed: replaying *)

(** The drift of each delivery; [now] is the clock in the callback. *)
Definition drift_of (now scheduled : Z) : outcome Z := i64_result (i64 now - i64 scheduled).

Fixpoint drifts_of (now : nat → timespec) (i : nat) (ds : list (FeedEvent * Z)) : outcome (list Z) :=
  match ds with
  | [] => Ret []
  | (_, scheduled) :: ds =>
      d ← drift_of (clock_ns (now i)) scheduled;
      rest ← drifts_of now (S i) ds;
      Ret (d :: rest)
  end.

Fixpoint i64_sum (acc : Z) (ds : list Z) : outcome Z :=
  match ds with
  | [] => Ret acc
  | d :: ds => acc' ← i64_result (acc + d); i64_sum acc' ds
  end.

(** [pct]: an element of the sorted drifts. *)
Definition pct (drifts : list Z) (count : Z) (p : double) : outcome Z :=
  idx ← rank p count;
  array_get drifts idx.

Record report : Type := mkReport {
  rp_count : Z; rp_total : Z; rp_mean : double; rp_min : Z; rp_p50 : Z; rp_p99 : Z; rp_max : Z;
}.

(** How the tool ends: an exit code with the statistics it printed, or an
    uncaught exception ([reserve] could not get the memory). *)
Inductive tool_end : Type :=
| Exit (code : Z) (printed : option report)
| Uncaught.

Definition drift_report (total count : Z) (unsorted : list Z) : outcome report :=
  let drifts := sorted_samples unsorted in
  min_drift ← deref (head drifts);
  max_drift ← deref (last drifts);
  sum ← i64_sum 0 drifts;
  let mean := double_div (double_of_Z sum) (double_of_Z count) in
  p50 ← pct drifts count double_0_50;
  p99 ← pct drifts count double_0_99;
  Ret (mkReport count total mean min_drift p50 p99 max_drift).

(** [do_replay]; [can_reserve] says whether the vector can get room for that
    many elements. *)
Definition do_replay `{!FloatMode} (can_reserve : Z → bool) (opened : option FILE) (rate : double)
    (clk cb_clk : nat → timespec) : outcome tool_end :=
  match PcapReader_open opened PcapReader_init with
  | (false, _) => Ret (Exit 1 None)
  | (true, reader) =>
      let total := total_events_ reader in
      if bool_decide (total = 0) then Ret (Exit 0 None)
      else if negb (can_reserve total) then Ret Uncaught
      else
        '(log, _) ← replay_at_rate rate clk reader;
        drifts ← drifts_of cb_clk 0 (deliveries log);
        let count := Z.of_nat (length drifts) in
        if bool_decide (count = 0) then Ret (Exit 0 None)
        else r ← drift_report total count drifts; Ret (Exit 0 (Some r))
  end.

(** ** test_sender *)

Definition kCount : nat := 5.

(** The loop of [main]: the number of datagrams sent; a failure is reported
    and the loop goes on. *)
Fixpoint test_sender_loop (n : nat) (i : Z) (env : Z → timespec * Z) (s : SyntheticSender) : Z :=
  match n with
  | O => 0
  | S n =>
      let rest := test_sender_loop n (i + 1) env s in
      match (send_one (env i).1 (env i).2 s).1 with
      | inr _ => 1 + rest
      | inl _ => rest
      end
  end.

Definition test_sender_main `{!SenderKernel} (env : Z → timespec * Z) (o : os) : outcome (Z * os) :=
  '(r, o1) ← SyntheticSender_ctor "10.11.0.1" "10.11.0.2" 9999 "sender_ns" o;
  match r with
  | inl _ => Ret (1, o1)
  | inr sender =>
      let sent := test_sender_loop kCount 0 env sender in
      o2 ← SyntheticSender_dtor sender o1;
      Ret (if bool_decide (sent = Z.of_nat kCount) then 0 else 1, o2)
  end.

(** ** Generating *)

Definition generated (base i : Z) (n : nat) : list FeedEvent := generated_event base <$> seqZ i (Z.of_nat n).

Lemma generated_S base i n : generated base i (S n) = generated_event base i :: generated base (i + 1) n.
Proof.
  unfold generated. rewrite seqZ_cons by lia. cbn. by replace (Z.pred _) with (Z.of_nat n) by lia.
Qed.

Lemma length_generated base i n : length (generated base i n) = n.
Proof. unfold generated. rewrite length_fmap, length_seqZ. lia. Qed.

Lemma generated_event_typed base i : event_typed (generated_event base i).
Proof.
  assert (Hb : is_byte (Z.land i 255)).
  { unfold is_byte. change 255 with (Z.ones 8). rewrite Z.land_ones by lia. apply Z.mod_pos_bound. lia. }
  split; cbn [inject_ns receive_ns src_ip src_port dst_port ev_payload_len pad_ ev_payload generated_event];
    try (by apply (bool_decide_unpack _)); try (apply in_width_wrap; lia).
  unfold memcpy. split; [by rewrite length_app, length_le_bytes|].
  apply Forall_app. split; [apply le_bytes_is_byte|]. apply Forall_drop, Forall_replicate, Hb.
Qed.

Lemma generated_typed base n : ∀ i, Forall event_typed (generated base i n).
Proof.
  induction n as [|n IH]; intros i; [by apply Forall_nil|]. rewrite generated_S. constructor; auto using generated_event_typed.
Qed.

Lemma generated_payloads base i n : Forall (λ ev, length (ev_payload ev) = 64%nat) (generated base i n).
Proof. apply typed_payloads, generated_typed. Qed.

(** The loop stops at the first write that fails, [k] events on; then the
    disk is full, and has no more whole records than these [k]. *)
Lemma generate_loop_spec base n : ∀ i L S s c,
  good L S s → in_width 64 c →
  ∃ k s', generate_loop n i base (mkWriter (Some s) c) =
      (if bool_decide (k = n) then None else Some 1, mkWriter (Some s') (u64 (c + Z.of_nat k))) ∧
    (k = n ∧ good L (S ++ concat (record <$> generated base i n)) s' ∨
     (k < n)%nat ∧ full L (S ++ concat (record <$> generated base i n)) s' ∧ os_pending s' = [] ∧
       L < Z.of_nat (length S) + 88 * (Z.of_nat k + 1)).
Proof.
  induction n as [|n IH]; intros i L S s c Hs Hc.
  { exists 0%nat, s. change (generated base i 0) with (@nil FeedEvent). cbn. rewrite Z.add_0_r, u64_small, app_nil_r by done. auto. }
  pose proof (length_record _ (proj1 (et_payload _ (generated_event_typed base i)))) as Hrl.
  rewrite generated_S. cbn [generate_loop fmap list_fmap concat]. set (ev := generated_event base i) in *. rewrite app_assoc.
  destruct (write_event_good L S s c ev Hs) as (s1 & -> & H1). destruct (fwrite_seq (record_fields ev) s).1.
  - destruct (IH (i + 1) L (S ++ record ev) s1 (u64 (c + 1)) H1) as (k & s2 & -> & H2); [by apply in_width_wrap|].
    exists (Datatypes.S k), s2. split.
    + f_equal; [by rewrite (bool_decide_ext (Datatypes.S k = Datatypes.S n) (k = n)) by lia|]. f_equal.
      unfold u64, wrap. rewrite Zplus_mod_idemp_l. f_equal. lia.
    + destruct H2 as [[-> H2]|(Hk & H2 & Hn & Hl)]; [by left|right]. rewrite length_app, Hrl in Hl. split_and!; [lia|done|done|lia].
  - destruct H1 as [H1 Hn]. exists 0%nat, s1. rewrite Z.add_0_r, u64_small by done. split; [done|]. right.
    split_and!; [lia|by apply full_app|done|]. pose proof (fu_long _ _ _ H1) as Hl. rewrite length_app, Hrl in Hl. lia.
Qed.

(** A large enough buffer accepts everything. *)
Lemma generate_loop_held base N n : ∀ i s c,
  (∀ p b, (p + b ≤ N)%nat → os_push s p b = 0%nat) → (length (os_pending s) + 88 * n ≤ N)%nat →
  (generate_loop n i base (mkWriter (Some s) c)).1 = None.
Proof.
  induction n as [|n IH]; intros i s c Hp Hn; cbn [generate_loop]; [done|].
  pose proof (length_record _ (proj1 (et_payload _ (generated_event_typed base i)))) as Hrl. unfold record in Hrl.
  destruct (fwrite_seq_held (record_fields (generated_event base i)) N s Hp ltac:(lia)) as (E1 & E2 & E3).
  unfold write_event. cbn [w_file_ w_count_]. destruct (fwrite_seq _ s) as [ok s1]; cbn [fst snd] in *. subst ok.
  apply IH; [by rewrite E3|]. rewrite E2, length_app. lia.
Qed.

Lemma take_generated base k : ∀ n i, (k ≤ n)%nat → take k (generated base i n) = generated base i k.
Proof.
  induction k as [|k IH]; intros n i Hk; [done|]. destruct n as [|n]; [lia|].
  rewrite !generated_S. cbn [take]. f_equal. apply IH. lia.
Qed.

Lemma captured_generated base n : ∀ i, captured <$> generated base i n = generated base i n.
Proof.
  induction n as [|n IH]; intros i; [done|]. rewrite generated_S, fmap_cons, IH. by f_equal.
Qed.

Lemma generated_lookup base n i ev :
  generated base 0 n !! i = Some ev → ev = generated_event base (Z.of_nat i).
Proof.
  unfold generated. rewrite list_lookup_fmap_Some. intros (j & -> & [-> _]%lookup_seqZ). done.
Qed.

Lemma generated_stamp base i :
  let ev := generated_event base i in
  inject_ns ev = u64 (base + 500000 * i) ∧ receive_ns ev = u64 (inject_ns ev + 1500) ∧
  le_value (take 8 (ev_payload ev)) = inject_ns ev.
Proof.
  cbv zeta. split_and!; [|done|].
  - cbn. unfold u64, wrap. rewrite Zplus_mod_idemp_r. f_equal. lia.
  - unfold generated_event. cbn [ev_payload inject_ns]. unfold memcpy.
    rewrite take_app_length' by (by rewrite length_le_bytes). eapply le_roundtrip; [done|]. apply in_width_wrap. lia.
Qed.

(** ** The statistics *)

Lemma pct_ok drifts m :
  Z.log2 (Z.pos m) = 52 → (0 < length drifts)%nat → Z.of_nat (length drifts) < 2 ^ 53 →
  let n := Z.of_nat (length drifts) in
  ∃ z x, rank (fraction m) n = Ret z ∧ pct drifts n (fraction m) = Ret x ∧ drifts !! Z.to_nat z = Some x ∧ 0 ≤ z < n ∧
    (z = (Z.pos m * (n - 1)) `div` 2 ^ 53 ∨ z = (Z.pos m * (n - 1)) `div` 2 ^ 53 + 1).
Proof.
  intros Hm H0 Hn n. assert (Hnl : n = Z.of_nat (length drifts)) by done. clearbody n. destruct (rank_spec m n Hm) as (z & Hz & Hb & Hf); [lia|].
  destruct (lookup_lt_is_Some_2 drifts (Z.to_nat z)) as [x Hx]; [lia|]. exists z, x.
  unfold pct. rewrite Hz. ub_step. split_and!; try done; try lia. apply array_get_lookup; [lia|done].
Qed.

(** Adding up numbers whose absolute values add up to less than [2 ^ 63]
    never overflows. *)
Definition sum_list_Z (ds : list Z) : Z := foldr Z.add 0 ds.
Definition sum_abs (ds : list Z) : Z := sum_list_Z (Z.abs <$> ds).

Lemma sum_list_Z_perm ds ds' : ds ≡ₚ ds' → sum_list_Z ds = sum_list_Z ds'.
Proof. unfold sum_list_Z. induction 1; cbn; lia. Qed.

Lemma sum_abs_nonneg ds : 0 ≤ sum_abs ds.
Proof.
  induction ds as [|d ds IH]; [done|]. change (sum_abs (d :: ds)) with (Z.abs d + sum_abs ds). lia.
Qed.

Lemma i64_sum_ok ds : ∀ acc, Z.abs acc + sum_abs ds < 2 ^ 63 → i64_sum acc ds = Ret (acc + sum_list_Z ds).
Proof.
  induction ds as [|d ds IH]; intros acc Hb; [cbn; by rewrite Z.add_0_r|].
  pose proof (sum_abs_nonneg ds). change (sum_abs (d :: ds)) with (Z.abs d + sum_abs ds) in Hb.
  cbn [i64_sum]. unfold i64_result. rewrite bool_decide_true by lia. ub_step. rewrite IH by lia. f_equal.
  change (sum_list_Z (d :: ds)) with (d + sum_list_Z ds). lia.
Qed.

(** What the statistics of the drifts [ds] are. *)
Record report_of (total : Z) (ds : list Z) (rp : report) : Prop := {
  ro_count : rp_count rp = Z.of_nat (length ds) ∧ rp_total rp = total;
  ro_mean : rp_mean rp = double_div (double_of_Z (sum_list_Z ds)) (double_of_Z (Z.of_nat (length ds)));
  ro_min : rp_min rp ∈ ds ∧ Forall (λ d, rp_min rp ≤ d) ds;
  ro_max : rp_max rp ∈ ds ∧ Forall (λ d, d ≤ rp_max rp) ds;
  ro_order : rp_min rp ≤ rp_p50 rp ≤ rp_p99 rp ∧ rp_p99 rp ≤ rp_max rp;
  ro_p50 : ∃ i, sorted_samples ds !! Z.to_nat i = Some (rp_p50 rp) ∧ Z.abs (2 * i - (Z.of_nat (length ds) - 1)) ≤ 2;
  ro_p99 : ∃ i, sorted_samples ds !! Z.to_nat i = Some (rp_p99 rp) ∧ Z.abs (100 * i - 99 * (Z.of_nat (length ds) - 1)) ≤ 107;
}.

Lemma drift_report_ok total ds :
  ds ≠ [] → Z.of_nat (length ds) < 2 ^ 53 → sum_abs ds < 2 ^ 63 →
  ∃ rp, drift_report total (Z.of_nat (length ds)) ds = Ret rp ∧ report_of total ds rp.
Proof.
  intros Hne Hn Hs. assert (Hl0 : (0 < length ds)%nat) by (destruct ds; cbn; [done|lia]).
  destruct (sorted_samples_ends ds Hne) as (lo & hi & Hlo & Hhi & Hlod & Hhid & Hends).
  pose proof (sorted_samples_perm ds) as Hp. pose proof (sorted_samples_sorted ds) as Hsort.
  pose proof (length_sorted_samples ds) as Hlen. unfold drift_report. rewrite Hlo, Hhi. ub_step.
  rewrite i64_sum_ok.
  2: { unfold sum_abs. rewrite (sum_list_Z_perm _ (Z.abs <$> ds)) by (by rewrite Hp). done. }
  rewrite (sum_list_Z_perm _ ds Hp). ub_step.
  destruct (pct_ok (sorted_samples ds) 4503599627370496) as (z50 & p50 & Hz50 & E50 & L50 & B50 & F50); [done|lia..|].
  destruct (pct_ok (sorted_samples ds) 8917127262193582) as (z99 & p99 & Hz99 & E99 & L99 & B99 & F99); [done|lia..|].
  rewrite Hlen in *. change double_0_50 with (fraction 4503599627370496). change double_0_99 with (fraction 8917127262193582).
  rewrite E50. ub_step. rewrite E99. ub_step. eexists. split; [done|].
  assert (Hz : z50 ≤ z99).
  { eapply (rank_mono 4503599627370496 8917127262193582 (Z.of_nat (length ds))); [done..|vm_compute; reflexivity|lia|done|done]. }
  assert (Hall : ∀ i x, sorted_samples ds !! i = Some x → lo ≤ x ≤ hi).
  { intros i x Hx%list_elem_of_lookup_2. rewrite Hp in Hx. rewrite Forall_forall in Hends. by apply Hends. }
  split; cbn [rp_count rp_total rp_mean rp_min rp_p50 rp_p99 rp_max]; rewrite ?Z.add_0_l; try done.
  - split; [done|]. eapply Forall_impl; [exact Hends|]. cbn. lia.
  - split; [done|]. eapply Forall_impl; [exact Hends|]. cbn. lia.
  - split; [split|]; [by apply (Hall _ _ L50)| |by apply (Hall _ _ L99)].
    eapply (sorted_lookup_le _ (Z.to_nat z50) (Z.to_nat z99)); [done|lia|done..].
  - exists z50. split; [done|]. apply half_rank; exact F50.
  - exists z99. split; [done|]. apply p99_rank; [lia|exact F99].
Qed.

(** The drifts, when no clock reading or due time reaches [2 ^ 63] ns. *)
Lemma drifts_of_ok now ds : ∀ i,
  Forall (λ p, 0 ≤ p.2 < 2 ^ 63) ds → (∀ j, clock_ns (now j) < 2 ^ 63) →
  drifts_of now i ds = Ret (imap (λ j p, clock_ns (now (i + j)%nat) - p.2) ds).
Proof.
  induction ds as [|[ev t] ds IH]; intros i Hall Hnow; [done|]. apply Forall_cons in Hall as [Ht Hall]. cbn in Ht.
  pose proof (clock_ns_width (now i)) as [Hc _]. specialize (Hnow i) as Hc2.
  cbn [drifts_of imap]. unfold drift_of, i64_result, i64. rewrite !(bool_decide_true (_ < 2 ^ 63)) by lia.
  rewrite bool_decide_true by lia. ub_step. rewrite IH by done. ub_step. cbn [snd]. rewrite Nat.add_0_r. do 2 f_equal.
  apply imap_ext. intros j p _. cbn. by replace (i + S j)%nat with (S i + j)%nat by lia.
Qed.

(** Due times are [uint64_t] values. *)
Lemma schedule_due start ts (first : FeedEvent) (due : FeedEvent → Z) evs :
  start = clock_ns ts → (∀ ev, in_width 64 (due ev)) →
  Forall (λ p : FeedEvent * Z, p.2 < 2 ^ 63) ((first, start) :: ((λ ev, (ev, due ev)) <$> evs)) →
  Forall (λ p, 0 ≤ p.2 < 2 ^ 63) ((first, start) :: ((λ ev, (ev, due ev)) <$> evs)).
Proof.
  intros -> Hdue Hall. rewrite Forall_forall in *. intros p Hp. split; [|by apply Hall].
  apply elem_of_cons in Hp as [-> |Hp]; [apply clock_ns_width|].
  apply list_elem_of_fmap in Hp as (ev & -> & _). apply Hdue.
Qed.

(** The replay of a capture, from the due times of its events. *)
Lemma do_replay_of_capture `{!FloatMode} can_reserve clk cb_clk rate count rec0 recs tail (due : FeedEvent → Z) :
  Forall (λ rec, length rec = 88%nat) (rec0 :: recs) → (length tail < 88)%nat → in_width 64 count → 0 < count →
  can_reserve count = true →
  let start := clock_ns (clk 0%nat) in
  let first := decode_record rec0 in
  let evs := take (Z.to_nat (count - 1)) (decode_record <$> recs) in
  let schedule := (first, start) :: ((λ ev, (ev, due ev)) <$> evs) in
  Forall2 (λ ev t, target_ns start (inject_ns first) (inject_ns ev) rate = Ret t) evs ((λ ev, (ev, due ev)) <$> evs).*2 →
  (∀ ev, in_width 64 (due ev)) →
  Forall (λ p, p.2 < 2 ^ 63) schedule → (∀ j, clock_ns (cb_clk j) < 2 ^ 63) →
  let drifts := imap (λ j p, clock_ns (cb_clk j) - p.2) schedule in
  Z.of_nat (length drifts) < 2 ^ 53 → sum_abs drifts < 2 ^ 63 →
  ∃ rp, do_replay can_reserve (Some (fopen_rb (header_bytes count ++ concat (rec0 :: recs) ++ tail))) rate clk cb_clk =
      Ret (Exit 0 (Some rp)) ∧ report_of count drifts rp.
Proof.
  intros Hall Ht Hw Hc Hcan start first evs schedule Htgt Hdw Hdue Hcb drifts Hn Hsum.
  destruct (replay_of_capture rate clk count rec0 recs tail PcapReader_init due) as (r & r' & log & Ho & Hr & Hlog & _); [done..|].
  unfold do_replay. rewrite Ho. rewrite open_header in Ho by done. injection Ho as <-. cbn [total_events_].
  rewrite bool_decide_false by lia. rewrite Hcan. cbn [negb]. rewrite Hr. ub_step. rewrite Hlog. fold start first evs schedule.
  rewrite drifts_of_ok; [|by eapply schedule_due|done]. ub_step.
  change (imap (λ j p, clock_ns (cb_clk (0 + j)%nat) - p.2) schedule) with drifts.
  rewrite bool_decide_false by (unfold drifts; rewrite length_imap; cbn; lia).
  destruct (drift_report_ok count drifts) as (rp & -> & Hrp); [done..|]. ub_step. by exists rp.
Qed.

(** ** The diagnostic sender *)

(** Only the datagrams [sendto] accepted are counted, whatever failed in
    between. *)
Lemma test_sender_loop_counts env s n : ∀ i,
  test_sender_loop n i env s = Z.of_nat (length (filter (λ j, 0 ≤ (env j).2) (seqZ i (Z.of_nat n)))).
Proof.
  induction n as [|n IH]; intros i; [done|]. rewrite seqZ_cons by lia. cbn [test_sender_loop]. rewrite filter_cons, IH.
  replace (Z.pred (Z.of_nat (S n))) with (Z.of_nat n) by lia. replace (Z.succ i) with (i + 1) by lia.
  unfold send_one. case_bool_decide; case_decide; cbn [fst snd length]; lia.
Qed.

(** ** Properties *)



(** C14: the replay tool's statistics are right.  On a capture whose events
    are less than 2^53 ns apart from the first, at the original speed,
    with clocks below 2^63 ns, drifts that add up to less than 2^63 in
    absolute value and room for as many of them as the header declares,
    [do_replay] exits 0 and reports: one drift per event that
    the header declares and the file holds, each the time of its callback
    less its due time; their exact mean, rounded as a quotient of doubles;
    the least and the greatest of them; and, in between and in order, the
    50th and 99th percentile, which are elements of the sorted drifts within
    1 and 1.07 ranks of the exact ones -- the index computed in [double] is
    never out of range. *)
Theorem replay_statistics `{!FloatMode} (can_reserve : Z → bool) (clk cb_clk : nat → timespec) (count : Z)
    (rec0 : list Z) (recs : list (list Z)) (tail : list Z) :
  Forall (λ rec, length rec = 88%nat) (rec0 :: recs) → (length tail < 88)%nat → in_width 64 count → 0 < count →
  can_reserve count = true →
  let start := clock_ns (clk 0%nat) in
  let first := decode_record rec0 in
  let evs := take (Z.to_nat (count - 1)) (decode_record <$> recs) in
  Forall (λ ev, 0 ≤ inject_ns ev - inject_ns first < 2 ^ 53) evs →
  let schedule := (first, start) :: original_schedule start (inject_ns first) evs in
  Forall (λ p, p.2 < 2 ^ 63) schedule → (∀ j, clock_ns (cb_clk j) < 2 ^ 63) →
  let drifts := imap (λ j p, clock_ns (cb_clk j) - p.2) schedule in
  Z.of_nat (length drifts) < 2 ^ 53 → sum_abs drifts < 2 ^ 63 →
  ∃ rp, do_replay can_reserve (Some (fopen_rb (header_bytes count ++ concat (rec0 :: recs) ++ tail))) double_1 clk cb_clk =
      Ret (Exit 0 (Some rp)) ∧ report_of count drifts rp.
Proof.
  intros Hall Ht Hw Hc Hcan start first evs Hoff schedule Hdue Hcb drifts Hn Hsum.
  apply (do_replay_of_capture can_reserve clk cb_clk double_1 count rec0 recs tail); try done; [by apply targets_at_rate_1|].
  intros ev. by apply in_width_wrap.
Qed.

(** The callback runs 5, 7 and 40 ns late. *)
Definition late_clock (j : nat) : timespec := mkTimespec 5 (default 0 ([5; 500007; 1000040] !! j)).

Section Release_replay_statistics.
#[local] Existing Instance release_math.
Lemma replay_statistics_witness :
  ∃ rp, do_replay (λ _, true) (Some (fopen_rb (header_bytes 3 ++ concat (record (generated_event 1000 0) :: (record <$> generated 1000 1 2)) ++ [])))
      double_1 (λ _, mkTimespec 5 0) late_clock = Ret (Exit 0 (Some rp)) ∧ report_of 3 [5; 7; 40] rp.
Proof.
  destruct (replay_statistics (λ _, true) (λ _, mkTimespec 5 0) late_clock 3 (record (generated_event 1000 0))
    (record <$> generated 1000 1 2) []) as (rp & H1 & H2).
  - repeat constructor.
  - apply Nat.ltb_lt. reflexivity.
  - split; [discriminate|reflexivity].
  - reflexivity.
  - reflexivity.
  - apply (bool_decide_unpack _). vm_compute. reflexivity.
  - apply (bool_decide_unpack _). vm_compute. reflexivity.
  - intros [|[|[|j]]]; vm_compute; reflexivity.
  - vm_compute. reflexivity.
  - vm_compute. reflexivity.
  - exists rp. split; [exact H1|].
    match type of H2 with report_of _ ?l _ => replace l with [5; 7; 40] in H2 by (vm_compute; reflexivity) end. exact H2.
Defined.
End Release_replay_statistics.
