(* ===== verification/OnTime.v ===== *)
(** * Replaying on time

    The replay tool with a clock that runs on while it sleeps: no event is
    delivered before it is due, at any rate. *)

From S2P Require Import Prelude Double Rounding Stats Queue RingBuffer FeedEvent Packet Xsk Umem XdpSocket FeedHandler Pcap Sender Replay Rates Tools.

(** [clk j] is the clock before event [j] is delivered, [cb_clk j] the clock
    in its callback, and [schedule] says when it is due.  A sleep lasts at
    least as long as was asked for, and time does not run backwards. *)
Record sleeps_honoured (clk cb_clk : nat → timespec) (schedule : list (FeedEvent * Z)) : Prop := {
  sh_mono j : clock_ns (clk j) ≤ clock_ns (cb_clk j);
  sh_sleep j ev t ts : schedule !! j = Some (ev, t) → sleep_until t (clock_ns (clk j)) = [Slept ts] →
    clock_ns (clk j) + tv_sec ts * 1000000000 + tv_nsec ts ≤ clock_ns (cb_clk j);
}.

(** After the sleep the event is due. *)
Lemma due_reached clk cb_clk schedule j ev t :
  sleeps_honoured clk cb_clk schedule → schedule !! j = Some (ev, t) → in_width 64 t → t ≤ clock_ns (cb_clk j).
Proof.
  intros [Hm Hs] Hj Ht. specialize (Hm j). specialize (Hs j ev t). unfold sleep_until in Hs. unfold in_width in Ht.
  pose proof (clock_ns_width (clk j)) as Hc. unfold in_width in Hc. case_bool_decide; [|lia].
  specialize (Hs _ Hj eq_refl). cbn [tv_sec tv_nsec] in Hs. rewrite u64_small in Hs by lia.
  pose proof (Z.div_mod (t - clock_ns (clk j)) 1000000000 ltac:(done)). lia.
Qed.

(** ** Properties *)

(** C19: the replay tool is never early.  At any rate between 2^-900 and
    2^900, whether the compiler divides or multiplies with the reciprocal, on
    any capture whose due times stay below 2^63 ns, with sleeps that last as
    long as asked for, sums of drifts that fit and room for as many drifts
    as the header declares, [do_replay]
    exits 0 and reports the statistics of one drift per event; every drift
    is at least 0 -- each callback runs at or after the time the event was
    due -- and so are the reported minimum, percentiles and maximum. *)
Theorem replay_never_early `{!FloatMode} (m : positive) (e : Z) (can_reserve : Z → bool) (clk cb_clk : nat → timespec) (count : Z)
    (rec0 : list Z) (recs : list (list Z)) (tail : list Z) :
  Z.log2 (Z.pos m) = 52 → -952 ≤ e ≤ 848 →
  Forall (λ rec, length rec = 88%nat) (rec0 :: recs) → (length tail < 88)%nat → in_width 64 count → 0 < count →
  can_reserve count = true →
  let rate := S754_finite false m e in
  let start := clock_ns (clk 0%nat) in
  let first := decode_record rec0 in
  let evs := take (Z.to_nat (count - 1)) (decode_record <$> recs) in
  Forall (λ ev, err_above * (u64 (inject_ns ev - inject_ns first) * scale) < 2 ^ 64 * (err_one * fixed rate)) evs →
  let due ev := u64 (start + due_offset rate (inject_ns first) ev) in
  let schedule := (first, start) :: ((λ ev, (ev, due ev)) <$> evs) in
  sleeps_honoured clk cb_clk schedule → Forall (λ p, p.2 < 2 ^ 63) schedule → (∀ j, clock_ns (cb_clk j) < 2 ^ 63) →
  let drifts := imap (λ j p, clock_ns (cb_clk j) - p.2) schedule in
  Z.of_nat (length drifts) < 2 ^ 53 → sum_abs drifts < 2 ^ 63 →
  ∃ rp, do_replay can_reserve (Some (fopen_rb (header_bytes count ++ concat (rec0 :: recs) ++ tail))) rate clk cb_clk =
      Ret (Exit 0 (Some rp)) ∧ report_of count drifts rp ∧ Forall (λ d, 0 ≤ d) drifts ∧
    0 ≤ rp_min rp ∧ 0 ≤ rp_p50 rp ∧ 0 ≤ rp_p99 rp ∧ 0 ≤ rp_max rp.
Proof.
  intros Hm He Hall Ht Hw Hc Hcan rate start first evs Hfit due schedule Hsl Hdue Hcb drifts Hn Hsum.
  destruct (do_replay_of_capture can_reserve clk cb_clk rate count rec0 recs tail due) as (rp & Hr & Hrp); [done..| | |done|done|done|done|].
  - fold start first evs. apply targets_defined; done.
  - intros ev. by apply in_width_wrap.
  - exists rp. split; [exact Hr|]. split; [exact Hrp|].
    assert (Hpos : Forall (λ d, 0 ≤ d) drifts).
    { apply Forall_lookup. intros j d. unfold drifts. rewrite list_lookup_imap. intros ([ev t] & Hj & ->)%fmap_Some. cbn [snd].
      pose proof (due_reached clk cb_clk schedule j ev t Hsl Hj) as Hd. assert (Hwt : in_width 64 t); [|specialize (Hd Hwt); lia].
      apply list_elem_of_lookup_2, elem_of_cons in Hj as [[= -> ->]|(ev' & [= -> ->] & _)%list_elem_of_fmap];
        [apply clock_ns_width|by apply in_width_wrap]. }
    split; [exact Hpos|]. destruct (ro_min _ _ _ Hrp) as [Hin _]. rewrite Forall_forall in Hpos. specialize (Hpos _ Hin).
    pose proof (ro_order _ _ _ Hrp). lia.
Qed.

(** Once and a half as fast; the callbacks run 0, 67 and 34 ns late. *)
Definition rested_clock (j : nat) : timespec := mkTimespec 5 (default 666700 ([0; 333400] !! j)).

Section Release_replay_never_early.
#[local] Existing Instance release_math.
Lemma replay_never_early_witness :
  ∃ rp, do_replay (λ _, true) (Some (fopen_rb (header_bytes 3 ++ concat (record <$> [paced_event 0; paced_event 1; paced_event 2]) ++ [])))
      one_and_a_half (λ _, mkTimespec 5 0) rested_clock = Ret (Exit 0 (Some rp)) ∧ report_of 3 [0; 67; 34] rp ∧ 0 ≤ rp_min rp.
Proof.
  destruct (replay_never_early 6755399441055744 (-52) (λ _, true) (λ _, mkTimespec 5 0) rested_clock 3 (record (paced_event 0))
    (record <$> [paced_event 1; paced_event 2]) []) as (rp & H1 & H2 & _ & H3 & _).
  - reflexivity.
  - lia.
  - repeat constructor.
  - apply Nat.ltb_lt. reflexivity.
  - split; [discriminate|reflexivity].
  - reflexivity.
  - reflexivity.
  - apply (bool_decide_unpack _). vm_compute. reflexivity.
  - split.
    + intros [|[|j]]; vm_compute; discriminate.
    + intros [|[|[|j]]] ev t ts Hj; vm_compute in Hj; try discriminate Hj; injection Hj as _ <-; intros Hs; vm_compute in Hs;
        first [discriminate Hs|injection Hs as <-; vm_compute; discriminate].
  - apply (bool_decide_unpack _). vm_compute. reflexivity.
  - intros [|[|j]]; vm_compute; reflexivity.
  - vm_compute. reflexivity.
  - vm_compute. reflexivity.
  - exists rp. split; [exact H1|]. split; [|exact H3].
    match type of H2 with report_of _ ?l _ => replace l with [0; 67; 34] in H2 by (vm_compute; reflexivity) end. exact H2.
Defined.
End Release_replay_never_early.
