(* ===== verification/Cli.v ===== *)
(** * The replay tool's command line

    [main] of [tools/replay_feed.cpp].  What [fopen] makes of a path is an
    argument. *)

From Stdlib Require Import Ascii.
From S2P Require Import Prelude Double Rounding Strto FeedEvent Packet Xsk Umem XdpSocket FeedHandler Pcap Sender Replay Rates Tools.

(** ** main *)

Inductive cli_end : Type :=
| Usage                                                (* printed, exit 1 *)
| Generated (path : string) (code : Z) (file : option (list Z))
| Replayed (path : string) (e : tool_end)
| Terminated (e : std_error).                          (* uncaught exception *)

Section Main.
Context `{!FloatMode} (erange_underflow : bool).
Context (open_wb : string → option ostream) (open_rb : string → option FILE) (now : timespec).
Context (can_reserve : Z → bool) (clk cb_clk : nat → timespec).

Definition do_generate_at (path : string) (count : Z) : cli_end :=
  let '(code, file) := do_generate (open_wb path) now count in Generated path code file.

Definition do_replay_at (path : string) (rate : double) : outcome cli_end :=
  e ← do_replay can_reserve (open_rb path) rate clk cb_clk; Ret (Replayed path e).

(** [argv]. *)
Definition main (argv : list string) : outcome cli_end :=
  match argv with
  | [] | [_] => Ret Usage
  | _ :: arg1 :: rest =>
      if String.eqb arg1 "--generate" then
        match rest with
        | [] => Ret Usage
        | path :: rest =>
            match rest with
            | [] => Ret (do_generate_at path 100)
            | arg3 :: _ =>
                match stoull (String.list_ascii_of_string arg3) with
                | inl e => Ret (Terminated e)
                | inr count => Ret (do_generate_at path count)
                end
            end
        end
      else
        match rest with
        | [] => do_replay_at arg1 double_1
        | arg2 :: _ => match stod erange_underflow (String.list_ascii_of_string arg2) with inl e => Ret (Terminated e) | inr rate => do_replay_at arg1 rate end
        end
  end.
End Main.

Lemma main_generate `{!FloatMode} erange_underflow open_wb open_rb now can_reserve clk cb_clk prog path rest :
  main erange_underflow open_wb open_rb now can_reserve clk cb_clk (prog :: "--generate"%string :: path :: rest) =
  match rest with
  | [] => Ret (do_generate_at open_wb now path 100)
  | arg3 :: _ =>
      match stoull (String.list_ascii_of_string arg3) with
      | inl e => Ret (Terminated e)
      | inr count => Ret (do_generate_at open_wb now path count)
      end
  end.
Proof. reflexivity. Qed.

Lemma main_replay `{!FloatMode} erange_underflow open_wb open_rb now can_reserve clk cb_clk prog path rest :
  path ≠ "--generate"%string →
  main erange_underflow open_wb open_rb now can_reserve clk cb_clk (prog :: path :: rest) =
  match rest with
  | [] => do_replay_at open_rb can_reserve clk cb_clk path double_1
  | arg2 :: _ =>
      match stod erange_underflow (String.list_ascii_of_string arg2) with
      | inl e => Ret (Terminated e)
      | inr rate => do_replay_at open_rb can_reserve clk cb_clk path rate
      end
  end.
Proof. intros Hp. unfold main. by rewrite (proj2 (String.eqb_neq _ _) Hp). Qed.

(** Replaying a capture of two events or more at a rate for which the second
    one's due time is undefined. *)
Lemma do_replay_undefined `{!FloatMode} rate can_reserve clk cb_clk count rec0 rec1 body :
  length rec0 = 88%nat → length rec1 = 88%nat → in_width 64 count → 1 < count → can_reserve count = true →
  offset_ns (u64 (inject_ns (decode_record rec1) - inject_ns (decode_record rec0))) rate = Undef →
  do_replay can_reserve (Some (fopen_rb (header_bytes count ++ rec0 ++ rec1 ++ body))) rate clk cb_clk = Undef.
Proof.
  intros H0 H1 Hw Hc Hcan Hu. unfold do_replay. rewrite open_header by done. cbn [total_events_].
  rewrite bool_decide_false by lia. rewrite Hcan. cbn [negb].
  rewrite replay_undefined; [done..|]. intros start. by rewrite target_offset, Hu.
Qed.

Lemma offset_at_0 `{!FloatMode} D s : offset_ns D (S754_zero s) = Undef.
Proof.
  unfold offset_ns, quotient, u64_of_double. destruct reciprocal_math; [|by destruct (double_of_Z D)].
  change (double_div double_1 (S754_zero s)) with (S754_infinity s). by destruct (double_of_Z D).
Qed.

(** A rate typed with a point, with or without a minus. *)
Definition typed_rate (minus : bool) (int frac : list ascii) : string :=
  String.string_of_list_ascii ((if minus then ["-"%char] else []) ++ int ++ "."%char :: frac).

(** What a negative rate does to an offset of twice the rate or more. *)
Lemma negative_rate_undefined `{!FloatMode} m e n k D :
  Z.log2 (Z.pos m) = 52 → -952 ≤ e ≤ 848 → rounds (n * scale) (10 ^ k) (S754_finite false m e) → 0 ≤ k →
  2 * n ≤ D * 10 ^ k → 0 ≤ D < 2 ^ 64 → offset_ns D (S754_finite true m e) = Undef.
Proof.
  intros Hm He Hr Hk Hn HD. apply rounds_error in Hr. apply (offset_negative m e); [done..|].
  change (fixed (S754_finite true m e)) with (fixed (S754_finite false m e)). set (F := fixed (S754_finite false m e)) in *.
  pose proof scale_pos as HS. assert (HT : 0 < 10 ^ k) by (apply Z.pow_pos_nonneg; lia). set (T := 10 ^ k) in *. clearbody F T.
  assert (H1 : 2 ^ 53 * (T * F) ≤ (2 ^ 53 + 1) * (n * scale)) by lia.
  assert (H2 : 2 * n * scale ≤ D * T * scale) by (apply Z.mul_le_mono_nonneg_r; lia).
  assert (He1 : err_one * (2 ^ 53 + 1) ≤ 2 ^ 54 * err_below) by (unfold err_one, err_below, roundings; destruct reciprocal_math; lia).
  pose proof err_one_pos as He0. generalize dependent err_one. generalize err_below. intros lo one He1 He0.
  apply (Z.mul_le_mono_pos_r _ _ (2 ^ 54 * T)); [lia|].
  apply (Z.mul_le_mono_nonneg_l _ _ (2 * one)) in H1; [|lia]. apply (Z.mul_le_mono_nonneg_l _ _ (one * (2 ^ 53 + 1))) in H2; [|lia].
  apply (Z.mul_le_mono_nonneg_r _ _ (D * T * scale)) in He1; [|lia]. lia.
Qed.

(** ** Properties *)

(** The count given to [--generate] is the count generated.  A number
    typed in decimal is taken as it is when it fits 64 bits, and without a
    number the tool generates 100 events; a number that does not fit, and an
    argument that does not start like a number, end the tool with an
    exception that nobody catches; a negative number is not refused: it is
    taken modulo 2^64. *)
Theorem generate_count_parsed `{!FloatMode} (erange_underflow : bool) (open_wb : string → option ostream) (open_rb : string → option FILE)
    (now : timespec) (can_reserve : Z → bool) (clk cb_clk : nat → timespec) (prog path : string) :
  let run := main erange_underflow open_wb open_rb now can_reserve clk cb_clk in
  let generates c := Ret (do_generate_at open_wb now path c) in
  run [prog; "--generate"; path] = generates 100 ∧
  (∀ c, 0 ≤ c < 2 ^ 64 → run [prog; "--generate"; path; typed c] = generates c) ∧
  (∀ c, 0 < c < 2 ^ 64 → run [prog; "--generate"; path; String.String "-" (typed c)] = generates (2 ^ 64 - c)) ∧
  (∀ c, 2 ^ 64 ≤ c < 10 ^ 30 → run [prog; "--generate"; path; typed c] = Ret (Terminated OutOfRange)) ∧
  (∀ a s, is_space a = false → is_digit a = false → code a ≠ 43 → code a ≠ 45 →
     run [prog; "--generate"; path; String.String a s] = Ret (Terminated InvalidArgument)).
Proof.
  cbv zeta. split_and!; [apply main_generate|..].
  - intros c Hc. rewrite main_generate. unfold typed. rewrite String.list_ascii_of_string_of_list_ascii.
    pose proof (stoull_typed [] c ltac:(by left) ltac:(lia)) as Hs. cbn [app] in Hs. rewrite Hs. by rewrite !bool_decide_false by lia.
  - intros c Hc. rewrite main_generate. cbn [String.list_ascii_of_string]. unfold typed. rewrite String.list_ascii_of_string_of_list_ascii.
    pose proof (stoull_typed ["-"%char] c ltac:(by right; left) ltac:(lia)) as Hs. cbn [app] in Hs. rewrite Hs.
    rewrite bool_decide_false, bool_decide_true by (done || lia). unfold u64, wrap.
    by rewrite <- (Z.mod_unique (- c) (2 ^ 64) (-1) (2 ^ 64 - c)) by lia.
  - intros c Hc. rewrite main_generate. unfold typed. rewrite String.list_ascii_of_string_of_list_ascii.
    pose proof (stoull_typed [] c ltac:(by left) ltac:(lia)) as Hs. cbn [app] in Hs. rewrite Hs. by rewrite bool_decide_true by lia.
  - intros a s Hs Hd Hp Hm. rewrite main_generate. cbn [String.list_ascii_of_string]. unfold stoull. cbn [skip_spaces]. rewrite Hs. cbn [read_sign].
    rewrite !bool_decide_false by done. by rewrite Hd.
Qed.

(** Three events asked for, minus one event asked for, and a word. *)
Section Release_generate_count_parsed.
#[local] Existing Instance release_math.
Lemma generate_count_parsed_witness :
  let run := main true (λ _, None) (λ _, None) (mkTimespec 7 0) (λ _, true) (λ _, mkTimespec 0 0) (λ _, mkTimespec 0 0) in
  typed 3 = "3"%string ∧ run ["replay_feed"; "--generate"; "out"; "3"]%string = Ret (do_generate_at (λ _, None) (mkTimespec 7 0) "out" 3) ∧
  run ["replay_feed"; "--generate"; "out"; "-1"]%string = Ret (do_generate_at (λ _, None) (mkTimespec 7 0) "out" (2 ^ 64 - 1)) ∧
  run ["replay_feed"; "--generate"; "out"; "many"]%string = Ret (Terminated InvalidArgument).
Proof.
  destruct (generate_count_parsed true (λ _, None) (λ _, None) (mkTimespec 7 0) (λ _, true)
    (λ _, mkTimespec 0 0) (λ _, mkTimespec 0 0) "replay_feed" "out") as (_ & H3 & H1 & _ & Hm).
  split; [reflexivity|]. split; [apply (H3 3); lia|]. split; [apply (H1 1); lia|].
  apply Hm; vm_compute; first [reflexivity|discriminate].
Defined.
End Release_generate_count_parsed.

(** C26: the rate given on the command line is the rate of the replay.  A
    decimal integer below 2^53 is replayed at exactly that rate, and without
    a rate the capture is replayed as with 1; a word that does not start
    like an infinity or a NaN ends the tool with an exception that nobody
    catches; and a rate of zero is not refused: on every capture that
    declares and holds two events or more, whatever their timestamps, it is
    undefined behaviour -- provided the room for the declared number of
    drifts, reserved before, can be had. *)
Theorem rate_parsed `{!FloatMode} (erange_underflow : bool) (open_wb : string → option ostream) (open_rb : string → option FILE)
    (now : timespec) (can_reserve : Z → bool) (clk cb_clk : nat → timespec) (prog path : string) :
  path ≠ "--generate"%string →
  let run := main erange_underflow open_wb open_rb now can_reserve clk cb_clk in
  let replays rate := do_replay_at open_rb can_reserve clk cb_clk path rate in
  (∀ n, 0 ≤ n < 2 ^ 53 → run [prog; path; typed n] = replays (double_of_Z n)) ∧
  run [prog; path] = run [prog; path; "1"%string] ∧
  (∀ a s, is_space a = false → is_digit a = false → code a ≠ 43 → code a ≠ 45 → code a ≠ 46 → lower a ≠ 105 → lower a ≠ 110 →
     run [prog; path; String.String a s] = Ret (Terminated InvalidArgument)) ∧
  (∀ count rec0 rec1 body, open_rb path = Some (fopen_rb (header_bytes count ++ rec0 ++ rec1 ++ body)) →
     length rec0 = 88%nat → length rec1 = 88%nat → in_width 64 count → 1 < count → can_reserve count = true →
     run [prog; path; "0"%string] = Undef).
Proof.
  intros Hp. cbv zeta.
  assert (Hn : ∀ n, 0 ≤ n < 2 ^ 53 → main erange_underflow open_wb open_rb now can_reserve clk cb_clk [prog; path; typed n] =
    do_replay_at open_rb can_reserve clk cb_clk path (double_of_Z n)).
  { intros n Hn. rewrite main_replay by done. unfold typed. by rewrite String.list_ascii_of_string_of_list_ascii, stod_typed. }
  split_and!; [exact Hn| | |].
  - rewrite (main_replay _ _ _ _ _ _ _ _ _ []) by done. change "1"%string with (typed 1). rewrite Hn by lia. done.
  - intros a s ? ? ? ? ? ? ?. rewrite main_replay by done. cbn [String.list_ascii_of_string]. by rewrite stod_word.
  - intros count rec0 rec1 body Ho H0 H1 Hw Hc Hcan. change "0"%string with (typed 0). rewrite Hn by lia.
    unfold do_replay_at. rewrite Ho. change (double_of_Z 0) with (S754_zero false).
    by rewrite do_replay_undefined by (done || apply offset_at_0).
Qed.

(** Two events half a millisecond apart. *)
Definition two_events : string → option FILE :=
  λ _, Some (fopen_rb (header_bytes 2 ++ record (paced_event 0) ++ record (paced_event 1) ++ [])).

Section Release_rate_parsed.
#[local] Existing Instance release_math.
Lemma rate_parsed_witness :
  let run := main true (λ _, None) two_events (mkTimespec 7 0) (λ _, true) (λ _, mkTimespec 5 0) (λ _, mkTimespec 5 0) in
  run ["replay_feed"; "a.pcap"; "2"]%string =
    do_replay_at two_events (λ _, true) (λ _, mkTimespec 5 0) (λ _, mkTimespec 5 0) "a.pcap" (pow2 1) ∧
  run ["replay_feed"; "a.pcap"; "fast"]%string = Ret (Terminated InvalidArgument) ∧
  run ["replay_feed"; "a.pcap"; "1e400"]%string = Ret (Terminated OutOfRange) ∧
  run ["replay_feed"; "a.pcap"; "0"]%string = Undef.
Proof.
  destruct (rate_parsed true (λ _, None) two_events (mkTimespec 7 0) (λ _, true)
    (λ _, mkTimespec 5 0) (λ _, mkTimespec 5 0) "replay_feed" "a.pcap") as (H2 & _ & Hw & H0).
  - discriminate.
  - split; [apply (H2 2); lia|]. split; [apply Hw; vm_compute; first [reflexivity|discriminate]|].
    split; [vm_compute; reflexivity|].
    apply (H0 2 (record (paced_event 0)) (record (paced_event 1)) []); [reflexivity..| |reflexivity|reflexivity].
    split; [discriminate|reflexivity].
Defined.
End Release_rate_parsed.

(** C21: rates with a fraction, and negative rates.  A decimal number with a
    point, like "1.5" or ".25", below 2^200 before its scaling and with up to
    60 digits after the point, is replayed at the double nearest to it, with
    a relative error of at most 2^-53; the result is a rate to which the
    replay theorems apply.  With a minus in front it is not refused either:
    it is replayed at the negative of that double, which is undefined
    behaviour on every capture whose second event was injected at least
    twice as many ns after the first as the number says, provided the room
    for the declared number of drifts can be had. *)
Theorem decimal_rate_parsed `{!FloatMode} (erange_underflow : bool) (open_wb : string → option ostream) (open_rb : string → option FILE)
    (now : timespec) (can_reserve : Z → bool) (clk cb_clk : nat → timespec) (prog path : string) (int frac : list ascii) :
  path ≠ "--generate"%string → forallb is_digit int = true → forallb is_digit frac = true → (length frac ≤ 60)%nat →
  let run := main erange_underflow open_wb open_rb now can_reserve clk cb_clk in
  let replays rate := do_replay_at open_rb can_reserve clk cb_clk path rate in
  let n := read_digits 0 (int ++ frac) in
  let k := Z.of_nat (length frac) in
  0 < n < 2 ^ 200 →
  ∃ m e, Z.log2 (Z.pos m) = 52 ∧ -952 ≤ e ≤ 848 ∧
    2 ^ 53 * Z.abs (n * scale - 10 ^ k * fixed (S754_finite false m e)) ≤ n * scale ∧
    run [prog; path; typed_rate false int frac] = replays (S754_finite false m e) ∧
    run [prog; path; typed_rate true int frac] = replays (S754_finite true m e) ∧
    (∀ count rec0 rec1 body, open_rb path = Some (fopen_rb (header_bytes count ++ rec0 ++ rec1 ++ body)) →
       length rec0 = 88%nat → length rec1 = 88%nat → in_width 64 count → 1 < count → can_reserve count = true →
       2 * n ≤ u64 (inject_ns (decode_record rec1) - inject_ns (decode_record rec0)) * 10 ^ k →
       run [prog; path; typed_rate true int frac] = Undef).
Proof.
  intros Hp Hi Hf Hl run replays n k Hn.
  destruct (stod_fraction erange_underflow int frac Hi Hf Hn Hl) as (m & e & Hm & He & Hr & Hstod).
  assert (Hrun : ∀ minus, run [prog; path; typed_rate minus int frac] = replays (S754_finite minus m e)).
  { intros minus. unfold run. rewrite main_replay by done. unfold typed_rate.
    by rewrite String.list_ascii_of_string_of_list_ascii, Hstod. }
  exists m, e. split_and!; [done|lia|lia|by apply rounds_error|apply Hrun|apply Hrun|].
  intros count rec0 rec1 body Ho H0 H1 Hw Hc Hcan Hoff. rewrite Hrun. unfold replays, do_replay_at. rewrite Ho.
  rewrite do_replay_undefined; [done..|]. apply (negative_rate_undefined m e n k); try done; [lia|]. by apply Z.mod_pos_bound.
Qed.

(** "1.5" and "-1.5". *)
Section Release_decimal_rate_parsed.
#[local] Existing Instance release_math.
Lemma decimal_rate_parsed_witness :
  let run := main true (λ _, None) two_events (mkTimespec 7 0) (λ _, true) (λ _, mkTimespec 5 0) (λ _, mkTimespec 5 0) in
  (∃ rate, run ["replay_feed"; "a.pcap"; "1.5"]%string =
      do_replay_at two_events (λ _, true) (λ _, mkTimespec 5 0) (λ _, mkTimespec 5 0) "a.pcap" rate ∧
    2 ^ 53 * Z.abs (15 * scale - 10 * fixed rate) ≤ 15 * scale) ∧
  run ["replay_feed"; "a.pcap"; "-1.5"]%string = Undef.
Proof.
  destruct (decimal_rate_parsed true (λ _, None) two_events (mkTimespec 7 0) (λ _, true)
    (λ _, mkTimespec 5 0) (λ _, mkTimespec 5 0) "replay_feed" "a.pcap" ["1"%char] ["5"%char]) as (m & e & _ & _ & Hn & Hpos & _ & Hneg).
  - discriminate.
  - reflexivity.
  - reflexivity.
  - apply Nat.leb_le. reflexivity.
  - split; reflexivity.
  - split; [exists (S754_finite false m e); split; [exact Hpos|exact Hn]|].
    apply (Hneg 2 (record (paced_event 0)) (record (paced_event 1)) []); [reflexivity..| |reflexivity|reflexivity|].
    + split; [discriminate|reflexivity].
    + vm_compute. discriminate.
Defined.
End Release_decimal_rate_parsed.
