(* ===== verification/Bench.v ===== *)
(** * The micro-benchmarks

    Model of [bench/bench_spsc_ring_buffer.cpp] (its single-threaded
    benchmarks; the two-threaded one is in Throughput) and of
    [bench/bench_xdp_socket.cpp].  A benchmark is its loop run for the number
    of iterations the library asks for; the values handed to
    [DoNotOptimize] are its results, with the number of items it reports. *)

From S2P Require Import Prelude Queue RingBuffer Packet XdpSocket.

(** [for (auto _ : state)]: the body threads the benchmark's objects. *)
Fixpoint bench_loop {S A} (iterations : nat) (body : S → outcome (list A * S)) (s : S) : outcome (list A * S) :=
  match iterations with
  | O => Ret ([], s)
  | S n => '(xs, s1) ← body s; '(ys, s2) ← bench_loop n body s1; Ret (xs ++ ys, s2)
  end.

(** [SetItemsProcessed] takes an [int64_t]. *)
Definition items_processed (iterations : nat) (per_iteration : Z) : outcome Z :=
  i64_result (Z.of_nat iterations * per_iteration).

(** ** The ring *)

Section Spsc.
Context {T : Type} (N : Z).

(** A [for] loop of pushes whose results are not looked at, and one of pops. *)
Fixpoint push_all (xs : list T) (r : SpscRingBuffer T) : outcome (SpscRingBuffer T) :=
  match xs with
  | [] => Ret r
  | x :: xs => '(_, r') ← push N x r; push_all xs r'
  end.

Fixpoint pop_times (n : nat) (r : SpscRingBuffer T) : outcome (list (option T) * SpscRingBuffer T) :=
  match n with
  | O => Ret ([], r)
  | S n => '(o, r1) ← pop N r; '(os, r2) ← pop_times n r1; Ret (o :: os, r2)
  end.
End Spsc.

Definition BM_SpscPushPop (iterations : nat) : outcome (list (option Z) * Z) :=
  '(out, _) ← bench_loop iterations
    (λ ring, '(_, ring1) ← push 1024 42 ring; '(o, ring2) ← pop 1024 ring1; Ret ([o], ring2)) (ring_init 1024 0);
  n ← items_processed iterations 1; Ret (out, n).

Definition kFillBatch : Z := 512.
Definition BM_SpscBatchFillDrain (iterations : nat) : outcome (list (option Z) * Z) :=
  '(out, _) ← bench_loop iterations
    (λ ring, ring1 ← push_all 1024 (seqZ 0 kFillBatch) ring; pop_times 1024 (Z.to_nat kFillBatch) ring1) (ring_init 1024 0);
  n ← items_processed iterations kFillBatch; Ret (out, n).

(** The pointers [peek] returns, as slot numbers. *)
Definition BM_SpscPeek (iterations : nat) : outcome (list (option Z) * Z) :=
  '(_, ring) ← push 8 1 (ring_init 8 0);
  '(out, _) ← bench_loop iterations (λ ring, Ret ([peek ring], ring)) ring;
  n ← items_processed iterations 1; Ret (out, n).

Definition BM_SpscSize (iterations : nat) : outcome (list Z) :=
  ring ← push_all 4096 (seqZ 0 100) (ring_init 4096 0);
  '(out, _) ← bench_loop iterations (λ ring, Ret ([size 4096 ring], ring)) ring;
  Ret out.

(** ** The AF_XDP data structures *)

Definition XSK_UMEM__DEFAULT_FRAME_SIZE : Z := 4096.

Definition BM_UmemFrameOffset (iterations : nat) : outcome (list Z * Z) :=
  let frame_size := XSK_UMEM__DEFAULT_FRAME_SIZE in
  let n_frames := 4096 in
  '(out, _) ← bench_loop iterations (λ idx, Ret ([u64 (idx * frame_size)], u64 (idx + 1) `mod` n_frames)) 0;
  n ← items_processed iterations 1; Ret (out, n).

(** Stores into an object. *)
Definition store (mem : list Z) (a : Z) (bs : list Z) : outcome (list Z) :=
  if bool_decide (0 ≤ a ∧ a + Z.of_nat (length bs) ≤ Z.of_nat (length mem))
  then Ret (take (Z.to_nat a) mem ++ bs ++ drop (Z.to_nat a + length bs) mem) else Undef.
Definition set_member (fs : layout) (f : string) (p v : Z) (mem : list Z) : outcome (list Z) :=
  store mem (p + offsetof fs f) (le_bytes (Z.to_nat (widthof fs f)) v).

(** The frame the parse benchmark builds on the stack. *)
Definition parse_frame : outcome (list Z) :=
  let buf := replicate 64 0 in
  buf ← set_member EthHeader "ether_type" 0 (htons 2048) buf;
  let ip := sizeof EthHeader in
  buf ← set_member IpHeader "version_ihl" ip 69 buf;
  buf ← set_member IpHeader "protocol" ip 17 buf;
  buf ← set_member IpHeader "total_length" ip (htons 28) buf;
  let udp := sizeof EthHeader + 20 in
  buf ← set_member UdpHeader "src_port" udp (htons 12345) buf;
  buf ← set_member UdpHeader "dst_port" udp (htons 9999) buf;
  set_member UdpHeader "length" udp (htons 8) buf.

Definition BM_PacketParseFull (iterations : nat) : outcome (list (option Z * Z) * Z) :=
  buf ← parse_frame;
  let pkt := mkPacket 0 64 in
  '(out, _) ← bench_loop iterations
    (λ _, u ← udp buf pkt; l ← payload_len buf pkt; Ret ([(u, l)], ())) ();
  n ← items_processed iterations 1; Ret (out, n).

Definition kDescBatch : Z := 64.

(** The inner loop: the descriptors are overwritten one by one. *)
Fixpoint fill_descs (n : nat) (i : Z) (descs : list RxDesc) : outcome (list RxDesc) :=
  match n with
  | O => Ret descs
  | S n =>
      let frame_size := XSK_UMEM__DEFAULT_FRAME_SIZE in
      descs' ← array_set descs i (mkRxDesc (u64 (i * frame_size)) (u32 frame_size) 0);
      fill_descs n (i + 1) descs'
  end.

Definition BM_RxDescBatchFill (descs : list RxDesc) (iterations : nat) : outcome (list (list RxDesc) * Z) :=
  '(out, _) ← bench_loop iterations (λ descs, d ← fill_descs (Z.to_nat kDescBatch) 0 descs; Ret ([d], d)) descs;
  n ← items_processed iterations kDescBatch; Ret (out, n).

Definition kPayloadOff : Z := sizeof EthHeader + 20 + sizeof UdpHeader.
Definition kPayloadLen : Z := 64.

Definition BM_UmemPayloadCopy (iterations : nat) : outcome (list (list Z) * Z) :=
  let src := replicate (Z.to_nat XSK_UMEM__DEFAULT_FRAME_SIZE) 0 in
  '(out, _) ← bench_loop iterations
    (λ dst, bs ← deref (load src kPayloadOff kPayloadLen); let dst := memcpy dst bs in Ret ([dst], dst))
    (replicate (Z.to_nat kPayloadLen) 0);
  n ← items_processed iterations kPayloadLen; Ret (out, n).

(** ** Lemmas *)

(** A body that answers the same and keeps an invariant. *)
Lemma bench_loop_const {S A} (P : S → Prop) (out : list A) body n : ∀ s,
  (∀ s, P s → ∃ s', body s = Ret (out, s') ∧ P s') → P s →
  ∃ s', bench_loop n body s = Ret (concat (replicate n out), s') ∧ P s'.
Proof.
  induction n as [|n IH]; intros s Hb Hs; [by exists s|]. cbn.
  destruct (Hb s Hs) as (s1 & -> & H1). ub_step. destruct (IH s1 Hb H1) as (s2 & -> & H2). ub_step. by exists s2.
Qed.

Lemma concat_replicate_singleton {A} n (x : A) : concat (replicate n [x]) = replicate n x.
Proof. induction n as [|n IH]; [done|]. cbn. by rewrite IH. Qed.

Lemma items_processed_ok n k : 0 ≤ k → Z.of_nat n * k < 2 ^ 63 → items_processed n k = Ret (Z.of_nat n * k).
Proof. intros. unfold items_processed, i64_result. by rewrite bool_decide_true by lia. Qed.

(** A benchmark whose body always answers [out] under the invariant [P]:
    what is left to show is the body and the first state. *)
Ltac const_loop P out :=
  cbv zeta;
  match goal with |- context [bench_loop ?n ?body ?s] =>
    destruct (bench_loop_const P out body n s) as (? & -> & _);
      [ |try done|ub_step; rewrite ?items_processed_ok by lia; ub_step; by rewrite ?concat_replicate_singleton, ?Z.mul_1_r]
  end.

Section Loops.
Context {T : Type} (N : Z) (HN : capacity_ok N = true).

Lemma push_all_repr (xs : list T) : ∀ r q,
  ring_repr N r q → Z.of_nat (length q) + Z.of_nat (length xs) ≤ N - 1 →
  ∃ r', push_all N xs r = Ret r' ∧ ring_repr N r' (q ++ xs).
Proof using HN.
  induction xs as [|x xs IH]; intros r q Hr Hl; [exists r; by rewrite app_nil_r|].
  cbn [push_all length] in *. destruct (repr_push N HN x r q Hr) as (r1 & -> & H1). ub_step.
  unfold q_push, q_full in H1. rewrite bool_decide_false in H1 by lia. cbn in H1.
  destruct (IH r1 (q ++ [x]) H1) as (r' & -> & H'); [rewrite length_app; cbn; lia|].
  exists r'. by rewrite <- app_assoc in H'.
Qed.

Lemma pop_times_repr n : ∀ (r : SpscRingBuffer T) q,
  ring_repr N r q → (n ≤ length q)%nat →
  ∃ r', pop_times N n r = Ret (Some <$> take n q, r') ∧ ring_repr N r' (drop n q).
Proof using HN.
  induction n as [|n IH]; intros r q Hr Hl; [by exists r|]. destruct q as [|x q]; [cbn in Hl; lia|].
  cbn [pop_times]. destruct (repr_pop N HN r (x :: q) Hr) as (r1 & -> & H1). ub_step.
  destruct (IH r1 q H1) as (r' & -> & H'); [cbn in Hl; lia|]. ub_step. by exists r'.
Qed.
End Loops.

(** The state of the offset benchmark. *)
Lemma offsets_loop n : ∀ i, 0 ≤ i < 4096 →
  ∃ s, bench_loop n (λ idx, Ret ([u64 (idx * 4096)], u64 (idx + 1) `mod` 4096)) i =
    Ret ((λ k, (i + k) `mod` 4096 * 4096) <$> seqZ 0 (Z.of_nat n), s).
Proof.
  induction n as [|n IH]; intros i Hi; [by exists i|]. cbn [bench_loop]. ub_step.
  rewrite (u64_small (i + 1)), (u64_small (i * 4096)) by lia.
  destruct (IH ((i + 1) `mod` 4096)) as (s & ->); [apply Z.mod_pos_bound; lia|]. ub_step. exists s. do 2 f_equal.
  rewrite (seqZ_cons 0 (Z.of_nat (S n))) by lia. cbn [app fmap list_fmap]. rewrite Z.add_0_r, (Z.mod_small i) by lia. f_equal.
  replace (Z.pred (Z.of_nat (S n))) with (Z.of_nat n) by lia. change (Z.succ 0) with (1 + 0).
  rewrite <- fmap_add_seqZ, <- list_fmap_compose. apply list_fmap_ext. intros _ k _. cbn.
  f_equal. rewrite Zplus_mod_idemp_l. f_equal. lia.
Qed.

(** ** Properties *)

(** What the ring benchmarks measure.  For any number of iterations whose
    item count fits the library's 64 bits: the push-pop benchmark pops the
    42 it pushed every time; fill-and-drain never meets a full or an empty
    ring and drains 0..511 in order every time; peek returns slot 0 every
    time; size is 100 every time; and the reported item counts are the work
    done -- none of them measures the refusal path. *)
Theorem spsc_benchmarks_measure_hits (n : nat) :
  Z.of_nat n * 512 < 2 ^ 63 →
  BM_SpscPushPop n = Ret (replicate n (Some 42), Z.of_nat n) ∧
  BM_SpscBatchFillDrain n = Ret (concat (replicate n (Some <$> seqZ 0 512)), Z.of_nat n * 512) ∧
  BM_SpscPeek n = Ret (replicate n (Some 0), Z.of_nat n) ∧
  BM_SpscSize n = Ret (replicate n 100).
Proof.
  intros Hn. pose proof (eq_refl : capacity_ok 1024 = true) as HN. split_and!.
  - unfold BM_SpscPushPop. const_loop (λ r : SpscRingBuffer Z, ring_repr 1024 r []) [Some 42]; try by apply repr_init.
    intros r Hr. destruct (repr_push 1024 HN 42 r [] Hr) as (r1 & -> & H1). ub_step.
    destruct (repr_pop 1024 HN r1 [42] H1) as (r2 & -> & H2). ub_step. by exists r2.
  - unfold BM_SpscBatchFillDrain, kFillBatch.
    const_loop (λ r : SpscRingBuffer Z, ring_repr 1024 r []) (Some <$> seqZ 0 512); try by apply repr_init.
    intros r Hr. destruct (push_all_repr 1024 HN (seqZ 0 512) r [] Hr) as (r1 & -> & H1); [by vm_compute|]. ub_step.
    destruct (pop_times_repr 1024 HN (Z.to_nat 512) r1 _ H1) as (r2 & -> & H2); [by apply Nat.leb_le; vm_compute|].
    exists r2. split; [|exact H2]. by rewrite take_ge by (by apply Nat.leb_le; vm_compute).
  - unfold BM_SpscPeek. change (push 8 1 (ring_init 8 0)) with (Ret (true, mkRing 1 0 [1; 0; 0; 0; 0; 0; 0; 0])). ub_step.
    const_loop (λ r, r = mkRing 1 0 [1; 0; 0; 0; 0; 0; 0; 0]) [Some 0]. intros r ->. by eexists.
  - pose proof (eq_refl : capacity_ok 4096 = true) as HN'. unfold BM_SpscSize.
    destruct (push_all_repr 4096 HN' (seqZ 0 100) (ring_init 4096 0) []) as (r1 & -> & H1); [by apply repr_init|by vm_compute|].
    ub_step. const_loop (λ r, r = r1) [100]. intros r ->. exists r1. split; [|done]. by rewrite (repr_size 4096 HN' r1 _ H1).
Qed.

Lemma spsc_benchmarks_measure_hits_witness : BM_SpscPushPop 3 = Ret ([Some 42; Some 42; Some 42], 3).
Proof.
  destruct (spsc_benchmarks_measure_hits 3) as (H & _); [vm_compute; reflexivity|exact H].
Defined.

(** What the AF_XDP benchmarks measure.  For any number of iterations in
    range: the offsets are those of frames 0..4095 over and over, all inside
    the 16 MB region; the parse benchmark's frame is accepted every time,
    with its UDP header at byte 34 and no payload; the descriptor benchmark
    rewrites all 64 descriptors every time, whatever they held; and the copy
    benchmark reads 64 bytes inside the frame. *)
Theorem xdp_benchmarks_exact (n : nat) (descs : list RxDesc) :
  Z.of_nat n * 64 < 2 ^ 63 → length descs = 64%nat →
  BM_UmemFrameOffset n = Ret ((λ k, k `mod` 4096 * 4096) <$> seqZ 0 (Z.of_nat n), Z.of_nat n) ∧
  (∀ o, o ∈ (λ k, k `mod` 4096 * 4096) <$> seqZ 0 (Z.of_nat n) → 0 ≤ o ∧ o + 4096 ≤ 4096 * 4096) ∧
  BM_PacketParseFull n = Ret (replicate n (Some 34, 0), Z.of_nat n) ∧
  BM_RxDescBatchFill descs n = Ret (replicate n ((λ i, mkRxDesc (i * 4096) 4096 0) <$> seqZ 0 64), Z.of_nat n * 64) ∧
  BM_UmemPayloadCopy n = Ret (replicate n (replicate 64 0), Z.of_nat n * 64).
Proof.
  intros Hn Hd. split_and!.
  - unfold BM_UmemFrameOffset, XSK_UMEM__DEFAULT_FRAME_SIZE. destruct (offsets_loop n 0) as (s & ->); [lia|]. ub_step.
    rewrite items_processed_ok by lia. ub_step. by rewrite Z.mul_1_r.
  - intros o (k & -> & _)%list_elem_of_fmap. pose proof (Z.mod_pos_bound k 4096). lia.
  - unfold BM_PacketParseFull. destruct parse_frame as [buf|] eqn:Hb; [|by vm_compute in Hb]. ub_step.
    const_loop (λ _ : unit, True) [(Some 34, 0)]. intros [] _. exists tt. split; [|done].
    vm_compute in Hb. injection Hb as <-. vm_compute. reflexivity.
  - unfold BM_RxDescBatchFill, kDescBatch.
    const_loop (λ d : list RxDesc, length d = 64%nat) [(λ i, mkRxDesc (i * 4096) 4096 0) <$> seqZ 0 64].
    intros d Hl. do 64 (destruct d as [|? d]; [done|]). destruct d; [|done]. eexists. split; [vm_compute; reflexivity|done].
  - unfold BM_UmemPayloadCopy, kPayloadLen.
    const_loop (λ d : list Z, d = replicate 64 0) [replicate 64 0].
    intros d ->. eexists. split; [vm_compute; reflexivity|done].
Qed.

Lemma xdp_benchmarks_exact_witness : BM_PacketParseFull 2 = Ret ([(Some 34, 0); (Some 34, 0)], 2).
Proof.
  destruct (xdp_benchmarks_exact 2 (replicate 64 (mkRxDesc 0 0 0))) as (_ & _ & H & _).
  - vm_compute. reflexivity.
  - reflexivity.
  - exact H.
Defined.
