(* ===== verification/Throughput.v ===== *)
(** * The two-threaded benchmark

    [BM_SpscThroughput] of [bench/bench_spsc_ring_buffer.cpp]: a producer that
    pushes batches and retries what is refused, a consumer that pops until a
    flag is cleared and then drains, on the concurrent machine of
    SpscConcurrent.  The flag is written and read [relaxed]: a load may
    return an old value, and the new one tells nothing of the ring. *)

From S2P Require Import Prelude RingBuffer SpscConcurrent Bench.

(** ** The threads *)

Definition kRing : Z := 4096.
Definition kBatch : nat := 1024.

(** The benchmark's thread: about to push item [i] of iteration [k], inside
    that [push], about to clear the flag, waiting for the consumer, done with
    the items and bytes it reports. *)
Inductive prod_at : Type :=
| TCall (k i : nat)
| TPush (k i : nat)
| TStore
| TJoin
| TDone (reported : outcome (Z * Z)).

(** The consumer's lambda: about to load the flag, about to pop, inside
    [pop] -- in the second loop when [draining] -- and returned. *)
Inductive cons_at : Type :=
| KCheck
| KPop (draining : bool)
| KIn (draining : bool)
| KExit.

(** [t_running] is the history of the flag and [t_seen] the oldest of its
    values the consumer may still read. *)
Record tstate : Type := mkT {
  t_ring : conf Z;
  t_prod : prod_at;
  t_cons : cons_at;
  t_running : list bool;
  t_seen : nat;
  t_consumed : Z;
}.

Definition throughput_init : tstate := mkT (spsc_init kRing 0) (TCall 0 0) KCheck [true] 0 0.

(** [total] and [total * sizeof(uint64_t)], both [int64_t]. *)
Definition throughput_report (iterations : nat) : outcome (Z * Z) :=
  total ← items_processed iterations (Z.of_nat kBatch); bytes ← i64_result (total * 8); Ret (total, bytes).

(** The item of the last completed [push] was accepted. *)
Definition push_accepted (p : @producer Z) : bool := match last (p_log p) with Some (_, b) => b | None => false end.
Definition pop_result (c : @consumer Z) : option Z := match last (c_log c) with Some (GotPop o) => o | _ => None end.

(** One step of the benchmark's thread; [j] is the message a load returns. *)
Definition prod_step (iterations : nat) (j : nat) (s : tstate) : option tstate :=
  let set pc c hist := mkT c pc (t_cons s) hist (t_seen s) (t_consumed s) in
  match t_prod s with
  | TCall k i =>
      if bool_decide (k < iterations)%nat then
        if bool_decide (i < kBatch)%nat
        then c ← spsc_step kRing (ProducerCall (Z.of_nat i)) (t_ring s); Some (set (TPush k i) c (t_running s))
        else Some (set (TCall (S k) 0) (t_ring s) (t_running s))
      else Some (set TStore (t_ring s) (t_running s))
  | TPush k i =>
      c ← spsc_step kRing (ProducerStep j) (t_ring s);
      Some (set (match p_pc (prod c) with
                 | PIdle => if push_accepted (prod c) then TCall k (S i) else TCall k i
                 | _ => TPush k i
                 end) c (t_running s))
  | TStore => Some (set TJoin (t_ring s) (t_running s ++ [false]))
  | TJoin => match t_cons s with KExit => Some (set (TDone (throughput_report iterations)) (t_ring s) (t_running s)) | _ => None end
  | TDone _ => None
  end.

(** One step of the consumer. *)
Definition cons_step (j : nat) (s : tstate) : option tstate :=
  match t_cons s with
  | KCheck =>
      if bool_decide (t_seen s ≤ j)%nat then
        running ← t_running s !! j;
        Some (mkT (t_ring s) (t_prod s) (KPop (negb running)) (t_running s) j (t_consumed s))
      else None
  | KPop d =>
      c ← spsc_step kRing (ConsumerCall Pop) (t_ring s);
      Some (mkT c (t_prod s) (KIn d) (t_running s) (t_seen s) (t_consumed s))
  | KIn d =>
      c ← spsc_step kRing (ConsumerStep j) (t_ring s);
      match c_pc (cons c) with
      | CIdle =>
          match pop_result (cons c) with
          | Some _ => Some (mkT c (t_prod s) (if d then KPop true else KCheck) (t_running s) (t_seen s) (u64 (t_consumed s + 1)))
          | None => Some (mkT c (t_prod s) (if d then KExit else KCheck) (t_running s) (t_seen s) (t_consumed s))
          end
      | _ => Some (mkT c (t_prod s) (KIn d) (t_running s) (t_seen s) (t_consumed s))
      end
  | KExit => None
  end.

Inductive who : Type := Producer | Consumer.

Definition throughput_step (iterations : nat) (l : who * nat) (s : tstate) : option tstate :=
  match l with (Producer, j) => prod_step iterations j s | (Consumer, j) => cons_step j s end.

Fixpoint throughput_run (iterations : nat) (ls : list (who * nat)) (s : tstate) : option tstate :=
  match ls with [] => Some s | l :: ls => s' ← throughput_step iterations l s; throughput_run iterations ls s' end.

(** Interleavings of the two threads. *)
Definition throughput_reachable (iterations : nat) : tstate → Prop :=
  rtc (λ s s', ∃ l, throughput_step iterations l s = Some s') throughput_init.

(** What the producer has had accepted at item [i] of iteration [k]. *)
Definition batch : list Z := seqZ 0 (Z.of_nat kBatch).
Definition produced (k i : nat) : list Z := concat (replicate k batch) ++ take i batch.

(** ** One call on the ring *)

Definition ppc_item (pc : @ppc Z) : option Z :=
  match pc with PIdle => None | PTail x | PHead x _ | PWrite x _ _ | PStore x _ => Some x end.

Definition in_pop (pc : @cpc Z) : Prop :=
  match pc with CHead Pop | CTail Pop _ | CRead Pop _ | CStore _ _ => True | _ => False end.

(** A step inside [push] either goes on with the same item or completes the
    call with it. *)
Lemma push_progress i c c' :
  conf_inv kRing c → spsc_step kRing (ProducerStep i) c = Some c' →
  cons c' = cons c ∧ ∃ x, ppc_item (p_pc (prod c)) = Some x ∧
  match p_pc (prod c') with
  | PIdle => ∃ b, p_log (prod c') = p_log (prod c) ++ [(x, b)]
  | pc => ppc_item pc = Some x ∧ p_log (prod c') = p_log (prod c)
  end.
Proof.
  intros Hi. cbn [spsc_step]. destruct (push_step kRing i (mem c) (prod c)) as [[[m p] ok]|] eqn:Hs; [|done]. intros [= <-].
  destruct (push_step_inv kRing eq_refl c i m p ok Hi Hs) as [-> _]. cbn [cons prod]. split; [done|]. revert Hs. unfold push_step.
  destruct (p_pc (prod c)) as [|x|x t|x t nt|x nt] eqn:Hpc; [done| | | |]; cbn [ppc_item].
  - destruct (atomic_load _ _ _ _ _) as [[? ?]|]; [|done]. intros [= <- <-]. by exists x.
  - destruct (atomic_load _ _ _ _ _) as [[? ?]|]; [|done]. cbn [mbind option_bind].
    case_bool_decide; intros [= <- <-]; exists x; cbn; eauto.
  - destruct (slot_write _ _ _ _) as [[? ?]|]; [|done]. intros [= <- <-]. by exists x.
  - cbn. intros [= <- <-]. exists x. cbn. eauto.
Qed.

(** A step inside [pop] either goes on or completes the call; when it
    answers nothing, the consumer has had every item published before the
    message it read. *)
Lemma pop_progress i c c' :
  conf_inv kRing c → in_pop (c_pc (cons c)) → spsc_step kRing (ConsumerStep i) c = Some c' →
  prod c' = prod c ∧
  match c_pc (cons c') with
  | CIdle => ∃ o, c_log (cons c') = c_log (cons c) ++ [GotPop o] ∧
      (o = None → v_tail (c_view (cons c')) = length (popped (cons c)))
  | pc => in_pop pc ∧ c_log (cons c') = c_log (cons c)
  end.
Proof.
  intros Hi Hin. cbn [spsc_step]. destruct (pop_step kRing i (mem c) (cons c)) as [[[m k] ok]|] eqn:Hs; [|done]. intros [= <-].
  destruct (pop_step_inv kRing eq_refl c i m k ok Hi Hs) as [-> _]. cbn [cons prod]. split; [done|]. revert Hs. unfold pop_step.
  pose proof (ci_cpc kRing c Hi) as Hc.
  destruct (c_pc (cons c)) as [|[]|[] h|[] h|x h] eqn:Hpc; cbn in Hin, Hc; try done.
  - destruct (atomic_load _ _ _ _ _) as [[? ?]|]; [|done]. by intros [= <- <-].
  - destruct (atomic_load _ _ _ _ _) as [[t v]|] eqn:Hl; [|done]. cbn [mbind option_bind].
    case_bool_decide as Ht; intros [= <- <-]; cbn [c_pc c_log c_view]; [|done].
    exists None. split; [done|]. intros _. apply load_acquire in Hl as (mv & Hge & Hm & Hv). cbn in Hge, Hm, Hv.
    pose proof (ci_mem kRing c Hi) as HM. destruct (i_tmsg _ _ _ _ _ HM _ _ _ Hm) as (Htv & Hti & _).
    pose proof (lookup_lt_Some _ _ _ Hm) as Hlt. rewrite (i_tlen _ _ _ _ _ HM) in Hlt.
    pose proof (i_order _ _ _ _ _ HM). pose proof (i_room _ _ _ _ _ HM). rewrite (ci_rel kRing c Hi).
    subst v h t. cbn. rewrite Hti, Nat.max_id.
    destruct (decide (i = n_rel (mem c))) as [->|Hne]; [done|].
    exfalso. apply (mod_slot_inj kRing (Z.of_nat (n_rel (mem c))) (Z.of_nat i)); [unfold kRing in *; lia..|done].
  - destruct (slot_read _ _ _) as [[[? ?] ?]|]; [|done]. by intros [= <- <-].
  - cbn. intros [= <- <-]. by exists (Some x).
Qed.

(** ** The invariant *)

Section Invariant.
Context (iterations : nat).
Implicit Types s : tstate.

Definition prod_ok s : Prop :=
  let p := prod (t_ring s) in
  match t_prod s with
  | TCall k i => p_pc p = PIdle ∧ pushed p = produced k i ∧ (i ≤ kBatch)%nat ∧ (k < iterations ∨ k = iterations ∧ i = 0)%nat
  | TPush k i => ppc_item (p_pc p) = Some (Z.of_nat i) ∧ pushed p = produced k i ∧ (i < kBatch)%nat ∧ (k < iterations)%nat
  | TStore | TJoin => p_pc p = PIdle ∧ pushed p = produced iterations 0
  | TDone r => p_pc p = PIdle ∧ pushed p = produced iterations 0 ∧ t_cons s = KExit ∧ r = throughput_report iterations
  end.

Definition cons_ok s : Prop :=
  let c := cons (t_ring s) in
  match t_cons s with
  | KCheck | KPop _ => c_pc c = CIdle
  | KIn _ => in_pop (c_pc c)
  | KExit => c_pc c = CIdle ∧ v_tail (c_view c) = length (popped c)
  end.

Definition stopped (pc : prod_at) : bool := match pc with TJoin | TDone _ => true | _ => false end.
Definition draining (pc : cons_at) : bool := match pc with KPop d | KIn d => d | KExit => true | KCheck => false end.

Record t_inv s : Prop := {
  ti_ring : reachable kRing 0 (t_ring s);
  ti_prod : prod_ok s;
  ti_cons : cons_ok s;
  ti_consumed : t_consumed s = u64 (Z.of_nat (length (popped (cons (t_ring s)))));
  ti_running : t_running s = if stopped (t_prod s) then [true; false] else [true];
  ti_drain : draining (t_cons s) = true → stopped (t_prod s) = true;
}.

Lemma ring_step c l c' : reachable kRing 0 c → spsc_step kRing l c = Some c' → reachable kRing 0 c'.
Proof. intros Hr Hs. eapply rtc_r; [exact Hr|]. by exists l. Qed.

Lemma produced_S k i : (i < kBatch)%nat → produced k i ++ [Z.of_nat i] = produced k (S i).
Proof.
  intros Hi. unfold produced. rewrite <- app_assoc. f_equal. symmetry. apply take_S_r.
  unfold batch. rewrite lookup_seqZ. split; lia.
Qed.

Lemma produced_full k : produced k kBatch = produced (S k) 0.
Proof.
  unfold produced. rewrite replicate_S_end, concat_app, take_0, app_nil_r. cbn [concat]. rewrite app_nil_r.
  rewrite take_ge; [done|]. unfold batch. rewrite length_seqZ. lia.
Qed.

Lemma length_produced k i : (i ≤ kBatch)%nat → length (produced k i) = (k * kBatch + i)%nat.
Proof.
  intros Hi. assert (Hb : length batch = kBatch) by (unfold batch; rewrite length_seqZ; lia).
  unfold produced. rewrite length_app, length_take, Hb. replace (i `min` kBatch)%nat with i by lia. f_equal.
  induction k as [|k IH]; [done|]. cbn [replicate concat]. rewrite length_app, IH, Hb. done.
Qed.

Lemma prod_step_inv j s s' : t_inv s → prod_step iterations j s = Some s' → t_inv s'.
Proof.
  destruct s as [c p k hist seen n]. intros [Hr Hp Hk Hn Hh Hd]. unfold prod_step, prod_ok, cons_ok in *.
  cbn [t_ring t_prod t_cons t_running t_seen t_consumed] in *.
  destruct p as [b i|b i| | |r].
  - destruct Hp as (Hidle & Hpu & Hi & Hb). case_bool_decide as Hlt; [case_bool_decide as Hlt'|].
    + destruct (spsc_step kRing _ c) as [c'|] eqn:Hs; [|done]. intros [= <-]. pose proof (ring_step _ _ _ Hr Hs) as Hr'.
      cbn [spsc_step] in Hs. rewrite Hidle in Hs. injection Hs as <-. by split.
    + intros [= <-]. split; try done. assert (i = kBatch) as -> by lia. rewrite produced_full in Hpu.
      split_and!; [done..|lia|]. lia.
    + intros [= <-]. split; try done. destruct Hb as [?|[-> ->]]; [lia|]. done.
  - destruct Hp as (Hit & Hpu & Hi & Hb). destruct (spsc_step kRing _ c) as [c'|] eqn:Hs; [|done]. intros [= <-].
    pose proof (ring_step _ _ _ Hr Hs) as Hr'.
    destruct (push_progress j c c' (reachable_inv kRing eq_refl 0 c Hr) Hs) as (Hc & x & Hx & Hlog).
    rewrite Hit in Hx. injection Hx as <-. destruct (p_pc (prod c')) eqn:Hpc.
    2-5: destruct Hlog as [Hx Hlog]; split; unfold prod_ok, cons_ok; cbn [t_ring t_prod t_cons t_running t_consumed]; rewrite ?Hc; try done;
      rewrite Hpc; split_and!; try done; unfold pushed; rewrite Hlog; done.
    destruct Hlog as [a Hlog]. assert (Hacc : push_accepted (prod c') = a) by (unfold push_accepted; by rewrite Hlog, last_snoc).
    rewrite Hacc. assert (Hpu' : pushed (prod c') = produced b i ++ (if a then [Z.of_nat i] else [])).
    { unfold pushed in *. rewrite Hlog, omap_app, Hpu. by destruct a. }
    split; unfold prod_ok, cons_ok; cbn [t_ring t_prod t_cons t_running t_consumed]; rewrite ?Hc; try done.
    + destruct a; [rewrite produced_S in Hpu' by done|rewrite app_nil_r in Hpu']; split_and!; try done; lia.
    + by destruct a.
    + by destruct a.
  - intros [= <-]. split; try done. cbn [t_running]. by rewrite Hh.
  - destruct k; [done..|]. intros [= <-]. split; try done. by destruct Hp.
  - done.
Qed.

Lemma popped_snoc (l : @consumer Z) log o : c_log l = log ++ [GotPop o] → popped l = popped_log log ++ option_list o.
Proof. intros Hl. unfold popped. rewrite Hl. unfold popped_log. rewrite omap_app. by destruct o. Qed.

Lemma cons_step_inv j s s' : t_inv s → cons_step j s = Some s' → t_inv s'.
Proof.
  destruct s as [c p k hist seen n]. intros [Hr Hp Hk Hn Hh Hd]. unfold cons_step, prod_ok, cons_ok in *.
  cbn [t_ring t_prod t_cons t_running t_seen t_consumed] in *.
  assert (Hpdone : ∀ r, p = TDone r → k = KExit) by (intros r ->; apply Hp).
  destruct k as [|d|d|].
  - case_bool_decide; [|done]. destruct (hist !! j) as [b|] eqn:Hj; [|done]. intros [= <-].
    split; unfold prod_ok; cbn [t_ring t_prod t_cons t_running t_consumed]; try done.
    + destruct p; try done. by specialize (Hpdone _ eq_refl).
    + cbn. intros Hb. destruct (stopped p); [done|]. subst hist. destruct j as [|[|j]]; cbn in Hj; by simplify_eq.
  - destruct (spsc_step kRing _ c) as [c'|] eqn:Hs; [|done]. intros [= <-]. pose proof (ring_step _ _ _ Hr Hs) as Hr'.
    cbn [spsc_step] in Hs. rewrite Hk in Hs. injection Hs as <-.
    split; unfold prod_ok; cbn [t_ring t_prod t_cons t_running t_consumed prod cons]; try done.
    destruct p; try done. by specialize (Hpdone _ eq_refl).
  - destruct (spsc_step kRing _ c) as [c'|] eqn:Hs; [|done]. pose proof (ring_step _ _ _ Hr Hs) as Hr'.
    destruct (pop_progress j c c' (reachable_inv kRing eq_refl 0 c Hr) Hk Hs) as (Hpc & Hlog). cbn [mbind option_bind]. intros Hs'.
    assert (Hpk : ∀ k' n', prod_ok (mkT c' p k' hist seen n')).
    { intros k' n'. unfold prod_ok. cbn [t_ring t_prod t_cons]. rewrite Hpc. destruct p; try done. by specialize (Hpdone _ eq_refl). }
    destruct (c_pc (cons c')) eqn:Hcp.
    2-5: injection Hs' as <-; destruct Hlog as [Hin Hlog]; split; unfold cons_ok; cbn [t_ring t_prod t_cons t_running t_consumed];
      try done; [by rewrite Hcp|..]; unfold popped; by rewrite Hlog.
    destruct Hlog as (o & Hlog & Hnone). pose proof (popped_snoc _ _ _ Hlog) as Hpop.
    assert (Hres : pop_result (cons c') = o) by (unfold pop_result; by rewrite Hlog, last_snoc).
    rewrite Hres in Hs'. unfold popped in Hn, Hnone. destruct o as [x|]; cbn [option_list] in Hpop; injection Hs' as <-.
    + split; unfold cons_ok; cbn [t_ring t_prod t_cons t_running t_consumed]; try done; [by destruct d| |by destruct d].
      rewrite Hpop, length_app, Hn. change (length (option_list (Some x))) with 1%nat. unfold u64, wrap. rewrite Zplus_mod_idemp_l. f_equal. lia.
    + rewrite app_nil_r in Hpop.
      split; unfold cons_ok; cbn [t_ring t_prod t_cons t_running t_consumed]; try done; [|by rewrite Hpop|by destruct d].
      destruct d; [|done]. split; [done|]. rewrite Hpop. by apply Hnone.
  - done.
Qed.

Lemma throughput_inv s : throughput_reachable iterations s → t_inv s.
Proof.
  unfold throughput_reachable. intros Hr.
  assert (Hi : t_inv throughput_init).
  { split; [apply rtc_refl| |done..]. unfold prod_ok, kBatch. cbn [t_prod throughput_init]. split_and!; [done|done|lia|lia]. }
  induction Hr as [|s1 s2 s3 [[[] j] Hs] _ IH]; [done| |]; apply IH; [by eapply prod_step_inv|by eapply cons_step_inv].
Qed.

Lemma throughput_run_reachable ls s : throughput_run iterations ls throughput_init = Some s → throughput_reachable iterations s.
Proof.
  unfold throughput_reachable. generalize throughput_init. induction ls as [|l ls IH]; intros s0; cbn.
  - intros [= <-]. done.
  - destruct (throughput_step iterations l s0) as [s1|] eqn:Hs; [|done]. intros Hr. apply rtc_l with s1; [by exists l|auto].
Qed.
End Invariant.

(** ** Properties *)

(** C13: what the two-threaded benchmark guarantees, and what it does not.
    In every interleaving, with every stale value the loads may return: the
    ring is never raced on; the producer's items are accepted in order,
    none skipped or repeated however often a full ring refuses them; the
    consumer gets a prefix of them and counts exactly what it gets; it
    drains only after the flag was cleared; and when the benchmark is over,
    the producer's batches were all accepted and the report is of all of
    them.  The consumer leaves with the items published up to the value of
    [tail_] it read last: all of them if that was the newest. *)
Theorem throughput_accounts (iterations : nat) (s : tstate) :
  throughput_reachable iterations s →
  ub (t_ring s) = false ∧
  (∃ k i, pushed (prod (t_ring s)) = produced k i ∧ (k * kBatch + i ≤ iterations * kBatch)%nat) ∧
  popped (cons (t_ring s)) `prefix_of` pushed (prod (t_ring s)) ∧
  t_consumed s = u64 (Z.of_nat (length (popped (cons (t_ring s))))) ∧
  (draining (t_cons s) = true → false ∈ t_running s) ∧
  ∀ r, t_prod s = TDone r →
    t_cons s = KExit ∧ r = throughput_report iterations ∧ pushed (prod (t_ring s)) = produced iterations 0 ∧
    (v_tail (c_view (cons (t_ring s))) = (iterations * kBatch)%nat →
     popped (cons (t_ring s)) = pushed (prod (t_ring s))).
Proof.
  intros Hr. destruct (throughput_inv iterations s Hr) as [Hring Hp Hk Hn Hh Hd].
  pose proof (reachable_inv kRing eq_refl 0 _ Hring) as Hi. pose proof (clog_ok_prefix _ _ _ (ci_log kRing _ Hi)) as Hpre.
  rewrite drop_0 in Hpre. fold (popped (cons (t_ring s))) in Hpre. split_and!; [apply Hi| |exact Hpre|exact Hn| |].
  - unfold prod_ok in Hp. destruct (t_prod s) as [k i|k i| | |]; [exists k, i|exists k, i|exists iterations, 0%nat..];
      (split; [by apply Hp|]); destruct_and?; nia.
  - intros Hdr. rewrite Hh, (Hd Hdr). set_solver.
  - intros r Hr'. unfold prod_ok in Hp. rewrite Hr' in Hp. destruct Hp as (_ & Hpu & Hke & ->). split_and!; [done..|].
    unfold cons_ok in Hk. rewrite Hke in Hk. destruct Hk as [_ Hl]. rewrite Hl. intros He.
    apply prefix_length_eq; [done|]. rewrite He, Hpu, length_produced; [|unfold kBatch]; lia.
Qed.

(** One batch is pushed and the flag cleared; then the consumer, which has
    not run yet, sees the cleared flag and an old [tail_]. *)
Definition early_exit : list (who * nat) :=
  concat ((λ i, (λ j, (Producer, j)) <$> [0; i; 0; 0; 0])%nat <$> seq 0 kBatch) ++
  [(Producer, 0%nat); (Producer, 0%nat); (Producer, 0%nat)] ++
  [(Consumer, 1%nat); (Consumer, 0%nat); (Consumer, 0%nat); (Consumer, 0%nat)] ++ [(Producer, 0%nat)].

Definition early_exit_state : tstate := default throughput_init (throughput_run 1 early_exit throughput_init).

Lemma early_exit_reachable : throughput_reachable 1 early_exit_state.
Proof. apply (throughput_run_reachable 1 early_exit). vm_compute. reflexivity. Qed.

Lemma throughput_accounts_witness :
  t_prod early_exit_state = TDone (Ret (1024, 8192)) ∧ t_consumed early_exit_state = 0 ∧
  pushed (prod (t_ring early_exit_state)) = produced 1 0 ∧ ub (t_ring early_exit_state) = false.
Proof.
  destruct (throughput_accounts 1 early_exit_state early_exit_reachable) as (Hub & _ & _ & Hn & _ & Hd).
  assert (Hp : t_prod early_exit_state = TDone (Ret (1024, 8192))) by (vm_compute; reflexivity).
  destruct (Hd _ Hp) as (_ & _ & Hpu & _).
  split; [exact Hp|]. split; [vm_compute; reflexivity|]. split; [exact Hpu|exact Hub].
Defined.

(** The drain may leave items behind.  The comment of the benchmark
    says its consumer drains whatever the producer left in the ring, but
    clearing the flag is a relaxed store: the consumer may see it without
    seeing the producer's last stores of [tail_].  There is an execution of
    one iteration that ends with all 1024 items accepted and reported as
    processed and none of them consumed. *)
Theorem drain_may_leave_items :
  ∃ s, throughput_reachable 1 s ∧ t_prod s = TDone (Ret (1024, 8192)) ∧ t_cons s = KExit ∧
    length (pushed (prod (t_ring s))) = kBatch ∧ popped (cons (t_ring s)) = [] ∧ t_consumed s = 0.
Proof.
  exists early_exit_state. split; [apply early_exit_reachable|]. split_and!; vm_compute; reflexivity.
Qed.
