(* ===== verification/Table.v ===== *)
(** * The table of the latency comparison

    [percentile] and [print_table] of [bench/bench_baseline_comparison.cpp]:
    the numbers printed for the samples of both receivers and the verdict,
    in the program's [double]s. *)

From S2P Require Import Prelude Double Stats.

(** ** Percentiles *)

Definition percentile `{!FloatMode} (v : list Z) (pct : double) : outcome Z :=
  match v with
  | [] => Ret 0
  | _ =>
      idx ← u64_of_double (double_mul (quotient pct (double_of_Z 100)) (double_of_Z (u64 (Z.of_nat (length v) - 1))));
      array_get v idx
  end.

(** ** Rows and verdict *)

(** [static_cast<int>] of a size: modulo 2^32. *)
Definition i32 (z : Z) : Z := (z + 2 ^ 31) mod 2 ^ 32 - 2 ^ 31.

Lemma i32_small z : 0 ≤ z < 2 ^ 31 → i32 z = z.
Proof. intros Hz. unfold i32. rewrite Z.mod_small by lia. lia. Qed.

(** A row: its label, the two values in nanoseconds, and the three numbers
    printed. *)
Record row : Type := mkRow {
  rw_label : string; rw_std_ns : Z; rw_xdp_ns : Z; rw_std_us : double; rw_xdp_us : double; rw_speedup : double;
}.

Inductive verdict : Type :=
| XdpFaster (times : double)
| StdFaster (times : double)
| Insufficient.

Record table : Type := mkTable {
  tb_packets : Z; tb_std : Z * Z; tb_xdp : Z * Z;    (* received and lost *)
  tb_rows : list row; tb_verdict : verdict;
}.

Definition double_0 : double := S754_zero false.
Definition double_1e3 : double := double_of_Z 1000.
Definition double_99_9 : double := S754_finite false 7029837543348634 (-46).
Definition positive_double (d : double) : bool := SFltb double_0 d.

(** [(x > 0.0 && s > 0.0) ? s / x : 0.0]. *)
Definition speedup_of (s_us x_us : double) : double :=
  if positive_double x_us && positive_double s_us then double_div s_us x_us else double_0.

Definition make_row `{!FloatMode} (label : string) (std_ns xdp_ns : Z) : row :=
  let s_us := quotient (double_of_Z std_ns) double_1e3 in
  let x_us := quotient (double_of_Z xdp_ns) double_1e3 in
  mkRow label std_ns xdp_ns s_us x_us (speedup_of s_us x_us).

Definition percentile_row `{!FloatMode} (label : string) (std_lats xdp_lats : list Z) (pct : double) : outcome row :=
  a ← percentile std_lats pct; b ← percentile xdp_lats pct; Ret (make_row label a b).

Definition print_table `{!FloatMode} (std_unsorted xdp_unsorted : list Z) (n_packets std_lost xdp_lost : Z) : outcome table :=
  let std_lats := sorted_samples std_unsorted in
  let xdp_lats := sorted_samples xdp_unsorted in
  let r_min := make_row "min" (default 0 (head std_lats)) (default 0 (head xdp_lats)) in
  r_p50 ← percentile_row "p50" std_lats xdp_lats (double_of_Z 50);
  r_p99 ← percentile_row "p99" std_lats xdp_lats (double_of_Z 99);
  r_p999 ← percentile_row "p99.9" std_lats xdp_lats double_99_9;
  let r_max := make_row "max" (default 0 (last std_lats)) (default 0 (last xdp_lats)) in
  a50 ← percentile std_lats (double_of_Z 50);
  b50 ← percentile xdp_lats (double_of_Z 50);
  let speedup := speedup_of (quotient (double_of_Z a50) double_1e3) (quotient (double_of_Z b50) double_1e3) in
  let v :=
    if SFltb double_1 speedup then XdpFaster speedup
    else if positive_double speedup then StdFaster (double_div double_1 speedup)
    else Insufficient in
  Ret (mkTable n_packets (i32 (Z.of_nat (length std_lats)), std_lost) (i32 (Z.of_nat (length xdp_lats)), xdp_lost)
         [r_min; r_p50; r_p99; r_p999; r_max] v).

(** ** Lemmas *)

(** The double of [pct / 100.0] for the three percentiles asked for, the
    same by division and by the reciprocal. *)
Lemma percentile_fractions `{!FloatMode} :
  quotient (double_of_Z 50) (double_of_Z 100) = fraction 4503599627370496 ∧
  quotient (double_of_Z 99) (double_of_Z 100) = fraction 8917127262193582 ∧
  quotient double_99_9 (double_of_Z 100) = fraction 8998192055486252.
Proof. unfold quotient. destruct reciprocal_math; split_and!; vm_compute; reflexivity. Qed.

Lemma percentile_ok `{!FloatMode} v p m :
  quotient p (double_of_Z 100) = fraction m → Z.log2 (Z.pos m) = 52 → v ≠ [] → Z.of_nat (length v) < 2 ^ 53 →
  let n := Z.of_nat (length v) in
  ∃ z x, rank (fraction m) n = Ret z ∧ percentile v p = Ret x ∧ v !! Z.to_nat z = Some x ∧ 0 ≤ z < n ∧
    (z = (Z.pos m * (n - 1)) `div` 2 ^ 53 ∨ z = (Z.pos m * (n - 1)) `div` 2 ^ 53 + 1).
Proof.
  intros Hp Hm Hne Hn n. assert (0 < n) by (destruct v; [done|cbn in n; lia]).
  destruct (rank_spec m n Hm) as (z & Hz & Hb & Hf); [lia|].
  destruct (lookup_lt_is_Some_2 v (Z.to_nat z)) as [x Hx]; [lia|]. exists z, x.
  assert (Hgoal : percentile v p = array_get v z).
  { unfold percentile. rewrite Hp. unfold rank, n in Hz. destruct v; [done|]. rewrite Hz. by ub_step. }
  rewrite Hgoal. split_and!; try done; try lia. apply array_get_lookup; [lia|done].
Qed.

Lemma zero_us `{!FloatMode} : quotient (double_of_Z 0) double_1e3 = double_0.
Proof. unfold quotient. destruct reciprocal_math; vm_compute; reflexivity. Qed.

(** What the five numbers printed for one receiver say of its samples [l]. *)
Record column (l : list Z) (v_min v50 v99 v999 v_max : Z) : Prop := {
  co_empty : l = [] → v_min = 0 ∧ v50 = 0 ∧ v99 = 0 ∧ v999 = 0 ∧ v_max = 0;
  co_order : v_min ≤ v50 ≤ v99 ∧ v99 ≤ v999 ≤ v_max;
  co_ends : l ≠ [] → v_min ∈ l ∧ v_max ∈ l ∧ Forall (λ x, v_min ≤ x ≤ v_max) l;
  co_p50 : l ≠ [] → ∃ i, sorted_samples l !! Z.to_nat i = Some v50 ∧ Z.abs (2 * i - (Z.of_nat (length l) - 1)) ≤ 2;
  co_p99 : l ≠ [] → ∃ i, sorted_samples l !! Z.to_nat i = Some v99 ∧ Z.abs (100 * i - 99 * (Z.of_nat (length l) - 1)) ≤ 107;
  co_p999 : l ≠ [] → ∃ i, sorted_samples l !! Z.to_nat i = Some v999 ∧ Z.abs (1000 * i - 999 * (Z.of_nat (length l) - 1)) ≤ 1992;
}.

Lemma column_ok `{!FloatMode} l :
  Z.of_nat (length l) < 2 ^ 53 →
  let s := sorted_samples l in
  ∃ v50 v99 v999, percentile s (double_of_Z 50) = Ret v50 ∧ percentile s (double_of_Z 99) = Ret v99 ∧
    percentile s double_99_9 = Ret v999 ∧ column l (default 0 (head s)) v50 v99 v999 (default 0 (last s)).
Proof.
  intros Hn s. destruct (decide (l = [])) as [-> |Hne].
  { exists 0, 0, 0. split_and!; [done..|]. split; try done; cbn; lia. }
  destruct percentile_fractions as (F50 & F99 & F999). assert (Hpos : (0 < length l)%nat) by (destruct l; cbn; [done|lia]).
  assert (Hs : length s = length l) by apply length_sorted_samples.
  assert (Hsn : s ≠ []) by (intros E; apply Hne; destruct l; [done|by rewrite E in Hs]).
  destruct (sorted_samples_ends l Hne) as (lo & hi & Hlo & Hhi & Hlod & Hhid & Hends). fold s in Hlo, Hhi.
  pose proof (sorted_samples_sorted l) as Hsort. fold s in Hsort.
  destruct (percentile_ok s _ _ F50) as (z50 & x50 & R50 & E50 & L50 & B50 & N50); [done|done|by rewrite Hs|].
  destruct (percentile_ok s _ _ F99) as (z99 & x99 & R99 & E99 & L99 & B99 & N99); [done|done|by rewrite Hs|].
  destruct (percentile_ok s _ _ F999) as (z999 & x999 & R999 & E999 & L999 & B999 & N999); [done|done|by rewrite Hs|].
  rewrite Hs in *. exists x50, x99, x999. rewrite Hlo, Hhi. change (default 0 (Some lo)) with lo. change (default 0 (Some hi)) with hi.
  split_and!; [done..|].
  assert (Hin : ∀ i x, s !! i = Some x → lo ≤ x ≤ hi).
  { intros i x Hx. rewrite Forall_forall in Hends. apply Hends. rewrite <- (sorted_samples_perm l). by eapply list_elem_of_lookup_2. }
  assert (z50 ≤ z99) by (eapply rank_mono; [| | | | |exact R50|exact R99]; [done|done|done|vm_compute; reflexivity|lia]).
  assert (z99 ≤ z999) by (eapply rank_mono; [| | | | |exact R99|exact R999]; [done|done|done|vm_compute; reflexivity|lia]).
  assert (x50 ≤ x99) by (eapply sorted_lookup_le; [exact Hsort| |exact L50|exact L99]; lia).
  assert (x99 ≤ x999) by (eapply sorted_lookup_le; [exact Hsort| |exact L99|exact L999]; lia).
  pose proof (Hin _ _ L50). pose proof (Hin _ _ L999).
  split; [done|lia|done|..]; intros _.
  - exists z50. split; [done|]. by apply half_rank.
  - exists z99. split; [done|]. apply p99_rank; [lia|done].
  - exists z999. split; [done|]. apply p999_rank; [lia|done].
Qed.

Lemma print_table_ok `{!FloatMode} (std xdp : list Z) (n_packets std_lost xdp_lost : Z) :
  Z.of_nat (length std) < 2 ^ 53 → Z.of_nat (length xdp) < 2 ^ 53 →
  ∃ tb s0 s50 s99 s999 s1 x0 x50 x99 x999 x1,
    print_table std xdp n_packets std_lost xdp_lost = Ret tb ∧
    column std s0 s50 s99 s999 s1 ∧ column xdp x0 x50 x99 x999 x1 ∧
    tb_rows tb = [make_row "min" s0 x0; make_row "p50" s50 x50; make_row "p99" s99 x99;
                  make_row "p99.9" s999 x999; make_row "max" s1 x1] ∧
    tb_std tb = (i32 (Z.of_nat (length std)), std_lost) ∧ tb_xdp tb = (i32 (Z.of_nat (length xdp)), xdp_lost) ∧ tb_packets tb = n_packets ∧
    (std = [] ∨ xdp = [] → tb_verdict tb = Insufficient) ∧
    let speedup := rw_speedup (make_row "p50" s50 x50) in
    match tb_verdict tb with
    | XdpFaster r => r = speedup ∧ SFltb double_1 r = true
    | StdFaster r => r = double_div double_1 speedup ∧ SFltb double_1 speedup = false ∧ positive_double speedup = true
    | Insufficient => positive_double speedup = false
    end.
Proof.
  intros Hs Hx. destruct (column_ok std Hs) as (s50 & s99 & s999 & S50 & S99 & S999 & Cs).
  destruct (column_ok xdp Hx) as (x50 & x99 & x999 & X50 & X99 & X999 & Cx).
  unfold print_table, percentile_row. rewrite S50, X50, S99, X99, S999, X999. ub_step.
  do 11 eexists. split; [done|]. split; [exact Cs|]. split; [exact Cx|]. cbn [tb_rows tb_std tb_xdp tb_packets tb_verdict].
  rewrite !length_sorted_samples. split_and!; [done..| |].
  - intros He. change (rw_speedup (make_row "p50" s50 x50)) with (speedup_of (quotient (double_of_Z s50) double_1e3) (quotient (double_of_Z x50) double_1e3)).
    assert (Hz : speedup_of (quotient (double_of_Z s50) double_1e3) (quotient (double_of_Z x50) double_1e3) = double_0).
    { unfold speedup_of. destruct He as [He|He].
      - destruct (co_empty _ _ _ _ _ _ Cs He) as (_ & -> & _). by rewrite zero_us, andb_false_r.
      - destruct (co_empty _ _ _ _ _ _ Cx He) as (_ & -> & _). by rewrite zero_us. }
    by rewrite Hz.
  - cbn [make_row rw_speedup]. set (sp := speedup_of _ _). destruct (SFltb double_1 sp) eqn:H1; [done|].
    by destruct (positive_double sp) eqn:H2.
Qed.

(** ** Properties *)

(** C28: the table is right.  For any samples (fewer than 2^53 per receiver)
    [print_table] computes no index out of range, and its rows hold, for
    each receiver, the least and the greatest sample and in between, in
    order, the 50th, 99th and 99.9th percentile, which are samples within 1,
    1.07 and 2 ranks of the exact ones; all are 0 for a receiver without
    samples, and then no receiver is called faster.  The verdict is the
    speedup of the row of medians: the AF_XDP side wins when it exceeds 1,
    otherwise the other side does, by its inverse.  The numbers of samples
    printed are [int]s: exact below 2^31, and modulo 2^32 from there on. *)
Theorem print_table_sound `{!FloatMode} (std xdp : list Z) (n_packets std_lost xdp_lost : Z) :
  Z.of_nat (length std) < 2 ^ 53 → Z.of_nat (length xdp) < 2 ^ 53 →
  ∃ tb s0 s50 s99 s999 s1 x0 x50 x99 x999 x1,
    print_table std xdp n_packets std_lost xdp_lost = Ret tb ∧
    column std s0 s50 s99 s999 s1 ∧ column xdp x0 x50 x99 x999 x1 ∧
    tb_rows tb = [make_row "min" s0 x0; make_row "p50" s50 x50; make_row "p99" s99 x99;
                  make_row "p99.9" s999 x999; make_row "max" s1 x1] ∧
    tb_std tb = (i32 (Z.of_nat (length std)), std_lost) ∧ tb_xdp tb = (i32 (Z.of_nat (length xdp)), xdp_lost) ∧
    (Z.of_nat (length std) < 2 ^ 31 → (tb_std tb).1 = Z.of_nat (length std)) ∧
    (Z.of_nat (length xdp) < 2 ^ 31 → (tb_xdp tb).1 = Z.of_nat (length xdp)) ∧
    (std = [] ∨ xdp = [] → tb_verdict tb = Insufficient) ∧
    let speedup := rw_speedup (make_row "p50" s50 x50) in
    match tb_verdict tb with
    | XdpFaster r => r = speedup ∧ SFltb double_1 r = true
    | StdFaster r => r = double_div double_1 speedup ∧ SFltb double_1 speedup = false ∧ positive_double speedup = true
    | Insufficient => positive_double speedup = false
    end.
Proof.
  intros Hs Hx. destruct (print_table_ok std xdp n_packets std_lost xdp_lost Hs Hx)
    as (tb & s0 & s50 & s99 & s999 & s1 & x0 & x50 & x99 & x999 & x1 & H1 & H2 & H3 & H4 & Hstd & Hxdp & _ & H5).
  exists tb, s0, s50, s99, s999, s1, x0, x50, x99, x999, x1. split_and!; try tauto.
  - intros ?. rewrite Hstd. apply i32_small. lia.
  - intros ?. rewrite Hxdp. apply i32_small. lia.
Qed.

(** The same samples on both sides: the table calls the standard socket
    faster, by a factor of 1. *)
Section Release_print_table_sound.
#[local] Existing Instance release_math.
Lemma print_table_sound_witness :
  ∃ tb, print_table [3000; 1000; 2000] [2000; 3000; 1000] 3 0 0 = Ret tb ∧
    (rw_std_ns <$> tb_rows tb) = [1000; 2000; 2000; 2000; 3000] ∧ tb_verdict tb = StdFaster double_1 ∧
    tb_std tb = (3, 0).
Proof.
  destruct (print_table_sound [3000; 1000; 2000] [2000; 3000; 1000] 3 0 0)
    as (tb & s0 & s50 & s99 & s999 & s1 & x0 & x50 & x99 & x999 & x1 & Ht & _ & _ & _ & Hstd & _).
  - reflexivity.
  - reflexivity.
  - exists tb. split; [exact Ht|]. vm_compute in Ht. injection Ht as <-. split_and!; reflexivity.
Defined.
End Release_print_table_sound.
