(* ===== verification/Baseline.v ===== *)
(** * The latency comparison

    Model of [bench/bench_baseline_comparison.cpp]: the measurement loop over
    any receiver, the warm-up, the two passes with the construction and
    destruction of what they use, and [main]; the results table is in Table.

    The measuring thread runs among others: time passes between its actions
    and the receiver changes under it.  A [schedule] says, for each action it
    makes, how long the action takes, what the rest of the system did to the
    receiver before it, and what [sendto] answers.  Loops that wait for the
    rest of the system take fuel; the polling loop has its own bound. *)

From S2P Require Import Prelude Double Queue RingBuffer FeedEvent Packet Xsk Umem XdpSocket FeedHandler Sender Table.

(** ** Programs with fuel *)

(** [Ret None]: the fuel ran out. *)
Definition prog (A : Type) : Type := outcome (option A).
Definition pret {A} (a : A) : prog A := Ret (Some a).
Definition out_of_fuel {A} : prog A := Ret None.
Definition pbind {A B} (m : prog A) (f : A → prog B) : prog B :=
  match m with Ret (Some a) => f a | Ret None => Ret None | Undef => Undef end.
Definition lift {A} (m : outcome A) : prog A := match m with Ret a => pret a | Undef => Undef end.

Declare Scope prog_scope.
Notation "x ⇐ m ; k" := (pbind m (λ x, k)) (at level 20, m at level 100, k at level 200, only parsing) : prog_scope.
Notation "' x ⇐ m ; k" := (pbind m (λ x, k)) (at level 20, x pattern, m at level 100, k at level 200, only parsing) : prog_scope.
#[local] Open Scope prog_scope.

(** ** Receivers *)

(** What [measure] asks of its template argument, and what the passes print. *)
Class Receiver (R : Type) := {
  recv_pop : R → outcome (option FeedEvent * R);
  recv_packets_received : R → Z;
  recv_packets_dropped : R → Z;
}.

#[export] Instance feed_handler_receiver {FR CR RR TR Q} `{!BoundedQueue Q FeedEvent} :
  Receiver (FeedHandler FR CR RR TR Q) := {|
  recv_pop := FeedHandler_pop;
  recv_packets_received := packets_received;
  recv_packets_dropped := packets_dropped;
|}.

(** ** The measuring thread *)

Record schedule (R : Type) : Type := mkSchedule {
  sc_cost : nat → nat;          (* nanoseconds action [j] takes *)
  sc_net : nat → R → R;         (* the other threads, before action [j] *)
  sc_sendto : nat → Z;          (* the result of [sendto] at action [j] *)
  sc_room : Z → bool;           (* whether [operator new] has so many bytes *)
}.
Arguments mkSchedule {R} _ _ _ _.
Arguments sc_cost {R} _ _.
Arguments sc_net {R} _ _ _.
Arguments sc_sendto {R} _ _.
Arguments sc_room {R} _ _.

(** The clock ([steady_clock] and [CLOCK_MONOTONIC], in nanoseconds), the
    number of actions made, and the receiver. *)
Record mstate (R : Type) : Type := mkM { m_now : Z; m_act : nat; m_recv : R }.
Arguments mkM {R} _ _ _.
Arguments m_now {R} _.
Arguments m_act {R} _.
Arguments m_recv {R} _.

(** The exceptions that leave a pass. *)
Inductive bench_error : Type :=
| ReserveThrew (e : uf_error)       (* the [reserve] of [measure] *)
| SenderThrew (e : sender_error)
| HandlerThrew (e : uf_error)
| SocketThrew.

Definition timespec_of (t : Z) : timespec := mkTimespec (t `div` 1000000000) (t `mod` 1000000000).

(** The durations of the program, in nanoseconds. *)
Definition us (n : Z) : Z := n * 1000.
Definition ms (n : Z) : Z := n * 1000000.

Section Measure.
Context {R : Type} `{!Receiver R} (sc : schedule R).

(** An action that blocks for at least [d] nanoseconds. *)
Definition elapse (d : Z) (s : mstate R) : mstate R :=
  mkM (m_now s + d + Z.of_nat (sc_cost sc (m_act s))) (S (m_act s)) (sc_net sc (m_act s) (m_recv s)).

Definition sleep_for (d : Z) (s : mstate R) : mstate R := elapse d s.
Definition clock (s : mstate R) : Z * mstate R := let s := elapse 0 s in (m_now s, s).
Definition set_recv (s : mstate R) (r : R) : mstate R := mkM (m_now s) (m_act s) r.

Definition do_pop (s : mstate R) : outcome (option FeedEvent * mstate R) :=
  let s := elapse 0 s in
  '(o, r) ← recv_pop (m_recv s); Ret (o, set_recv s r).

Definition do_send (sender : SyntheticSender) (s : mstate R) : (sender_error + Z) * mstate R :=
  let s := elapse 0 s in
  ((send_one (timespec_of (m_now s)) (sc_sendto sc (m_act s)) sender).1, s).

(** The inner loop of [measure]: the latency, or [None] at the deadline. *)
Fixpoint poll (fuel : nat) (deadline : Z) (s : mstate R) : prog (option Z * mstate R) :=
  match fuel with
  | O => out_of_fuel
  | S fuel =>
      let '(t, s) := clock s in
      if bool_decide (t < deadline) then
        '(ev, s) ⇐ lift (do_pop s);
        match ev with
        | Some ev =>
            if bool_decide (0 < inject_ns ev)
            then let '(t, s) := clock s in pret (Some (u64 (clock_ns (timespec_of t) - inject_ns ev)), s)
            else poll fuel deadline (sleep_for (us 10) s)
        | None => poll fuel deadline (sleep_for (us 10) s)
        end
      else pret (None, s)
  end.

(** A turn of the inner loop that goes on sleeps 10 us, so there are at most
    5000 of them before 50 ms are over, and one more finds the deadline. *)
Definition kPollTurns : nat := Z.to_nat 5001.

Fixpoint measure_loop (n : nat) (sender : SyntheticSender) (lats : list Z) (lost : Z) (s : mstate R)
    : prog ((bench_error + (list Z * Z)) * mstate R) :=
  match n with
  | O => pret (inr (lats, lost), s)
  | S n =>
      match do_send sender s with
      | (inl e, s) => pret (inl (SenderThrew e), s)
      | (inr _, s) =>
          let '(t, s) := clock s in
          let deadline := t + ms 50 in
          '(lat, s) ⇐ poll kPollTurns deadline s;
          measure_loop n sender (lats ++ option_list lat) (match lat with None => lost + 1 | Some _ => lost end) s
      end
  end.

Definition measure (n_packets : Z) (sender : SyntheticSender) (s : mstate R)
    : prog ((bench_error + (list Z * Z)) * mstate R) :=
  match vector_reserve (sc_room sc) (u64 n_packets) with
  | Some e => pret (inl (ReserveThrew e), s)
  | None => measure_loop (Z.to_nat n_packets) sender [] 0 s
  end.

(** [while (auto ev = recv.pop())]. *)
Fixpoint drain (fuel : nat) (s : mstate R) : prog (mstate R) :=
  match fuel with
  | O => out_of_fuel
  | S fuel =>
      '(ev, s) ⇐ lift (do_pop s);
      match ev with Some _ => drain fuel s | None => pret s end
  end.

Fixpoint warm_up (n : nat) (fuel : nat) (sender : SyntheticSender) (s : mstate R) : prog (option sender_error * mstate R) :=
  match n with
  | O => pret (None, s)
  | S n =>
      match do_send sender s with
      | (inl e, s) => pret (Some e, s)
      | (inr _, s) => s ⇐ drain fuel (sleep_for (ms 1) s); warm_up n fuel sender s
      end
  end.

(** What both passes do between the sender's construction and the end: warm
    up, flush, measure, and read the counters that are printed. *)
Definition run_pass (fuel : nat) (n : Z) (sender : SyntheticSender) (s : mstate R)
    : prog ((bench_error + (list Z * Z * (Z * Z))) * mstate R) :=
  '(e, s) ⇐ warm_up 10 fuel sender s;
  match e with
  | Some e => pret (inl (SenderThrew e), s)
  | None =>
      s ⇐ drain fuel (sleep_for (ms 10) s);
      '(res, s) ⇐ measure n sender s;
      match res with
      | inl e => pret (inl e, s)
      | inr (lats, lost) =>
          let s := elapse 0 s in
          pret (inr (lats, lost, (recv_packets_received (m_recv s), recv_packets_dropped (m_recv s))), s)
      end
  end.
End Measure.

(** ** The two passes *)

Definition sender_src : string := "10.11.0.1".
Definition sender_dst : string := "10.11.0.2".
Definition sender_ns : string := "sender_ns".
Definition bench_port : Z := 9999.

Definition bench_handler_config : Config :=
  let cfg := default_handler_config in
  mkConfig "veth1" (queue_id cfg) (xdp_flags cfg) (bind_flags cfg) (rx_batch cfg) false.

(** [StandardSocketReceiver], which the repository does not contain: its
    constructor (given the port and [busy_poll]; [None] when it throws) and
    its destructor on the descriptor table, [start] and [stop], over a state
    [S]; it is a [Receiver]. *)
Class StandardSocket (S : Type) := {
  ss_receiver :: Receiver S;
  ss_ctor : Z → bool → os → option S * os;
  ss_start : S → S;
  ss_stop : S → S;
  ss_dtor : S → os → os;
}.

(** The results of a pass: latencies, lost packets, and the two counters it
    prints. *)
Definition pass_result : Type := bench_error + (list Z * Z * (Z * Z)).

Section Passes.
Context {FR CR RR TR Q : Type}.
Context `{!UmemKernel FR CR, !SocketKernel RR TR, !SenderKernel}.
Context `{!XskProd FR Z, !XskCons RR xdp_desc, !BoundedQueue Q FeedEvent}.
#[local] Abbreviation handler := (FeedHandler FR CR RR TR Q).

(** [run_standard_socket].  Whatever leaves the pass, the sender and the
    receiver are destroyed, in this order. *)
Definition run_standard_socket {S} `{!StandardSocket S} (fuel : nat) (sc : schedule S) (t0 : Z) (n : Z) (o : os)
    : prog (pass_result * os) :=
  match ss_ctor bench_port false o with
  | (None, o) => pret (inl SocketThrew, o)
  | (Some r, o) =>
      let s := sleep_for sc (ms 20) (mkM t0 0 (ss_start r)) in
      '(snd, o) ⇐ lift (SyntheticSender_ctor sender_src sender_dst bench_port sender_ns o);
      match snd with
      | inl e => pret (inl (SenderThrew e), ss_dtor (m_recv s) o)
      | inr sender =>
          '(res, s) ⇐ run_pass sc fuel n sender s;
          let r := match res with inl _ => m_recv s | inr _ => ss_stop (m_recv s) end in
          o ⇐ lift (SyntheticSender_dtor sender o);
          pret (res, ss_dtor r o)
      end
  end.

(** [run_af_xdp].  [fr0] .. [q0] are the members of the handler before it is
    constructed, as in [FeedHandler_ctor]; [err] is the answer of the call
    that creates the receive thread.  When the pass returns, and when an
    exception leaves it for a caller that catches it, the sender and the
    handler are destroyed, in this order; the handler's destructor stops the
    receive thread. *)
Definition run_af_xdp (fr0 : FR) (cr0 : CR) (rr0 : RR) (tr0 : TR) (uptr : Z) (q0 : Q)
    (err : Z) (fuel : nat) (sc : schedule handler) (t0 : Z) (n : Z) (w : world) (o : os)
    : prog (pass_result * world * os) :=
  '(r, w) ⇐ lift (FeedHandler_ctor fr0 cr0 rr0 tr0 uptr q0 bench_handler_config w);
  match r with
  | inl e => pret (inl (HandlerThrew e), w, o)
  | inr h =>
      '(threw, h) ⇐ lift (start err h);
      match threw with
      | Some e =>
          w ⇐ lift (FeedHandler_dtor h w);
          pret (inl (HandlerThrew e), w, o)
      | None =>
          let s := sleep_for sc (ms 20) (mkM t0 0 h) in
          '(snd, o) ⇐ lift (SyntheticSender_ctor sender_src sender_dst bench_port sender_ns o);
          match snd with
          | inl e =>
              w ⇐ lift (FeedHandler_dtor (m_recv s) w);
              pret (inl (SenderThrew e), w, o)
          | inr sender =>
              '(res, s) ⇐ run_pass sc fuel n sender s;
              let h := match res with inl _ => m_recv s | inr _ => stop (m_recv s) end in
              o ⇐ lift (SyntheticSender_dtor sender o);
              w ⇐ lift (FeedHandler_dtor h w);
              pret (res, w, o)
          end
      end
  end.
End Passes.

(** ** main *)

Definition has_root (uid : Z) : bool := bool_decide (uid = 0).
Definition iface_exists (if_nametoindex : string → Z) (name : string) : bool := bool_decide (if_nametoindex name ≠ 0).
Definition netns_exists (stat : string → Z) (name : string) : bool :=
  bool_decide (stat (String.append "/var/run/netns/" name) = 0).

Definition kPackets : Z := 1000.

(** How the program ends.  It exits, with the ledgers it leaves; or an
    exception finds no handler and [std::terminate] is called: whether the
    stack is unwound first, and so what the program has released, is up to
    the implementation. *)
Inductive main_end : Type :=
| Exit (code : Z) (printed : option table) (w : world) (o : os)
| Terminated (e : bench_error).

Section Main.
Context {FR CR RR TR Q S : Type}.
Context `{!FloatMode, !UmemKernel FR CR, !SocketKernel RR TR, !SenderKernel, !StandardSocket S}.
Context `{!XskProd FR Z, !XskCons RR xdp_desc, !BoundedQueue Q FeedEvent}.

(** [uid], [if_nametoindex] and [stat] are the answers of the system. *)
Definition main (uid : Z) (if_nametoindex stat : string → Z) (fr0 : FR) (cr0 : CR) (rr0 : RR) (tr0 : TR) (uptr : Z) (q0 : Q)
    (err : Z) (fuel : nat) (sc_std : schedule S) (sc_xdp : schedule (FeedHandler FR CR RR TR Q)) (t0 t1 : Z) (w : world) (o : os)
    : prog main_end :=
  if negb (has_root uid) then pret (Exit 1 None w o)
  else if negb (iface_exists if_nametoindex "veth1") || negb (netns_exists stat "sender_ns") then pret (Exit 1 None w o)
  else
    '(r1, o) ⇐ run_standard_socket fuel sc_std t0 kPackets o;
    match r1 with
    | inl e => pret (Terminated e)
    | inr (std_lats, std_lost, _) =>
        '(r2, w, o) ⇐ run_af_xdp fr0 cr0 rr0 tr0 uptr q0 err fuel sc_xdp t1 kPackets w o;
        match r2 with
        | inl e => pret (Terminated e)
        | inr (xdp_lats, xdp_lost, _) =>
            t ⇐ lift (print_table std_lats xdp_lats kPackets std_lost xdp_lost);
            pret (Exit 0 (Some t) w o)
        end
    end.
End Main.

(** ** Receivers that behave as queues *)

Class ReceiverLaws (R : Type) `{!Receiver R} := {
  recv_ok : R → Prop;
  recv_queue : R → list FeedEvent;
  recv_pop_spec r : recv_ok r →
    ∃ r', recv_pop r = Ret (head (recv_queue r), r') ∧ recv_ok r' ∧ recv_queue r' = tail (recv_queue r);
}.

#[export] Program Instance feed_handler_laws {FR CR RR TR Q} `{!BoundedQueue Q FeedEvent} :
  ReceiverLaws (FeedHandler FR CR RR TR Q) := {|
  recv_ok h := bq_wf (ring_ h);
  recv_queue h := bq_items (ring_ h);
|}.
Next Obligation.
  intros FR CR RR TR Q HQ h Hh. cbn in *. unfold FeedHandler_pop.
  destruct (bq_pop_spec (ring_ h) Hh) as (q & -> & Hq & Hi). ub_step. by eexists.
Qed.

(** The other threads leave the receiver well formed, and bring at most
    [arrivals j] events before action [j], at most [bound] in all. *)
Fixpoint total (arrivals : nat → nat) (n : nat) : nat :=
  match n with O => 0 | S n => total arrivals n + arrivals n end.

Record net_ok {R} `{!Receiver R, !ReceiverLaws R} (sc : schedule R) (arrivals : nat → nat) (bound : nat) : Prop := {
  no_step j r : recv_ok r → recv_ok (sc_net sc j r) ∧
    (length (recv_queue (sc_net sc j r)) ≤ length (recv_queue r) + arrivals j)%nat;
  no_bound n : (total arrivals n ≤ bound)%nat;
}.

(** ** The measurement *)

Section MeasureFacts.
Context {R : Type} `{!Receiver R, !ReceiverLaws R} (sc : schedule R).
Context (arrivals : nat → nat) (bound : nat) (Hnet : net_ok sc arrivals bound).
(** Something else about the receiver that nobody changes. *)
Context (keep : R → Prop) (Hkeep_net : ∀ j r, keep r → keep (sc_net sc j r))
  (Hkeep_pop : ∀ r o r', keep r → recv_pop r = Ret (o, r') → keep r').
Implicit Types s : mstate R.

Definition ok (r : R) : Prop := recv_ok r ∧ keep r.

(** Events that may still come out of the receiver. *)
Definition backlog s : nat := length (recv_queue (m_recv s)) + (bound - total arrivals (m_act s)).

Definition good s s' : Prop := ok (m_recv s') ∧ (backlog s' ≤ backlog s)%nat ∧ m_now s ≤ m_now s'.

Lemma good_trans s1 s2 s3 : good s1 s2 → good s2 s3 → good s1 s3.
Proof. unfold good. intros (? & ? & ?) (? & ? & ?). split_and!; [done|lia|lia]. Qed.

Lemma good_refl s : ok (m_recv s) → good s s.
Proof. intros ?. unfold good. split_and!; [done|lia|lia]. Qed.

Lemma elapse_good (d : Z) s : 0 ≤ d → ok (m_recv s) → good s (elapse sc d s) ∧ m_now s + d ≤ m_now (elapse sc d s).
Proof using Hnet Hkeep_net Hkeep_pop.
  intros Hd [Hs Hk]. unfold good, backlog, elapse, ok. cbn [m_recv m_act m_now].
  destruct (no_step sc arrivals bound Hnet (m_act s) (m_recv s) Hs) as [H1 H2].
  pose proof (no_bound sc arrivals bound Hnet (S (m_act s))) as Hb. cbn [total] in *. split_and!; [done|by apply Hkeep_net|lia|lia|lia].
Qed.

Lemma do_pop_good s :
  ok (m_recv s) → ∃ o s', do_pop sc s = Ret (o, s') ∧ good s s' ∧ (o ≠ None → (backlog s' < backlog s)%nat).
Proof using Hnet Hkeep_net Hkeep_pop.
  intros Hs. unfold do_pop. destruct (elapse_good 0 s ltac:(lia) Hs) as [Hg _]. set (s1 := elapse sc 0 s) in *. clearbody s1.
  pose proof Hg as ((H1 & Hk1) & Hb & Ht). destruct (recv_pop_spec (m_recv s1) H1) as (r' & Hp & Hr' & Hq).
  rewrite Hp. ub_step. apply Hkeep_pop in Hp; [|done].
  do 2 eexists. split; [done|]. unfold good, ok, backlog in *. cbn [set_recv m_recv m_act m_now]. rewrite Hq.
  destruct (recv_queue (m_recv s1)); cbn in *; split_and!; try done; try lia; intros _; lia.
Qed.

(** The polling loop ends: with the fuel of [measure] it always does. *)
Lemma poll_ends fuel deadline : ∀ s,
  ok (m_recv s) → deadline - m_now s ≤ us 10 * (Z.of_nat fuel - 1) → (0 < fuel)%nat →
  ∃ lat s', poll sc fuel deadline s = pret (lat, s') ∧ good s s'.
Proof using Hnet Hkeep_net Hkeep_pop.
  unfold us. induction fuel as [|fuel IH]; intros s Hs Hd Hf; [lia|]. cbn [poll]. unfold clock.
  destruct (elapse_good 0 s ltac:(lia) Hs) as [Hg1 Ht1]. set (s1 := elapse sc 0 s) in *. clearbody s1.
  case_bool_decide as Hlt; [|by exists None, s1].
  destruct (do_pop_good s1 (proj1 Hg1)) as (o & s2 & -> & Hg2 & _). cbn [lift pbind pret].
  assert (Hagain : ∃ lat s', poll sc fuel deadline (sleep_for sc (us 10) s2) = pret (lat, s') ∧ good s s').
  { unfold sleep_for, us. destruct (elapse_good (10 * 1000) s2 ltac:(lia) (proj1 Hg2)) as [Hg3 Ht3].
    destruct Hg1 as (? & ? & ?), Hg2 as (? & ? & ?). 
    destruct (IH (elapse sc (10 * 1000) s2) (proj1 Hg3)) as (lat & s' & -> & Hg4); [lia| |].
    - destruct fuel; [lia|lia].
    - exists lat, s'. split; [done|]. eapply good_trans; [|exact Hg4]. eapply good_trans; [|exact Hg3]. unfold good. split_and!; [done|lia|lia]. }
  destruct o as [ev|]; [|exact Hagain]. case_bool_decide; [|exact Hagain].
  destruct (elapse_good 0 s2 ltac:(lia) (proj1 Hg2)) as [Hg3 _]. do 2 eexists. split; [done|].
  eapply good_trans; [exact Hg1|]. by eapply good_trans.
Qed.

Lemma do_send_good sender s :
  ok (m_recv s) → good s (do_send sc sender s).2 ∧
  match (do_send sc sender s).1 with inl _ => ∃ j, sc_sendto sc j < 0 | inr _ => True end.
Proof using Hnet Hkeep_net Hkeep_pop.
  intros Hs. unfold do_send. cbn [fst snd]. destruct (elapse_good 0 s ltac:(lia) Hs) as [Hg _]. split; [done|].
  unfold send_one. case_bool_decide; cbn; eauto.
Qed.

Lemma measure_loop_ends sender n : ∀ lats lost s,
  ok (m_recv s) → ∃ res s', measure_loop sc n sender lats lost s = pret (res, s') ∧ good s s' ∧
    match res with
    | inl e => (∃ j, sc_sendto sc j < 0) ∧ ∃ e', e = SenderThrew e'
    | inr (lats', lost') => lats `prefix_of` lats' ∧ lost ≤ lost' ∧
        Z.of_nat (length lats') + lost' = Z.of_nat (length lats) + lost + Z.of_nat n
    end.
Proof using Hnet Hkeep_net Hkeep_pop.
  induction n as [|n IH]; intros lats lost s Hs.
  { do 2 eexists. split; [done|]. split; [by apply good_refl|]. split; [done|]. lia. }
  cbn [measure_loop]. destruct (do_send_good sender s Hs) as [Hg Hsend].
  destruct (do_send sc sender s) as [[e|z] s1]; cbn [fst snd] in *.
  { do 2 eexists. split; [done|]. split; [done|]. split; [done|]. by eexists. }
  unfold clock. destruct (elapse_good 0 s1 ltac:(lia) (proj1 Hg)) as [Hg2 _]. set (s2 := elapse sc 0 s1) in *. clearbody s2.
  destruct (poll_ends kPollTurns (m_now s2 + ms 50) s2 (proj1 Hg2)) as (lat & s3 & -> & Hg3).
  { unfold kPollTurns, ms, us. lia. }
  { unfold kPollTurns. lia. }
  cbn [pbind pret]. destruct (IH (lats ++ option_list lat) (match lat with None => lost + 1 | Some _ => lost end) s3 (proj1 Hg3))
    as (res & s' & -> & Hg4 & Hres).
  do 2 eexists. split; [done|]. split.
  { eapply good_trans; [exact Hg|]. eapply good_trans; [exact Hg2|]. by eapply good_trans. }
  destruct res as [e|[lats' lost']]; [done|]. destruct Hres as (Hp & Hl & Hc). rewrite length_app in Hc. split_and!.
  - etrans; [|exact Hp]. by apply prefix_app_r.
  - destruct lat; lia.
  - destruct lat; cbn in Hc; lia.
Qed.

Lemma drain_ends fuel : ∀ s,
  ok (m_recv s) → (backlog s < fuel)%nat → ∃ s', drain sc fuel s = pret s' ∧ good s s'.
Proof using Hnet Hkeep_net Hkeep_pop.
  induction fuel as [|fuel IH]; intros s Hs Hf; [lia|]. cbn [drain].
  destruct (do_pop_good s Hs) as (o & s1 & -> & Hg & Hlt). cbn [lift pbind pret].
  destruct o as [ev|]; [|by exists s1]. specialize (Hlt ltac:(done)).
  destruct (IH s1 (proj1 Hg)) as (s' & -> & Hg'); [lia|]. exists s'. split; [done|]. by eapply good_trans.
Qed.

Lemma warm_up_ends fuel sender n : ∀ s,
  ok (m_recv s) → (backlog s < fuel)%nat →
  ∃ e s', warm_up sc n fuel sender s = pret (e, s') ∧ good s s' ∧ (e ≠ None → ∃ j, sc_sendto sc j < 0).
Proof using Hnet Hkeep_net Hkeep_pop.
  induction n as [|n IH]; intros s Hs Hf.
  { do 2 eexists. split; [done|]. split; [by apply good_refl|done]. }
  cbn [warm_up]. destruct (do_send_good sender s Hs) as [Hg Hsend].
  destruct (do_send sc sender s) as [[e|z] s1]; cbn [fst snd] in *; [by do 2 eexists|].
  unfold sleep_for, ms. destruct (elapse_good (1 * 1000000) s1 ltac:(lia) (proj1 Hg)) as [Hg2 _].
  set (s2 := elapse _ _ s1) in *. clearbody s2. pose proof (good_trans _ _ _ Hg Hg2) as Hg12.
  destruct (drain_ends fuel s2 (proj1 Hg2)) as (s3 & -> & Hg3); [destruct Hg12 as (_ & ? & _); lia|]. cbn [pbind pret].
  pose proof (good_trans _ _ _ Hg12 Hg3) as Hg13.
  destruct (IH s3 (proj1 Hg3)) as (e & s' & -> & Hg4 & He); [destruct Hg13 as (_ & ? & _); lia|].
  do 2 eexists. split; [done|]. split; [by eapply good_trans|done].
Qed.

(** [reserve] could not get room for [n] samples. *)
Definition reserve_failed (n : Z) (e : bench_error) : Prop :=
  ∃ e', e = ReserveThrew e' ∧ vector_reserve (sc_room sc) (u64 n) = Some e'.

(** A whole pass ends. *)
Definition pass_ok (n : Z) (res : pass_result) : Prop :=
  match res with
  | inl e => reserve_failed n e ∨ (∃ j, sc_sendto sc j < 0) ∧ ∃ e', e = SenderThrew e'
  | inr (lats, lost, _) => 0 ≤ lost ∧ Z.of_nat (length lats) + lost = Z.max 0 n
  end.

Lemma measure_ends n sender s :
  ok (m_recv s) → ∃ res s', measure sc n sender s = pret (res, s') ∧ good s s' ∧
    match res with
    | inl e => reserve_failed n e ∨ (∃ j, sc_sendto sc j < 0) ∧ ∃ e', e = SenderThrew e'
    | inr (lats, lost) => 0 ≤ lost ∧ Z.of_nat (length lats) + lost = Z.max 0 n
    end.
Proof using Hnet Hkeep_net Hkeep_pop.
  intros Hs. unfold measure. destruct (vector_reserve _ _) as [e|] eqn:Hmax.
  { do 2 eexists. split; [done|]. split; [by apply good_refl|]. left. by exists e. }
  destruct (measure_loop_ends sender (Z.to_nat n) [] 0 s Hs) as (res & s' & -> & Hg & Hres).
  do 2 eexists. split; [done|]. split; [done|]. destruct res as [e|[lats lost]]; [right; apply Hres|].
  destruct Hres as (_ & ? & Hc). cbn in Hc. split; [done|]. lia.
Qed.

Lemma run_pass_ends fuel n sender s :
  ok (m_recv s) → (backlog s < fuel)%nat →
  ∃ res s', run_pass sc fuel n sender s = pret (res, s') ∧ good s s' ∧ pass_ok n res.
Proof using Hnet Hkeep_net Hkeep_pop.
  intros Hs Hf. unfold run_pass. destruct (warm_up_ends fuel sender 10 s Hs Hf) as (e & s1 & -> & Hg1 & He). cbn [pbind pret].
  destruct e as [e|].
  { do 2 eexists. split; [done|]. split; [done|]. right. split; [by apply He|by eexists]. }
  unfold sleep_for, ms. destruct (elapse_good (10 * 1000000) s1 ltac:(lia) (proj1 Hg1)) as [Hg2 _].
  set (s2 := elapse _ _ s1) in *. clearbody s2. pose proof (good_trans _ _ _ Hg1 Hg2) as Hg12.
  destruct (drain_ends fuel s2 (proj1 Hg2)) as (s3 & -> & Hg3); [destruct Hg12 as (_ & ? & _); lia|]. cbn [pbind pret].
  destruct (measure_ends n sender s3 (proj1 Hg3)) as (res & s4 & -> & Hg4 & Hres). cbn [pbind pret].
  pose proof (good_trans _ _ _ (good_trans _ _ _ Hg12 Hg3) Hg4) as Hg.
  destruct res as [e|[lats lost]]; [by do 2 eexists|].
  destruct (elapse_good 0 s4 ltac:(lia) (proj1 Hg4)) as [Hg5 _].
  do 2 eexists. split; [done|]. split; [by eapply good_trans|done].
Qed.
End MeasureFacts.

(** ** The AF_XDP pass: lemmas *)

Section PassFacts.
Context {FR CR RR TR Q : Type}.
Context `{!UmemKernel FR CR, !SocketKernel RR TR, !SenderKernel}.
Context `{!XskProd FR Z, !XskProdLaws FR Z, !XskCons RR xdp_desc, !BoundedQueue Q FeedEvent}.
#[local] Abbreviation handler := (FeedHandler FR CR RR TR Q).

Lemma pop_keeps_owned (h h' : handler) o : FeedHandler_pop h = Ret (o, h') → owned h' = owned h.
Proof. unfold FeedHandler_pop. destruct (bq_pop _) as [[o' q]|]; [|done]. ub_step. by intros [= _ <-]. Qed.

Lemma stop_keeps_owned (h : handler) : owned (stop h) = owned h.
Proof. done. Qed.

Lemma run_af_xdp_ends fr0 cr0 rr0 tr0 uptr (q0 : Q) err fuel (sc : schedule handler) arrivals bound t0 n w o :
  umems_mapped w → socks_mapped w → restores (o_ns o) → fresh_fill (FR := FR) (CR := CR) → bq_wf q0 →
  net_ok sc arrivals bound → (∀ j h, owned (sc_net sc j h) = owned h) →
  (length (bq_items q0) + bound < fuel)%nat →
  ∃ res w', run_af_xdp fr0 cr0 rr0 tr0 uptr q0 err fuel sc t0 n w o = pret (res, w', o) ∧
    (err ≠ 0 → ∃ e, res = inl (HandlerThrew e)) ∧
    match res with
    | inl (HandlerThrew e) => if reserve_threw e then leaked w w' else w' = w
    | inl (SenderThrew _) => w' = w
    | inl (ReserveThrew e) => w' = w ∧ vector_reserve (sc_room sc) (u64 n) = Some e
    | inl SocketThrew => False
    | inr (lats, lost, _) => w' = w ∧ 0 ≤ lost ∧ Z.of_nat (length lats) + lost = Z.max 0 n
    end.
Proof.
  intros Hum Hsm Hres Hfresh Hq Hnet Hown Hfuel. unfold run_af_xdp.
  destruct (FeedHandler_ctor_cases fr0 cr0 rr0 tr0 uptr q0 bench_handler_config w Hum Hsm) as (r & w1 & Hc & Hr).
  rewrite Hc. cbn [lift pbind pret]. destruct r as [e|h]; [do 2 eexists; split; [done|]; split; [by eexists|done]|].
  destruct Hr as (_ & Hring & _ & _ & Hdtor). destruct (ctor_can_start _ _ _ _ _ _ _ _ _ _ err Hfresh Hc) as (h1 & -> & Ho1 & Hr1).
  cbn [lift pbind pret]. case_bool_decide as Herr.
  { rewrite Hdtor by done. cbn [lift pbind pret]. do 2 eexists. split; [done|]. split; [by eexists|done]. }
  set (keep := λ h' : handler, owned h' = owned h).
  assert (Hkn : ∀ j h', keep h' → keep (sc_net sc j h')) by (intros j h' Hk; unfold keep; by rewrite Hown).
  assert (Hkp : ∀ h' o' h'', keep h' → recv_pop h' = Ret (o', h'') → keep h'').
  { intros h' o' h'' Hk Hp%pop_keeps_owned. unfold keep. congruence. }
  assert (Hok : ok keep h1) by (split; [cbn; by rewrite Hr1, Hring|done]).
  destruct (elapse_good sc arrivals bound Hnet keep Hkn Hkp (ms 20) (mkM t0 0 h1)) as [Hg _]; [done|done|].
  unfold sleep_for. set (s := elapse sc (ms 20) (mkM t0 0 h1)) in *. clearbody s.
  destruct (sender_ctor_cases sender_src sender_dst bench_port sender_ns o Hres) as (snd & o1 & -> & Hsnd).
  cbn [lift pbind pret]. destruct Hg as ([Hok1 Hk1] & Hb & _). destruct snd as [e|sender].
  { subst. rewrite (Hdtor (m_recv s)) by done. cbn [lift pbind pret]. do 2 eexists. split; [done|]. done. }
  destruct Hsnd as (ns & _ & _ & _ & _ & _ & Hsd).
  destruct (run_pass_ends sc arrivals bound Hnet keep Hkn Hkp fuel n sender s) as (res & s' & -> & ((_ & Hk2) & _) & Hp).
  { by split. }
  { unfold backlog in *. cbn in *. rewrite Hr1, Hring in Hb. lia. }
  cbn [pbind pret]. rewrite Hsd. cbn [lift pbind pret].
  rewrite Hdtor by (destruct res; [exact Hk2|by rewrite stop_keeps_owned]). cbn [lift pbind pret].
  do 2 eexists. split; [done|]. split; [done|]. destruct res as [e|[[lats lost] [a b]]]; [|by destruct Hp].
  destruct Hp as [(e' & -> & He)|(_ & e' & ->)]; done.
Qed.
End PassFacts.

(** ** A leftover event *)

Section Stale.
Context {R : Type} `{!Receiver R, !ReceiverLaws R} (sc : schedule R).

(** The measured thread is never held up for 50 ms, the network works, and
    what the other threads do is to append [arrived j] before action [j]. *)
Record calm (arrived : nat → list FeedEvent) : Prop := {
  cm_cost j : Z.of_nat (sc_cost sc j) < ms 50;
  cm_send j : 0 ≤ sc_sendto sc j;
  cm_net j r : recv_ok r → recv_ok (sc_net sc j r) ∧ recv_queue (sc_net sc j r) = recv_queue r ++ arrived j;
}.

Lemma clock_calm arrived s j :
  calm arrived → recv_ok (m_recv s) → m_act s = j →
  let s' := elapse sc 0 s in recv_ok (m_recv s') ∧ recv_queue (m_recv s') = recv_queue (m_recv s) ++ arrived j ∧
    m_act s' = S j ∧ m_now s ≤ m_now s' < m_now s + ms 50.
Proof.
  intros Hc Hs <-. unfold elapse. cbn [m_recv m_act m_now]. destruct (cm_net arrived Hc (m_act s) (m_recv s) Hs) as [H1 H2].
  pose proof (cm_cost arrived Hc (m_act s)). split_and!; [done|done|done|lia|lia].
Qed.

(** One packet with one event already waiting: that event is measured, in
    five actions, whatever the packet just sent becomes. *)
Lemma measure_one_stale arrived n sender lats lost s j ev new :
  calm arrived → recv_ok (m_recv s) → m_act s = j → recv_queue (m_recv s) = [ev] → 0 < inject_ns ev →
  arrived j = [] → arrived (S j) = [] → arrived (S (S j)) = [] →
  arrived (S (S (S j))) = [new] → arrived (S (S (S (S j)))) = [] →
  ∃ t s', measure_loop sc (S n) sender lats lost s =
      measure_loop sc n sender (lats ++ [u64 (clock_ns (timespec_of t) - inject_ns ev)]) lost s' ∧
    recv_ok (m_recv s') ∧ recv_queue (m_recv s') = [new] ∧ m_act s' = S (S (S (S (S j)))) ∧ m_now s ≤ t ≤ m_now s'.
Proof.
  intros Hc Hs Hj Hq Hpos A0 A1 A2 A3 A4. cbn [measure_loop]. unfold do_send, send_one. cbv zeta.
  destruct (clock_calm arrived s _ Hc Hs Hj) as (H1 & Q1 & N1 & T1). set (s1 := elapse sc 0 s) in *. clearbody s1.
  rewrite bool_decide_false by (pose proof (cm_send arrived Hc (S j)); rewrite N1; lia). cbn [fst]. unfold clock at 1.
  destruct (clock_calm arrived s1 _ Hc H1 N1) as (H2 & Q2 & N2 & T2). set (s2 := elapse sc 0 s1) in *. clearbody s2.
  unfold kPollTurns. replace (Z.to_nat 5001) with (S (Z.to_nat 5000)) by lia. cbn [poll]. unfold clock at 1.
  destruct (clock_calm arrived s2 _ Hc H2 N2) as (H3 & Q3 & N3 & T3). set (s3 := elapse sc 0 s2) in *. clearbody s3.
  rewrite bool_decide_true by lia. unfold do_pop.
  destruct (clock_calm arrived s3 _ Hc H3 N3) as (H4 & Q4 & N4 & T4). set (s4 := elapse sc 0 s3) in *. clearbody s4.
  rewrite Q3, Q2, Q1, Hq, A0, A1, A2, A3 in Q4. cbn in Q4.
  destruct (recv_pop_spec (m_recv s4) H4) as (r & -> & Hr & Hqr). rewrite Q4 in Hqr |- *. cbn in Hqr |- *.
  rewrite bool_decide_true by done. unfold clock.
  destruct (clock_calm arrived (set_recv s4 r) _ Hc Hr N4) as (H5 & Q5 & N5 & T5).
  set (s5 := elapse sc 0 (set_recv s4 r)) in *.
  change (m_now s4 + 0 + Z.of_nat (sc_cost sc (m_act s4))) with (m_now s5). clearbody s5. cbn [pbind pret option_list].
  unfold set_recv in Q5, T5. cbn [m_recv m_now] in Q5, T5. rewrite Hqr, A4 in Q5. exists (m_now s5), s5. split_and!; try done; lia.
Qed.
(** [n] packets: the events measured are [e 0 .. e (n - 1)], where packet
    [i] is the one that becomes [e (i + 1)]. *)
Definition latency (t : Z) (ev : FeedEvent) : Z := u64 (clock_ns (timespec_of t) - inject_ns ev).

Lemma measure_loop_stale arrived e sender n : ∀ i lats lost s,
  calm arrived → recv_ok (m_recv s) → recv_queue (m_recv s) = [e i] → (∀ k, 0 < inject_ns (e k)) →
  (∀ k : nat, let j := (5 * k + m_act s)%nat in
     arrived j = [] ∧ arrived (S j) = [] ∧ arrived (S (S j)) = [] ∧
     arrived (S (S (S j))) = [e (S (k + i))] ∧ arrived (S (S (S (S j)))) = []) →
  ∃ ts s', measure_loop sc n sender lats lost s = pret (inr (lats ++ zip_with latency ts (e <$> seq i n), lost), s') ∧
    length ts = n ∧ recv_queue (m_recv s') = [e (n + i)%nat] ∧ Forall (λ t, m_now s ≤ t) ts.
Proof.
  induction n as [|n IH]; intros i lats lost s Hc Hs Hq Hpos Harr.
  { exists [], s. rewrite app_nil_r. split_and!; done. }
  destruct (Harr 0%nat) as (A0 & A1 & A2 & A3 & A4).
  destruct (measure_one_stale arrived n sender lats lost s (m_act s) (e i) (e (S i))) as (t & s1 & -> & Hs1 & Hq1 & Hj & Ht); [done..|].
  destruct (IH (S i) (lats ++ [latency t (e i)]) lost s1) as (ts & s' & Hm & Hl & Hq' & Hsort); try done.
  { intros k j. specialize (Harr (S k)). cbv zeta in Harr. unfold j. rewrite Hj.
    replace (5 * k + S (S (S (S (S (m_act s))))))%nat with (5 * S k + m_act s)%nat by lia.
    by replace (k + S i)%nat with (S k + i)%nat by lia. }
  exists (t :: ts), s'. split; [|split_and!].
  - unfold latency in Hm at 1. rewrite Hm, <- app_assoc. done.
  - cbn. by rewrite Hl.
  - by replace (S n + i)%nat with (n + S i)%nat by lia.
  - constructor; [lia|]. eapply Forall_impl; [exact Hsort|]. cbn. lia.
Qed.
End Stale.

(** ** Properties *)

(** The measurement accounts for every packet.  For any receiver that
    behaves as a queue, however the rest of the system interleaves with the
    measuring thread as long as finitely many events arrive, [measure]
    terminates, within 5001 turns of polling per packet; it throws only
    when [reserve] cannot take a negative count or has no room, or when a
    [sendto] failed;
    and otherwise the latencies it returns and the packets it calls lost add
    up to the packets sent. *)
Theorem measure_accounts {R} `{!Receiver R, !ReceiverLaws R} (sc : schedule R) (arrivals : nat → nat) (bound : nat)
    (n : Z) (sender : SyntheticSender) (s : mstate R) :
  net_ok sc arrivals bound → recv_ok (m_recv s) → - 2 ^ 31 ≤ n < 2 ^ 31 →
  ∃ res s', measure sc n sender s = pret (res, s') ∧ recv_ok (m_recv s') ∧ m_now s ≤ m_now s' ∧
    match res with
    | inl (ReserveThrew e) => (e = VectorTooLong ∧ n < 0) ∨ (e = BadAlloc ∧ 0 < n)
    | inl (SenderThrew _) => ∃ j, sc_sendto sc j < 0
    | inl _ => False
    | inr (lats, lost) => 0 ≤ lost ∧ Z.of_nat (length lats) + lost = n
    end.
Proof.
  intros Hnet Hs Hn. destruct (measure_ends sc arrivals bound Hnet (λ _, True) ltac:(done) ltac:(done) n sender s) as
    (res & s' & Hm & ([Hok _] & _ & Hnow) & Hres); [done|].
  exists res, s'. split; [done|]. split; [done|]. split; [done|].
  assert (Hu : n < 0 ↔ vector_max < u64 n).
  { unfold vector_max. destruct (decide (0 ≤ n)); [rewrite u64_small by lia; lia|].
    unfold u64, wrap. rewrite <- (Z.mod_unique n (2 ^ 64) (-1) (n + 2 ^ 64)) by lia. lia. }
  destruct res as [e|[lats lost]].
  - destruct Hres as [(e' & -> & Hv)|[Hj [e' ->]]]; [|done]. unfold vector_reserve in Hv. revert Hv.
    case_bool_decide as Hb; [intros [= <-]; left; tauto|]. case_bool_decide as Hp; [|done].
    destruct (sc_room sc _); [done|]. intros [= <-]. right. split; [done|].
    assert (¬ n < 0) as Hnn by tauto. rewrite u64_small in Hp by lia. done.
  - destruct Hres as [Hl Hsum]. split; [done|]. destruct (decide (n < 0)) as [Hneg|]; [|lia].
    unfold measure, vector_reserve in Hm. by rewrite bool_decide_true in Hm by (by apply Hu).
Qed.

(** A reservation that fits. *)
Lemma reserve_fits room n : 0 ≤ n < 2 ^ 31 → room (8 * n) = true → vector_reserve room (u64 n) = None.
Proof.
  intros Hn Hr. unfold vector_reserve, vector_max. rewrite u64_small by lia. rewrite bool_decide_false by lia.
  rewrite Hr. by rewrite andb_false_r.
Qed.

(** A receiver that is a list of events, and a network whose events come at
    given actions of the measuring thread; an action takes 1 us. *)
#[export] Instance list_receiver : Receiver (list FeedEvent) := {|
  recv_pop q := Ret (head q, tail q); recv_packets_received q := 0; recv_packets_dropped q := 0;
|}.
#[export] Program Instance list_receiver_laws : ReceiverLaws (list FeedEvent) := {| recv_ok _ := True; recv_queue q := q |}.
Next Obligation. intros q _. by eexists. Qed.

Definition list_schedule (arrived : nat → list FeedEvent) : schedule (list FeedEvent) :=
  mkSchedule (λ _, 1000%nat) (λ j q, q ++ arrived j) (λ _, 64) (λ _, true).
Definition numbered_event (i : nat) : FeedEvent := mkEvent (1000 * Z.of_nat i + 1) 0 0 0 0 64 (replicate 6 0) (replicate 64 0).
Definition demo_sender : SyntheticSender := mkSender 3 (htons bench_port) 33557258.

(** Two packets; the event of the first arrives while it is polled for, that
    of the second never does. *)
Definition one_of_two (j : nat) : list FeedEvent := if bool_decide (j = 5%nat) then [numbered_event 1] else [].

Lemma one_of_two_pass :
  ∃ s', measure (list_schedule one_of_two) 2 demo_sender (mkM 0 0 []) = pret (inr ([16999], 1), s').
Proof. eexists. vm_compute. reflexivity. Qed.

Lemma measure_accounts_witness :
  (∃ s', measure (list_schedule one_of_two) 2 demo_sender (mkM 0 0 []) = pret (inr ([16999], 1), s')) ∧
  ∃ res s', measure (list_schedule one_of_two) 2 demo_sender (mkM 0 0 []) = pret (res, s') ∧
    match res with inl _ => False | inr (lats, lost) => Z.of_nat (length lats) + lost = 2 end.
Proof.
  destruct one_of_two_pass as [s1 Hrun]. split; [by exists s1|].
  destruct (measure_accounts (list_schedule one_of_two) (λ j, length (one_of_two j)) 1 2 demo_sender (mkM 0 0 []))
    as (res & s' & Hm & _ & _ & Hr).
  - split.
    + intros j r _. split; [done|]. cbn. rewrite length_app. lia.
    + assert (H : ∀ n, total (λ j, length (one_of_two j)) n = if bool_decide (n ≤ 5)%nat then 0%nat else 1%nat).
      { induction n as [|n IH]; [done|]. cbn [total]. rewrite IH. unfold one_of_two. repeat case_bool_decide; cbn; lia. }
      intros n. rewrite H. case_bool_decide; lia.
  - done.
  - lia.
  - exists res, s'. split; [exact Hm|]. rewrite Hrun in Hm. injection Hm as <- _. apply Hr.
Defined.

(** C38: one event left in the ring shifts every measurement.  Suppose an
    event [e 0] is waiting when [measure] starts -- it came after the flush,
    or its packet had been given up on -- and that each packet sent becomes
    an event while or after the ring is first polled ([e (i + 1)] for packet
    [i], before the thread's fourth action).  Then every packet is matched
    with the event of the one before: the [n] latencies are those of
    [e 0 .. e (n - 1)], nothing is counted as lost, and the event of the
    last packet is left in the ring.  ([reserve] is to have room.) *)
Theorem stale_event_shifts_measurements {R} `{!Receiver R, !ReceiverLaws R} (sc : schedule R)
    (arrived : nat → list FeedEvent) (e : nat → FeedEvent) (n : Z) (sender : SyntheticSender) (s : mstate R) :
  calm sc arrived → recv_ok (m_recv s) → recv_queue (m_recv s) = [e 0%nat] → (∀ k, 0 < inject_ns (e k)) → 0 ≤ n < 2 ^ 31 →
  sc_room sc (8 * n) = true →
  (∀ k : nat, let j := (5 * k + m_act s)%nat in
     arrived j = [] ∧ arrived (S j) = [] ∧ arrived (S (S j)) = [] ∧
     arrived (S (S (S j))) = [e (S k)] ∧ arrived (S (S (S (S j)))) = []) →
  ∃ ts s', measure sc n sender s = pret (inr (zip_with latency ts (e <$> seq 0 (Z.to_nat n)), 0), s') ∧
    length ts = Z.to_nat n ∧ recv_queue (m_recv s') = [e (Z.to_nat n)] ∧ Forall (λ t, m_now s ≤ t) ts.
Proof.
  intros Hc Hs Hq Hpos Hn Hroom Harr. unfold measure. rewrite reserve_fits by done.
  destruct (measure_loop_stale sc arrived e sender (Z.to_nat n) 0 [] 0 s) as (ts & s' & -> & Hl & Hq' & Ht); try done.
  { intros k. rewrite Nat.add_0_r. apply Harr. }
  exists ts, s'. rewrite Nat.add_0_r in Hq'. done.
Qed.

Definition one_late (j : nat) : list FeedEvent :=
  if bool_decide (j `mod` 5 = 3)%nat then [numbered_event (S (j `div` 5))] else [].

Lemma one_late_spec k :
  let j := (5 * k + 0)%nat in
  one_late j = [] ∧ one_late (S j) = [] ∧ one_late (S (S j)) = [] ∧
  one_late (S (S (S j))) = [numbered_event (S k)] ∧ one_late (S (S (S (S j)))) = [].
Proof.
  assert (Hm : ∀ r, (r < 5)%nat → ((r + k * 5) `mod` 5 = r)%nat) by (intros r Hr; by rewrite Nat.Div0.mod_add, Nat.mod_small).
  assert (Hd : ((3 + k * 5) `div` 5 = k)%nat) by (rewrite Nat.div_add by lia; done).
  cbv zeta. unfold one_late. replace (5 * k + 0)%nat with (0 + k * 5)%nat by lia.
  rewrite <- !Nat.add_succ_l, !Hm, Hd by lia. done.
Qed.

(** Three packets: the last event read is that of the second. *)
Lemma stale_event_shifts_measurements_witness :
  ∃ ts s', measure (list_schedule one_late) 3 demo_sender (mkM 0 0 [numbered_event 0]) =
      pret (inr (zip_with latency ts [numbered_event 0; numbered_event 1; numbered_event 2], 0), s') ∧
    length ts = 3%nat ∧ m_recv s' = [numbered_event 3].
Proof.
  destruct (stale_event_shifts_measurements (list_schedule one_late) one_late numbered_event 3 demo_sender
    (mkM 0 0 [numbered_event 0])) as (ts & s' & Hm & Hl & Hq & _).
  - split; [done|done|]. intros j r _. split; [exact I|reflexivity].
  - exact I.
  - reflexivity.
  - intros k. cbn [numbered_event inject_ns]. lia.
  - lia.
  - reflexivity.
  - exact one_late_spec.
  - exists ts, s'. split; [exact Hm|]. split; [exact Hl|exact Hq].
Defined.


Definition idle_schedule : schedule (FeedHandler (list_prod Z) (list_cons Z) (list_cons xdp_desc) (list_prod xdp_desc) (SpscRingBuffer FeedEvent)) :=
  mkSchedule (λ _, 1000%nat) (λ _ h, h) (λ _, 64) (λ _, true).

(** One packet is sent and nothing comes back; the thread cannot be
    created ([EAGAIN]). *)
Lemma idle_pass :
  ∃ c, run_af_xdp no_fill no_comp no_rx no_tx 0 tiny_ring 0 1 idle_schedule 0 1 world0 os0 = pret (inr ([], 1, c), world0, os0).
Proof. eexists. vm_compute. reflexivity. Qed.

Lemma refused_pass :
  run_af_xdp no_fill no_comp no_rx no_tx 0 tiny_ring 11 1 idle_schedule 0 1 world0 os0 =
    pret (inl (HandlerThrew (ThreadRefused 11)), world0, os0).
Proof. vm_compute. reflexivity. Qed.



(** A receiver that uses no descriptor and finds an event every other time;
    nothing comes to the handler. *)
#[local] Instance list_socket : StandardSocket (list FeedEvent) := {|
  ss_ctor _ _ o := (Some [], o); ss_start q := q; ss_stop q := q; ss_dtor _ o := o;
|}.
Definition every_other : schedule (list FeedEvent) :=
  mkSchedule (λ _, 1000%nat) (λ j _, if Nat.even j then [numbered_event 1] else []) (λ _, 64) (λ _, true).

Lemma every_other_pass :
  ∃ lats c, run_standard_socket 5 every_other 0 kPackets os0 = pret (inr (lats, 0, c), os0) ∧ length lats = 1000%nat.
Proof. do 2 eexists. split; vm_compute; reflexivity. Qed.

Section Release_comparison_main.
#[local] Existing Instance release_math.
End Release_comparison_main.
