(* ===== verification/Measured.v ===== *)
(** * Measuring the running pipeline

    The measurement loop of Baseline with the running system of Pipeline as
    its receiver: between any two actions of the measuring thread the kernel,
    the receive thread and the control thread take any steps they can. *)

From S2P Require Import Prelude Queue RingBuffer FeedEvent Packet Xsk Umem XdpSocket FeedHandler Pipeline Sender Baseline.

(** ** What is measured *)

Definition stamped (ev : FeedEvent) : Prop := 0 < inject_ns ev.
#[export] Instance stamped_dec ev : Decision (stamped ev).
Proof. unfold stamped. apply _. Defined.

(** A receiver that keeps an invariant, and a history of what was popped
    that nobody else changes. *)
Section Trace.
Context {R : Type} `{!Receiver R} (sc : schedule R) (Inv : R → Prop) (popped_by : R → list FeedEvent).
Context (Hpop : ∀ r, Inv r → ∃ o r', recv_pop r = Ret (o, r') ∧ Inv r' ∧ popped_by r' = popped_by r ++ option_list o).
Context (Hnet : ∀ j r, Inv r → Inv (sc_net sc j r) ∧ popped_by (sc_net sc j r) = popped_by r).
Implicit Types s : mstate R.

(** What a stretch of the measurement did: the stamped events it popped were
    measured, each once, in order. *)
Definition measured s s' (lats : list Z) : Prop :=
  Inv (m_recv s') ∧ m_now s ≤ m_now s' ∧ ∃ evs ts,
    popped_by (m_recv s') = popped_by (m_recv s) ++ evs ∧
    lats = zip_with latency ts (filter stamped evs) ∧ length ts = length (filter stamped evs) ∧
    Forall (λ t, m_now s ≤ t ≤ m_now s') ts.

Lemma measured_refl s : Inv (m_recv s) → measured s s [].
Proof. intros Hs. split; [done|]. split; [lia|]. exists [], []. by rewrite app_nil_r. Qed.

Lemma measured_trans s1 s2 s3 l1 l2 : measured s1 s2 l1 → measured s2 s3 l2 → measured s1 s3 (l1 ++ l2).
Proof.
  intros (_ & T1 & e1 & ts1 & P1 & -> & L1 & F1) (I2 & T2 & e2 & ts2 & P2 & -> & L2 & F2).
  split; [done|]. split; [lia|]. exists (e1 ++ e2), (ts1 ++ ts2). rewrite P2, P1, filter_app, !length_app, L1, L2.
  split_and!; [by rewrite app_assoc|by rewrite zip_with_app by done|done|].
  apply Forall_app. split; [eapply Forall_impl; [exact F1|]|eapply Forall_impl; [exact F2|]]; cbn; lia.
Qed.

Lemma elapse_measured d s : 0 ≤ d → Inv (m_recv s) → measured s (elapse sc d s) [] ∧ m_now s + d ≤ m_now (elapse sc d s).
Proof using Hnet.
  intros Hd Hs. unfold measured, elapse. cbn [m_recv m_now]. destruct (Hnet (m_act s) (m_recv s) Hs) as [H1 H2].
  split; [|lia]. split; [done|]. split; [lia|]. exists [], []. by rewrite H2, app_nil_r.
Qed.

(** A [pop] that found [o], and the clock reading that follows it. *)
Lemma pop_measured s :
  Inv (m_recv s) → ∃ o s', do_pop sc s = Ret (o, s') ∧ Inv (m_recv s') ∧ m_now s ≤ m_now s' ∧
    popped_by (m_recv s') = popped_by (m_recv s) ++ option_list o.
Proof using Hpop Hnet.
  intros Hs. unfold do_pop. destruct (elapse_measured 0 s ltac:(lia) Hs) as [(I1 & T1 & e & ts & P1 & E1 & L1 & _) _].
  destruct (Hpop _ I1) as (o & r & -> & Hr & Hp). ub_step. do 2 eexists. split; [done|]. cbn [set_recv m_recv m_now].
  split; [done|]. split; [done|]. rewrite Hp. unfold elapse. cbn [m_recv]. by rewrite (proj2 (Hnet _ _ Hs)).
Qed.

Lemma poll_measured fuel deadline : ∀ s,
  Inv (m_recv s) → deadline - m_now s ≤ us 10 * (Z.of_nat fuel - 1) → (0 < fuel)%nat →
  ∃ lat s', poll sc fuel deadline s = pret (lat, s') ∧ measured s s' (option_list lat).
Proof using Hpop Hnet.
  unfold us. induction fuel as [|fuel IH]; intros s Hs Hd Hf; [lia|]. cbn [poll]. unfold clock.
  destruct (elapse_measured 0 s ltac:(lia) Hs) as [M1 Ht1]. set (s1 := elapse sc 0 s) in *. clearbody s1.
  case_bool_decide as Hlt; [|by exists None, s1].
  destruct (pop_measured s1 (proj1 M1)) as (o & s2 & -> & I2 & T2 & P2). cbn [lift pbind pret].
  assert (Hagain : filter stamped (option_list o) = [] →
    ∃ lat s', poll sc fuel deadline (sleep_for sc (us 10) s2) = pret (lat, s') ∧ measured s s' (option_list lat)).
  { intros Hno. unfold sleep_for, us. destruct (elapse_measured (10 * 1000) s2 ltac:(lia) I2) as [M3 Ht3].
    destruct (IH (elapse sc (10 * 1000) s2) (proj1 M3)) as (lat & s' & -> & M4); [lia|destruct fuel; lia|].
    exists lat, s'. split; [done|]. apply (measured_trans _ s1 _ []); [exact M1|]. apply (measured_trans _ s2 _ []).
    - split; [done|]. split; [done|]. exists (option_list o), []. by rewrite Hno.
    - by apply (measured_trans _ _ _ []  _ M3). }
  destruct o as [ev|]; [|by apply Hagain]. case_bool_decide as Hev.
  2: { apply Hagain. change (option_list (Some ev)) with [ev]. by rewrite filter_cons_False. }
  destruct (elapse_measured 0 s2 ltac:(lia) I2) as [(I3 & T3 & _) _]. set (s3 := elapse sc 0 s2) in *.
  assert (P3 : popped_by (m_recv s3) = popped_by (m_recv s2)) by (unfold s3, elapse; cbn [m_recv]; by rewrite (proj2 (Hnet _ _ I2))).
  clearbody s3. do 2 eexists. split; [done|]. apply (measured_trans _ s1 _ [] [_] M1).
  split; [done|]. split; [lia|]. exists [ev], [m_now s3]. rewrite P3, P2. change (option_list (Some ev)) with [ev]. rewrite filter_cons_True by done.
  split_and!; [done..|]. apply Forall_singleton. lia.
Qed.

(** The measurement, when every [sendto] succeeds. *)
Lemma measure_loop_measured sender n : (∀ j, 0 ≤ sc_sendto sc j) → ∀ lats lost s,
  Inv (m_recv s) → ∃ new s', measure_loop sc n sender lats lost s =
      pret (inr (lats ++ new, lost + (Z.of_nat n - Z.of_nat (length new))), s') ∧ measured s s' new ∧ (length new ≤ n)%nat.
Proof using Hpop Hnet.
  intros Hsend. induction n as [|n IH]; intros lats lost s Hs.
  { exists [], s. rewrite app_nil_r, Z.add_0_r. split; [done|]. split; [by apply measured_refl|done]. }
  cbn [measure_loop]. unfold do_send, send_one. cbv zeta. destruct (elapse_measured 0 s ltac:(lia) Hs) as [M1 _].
  set (s1 := elapse sc 0 s) in *. clearbody s1. rewrite bool_decide_false by (pose proof (Hsend (m_act s1)); lia).
  cbn [fst]. unfold clock. destruct (elapse_measured 0 s1 ltac:(lia) (proj1 M1)) as [M2 _].
  set (s2 := elapse sc 0 s1) in *. clearbody s2.
  destruct (poll_measured kPollTurns (m_now s2 + ms 50) s2 (proj1 M2)) as (lat & s3 & -> & M3);
    [unfold kPollTurns, ms, us; lia|unfold kPollTurns; lia|].
  cbn [pbind pret]. destruct (IH (lats ++ option_list lat) (match lat with None => lost + 1 | Some _ => lost end) s3 (proj1 M3))
    as (new & s4 & -> & M4 & Hn).
  exists (option_list lat ++ new), s4. split_and!.
  - rewrite length_app, <- app_assoc. match goal with |- pret (inr (_, ?a), _) = pret (inr (_, ?b), _) => replace b with a; [done|] end.
    destruct lat; cbn; lia.
  - apply (measured_trans _ s1 _ [] _ M1), (measured_trans _ s2 _ [] _ M2). by apply (measured_trans _ s3).
  - rewrite length_app. destruct lat; cbn; lia.
Qed.
End Trace.

(** ** The running pipeline as a receiver *)

Section System.
Context {FR CR RR TR Q : Type} `{!SocketKernel RR TR}.
Context `{!XskProd FR Z, !XskProdLaws FR Z, !XskCons RR xdp_desc, !XskConsLaws RR xdp_desc}.
Context `{!BoundedQueue Q FeedEvent}.
#[local] Abbreviation state := (sys FR CR RR TR Q).

(** The consumer's step of the machine. *)
Definition sys_pop (s : state) : outcome (option FeedEvent * state) :=
  '(o, h) ← FeedHandler_pop (y_h s);
  Ret (o, mkSys h (y_pc s) (y_descs s) (y_mem s) (y_kernel s) (y_starts s) (y_arrived s) (y_seen s)
            (y_popped s ++ option_list o)).

#[export] Instance sys_receiver : Receiver state := {|
  recv_pop := sys_pop;
  recv_packets_received s := packets_received (y_h s);
  recv_packets_dropped s := packets_dropped (y_h s);
|}.

(** Steps of the others: any of the machine, but nobody else pops and the
    handler is not started again. *)
Definition others (s s' : state) : Prop :=
  rtc sys_step s s' ∧ y_popped s' = y_popped s ∧ y_starts s' = y_starts s.

Definition running_once (s : state) : Prop := reachable s ∧ (y_starts s ≤ 1)%nat.

Lemma sys_pop_ok (s : state) :
  running_once s → ∃ o s', sys_pop s = Ret (o, s') ∧ running_once s' ∧ y_popped s' = y_popped s ++ option_list o.
Proof.
  intros [Hr Hst]. unfold sys_pop, FeedHandler_pop.
  destruct (bq_pop_spec (ring_ (y_h s)) (v_ring s (sys_reachable_inv s Hr Hst))) as (q & Hp & _).
  rewrite Hp. ub_step. do 2 eexists. split; [done|]. split; [|done]. split; [|done].
  destruct Hr as (s0 & Hi & Hr). exists s0. split; [done|]. eapply rtc_r; [exact Hr|].
  apply step_pop. unfold FeedHandler_pop. rewrite Hp. by ub_step.
Qed.

Lemma others_ok (s s' : state) : running_once s → others s s' → running_once s' ∧ y_popped s' = y_popped s.
Proof.
  intros [(s0 & Hi & Hr) Hst] (Ho & Hp & Hs). split; [|done]. split; [|lia]. exists s0. split; [done|]. by etrans.
Qed.
(** The receive thread acts once. *)
Definition thread_moves (y : state) : state :=
  match thread_step (mkTimespec 1 0) y with Ret y' => y' | Undef => y end.

Lemma thread_moves_others (y : state) : others y (thread_moves y).
Proof.
  unfold thread_moves, others. destruct (thread_step _ y) as [y'|] eqn:Hs; [|by split; [apply rtc_refl|]].
  split; [by eapply rtc_once, step_thread|]. by destruct (thread_step_frame _ _ _ Hs) as (-> & -> & _).
Qed.
End System.

(** ** Properties *)

(** C24: the latencies measured on the running pipeline are those of the
    frames that arrived.  The measuring thread pops from a handler whose
    receive thread, kernel and control thread take any steps in between
    (nobody else pops and the handler is not started again).  If [reserve]
    has room and every [sendto] succeeds, [measure] returns; every stamped event it popped was
    measured exactly once, in the order popped, at a time within the
    measurement, and the packets it calls lost make up the number sent; and
    what was popped is, in order and without repetition, among the events
    the receive thread made of the oldest frames the kernel delivered. *)
Theorem measured_latencies {FR CR RR TR Q} `{!SocketKernel RR TR}
    `{!XskProd FR Z, !XskProdLaws FR Z, !XskCons RR xdp_desc, !XskConsLaws RR xdp_desc}
    `{!BoundedQueue Q FeedEvent} (sc : schedule (sys FR CR RR TR Q)) (n : Z) (sender : SyntheticSender)
    (s : mstate (sys FR CR RR TR Q)) :
  reachable (m_recv s) → (y_starts (m_recv s) ≤ 1)%nat → (∀ j y, others y (sc_net sc j y)) →
  (∀ j, 0 ≤ sc_sendto sc j) → 0 ≤ n < 2 ^ 31 → sc_room sc (8 * n) = true →
  ∃ lats lost s', measure sc n sender s = pret (inr (lats, lost), s') ∧
    let y := m_recv s' in
    reachable y ∧ 0 ≤ lost ∧ Z.of_nat (length lats) + lost = n ∧
    (∃ popped ts, y_popped y = y_popped (m_recv s) ++ popped ∧
       lats = zip_with latency ts (filter stamped popped) ∧ length ts = length (filter stamped popped) ∧
       Forall (λ t, m_now s ≤ t ≤ m_now s') ts) ∧
    y_popped y `sublist_of` omap sn_event (y_seen y) ∧ (sn_frame <$> y_seen y) `prefix_of` y_arrived y.
Proof.
  intros Hr Hst Hnet Hsend Hn Hroom. unfold measure. rewrite reserve_fits by done.
  destruct (measure_loop_measured sc running_once y_popped) with (sender := sender) (n := Z.to_nat n) (lats := @nil Z) (lost := 0) (s := s)
    as (lats & s' & -> & ([Hr' Hst'] & Ht & evs & ts & Hp & Hl & Hlen & Hts) & Hle); [apply sys_pop_ok| |done|done|].
  { intros j y Hy. by apply others_ok. }
  do 3 eexists. split; [done|]. cbn [app]. pose proof (sys_reachable_inv _ Hr' Hst') as Hs'.
  split_and!; [done|lia|lia| | |].
  - by exists evs, ts.
  - etrans; [|exact (v_fifo _ Hs')]. by apply sublist_inserts_r.
  - rewrite (v_arrived _ Hs'). by apply prefix_app_r.
Qed.

(** The handler has been started; the receive thread acts once between any
    two actions of the measuring thread. *)
Lemma measured_latencies_witness :
  ∃ y lats lost s', rtc sys_step quiet_system y ∧ y_pc y = PcTest ∧
    measure (mkSchedule (λ _, 1000%nat) (λ _, thread_moves) (λ _, 64) (λ _, true)) 1 demo_sender (mkM 0 0 y) = pret (inr (lats, lost), s') ∧
    Z.of_nat (length lats) + lost = 1 ∧ y_popped (m_recv s') `sublist_of` omap sn_event (y_seen (m_recv s')).
Proof.
  destruct started_system as (y & Hr & Hst & Hpc).
  destruct (measured_latencies (mkSchedule (λ _, 1000%nat) (λ _, thread_moves) (λ _, 64) (λ _, true)) 1 demo_sender (mkM 0 0 y))
    as (lats & lost & s' & Hm & _ & _ & Hsum & _ & Hsub & _).
  - exists quiet_system. split; [exact quiet_system_init|exact Hr].
  - cbn [m_recv]. rewrite Hst. lia.
  - intros j0 z. apply thread_moves_others.
  - intros j. cbn [sc_sendto]. lia.
  - lia.
  - reflexivity.
  - exists y, lats, lost, s'. split; [exact Hr|]. split; [exact Hpc|]. split; [exact Hm|]. split; [exact Hsum|exact Hsub].
Defined.
